(* ===== verification/_CoqProject ===== *)
-Q . S2P
Prelude.v
GoText.v
PortRange.v
PortRangeFacts.v
Version.v
VersionFacts.v
Assumes.v
AssumesFacts.v
Hooks.v
OpState.v
Operations.v
OperationFacts.v
RelationState.v
RelationManager.v
Resolver.v
RelationTracker.v
TrackerFacts.v
RelationResolver.v
RelationProgress.v
SmallResolvers.v
WorkloadFacts.v
Leadership.v
LeadershipFacts.v
StableLeadership.v
Fortress.v
FortressFacts.v
Occupy.v
Storage.v
StorageFacts.v
Secrets.v
SecretsFacts.v
UniterResolver.v
RemoteState.v
RemoteFacts.v
RemoteInvariant.v
RemoteSlices.v
Uniter.v
AgentProgress.v
UniterFacts.v
Samples.v
RelationSamples.v
AgentSamples.v
StorageSamples.v
WatcherSamples.v
LeadershipSamples.v
LeaseStore.v
Txn.v
LeaseStoreFacts.v
LeaseSafety.v
LeaseManager.v
LeaseManagerFacts.v
TxnFacts.v
LeaseLoop.v
LeaseClients.v
LeadershipLease.v
LeaderGuard.v
LeaseSamples.v
TxnSamples.v
GuardSamples.v
ChangeLog.v
ChangeLogFacts.v
Stream.v
StreamFacts.v
Multiplexer.v
MultiplexerFacts.v
EventSource.v
ChangeFlow.v
StreamSamples.v
