(* ===== verification/Prelude.v ===== *)
(** * Juju: a verification library for the unit agent, leases and change streams

    A juju unit agent (the "uniter", internal/worker/uniter) runs a charm.  The
    controller tells it, through watchers, what it wants of the unit; the agent
    compares that with what it has done so far and runs charm hooks, upgrades,
    actions and commands, one at a time, until the two agree, through restarts
    of its process at any point.  Among the units of an application one is the
    leader, by a lease that the controllers keep in a database; and what changes
    in a database reaches watchers in the controllers by a log of changes.  This
    library models the agent, from the watcher that collects the wishes of the
    controller to the record the agent keeps of its own progress, the leases, from
    the agent's tracker to the tables, and the stream of changes, from the tables
    to the watchers, with some of the shared code below them.

    ** How the parts interact

    The remote state watcher (remotestate/watcher.go) keeps a snapshot and
    signals when it has changed.  The resolver loop (resolver/loop.go) wakes up,
    takes a snapshot, and asks the uniter's resolver (resolver.go) for an
    operation.  That resolver asks the specialised ones in a fixed order: reboot,
    created relations, leadership, workload events, secrets, actions, commands,
    storage, relations.  An operation (operation/) is run by the executor
    (operation/executor.go) in three steps, prepare, execute and commit, each of
    which may record a new operation state on the controller.  Preparing and
    committing a hook goes through the callbacks (op_callbacks.go) to the part
    that owns the hook: the relation state tracker, the storage attachments or
    the secrets tracker, each with a saved state of its own.  The loop locks the
    charm directory with a fortress (internal/worker/fortress) while the charm
    changes; workers that need the directory are guests of it.

    The leadership tracker (internal/worker/leadership) claims leadership for the
    unit again and again: over the API client (api/agent/leadership) and the facade
    (apiserver/facades/agent/leadership), which checks who may claim what, to the
    lease manager of a controller (internal/worker/lease).  The manager runs each
    claim in a goroutine, with retries, tells those who wait for a lease when it is
    gone, and works on the lease tables (domain/lease) by transactions
    (internal/database/txn, internal/worker/dbaccessor, domain).  A function can be
    run while a unit is leader (domain/leaseservice.go), or while leadership does
    not change.

    Triggers log every change of a watched row in the change log of its database.
    On each controller a stream (internal/changestream/stream) reads the log, hands
    what it reads as terms to an event multiplexer
    (internal/changestream/eventmultiplexer), and records how far it is.  The
    multiplexer hands the subscriptions what they ask for; watchers
    (core/watcher/eventsource) subscribe and tell their consumers.  A pruner
    (internal/worker/changestreampruner) deletes what all controllers have read.

    ** Conventions

    A stateful function is a computation [M W A], from a world [W] to a result
    and a new world; an error keeps the changes made before it, as in Go, and a
    run-time panic is an error that no [if err != nil] catches.  A component's
    state is reached by a lens into [W], so that components are put together by
    giving each its lens.  What is not in the repository, and what is only an API
    call, is a field of a record of operations ([RunnerFactory], [TrackerAPI],
    [SqlDriver], ...) or of a class ([Yaml], [Names], [SecretURIs]), on which a
    theorem puts what it needs as hypotheses: a YAML library that reads back what
    it wrote, a controller that keeps what was stored, a driver whose commits are
    all or nothing.  Goroutines are step functions on points of the code, and their
    interleavings inductive relations; what a [select] may choose, and what the
    world answers, comes with the events.  Iteration over a Go map
    is [range], of the class [MapOrder], with any order in every world, so that
    theorems hold for all orders.  Integers are [Z]; [GoText.v] has the
    wrap-around and the range errors where text is turned into integers of the
    machine's width, and counters of the width of the machine wrap around where
    they are.  Loggers, tracing and metrics are left out.

    ** Files

    - [Prelude.v]: errors, the monad and its Hoare triples, lenses, map order,
      the tactics and hint databases.  [GoText.v]: what is used of strings and
      strconv.
    - [Hooks.v]: core/life, domain/deployment/charm/hooks, uniter/hook.
    - [OpState.v], [Operations.v], [OperationFacts.v]: uniter/operation.
      [OpState.v] has State, StateOps and the executor ([executor_Run],
      [executor_Skip]); [Operations.v] an [operation] for each file of the
      package, and [NewFactory].
    - [RelationState.v], [RelationManager.v], [RelationTracker.v],
      [RelationResolver.v]: uniter/relation, file by file; [TrackerFacts.v] and
      [RelationProgress.v] their theorems.  [StateManagerSpec] is what the
      manager promises the tracker: the tracker's theorems are proved from it,
      and the manager's show that it holds.
    - [Resolver.v]: remotestate/snapshot.go and uniter/resolver; [loop_turn] is
      one turn of the loop, from one [loop_point] to the next.
    - [SmallResolvers.v], [WorkloadFacts.v]: the resolvers for reboot,
      leadership, actions, commands and workload events, with their queues.
    - [Storage.v], [StorageFacts.v]: uniter/storage.  [Secrets.v],
      [SecretsFacts.v]: uniter/secrets.
    - [UniterResolver.v]: uniter/resolver.go and op_callbacks.go.  [Uniter.v]
      puts all resolvers together as uniter.go does; [UniterFacts.v] and
      [AgentProgress.v] are about the whole.
    - [RemoteState.v], [RemoteFacts.v], [RemoteInvariant.v]: the remote state
      watcher, its [select] as [watcher_event] and [watcher_step].
      [RemoteSlices.v]: its slices on a heap of arrays, to follow aliasing.
    - [Leadership.v], [LeadershipFacts.v]: internal/worker/leadership/tracker.go,
      from which the watcher learns whether the unit is leader.
      [StableLeadership.v]: [WithStableLeadership] beside its loop.
    - [Fortress.v], [FortressFacts.v]: internal/worker/fortress, its goroutines
      as events that interleave in any order.  [Occupy.v]: a worker as a guest.
    - [LeaseStore.v], [LeaseStoreFacts.v], [LeaseSafety.v]: the lease tables and
      every operation on them, of core/lease and domain/lease.  [LeaseDatabase] is
      what they ask of a database.
    - [Txn.v], [TxnFacts.v]: the layers below it; [lease_database] is such a
      database over a driver.
    - [LeaseManager.v], [LeaseManagerFacts.v], [LeaseLoop.v]: internal/worker/lease;
      [choose] is a turn of the manager's loop, [run_goroutine] a goroutine of a
      claim or a revocation.
    - [LeaseClients.v]: those who use the manager: apiserver/leadership.go, the
      facade, the API client, the lease service with [WithLeader], the singular
      flag, the claims of the object store.  [LeadershipLease.v] puts the tracker,
      the clients and the manager together; [LeaderGuard.v] is about [WithLeader]
      beside the manager.
    - [ChangeLog.v], [ChangeLogFacts.v]: the change log, the query of the stream,
      domain/changestream and the pruner.  [Stream.v], [StreamFacts.v]: the stream
      ([loop_step]), and any number of them at one database ([cluster_step]).
      [Multiplexer.v], [MultiplexerFacts.v]: the event multiplexer ([mux_turn]).
      [EventSource.v]: the watchers.  [ChangeFlow.v]: a stream and a multiplexer
      together.
    - [PortRange.v], [Version.v], [Assumes.v] and their [Facts]:
      core/network/portrange.go, core/semversion, core/assumes with
      domain/deployment/charm/assumes.
    - [Samples.v], [RelationSamples.v], [AgentSamples.v], [StorageSamples.v],
      [WatcherSamples.v], [LeadershipSamples.v], [LeaseSamples.v], [TxnSamples.v],
      [GuardSamples.v], [StreamSamples.v]: the theorems applied to concrete worlds,
      with every hypothesis discharged by computation.

    ** What is shown

    - The record.  The executor's state is valid whatever operations do and
      whatever fails; a restarted agent finds the state it had; every state an
      operation of the factory asks to record is valid; lifecycle flags change
      only at commits; an upgrade keeps the hook it interrupted.
    - The whole agent.  With calm surroundings the loop installs, configures and
      starts a new unit, and stops and removes a dying one, by exactly the right
      hooks; a failed hook blocks all others.
    - Relations.  The hooks of a remote unit are an orderly life (joined, changed,
      departed), relation-broken comes last; the tracker refines that protocol
      and starts in agreement with its saved states; the manager refines a map
      and survives restarts; the resolver reaches agreement with the remote
      members, or breaks the relation, in a bounded number of hooks.
    - Storage and secrets.  Storage hooks alternate and are due when proposed;
      each due secret item gets one hook; what is gone is forgotten; both survive
      restarts.
    - The watcher.  It signals first when everything was seen once and then for
      all news; its snapshot is always well formed and no event makes it panic;
      pending work stays until it is reported done; a snapshot is not changed
      afterwards, but for the one list that is not copied.
    - Leadership.  A ticket says leader only while the lease is good for the
      tracker's duration, every ticket is answered exactly once, and the tracker
      always has a renewal or a claim coming.  A function that runs with stable
      leadership does so only while leadership does not change.
    - Leases.  The operations on the tables refine an abstract store, whose
      well-formedness they keep, and no two holders have one lease at a time; a
      claim that succeeds is good for its duration, through the retries of the
      manager and commits whose outcome is lost; so is what the agent's tracker
      says, through all layers.  Every request is answered, a timer is always
      pending, and those who wait for a lease are told once, when it is gone.  The
      function of [WithLeader] runs only under the manager's eyes, and leaves no
      goroutine behind.
    - Transactions.  Through all layers and retries a function runs at one moment
      and all or nothing.
    - The fortress.  Lockdown excludes visits in every interleaving, guards are
      never stuck, and the wait group is misused only after an aborted lockdown; an
      occupant is a guest as long as it runs.
    - Changes.  What the stream reads is the newest change of each thing; with any
      number of controllers, restarts, failing transactions and a pruner no change is
      lost, the pruner deletes only what was told, and a stream catches up.  A
      subscription receives all it asked for, in order and once, or is closed; so a
      subscriber learns of every change, and a watcher passes on what it received.
    - Shared code.  Combining port ranges is exact and bounds are kept; versions
      are read back and totally ordered; assumes expressions mean what they say
      and are read back.
    - Defects, as theorems about what the code does: an unreadable saved state
      and a skipped secret-rotate lead to nil dereferences, suspended relations
      are forgotten at start, an upgrade turns a queued hook into a failed one
      ([upgrade_fails_queued_hook]), a killed hook makes the loop panic later
      ([killed_hook_panics_later]), a storage record goes stale
      ([stale_storage_record]), a removed relation stays in the snapshot
      ([removed_suspended_relation_stays]), expired revisions are shared
      ([snapshot_shares_expired]), an aborted lockdown makes the fortress panic
      ([cancelled_lockdown_can_panic]), revoking a pinned lease stops the manager
      ([revoking_pinned_lease_stops_manager]), a commit that timed out is reported
      as a success ([timed_out_commit_reports_success]), a cancellation of another
      context is taken for success ([foreign_cancellation_is_success]), a stale
      controller goes unnoticed ([stale_watermark_unnoticed]).

    ** Bounds and fuel

    [Loop n] runs n turns of the loop; the theorems about the whole agent follow
    it turn by turn, one for each hook and one for the answer it stops with, so
    they need no bound.  [resolve_relation] takes
    fuel, and its theorems say which amount is enough: the distance of the local
    from the remote state, or the number of members and two.  [drop_spaces] has
    the length of its text as fuel, and every round takes a byte at least.  The
    retries of the lease manager and of the transaction runner are as many as the
    code makes.  The ids of the change log end at the largest integer of 64 bits,
    which the theorem on catching up stays below, and the counter of subscriptions
    does not wrap around where they are told apart.  All
    other recursion is structural.

    ** Not modelled

    Running charm code (uniter/runner, the hook contexts and the jujuc tools) and
    unpacking charms (uniter/charm) are processes and file I/O; the operations
    have them as parameters.  The pebble pollers, the run listener and the timers
    feed queues that are modelled.  Of uniter.go, the set-up, the termination of
    the unit and the reporting of its status are sequences of API calls.  Left out
    are also, of semversion, binary versions and the JSON and YAML
    methods.  The goroutine of the loop that forwards snapshots to a running
    operation changes nothing that is modelled but the pending signal.  Of the
    databases, opening, replacing and migrating them is I/O of the driver; the
    triggers of the tables are generated, and are an insertion into the log at any
    time; the workers around leases and streams that only start, stop and report
    others are wiring, as are the singular flag's goroutine and the legacy
    watchers.  The rest
    of the repository (API, facades, providers, domain services over SQL, other
    workers) is outside: its logic is in databases and remote systems. *)

From Stdlib Require Export ZArith Lia.
From stdpp Require Export base option gmap strings sorting numbers list.

(** ** Errors

    A Go [error] value is modelled by its cause.  [errors.Trace],
    [errors.Annotate] and [errors.Capture] wrap an error without changing the
    value [errors.Cause] and [errors.Is] look at, so they are the identity
    here.  Package-level sentinel errors are [ErrConst] with their text; an
    error made by [errors.New] or [errors.Errorf] is [ErrNew] with its format
    string; the juju error kinds that the code tests for are constructors; an
    API error carries its [params.Error] code; an error struct that the code
    recognises by a type assertion is [ErrType] with the name of its type and
    its text; a run-time panic of the Go program is [GoPanic]. *)
Inductive error : Type :=
| ErrConst (msg : string)
| ErrNew (msg : string)
| NotFound (what : string)
| NotValid (what : string)
| NotProvisioned (what : string)
| BadRequest (what : string)
| ErrCode (code : string)
| ErrType (type text : string)
| GoPanic (what : string).

#[global] Instance error_eq_dec : EqDecision error.
Proof. solve_decision. Defined.

(** [err.Error()], up to the arguments of a format string. *)
Definition error_text (e : error) : string :=
  match e with
  | ErrConst s | ErrNew s | NotFound s | NotValid s | NotProvisioned s | BadRequest s
  | ErrCode s | ErrType _ s | GoPanic s => s
  end.

(** The result of a fallible Go call [(A, error)]. *)
Inductive result (A : Type) : Type :=
| Ok (a : A)
| Err (e : error).
Arguments Ok {A} _.
Arguments Err {A} _.

#[global] Instance result_eq_dec {A} `{EqDecision A} : EqDecision (result A).
Proof. solve_decision. Defined.

#[global] Instance result_bind : MBind result := λ A B k r,
  match r with Ok a => k a | Err e => Err e end.
#[global] Instance result_ret : MRet result := λ A a, Ok a.

Definition is_ok {A} (r : result A) : bool :=
  match r with Ok _ => true | Err _ => false end.

(** The error of a context that was cancelled. *)
Abbreviation context_Canceled := (ErrConst "context canceled").

(** The codes of rpc/params that the unit agent looks at (rpc/params/apierror.go). *)
Abbreviation CodeNotFound := "not found".
Abbreviation CodeUnauthorized := "unauthorized access".
Abbreviation CodeActionNotAvailable := "action no longer available".
Abbreviation CodeAlreadyExists := "already exists".

Definition IsCodeNotFoundOrCodeUnauthorized (e : error) : bool :=
  bool_decide (e = ErrCode CodeNotFound) || bool_decide (e = ErrCode CodeUnauthorized).
Definition IsCodeActionNotAvailable (e : error) : bool :=
  bool_decide (e = ErrCode CodeActionNotAvailable).

(** ** Libraries

    The YAML library, for one type of data. *)
Class Yaml (A : Type) : Type := {
  yaml_Marshal : A → result string;
  yaml_Unmarshal : string → result A;
}.

(** ** Effectful code

    A Go function that reads or writes state outside its arguments is a
    function over a world [W]: the receiver's fields, the API server behind
    an interface, or both.  [M W A] runs in a world and gives a result and
    the world it leaves behind; an error ends the function early, and the
    effects performed before it stay. *)
Definition M (W A : Type) : Type := W → result A * W.

Section monad.
Context {W : Type}.

#[global] Instance M_ret : MRet (M W) := λ A a w, (Ok a, w).
#[global] Instance M_bind : MBind (M W) := λ A B k m w,
  match m w with
  | (Ok a, w') => k a w'
  | (Err e, w') => (Err e, w')
  end.

Definition throw {A} (e : error) : M W A := λ w, (Err e, w).
Definition get : M W W := λ w, (Ok w, w).
Definition put (w' : W) : M W () := λ _, (Ok (), w').
Definition modify (f : W → W) : M W () := λ w, (Ok (), f w).
Definition gets {A} (f : W → A) : M W A := λ w, (Ok (f w), w).

(** [v, err := f(...)]: keep the error as a value.  A panic is not an error
    value and keeps unwinding. *)
Definition try {A} (m : M W A) : M W (result A) := λ w,
  match m w with
  | (Err (GoPanic s), w') => (Err (GoPanic s), w')
  | (r, w') => (Ok r, w')
  end.

(** [return r] for a result computed by pure code. *)
Definition lift_result {A} (r : result A) : M W A := λ w, (r, w).

(** [for _, x := range l { if err := f(x); err != nil { return err } }] *)
Fixpoint for_each {A} (l : list A) (f : A → M W ()) : M W () :=
  match l with
  | [] => mret ()
  | x :: l' => f x ≫= λ _, for_each l' f
  end.
End monad.

(** A call that cannot fail. *)
Definition always {W A} (f : W → A * W) : M W A := λ w,
  let '(a, w') := f w in (Ok a, w').

(** [defer k()], for a function that returns. *)
Definition finally {W A} (m : M W A) (k : M W ()) : M W A :=
  r ← try m; _ ← k; lift_result r.

(** Run code over one component of a larger world. *)
Definition zoom {W V A} (rd : W → V) (wr : V → W → W) (m : M V A) : M W A :=
  λ w, let '(r, v) := m (rd w) in (r, wr v w).

(** ** Components of the world

    The fields of a Go object that several functions share are one component
    of the world, reached through a lens. *)
Record lens (W V : Type) : Type := MkLens {
  view : W → V;
  update : V → W → W;
}.
Arguments MkLens {W V} _ _.
Arguments view {W V} _ _.
Arguments update {W V} _ _ _.

(** A lens reads back what it wrote. *)
Class LensLaws {W V} (L : lens W V) : Prop := {
  view_update v w : view L (update L v w) = v;
}.

(** Two components that do not overlap: writing one leaves the other. *)
Class Apart {W V U} (L : lens W V) (f : W → U) : Prop := {
  apart v w : f (update L v w) = f w;
}.

Section lens.
Context {W V : Type} (L : lens W V).

Definition look {A} (f : V → A) : M W A := gets (λ w, f (view L w)).
Definition over (f : V → V) : M W () := modify (λ w, update L (f (view L w)) w).
End lens.

(** The iteration order of a Go map is not specified, and may differ each time:
    a [for ... range] over a map visits its entries in an order that depends on
    the world. *)
Class MapOrder (W : Type) : Type := {
  range {A : Type} : W → list A → list A;
}.
Class MapOrderLaws (W : Type) {MO : MapOrder W} : Prop := {
  range_perm {A} w (l : list A) : range w l ≡ₚ l;
}.

(** [m] leaves what [f] reads of the world alone. *)
Definition keeps {W U A} (f : W → U) (m : M W A) : Prop :=
  ∀ w r w', m w = (r, w') → f w' = f w.

(** What a function guarantees of the world it leaves, by its outcome, when it
    starts in a world that satisfies [P]. *)
Definition triple {W A} (P : W → Prop) (m : M W A) (Q : A → W → Prop)
    (E : error → W → Prop) : Prop :=
  ∀ w r w', P w → m w = (r, w') →
    match r with Ok a => Q a w' | Err e => E e w' end.

Lemma mret_inv {W A} (a : A) (r : result A) (w w' : W) :
  (mret a : M W A) w = (r, w') → r = Ok a ∧ w' = w.
Proof. unfold mret, M_ret. naive_solver. Qed.

Lemma throw_inv {W A} e (r : result A) (w w' : W) :
  (throw e : M W A) w = (r, w') → r = Err e ∧ w' = w.
Proof. unfold throw. naive_solver. Qed.

Section monad_lemmas.
Context {W : Type}.

Lemma bind_ok {A B} (m : M W A) (k : A → M W B) w a w' :
  m w = (Ok a, w') → (m ≫= k) w = k a w'.
Proof. intros H. unfold mbind, M_bind. by rewrite H. Qed.

Lemma bind_err {A B} (m : M W A) (k : A → M W B) w e w' :
  m w = (Err e, w') → (m ≫= k) w = (Err e, w').
Proof. intros H. unfold mbind, M_bind. by rewrite H. Qed.

(** A successful sequence is two successes; the inversion every proof about
    effectful code starts from. *)
Lemma bind_inv_ok {A B} (m : M W A) (k : A → M W B) w b w' :
  (m ≫= k) w = (Ok b, w') →
  ∃ a w1, m w = (Ok a, w1) ∧ k a w1 = (Ok b, w').
Proof.
  unfold mbind, M_bind. destruct (m w) as [[a|e] w1]; intros; [|done].
  by eexists _, _.
Qed.

Lemma bind_inv_err {A B} (m : M W A) (k : A → M W B) w e w' :
  (m ≫= k) w = (Err e, w') →
  m w = (Err e, w') ∨ ∃ a w1, m w = (Ok a, w1) ∧ k a w1 = (Err e, w').
Proof.
  unfold mbind, M_bind. destruct (m w) as [[a|e'] w1]; intros; [right|left].
  - by eexists _, _.
  - by simplify_eq.
Qed.

(** Invariants of loops: what every iteration keeps, the loop keeps. *)
Lemma for_each_inv {A} (P : W → Prop) (l : list A) (f : A → M W ()) w r w' :
  (∀ x w r w', x ∈ l → P w → f x w = (r, w') → P w') →
  P w → for_each l f w = (r, w') → P w'.
Proof.
  revert w. induction l as [|x l IH]; simpl; intros w Hf HP H.
  { unfold mret, M_ret in H. by simplify_eq. }
  unfold mbind, M_bind in H. destruct (f x w) as [[[]|e] w1] eqn:E.
  - eapply (IH w1); [|by eapply Hf; [left|..]|done].
    intros; eapply Hf; [by right|done..].
  - simplify_eq. by eapply Hf; [left|..].
Qed.

(** Rules for triples. *)
Section triple.
Context {A B : Type} (P : W → Prop) (E : error → W → Prop).

Lemma triple_ret (a : A) (Q : A → W → Prop) :
  (∀ w, P w → Q a w) → triple P (mret a) Q E.
Proof. intros H w r w' HP Hr. apply mret_inv in Hr as [-> ->]. auto. Qed.

Lemma triple_throw e (Q : A → W → Prop) :
  (∀ w, P w → E e w) → triple P (throw e) Q E.
Proof. intros H w r w' HP Hr. apply throw_inv in Hr as [-> ->]. auto. Qed.

Lemma triple_lift (x : result A) (Q : A → W → Prop) :
  (∀ w, P w → match x with Ok a => Q a w | Err e => E e w end) →
  triple P (lift_result x) Q E.
Proof. intros H w r w' HP Hr. unfold lift_result in Hr. simplify_eq. exact (H _ HP). Qed.

Lemma triple_gets (f : W → A) (Q : A → W → Prop) :
  (∀ w, P w → Q (f w) w) → triple P (gets f) Q E.
Proof. intros H w r w' HP Hr. unfold gets in Hr. simplify_eq. auto. Qed.

Lemma triple_modify (f : W → W) (Q : () → W → Prop) :
  (∀ w, P w → Q () (f w)) → triple P (modify f) Q E.
Proof. intros H w r w' HP Hr. unfold modify in Hr. simplify_eq. auto. Qed.

Lemma triple_bind (R : A → W → Prop) (m : M W A) (k : A → M W B)
    (Q : B → W → Prop) :
  triple P m R E → (∀ a, triple (R a) (k a) Q E) → triple P (m ≫= k) Q E.
Proof.
  intros Hm Hk w r w' HP H. unfold mbind, M_bind in H.
  destruct (m w) as [[a|e] w1] eqn:Em; specialize (Hm _ _ _ HP Em); simpl in Hm.
  - by eapply Hk.
  - by simplify_eq.
Qed.

Lemma triple_try (m : M W A) (Q : result A → W → Prop) :
  triple P m (λ a, Q (Ok a)) (λ e, Q (Err e)) →
  (∀ s w, Q (Err (GoPanic s)) w → E (GoPanic s) w) →
  triple P (try m) Q E.
Proof.
  intros Hm HE w r w' HP H. unfold try in H.
  destruct (m w) as [[a|e] w1] eqn:Em; specialize (Hm _ _ _ HP Em); simpl in Hm.
  - by simplify_eq.
  - destruct e; simplify_eq; auto.
Qed.

(** A pure fact of the precondition, and reading the world. *)
Lemma triple_pure (φ : Prop) (m : M W A) (Q : A → W → Prop) :
  (φ → triple P m Q E) → triple (λ w, φ ∧ P w) m Q E.
Proof. intros H w r w' [Hφ HP] Hr. by eapply H. Qed.

Lemma triple_read (f : W → A) (a : A) (k : A → M W B) (Q : B → W → Prop) :
  (∀ w, P w → f w = a) → triple P (k a) Q E → triple P (gets f ≫= k) Q E.
Proof.
  intros Hf Hk w r w' HP H. unfold mbind, M_bind, gets in H.
  rewrite (Hf w HP) in H. by eapply Hk.
Qed.

Lemma triple_conseq (P' : W → Prop) (m : M W A) (Q Q' : A → W → Prop)
    (E' : error → W → Prop) :
  triple P' m Q' E' → (∀ w, P w → P' w) → (∀ a w, Q' a w → Q a w) →
  (∀ e w, E' e w → E e w) → triple P m Q E.
Proof.
  intros Hm HP HQ HE w r w' Hw H. specialize (Hm _ _ _ (HP _ Hw) H).
  destruct r; auto.
Qed.
End triple.

(** Code that leaves a component alone, piece by piece. *)
Context {U : Type} (g : W → U).

Lemma keeps_ret {A} (a : A) : keeps g (mret a : M W A).
Proof. intros w r w' H. unfold mret, M_ret in H. by simplify_eq. Qed.
Lemma keeps_throw {A} e : keeps g (throw e : M W A).
Proof. intros w r w' H. unfold throw in H. by simplify_eq. Qed.
Lemma keeps_gets {A} (f : W → A) : keeps g (gets f).
Proof. intros w r w' H. unfold gets in H. by simplify_eq. Qed.
Lemma keeps_lift {A} (x : result A) : keeps g (lift_result x : M W A).
Proof. intros w r w' H. unfold lift_result in H. by simplify_eq. Qed.
Lemma keeps_try {A} (m : M W A) : keeps g m → keeps g (try m).
Proof.
  intros Hm w r w' H. unfold try in H.
  destruct (m w) as [[a|e] w1] eqn:E; specialize (Hm _ _ _ E);
    [|destruct e]; by simplify_eq.
Qed.
Lemma keeps_bind {A B} (m : M W A) (k : A → M W B) :
  keeps g m → (∀ a, keeps g (k a)) → keeps g (m ≫= k).
Proof.
  intros Hm Hk w r w' H. unfold mbind, M_bind in H.
  destruct (m w) as [[a|e] w1] eqn:E; specialize (Hm _ _ _ E).
  - specialize (Hk _ _ _ _ H). congruence.
  - by simplify_eq.
Qed.
(** A triple for code that leaves alone everything [P] looks at. *)
Lemma triple_keeps {A} (P : W → Prop) (m : M W A) :
  keeps g m → (∀ w w', g w' = g w → P w → P w') →
  triple P m (λ _, P) (λ _, P).
Proof. intros Hm HP w r w' Hw H. apply Hm in H. destruct r; eauto. Qed.

Lemma keeps_over {V} (L : lens W V) `{!Apart L g} f : keeps g (over L f).
Proof. intros w r w' H. unfold over, modify in H. simplify_eq. apply apart. Qed.
End monad_lemmas.

(** ** Tactics *)

(** Case analysis on the next call an effectful function makes, in the goal
    or in a hypothesis. *)
Ltac mcase_on m w :=
  let r := fresh "r" in let w' := fresh "w" in let E := fresh "E" in
  destruct (m w) as [r w'] eqn:E; destruct r; simpl in *.

Ltac mcase :=
  match goal with
  | |- context [match ?m ?w with (_, _) => _ end] => mcase_on m w
  | H : context [match ?m ?w with (_, _) => _ end] |- _ => mcase_on m w
  end.

(** Unfold the monad so that the calls show as matches. *)
Ltac munfold :=
  unfold mbind, M_bind, mret, M_ret, throw, get, put, modify, gets, try,
    lift_result, zoom, look, over in *; simpl in *.

(** Invert a successful run: one hypothesis for each call it made. *)
Ltac minv_step :=
  match goal with
  | H : (_ ≫= _) _ = (Ok _, _) |- _ =>
      let a := fresh "a" in let w := fresh "w" in let E := fresh "E" in
      apply bind_inv_ok in H as (a & w & E & H)
  | H : mret _ _ = (_, _) |- _ => apply mret_inv in H as [? ?]
  | H : throw _ _ = (_, _) |- _ => apply throw_inv in H as [? ?]
  | H : (if decide ?P then _ else _) _ = (Ok _, _) |- _ => destruct (decide P)
  | H : (if ?b then _ else _) _ = (Ok _, _) |- _ => destruct b eqn:?
  | H : (match ?x with _ => _ end) _ = (Ok _, _) |- _ => destruct x eqn:?
  end; simplify_eq.
Ltac minv := repeat minv_step.

(** Split a conjunctive or existential context and substitute. *)
Ltac destruct_all :=
  repeat match goal with
  | H : _ ∧ _ |- _ => destruct H
  | H : ∃ _, _ |- _ => destruct H
  | H : _ * _ |- _ => destruct H
  end; simplify_eq/=.

Create HintDb juju discriminated.
#[export] Hint Resolve keeps_ret keeps_throw keeps_gets keeps_lift keeps_try
  keeps_bind keeps_over : juju.
#[export] Hint Constructors Forall : juju.

(** ** Strings *)

(** Go orders strings by their bytes. *)
Definition str_le (a b : string) : Prop := String.leb a b = true.

#[global] Instance str_le_dec a b : Decision (str_le a b).
Proof. unfold str_le. apply _. Defined.

Definition str_lt (a b : string) : Prop := String.ltb a b = true.

#[global] Instance str_lt_dec a b : Decision (str_lt a b).
Proof. unfold str_lt. apply _. Defined.

(** [set.Strings.SortedValues] *)
Definition sorted_strings (s : gset string) : list string :=
  merge_sort str_le (elements s).

Lemma elem_of_sorted_strings x (s : gset string) :
  x ∈ sorted_strings s ↔ x ∈ s.
Proof.
  unfold sorted_strings. rewrite merge_sort_Permutation. apply elem_of_elements.
Qed.

Lemma NoDup_sorted_strings (s : gset string) : NoDup (sorted_strings s).
Proof.
  unfold sorted_strings. rewrite merge_sort_Permutation. apply NoDup_elements.
Qed.

(** [set.Ints.SortedValues] *)
Definition sorted_ints (s : gset Z) : list Z := merge_sort Z.le (elements s).

Lemma elem_of_sorted_ints x (s : gset Z) : x ∈ sorted_ints s ↔ x ∈ s.
Proof.
  unfold sorted_ints. rewrite merge_sort_Permutation. apply elem_of_elements.
Qed.

Lemma NoDup_sorted_ints (s : gset Z) : NoDup (sorted_ints s).
Proof.
  unfold sorted_ints. rewrite merge_sort_Permutation. apply NoDup_elements.
Qed.

Lemma Sorted_sorted_ints (s : gset Z) : Sorted Z.le (sorted_ints s).
Proof.
  apply Sorted_merge_sort. intros a b.
  destruct (Z.le_ge_cases a b); [by left|right; lia].
Qed.

Create Rewrite HintDb juju.
#[export] Hint Rewrite elem_of_sorted_strings elem_of_sorted_ints : juju.

(** ** Lists *)

(** The first element a partial function accepts: a Go [for] loop that
    returns from its body. *)
Fixpoint first_some {A B} (f : A → option B) (l : list A) : option B :=
  match l with
  | [] => None
  | x :: l' => match f x with Some b => Some b | None => first_some f l' end
  end.

Lemma first_some_Some {A B} (f : A → option B) l b :
  first_some f l = Some b → ∃ x, x ∈ l ∧ f x = Some b.
Proof.
  induction l as [|x l IH]; simpl; [done|].
  destruct (f x) eqn:E; intros H.
  - simplify_eq. exists x. split; [left|done].
  - destruct (IH H) as (y & ? & ?). exists y. split; [by right|done].
Qed.

Lemma first_some_None {A B} (f : A → option B) l :
  first_some f l = None ↔ ∀ x, x ∈ l → f x = None.
Proof.
  induction l as [|x l IH]; simpl.
  - split; [intros _ x Hx; by apply not_elem_of_nil in Hx|done].
  - destruct (f x) eqn:E.
    + split; [done|]. intros H. by rewrite H in E by left.
    + rewrite IH. split; intros H y; [|by intros; apply H; right].
      intros [->|Hy]%elem_of_cons; auto.
Qed.
