(* ===== verification/GoText.v ===== *)
(** * Text, the way the Go standard library treats it

    The parts of the packages strings and strconv that the program uses, on
    strings of bytes: splitting, lower case, and decimal integers of the
    machine's width, with the round trip between printing and parsing them. *)

From Stdlib Require Import Ascii.
From stdpp Require Import pretty.
From S2P Require Import Prelude.

(** ** Integers

    Go's int is 64 bits wide on the platforms juju runs on; its arithmetic
    wraps around. *)
Definition MinInt : Z := - 2^63.
Definition MaxInt : Z := 2^63 - 1.
Definition wrap_int (z : Z) : Z := ((z + 2^63) mod 2^64 - 2^63)%Z.

Lemma wrap_int_id z : (MinInt ≤ z ≤ MaxInt)%Z → wrap_int z = z.
Proof. unfold MinInt, MaxInt, wrap_int. intros. rewrite Z.mod_small; lia. Qed.

(** ** strings *)

(** The separators the program uses. *)
Definition slash : ascii := "/".
Definition dash : ascii := "-".
Definition dot : ascii := ".".
Definition colon : ascii := ":".
Definition space : ascii := " ".

(** [strings.Split(s, sep)], for a separator of one character. *)
Fixpoint split_on (sep : ascii) (s : string) : list string :=
  match s with
  | EmptyString => [""]
  | String c s' =>
      if decide (c = sep) then "" :: split_on sep s'
      else match split_on sep s' with
      | w :: ws => String c w :: ws
      | [] => [String c ""]
      end
  end.

(** [strings.SplitN(s, sep, 2)]: [None] when the separator is not there. *)
Fixpoint cut (sep : ascii) (s : string) : option (string * string) :=
  match s with
  | EmptyString => None
  | String c s' =>
      if decide (c = sep) then Some ("", s')
      else match cut sep s' with
      | Some (w, rest) => Some (String c w, rest)
      | None => None
      end
  end.

(** [strings.ToLower], as far as the letters a to z are concerned: the two
    letters outside of ASCII whose lower case is an ASCII letter are there, the
    others are left as they are. *)
Definition lower_char (c : ascii) : ascii :=
  let n := nat_of_ascii c in
  if decide (65 ≤ n ≤ 90) then ascii_of_nat (n + 32) else c.
Fixpoint ToLower (s : string) : string :=
  match s with
  | EmptyString => EmptyString
  | String "196" (String "176" s') => String "i" (ToLower s')
  | String "226" (String "132" (String "170" s')) => String "k" (ToLower s')
  | String c s' => String (lower_char c) (ToLower s')
  end%char.

(** [unicode.IsSpace], at the start of a string of UTF-8: what is left after
    one space. *)
Definition ascii_space (c : ascii) : bool :=
  let n := nat_of_ascii c in bool_decide (9 ≤ n ≤ 13) || bool_decide (n = 32).
Definition space_after (c : ascii) (s : list ascii) : option (list ascii) :=
  let byte (c : ascii) (n : nat) := bool_decide (nat_of_ascii c = n) in
  if ascii_space c then Some s
  else match s with
  | [] => None
  | c2 :: s2 =>
      if byte c 194 && (byte c2 133 || byte c2 160) then Some s2
      else match s2 with
      | [] => None
      | c3 :: s3 =>
          if (byte c 225 && byte c2 154 && byte c3 128)
             || (byte c 226 && byte c2 128 &&
                 (bool_decide (128 ≤ nat_of_ascii c3 ≤ 138) || byte c3 168 || byte c3 169
                  || byte c3 175))
             || (byte c 226 && byte c2 129 && byte c3 159)
             || (byte c 227 && byte c2 128 && byte c3 128)
          then Some s3 else None
      end
  end.

(** The same at the end, with the bytes in reverse. *)
Definition space_before (c : ascii) (s : list ascii) : option (list ascii) :=
  if ascii_space c then Some s
  else
    let two := match s with
               | c1 :: s' => match space_after c1 [c] with Some [] => Some s' | _ => None end
               | [] => None
               end in
    let three := match s with
                 | c2 :: c1 :: s' =>
                     match space_after c1 [c2; c] with Some [] => Some s' | _ => None end
                 | _ => None
                 end in
    match two with Some s' => Some s' | None => three end.

(** Drop spaces, one at a time; there are no more than there are bytes. *)
Fixpoint drop_spaces (one : ascii → list ascii → option (list ascii)) (fuel : nat)
    (s : list ascii) : list ascii :=
  match fuel, s with
  | S fuel', c :: s' =>
      match one c s' with
      | Some rest => drop_spaces one fuel' rest
      | None => s
      end
  | _, _ => s
  end.

(** [strings.TrimSpace] *)
Definition TrimSpace (s : string) : string :=
  let l := String.list_ascii_of_string s in
  let l := drop_spaces space_after (length l) l in
  let l := reverse l in
  String.string_of_list_ascii (reverse (drop_spaces space_before (length l) l)).

(** A string none of whose characters is [c], and one of lower-case letters. *)
Fixpoint lacks (c : ascii) (s : string) : bool :=
  match s with
  | EmptyString => true
  | String c' s' => bool_decide (c' ≠ c) && lacks c s'
  end.
Definition lower_letter (c : ascii) : bool :=
  bool_decide (97 ≤ nat_of_ascii c ≤ 122).
Definition digit_char (c : ascii) : bool :=
  bool_decide (48 ≤ nat_of_ascii c ≤ 57).
Fixpoint all_chars (p : ascii → bool) (s : string) : bool :=
  match s with
  | EmptyString => true
  | String c s' => p c && all_chars p s'
  end.

(** ** strconv *)

Abbreviation ErrSyntax := (ErrConst "invalid syntax").
Abbreviation ErrRange := (ErrConst "value out of range").

Definition digit (c : ascii) : option Z :=
  let n := Z.of_nat (nat_of_ascii c) in
  if decide (48 ≤ n ≤ 57)%Z then Some (n - 48)%Z else None.

(** [strconv.ParseUint(s, 10, 64)] on a string that is not empty: [None] is a
    syntax error; a value that does not fit is cut off, with the rest of the
    text not looked at. *)
Fixpoint parse_uint (s : string) (n : Z) : option Z :=
  match s with
  | EmptyString => Some n
  | String c s' =>
      match digit c with
      | None => None
      | Some d =>
          if decide (2^64 ≤ 10 * n + d)%Z then Some (2^64 - 1)%Z
          else parse_uint s' (10 * n + d)
      end
  end.

(** The sign of a number and the rest of its text. *)
Definition split_sign (s : string) : bool * string :=
  match s with
  | String "-" s' => (true, s')
  | String "+" s' => (false, s')
  | _ => (false, s)
  end%char.

(** [strconv.Atoi]: the value and the error.  The value is 0 for a syntax error,
    the nearest integer for one that does not fit. *)
Definition Atoi (s : string) : Z * option error :=
  let '(neg, body) := split_sign s in
  if decide (body = "") then (0%Z, Some ErrSyntax)
  else match parse_uint body 0 with
  | None => (0%Z, Some ErrSyntax)
  | Some n =>
      if neg : bool then
        if decide (- MinInt < n)%Z then (MinInt, Some ErrRange) else ((- n)%Z, None)
      else if decide (MaxInt < n)%Z then (MaxInt, Some ErrRange) else (n, None)
  end.

(** ** Printing and parsing integers *)

Lemma digit_step (q d m x : Z) :
  (x = 10 * d + m → 0 ≤ d → 0 ≤ m → 0 ≤ q → 10 * q + x < 2^64 →
   q + d < 2^64 ∧ ¬ 2^64 ≤ 10 * (q + d) + m ∧ 10 * (q + d) + m = 10 * q + x)%Z.
Proof. lia. Qed.

Lemma digit_cases (P : N → Prop) :
  P 0%N → P 1%N → P 2%N → P 3%N → P 4%N → P 5%N → P 6%N → P 7%N → P 8%N → P 9%N →
  ∀ m, (m < 10)%N → P m.
Proof.
  intros ?????????? m Hm.
  assert (m = 0 ∨ m = 1 ∨ m = 2 ∨ m = 3 ∨ m = 4 ∨ m = 5 ∨ m = 6 ∨ m = 7 ∨ m = 8 ∨ m = 9)%N
    by lia. destruct_or!; by subst.
Qed.

Lemma digit_pretty m : (m < 10)%N → digit (pretty_N_char m) = Some (Z.of_N m).
Proof. by revert m; apply digit_cases. Qed.

(** The digits of [x], in front of [s], when parsed after [n]. *)
Lemma parse_uint_go x s : ∃ p, ∀ n,
  (0 ≤ n → n * p + Z.of_N x < 2^64 →
   parse_uint (pretty_N_go x s) n = parse_uint s (n * p + Z.of_N x))%Z ∧ (1 ≤ p)%Z.
Proof.
  revert s. induction (N.lt_wf_0 x) as [x _ IH]; intros s.
  assert (x = 0 ∨ 0 < x)%N as [->|Hx] by lia.
  { exists 1%Z. intros n. split; [|done]. intros Hn _. rewrite pretty_N_go_0.
    f_equal. lia. }
  rewrite pretty_N_go_step by done.
  destruct (IH (x `div` 10)%N (N.div_lt x 10 Hx ltac:(lia))
    (String (pretty_N_char (x `mod` 10)) s)) as [p Hp].
  exists (p * 10)%Z. intros n. destruct (Hp n) as [Hgo Hp1]. split; [|lia].
  intros Hn Hlt.
  assert (Z.of_N x = 10 * Z.of_N (x `div` 10) + Z.of_N (x `mod` 10))%Z as Hx10.
  { rewrite (N.div_mod x 10) at 1 by done. lia. }
  assert (x `mod` 10 < 10)%N as Hm by by apply N.mod_lt.
  destruct (digit_step (n * p) (Z.of_N (x `div` 10)) (Z.of_N (x `mod` 10)) (Z.of_N x))
    as (Ha & Hb & Hc); [done|apply N2Z.is_nonneg..|nia|nia|].
  rewrite Hgo by done. simpl.
  assert (digit (pretty_N_char (x `mod` 10)) = Some (Z.of_N (x `mod` 10))) as ->
    by by apply digit_pretty.
  rewrite decide_False by done. f_equal. rewrite Hc. lia.
Qed.

Lemma pretty_N_go_char p x s :
  (∀ m, (m < 10)%N → p (pretty_N_char m) = true) → all_chars p s = true →
  all_chars p (pretty_N_go x s) = true.
Proof.
  intros Hp. revert s. induction (N.lt_wf_0 x) as [x _ IH]; intros s Hs.
  assert (x = 0 ∨ 0 < x)%N as [->|Hx] by lia; [done|].
  rewrite pretty_N_go_step by done. apply IH; [by apply N.div_lt|]. simpl.
  by rewrite Hp, Hs by by apply N.mod_lt.
Qed.

(** The decimal digits of a natural number are digits, and parse back. *)
Lemma pretty_N_digits (x : N) : all_chars digit_char (pretty x) = true.
Proof.
  unfold pretty, pretty_N. case_decide; [done|]. apply pretty_N_go_char; [|done].
  by apply digit_cases.
Qed.

Lemma pretty_N_not_empty (x : N) : (pretty x : string) ≠ "".
Proof.
  unfold pretty, pretty_N. case_decide as Hx; [done|].
  rewrite pretty_N_go_step by lia.
  assert (∀ s, s ≠ "" → pretty_N_go (x `div` 10) s ≠ "") as Hne.
  { generalize (x `div` 10)%N. intros y. induction (N.lt_wf_0 y) as [y _ IH]. intros s Hs.
    assert (y = 0 ∨ 0 < y)%N as [->|Hy] by lia; [done|].
    rewrite pretty_N_go_step by done. by apply IH; [apply N.div_lt|]. }
  by apply Hne.
Qed.

Lemma parse_uint_pretty (x : N) :
  (Z.of_N x < 2^64)%Z → parse_uint (pretty x) 0 = Some (Z.of_N x).
Proof.
  intros Hx. unfold pretty, pretty_N. case_decide as H0; [by subst|].
  destruct (parse_uint_go x "") as [p Hp]. destruct (Hp 0%Z) as [-> _]; [|lia..].
  done.
Qed.

Lemma digit_char_digit c : digit_char c = true → c ≠ "-"%char ∧ c ≠ "+"%char ∧ c ≠ "/"%char.
Proof. unfold digit_char. intros H. split_and!; intros ->; by vm_compute in H. Qed.

Lemma split_sign_digits s : all_chars digit_char s = true → split_sign s = (false, s).
Proof.
  destruct s as [|c s]; [done|]. simpl. intros [Hc _]%andb_true_iff.
  apply digit_char_digit in Hc as (H1 & H2 & _). unfold split_sign.
  destruct c as [[][][][][][][][]]; try done.
Qed.

(** [strconv.Atoi] reads back what [%d] prints. *)
Lemma Atoi_pretty (z : Z) : (MinInt ≤ z ≤ MaxInt)%Z → Atoi (pretty z) = (z, None).
Proof.
  unfold MinInt, MaxInt. intros Hz. destruct z as [|x|x].
  - done.
  - change (pretty (Zpos x)) with (pretty (Npos x)). unfold Atoi.
    rewrite split_sign_digits by apply pretty_N_digits.
    rewrite decide_False by apply pretty_N_not_empty.
    rewrite parse_uint_pretty by (simpl; lia). simpl.
    rewrite decide_False; [done|]. unfold MaxInt. lia.
  - change (pretty (Zneg x)) with (String "-" (pretty (Npos x))). unfold Atoi.
    cbn [split_sign].
    rewrite decide_False by apply pretty_N_not_empty.
    rewrite parse_uint_pretty by (simpl; lia). simpl.
    rewrite decide_False; [done|]. unfold MinInt. lia.
Qed.

(** ** Splitting what was joined *)

Lemma all_chars_impl (p q : ascii → bool) s :
  (∀ c, p c = true → q c = true) → all_chars p s = true → all_chars q s = true.
Proof.
  intros Hpq. induction s as [|c s IH]; simpl; [done|].
  intros [H1 H2]%andb_true_iff. by rewrite Hpq, IH.
Qed.

Lemma lacks_all_chars c p s :
  p c = false → all_chars p s = true → lacks c s = true.
Proof.
  intros Hc. induction s as [|c' s IH]; simpl; [done|].
  intros [H1 H2]%andb_true_iff. rewrite IH by done.
  rewrite bool_decide_true; [done|]. intros ->. congruence.
Qed.

Lemma split_on_lacks sep s : lacks sep s = true → split_on sep s = [s].
Proof.
  induction s as [|c s IH]; simpl; [done|].
  intros [H1%bool_decide_eq_true H2]%andb_true_iff. by rewrite decide_False, IH.
Qed.

Lemma split_on_app sep s1 s2 :
  lacks sep s1 = true → split_on sep (s1 +:+ String sep s2) = s1 :: split_on sep s2.
Proof.
  induction s1 as [|c s IH]; simpl; [by rewrite decide_True|].
  intros [H1%bool_decide_eq_true H2]%andb_true_iff. by rewrite decide_False, IH.
Qed.

Lemma cut_app sep s1 s2 :
  lacks sep s1 = true → cut sep (s1 +:+ String sep s2) = Some (s1, s2).
Proof.
  induction s1 as [|c s IH]; simpl; [by rewrite decide_True|].
  intros [H1%bool_decide_eq_true H2]%andb_true_iff. by rewrite decide_False, IH.
Qed.

Lemma cut_lacks sep s : lacks sep s = true → cut sep s = None.
Proof.
  induction s as [|c s IH]; simpl; [done|].
  intros [H1%bool_decide_eq_true H2]%andb_true_iff. by rewrite decide_False, IH.
Qed.

Lemma lacks_app sep s1 s2 : lacks sep (s1 +:+ s2) = lacks sep s1 && lacks sep s2.
Proof. induction s1 as [|c s IH]; simpl; [done|]. by rewrite IH, andb_assoc. Qed.

(** ** The order of strings *)

Lemma compare_trans s1 s2 s3 :
  String.compare s1 s2 = Lt → String.compare s2 s3 = Lt → String.compare s1 s3 = Lt.
Proof.
  revert s2 s3. induction s1 as [|c1 s1 IH]; intros [|c2 s2] [|c3 s3]; simpl; try done.
  unfold Ascii.compare.
  destruct (N.compare_spec (N_of_ascii c1) (N_of_ascii c2)) as [E1|L1|L1],
    (N.compare_spec (N_of_ascii c2) (N_of_ascii c3)) as [E2|L2|L2]; intros H1 H2; try done.
  - rewrite E1, E2, N.compare_refl. eauto.
  - by rewrite E1, (proj2 (N.compare_lt_iff _ _)).
  - by rewrite <- E2, (proj2 (N.compare_lt_iff _ _)).
  - by rewrite (proj2 (N.compare_lt_iff _ _)) by lia.
Qed.

Lemma str_lt_compare a b : str_lt a b ↔ String.compare a b = Lt.
Proof. unfold str_lt, String.ltb. by destruct (String.compare a b). Qed.

#[global] Instance str_lt_strict : StrictOrder str_lt.
Proof.
  split.
  - intros s H%str_lt_compare. pose proof (String.compare_antisym s s) as E.
    rewrite H in E. done.
  - intros s1 s2 s3 H1%str_lt_compare H2%str_lt_compare. apply str_lt_compare.
    by eapply compare_trans.
Qed.

Lemma str_lt_trichotomy a b : str_lt a b ∨ a = b ∨ str_lt b a.
Proof.
  rewrite !str_lt_compare. pose proof (String.compare_antisym b a) as E.
  destruct (String.compare a b) eqn:H; simpl in E; [|by left|by right; right].
  right; left. by apply String.compare_eq_iff.
Qed.

Lemma str_lt_irrefl s : ¬ str_lt s s.
Proof. apply (irreflexivity str_lt). Qed.

(** A natural number, printed. *)
Lemma pretty_Z_nonneg (z : Z) : (0 ≤ z)%Z → pretty z = pretty (Z.to_N z).
Proof. by destruct z. Qed.

Lemma pretty_Z_digits (z : Z) : (0 ≤ z)%Z → all_chars digit_char (pretty z) = true.
Proof. intros Hz. rewrite pretty_Z_nonneg by done. apply pretty_N_digits. Qed.

Lemma pretty_Z_lacks (z : Z) c : (0 ≤ z)%Z → digit_char c = false → lacks c (pretty z) = true.
Proof. intros Hz Hc. eapply lacks_all_chars; [done|]. by apply pretty_Z_digits. Qed.

Lemma append_String_assoc s1 c s2 s3 :
  s1 +:+ String c (s2 +:+ s3) = (s1 +:+ String c s2) +:+ s3.
Proof.
  induction s1 as [|c1 s1 IH]; [done|].
  change (String c1 (s1 +:+ String c (s2 +:+ s3)) = String c1 ((s1 +:+ String c s2) +:+ s3)).
  by rewrite IH.
Qed.

Lemma append_nil_r s : s +:+ "" = s.
Proof.
  induction s as [|c s IH]; [done|]. change (String c (s +:+ "") = String c s). by rewrite IH.
Qed.

(** ** Trimming *)

(** A printable character of ASCII that is not a space. *)
Definition visible (c : ascii) : bool := bool_decide (33 ≤ nat_of_ascii c ≤ 126).

Lemma visible_ne c n :
  visible c = true → 127 ≤ n → bool_decide (nat_of_ascii c = n) = false.
Proof. unfold visible. intros Hc%bool_decide_eq_true Hn. apply bool_decide_eq_false. lia. Qed.

Lemma visible_not_ascii_space c : visible c = true → ascii_space c = false.
Proof.
  unfold visible, ascii_space. intros Hc%bool_decide_eq_true.
  by rewrite !bool_decide_false by lia.
Qed.

Lemma visible_not_space c s :
  visible c = true → space_after c s = None ∧ space_before c s = None.
Proof.
  intros Hc. pose proof (visible_not_ascii_space c Hc) as Hs. split.
  - unfold space_after. rewrite Hs, !(visible_ne c) by (done || lia). simpl.
    by destruct s as [|? [|? ?]].
  - unfold space_before. rewrite Hs.
    assert (∀ c1, space_after c1 [c] ≠ Some []) as H2.
    { intros c1. unfold space_after. destruct (ascii_space c1); [done|].
      rewrite !(visible_ne c) by (done || lia). by rewrite andb_false_r. }
    assert (∀ c1 c2, space_after c1 [c2; c] ≠ Some []) as H3.
    { intros c1 c2. unfold space_after. destruct (ascii_space c1); [done|].
      rewrite !(visible_ne c) by (done || lia).
      assert (bool_decide (128 ≤ nat_of_ascii c ≤ 138) = false) as ->.
      { unfold visible in Hc. apply bool_decide_eq_true in Hc. apply bool_decide_eq_false. lia. }
      rewrite !andb_false_r. simpl. by destruct (_ && _). }
    destruct s as [|c1 [|c2 s]].
    + done.
    + specialize (H2 c1). by destruct (space_after c1 [c]) as [[]|].
    + specialize (H2 c1). specialize (H3 c2 c1).
      destruct (space_after c1 [c]) as [[]|]; try done;
        by destruct (space_after c2 [c1; c]) as [[]|].
Qed.

(** Trimming leaves text that starts and ends with visible characters. *)
Lemma drop_spaces_visible one n c l :
  one c l = None → drop_spaces one n (c :: l) = c :: l.
Proof. intros H. destruct n; [done|]. simpl. by rewrite H. Qed.

Lemma TrimSpace_visible c s l c' :
  String.list_ascii_of_string s = c :: l → visible c = true →
  last (c :: l) = Some c' → visible c' = true → TrimSpace s = s.
Proof.
  intros Hs Hc Hl Hc'. unfold TrimSpace. rewrite Hs.
  rewrite drop_spaces_visible by by apply visible_not_space.
  apply last_Some in Hl as [l' El]. rewrite El, reverse_snoc.
  rewrite drop_spaces_visible by by apply visible_not_space.
  rewrite <- reverse_snoc, reverse_involutive, <- El, <- Hs.
  apply String.string_of_list_ascii_of_string.
Qed.

Lemma TrimSpace_all_visible s : all_chars visible s = true → TrimSpace s = s.
Proof.
  destruct s as [|c s]; [done|]. intros H.
  assert (∀ s, all_chars visible s = true →
    Forall (λ c, visible c = true) (String.list_ascii_of_string s)) as Hall.
  { clear. induction s as [|c s IH]; simpl; [constructor|].
    intros [? ?]%andb_true_iff. constructor; auto. }
  apply Hall in H. simpl in H. rewrite Forall_cons in H. destruct H as [Hc H].
  destruct (last (c :: String.list_ascii_of_string s)) as [c'|] eqn:E.
  - eapply TrimSpace_visible; [done|done|exact E|].
    apply list.last_Some_elem_of, elem_of_cons in E as [->|E]; [done|].
    rewrite Forall_forall in H. auto.
  - by apply last_None in E.
Qed.

Lemma all_chars_app p s1 s2 : all_chars p (s1 +:+ s2) = all_chars p s1 && all_chars p s2.
Proof.
  induction s1 as [|c s IH]; [done|].
  change (p c && all_chars p (s +:+ s2) = p c && all_chars p s && all_chars p s2).
  by rewrite IH, andb_assoc.
Qed.

Lemma list_ascii_app s1 s2 :
  String.list_ascii_of_string (s1 +:+ s2)
  = String.list_ascii_of_string s1 ++ String.list_ascii_of_string s2.
Proof.
  induction s1 as [|c s IH]; [done|].
  change (c :: String.list_ascii_of_string (s +:+ s2)
    = c :: (String.list_ascii_of_string s ++ String.list_ascii_of_string s2)).
  by rewrite IH.
Qed.

Lemma all_chars_Forall p s :
  all_chars p s = true ↔ Forall (λ c, p c = true) (String.list_ascii_of_string s).
Proof.
  induction s as [|c s IH]; simpl; [by rewrite Forall_nil|].
  by rewrite andb_true_iff, Forall_cons, IH.
Qed.

(** The end of a text that is all visible is visible. *)
Lemma last_visible s1 s2 :
  s2 ≠ "" → all_chars visible s2 = true →
  ∃ c, last (String.list_ascii_of_string (s1 +:+ s2)) = Some c ∧ visible c = true.
Proof.
  intros Hne Hv. rewrite list_ascii_app, last_app. rewrite all_chars_Forall in Hv.
  destruct (last (String.list_ascii_of_string s2)) as [c|] eqn:E.
  - exists c. split; [done|]. rewrite Forall_forall in Hv. apply Hv.
    by apply list.last_Some_elem_of.
  - apply last_None in E. by destruct s2.
Qed.

Lemma string_app_assoc s1 s2 s3 : s1 +:+ (s2 +:+ s3) = (s1 +:+ s2) +:+ s3.
Proof.
  induction s1 as [|c s IH]; [done|].
  change (String c (s +:+ (s2 +:+ s3)) = String c ((s +:+ s2) +:+ s3)). by rewrite IH.
Qed.
