(* ===== verification/PortRange.v ===== *)
(** * Port ranges

    core/network/portrange.go: ranges of ports, how they are written and read,
    sorted, combined, and kept in groups by endpoint while open and close
    requests are merged into them. *)

From stdpp Require Import pretty.
From S2P Require Import Prelude GoText.

(** ** One range *)

Record PortRange : Type := MkPortRange {
  FromPort : Z;
  ToPort : Z;
  Protocol : string;
}.

#[global] Instance PortRange_eq_dec : EqDecision PortRange.
Proof. solve_decision. Defined.
#[global] Program Instance PortRange_countable : Countable PortRange :=
  inj_countable' (λ p, (FromPort p, ToPort p, Protocol p))
    (λ t, MkPortRange t.1.1 t.1.2 t.2) _.
Next Obligation. by intros []. Qed.

Definition PortRange_Validate (p : PortRange) : result () :=
  let proto := ToLower (Protocol p) in
  if bool_decide (proto ≠ "tcp") && bool_decide (proto ≠ "udp")
     && bool_decide (proto ≠ "icmp")
  then Err (ErrNew "invalid protocol %q, expected tcp, udp, or icmp")
  else if decide (proto = "icmp") then
    if bool_decide (FromPort p = ToPort p) && bool_decide (FromPort p = -1)%Z then Ok ()
    else Err (ErrNew "protocol icmp doesn't support any ports; got %v")
  else if decide (ToPort p < FromPort p)%Z then Err (ErrNew "invalid port range %s")
  else if bool_decide (FromPort p < 0)%Z || bool_decide (65535 < FromPort p)%Z
          || bool_decide (ToPort p < 0)%Z || bool_decide (65535 < ToPort p)%Z
  then Err (ErrNew "port range bounds must be between 0 and 65535, got %d-%d")
  else Ok ().

Definition PortRange_Length (p : PortRange) : Z :=
  match PortRange_Validate p with
  | Err _ => 0%Z
  | Ok _ => wrap_int (ToPort p - FromPort p + 1)
  end.

Definition PortRange_ConflictsWith (p other : PortRange) : bool :=
  if decide (Protocol p ≠ Protocol other) then false
  else bool_decide (FromPort other ≤ ToPort p)%Z
       && bool_decide (FromPort p ≤ ToPort other)%Z.

(** The loop of [SanitizeBounds], for one of the two bounds. *)
Definition sanitize_bound (bound : Z) : Z :=
  if decide (bound ≤ 0)%Z then 1%Z
  else if decide (65535 < bound)%Z then 65535%Z
  else bound.

Definition PortRange_SanitizeBounds (p : PortRange) : PortRange :=
  if decide (Protocol p = "icmp") then p
  else
    let '(from, to) :=
      if decide (ToPort p < FromPort p)%Z then (ToPort p, FromPort p)
      else (FromPort p, ToPort p) in
    MkPortRange (sanitize_bound from) (sanitize_bound to) (Protocol p).

Definition PortRange_String (p : PortRange) : string :=
  let protocol := ToLower (Protocol p) in
  if decide (protocol = "icmp") then protocol
  else if decide (FromPort p = ToPort p) then
    pretty (FromPort p) +:+ String slash protocol
  else pretty (FromPort p) +:+ String dash (pretty (ToPort p) +:+ String slash protocol).

Definition PortRange_LessThan (p other : PortRange) : bool :=
  if decide (Protocol p ≠ Protocol other) then
    bool_decide (str_lt (Protocol p) (Protocol other))
  else if decide (FromPort p ≠ FromPort other) then
    bool_decide (FromPort p < FromPort other)%Z
  else bool_decide (ToPort p < ToPort other)%Z.

(** [SortPortRanges].  Ranges that the order does not tell apart are equal, so
    there is one sorted order. *)
Definition port_le (p q : PortRange) : Prop := PortRange_LessThan q p = false.
#[global] Instance port_le_dec p q : Decision (port_le p q).
Proof. unfold port_le. apply _. Defined.
Definition SortPortRanges (l : list PortRange) : list PortRange := merge_sort port_le l.

Fixpoint unique_loop (processed : gset PortRange) (l : list PortRange) : list PortRange :=
  match l with
  | [] => []
  | pr :: l' =>
      if decide (pr ∈ processed) then unique_loop processed l'
      else pr :: unique_loop ({[pr]} ∪ processed) l'
  end.
Definition UniquePortRanges (l : list PortRange) : list PortRange := unique_loop ∅ l.

(** ** Parsing *)

(** The two results: the range and the error. *)
Definition parse_port_range (portRange : string) : PortRange * option error :=
  let none := MkPortRange 0 0 "" in
  match split_on dash portRange with
  | [p] =>
      if decide (p = "icmp") then (MkPortRange (-1) (-1) "", None)
      else match Atoi p with
      | (port, None) => (MkPortRange port port "", None)
      | (_, Some e) => (none, Some e)
      end
  | [p1; p2] =>
      match Atoi p1 with
      | (_, Some e) => (none, Some e)
      | (start, None) =>
          match Atoi p2 with
          | (_, Some e) => (none, Some e)
          | (stop, None) => (MkPortRange start stop "", None)
          end
      end
  | _ => (none, Some (ErrNew "invalid port range %q"))
  end.

Definition ParsePortRange (inPortRange : string) : PortRange * option error :=
  let '(ports, protocol) :=
    match cut slash inPortRange with
    | Some (ports, protocol) => (ports, protocol)
    | None => (inPortRange, "tcp")
    end in
  match parse_port_range ports with
  | (portRange, Some e) => (portRange, Some e)
  | (portRange, None) =>
      let protocol := if decide (FromPort portRange = -1)%Z then "icmp" else protocol in
      let portRange := MkPortRange (FromPort portRange) (ToPort portRange) protocol in
      (portRange, match PortRange_Validate portRange with Ok _ => None | Err e => Some e end)
  end.

(** [MustParsePortRange] panics on an error. *)
Definition MustParsePortRange (portRange : string) : result PortRange :=
  match ParsePortRange portRange with
  | (p, None) => Ok p
  | (_, Some _) => Err (GoPanic "MustParsePortRange")
  end.

(** ** Combining *)

(** The loop of [CombinePortRanges], with the range it is extending. *)
Fixpoint combine_loop (current : option PortRange) (l : list PortRange) : list PortRange :=
  match l with
  | [] => option_list current
  | pr :: l' =>
      match current with
      | None => combine_loop (Some pr) l'
      | Some cur =>
          if bool_decide (Protocol pr = Protocol cur)
             && bool_decide (FromPort pr = wrap_int (ToPort cur + 1))
          then combine_loop (Some (MkPortRange (FromPort cur) (ToPort pr) (Protocol cur))) l'
          else cur :: combine_loop (Some pr) l'
      end
  end.

Definition CombinePortRanges (ranges : list PortRange) : list PortRange :=
  combine_loop None (SortPortRanges ranges).

(** ** Groups of ranges *)

Definition GroupedPortRanges : Type := gmap string (list PortRange).

Definition ranges_for (endpointName : string) (grp : GroupedPortRanges) : list PortRange :=
  default [] (grp !! endpointName).

Definition rangeExistsForEndpoint (grp : GroupedPortRanges) (endpointName : string)
    (portRange : PortRange) : bool :=
  bool_decide (portRange ∈ ranges_for endpointName grp).

(** The two loops of [MergePendingOpenPortRanges]; [order] is the order in which
    the map is gone through. *)
Definition merge_open_one (endpointName : string) (acc : GroupedPortRanges * bool)
    (pendingRange : PortRange) : GroupedPortRanges * bool :=
  let '(grp, modified) := acc in
  if rangeExistsForEndpoint grp endpointName pendingRange then (grp, modified)
  else (<[endpointName := ranges_for endpointName grp ++ [pendingRange]]> grp, true).

Definition MergePendingOpenPortRanges (order : list (string * list PortRange))
    (grp : GroupedPortRanges) : GroupedPortRanges * bool :=
  foldl (λ acc '(endpointName, pendingRanges),
           foldl (merge_open_one endpointName) acc pendingRanges) (grp, false) order.

(** The loop of [removePortRange].  It goes over the array of the slice it
    started with, [i] being the index, while removing shifts that array and
    makes the slice, the first [len] elements of it, shorter. *)
Fixpoint remove_loop (n i : nat) (portRange : PortRange) (arr : list PortRange) (len : nat)
    (modified : bool) : result (list PortRange * bool) :=
  match n with
  | O => Ok (take len arr, modified)
  | S n' =>
      match arr !! i with
      | None => Ok (take len arr, modified)
      | Some v =>
          if decide (v ≠ portRange) then remove_loop n' (S i) portRange arr len modified
          else if decide (len < S i) then Err (GoPanic "slice bounds out of range")
          else
            remove_loop n' (S i) portRange
              (take i arr ++ drop (S i) (take len arr) ++ drop (len - 1) arr) (len - 1) true
      end
  end.

Definition removePortRange (endpointName : string) (portRange : PortRange)
    (grp : GroupedPortRanges) : result (GroupedPortRanges * bool) :=
  let existing := ranges_for endpointName grp in
  match remove_loop (length existing) 0 portRange existing (length existing) false with
  | Err e => Err e
  | Ok (_, false) => Ok (grp, false)
  | Ok ([], true) => Ok (delete endpointName grp, true)
  | Ok (l, true) => Ok (<[endpointName := l]> grp, true)
  end.

(** The two loops of [MergePendingClosePortRanges]. *)
Definition merge_close_one (endpointName : string)
    (acc : result (GroupedPortRanges * bool)) (pendingRange : PortRange) :
    result (GroupedPortRanges * bool) :=
  '(grp, modified) ← acc;
  if negb (rangeExistsForEndpoint grp endpointName pendingRange) then Ok (grp, modified)
  else removePortRange endpointName pendingRange grp.

Definition MergePendingClosePortRanges (order : list (string * list PortRange))
    (grp : GroupedPortRanges) : result (GroupedPortRanges * bool) :=
  foldl (λ acc '(endpointName, pendingRanges),
           foldl (merge_close_one endpointName) acc pendingRanges) (Ok (grp, false)) order.

(** [GroupedPortRanges.UniquePortRanges] *)
Definition Grouped_UniquePortRanges (order : list (string * list PortRange)) :
    list PortRange :=
  SortPortRanges (UniquePortRanges (order ≫= snd)).

(** [EqualTo] sorts, in place, the ranges it compares, up to the first
    difference. *)
Fixpoint equal_loop (order : list (string * list PortRange))
    (grp other : GroupedPortRanges) : bool * GroupedPortRanges * GroupedPortRanges :=
  match order with
  | [] => (true, grp, other)
  | (groupKey, portRanges) :: order' =>
      match other !! groupKey with
      | None => (false, grp, other)
      | Some otherPortRanges =>
          if decide (length portRanges ≠ length otherPortRanges) then (false, grp, other)
          else
            let l := SortPortRanges portRanges in
            let l' := SortPortRanges otherPortRanges in
            let grp := <[groupKey := l]> grp in
            let other := <[groupKey := l']> other in
            if decide (l = l') then equal_loop order' grp other else (false, grp, other)
      end
  end.

Definition Grouped_EqualTo (order : list (string * list PortRange))
    (grp other : GroupedPortRanges) : bool * GroupedPortRanges * GroupedPortRanges :=
  if decide (size grp ≠ size other) then (false, grp, other)
  else equal_loop order grp other.
