(* ===== verification/PortRangeFacts.v ===== *)
(** * What holds of port ranges

    Combining ranges keeps the ports they cover and leaves nothing to combine;
    a range that is written is read back; what comes out of the bounds checks
    is within bounds; and merging open and close requests into a group is the
    union and the difference of sets, whatever the order. *)

From stdpp Require Import pretty.
From S2P Require Import Prelude GoText PortRange.

(** A port of a protocol is in one of the ranges. *)
Definition covers (l : list PortRange) (proto : string) (port : Z) : Prop :=
  ∃ p, p ∈ l ∧ Protocol p = proto ∧ (FromPort p ≤ port ≤ ToPort p)%Z.

(** The right way round, and not at the end of the integers. *)
Definition proper (p : PortRange) : Prop :=
  (MinInt ≤ FromPort p ≤ ToPort p)%Z ∧ (ToPort p < MaxInt)%Z.

(** Ranges in order that do not overlap, and that cannot be combined. *)
Definition port_before (p q : PortRange) : Prop :=
  str_lt (Protocol p) (Protocol q)
  ∨ (Protocol p = Protocol q ∧ (ToPort p < FromPort q)%Z).
Definition well_before (p q : PortRange) : Prop :=
  str_lt (Protocol p) (Protocol q)
  ∨ (Protocol p = Protocol q ∧ (ToPort p + 1 < FromPort q)%Z).

(** The members of a group. *)
Definition in_group (grp : GroupedPortRanges) (ep : string) (pr : PortRange) : Prop :=
  pr ∈ ranges_for ep grp.

(** A group without duplicates. *)
Definition group_ok (grp : GroupedPortRanges) : Prop :=
  ∀ ep, NoDup (ranges_for ep grp).

(** The requests of a map, gone through in some order. *)
Definition requested (order : list (string * list PortRange)) (ep : string)
    (pr : PortRange) : Prop :=
  ∃ l, (ep, l) ∈ order ∧ pr ∈ l.

(** ** Combining *)

Lemma covers_cons p l proto port :
  covers (p :: l) proto port ↔
    (Protocol p = proto ∧ (FromPort p ≤ port ≤ ToPort p)%Z) ∨ covers l proto port.
Proof.
  unfold covers. split.
  - intros (q & [->|Hq]%elem_of_cons & H); [by left|right; eauto].
  - intros [H|(q & Hq & H)]; [exists p|exists q]; (split; [|done]); [by left|by right].
Qed.

Lemma covers_perm l l' proto port : l ≡ₚ l' → covers l proto port ↔ covers l' proto port.
Proof. intros Hl. unfold covers. by setoid_rewrite Hl. Qed.

Lemma proper_succ p : proper p → wrap_int (ToPort p + 1) = (ToPort p + 1)%Z.
Proof. intros [H1 H2]. apply wrap_int_id. unfold MinInt, MaxInt in *. lia. Qed.

Lemma combine_covers cur l proto port :
  Forall proper (option_list cur ++ l) →
  covers (combine_loop cur l) proto port ↔ covers (option_list cur ++ l) proto port.
Proof.
  revert cur. induction l as [|pr l IH]; intros cur Hp; simpl.
  { by rewrite app_nil_r. }
  destruct cur as [cur|]; [|by apply (IH (Some pr))]. simpl in *.
  rewrite !Forall_cons in Hp. destruct Hp as (Hc & Hpr & Hl).
  rewrite proper_succ by done. destruct (_ && _) eqn:E.
  - apply andb_true_iff in E as [E1%bool_decide_eq_true E2%bool_decide_eq_true].
    rewrite IH; simpl.
    + rewrite !covers_cons, E1. simpl. destruct Hc, Hpr. split; intros; destruct_or!; auto;
        destruct_and?; auto; [|left; split; [done|lia]..].
      destruct (decide (port ≤ ToPort cur)%Z); [left|right; left]; split; auto; lia.
    + apply Forall_cons. split; [|done]. destruct Hc, Hpr. split; simpl; lia.
  - rewrite !covers_cons, IH by (simpl; by apply Forall_cons). simpl. by rewrite covers_cons.
Qed.

(** Every combined range starts where one of the ranges starts. *)
Lemma combine_starts cur l x :
  x ∈ combine_loop cur l → ∃ y, y ∈ option_list cur ++ l
    ∧ Protocol y = Protocol x ∧ FromPort y = FromPort x.
Proof.
  revert cur. induction l as [|pr l IH]; intros cur H; simpl in *.
  { exists x. by rewrite app_nil_r. }
  destruct cur as [cur|]; simpl in *; [|by apply (IH (Some pr))].
  destruct (_ && _); [|apply elem_of_cons in H as [->|H]].
  - apply IH in H as (y & Hy & ? & ?). simpl in Hy.
    apply elem_of_cons in Hy as [->|Hy]; simpl in *.
    + exists cur. split_and!; [by left|done..].
    + exists y. split_and!; [by do 2 right|done..].
  - exists cur. split_and!; [by left|done..].
  - apply IH in H as (y & Hy & ? & ?). exists y. split_and!; [|done..]. by right.
Qed.

Lemma combine_well_before cur l :
  Forall proper (option_list cur ++ l) → StronglySorted port_before (option_list cur ++ l) →
  StronglySorted well_before (combine_loop cur l).
Proof.
  revert cur. induction l as [|pr l IH]; intros cur Hp HS; simpl.
  { destruct cur; simpl; repeat constructor. }
  destruct cur as [cur|]; [|by apply (IH (Some pr))]. simpl in *.
  rewrite !Forall_cons in Hp. destruct Hp as (Hc & Hpr & Hl).
  apply StronglySorted_inv in HS as [HS Hcur]. apply Forall_cons in Hcur as [Hcp Hcl].
  pose proof HS as HSl. apply StronglySorted_inv in HSl as [HSl Hprl].
  rewrite proper_succ by done. destruct (_ && _) eqn:E.
  - apply andb_true_iff in E as [E1%bool_decide_eq_true E2%bool_decide_eq_true].
    apply IH; simpl.
    + apply Forall_cons. split; [|done]. destruct Hc, Hpr. split; simpl; lia.
    + constructor; [done|]. eapply Forall_impl; [exact Hprl|]. intros q Hq.
      unfold port_before in *. simpl. rewrite <- E1. done.
  - constructor; [by apply IH; [apply Forall_cons|]|].
    apply Forall_forall. intros x (y & Hy & Ey1 & Ey2)%combine_starts.
    assert (¬ (Protocol pr = Protocol cur ∧ FromPort pr = (ToPort cur + 1)%Z)) as Hn.
    { intros [E1 E2]. by rewrite !bool_decide_true in E. }
    unfold well_before. rewrite <- Ey1, <- Ey2. simpl in Hy.
    apply elem_of_cons in Hy as [->|Hy].
    + destruct Hcp as [?|[Hq ?]]; [by left|right]. split; [done|].
      assert (FromPort pr ≠ (ToPort cur + 1)%Z) by (intros ?; apply Hn; by split). lia.
    + rewrite Forall_forall in Hprl, Hcl. specialize (Hprl _ Hy). specialize (Hcl _ Hy).
      destruct Hcl as [?|[Hc1 Hc2]]; [by left|right]. split; [done|].
      destruct Hcp as [Hlt|[Hq1 Hq2]].
      * exfalso. destruct Hprl as [Hlt2|[Hq _]].
        -- rewrite <- Hc1 in Hlt2. assert (str_lt (Protocol cur) (Protocol cur)) as Hx
             by (by etrans). by apply str_lt_irrefl in Hx.
        -- rewrite Hq, <- Hc1 in Hlt. by apply str_lt_irrefl in Hlt.
      * destruct Hprl as [Hlt2|[_ Hq]];
          [rewrite <- Hq1, Hc1 in Hlt2; by apply str_lt_irrefl in Hlt2|].
        destruct Hpr. lia.
Qed.

(** ** Sorting *)

Definition disjoint_ranges (p q : PortRange) : Prop := PortRange_ConflictsWith p q = false.

Lemma disjoint_ranges_sym p q : disjoint_ranges p q → disjoint_ranges q p.
Proof.
  unfold disjoint_ranges, PortRange_ConflictsWith.
  destruct (decide (Protocol p ≠ Protocol q)), (decide (Protocol q ≠ Protocol p));
    try naive_solver. by rewrite andb_comm.
Qed.

Lemma StronglySorted_sym_perm {A} (R : A → A → Prop) l l' :
  (∀ x y, R x y → R y x) → l ≡ₚ l' → StronglySorted R l → StronglySorted R l'.
Proof.
  intros Hsym. induction 1 as [|x l l' Hl IH|x y l|l1 l2 l3 _ IH1 _ IH2]; intros HS.
  - done.
  - apply StronglySorted_inv in HS as [HS Hx]. constructor; [by apply IH|]. by rewrite <- Hl.
  - apply StronglySorted_inv in HS as [HS Hy]. apply StronglySorted_inv in HS as [HS Hx].
    apply Forall_cons in Hy as [Hyx Hy]. repeat constructor; auto.
  - auto.
Qed.

Lemma port_le_spec p q :
  port_le p q ↔ str_lt (Protocol p) (Protocol q) ∨
    (Protocol p = Protocol q ∧ ((FromPort p < FromPort q)%Z ∨
       (FromPort p = FromPort q ∧ (ToPort p ≤ ToPort q)%Z))).
Proof.
  unfold port_le, PortRange_LessThan. case_decide as H1.
  - rewrite bool_decide_eq_false.
    destruct (str_lt_trichotomy (Protocol p) (Protocol q)) as [H|[H|H]]; [|congruence|].
    + split; [by left|]. intros _ H'. by apply (str_lt_irrefl (Protocol p)); etrans.
    + split; [done|]. intros [H'|[? _]] _; [|congruence].
      by apply (str_lt_irrefl (Protocol p)); etrans.
  - rewrite H1.
    assert (¬ str_lt (Protocol p) (Protocol p)) by apply str_lt_irrefl.
    case_decide; rewrite bool_decide_eq_false; intuition lia.
Qed.

#[global] Instance port_le_total : Total port_le.
Proof.
  intros p q. rewrite !port_le_spec.
  destruct (str_lt_trichotomy (Protocol p) (Protocol q)) as [H|[H|H]]; [auto| |auto].
  rewrite H. destruct (Z.lt_total (FromPort p) (FromPort q)) as [?|[?|?]]; [auto| |auto].
  destruct (Z.le_ge_cases (ToPort p) (ToPort q)); auto 7.
Qed.

#[global] Instance port_le_trans : Transitive port_le.
Proof.
  intros p q r. rewrite !port_le_spec. intros [H1|[E1 H1]] [H2|[E2 H2]].
  - left. by etrans.
  - left. by rewrite <- E2.
  - left. by rewrite E1.
  - right. split; [congruence|lia].
Qed.

Lemma StronglySorted_impl2 {A} (R1 R2 R : A → A → Prop) (P : A → Prop) l :
  (∀ x y, P x → P y → R1 x y → R2 x y → R x y) →
  Forall P l → StronglySorted R1 l → StronglySorted R2 l → StronglySorted R l.
Proof.
  intros HR. induction l as [|x l IH]; intros HP H1 H2; [constructor|].
  apply Forall_cons in HP as [Hx HP].
  apply StronglySorted_inv in H1 as [H1 F1]. apply StronglySorted_inv in H2 as [H2 F2].
  constructor; [auto|]. rewrite Forall_forall in *. eauto.
Qed.

Lemma sorted_disjoint_before p q :
  proper p → proper q → port_le p q → disjoint_ranges p q → port_before p q.
Proof.
  intros [Hp _] [Hq _] [H|[E H]]%port_le_spec Hd; [by left|right]. split; [done|].
  unfold disjoint_ranges, PortRange_ConflictsWith in Hd.
  rewrite decide_False in Hd by tauto.
  apply andb_false_iff in Hd as [Hd%bool_decide_eq_false|Hd%bool_decide_eq_false]; lia.
Qed.

(** C38: combining port ranges covers exactly the ports the ranges cover, and
    leaves nothing to combine.  For ranges that are the right way round, a port
    of a protocol is in one of the combined ranges exactly when it is in one of
    the given ones; and if the given ranges do not overlap, the combined ones
    are in order with a gap between any two of the same protocol. *)
Theorem CombinePortRanges_exact l :
  Forall proper l →
  (∀ proto port, covers (CombinePortRanges l) proto port ↔ covers l proto port)
  ∧ (StronglySorted disjoint_ranges l →
     StronglySorted well_before (CombinePortRanges l)).
Proof.
  intros Hp. unfold CombinePortRanges, SortPortRanges.
  assert (merge_sort port_le l ≡ₚ l) as Hperm by apply merge_sort_Permutation.
  assert (Forall proper (merge_sort port_le l)) as Hp' by by rewrite Hperm.
  split.
  - intros proto port. rewrite combine_covers by done. by apply covers_perm.
  - intros Hd. apply combine_well_before; [done|]. simpl.
    eapply (StronglySorted_impl2 port_le disjoint_ranges port_before proper);
      [apply sorted_disjoint_before|done| |].
    + apply StronglySorted_merge_sort; apply _.
    + eapply StronglySorted_sym_perm; [apply disjoint_ranges_sym|by symmetry|done].
Qed.

(** ** Bounds *)

(** What [Validate] accepts. *)
Lemma Validate_Ok p :
  PortRange_Validate p = Ok () ↔
    (ToLower (Protocol p) = "icmp" ∧ FromPort p = (-1)%Z ∧ ToPort p = (-1)%Z)
    ∨ ((ToLower (Protocol p) = "tcp" ∨ ToLower (Protocol p) = "udp")
       ∧ (0 ≤ FromPort p ≤ ToPort p)%Z ∧ (ToPort p ≤ 65535)%Z).
Proof.
  unfold PortRange_Validate. set (proto := ToLower (Protocol p)).
  destruct (_ && _ && _) eqn:E.
  { rewrite !andb_true_iff, !bool_decide_eq_true in E. naive_solver. }
  rewrite !andb_false_iff, !bool_decide_eq_false in E. case_decide as Hi.
  - destruct (_ && _) eqn:E2.
    + rewrite andb_true_iff, !bool_decide_eq_true in E2. split; [|done].
      intros _. left. split_and!; [done|tauto|lia].
    + rewrite andb_false_iff, !bool_decide_eq_false in E2. split; [done|].
      rewrite Hi. intros [(_ & ? & ?)|([?|?] & _)]; [lia|done|done].
  - case_decide; [split; [done|]; intros [(? & _)|(_ & ? & ?)]; [done|lia]|].
    destruct (_ || _ || _ || _) eqn:E2.
    + rewrite !orb_true_iff, !bool_decide_eq_true in E2. split; [done|].
      intros [(? & _)|(_ & ? & ?)]; [done|lia].
    + rewrite !orb_false_iff, !bool_decide_eq_false in E2. split; [|done].
      intros _. right. split; [|lia].
      destruct E as [[E|E]|E]; apply dec_stable in E; auto; done.
Qed.

Lemma sanitize_bound_range b : (1 ≤ sanitize_bound b ≤ 65535)%Z.
Proof. unfold sanitize_bound. repeat case_decide; lia. Qed.

Lemma sanitize_bound_mono a b : (a ≤ b → sanitize_bound a ≤ sanitize_bound b)%Z.
Proof. unfold sanitize_bound. repeat case_decide; lia. Qed.

Lemma sanitize_bound_id b : (1 ≤ b ≤ 65535)%Z → sanitize_bound b = b.
Proof. unfold sanitize_bound. repeat case_decide; lia. Qed.

(** Sanitized bounds are in order and within 1 to 65535, nothing is changed
    that already was, and sanitizing again changes nothing.  The length of a
    range that is valid is between 1 and 65536; it is 1 for ICMP, and 0 exactly
    for a range that is not valid. *)
Theorem port_range_bounds p :
  let s := PortRange_SanitizeBounds p in
  Protocol s = Protocol p
  ∧ (Protocol p ≠ "icmp" → (1 ≤ FromPort s ≤ ToPort s)%Z ∧ (ToPort s ≤ 65535)%Z)
  ∧ ((1 ≤ FromPort p ≤ ToPort p)%Z → (ToPort p ≤ 65535)%Z → s = p)
  ∧ PortRange_SanitizeBounds s = s
  ∧ (0 ≤ PortRange_Length p ≤ 65536)%Z
  ∧ (PortRange_Length p = 0%Z ↔ PortRange_Validate p ≠ Ok ())
  ∧ (PortRange_Validate p = Ok () → ToLower (Protocol p) = "icmp" →
     PortRange_Length p = 1%Z).
Proof.
  assert (∀ q, (1 ≤ FromPort q ≤ ToPort q)%Z → (ToPort q ≤ 65535)%Z →
            PortRange_SanitizeBounds q = q) as Hid.
  { intros [f t proto] H1 H2. unfold PortRange_SanitizeBounds. simpl in *.
    case_decide; [done|]. rewrite decide_False by lia.
    by rewrite !sanitize_bound_id by lia. }
  assert (Protocol p ≠ "icmp" → (1 ≤ FromPort (PortRange_SanitizeBounds p)
    ≤ ToPort (PortRange_SanitizeBounds p))%Z
    ∧ (ToPort (PortRange_SanitizeBounds p) ≤ 65535)%Z) as Hb.
  { intros Hp. unfold PortRange_SanitizeBounds. rewrite decide_False by done.
    case_decide; simpl; (split; [split|]; [apply sanitize_bound_range|
      apply sanitize_bound_mono; lia|apply sanitize_bound_range]). }
  assert (Protocol (PortRange_SanitizeBounds p) = Protocol p) as Hproto.
  { unfold PortRange_SanitizeBounds. repeat case_decide; done. }
  assert (PortRange_Validate p = Ok () →
    PortRange_Length p = (ToPort p - FromPort p + 1)%Z) as Hlen.
  { intros Hv. unfold PortRange_Length. rewrite Hv. apply Validate_Ok in Hv.
    apply wrap_int_id. unfold MinInt, MaxInt. lia. }
  assert (PortRange_Validate p ≠ Ok () → PortRange_Length p = 0%Z) as Hlen0.
  { unfold PortRange_Length. by destruct (PortRange_Validate p) as [[]|]. }
  split; [done|]. split; [done|]. split; [apply Hid|]. split; [|split; [|split]].
  - destruct (decide (Protocol p = "icmp")) as [E|E]; [|by apply Hid; apply Hb].
    assert (PortRange_SanitizeBounds p = p) as E'; [|by rewrite E'].
    unfold PortRange_SanitizeBounds. by rewrite decide_True.
  - destruct (decide (PortRange_Validate p = Ok ())) as [E|E]; [|rewrite Hlen0 by done; lia].
    rewrite Hlen by done. apply Validate_Ok in E. lia.
  - split; [|done]. intros E Hv. rewrite Hlen in E by done. apply Validate_Ok in Hv. lia.
  - intros Hv Hi. rewrite Hlen by done. apply Validate_Ok in Hv.
    destruct Hv as [(_ & -> & ->)|(H & _)]; [done|destruct H; congruence].
Qed.

(** ** Writing and reading *)

(** A valid port range that is written is read back.  For every range that
    passes validation, with its protocol in lower case, parsing its text gives
    the same range and no error. *)
Theorem ParsePortRange_String p :
  PortRange_Validate p = Ok () → ToLower (Protocol p) = Protocol p →
  ParsePortRange (PortRange_String p) = (p, None).
Proof.
  intros Hv Hlow. pose proof Hv as [(Hp & Hf & Ht)|(Hp & Hr & Ht)]%Validate_Ok;
    rewrite Hlow in Hp; unfold PortRange_String; rewrite Hlow.
  - rewrite Hp, decide_True by done. destruct p. simpl in *. by subst.
  - rewrite decide_False by (destruct Hp as [-> | ->]; done).
    assert (digit_char slash = false ∧ digit_char dash = false) as [Hs Hd] by done.
    assert (∀ z, (0 ≤ z)%Z → (pretty z : string) ≠ "icmp") as Hnot.
    { intros z Hz E. pose proof (pretty_Z_digits z Hz) as H. by rewrite E in H. }
    assert (MinInt ≤ FromPort p ≤ MaxInt ∧ MinInt ≤ ToPort p ≤ MaxInt)%Z as [H1 H2]
      by (unfold MinInt, MaxInt; lia).
    unfold ParsePortRange. case_decide as He.
    + rewrite cut_app by (by apply pretty_Z_lacks; [lia|]). unfold parse_port_range.
      rewrite split_on_lacks by (by apply pretty_Z_lacks; [lia|]).
      rewrite decide_False by (apply Hnot; lia). rewrite Atoi_pretty by done. simpl.
      rewrite decide_False by lia. destruct p as [f t proto]. simpl in *. subst t.
      by rewrite Hv.
    + rewrite append_String_assoc, cut_app.
      2:{ rewrite lacks_app. simpl. rewrite !pretty_Z_lacks by (done || lia). done. }
      unfold parse_port_range. rewrite split_on_app by (by apply pretty_Z_lacks; [lia|]).
      rewrite split_on_lacks by (by apply pretty_Z_lacks; [lia|]).
      rewrite !Atoi_pretty by done. simpl. rewrite decide_False by lia.
      destruct p as [f t proto]. simpl in *. by rewrite Hv.
Qed.

(** ** Merging requests *)

(** Steps of the removal loop that find nothing. *)
Lemma remove_loop_skip k n i pr arr len m :
  (∀ j v, i ≤ j < i + k → arr !! j = Some v → v ≠ pr) → i + k ≤ length arr →
  remove_loop (k + n) i pr arr len m = remove_loop n (i + k) pr arr len m.
Proof.
  revert i. induction k as [|k IH]; intros i Hne Hlen; simpl.
  { by rewrite Nat.add_0_r. }
  destruct (lookup_lt_is_Some_2 arr i) as [v Hv]; [lia|]. rewrite Hv.
  rewrite decide_True by (eapply Hne; [|done]; lia).
  rewrite IH; [f_equal; lia| |lia]. intros j v' Hj. apply Hne. lia.
Qed.

Lemma remove_loop_nodup pr l1 l2 :
  NoDup (l1 ++ pr :: l2) →
  remove_loop (length (l1 ++ pr :: l2)) 0 pr (l1 ++ pr :: l2) (length (l1 ++ pr :: l2)) false
    = Ok (l1 ++ l2, true).
Proof.
  intros (Hd1 & Hd12 & [Hd2 _]%NoDup_cons)%NoDup_app.
  assert (pr ∉ l1) as Hn1 by (intros ?; by eapply Hd12, elem_of_cons; [|left]).
  rewrite length_app. simpl length.
  rewrite remove_loop_skip; [|intros j v Hj|rewrite length_app; simpl; lia].
  2:{ rewrite lookup_app_l by lia. intros Hv ->. by apply Hn1, list_elem_of_lookup_2 with j. }
  simpl. rewrite lookup_app_r, Nat.sub_diag by lia. simpl.
  rewrite decide_False by tauto. rewrite decide_False by lia.
  rewrite take_app_length, (take_ge (l1 ++ pr :: l2)) by (rewrite length_app; simpl; lia).
  assert (drop (S (length l1)) (l1 ++ pr :: l2) = l2) as ->.
  { rewrite drop_app_ge by lia. by replace (S (length l1) - length l1) with 1 by lia. }
  replace (length l1 + S (length l2) - 1) with (length l1 + length l2) by lia.
  set (tail := drop (length l1 + length l2) (l1 ++ pr :: l2)).
  assert (length tail = 1) as Ht.
  { unfold tail. rewrite length_drop, length_app. simpl. lia. }
  replace (length l2) with (length l2 + 0) at 1 by lia.
  rewrite remove_loop_skip.
  - simpl. rewrite (assoc_L (++)). rewrite take_app_le by (rewrite length_app; lia).
    rewrite take_ge by (rewrite length_app; lia). done.
  - intros j v Hj. rewrite lookup_app_r by lia. destruct (decide (j - length l1 < length l2)) as [Hlt|Hge].
    + rewrite lookup_app_l by lia. intros Hv ->. by apply Hd2, list_elem_of_lookup_2 with (j - length l1).
    + rewrite lookup_app_r by lia. unfold tail. rewrite lookup_drop.
      replace (length l1 + length l2 + (j - length l1 - length l2)) with j by lia.
      rewrite lookup_app_r by lia. destruct (j - length l1) as [|k] eqn:Ek; [lia|]. simpl.
      intros Hv ->. apply Hd2. by apply list_elem_of_lookup_2 with k.
  - rewrite !length_app. simpl. lia.
Qed.

Lemma ranges_for_insert ep l grp ep' :
  ranges_for ep' (<[ep := l]> grp) = if decide (ep' = ep) then l else ranges_for ep' grp.
Proof.
  unfold ranges_for, GroupedPortRanges in *. case_decide as E.
  - subst. by rewrite lookup_insert_eq.
  - by rewrite lookup_insert_ne.
Qed.

Lemma ranges_for_delete ep grp ep' :
  ranges_for ep' (delete ep grp) = if decide (ep' = ep) then [] else ranges_for ep' grp.
Proof.
  unfold ranges_for, GroupedPortRanges in *. case_decide as E.
  - subst. by rewrite lookup_delete_eq.
  - by rewrite lookup_delete_ne.
Qed.

(** Removing a range that is there. *)
Lemma removePortRange_exact ep pr grp :
  group_ok grp → in_group grp ep pr →
  ∃ grp', removePortRange ep pr grp = Ok (grp', true) ∧ group_ok grp'
    ∧ ∀ ep' pr', in_group grp' ep' pr' ↔ in_group grp ep' pr' ∧ (ep', pr') ≠ (ep, pr).
Proof.
  intros Hok Hin. unfold removePortRange. pose proof (Hok ep) as Hd.
  apply list_elem_of_split in Hin as (l1 & l2 & E). rewrite E in *.
  rewrite remove_loop_nodup by done.
  assert ((pr ∉ l1 ++ l2) ∧ NoDup (l1 ++ l2)) as [Hn Hd'].
  { rewrite <- Permutation_middle in Hd. by apply NoDup_cons in Hd. }
  assert (∀ grp', (∀ ep', ranges_for ep' grp' =
      if decide (ep' = ep) then l1 ++ l2 else ranges_for ep' grp) →
    group_ok grp' ∧ ∀ ep' pr', in_group grp' ep' pr' ↔
      in_group grp ep' pr' ∧ (ep', pr') ≠ (ep, pr)) as Hspec.
  { intros grp' Hg. split.
    - intros ep'. rewrite Hg. case_decide; [done|apply Hok].
    - intros ep' pr'. unfold in_group. rewrite Hg. case_decide as Ee; [subst; rewrite E|].
      + rewrite !elem_of_app, elem_of_cons in *. split; [|naive_solver].
        intros H. split; [tauto|]. intros [= ->]. tauto.
      + split; [|tauto]. intros H. split; [done|]. congruence. }
  destruct (l1 ++ l2) as [|x l] eqn:El.
  - exists (delete ep grp). split; [done|]. apply Hspec. intros ep'. apply ranges_for_delete.
  - exists (<[ep := x :: l]> grp). split; [done|]. apply Hspec. intros ep'.
    apply ranges_for_insert.
Qed.

(** The requests one by one. *)
Definition flat (order : list (string * list PortRange)) : list (string * PortRange) :=
  order ≫= λ p, (λ pr, (p.1, pr)) <$> p.2.

Lemma elem_of_flat order ep pr : (ep, pr) ∈ flat order ↔ requested order ep pr.
Proof.
  unfold flat, requested. rewrite list_elem_of_bind. split.
  - intros ([ep' l] & H & Hin). apply list_elem_of_fmap in H as (pr' & [= -> ->] & H). eauto.
  - intros (l & Hin & H). exists (ep, l). split; [|done]. apply list_elem_of_fmap. eauto.
Qed.

Lemma foldl_flat {A} (f : string → A → PortRange → A) order acc :
  foldl (λ acc '(ep, l), foldl (f ep) acc l) acc order
  = foldl (λ acc p, f p.1 acc p.2) acc (flat order).
Proof.
  revert acc. induction order as [|[ep l] order IH]; intros acc; [done|].
  simpl. unfold flat. simpl. rewrite foldl_app, IH. f_equal.
  revert acc. induction l as [|pr l IHl]; intros acc; simpl; [done|]. apply IHl.
Qed.

Lemma open_loop l grp m :
  group_ok grp →
  let '(grp', m') := foldl (λ acc p, merge_open_one p.1 acc p.2) (grp, m) l in
  group_ok grp'
  ∧ (∀ ep pr, in_group grp' ep pr ↔ in_group grp ep pr ∨ (ep, pr) ∈ l)
  ∧ (m' = true ↔ m = true ∨ ∃ p, p ∈ l ∧ ¬ in_group grp p.1 p.2).
Proof.
  revert grp m. induction l as [|[ep pr] l IH]; intros grp m Hok; simpl.
  { split_and!; [done|set_solver|set_solver]. }
  unfold rangeExistsForEndpoint. destruct (bool_decide (pr ∈ ranges_for ep grp)) eqn:E.
  - apply bool_decide_eq_true in E. specialize (IH grp m Hok). destruct (foldl _ _ l).
    destruct IH as (? & H2 & H3). split_and!; [done|..].
    + intros ep' pr'. rewrite H2, elem_of_cons. unfold in_group. naive_solver.
    + rewrite H3. setoid_rewrite elem_of_cons. unfold in_group. naive_solver.
  - apply bool_decide_eq_false in E.
    set (grp1 := <[ep := ranges_for ep grp ++ [pr]]> grp).
    assert (∀ ep' pr', in_group grp1 ep' pr' ↔
              in_group grp ep' pr' ∨ (ep', pr') = (ep, pr)) as Hin.
    { intros ep' pr'. unfold in_group, grp1. rewrite ranges_for_insert. case_decide as Ee.
      - subst. rewrite elem_of_app, list_elem_of_singleton. naive_solver.
      - naive_solver. }
    assert (group_ok grp1) as Hok1.
    { intros ep'. unfold grp1. rewrite ranges_for_insert. case_decide; [|apply Hok].
      apply NoDup_app. split_and!; [apply Hok| |apply NoDup_singleton]. set_solver. }
    specialize (IH grp1 true Hok1). destruct (foldl _ _ l). destruct IH as (? & H2 & H3).
    split_and!; [done|..].
    + intros ep' pr'. rewrite H2, Hin, elem_of_cons. naive_solver.
    + rewrite H3. split; [|naive_solver]. intros _. right. exists (ep, pr).
      split; [by left|done].
Qed.

Lemma close_loop l grp m :
  group_ok grp →
  ∃ grp' m', foldl (λ acc p, merge_close_one p.1 acc p.2) (Ok (grp, m)) l = Ok (grp', m')
  ∧ group_ok grp'
  ∧ (∀ ep pr, in_group grp' ep pr ↔ in_group grp ep pr ∧ (ep, pr) ∉ l)
  ∧ (m' = true ↔ m = true ∨ ∃ p, p ∈ l ∧ in_group grp p.1 p.2).
Proof.
  revert grp m. induction l as [|[ep pr] l IH]; intros grp m Hok; simpl.
  { exists grp, m. split_and!; [done|done|set_solver|set_solver]. }
  unfold rangeExistsForEndpoint. destruct (bool_decide (pr ∈ ranges_for ep grp)) eqn:E; simpl.
  - apply bool_decide_eq_true in E.
    destruct (removePortRange_exact ep pr grp Hok E) as (grp1 & -> & Hok1 & Hin).
    destruct (IH grp1 true Hok1) as (grp2 & m2 & -> & ? & H2 & H3).
    exists grp2, m2. split_and!; [done|done|..].
    + intros ep' pr'. rewrite H2, Hin, elem_of_cons. naive_solver.
    + rewrite H3. split; [|naive_solver]. intros _. right. exists (ep, pr).
      split; [by left|done].
  - apply bool_decide_eq_false in E.
    destruct (IH grp m Hok) as (grp2 & m2 & -> & ? & H2 & H3).
    exists grp2, m2. split_and!; [done|done|..].
    + intros ep' pr'. rewrite H2, elem_of_cons. unfold in_group in *. naive_solver.
    + rewrite H3. setoid_rewrite elem_of_cons. unfold in_group in *. naive_solver.
Qed.

(** Merging open and close requests into a group of port ranges is the
    union and the difference of the ranges of each endpoint, whatever the order
    in which the requests are gone through.  A group without duplicates stays
    one, closing never goes out of the bounds of a slice, and both report a
    modification exactly when there is one. *)
Theorem merging_port_requests_exact order grp :
  group_ok grp →
  (let '(grp', modified) := MergePendingOpenPortRanges order grp in
   group_ok grp'
   ∧ (∀ ep pr, in_group grp' ep pr ↔ in_group grp ep pr ∨ requested order ep pr)
   ∧ (modified = true ↔ ∃ ep pr, requested order ep pr ∧ ¬ in_group grp ep pr))
  ∧ ∃ grp' modified, MergePendingClosePortRanges order grp = Ok (grp', modified)
   ∧ group_ok grp'
   ∧ (∀ ep pr, in_group grp' ep pr ↔ in_group grp ep pr ∧ ¬ requested order ep pr)
   ∧ (modified = true ↔ ∃ ep pr, requested order ep pr ∧ in_group grp ep pr).
Proof.
  intros Hok.
  unfold MergePendingOpenPortRanges, MergePendingClosePortRanges. rewrite !foldl_flat. split.
  - pose proof (open_loop (flat order) grp false Hok) as H. destruct (foldl _ _ _).
    setoid_rewrite <- elem_of_flat. destruct H as (? & ? & H3). split_and!; [done..|]. rewrite H3. split.
    + intros [?|([ep pr] & ? & ?)]; [done|eauto].
    + intros (ep & pr & ? & ?). right. by exists (ep, pr).
  - destruct (close_loop (flat order) grp false Hok) as (grp' & m & E & ? & ? & H3).
    exists grp', m. setoid_rewrite <- elem_of_flat. split_and!; [done..|]. rewrite H3. split.
    + intros [?|([ep pr] & ? & ?)]; [done|eauto].
    + intros (ep & pr & ? & ?). right. by exists (ep, pr).
Qed.
