(* ===== verification/Version.v ===== *)
(** * Version numbers

    core/semversion/version.go: juju's version numbers, written, read in the
    strict and the lenient way, and compared. *)

From Stdlib Require Import Ascii.
From stdpp Require Import pretty.
From S2P Require Import Prelude GoText.

Record Number : Type := MkNumber {
  Major : Z;
  Minor : Z;
  Tag : string;
  Patch : Z;
  Build : Z;
}.

#[global] Instance Number_eq_dec : EqDecision Number.
Proof. solve_decision. Defined.

Definition ZeroNumber : Number := MkNumber 0 0 "" 0 0.
Definition Number_IsZero (n : Number) : bool := bool_decide (n = ZeroNumber).

Definition Number_String (n : Number) : string :=
  let build := if decide (0 < Build n)%Z then String dot (pretty (Build n)) else "" in
  if decide (Tag n = "") then
    pretty (Major n) +:+ String dot (pretty (Minor n)
      +:+ String dot (pretty (Patch n) +:+ build))
  else
    pretty (Major n) +:+ String dot (pretty (Minor n)
      +:+ String dash (Tag n +:+ (pretty (Patch n) +:+ build))).

(** ** Reading *)

(** The longest prefix of characters that satisfy [p], and the rest. *)
Fixpoint span (p : ascii → bool) (s : string) : string * string :=
  match s with
  | EmptyString => ("", "")
  | String c s' =>
      if p c then let '(w, rest) := span p s' in (String c w, rest) else ("", s)
  end.

(** The named groups of [NumberRegex]; one that did not take part is empty. *)
Record groups : Type := MkGroups {
  g_major : string;
  g_minor : string;
  g_tag : string;
  g_patchInTag : string;
  g_patch : string;
  g_build : string;
}.

(** [\d{1,9}], followed by something that is not a digit. *)
Definition digits (s : string) : option (string * string) :=
  let '(w, rest) := span digit_char s in
  if decide (1 ≤ String.length w ≤ 9) then Some (w, rest) else None.

(** [(\.(?P<build>\d{1,9}))?$] *)
Definition match_build (s : string) : option string :=
  match s with
  | EmptyString => Some ""
  | String c s' =>
      if decide (c = dot) then
        match digits s' with
        | Some (build, EmptyString) => Some build
        | _ => None
        end
      else None
  end.

(** [-(?P<tag>[a-z]+)(?P<patchInTag>\d{1,9})?], after the dash. *)
Definition match_tag (s : string) : option (string * string * string) :=
  let '(tag, s1) := span lower_letter s in
  if decide (tag = "") then None
  else
    let '(patch, s2) := span digit_char s1 in
    if decide (String.length patch ≤ 9) then Some (tag, patch, s2) else None.

(** What follows the minor number. *)
Definition match_rest (major minor s : string) : option groups :=
  match s with
  | EmptyString => Some (MkGroups major minor "" "" "" "")
  | String c s' =>
      if decide (c = dash) then
        '(tag, patch, s2) ← match_tag s';
        build ← match_build s2;
        Some (MkGroups major minor tag patch "" build)
      else if decide (c = dot) then
        '(patch, s2) ← digits s';
        build ← match_build s2;
        Some (MkGroups major minor "" "" patch build)
      else None
  end.

(** [numberPat.FindStringSubmatch]: the expression is anchored at both ends and
    each part of it ends where its characters do, so there is one way to
    match. *)
Definition match_number (s : string) : option groups :=
  '(major, s1) ← digits s;
  match s1 with
  | EmptyString => Some (MkGroups major "" "" "" "" "")
  | String c s' =>
      if decide (c = dot) then
        '(minor, s2) ← digits s';
        match_rest major minor s2
      else None
  end.

(** The package's own [atoi]: it panics where [strconv.Atoi] fails. *)
Definition version_atoi (s : string) : result Z :=
  match Atoi s with
  | (n, None) => Ok n
  | (_, Some _) => Err (GoPanic "strconv.Atoi")
  end.

(** A number that may be missing. *)
Definition opt_atoi (s : string) : result Z :=
  if decide (s = "") then Ok 0%Z else version_atoi s.

(** [parseVersion]; [None] is its nil. *)
Definition parseVersion (g : option groups) (strict : bool) : result (option Number) :=
  match g with
  | None => Ok None
  | Some g =>
      if decide (g_major g = "") then Ok None
      else
        major ← version_atoi (g_major g);
        if bool_decide (g_minor g = "") && strict then Ok None
        else
          minor ← opt_atoi (g_minor g);
          let patch := if decide (g_patch g = "") then g_patchInTag g else g_patch g in
          if bool_decide (patch = "") && strict then Ok None
          else
            p ← opt_atoi patch;
            build ← opt_atoi (g_build g);
            Ok (Some (MkNumber major minor (g_tag g) p build))
  end.

(** The end of [Parse] and [ParseNonStrict]. *)
Definition parsed (n : option Number) : result Number :=
  match n with
  | Some n => Ok n
  | None => Err (ErrNew "invalid version %q")
  end.

Definition Version_Parse (s : string) : result Number :=
  parseVersion (match_number s) true ≫= parsed.
Definition Version_ParseNonStrict (s : string) : result Number :=
  parseVersion (match_number s) false ≫= parsed.

(** ** Comparing *)

Definition Number_Compare (n other : Number) : Z :=
  if decide (n = other) then 0%Z
  else
    let less :=
      if decide (Major n ≠ Major other) then bool_decide (Major n < Major other)%Z
      else if decide (Minor n ≠ Minor other) then bool_decide (Minor n < Minor other)%Z
      else if decide (Tag n ≠ Tag other) then
        if decide (Tag n = "") then false
        else if decide (Tag other = "") then true
        else bool_decide (str_lt (Tag n) (Tag other))
      else if decide (Patch n ≠ Patch other) then bool_decide (Patch n < Patch other)%Z
      else if decide (Build n ≠ Build other) then bool_decide (Build n < Build other)%Z
      else false in
    if less then (-1)%Z else 1%Z.

Definition Number_ToPatch (n : Number) : Number :=
  MkNumber (Major n) (Minor n) (Tag n) (Patch n) 0.

(** [ParseMajorMinor] *)
Definition ParseMajorMinor (vers : string) : result (Z * Z) :=
  let parts := split_on dot vers in
  match Atoi (default "" (head parts)) with
  | (_, Some e) => Err (ErrNew "invalid major version number %s: %v")
  | (major, None) =>
      match parts with
      | [_; p2] =>
          match Atoi p2 with
          | (_, Some e) => Err (ErrNew "invalid minor version number %s: %v")
          | (minor, None) => Ok (major, minor)
          end
      | _ :: _ :: _ => Err (ErrNew "invalid major.minor version number %s")
      | _ => Ok (major, (-1)%Z)
      end
  end.
