(* ===== verification/VersionFacts.v ===== *)
(** * What holds of version numbers

    Reading what was written gives the number back, and comparison is a total
    order in which a tagged version comes before the release it leads to. *)

From Stdlib Require Import Ascii.
From stdpp Require Import pretty.
From S2P Require Import Prelude GoText Version.

(** Numbers that can be written: at most nine digits each, lower-case tags. *)
Definition number_ok (n : Number) : Prop :=
  (0 ≤ Major n < 10^9)%Z ∧ (0 ≤ Minor n < 10^9)%Z ∧ (0 ≤ Patch n < 10^9)%Z
  ∧ (0 ≤ Build n < 10^9)%Z ∧ all_chars lower_letter (Tag n) = true.

(** The order: by major and minor number, a tagged version before the untagged
    one and tags in their own order, then by patch and build. *)
Definition tag_lt (a b : string) : Prop := a ≠ "" ∧ (b = "" ∨ str_lt a b).
Definition number_lt (a b : Number) : Prop :=
  (Major a < Major b)%Z ∨ (Major a = Major b ∧
  ((Minor a < Minor b)%Z ∨ (Minor a = Minor b ∧
  (tag_lt (Tag a) (Tag b) ∨ (Tag a = Tag b ∧
  ((Patch a < Patch b)%Z ∨ (Patch a = Patch b ∧ (Build a < Build b)%Z))))))).

(** A string that does not start with a character that satisfies [p]. *)
Definition stops (p : ascii → bool) (s : string) : Prop :=
  match s with EmptyString => True | String c _ => p c = false end.

(** ** Writing and reading *)

Lemma span_app p w rest :
  all_chars p w = true → stops p rest → span p (w +:+ rest) = (w, rest).
Proof.
  induction w as [|c w IH]; intros Hw Hr.
  - destruct rest as [|c rest]; [done|]. simpl in Hr.
    change ("" +:+ String c rest) with (String c rest). simpl. by rewrite Hr.
  - simpl in Hw. apply andb_true_iff in Hw as [Hc Hw].
    change (String c w +:+ rest) with (String c (w +:+ rest)). simpl.
    by rewrite Hc, IH.
Qed.

Lemma pretty_N_go_length k x s :
  (x < 10 ^ N.of_nat k)%N → String.length (pretty_N_go x s) ≤ k + String.length s.
Proof.
  revert x s. induction k as [|k IH]; intros x s Hx.
  { assert (x = 0)%N as -> by lia. done. }
  assert (x = 0 ∨ 0 < x)%N as [->|H0] by lia; [rewrite pretty_N_go_0; lia|].
  rewrite pretty_N_go_step by done.
  etrans; [apply IH|simpl; lia].
  apply N.Div0.div_lt_upper_bound. rewrite Nat2N.inj_succ, N.pow_succ_r' in Hx. lia.
Qed.

Lemma pretty_length (z : Z) : (0 ≤ z < 10^9)%Z → 1 ≤ String.length (pretty z) ≤ 9.
Proof.
  intros Hz. rewrite pretty_Z_nonneg by lia. split.
  - pose proof (pretty_N_not_empty (Z.to_N z)). destruct (pretty (Z.to_N z)); [done|simpl; lia].
  - unfold pretty, pretty_N. case_decide; [simpl; lia|].
    etrans; [apply (pretty_N_go_length 9); lia|simpl; lia].
Qed.

Lemma digits_pretty (z : Z) rest :
  (0 ≤ z < 10^9)%Z → stops digit_char rest → digits (pretty z +:+ rest) = Some (pretty z, rest).
Proof.
  intros Hz Hr. unfold digits. rewrite span_app by (done || apply pretty_Z_digits; lia).
  by rewrite decide_True by by apply pretty_length.
Qed.

Lemma version_atoi_pretty (z : Z) : (0 ≤ z < 10^9)%Z → version_atoi (pretty z) = Ok z.
Proof.
  intros Hz. unfold version_atoi. rewrite Atoi_pretty; [done|]. unfold MinInt, MaxInt. lia.
Qed.

Lemma pretty_not_empty (z : Z) : (0 ≤ z)%Z → (pretty z : string) ≠ "".
Proof. intros Hz. rewrite pretty_Z_nonneg by done. apply pretty_N_not_empty. Qed.

Lemma opt_atoi_pretty (z : Z) : (0 ≤ z < 10^9)%Z → opt_atoi (pretty z) = Ok z.
Proof.
  intros Hz. unfold opt_atoi. rewrite decide_False by (apply pretty_not_empty; lia).
  by apply version_atoi_pretty.
Qed.

(** The build number and what is written of it. *)
Definition build_text (b : Z) : string :=
  if decide (0 < b)%Z then String dot (pretty b) else "".

Lemma match_build_text b :
  (0 ≤ b < 10^9)%Z → ∃ t, match_build (build_text b) = Some t ∧ opt_atoi t = Ok b
    ∧ stops digit_char (build_text b).
Proof.
  intros Hb. unfold build_text. case_decide as H0.
  - exists (pretty b). pose proof (digits_pretty b "" Hb I) as Hd.
    rewrite append_nil_r in Hd. unfold match_build. rewrite decide_True, Hd by done. by rewrite opt_atoi_pretty.
  - exists "". simpl. assert (b = 0)%Z as -> by lia. done.
Qed.

Lemma match_rest_patch major minor n :
  number_ok n → Tag n = "" → ∃ b,
  match_rest major minor (String dot (pretty (Patch n) +:+ build_text (Build n)))
    = Some (MkGroups major minor "" "" (pretty (Patch n)) b) ∧ opt_atoi b = Ok (Build n).
Proof.
  intros (_ & _ & Hp & Hb & _) Ht.
  destruct (match_build_text (Build n) Hb) as (b & Hm & Ha & Hs). exists b. split; [|done].
  unfold match_rest. rewrite decide_False, decide_True by done.
  rewrite digits_pretty by done. simpl. by rewrite Hm.
Qed.

Lemma match_rest_tag major minor n :
  number_ok n → Tag n ≠ "" → ∃ b,
  match_rest major minor
    (String dash (Tag n +:+ (pretty (Patch n) +:+ build_text (Build n))))
    = Some (MkGroups major minor (Tag n) (pretty (Patch n)) "" b)
  ∧ opt_atoi b = Ok (Build n).
Proof.
  intros (_ & _ & Hp & Hb & Htag) Ht.
  destruct (match_build_text (Build n) Hb) as (b & Hm & Ha & Hs). exists b. split; [|done].
  unfold match_rest, match_tag. rewrite decide_True by done.
  pose proof (pretty_Z_digits (Patch n) ltac:(lia)) as Hdig.
  pose proof (pretty_length (Patch n) Hp) as Hlen.
  rewrite span_app; [|done|].
  - rewrite decide_False by done. rewrite span_app by done.
    rewrite decide_True by apply Hlen. simpl. by rewrite Hm.
  - destruct (pretty (Patch n)) as [|c w]; [simpl in Hlen; lia|].
    simpl in Hdig. apply andb_true_iff in Hdig as [Hc _].
    change (lower_letter c = false). unfold lower_letter, digit_char in *.
    apply bool_decide_eq_true in Hc. apply bool_decide_eq_false. lia.
Qed.

(** A version number that is written is read back.  For every number whose
    parts have at most nine digits and whose tag is of lower-case letters,
    strict parsing of its text gives the same number; so does lenient parsing. *)
Theorem Version_Parse_String n :
  number_ok n →
  Version_Parse (Number_String n) = Ok n ∧ Version_ParseNonStrict (Number_String n) = Ok n.
Proof.
  intros Hn. pose proof Hn as (Hma & Hmi & Hp & Hb & Htag).
  assert (∃ g, match_number (Number_String n) = Some g ∧ g_major g = pretty (Major n)
    ∧ g_minor g = pretty (Minor n) ∧ g_tag g = Tag n ∧ opt_atoi (g_build g) = Ok (Build n)
    ∧ (if decide (g_patch g = "") then g_patchInTag g else g_patch g) = pretty (Patch n))
    as (g & Hg & E1 & E2 & E3 & E4 & E5).
  { unfold Number_String, match_number. fold (build_text (Build n)).
    assert (stops digit_char (String dot "") ∧ stops digit_char (String dash "")) as [Hd1 Hd2]
      by done.
    case_decide as Ht; rewrite digits_pretty by done; cbn [mbind option_bind];
      rewrite (decide_True (P:=dot = dot)) by done; rewrite digits_pretty by done;
      cbn [mbind option_bind].
    - destruct (match_rest_patch (pretty (Major n)) (pretty (Minor n)) n Hn Ht) as (b & -> & Hb').
      eexists. split; [done|]. simpl. rewrite Ht, decide_False; [done|].
      apply pretty_not_empty. lia.
    - destruct (match_rest_tag (pretty (Major n)) (pretty (Minor n)) n Hn Ht) as (b & -> & Hb').
      eexists. split; [done|]. done. }
  assert (∀ strict, parseVersion (match_number (Number_String n)) strict = Ok (Some n)) as H.
  { intros strict. rewrite Hg. unfold parseVersion. rewrite E1, E2, E5.
    rewrite decide_False, !bool_decide_false by (apply pretty_not_empty; lia). simpl.
    rewrite version_atoi_pretty by done. simpl. rewrite !opt_atoi_pretty by done. simpl.
    rewrite E4, E3. simpl. by destruct n. }
  unfold Version_Parse, Version_ParseNonStrict. by rewrite !H.
Qed.

(** ** Comparing *)

Lemma tag_lt_irrefl t : ¬ tag_lt t t.
Proof. intros [H1 [H2|H2]]; [done|]. by apply str_lt_irrefl in H2. Qed.

Lemma tag_lt_trans a b c : tag_lt a b → tag_lt b c → tag_lt a c.
Proof.
  intros [H1 H2] [H3 [->|H4]]; (split; [done|]); [by left|].
  destruct H2 as [?|H2]; [done|]. right. by etrans.
Qed.

Lemma number_lt_irrefl n : ¬ number_lt n n.
Proof. unfold number_lt. pose proof (tag_lt_irrefl (Tag n)). intuition lia. Qed.

Lemma number_lt_trans a b c : number_lt a b → number_lt b c → number_lt a c.
Proof.
  unfold number_lt. pose proof (tag_lt_trans (Tag a) (Tag b) (Tag c)) as Ht.
  intros [?|[? [?|[? [?|[E1 [?|[? ?]]]]]]]] [?|[? [?|[? [?|[E2 [?|[? ?]]]]]]]];
    try (left; lia); right; (split; [lia|]); try (left; lia); right; (split; [lia|]);
    rewrite ?E1, <- ?E2; auto; right; (split; [congruence|]); lia.
Qed.

Lemma Number_Compare_lt a b : Number_Compare a b = (-1)%Z ↔ number_lt a b.
Proof.
  unfold Number_Compare. case_decide as E.
  { subst. split; [done|]. intros H. by apply number_lt_irrefl in H. }
  unfold number_lt, tag_lt. pose proof (str_lt_irrefl (Tag a)).
  repeat case_decide; repeat case_bool_decide; subst; intuition (try congruence; try lia).
Qed.

Lemma tag_lt_trichotomy a b : tag_lt a b ∨ a = b ∨ tag_lt b a.
Proof.
  unfold tag_lt. destruct (decide (a = "")), (decide (b = "")); subst; auto.
  destruct (str_lt_trichotomy a b) as [?|[?|?]]; auto.
Qed.

Lemma number_lt_trichotomy a b : number_lt a b ∨ a = b ∨ number_lt b a.
Proof.
  unfold number_lt. destruct a as [ma mi t p bu], b as [ma' mi' t' p' bu']. simpl.
  destruct (Z.lt_total ma ma') as [?|[->|?]]; [intuition| |intuition].
  destruct (Z.lt_total mi mi') as [?|[->|?]]; [intuition| |intuition].
  destruct (tag_lt_trichotomy t t') as [?|[->|?]]; [intuition| |intuition].
  destruct (Z.lt_total p p') as [?|[->|?]]; [intuition| |intuition].
  destruct (Z.lt_total bu bu') as [?|[->|?]]; intuition.
Qed.

Lemma Number_Compare_spec a b :
  (a = b ∧ Number_Compare a b = 0%Z)
  ∨ (number_lt a b ∧ Number_Compare a b = (-1)%Z)
  ∨ (number_lt b a ∧ Number_Compare a b = 1%Z).
Proof.
  destruct (number_lt_trichotomy a b) as [H|[H|H]].
  - right; left. split; [done|]. by apply Number_Compare_lt.
  - left. split; [done|]. unfold Number_Compare. by rewrite decide_True.
  - right; right. split; [done|].
    assert (a ≠ b) as Hne by (intros ->; by apply number_lt_irrefl in H).
    assert (Number_Compare a b ≠ (-1)%Z) as Hn.
    { intros H'%Number_Compare_lt. by apply (number_lt_irrefl a); eapply number_lt_trans. }
    revert Hn. unfold Number_Compare. rewrite decide_False by done.
    by destruct (if decide (Major a ≠ Major b) then _ else _).
Qed.

(** Comparing version numbers is a total order.  The result of [Compare] is
    -1, 0 or 1; it is 0 exactly for equal numbers, turns around when the
    arguments do, and is transitive; and a version with a tag comes before the
    same version without one. *)
Theorem Number_Compare_total_order a b c :
  (Number_Compare a b = 0%Z ↔ a = b)
  ∧ Number_Compare b a = (- Number_Compare a b)%Z
  ∧ (Number_Compare a b = (-1)%Z ∨ Number_Compare a b = 0%Z ∨ Number_Compare a b = 1%Z)
  ∧ ((Number_Compare a b ≤ 0)%Z → (Number_Compare b c ≤ 0)%Z → (Number_Compare a c ≤ 0)%Z)
  ∧ (Major a = Major b → Minor a = Minor b → Tag a ≠ "" → Tag b = "" →
     Number_Compare a b = (-1)%Z).
Proof.
  pose proof Number_Compare_spec as Hspec.
  pose proof number_lt_irrefl as Hirr. pose proof number_lt_trans as Htr.
  split_and!.
  - destruct (Hspec a b) as [[? ->]|[[? ->]|[? ->]]]; split; (done || intros ->; by destruct (Hirr b)).
  - destruct (Hspec a b) as [[-> E]|[[H ->]|[H ->]]]; [by rewrite E|..];
      destruct (Hspec b a) as [[-> E]|[[H' ->]|[H' ->]]];
      try done; try (by destruct (Hirr _ H)); by destruct (Hirr a); eapply Htr.
  - destruct (Hspec a b) as [[_ ->]|[[_ ->]|[_ ->]]]; auto.
  - destruct (Hspec a b) as [[-> ->]|[[H1 ->]|[_ ->]]]; [done| |lia].
    destruct (Hspec b c) as [[<- ->]|[[H2 ->]|[_ ->]]]; [| |lia].
    + intros _ _. apply Number_Compare_lt in H1. lia.
    + intros _ _. pose proof (Htr _ _ _ H1 H2) as H3%Number_Compare_lt. lia.
  - intros H1 H2 H3 H4. apply Number_Compare_lt. unfold number_lt, tag_lt. auto 10.
Qed.

(** ** The text of a version *)

Definition version_char (c : ascii) : bool :=
  digit_char c || lower_letter c || bool_decide (c = dot) || bool_decide (c = dash).

Lemma span_spec p s w rest :
  span p s = (w, rest) → s = w +:+ rest ∧ all_chars p w = true.
Proof.
  revert w. induction s as [|c s IH]; intros w; simpl; [intros; by simplify_eq|].
  destruct (p c) eqn:Hc; [|intros; by simplify_eq].
  destruct (span p s) as [w' rest'] eqn:E. intros. simplify_eq.
  destruct (IH _ eq_refl) as [-> H]. simpl. by rewrite Hc, H.
Qed.

Lemma span_version p s w rest :
  (∀ c, p c = true → version_char c = true) → span p s = (w, rest) →
  all_chars version_char s = all_chars version_char rest.
Proof.
  intros Hp [-> H]%span_spec. rewrite all_chars_app.
  by rewrite (all_chars_impl _ _ _ Hp H).
Qed.

Lemma digit_version c : digit_char c = true → version_char c = true.
Proof. unfold version_char. by intros ->. Qed.
Lemma letter_version c : lower_letter c = true → version_char c = true.
Proof. unfold version_char. intros ->. by rewrite orb_true_r. Qed.

Lemma digits_version s w rest :
  digits s = Some (w, rest) → all_chars version_char s = all_chars version_char rest.
Proof.
  unfold digits. destruct (span digit_char s) as [w' rest'] eqn:E. case_decide; [|done].
  intros. simplify_eq. by eapply span_version; [apply digit_version|].
Qed.

Lemma match_build_version s b : match_build s = Some b → all_chars version_char s = true.
Proof.
  destruct s as [|c s]; [done|]. simpl. case_decide as Hc; [|done]. subst c.
  destruct (digits s) as [[w [|]]|] eqn:E; try done. intros _.
  by rewrite (digits_version _ _ _ E).
Qed.

Lemma match_rest_version major minor s g :
  match_rest major minor s = Some g → all_chars version_char s = true.
Proof.
  destruct s as [|c s]; [done|]. unfold match_rest. case_decide as Hc.
  - subst c. intros ([[tag patch] s2] & Ht & (b & Hb & _)%bind_Some)%bind_Some.
    unfold match_tag in Ht. destruct (span lower_letter s) as [t s1] eqn:E1.
    case_decide; [done|]. destruct (span digit_char s1) as [p s2'] eqn:E2.
    case_decide; [|done]. simplify_eq.
    change (all_chars version_char s = true).
    rewrite (span_version _ _ _ _ letter_version E1), (span_version _ _ _ _ digit_version E2).
    by eapply match_build_version.
  - case_decide as Hc'; [|done]. subst c.
    intros ([patch s2] & Ht & (b & Hb & _)%bind_Some)%bind_Some.
    change (all_chars version_char s = true). rewrite (digits_version _ _ _ Ht).
    by eapply match_build_version.
Qed.

Lemma match_number_version s g :
  match_number s = Some g → all_chars version_char s = true ∧ s ≠ "".
Proof.
  intros ([major s1] & Hd & H)%bind_Some. split; [|by intros ->].
  rewrite (digits_version _ _ _ Hd). destruct s1 as [|c s1]; [done|].
  case_decide as Hc; [|done]. subst c.
  apply bind_Some in H as ([minor s2] & Hd2 & H).
  change (all_chars version_char s1 = true). rewrite (digits_version _ _ _ Hd2).
  by eapply match_rest_version.
Qed.

(** A version that can be read has no spaces. *)
Lemma ParseNonStrict_text s n :
  Version_ParseNonStrict s = Ok n → all_chars version_char s = true ∧ s ≠ "".
Proof.
  unfold Version_ParseNonStrict. destruct (match_number s) as [g|] eqn:E; [|done].
  intros _. by eapply match_number_version.
Qed.
