(* ===== verification/Assumes.v ===== *)
(** * What a charm assumes of its model

    domain/deployment/charm/assumes (expression.go, parser.go): the expressions
    of a charm's assumes block, read from and written to data; and core/assumes
    (featureset.go, features.go, sat_checker.go, error.go): the features of a
    model and whether they satisfy an expression. *)

From Stdlib Require Import Ascii.
From S2P Require Import Prelude GoText Version.

Set Warnings "-register-all".

(** ** Expressions *)

(** [ExpressionType] and [VersionConstraint] *)
Abbreviation AnyOfExpression := "any-of".
Abbreviation AllOfExpression := "all-of".
Abbreviation VersionGTE := ">=".
Abbreviation VersionLT := "<".

Record FeatureExpression : Type := MkFeatureExpression {
  fe_Name : string;
  fe_Constraint : string;
  fe_Version : option Number;
  fe_rawVersion : string;
}.

Inductive Expression : Type :=
| Feature_ (e : FeatureExpression)
| Composite (ExprType : string) (SubExpressions : list Expression).

(** ** Reading them

    The data the YAML and JSON libraries decode into: strings, maps with keys
    of any type ([None] is a key that is not a string), maps with string keys,
    lists, nil, and anything else. *)
Inductive any : Type :=
| AString (s : string)
| AMap (entries : list (option string * any))
| AStringMap (entries : list (string * any))
| AList (l : list any)
| ANil
| AOther.

(** [featureWithoutVersion]: a lower-case letter, then letters, digits and
    dashes, with a letter or digit at the end. *)
Definition name_end (c : ascii) : bool := lower_letter c || digit_char c.
Definition name_char (c : ascii) : bool := name_end c || bool_decide (c = dash).
Definition feature_name (s : string) : bool :=
  match String.list_ascii_of_string s with
  | c :: c' :: l =>
      lower_letter c && all_chars name_char s
      && match last (c' :: l) with Some e => name_end e | None => false end
  | _ => false
  end.

(** The class [\s] of a regular expression. *)
Definition re_space (c : ascii) : bool :=
  bool_decide (nat_of_ascii c ∈ [9; 10; 12; 13; 32]).
Definition skip_spaces (s : string) : string := (span re_space s).2.

(** The operator of a constraint. *)
Definition match_constraint (s : string) : option (string * string) :=
  match s with
  | String ">" (String "=" rest) => Some (VersionGTE, rest)
  | String "<" rest => Some (VersionLT, rest)
  | _ => None
  end%char.

(** [featureWithVersion.FindAllStringSubmatch]: the name ends where its
    characters do, and the version is what follows the operator, without
    spaces. *)
Definition match_feature (s : string) : option (string * string * string) :=
  let '(name, s1) := span name_char s in
  if negb (feature_name name) then None
  else
    '(constraint, s2) ← match_constraint (skip_spaces s1);
    let version := skip_spaces s2 in
    if bool_decide (version ≠ "") && all_chars (λ c, negb (re_space c)) version
    then Some (name, constraint, version) else None.

Definition parseFeatureExpr (exprDecl : string) : result FeatureExpression :=
  let exprDecl := TrimSpace exprDecl in
  if feature_name exprDecl then Ok (MkFeatureExpression exprDecl "" None "")
  else match match_feature exprDecl with
  | Some (featName, constraint, versionStr) =>
      ver ← Version_ParseNonStrict versionStr;
      Ok (MkFeatureExpression featName constraint (Some ver) versionStr)
  | None => Err (ErrNew "malformed feature expression %q")
  end.

(** The type of a composite expression, from the only key of the map and its
    value. *)
Definition composite_type (key : string) (value : any) : option string :=
  match value with
  | ANil => None
  | _ =>
      if decide (key = AnyOfExpression) then Some AnyOfExpression
      else if decide (key = AllOfExpression) then Some AllOfExpression
      else None
  end.

Abbreviation err_composite := (ErrNew "malformed composite expression").

(** [parseAssumesExpr] with [parseCompositeExpr]. *)
Fixpoint parseAssumesExpr (exprDecl : any) : result Expression :=
  let composite (key : string) (value : any) : result Expression :=
    match composite_type key value with
    | None => Err err_composite
    | Some t =>
        match value with
        | AList l =>
            (fix go (l : list any) (acc : list Expression) : result Expression :=
               match l with
               | [] => Ok (Composite t (reverse acc))
               | d :: l' =>
                   match parseAssumesExpr d with
                   | Ok e => go l' (e :: acc)
                   | Err e => Err e
                   end
               end) l []
        | _ => Err (ErrNew "malformed %q expression; expected a list of sub-expressions")
        end
    end in
  match exprDecl with
  | AMap [(Some key, value)] => composite key value
  | AStringMap [(key, value)] => composite key value
  | AMap _ | AStringMap _ => Err err_composite
  | AString s => e ← parseFeatureExpr s; Ok (Feature_ e)
  | _ => Err (ErrNew "expected a feature, any-of or all-of expression")
  end.

(** [parseAssumesExpressionTree] *)
Fixpoint parse_list (l : list any) : result (list Expression) :=
  match l with
  | [] => Ok []
  | d :: l' => e ← parseAssumesExpr d; es ← parse_list l'; Ok (e :: es)
  end.
Definition parseAssumesExpressionTree (rootExprList : list any) : result Expression :=
  es ← parse_list rootExprList;
  Ok (Composite AllOfExpression es).

(** ** Writing them *)

Fixpoint marshalExpr (expr : Expression) : any :=
  match expr with
  | Feature_ e =>
      AString match fe_Version e with
              | None => fe_Name e
              | Some v =>
                  let version := if decide (fe_rawVersion e ≠ "") then fe_rawVersion e
                                 else Number_String v in
                  fe_Name e +:+ String space (fe_Constraint e +:+ String space version)
              end
  | Composite t subs => AStringMap [(t, AList (marshalExpr <$> subs))]
  end.

Definition marshalAssumesExpressionTree (tree : Expression) : result (list any) :=
  match marshalExpr tree with
  | AStringMap [(t, AList l)] =>
      if decide (t = AllOfExpression) then Ok l
      else Err (ErrNew "unexpected serialized output for top-level assumes block")
  | _ => Err (ErrNew "unexpected serialized output for top-level assumes block")
  end.

(** ** Features *)

Record Feature : Type := MkFeature {
  ft_Name : string;
  ft_Description : string;
  ft_Version : option Number;
}.

Definition FeatureSet : Type := gmap string Feature.

Definition FeatureSet_Add (features : list Feature) (fs : FeatureSet) : FeatureSet :=
  foldl (λ fs feat, <[ft_Name feat := feat]> fs) fs features.
Definition FeatureSet_Merge (order : list (string * Feature)) (fs : FeatureSet) : FeatureSet :=
  foldl (λ fs p, FeatureSet_Add [p.2] fs) fs order.
Definition FeatureSet_AsList (fs : FeatureSet) : list Feature :=
  omap (λ featName, fs !! featName) (sorted_strings (dom fs)).
Definition FeatureSet_Get (featName : string) (fs : FeatureSet) : option Feature :=
  fs !! featName.

Definition UserFriendlyFeatureDescriptions (name : string) : string :=
  if decide (name = "juju") then "the version of Juju used by the model"
  else if decide (name = "k8s-api") then
    "the Kubernetes API lets charms query and manipulate the state of API objects in a Kubernetes cluster"
  else if decide (name = "unitless") then
    "unitless applications allow charms to run without units"
  else "".

Definition JujuFeature (ver : Number) : Feature :=
  MkFeature "juju" (UserFriendlyFeatureDescriptions "juju") (Some ver).
Definition K8sAPIFeature (ver : Number) : Feature :=
  MkFeature "k8s-api" (UserFriendlyFeatureDescriptions "k8s-api") (Some ver).
Definition UnitlessFeature : Feature :=
  MkFeature "unitless" (UserFriendlyFeatureDescriptions "unitless") None.

(** ** Errors *)

(** The errors of core/assumes: a feature that is missing or of another version,
    a list of errors, the error of a whole tree. *)
Inductive sat_error : Type :=
| featureErr (message featureName featureDescr : string)
| notSatisfiedErr (message : string) (errList : list sat_error)
| RequirementsNotSatisfiedError (message : string).

Definition newline : ascii := "010".
Definition quote : ascii := "034".

(** [featureMissingErr]; a name without special characters is quoted as it is. *)
Definition featureMissingErr (featureName : string) : string :=
  if decide (featureName = "juju") then "charm requires Juju"
  else if decide (featureName = "k8s-api") then
    "charm must be deployed on a Kubernetes cloud"
  else if decide (featureName = "unitless") then
    "charm requires support for unitless applications"
  else "charm requires feature " +:+ String quote (featureName +:+ String quote
         " but model does not support it").

Definition featureVersionMismatchErr (featureName c rv av : string) : string :=
  if decide (featureName = "juju") then
    "charm requires Juju version " +:+ c +:+ " " +:+ rv +:+ ", model has version " +:+ av
  else if decide (featureName = "k8s-api") then
    "charm requires Kubernetes version " +:+ c +:+ " " +:+ rv
      +:+ ", model is running on version " +:+ av
  else "charm requires feature " +:+ String quote (featureName +:+ String quote
         (" (version " +:+ c +:+ " " +:+ rv +:+ ") but model currently supports version "
           +:+ av)).

(** [strings.Trim(s, "\n")] *)
Definition trim_newlines (s : string) : string :=
  let drop l := drop_spaces (λ c s, if decide (c = newline) then Some s else None)
                  (length l) l in
  String.string_of_list_ascii
    (reverse (drop (reverse (drop (String.list_ascii_of_string s))))).

(** [indentRegex.ReplaceAllString(s, "  ")]: two spaces at the start of each
    line. *)
Fixpoint indent_lines (s : string) : string :=
  match s with
  | EmptyString => ""
  | String c s' =>
      if decide (c = newline) then String c ("  " +:+ indent_lines s')
      else String c (indent_lines s')
  end.

(** [Error()] of the three types. *)
Fixpoint sat_error_text (e : sat_error) : string :=
  match e with
  | featureErr message _ _ => message
  | RequirementsNotSatisfiedError message => message
  | notSatisfiedErr message [] => message
  | notSatisfiedErr message errList =>
      message +:+ String newline
        ((fix go (l : list sat_error) : string :=
            match l with
            | [] => ""
            | e :: l' =>
                ("  " +:+ indent_lines ("- " +:+ trim_newlines (sat_error_text e)))
                  +:+ String newline (go l')
            end) errList)
  end.

(** [requirementsNotSatisfied]; the descriptions it collects are not used. *)
Definition requirementsNotSatisfied (message : string) (errList : list sat_error) :
    sat_error :=
  RequirementsNotSatisfiedError (sat_error_text (notSatisfiedErr message errList)).

(** ** Satisfaction *)

Section satisfy.
Context (fs : FeatureSet).

(** [satisfyFeatureExpr]; [None] is nil. *)
Definition satisfyFeatureExpr (expr : FeatureExpression) : option sat_error :=
  match FeatureSet_Get (fe_Name expr) fs with
  | None =>
      Some (featureErr (featureMissingErr (fe_Name expr)) (fe_Name expr)
              (UserFriendlyFeatureDescriptions (fe_Name expr)))
  | Some supported =>
      match fe_Version expr, ft_Version supported with
      | Some required, Some version =>
          let satisfied :=
            if decide (fe_Constraint expr = VersionGTE) then
              bool_decide (0 ≤ Number_Compare version required)%Z
            else if decide (fe_Constraint expr = VersionLT) then
              bool_decide (Number_Compare version required < 0)%Z
            else false in
          if satisfied then None
          else
            let featDescr :=
              if decide (ft_Description supported = "")
              then UserFriendlyFeatureDescriptions (ft_Description supported)
              else ft_Description supported in
            Some (featureErr
              (featureVersionMismatchErr (fe_Name expr) (fe_Constraint expr)
                 (Number_String required) (Number_String version))
              (fe_Name expr) featDescr)
      | _, _ => None
      end
  end.

(** The end of [satisfyCompositeExpr]. *)
Definition composite_error (t : string) (exprTreeDepth : nat) (errList : list sat_error) :
    option sat_error :=
  match errList with
  | [] => None
  | _ =>
      Some (if decide (exprTreeDepth = 0) then
              requirementsNotSatisfied "Charm cannot be deployed because:" errList
            else if decide (t = AllOfExpression) then
              notSatisfiedErr "charm requires all of the following:" errList
            else if decide (t = AnyOfExpression) then
              notSatisfiedErr "charm requires at least one of the following:" errList
            else notSatisfiedErr ("charm requires " +:+ t +:+ " of the following:") errList)
  end.

(** [satisfyExpr] with [satisfyCompositeExpr]. *)
Fixpoint satisfyExpr (expr : Expression) (exprTreeDepth : nat) : option sat_error :=
  match expr with
  | Feature_ e => satisfyFeatureExpr e
  | Composite t subs =>
      (fix go (l : list Expression) (errList : list sat_error) : option sat_error :=
         match l with
         | [] => composite_error t exprTreeDepth (reverse errList)
         | sub :: l' =>
             match satisfyExpr sub (S exprTreeDepth) with
             | None => if decide (t = AnyOfExpression) then None else go l' errList
             | Some e => go l' (e :: errList)
             end
         end) subs []
  end.

(** [FeatureSet.Satisfies] *)
Definition FeatureSet_Satisfies (tree : option Expression) : option sat_error :=
  match tree with
  | None => None
  | Some expr => satisfyExpr expr 0
  end.
End satisfy.
