(* ===== verification/AssumesFacts.v ===== *)
(** * What a charm assumes is what it gets

    Checking an assumes expression against a set of features is the obvious
    reading of the expression, and an expression that was read and written is
    read again as the same expression. *)

From Stdlib Require Import Ascii.
From S2P Require Import Prelude GoText Version VersionFacts Assumes.

Section induction.
Context (P : Expression → Prop).
Hypothesis HF : ∀ e, P (Feature_ e).
Hypothesis HC : ∀ t subs, Forall P subs → P (Composite t subs).

(** Induction on an expression and its sub-expressions. *)
Fixpoint Expression_nested_ind (e : Expression) : P e :=
  match e with
  | Feature_ e => HF e
  | Composite t subs =>
      HC t subs
        ((fix go (l : list Expression) : Forall P l :=
            match l with
            | [] => Forall_nil_2 _
            | e :: l' => Forall_cons_2 _ _ _ (Expression_nested_ind e) (go l')
            end) subs)
  end.
End induction.

(** ** The meaning of an expression *)

Definition version_meets (constraint : string) (required version : Number) : Prop :=
  (constraint = VersionGTE ∧ ¬ number_lt version required)
  ∨ (constraint = VersionLT ∧ number_lt version required).

Definition feature_meets (fs : FeatureSet) (e : FeatureExpression) : Prop :=
  ∃ f, fs !! fe_Name e = Some f ∧
    match fe_Version e, ft_Version f with
    | Some required, Some version => version_meets (fe_Constraint e) required version
    | _, _ => True
    end.

(** An any-of needs one of its parts, unless it has none; every other
    expression needs all of them. *)
Fixpoint meets (fs : FeatureSet) (e : Expression) : Prop :=
  match e with
  | Feature_ e => feature_meets fs e
  | Composite t subs =>
      if decide (t = AnyOfExpression) then
        subs = [] ∨ (fix some (l : list Expression) : Prop :=
                       match l with [] => False | e :: l' => meets fs e ∨ some l' end) subs
      else (fix every (l : list Expression) : Prop :=
              match l with [] => True | e :: l' => meets fs e ∧ every l' end) subs
  end.

Lemma meets_any fs subs :
  meets fs (Composite AnyOfExpression subs) ↔ subs = [] ∨ Exists (meets fs) subs.
Proof.
  simpl. assert (∀ l, (fix some (l : list Expression) : Prop :=
    match l with [] => False | e :: l' => meets fs e ∨ some l' end) l ↔ Exists (meets fs) l)
    as H; [|by rewrite H].
  induction l as [|e l IH]; [by rewrite Exists_nil|]. by rewrite Exists_cons, IH.
Qed.

Lemma meets_all fs t subs :
  t ≠ AnyOfExpression → meets fs (Composite t subs) ↔ Forall (meets fs) subs.
Proof.
  intros Ht. simpl. rewrite decide_False by done.
  induction subs as [|e l IH]; [by rewrite Forall_nil|]. by rewrite Forall_cons, IH.
Qed.

(** ** Checking an expression *)

Lemma satisfyFeatureExpr_meets fs e :
  satisfyFeatureExpr fs e = None ↔ feature_meets fs e.
Proof.
  unfold satisfyFeatureExpr, feature_meets, FeatureSet_Get.
  destruct (fs !! fe_Name e) as [f|]; [|naive_solver].
  assert (∀ Q : Prop, (∃ f0, Some f = Some f0 ∧ match fe_Version e, ft_Version f0 with
    | Some required, Some version => version_meets (fe_Constraint e) required version
    | _, _ => True end) ↔ match fe_Version e, ft_Version f with
    | Some required, Some version => version_meets (fe_Constraint e) required version
    | _, _ => True end) as Hex by naive_solver.
  rewrite (Hex True). destruct (fe_Version e) as [r|], (ft_Version f) as [v|]; try done.
  unfold version_meets.
  pose proof (number_lt_irrefl r) as Hi. assert (VersionGTE ≠ VersionLT) as Hne by done.
  assert (number_lt v r → number_lt r v → False) as Ha.
  { intros H1 H2. by eapply (number_lt_irrefl v), number_lt_trans. }
  destruct (Number_Compare_spec v r) as [[-> ->]|[[? ->]|[? ->]]];
    repeat case_decide; repeat case_bool_decide; try lia; intuition congruence.
Qed.

Lemma composite_error_None t d errs : composite_error t d errs = None ↔ errs = [].
Proof. unfold composite_error. by destruct errs. Qed.

Lemma satisfyExpr_meets fs e d : satisfyExpr fs e d = None ↔ meets fs e.
Proof.
  revert d. induction e as [e|t subs IH] using Expression_nested_ind; intros d.
  { apply satisfyFeatureExpr_meets. }
  cbn [satisfyExpr].
  set (go := fix go (l : list Expression) (errList : list sat_error) : option sat_error :=
     match l with
     | [] => composite_error t d (reverse errList)
     | sub :: l' =>
         match satisfyExpr fs sub (S d) with
         | None => if decide (t = AnyOfExpression) then None else go l' errList
         | Some e => go l' (e :: errList)
         end
     end).
  destruct (decide (t = AnyOfExpression)) as [Ht|Ht].
  - assert (∀ l errs, Forall (λ e, ∀ d, satisfyExpr fs e d = None ↔ meets fs e) l →
      go l errs = None ↔ Exists (meets fs) l ∨ (l = [] ∧ errs = [])) as Hgo.
    { induction l as [|e l IHl]; intros errs Hl; simpl.
      - rewrite composite_error_None, Exists_nil. rewrite <- reverse_nil.
        rewrite (inj_iff reverse). naive_solver.
      - apply Forall_cons in Hl as [He Hl]. rewrite Exists_cons, <- (He (S d)).
        destruct (satisfyExpr fs e (S d)) as [err|]; [rewrite IHl by done|];
          naive_solver. }
    rewrite Hgo by done. subst t. rewrite meets_any. naive_solver.
  - assert (∀ l errs, Forall (λ e, ∀ d, satisfyExpr fs e d = None ↔ meets fs e) l →
      go l errs = None ↔ Forall (meets fs) l ∧ errs = []) as Hgo.
    { induction l as [|e l IHl]; intros errs Hl; simpl.
      - rewrite composite_error_None, Forall_nil. rewrite <- reverse_nil.
        rewrite (inj_iff reverse). naive_solver.
      - apply Forall_cons in Hl as [He Hl]. rewrite Forall_cons, <- (He (S d)).
        destruct (satisfyExpr fs e (S d)) as [err|]; rewrite IHl by done; naive_solver. }
    rewrite Hgo by done. rewrite meets_all by done. naive_solver.
Qed.

(** C37: a charm can be deployed on a model exactly when the model has what the
    charm assumes.  The checker accepts an expression tree if and only if the
    features satisfy it in the obvious reading: a feature needs to be there, with
    a version in the given range when both sides name one; any-of needs one of
    its parts (or has none), all-of needs all of them.  A missing tree is
    accepted. *)
Theorem Satisfies_exact fs tree :
  FeatureSet_Satisfies fs tree = None ↔
    match tree with None => True | Some e => meets fs e end.
Proof. destruct tree as [e|]; [apply satisfyExpr_meets|done]. Qed.

(** ** Reading, writing and reading again *)

Lemma parse_sub_list t l acc :
  (fix go (l : list any) (acc : list Expression) : result Expression :=
     match l with
     | [] => Ok (Composite t (reverse acc))
     | d :: l' =>
         match parseAssumesExpr d with
         | Ok e => go l' (e :: acc)
         | Err e => Err e
         end
     end) l acc = es ← parse_list l; Ok (Composite t (reverse acc ++ es)).
Proof.
  revert acc. induction l as [|d l IH]; intros acc; simpl; [by rewrite app_nil_r|].
  destruct (parseAssumesExpr d) as [e|]; [|done]. simpl. rewrite IH, reverse_cons.
  destruct (parse_list l); simpl; [|done]. by rewrite <- (assoc_L (++)).
Qed.

Lemma parse_composite t l :
  t = AnyOfExpression ∨ t = AllOfExpression →
  parseAssumesExpr (AStringMap [(t, AList l)]) = es ← parse_list l; Ok (Composite t es).
Proof.
  intros Ht. assert (composite_type t (AList l) = Some t) as E.
  { unfold composite_type. destruct Ht as [-> | ->]; done. }
  cbn [parseAssumesExpr]. rewrite E. apply parse_sub_list.
Qed.

Lemma parse_composite_inv key v e :
  parseAssumesExpr (AStringMap [(key, v)]) = Ok e →
  ∃ t l es, (t = AnyOfExpression ∨ t = AllOfExpression) ∧ e = Composite t es ∧
    parse_list l = Ok es.
Proof.
  cbn [parseAssumesExpr]. destruct (composite_type key v) as [t|] eqn:Et; [|done].
  destruct v as [| | |l| |]; try done. rewrite parse_sub_list. simpl.
  destruct (parse_list l) as [es|] eqn:El; [|done]. simpl. intros. simplify_eq.
  exists t, l, es. split_and!; [|done|done].
  unfold composite_type in Et. repeat case_decide; naive_solver.
Qed.

Lemma parseAssumesExpr_inv d e :
  parseAssumesExpr d = Ok e →
  match e with
  | Feature_ f => ∃ s, parseFeatureExpr s = Ok f
  | Composite t es =>
      (t = AnyOfExpression ∨ t = AllOfExpression) ∧ ∃ l, parse_list l = Ok es
  end.
Proof.
  intros H. destruct d as [s|m|m|l| |]; try done.
  - simpl in H. destruct (parseFeatureExpr s) eqn:E; [|done]. simpl in H. simplify_eq. eauto.
  - destruct m as [|[[k|] v] [|]]; try done.
    change (parseAssumesExpr (AStringMap [(k, v)]) = Ok e) in H.
    apply parse_composite_inv in H as (t & l & es & ? & -> & ?). eauto.
  - destruct m as [|[k v] [|]]; try done.
    apply parse_composite_inv in H as (t & l & es & ? & -> & ?). eauto.
Qed.

Lemma parse_list_Forall2 l es :
  parse_list l = Ok es → Forall2 (λ d e, parseAssumesExpr d = Ok e) l es.
Proof.
  revert es. induction l as [|d l IH]; simpl; intros es H; [simplify_eq; constructor|].
  destruct (parseAssumesExpr d) as [e|] eqn:E; [|done]. simpl in H.
  destruct (parse_list l) as [es'|]; [|done]. simpl in H. simplify_eq. eauto.
Qed.

Lemma parse_list_marshal es :
  Forall (λ e, parseAssumesExpr (marshalExpr e) = Ok e) es →
  parse_list (marshalExpr <$> es) = Ok es.
Proof.
  induction 1 as [|e es He _ IH]; [done|]. rewrite fmap_cons. cbn [parse_list].
  by rewrite He, IH.
Qed.

(** The characters of names and versions are visible, and not spaces. *)
Lemma name_char_visible c : name_char c = true → visible c = true.
Proof. destruct c as [[] [] [] [] [] [] [] []]; vm_compute; congruence. Qed.
Lemma version_char_visible c : version_char c = true → visible c = true.
Proof. destruct c as [[] [] [] [] [] [] [] []]; vm_compute; congruence. Qed.
Lemma version_char_not_space c : version_char c = true → negb (re_space c) = true.
Proof. destruct c as [[] [] [] [] [] [] [] []]; vm_compute; congruence. Qed.

Lemma skip_spaces_one s :
  (∀ c s', s = String c s' → re_space c = false) → skip_spaces (String space s) = s.
Proof.
  intros H. unfold skip_spaces. destruct s as [|c s]; [done|].
  cbn [span]. rewrite (H c s eq_refl). done.
Qed.

Lemma feature_name_chars s :
  feature_name s = true → all_chars name_char s = true ∧ s ≠ "".
Proof.
  unfold feature_name. destruct s as [|c [|c' s]]; try done. cbn [String.list_ascii_of_string].
  rewrite !andb_true_iff. naive_solver.
Qed.

(** What reading the text of a feature gives. *)
Lemma parseFeatureExpr_inv s f :
  parseFeatureExpr s = Ok f →
  feature_name (fe_Name f) = true ∧
  match fe_Version f with
  | None => fe_Constraint f = "" ∧ fe_rawVersion f = ""
  | Some v =>
      (fe_Constraint f = VersionGTE ∨ fe_Constraint f = VersionLT) ∧
      Version_ParseNonStrict (fe_rawVersion f) = Ok v
  end.
Proof.
  unfold parseFeatureExpr. destruct (feature_name (TrimSpace s)) eqn:En.
  { intros. by simplify_eq. }
  destruct (match_feature (TrimSpace s)) as [[[n c] raw]|] eqn:Em; [|done].
  intros H. destruct (Version_ParseNonStrict raw) as [v|] eqn:Ev; [|done].
  simpl in H. simplify_eq. simpl. revert Em. unfold match_feature.
  destruct (span name_char (TrimSpace s)) as [n' s1].
  destruct (feature_name n') eqn:En'; [|done]. simpl.
  intros ([c' s2] & Hc & H)%bind_Some. destruct (_ && _); [|done]. simplify_eq.
  split_and!; [done| |done]. revert Hc. unfold match_constraint.
  generalize (skip_spaces s1). intros s3.
  repeat case_match; naive_solver.
Qed.

Section feature_text.
Context (name c raw : string) (v : Number).
Hypothesis Hname : feature_name name = true.
Hypothesis Hc : c = VersionGTE ∨ c = VersionLT.
Hypothesis Hraw : Version_ParseNonStrict raw = Ok v.

Let text : string := name +:+ String space (c +:+ String space raw).

Lemma feature_text_trimmed : TrimSpace text = text.
Proof.
  destruct (feature_name_chars _ Hname) as [Hn Hne].
  destruct (ParseNonStrict_text _ _ Hraw) as [Hr Hre].
  destruct (last_visible (name +:+ String space (c +:+ String space "")) raw Hre
    (all_chars_impl _ _ _ version_char_visible Hr)) as (e & He & Hev).
  assert ((name +:+ String space (c +:+ String space "")) +:+ raw = text) as Ht.
  { unfold text. rewrite <- string_app_assoc. f_equal.
    change (String space ((c +:+ String space "") +:+ raw)
      = String space (c +:+ String space raw)).
    by rewrite <- string_app_assoc. }
  rewrite Ht in He. unfold text in *. destruct name as [|n0 name']; [done|].
  change (String n0 name' +:+ String space (c +:+ String space raw))
    with (String n0 (name' +:+ String space (c +:+ String space raw))) in *.
  eapply TrimSpace_visible; [done| |exact He|done].
  simpl in Hn. apply andb_true_iff in Hn as [? _]. by apply name_char_visible.
Qed.

Lemma feature_text_versioned : feature_name text = false.
Proof.
  destruct (feature_name text) eqn:E; [|done].
  apply feature_name_chars in E as [E _]. unfold text in E.
  rewrite all_chars_app in E. apply andb_true_iff in E as [_ E]. done.
Qed.

Lemma feature_text_match : match_feature text = Some (name, c, raw).
Proof.
  destruct (feature_name_chars _ Hname) as [Hn Hne].
  destruct (ParseNonStrict_text _ _ Hraw) as [Hr Hre].
  unfold match_feature, text. rewrite span_app by done. rewrite Hname. simpl.
  rewrite skip_spaces_one.
  2: { intros c0 s'. destruct Hc as [-> | ->]; intros H; by injection H as <-. }
  assert (match_constraint (c +:+ String space raw) = Some (c, String space raw)) as ->
    by by destruct Hc as [-> | ->].
  simpl. rewrite skip_spaces_one.
  2: { intros c0 s' ->. simpl in Hr. apply andb_true_iff in Hr as [H _].
       by apply version_char_not_space, negb_true_iff in H. }
  rewrite bool_decide_eq_true_2 by done.
  by rewrite (all_chars_impl _ _ _ version_char_not_space Hr).
Qed.

Lemma feature_text_parses :
  parseFeatureExpr text = Ok (MkFeatureExpression name c (Some v) raw).
Proof.
  unfold parseFeatureExpr.
  by rewrite feature_text_trimmed, feature_text_versioned, feature_text_match, Hraw.
Qed.
End feature_text.

Lemma feature_roundtrip s f :
  parseFeatureExpr s = Ok f → parseAssumesExpr (marshalExpr (Feature_ f)) = Ok (Feature_ f).
Proof.
  intros [Hn H]%parseFeatureExpr_inv. destruct f as [name c [v|] raw]; simpl in *.
  - destruct H as [Hc Hr]. destruct (ParseNonStrict_text _ _ Hr) as [_ Hne].
    rewrite decide_True by done. by rewrite (feature_text_parses name c raw v).
  - destruct H as [-> ->]. destruct (feature_name_chars _ Hn) as [Hch _].
    unfold parseFeatureExpr. rewrite TrimSpace_all_visible, Hn; [done|].
    by eapply all_chars_impl; [apply name_char_visible|].
Qed.

Lemma expression_roundtrip e d :
  parseAssumesExpr d = Ok e → parseAssumesExpr (marshalExpr e) = Ok e.
Proof.
  revert d. induction e as [f|t es IH] using Expression_nested_ind;
    intros d H; apply parseAssumesExpr_inv in H.
  - destruct H as [s Hs]. by eapply feature_roundtrip.
  - destruct H as (Ht & l & Hl). cbn [marshalExpr]. rewrite parse_composite by done.
    rewrite parse_list_marshal; [done|]. apply parse_list_Forall2 in Hl.
    clear Ht. induction Hl as [|d' e l' es' Hd _ IHl]; [constructor|].
    apply Forall_cons in IH as [He IH]. constructor; [by eapply He|by apply IHl].
Qed.

(** What a charm assumes survives being stored.  An assumes block that was
    read from metadata can be written back, as the list of its top-level
    expressions, and reading that list gives the same tree, with each version
    as the charm wrote it. *)
Theorem assumes_tree_roundtrip l tree :
  parseAssumesExpressionTree l = Ok tree →
  ∃ l', marshalAssumesExpressionTree tree = Ok l' ∧ parseAssumesExpressionTree l' = Ok tree.
Proof.
  unfold parseAssumesExpressionTree. destruct (parse_list l) as [es|] eqn:E; [|done].
  simpl. intros. simplify_eq. exists (marshalExpr <$> es). split; [done|].
  rewrite parse_list_marshal; [done|].
  apply parse_list_Forall2 in E. induction E; constructor; [|done].
  by eapply expression_roundtrip.
Qed.
