(* ===== verification/Hooks.v ===== *)
(** * Hooks

    The vocabulary every part of the unit agent shares: the life of an entity
    (core/life/life.go), the kinds of hooks (domain/deployment/charm/hooks)
    and the description of one hook execution with its validation
    (internal/worker/uniter/hook/hook.go). *)

From S2P Require Import Prelude.

(** ** core/life *)
Module life.

(** A [life.Value] is a string; the three that [Validate] accepts are
    constructors, every other one is [Unknown]. *)
Inductive LifeValue : Type :=
| Alive
| Dying
| Dead
| Unknown (s : string).

#[global] Instance LifeValue_eq_dec : EqDecision LifeValue.
Proof. solve_decision. Defined.

Definition LifeValue_Validate (v : LifeValue) : result () :=
  match v with
  | Alive | Dying | Dead => Ok ()
  | Unknown _ => Err (NotValid "life value %q %w")
  end.

Definition IsDead (v : LifeValue) : bool := bool_decide (v = Dead).
Definition IsAlive (v : LifeValue) : bool := bool_decide (v = Alive).
Definition IsNotAlive (v : LifeValue) : bool := bool_decide (v ≠ Alive).
Definition IsNotDead (v : LifeValue) : bool := bool_decide (v ≠ Dead).

End life.

(** ** domain/deployment/charm/hooks *)
Module hooks.

(** A [hooks.Kind] is a string; a kind the package does not name is
    [OtherKind]. *)
Inductive HookKind : Type :=
| Install
| Start
| ConfigChanged
| UpgradeCharm
| Stop
| Remove
| Action
| LeaderElected
| LeaderDeposed
| UpdateStatus
| SecretChanged
| SecretExpired
| SecretRemove
| SecretRotate
| RelationCreated
| RelationJoined
| RelationChanged
| RelationDeparted
| RelationBroken
| StorageAttached
| StorageDetaching
| PebbleCustomNotice
| PebbleReady
| PebbleCheckFailed
| PebbleCheckRecovered
| OtherKind (s : string).

#[global] Instance HookKind_eq_dec : EqDecision HookKind.
Proof. solve_decision. Defined.

(** [string(kind)] *)
Definition kind_string (k : HookKind) : string :=
  match k with
  | Install => "install"
  | Start => "start"
  | ConfigChanged => "config-changed"
  | UpgradeCharm => "upgrade-charm"
  | Stop => "stop"
  | Remove => "remove"
  | Action => "action"
  | LeaderElected => "leader-elected"
  | LeaderDeposed => "leader-deposed"
  | UpdateStatus => "update-status"
  | SecretChanged => "secret-changed"
  | SecretExpired => "secret-expired"
  | SecretRemove => "secret-remove"
  | SecretRotate => "secret-rotate"
  | RelationCreated => "relation-created"
  | RelationJoined => "relation-joined"
  | RelationChanged => "relation-changed"
  | RelationDeparted => "relation-departed"
  | RelationBroken => "relation-broken"
  | StorageAttached => "storage-attached"
  | StorageDetaching => "storage-detaching"
  | PebbleCustomNotice => "pebble-custom-notice"
  | PebbleReady => "pebble-ready"
  | PebbleCheckFailed => "pebble-check-failed"
  | PebbleCheckRecovered => "pebble-check-recovered"
  | OtherKind s => s
  end.

(** [hooks.UnitHooks], [RelationHooks], [StorageHooks], [WorkloadHooks],
    [SecretHooks]: the lists the package publishes. *)
Definition unitHooks : list HookKind :=
  [Install; Start; ConfigChanged; UpgradeCharm; Stop; Remove;
   LeaderElected; LeaderDeposed; UpdateStatus].
Definition relationHooks : list HookKind :=
  [RelationCreated; RelationJoined; RelationChanged; RelationDeparted;
   RelationBroken].
Definition storageHooks : list HookKind := [StorageAttached; StorageDetaching].
Definition workloadHooks : list HookKind :=
  [PebbleCheckFailed; PebbleCheckRecovered; PebbleCustomNotice; PebbleReady].
Definition secretHooks : list HookKind :=
  [SecretChanged; SecretExpired; SecretRemove; SecretRotate].

(** The named kinds, to read a string back as a kind. *)
Definition named_kinds : list HookKind :=
  Action :: unitHooks ++ relationHooks ++ storageHooks ++ workloadHooks
  ++ secretHooks.

(** [hooks.Kind(name)] *)
Definition kind_of_string (s : string) : HookKind :=
  default (OtherKind s)
    (first_some (λ k, if decide (kind_string k = s) then Some k else None)
       named_kinds).

Definition IsRelation (k : HookKind) : bool :=
  match k with
  | RelationCreated | RelationJoined | RelationChanged | RelationDeparted
  | RelationBroken => true
  | _ => false
  end.

Definition IsStorage (k : HookKind) : bool :=
  match k with
  | StorageAttached | StorageDetaching => true
  | _ => false
  end.

Definition IsWorkload (k : HookKind) : bool :=
  match k with
  | PebbleCheckFailed | PebbleCheckRecovered | PebbleCustomNotice
  | PebbleReady => true
  | _ => false
  end.

Definition IsSecret (k : HookKind) : bool :=
  match k with
  | SecretChanged | SecretExpired | SecretRemove | SecretRotate => true
  | _ => false
  end.

(** A canonical kind: not a named kind spelled as an unnamed one.  Every kind
    read from a string is canonical. *)
Definition canonical (k : HookKind) : Prop := kind_of_string (kind_string k) = k.

Lemma kind_string_of_string s : kind_string (kind_of_string s) = s.
Proof.
  unfold kind_of_string.
  destruct (first_some _ _) as [k|] eqn:E; [|done].
  apply first_some_Some in E as (k' & _ & H). simpl in *.
  by case_decide; simplify_eq.
Qed.

Lemma canonical_of_string s : canonical (kind_of_string s).
Proof. unfold canonical. by rewrite kind_string_of_string. Qed.

Lemma canonical_named k : k ∈ named_kinds → canonical k.
Proof.
  intros Hk. unfold named_kinds in Hk. simpl in Hk.
  repeat (apply elem_of_cons in Hk as [->|Hk]; [reflexivity|]).
  by apply not_elem_of_nil in Hk.
Qed.

(** The published lists are exactly what the predicates accept. *)
Lemma relationHooks_spec k : k ∈ relationHooks ↔ IsRelation k = true.
Proof.
  unfold relationHooks. rewrite !elem_of_cons, elem_of_nil.
  destruct k; simpl; intuition congruence.
Qed.
Lemma storageHooks_spec k : k ∈ storageHooks ↔ IsStorage k = true.
Proof.
  unfold storageHooks. rewrite !elem_of_cons, elem_of_nil.
  destruct k; simpl; intuition congruence.
Qed.
Lemma workloadHooks_spec k : k ∈ workloadHooks ↔ IsWorkload k = true.
Proof.
  unfold workloadHooks. rewrite !elem_of_cons, elem_of_nil.
  destruct k; simpl; intuition congruence.
Qed.
Lemma secretHooks_spec k : k ∈ secretHooks ↔ IsSecret k = true.
Proof.
  unfold secretHooks. rewrite !elem_of_cons, elem_of_nil.
  destruct k; simpl; intuition congruence.
Qed.

End hooks.

(** ** Names and secret URIs

    The names library (github.com/juju/names) decides which identifiers are
    valid and takes them apart; core/secrets parses secret URIs, of which the
    unit agent uses only the secret's ID.  Both are interfaces here: the
    theorems hold for every implementation. *)
Class Names : Type := {
  IsValidStorage : string → bool;
  IsValidAction : string → bool;
  IsValidUnit : string → bool;
  UnitApplication : string → result string;
  StorageName : string → result string;
}.

Class SecretURIs : Type := {
  ParseURI : string → option string;
}.

(** ** internal/worker/uniter/hook *)
Module hook.
Import hooks.

(** [hook.Info].  Unset string fields are empty strings, as in Go. *)
Record Info : Type := MkInfo {
  Kind : HookKind;
  RelationId : Z;
  RemoteUnit : string;
  RemoteApplication : string;
  ChangeVersion : Z;
  StorageId : string;
  DepartingUnit : string;
  WorkloadName : string;
  NoticeID : string;
  NoticeType : string;
  NoticeKey : string;
  CheckName : string;
  MachineUpgradeTarget : string;
  SecretURI : string;
  SecretRevision : Z;
  SecretLabel : string;
}.

#[global] Instance Info_eq_dec : EqDecision Info.
Proof. solve_decision. Defined.

(** The literals [hook.Info{...}] the code writes: every field not listed has
    its zero value. *)
Definition info_of_kind (k : HookKind) : Info :=
  MkInfo k 0 "" "" 0 "" "" "" "" "" "" "" "" "" 0 "".

Definition relation_info (k : HookKind) (id : Z) (unit app : string)
    (version : Z) (departee : string) : Info :=
  MkInfo k id unit app version "" departee "" "" "" "" "" "" "" 0 "".

Definition storage_info (k : HookKind) (storageId : string) : Info :=
  MkInfo k 0 "" "" 0 storageId "" "" "" "" "" "" "" "" 0 "".

Definition secret_info (k : HookKind) (uri : string) (rev : Z)
    (label : string) : Info :=
  MkInfo k 0 "" "" 0 "" "" "" "" "" "" "" "" uri rev label.

Definition workload_info (k : HookKind)
    (workload noticeID noticeType noticeKey check : string) : Info :=
  MkInfo k 0 "" "" 0 "" "" workload noticeID noticeType noticeKey check "" "" 0 "".

Definition SecretHookRequiresRevision (k : HookKind) : bool :=
  bool_decide (k = SecretRemove) || bool_decide (k = SecretExpired).

Section Validate.

Context {NM : Names} {SU : SecretURIs}.

Definition Info_Validate (hi : Info) : result () :=
  match hi.(Kind) with
  | RelationChanged =>
      if decide (hi.(RemoteUnit) = "") then
        if decide (hi.(RemoteApplication) = "") then
          Err (ErrNew "%q hook requires a remote unit or application")
        else Ok ()
      else if decide (hi.(RemoteApplication) = "") then
        Err (ErrNew "%q hook has a remote unit but no application")
      else Ok ()
  | RelationJoined | RelationDeparted =>
      if decide (hi.(RemoteUnit) = "") then
        Err (ErrNew "%q hook requires a remote unit")
      else if decide (hi.(RemoteApplication) = "") then
        Err (ErrNew "%q hook has a remote unit but no application")
      else Ok ()
  | PebbleCustomNotice =>
      if decide (hi.(WorkloadName) = "") then
        Err (ErrNew "%q hook requires a workload name")
      else if decide (hi.(NoticeID) = "" ∨ hi.(NoticeType) = ""
                      ∨ hi.(NoticeKey) = "") then
        Err (ErrNew "%q hook requires a notice ID, type, and key")
      else Ok ()
  | PebbleReady =>
      if decide (hi.(WorkloadName) = "") then
        Err (ErrNew "%q hook requires a workload name")
      else Ok ()
  | PebbleCheckFailed | PebbleCheckRecovered =>
      if decide (hi.(WorkloadName) = "") then
        Err (ErrNew "%q hook requires a workload name")
      else if decide (hi.(CheckName) = "") then
        Err (ErrNew "%q hook requires a check name")
      else Ok ()
  | Install | Remove | Start | ConfigChanged | UpgradeCharm | Stop
  | RelationCreated | RelationBroken | UpdateStatus => Ok ()
  | Action => Err (ErrNew "hooks.Kind Action is deprecated")
  | StorageAttached | StorageDetaching =>
      if IsValidStorage hi.(StorageId) then Ok ()
      else Err (ErrNew "invalid storage ID %q")
  | LeaderElected | LeaderDeposed => Ok ()
  | SecretRotate | SecretChanged | SecretExpired | SecretRemove =>
      if decide (hi.(SecretURI) = "") then
        Err (ErrNew "%q hook requires a secret URI")
      else if bool_decide (ParseURI hi.(SecretURI) = None) then
        Err (ErrNew "invalid secret URI %q")
      else if SecretHookRequiresRevision hi.(Kind)
              && bool_decide (hi.(SecretRevision) <= 0)%Z then
        Err (ErrNew "%q hook requires a secret revision")
      else Ok ()
  | OtherKind _ => Err (ErrNew "unknown hook kind %q")
  end.

(** The hooks of the unit's own life need no further data. *)
Lemma Info_Validate_unit k :
  k ∈ unitHooks → Info_Validate (info_of_kind k) = Ok ().
Proof.
  unfold unitHooks. rewrite !elem_of_cons, elem_of_nil.
  intros. destruct_or?; by subst.
Qed.

End Validate.

End hook.
