(* ===== verification/OpState.v ===== *)
(** * Operation state and executor

    internal/worker/uniter/operation/state.go (the persistent state of the
    unit agent, its validation and its storage on the controller),
    interface.go (the [Operation] interface) and executor.go (running an
    operation through its steps, recording a state after each). *)

From S2P Require Import Prelude Hooks.

Module operation.

(** ** state.go *)

Inductive OpKind : Type :=
| Install
| RunHook
| RunAction
| Upgrade
| Continue
| RemoteInit
| OtherOp (s : string).

#[global] Instance OpKind_eq_dec : EqDecision OpKind.
Proof. solve_decision. Defined.

Inductive OpStep : Type :=
| Queued
| Pending
| Done
| OtherStep (s : string).

#[global] Instance OpStep_eq_dec : EqDecision OpStep.
Proof. solve_decision. Defined.

(** [operation.State].  Pointers are options; a blank charm URL is the empty
    string. *)
Record OpState : Type := MkOpState {
  Leader : bool;
  Started : bool;
  Stopped : bool;
  Installed : bool;
  Removed : bool;
  StatusSet : bool;
  Kind : OpKind;
  Step : OpStep;
  Hook : option hook.Info;
  HookStep : option OpStep;
  ActionId : option string;
  CharmURL : string;
  ConfigHash : string;
  TrustHash : string;
  AddressesHash : string;
}.

#[global] Instance OpState_eq_dec : EqDecision OpState.
Proof. solve_decision. Defined.

(** Field assignments [state.F = v]. *)
Definition set_Leader (b : bool) (st : OpState) : OpState :=
  MkOpState b (Started st) (Stopped st) (Installed st) (Removed st)
    (StatusSet st) (Kind st) (Step st) (Hook st) (HookStep st) (ActionId st)
    (CharmURL st) (ConfigHash st) (TrustHash st) (AddressesHash st).
Definition set_lifecycle (started stopped installed removed : bool)
    (st : OpState) : OpState :=
  MkOpState (Leader st) started stopped installed removed
    (StatusSet st) (Kind st) (Step st) (Hook st) (HookStep st) (ActionId st)
    (CharmURL st) (ConfigHash st) (TrustHash st) (AddressesHash st).
Definition set_hashes (config trust addresses : string)
    (st : OpState) : OpState :=
  MkOpState (Leader st) (Started st) (Stopped st) (Installed st) (Removed st)
    (StatusSet st) (Kind st) (Step st) (Hook st) (HookStep st) (ActionId st)
    (CharmURL st) config trust addresses.

Section Validate.
Context {NM : Names} {SU : SecretURIs}.

(** [State.Validate]: the switch on the kind ... *)
Definition OpState_validate_kind (st : OpState) : result () :=
  let hasHook := bool_decide (is_Some (Hook st)) in
  let hasActionId := bool_decide (is_Some (ActionId st)) in
  let hasCharm := bool_decide (CharmURL st ≠ "") in
  let checkDeploy :=
    if negb hasCharm then Err (ErrNew "missing charm URL")
    else if hasActionId then Err (ErrNew "unexpected action id")
    else Ok () in
  match Kind st with
  | Install =>
      if Installed st then
        Err (ErrNew "unexpected hook info with Kind Install")
      else checkDeploy
  | Upgrade => checkDeploy
  | RunAction =>
      if negb hasActionId then Err (ErrNew "missing action id")
      else if hasCharm then Err (ErrNew "unexpected charm URL")
      else Ok ()
  | RunHook =>
      if negb hasHook then Err (ErrNew "missing hook info with Kind RunHook")
      else if hasCharm then Err (ErrNew "unexpected charm URL")
      else if hasActionId then Err (ErrNew "unexpected action id")
      else Ok ()
  | Continue =>
      if hasCharm then Err (ErrNew "unexpected charm URL")
      else if hasActionId then Err (ErrNew "unexpected action id")
      else if hasHook then Err (ErrNew "unexpected hook info with Kind Continue")
      else Ok ()
  | RemoteInit => Ok ()
  | OtherOp _ => Err (ErrNew "unknown operation %q")
  end.

(** ... then the step, then the hook. *)
Definition OpState_Validate (st : OpState) : result () :=
  _ ← OpState_validate_kind st;
  _ ← match Step st with
      | Queued | Pending | Done => Ok ()
      | OtherStep _ => Err (ErrNew "unknown operation step %q")
      end;
  match Hook st with
  | Some hi => hook.Info_Validate hi
  | None => Ok ()
  end.

Definition valid (st : OpState) : Prop := OpState_Validate st = Ok ().

#[global] Instance valid_dec st : Decision (valid st).
Proof. unfold valid. apply _. Defined.

End Validate.

(** [stateChange] and its application to a state. *)
Record stateChange : Type := MkChange {
  sc_Kind : OpKind;
  sc_Step : OpStep;
  sc_Hook : option hook.Info;
  sc_HookStep : option OpStep;
  sc_ActionId : option string;
  sc_CharmURL : string;
  sc_HasRunStatusSet : bool;
}.

Definition stateChange_apply (change : stateChange) (state : OpState) : OpState :=
  MkOpState (Leader state) (Started state) (Stopped state) (Installed state)
    (Removed state)
    (StatusSet state || sc_HasRunStatusSet change)
    (sc_Kind change) (sc_Step change) (sc_Hook change) (sc_HookStep change)
    (sc_ActionId change) (sc_CharmURL change)
    (ConfigHash state) (TrustHash state) (AddressesHash state).

(** ** Storage of the state on the controller *)

(** [State.match]: equality of the two YAML texts; an error gives no bytes. *)
Definition yaml_text {YM : Yaml OpState} (st : OpState) : string :=
  match yaml_Marshal st with Ok s => s | Err _ => "" end.

Definition OpState_match {YM : Yaml OpState} (st other : OpState) : bool :=
  bool_decide (yaml_text st = yaml_text other).

(** [UnitStateReadWriter], restricted to the [UniterState] field. *)
Record UnitStateReadWriter (W : Type) : Type := MkStateRW {
  rw_State : M W string;
  rw_SetState : string → M W ();
}.
Arguments rw_State {W} _.
Arguments rw_SetState {W} _ _.

Abbreviation ErrNoSavedState := (ErrConst "saved uniter state does not exist").
Abbreviation ErrSkipExecute := (ErrConst "operation already executed").
Abbreviation ErrNeedsReboot := (ErrConst "reboot request issued").
Abbreviation ErrHookFailed := (ErrConst "hook failed").
Abbreviation ErrCannotAcceptLeadership := (ErrConst "cannot accept leadership").
Definition NewDeployConflictError (charmURL : string) : error :=
  ErrType "DeployConflictError" ("cannot deploy charm " +:+ charmURL).

Section StateOps.
Context {NM : Names} {SU : SecretURIs} {YM : Yaml OpState} {W : Type}
  (rw : UnitStateReadWriter W).

(** [StateOps.Read].  When the text does not unmarshal the function returns
    [errors.Trace(err)] for the [err] of the preceding call, which is nil
    there: the caller gets a nil state and no error. *)
Definition StateOps_Read : M W (option OpState) :=
  unitState ← rw_State rw;
  if decide (unitState = "") then throw ErrNoSavedState
  else match yaml_Unmarshal unitState with
  | Err _ => mret None
  | Ok st =>
      match OpState_Validate st with
      | Err _ => throw (ErrNew "validation of uniter state: %v")
      | Ok _ => mret (Some st)
      end
  end.

(** [StateOps.Write] *)
Definition StateOps_Write (st : OpState) : M W () :=
  _ ← lift_result (OpState_Validate st);
  data ← lift_result (yaml_Marshal st);
  rw_SetState rw data.

End StateOps.

(** ** interface.go: operations

    An operation is an object: its struct fields, of type [F], are set by one
    step and read by a later one.  A step returns a state to record, or an
    error, or both. *)
Definition step_fn (F W : Type) : Type :=
  OpState → F * W → (option OpState * option error) * (F * W).

Record Operation (F W : Type) : Type := MkOperation {
  op_init : F;
  op_String : string;
  op_NeedsGlobalMachineLock : bool;
  op_ExecutionGroup : string;
  op_Prepare : step_fn F W;
  op_Execute : step_fn F W;
  op_Commit : step_fn F W;
}.
Arguments op_init {F W} _.
Arguments op_String {F W} _.
Arguments op_NeedsGlobalMachineLock {F W} _.
Arguments op_ExecutionGroup {F W} _.
Arguments op_Prepare {F W} _ _ _.
Arguments op_Execute {F W} _ _ _.
Arguments op_Commit {F W} _ _ _.

(** A step written in the error monad: [return st, nil] or [return nil, err]. *)
Definition simple_step {F W} (m : OpState → M (F * W) (option OpState)) :
    step_fn F W := λ st s,
  match m st s with
  | (Ok o, s') => ((o, None), s')
  | (Err e, s') => ((None, Some e), s')
  end.

(** A step that may return a state together with an error. *)
Definition full_step {F W}
    (m : OpState → M (F * W) (option OpState * option error)) : step_fn F W :=
  λ st s,
  match m st s with
  | (Ok o, s') => (o, s')
  | (Err e, s') => ((None, Some e), s')
  end.

(** Run code of the world inside a step. *)
Definition liftW {F W A} (m : M W A) : M (F * W) A :=
  zoom snd (λ w s, (s.1, w)) m.

(** ** executor.go *)

Record executor : Type := MkExecutor {
  x_unitName : string;
  x_state : option OpState;
}.

Record ExecutorConfig (W : Type) : Type := MkExecutorConfig {
  cfg_StateReadWriter : option (UnitStateReadWriter W);
  cfg_InitialState : OpState;
  cfg_AcquireLock : string → string → M W (W → W);
  cfg_hasLogger : bool;
}.
Arguments cfg_StateReadWriter {W} _.
Arguments cfg_InitialState {W} _.
Arguments cfg_AcquireLock {W} _ _ _.
Arguments cfg_hasLogger {W} _.

Definition ExecutorConfig_validate {W} (e : ExecutorConfig W) : result () :=
  match cfg_StateReadWriter e with
  | None => Err (NotValid "executor config with nil state ops")
  | Some _ =>
      if cfg_hasLogger e then Ok ()
      else Err (NotValid "executor config with nil logger")
  end.

(** The three steps. *)
Inductive executorStep : Type := stepPrepare | stepExecute | stepCommit.

Definition step_run {F W} (step : executorStep) (op : Operation F W) :
    step_fn F W :=
  match step with
  | stepPrepare => op_Prepare op
  | stepExecute => op_Execute op
  | stepCommit => op_Commit op
  end.

Section Executor.
Context {NM : Names} {SU : SecretURIs} {YM : Yaml OpState} {F W : Type}
  (rw : UnitStateReadWriter W) (acquireMachineLock : string → string → M W (W → W)).

Definition NewExecutor (unitName : string) (cfg : ExecutorConfig W) :
    M W executor :=
  _ ← lift_result (ExecutorConfig_validate cfg);
  match cfg_StateReadWriter cfg with
  | None => throw (GoPanic "nil pointer dereference")
  | Some stateRW =>
      r ← try (StateOps_Read stateRW);
      match r with
      | Ok state => mret (MkExecutor unitName state)
      | Err e =>
          if decide (e = ErrNoSavedState) then
            mret (MkExecutor unitName (Some (cfg_InitialState cfg)))
          else throw e
      end
  end.

(** [executor.State]: dereferences the state pointer. *)
Definition executor_State (x : executor) : result OpState :=
  match x_state x with
  | Some st => Ok st
  | None => Err (GoPanic "nil pointer dereference")
  end.

(** [executor.writeState] *)
Definition executor_writeState (newState : OpState) : M (executor * W) () :=
  _ ← lift_result (OpState_Validate newState);
  x ← gets fst;
  let same := match x_state x with
              | Some st => OpState_match st newState
              | None => false
              end in
  if same then mret ()
  else
    _ ← zoom snd (λ w s, (s.1, w)) (StateOps_Write rw newState);
    modify (λ s, (MkExecutor (x_unitName s.1) (Some newState), s.2)).

(** [executor.do]: run a step on a copy of the state, record what it
    returned, and report the step's error before the error of recording. *)
Definition executor_do (op : Operation F W) (step : executorStep) :
    M (executor * (F * W)) () := λ '(x, s),
  match executor_State x with
  | Err e => (Err e, (x, s))
  | Ok state =>
      let '((newState, firstErr), (f, w)) := step_run step op state s in
      let '(writeErr, (x', w')) :=
        match newState with
        | Some ns => executor_writeState ns (x, w)
        | None => (Ok (), (x, w))
        end in
      match firstErr, writeErr with
      | Some e, _ => (Err e, (x', (f, w')))
      | None, Err e => (Err e, (x', (f, w')))
      | None, Ok _ => (Ok (), (x', (f, w')))
      end
  end.

(** The body of [executor.run], after the machine lock. *)
Definition executor_steps (op : Operation F W) :
    M (executor * (F * W)) () :=
  r ← try (executor_do op stepPrepare);
  match r with
  | Err e =>
      if decide (e = ErrSkipExecute) then executor_do op stepCommit
      else throw e
  | Ok _ =>
      _ ← executor_do op stepExecute;
      executor_do op stepCommit
  end.

(** Start an operation: its object is fresh. *)
Definition with_fields {A} (op : Operation F W)
    (m : M (executor * (F * W)) A) : M (executor * W) A := λ '(x, w),
  let '(r, (x', (_, w'))) := m (x, (op_init op, w)) in (r, (x', w')).

(** [defer releaser()]: runs on every path out of the body. *)
Definition defer_release {A} (releaser : W → W) (m : M (executor * W) A) :
    M (executor * W) A := λ s,
  let '(r, (x', w')) := m s in (r, (x', releaser w')).

(** [executor.run] and [executor.Run] *)
Definition executor_Run (op : Operation F W) : M (executor * W) () :=
  if op_NeedsGlobalMachineLock op then
    releaser ← zoom snd (λ w s, (s.1, w))
                 (acquireMachineLock (op_String op) (op_ExecutionGroup op));
    defer_release releaser (with_fields op (executor_steps op))
  else with_fields op (executor_steps op).

(** [executor.Skip] *)
Definition executor_Skip (op : Operation F W) : M (executor * W) () :=
  with_fields op (executor_do op stepCommit).

End Executor.

#[global] Arguments executor_writeState : simpl never.
#[global] Arguments executor_do : simpl never.
#[global] Arguments executor_steps : simpl never.
#[global] Arguments executor_Run : simpl never.
#[global] Arguments executor_Skip : simpl never.
#[global] Arguments OpState_Validate : simpl never.

(** ** What the executor guarantees, for every operation *)

Section ExecutorTheory.
Context {NM : Names} {SU : SecretURIs} {YM : Yaml OpState} {F W : Type}
  (rw : UnitStateReadWriter W).

(** The executor holds a state that passes validation. *)
Definition state_ok (x : executor) : Prop :=
  ∃ st, x_state x = Some st ∧ valid st.

(** The steps of an operation keep a property of the executor and the world,
    while its fields satisfy [I]. *)
Definition frame_with (P : executor → W → Prop) (I : F → Prop)
    (op : Operation F W) : Prop :=
  I (op_init op) ∧ ∀ step st x f w o f' w',
    I f → P x w → step_run step op st (f, w) = (o, (f', w')) → I f' ∧ P x w'.

Definition frame (P : executor → W → Prop) (op : Operation F W) : Prop :=
  ∃ I, frame_with P I op.

Definition recorded (P : executor → W → Prop) : Prop :=
  ∀ x w st r x' w', P x w →
    executor_writeState rw st (x, w) = (r, (x', w')) → P x' w'.

Lemma executor_do_frame (P : executor → W → Prop) I (op : Operation F W) step
    x f w r x' f' w' :
  frame_with P I op → recorded P → I f → P x w →
  executor_do rw op step (x, (f, w)) = (r, (x', (f', w'))) → I f' ∧ P x' w'.
Proof.
  intros [_ HF] HR HI HP. unfold executor_do.
  destruct (executor_State x) as [st|e]; [|naive_solver].
  destruct (step_run step op st (f, w)) as [[[ns|] fe] [f1 w1]] eqn:E;
    destruct (HF _ _ _ _ _ _ _ _ HI HP E) as [HI1 HP1].
  - destruct (executor_writeState rw ns (x, w1)) as [wr [x2 w2]] eqn:E2.
    pose proof (HR _ _ _ _ _ _ HP1 E2). destruct fe, wr; naive_solver.
  - destruct fe; naive_solver.
Qed.

Lemma executor_steps_frame (P : executor → W → Prop) I (op : Operation F W)
    x f w r x' f' w' :
  frame_with P I op → recorded P → I f → P x w →
  executor_steps rw op (x, (f, w)) = (r, (x', (f', w'))) → P x' w'.
Proof.
  intros HF HR HI HP. unfold executor_steps, try, mbind, M_bind, throw.
  destruct (executor_do rw op stepPrepare (x, (f, w))) as [r1 [x1 [f1 w1]]] eqn:E1.
  destruct (executor_do_frame _ _ _ _ _ _ _ _ _ _ _ HF HR HI HP E1) as [HI1 HP1].
  assert (∀ step xx ff ww rr xx' ff' ww', I ff → P xx ww →
    executor_do rw op step (xx, (ff, ww)) = (rr, (xx', (ff', ww'))) →
    I ff' ∧ P xx' ww')
    as Hdo by (intros; eapply executor_do_frame; eauto).
  destruct r1 as [[]|e].
  - destruct (executor_do rw op stepExecute (x1, (f1, w1)))
      as [[[]|e2] [x2 [f2 w2]]] eqn:E2; intros; simplify_eq;
      destruct (Hdo _ _ _ _ _ _ _ _ HI1 HP1 E2) as [HI2 HP2]; [|done].
    by eapply Hdo.
  - destruct e; try case_decide; intros; simplify_eq; try done; by eapply Hdo.
Qed.

Lemma executor_Run_frame acquire (P : executor → W → Prop) (op : Operation F W)
    x w r x' w' :
  frame P op → recorded P →
  (∀ s g x w r w', P x w → acquire s g w = (r, w') →
     P x w' ∧ ∀ rel x w, r = Ok rel → P x w → P x (rel w)) →
  P x w → executor_Run rw acquire op (x, w) = (r, (x', w')) → P x' w'.
Proof.
  intros [I HF] HR HL HP. unfold executor_Run.
  assert (∀ w r x' w', P x w →
    with_fields op (executor_steps rw op) (x, w) = (r, (x', w')) → P x' w')
    as Hbody.
  { intros w0 r0 x0 w0' HP0. unfold with_fields.
    destruct (executor_steps rw op (x, (op_init op, w0))) as [r1 [x1 [f1 w1]]] eqn:E1.
    intros; simplify_eq. eapply executor_steps_frame; eauto. apply HF. }
  destruct (op_NeedsGlobalMachineLock op); [|eauto].
  unfold mbind, M_bind, zoom, defer_release; simpl.
  destruct (acquire (op_String op) (op_ExecutionGroup op) w) as [[rel|e] w1] eqn:E;
    destruct (HL _ _ _ _ _ _ HP E) as [HP1 Hrel]; [|naive_solver].
  destruct (with_fields op (executor_steps rw op) (x, w1)) as [r2 [x2 w2]] eqn:E2.
  intros; simplify_eq. eapply Hrel; eauto.
Qed.

Lemma executor_Skip_frame (P : executor → W → Prop) (op : Operation F W)
    x w r x' w' :
  frame P op → recorded P → P x w →
  executor_Skip rw op (x, w) = (r, (x', w')) → P x' w'.
Proof.
  intros [I HF] HR HP. unfold executor_Skip, with_fields.
  destruct (executor_do rw op stepCommit (x, (op_init op, w)))
    as [r1 [x1 [f1 w1]]] eqn:E.
  intros; simplify_eq. refine (proj2 (executor_do_frame P I _ _ _ _ _ _ _ _ _ HF HR _ HP E)).
  apply HF.
Qed.

(** Recording a state: nothing happens, or the state becomes the new one. *)
Lemma executor_writeState_inv ns x w r x' w' :
  executor_writeState rw ns (x, w) = (r, (x', w')) →
  (x' = x ∧ w' = w ∧ (r = Ok () → ∃ st, x_state x = Some st ∧ OpState_match st ns = true))
  ∨ (valid ns ∧ ∃ data, yaml_Marshal ns = Ok data ∧
     ((r = Ok () ∧ x' = MkExecutor (x_unitName x) (Some ns) ∧
         rw_SetState rw data w = (Ok (), w'))
      ∨ (∃ e, r = Err e ∧ x' = x ∧ rw_SetState rw data w = (Err e, w')))).
Proof.
  unfold executor_writeState. munfold. intros H.
  destruct (OpState_Validate ns) as [[]|e] eqn:HV; simplify_eq/=; [|by left].
  assert (valid ns) as Hns by done.
  destruct (match x_state x with Some st => OpState_match st ns | None => false end)
    eqn:Hm.
  { simplify_eq. left. split_and!; [done..|intros _].
    destruct (x_state x'); naive_solver. }
  unfold StateOps_Write in H. munfold. rewrite HV in H; simpl in H.
  destruct (yaml_Marshal ns) as [data|e] eqn:HM; simplify_eq/=; [|by left].
  right. split; [done|]. exists data. split; [done|].
  destruct (rw_SetState rw data w) as [[[]|e] w1] eqn:HS; naive_solver.
Qed.

Lemma recorded_state_ok : recorded (λ x _, state_ok x).
Proof.
  intros x w st r x' w' Hx Hw. simpl in *.
  apply executor_writeState_inv in Hw as [(-> & _)|(Hv & ? & _ & [H|H])]; [done|..].
  - destruct H as (_ & -> & _). by eexists.
  - destruct H as (? & _ & -> & _). done.
Qed.

(** *** Sequences of operations *)

(** What the uniter asks of its executor, in order. *)
Inductive exec_event : Type :=
| EvRun (op : Operation F W)
| EvSkip (op : Operation F W).

Definition event_op (ev : exec_event) : Operation F W :=
  match ev with EvRun op | EvSkip op => op end.

Section Events.
Context (acquire : string → string → M W (W → W)).

Definition run_event (ev : exec_event) (s : executor * W) : executor * W :=
  match ev with
  | EvRun op => (executor_Run rw acquire op s).2
  | EvSkip op => (executor_Skip rw op s).2
  end.

Fixpoint run_events (evs : list exec_event) (s : executor * W) : executor * W :=
  match evs with
  | [] => s
  | ev :: evs' => run_events evs' (run_event ev s)
  end.

(** A property kept by recording, by the lock and by what the operations do to
    the world is an invariant of the executor. *)
Lemma run_events_inv (P : executor → W → Prop) evs s :
  recorded P →
  (∀ s g x w r w', P x w → acquire s g w = (r, w') →
     P x w' ∧ ∀ rel x w, r = Ok rel → P x w → P x (rel w)) →
  Forall (λ ev, frame P (event_op ev)) evs →
  P s.1 s.2 → P (run_events evs s).1 (run_events evs s).2.
Proof.
  intros HR HL. revert s. induction evs as [|ev evs IH]; intros s Hall HP; simpl;
    [done|].
  apply Forall_cons_1 in Hall as [Hev Hall]. apply IH; [done|].
  destruct s as [x w], ev as [op|op]; simpl in *.
  - destruct (executor_Run rw acquire op (x, w)) as [r [x' w']] eqn:E.
    simpl. eapply executor_Run_frame; eauto.
  - destruct (executor_Skip rw op (x, w)) as [r [x' w']] eqn:E.
    simpl. eapply executor_Skip_frame; eauto.
Qed.

(** C1: the state the executor holds passes [State.Validate] after any sequence
    of runs and skips of any operations, whatever the operations return and
    whatever fails on the way, if it did at the start. *)
Theorem executor_state_always_valid evs x w :
  state_ok x → state_ok (run_events evs (x, w)).1.
Proof.
  intros Hx.
  refine (run_events_inv (λ x _, state_ok x) evs (x, w) _ _ _ _); simpl.
  - apply recorded_state_ok.
  - intros. split; [done|]. by intros.
  - apply Forall_forall. intros ev _. exists (λ _, True). split; [done|]. by intros.
  - done.
Qed.

End Events.

(** *** The copy on the controller *)

(** The YAML library reads back what it wrote. *)
Definition yaml_roundtrip : Prop := ∀ st data,
  yaml_Marshal st = Ok data → data ≠ "" ∧ yaml_Unmarshal data = Ok st.

(** The controller keeps one text per unit: reading returns it, writing
    replaces it or fails and leaves it. *)
Record controller_store (stored : W → string) : Prop := {
  store_read w r w' : rw_State rw w = (r, w') →
    stored w' = stored w ∧ ∀ s, r = Ok s → s = stored w;
  store_write data w r w' : rw_SetState rw data w = (r, w') →
    stored w' = if is_ok r then data else stored w;
}.

Section Persistence.
Context (stored : W → string) (init : OpState).
Context (acquire : string → string → M W (W → W)).

(** The controller's text is the executor's state, or nothing was written yet
    and the state is the initial one. *)
Definition in_sync (x : executor) (w : W) : Prop :=
  ∃ st, x_state x = Some st ∧ valid st ∧
    (yaml_Marshal st = Ok (stored w) ∨ (stored w = "" ∧ st = init)).

Lemma recorded_in_sync : controller_store stored → recorded in_sync.
Proof.
  intros Hst x w ns r x' w' (st & Hx & Hv & Hs) Hw.
  apply executor_writeState_inv in Hw as [(-> & -> & _)|(Hns & data & Hm & [Hw|Hw])].
  - by exists st.
  - destruct Hw as (-> & -> & Hset). apply (store_write _ Hst) in Hset.
    exists ns. split_and!; [done..|]. left. simpl in Hset. by rewrite Hset.
  - destruct Hw as (e & -> & -> & Hset). apply (store_write _ Hst) in Hset.
    exists st. split_and!; [done..|]. simpl in Hset. by rewrite Hset.
Qed.

Lemma NewExecutor_in_sync name hasLock x w w1 s :
  yaml_roundtrip → controller_store stored → in_sync x w →
  rw_State rw w = (Ok s, w1) →
  NewExecutor name (MkExecutorConfig _ (Some rw) init hasLock true) w
  = (Ok (MkExecutor name (x_state x)), w1).
Proof.
  intros Hy Hst (st & Hx & Hv & Hs) Hr.
  destruct (store_read _ Hst _ _ _ Hr) as [_ Hs']. rewrite (Hs' s eq_refl) in Hr.
  unfold NewExecutor, StateOps_Read. munfold. rewrite Hr. simpl. rewrite Hx.
  destruct Hs as [Hm|[-> ->]]; [|done].
  destruct (Hy _ _ Hm) as [Hne Hu]. rewrite decide_False by done.
  unfold valid in Hv. by rewrite Hu, Hv.
Qed.

(** The operation leaves the unit's saved state alone. *)
Definition leaves_stored (op : Operation F W) : Prop :=
  ∃ I : F → Prop, I (op_init op) ∧ ∀ step st f w o f' w',
    I f → step_run step op st (f, w) = (o, (f', w')) →
    I f' ∧ stored w' = stored w.

(** C2: crash recovery.  Start an agent whose executor agrees with the
    controller, run and skip any operations that leave the unit's saved state
    alone, and stop it at any point between operations.  If the controller can
    then be read, a new executor starts in exactly the state the old one was
    in. *)
Theorem executor_crash_recovery evs x w name hasLock s w1 :
  yaml_roundtrip → controller_store stored →
  (∀ l g w r w', acquire l g w = (r, w') →
     stored w' = stored w ∧ ∀ rel w, r = Ok rel → stored (rel w) = stored w) →
  Forall (λ ev, leaves_stored (event_op ev)) evs →
  in_sync x w →
  rw_State rw (run_events acquire evs (x, w)).2 = (Ok s, w1) →
  NewExecutor name (MkExecutorConfig _ (Some rw) init hasLock true)
    (run_events acquire evs (x, w)).2
  = (Ok (MkExecutor name (x_state (run_events acquire evs (x, w)).1)), w1).
Proof.
  intros Hy Hst Hlock Hops Hx Hr.
  assert (∀ x w w', stored w' = stored w → in_sync x w → in_sync x w') as Hcong.
  { intros x0 w0 w0' Hs (st & ? & ? & ?). exists st. by rewrite Hs. }
  apply (NewExecutor_in_sync _ _ _ _ _ s); [done..| |done].
  apply run_events_inv; [by apply recorded_in_sync|..|done].
  - intros l g x0 w0 r w' HP HA. destruct (Hlock _ _ _ _ _ HA) as [? Hrel].
    split; [by eapply Hcong|]. intros. eapply Hcong; [|done]. by apply Hrel.
  - eapply Forall_impl; [exact Hops|]. intros ev (I & Hi & Hev).
    exists I. split; [done|]. intros step st x0 f w0 o f' w' HI HP HS.
    destruct (Hev _ _ _ _ _ _ _ HI HS). split; [done|]. by eapply Hcong.
Qed.

End Persistence.

(** *** A saved state that cannot be read *)

(** When the text saved on the controller is not readable YAML, creating an
    executor succeeds without a state, because [StateOps.Read] traces the nil
    error of the call before; the first use of the executor is a nil pointer
    dereference. *)
Theorem NewExecutor_unreadable_state name init acquire text e w w1 :
  rw_State rw w = (Ok text, w1) → text ≠ "" →
  yaml_Unmarshal (A:=OpState) text = Err e →
  ∃ x, NewExecutor name (MkExecutorConfig _ (Some rw) init acquire true) w
         = (Ok x, w1)
       ∧ executor_State x = Err (GoPanic "nil pointer dereference")
       ∧ ∀ (op : Operation F W) s, executor_Skip rw op (x, s)
         = (Err (GoPanic "nil pointer dereference"), (x, s)).
Proof.
  intros Hr Hne Hu. exists (MkExecutor name None). split_and!; [|done..].
  unfold NewExecutor, StateOps_Read. munfold. rewrite Hr; simpl.
  rewrite decide_False by done. by rewrite Hu.
Qed.

End ExecutorTheory.

End operation.
