(* ===== verification/Operations.v ===== *)
(** * The operations of the unit agent

    internal/worker/uniter/operation: runhook.go, deploy.go, runaction.go,
    failaction.go, leader.go, runcommands.go, skip.go, secrets.go, lock.go and
    the factory that builds them (factory.go), over the interfaces the agent
    gives them: the callbacks (interface.go), the hook runner and the charm
    deployer. *)

From stdpp Require Import pretty.
From S2P Require Import Prelude Hooks OpState.
Import operation.

(** ** The operations' environment *)

Abbreviation ErrRequeueAndReboot := (ErrConst "reboot now").
Abbreviation ErrReboot := (ErrConst "reboot after hook").
Abbreviation ErrTerminated := (ErrConst "terminated").
Abbreviation ErrActionNotAvailable := (ErrConst "action no longer available").
Abbreviation ErrConflict := (ErrConst "charm upgrade has conflicts").

(** charmrunner's error types *)
Definition IsMissingHookError (e : error) : bool :=
  match e with ErrType t _ => bool_decide (t = "missingHookError") | _ => false end.
Definition IsBadActionError (e : error) : bool :=
  match e with ErrType t _ => bool_decide (t = "badActionError") | _ => false end.

(** Metadata of a secret, as the hook context shows it. *)
Record SecretMetadata : Type := MkSecretMetadata {
  sm_OwnerIsUnit : bool;
  sm_LatestRevision : Z;
}.

(** The relation a hook context shows. *)
Record ContextRelation (W : Type) : Type := MkContextRelation {
  cr_Suspended : W → bool;
  cr_SetStatus : string → M W ();
}.
Arguments cr_Suspended {W} _ _.
Arguments cr_SetStatus {W} _ _.

(** [runner/context.Context], the methods the operations call. *)
Record HookContext (W : Type) : Type := MkHookContext {
  ctx_Prepare : M W ();
  ctx_IsLeader : M W bool;
  ctx_SecretMetadata : M W (gmap string SecretMetadata);
  ctx_SetUnitStatus : string → string → M W ();
  ctx_ResetExecutionSetUnitStatus : W → W;
  ctx_HasExecutionSetUnitStatus : W → bool;
  ctx_Relation : Z → M W (ContextRelation W);
  ctx_ActionDataName : M W string;
}.
Arguments ctx_Prepare {W} _.
Arguments ctx_IsLeader {W} _.
Arguments ctx_SecretMetadata {W} _.
Arguments ctx_SetUnitStatus {W} _ _ _.
Arguments ctx_ResetExecutionSetUnitStatus {W} _ _.
Arguments ctx_HasExecutionSetUnitStatus {W} _ _.
Arguments ctx_Relation {W} _ _.
Arguments ctx_ActionDataName {W} _.

(** [runner.Runner] *)
Record Runner (W : Type) : Type := MkRunner {
  rnr_Context : HookContext W;
  rnr_RunHook : string → M W ();
  rnr_RunAction : string → M W ();
  rnr_RunCommands : string → M W (option string * option error);
}.
Arguments rnr_Context {W} _.
Arguments rnr_RunHook {W} _ _.
Arguments rnr_RunAction {W} _ _.
Arguments rnr_RunCommands {W} _ _.

(** [operation.CommandArgs] *)
Record CommandArgs : Type := MkCommandArgs {
  ca_Commands : string;
  ca_RelationId : Z;
  ca_RemoteUnitName : string;
  ca_ForceRemoteUnit : bool;
}.

Definition CommandArgs_Validate {NM : Names} (args : CommandArgs) : result () :=
  if decide (ca_Commands args = "") then Err (ErrNew "commands required")
  else if decide (ca_RemoteUnitName args ≠ "") then
    if decide (ca_RelationId args = -1)%Z then
      Err (ErrNew "remote unit not valid without relation")
    else if IsValidUnit (ca_RemoteUnitName args) then Ok ()
    else Err (ErrNew "invalid remote unit name %q")
  else Ok ().

(** An action, as the controller describes it. *)
Record UniterAction : Type := MkUniterAction {
  act_ID : string;
  act_Parallel : bool;
  act_ExecutionGroup : string;
}.

(** [runner.Factory] *)
Record RunnerFactory (W : Type) : Type := MkRunnerFactory {
  rf_NewHookRunner : hook.Info → M W (Runner W);
  rf_NewActionRunner : UniterAction → M W (Runner W);
  rf_NewCommandRunner : CommandArgs → M W (Runner W);
}.
Arguments rf_NewHookRunner {W} _ _.
Arguments rf_NewActionRunner {W} _ _.
Arguments rf_NewCommandRunner {W} _ _.

(** [operation.Callbacks] *)
Record Callbacks (W : Type) : Type := MkCallbacks {
  cb_PrepareHook : hook.Info → M W string;
  cb_CommitHook : hook.Info → M W ();
  cb_SetExecutingStatus : string → M W ();
  cb_NotifyHookCompleted : string → W → W;
  cb_NotifyHookFailed : string → W → W;
  cb_FailAction : string → string → M W ();
  cb_ErrorAction : string → string → M W ();
  cb_GetArchiveInfo : string → M W string;
  cb_SetCurrentCharm : string → M W ();
  cb_SetSecretRotated : string → Z → M W ();
  cb_SecretsRemoved : gmap string (list Z) → gmap string (list Z) → M W ();
}.
Arguments cb_PrepareHook {W} _ _.
Arguments cb_CommitHook {W} _ _.
Arguments cb_SetExecutingStatus {W} _ _.
Arguments cb_NotifyHookCompleted {W} _ _ _.
Arguments cb_NotifyHookFailed {W} _ _ _.
Arguments cb_FailAction {W} _ _ _.
Arguments cb_ErrorAction {W} _ _ _.
Arguments cb_GetArchiveInfo {W} _ _.
Arguments cb_SetCurrentCharm {W} _ _.
Arguments cb_SetSecretRotated {W} _ _ _.
Arguments cb_SecretsRemoved {W} _ _ _.

(** [charm.Deployer]: stage an archive, deploy what was staged. *)
Record Deployer (W : Type) : Type := MkDeployer {
  dep_Stage : string → M W ();
  dep_Deploy : M W ();
}.
Arguments dep_Stage {W} _ _.
Arguments dep_Deploy {W} _.

(** The fields an operation sets while it runs: [runHook] sets all of them,
    [runAction] the name and the runner, [runCommands] the runner; the other
    operations have none. *)
Record OpFields (W : Type) : Type := MkOpFields {
  f_name : string;
  f_runner : option (Runner W);
  f_hookFound : bool;
}.
Arguments MkOpFields {W} _ _ _.
Arguments f_name {W} _.
Arguments f_runner {W} _.
Arguments f_hookFound {W} _.

Definition no_fields {W} : OpFields W := MkOpFields "" None false.

Abbreviation operation W := (Operation (OpFields W) W).

(** Uses of [op.runner]: a nil interface panics. *)
Definition op_runner {W} : M (OpFields W * W) (Runner W) :=
  f ← gets fst;
  match f_runner f with
  | Some rnr => mret rnr
  | None => throw (GoPanic "nil pointer dereference")
  end.

(** ** runhook.go *)

(** [runHook.String] *)
Definition runHook_String (info : hook.Info) : string :=
  let k := hook.Kind info in
  let suffix :=
    if hooks.IsRelation k then
      if decide (hook.RemoteUnit info = "") then
        (" (" +:+ pretty (hook.RelationId info) +:+ "; app: "
         +:+ hook.RemoteApplication info +:+ ")")%string
      else if decide (hook.DepartingUnit info ≠ "") then
        (" (" +:+ pretty (hook.RelationId info) +:+ "; unit: "
         +:+ hook.RemoteUnit info +:+ ", departee: "
         +:+ hook.DepartingUnit info +:+ ")")%string
      else
        (" (" +:+ pretty (hook.RelationId info) +:+ "; unit: "
         +:+ hook.RemoteUnit info +:+ ")")%string
    else if hooks.IsStorage k then
      (" (" +:+ hook.StorageId info +:+ ")")%string
    else if hooks.IsSecret k then
      if bool_decide (hook.SecretRevision info = 0)%Z
         || negb (hook.SecretHookRequiresRevision k) then
        (" (" +:+ hook.SecretURI info +:+ ")")%string
      else
        (" (" +:+ hook.SecretURI info +:+ "/"
         +:+ pretty (hook.SecretRevision info) +:+ ")")%string
    else "" in
  ("run " +:+ hooks.kind_string k +:+ suffix +:+ " hook")%string.

(** [RunningHookMessage] *)
Definition RunningHookMessage (hookName : string) (info : hook.Info) : string :=
  if hooks.IsRelation (hook.Kind info) && bool_decide (hook.RemoteUnit info ≠ "")
  then ("running " +:+ hookName +:+ " hook for " +:+ hook.RemoteUnit info)%string
  else if hooks.IsSecret (hook.Kind info) then
    let revMsg :=
      if bool_decide (0 < hook.SecretRevision info)%Z
         && hook.SecretHookRequiresRevision (hook.Kind info)
      then ("/" +:+ pretty (hook.SecretRevision info))%string else "" in
    ("running " +:+ hookName +:+ " hook for " +:+ hook.SecretURI info +:+ revMsg)%string
  else ("running " +:+ hookName +:+ " hook")%string.

Section runHook.
Context {NM : Names} {SU : SecretURIs} {W : Type}
  (cb : Callbacks W) (rf : RunnerFactory W) (info : hook.Info).

Abbreviation F := (OpFields W).

(** Whether only the leader may run the hook. *)
Definition runHook_leaderNeeded (name : string) (rnr : Runner W) : M W bool :=
  let kind := hooks.kind_of_string name in
  let leaderNeeded := bool_decide (kind = hooks.LeaderElected) in
  if bool_decide (kind = hooks.SecretRotate)
     || bool_decide (kind = hooks.SecretExpired)
     || bool_decide (kind = hooks.SecretRemove) then
    secretMetadata ← ctx_SecretMetadata (rnr_Context rnr);
    mret match ParseURI (hook.SecretURI info) with
         | Some id =>
             match secretMetadata !! id with
             | Some md => negb (sm_OwnerIsUnit md)
             | None => false
             end
         | None => leaderNeeded
         end
  else mret leaderNeeded.

Definition runHook_Prepare (state : OpState) : M (F * W) (option OpState) :=
  name ← liftW (cb_PrepareHook cb info);
  rnr ← liftW (rf_NewHookRunner rf info);
  leaderNeeded ← liftW (runHook_leaderNeeded name rnr);
  _ ← if leaderNeeded : bool then
        isLeader ← liftW (ctx_IsLeader (rnr_Context rnr));
        if isLeader : bool then mret () else throw ErrSkipExecute
      else mret ();
  _ ← liftW (ctx_Prepare (rnr_Context rnr));
  _ ← modify (λ s, (MkOpFields name (Some rnr) (f_hookFound s.1), s.2));
  mret (Some (stateChange_apply
    (MkChange RunHook Pending (Some info) None None "" false) state)).

(** [runHook.beforeHook] *)
Definition runHook_beforeHook (state : OpState) : M (F * W) () :=
  match hook.Kind info with
  | hooks.Install =>
      if StatusSet state then mret ()
      else
        rnr ← op_runner;
        liftW (ctx_SetUnitStatus (rnr_Context rnr) "maintenance"
                 "installing charm software")
  | hooks.Stop =>
      rnr ← op_runner;
      liftW (ctx_SetUnitStatus (rnr_Context rnr) "maintenance"
               "stopping charm software")
  | hooks.Remove =>
      rnr ← op_runner;
      liftW (ctx_SetUnitStatus (rnr_Context rnr) "maintenance"
               "cleaning up prior to charm deletion")
  | _ => mret ()
  end.

(** [runHook.afterHook] *)
Definition runHook_afterHook (state : OpState) : M (F * W) bool :=
  rnr ← op_runner;
  let ctx := rnr_Context rnr in
  hasSet ← gets (λ s, ctx_HasExecutionSetUnitStatus ctx s.2);
  let hasRunStatusSet := hasSet || StatusSet state in
  _ ← match hook.Kind info with
      | hooks.Stop => liftW (ctx_SetUnitStatus ctx "maintenance" "")
      | hooks.Remove => liftW (ctx_SetUnitStatus ctx "terminated" "")
      | hooks.Start =>
          if hasRunStatusSet then mret ()
          else liftW (ctx_SetUnitStatus ctx "unknown" "")
      | hooks.RelationBroken =>
          isLeader ← liftW (ctx_IsLeader ctx);
          if negb isLeader then mret ()
          else
            r ← try (liftW (ctx_Relation ctx (hook.RelationId info)));
            match r with
            | Err _ => mret ()
            | Ok rel =>
                susp ← gets (λ s, cr_Suspended rel s.2);
                if susp : bool then liftW (cr_SetStatus rel "suspended")
                else mret ()
            end
      | _ => mret ()
      end;
  mret hasRunStatusSet.

Definition set_hookFound (b : bool) : M (F * W) () :=
  modify (λ s, (MkOpFields (f_name s.1) (f_runner s.1) b, s.2)).

(** The tail of [runHook.Execute], once the hook ran with an outcome that
    counts as done or as needing a reboot. *)
Definition runHook_finish (state : OpState) (step : OpStep) (err : option error) :
    M (F * W) (option OpState * option error) :=
  f ← gets fst;
  _ ← if f_hookFound f then
        modify (λ s, (s.1, cb_NotifyHookCompleted cb (f_name f) s.2))
      else mret ();
  hasRunStatusSet ← runHook_afterHook state;
  mret (Some (stateChange_apply
          (MkChange RunHook step (Some info) (Some step) None "" hasRunStatusSet)
          state), err).

Definition runHook_Execute (state : OpState) :
    M (F * W) (option OpState * option error) :=
  f ← gets fst;
  let message := RunningHookMessage (f_name f) info in
  _ ← runHook_beforeHook state;
  _ ← if decide (hooks.kind_of_string (f_name f) = hooks.UpdateStatus)
      then mret ()
      else liftW (cb_SetExecutingStatus cb message);
  rnr ← op_runner;
  _ ← modify (λ s, (s.1, ctx_ResetExecutionSetUnitStatus (rnr_Context rnr) s.2));
  _ ← set_hookFound true;
  r ← try (liftW (rnr_RunHook rnr (f_name f)));
  match r with
  | Ok _ => runHook_finish state Done None
  | Err e =>
      if IsMissingHookError e then
        _ ← set_hookFound false;
        runHook_finish state Done None
      else if decide (e = ErrRequeueAndReboot) then
        runHook_finish state Queued (Some ErrNeedsReboot)
      else if decide (e = ErrReboot) then
        runHook_finish state Done (Some ErrNeedsReboot)
      else if decide (e = ErrTerminated) then
        mret (Some (stateChange_apply
                (MkChange RunHook Queued (Some info) (Some Queued) None "" false)
                state), Some ErrTerminated)
      else
        _ ← modify (λ s, (s.1, cb_NotifyHookFailed cb (f_name f) s.2));
        throw ErrHookFailed
  end.

(** The part of [runHook.Commit] that chooses the next operation. *)
Definition runHook_commitChange (state : OpState) : M (F * W) stateChange :=
  let continue := MkChange Continue Pending None None None "" false in
  match hook.Kind info with
  | hooks.ConfigChanged =>
      mret (if Started state then continue
            else MkChange RunHook Queued
                   (Some (hook.info_of_kind hooks.Start)) None None "" false)
  | hooks.UpgradeCharm =>
      mret (MkChange RunHook Queued
              (Some (hook.info_of_kind hooks.ConfigChanged)) None None "" false)
  | hooks.SecretRotate =>
      rnr ← op_runner;
      md ← liftW (ctx_SecretMetadata (rnr_Context rnr));
      match ParseURI (hook.SecretURI info) with
      | None => throw (GoPanic "nil pointer dereference")
      | Some id =>
          let originalRevision :=
            match md !! id with Some m => sm_LatestRevision m | None => 0%Z end in
          _ ← liftW (cb_SetSecretRotated cb (hook.SecretURI info) originalRevision);
          mret continue
      end
  | _ => mret continue
  end.

(** The flags [runHook.Commit] records. *)
Definition runHook_commitFlags (st : OpState) : OpState :=
  match hook.Kind info with
  | hooks.Install => set_lifecycle (Started st) (Stopped st) true false st
  | hooks.Start => set_lifecycle true false (Installed st) (Removed st) st
  | hooks.Stop => set_lifecycle (Started st) true (Installed st) (Removed st) st
  | hooks.Remove => set_lifecycle (Started st) (Stopped st) (Installed st) true st
  | _ => st
  end.

Definition runHook_Commit (state : OpState) : M (F * W) (option OpState) :=
  _ ← liftW (cb_CommitHook cb info);
  change ← runHook_commitChange state;
  mret (Some (runHook_commitFlags (stateChange_apply change state))).

Definition runHook : operation W := {|
  op_init := no_fields;
  op_String := runHook_String info;
  op_NeedsGlobalMachineLock := true;
  op_ExecutionGroup := "";
  op_Prepare := simple_step runHook_Prepare;
  op_Execute := full_step runHook_Execute;
  op_Commit := simple_step runHook_Commit;
|}.

End runHook.

(** ** deploy.go *)

Section deploy.
Context {W : Type} (cb : Callbacks W) (dep : Deployer W)
  (kind : OpKind) (charmURL : string) (revert resolved : bool).

Definition deploy_String : string :=
  let '(prefix, verb) :=
    if decide (kind = Install) then ("", "install")
    else if revert then ("switch ", "upgrade to")
    else if resolved then ("continue ", "upgrade to")
    else ("", "upgrade to") in
  (prefix +:+ verb +:+ " " +:+ charmURL)%string.

Definition deploy_checkAlreadyDone (state : OpState) : result () :=
  if decide (Kind state ≠ kind) then Ok ()
  else if decide (CharmURL state ≠ charmURL) then Ok ()
  else if decide (Step state = Done) then Err ErrSkipExecute
  else Ok ().

Definition deploy_interruptedHook (state : OpState) : option hook.Info :=
  match Kind state with
  | RunHook | Upgrade => Hook state
  | _ => None
  end.

Definition deploy_getState (state : OpState) (step : OpStep) : OpState :=
  stateChange_apply
    (MkChange kind step (deploy_interruptedHook state) (HookStep state) None
       charmURL false) state.

(** [deployHookKinds]: a kind that is not in the map gives the empty kind. *)
Definition deployHookKinds (k : OpKind) : hooks.HookKind :=
  match k with
  | Install => hooks.Install
  | Upgrade => hooks.UpgradeCharm
  | _ => hooks.OtherKind ""
  end.

Definition deploy_Prepare (state : OpState) : M (OpFields W * W) (option OpState) :=
  _ ← lift_result (deploy_checkAlreadyDone state);
  archive ← liftW (cb_GetArchiveInfo cb charmURL);
  _ ← liftW (dep_Stage dep archive);
  _ ← liftW (cb_SetCurrentCharm cb charmURL);
  mret (Some (deploy_getState state Pending)).

Definition deploy_Execute (state : OpState) : M (OpFields W * W) (option OpState) :=
  r ← try (liftW (dep_Deploy dep));
  match r with
  | Err e =>
      if decide (e = ErrConflict) then throw (NewDeployConflictError charmURL)
      else throw e
  | Ok _ => mret (Some (deploy_getState state Done))
  end.

Definition deploy_Commit (state : OpState) : M (OpFields W * W) (option OpState) :=
  let change :=
    match deploy_interruptedHook state with
    | Some hookInfo =>
        MkChange RunHook Pending (Some hookInfo) (HookStep state) None "" false
    | None =>
        MkChange RunHook Queued
          (Some (hook.info_of_kind (deployHookKinds kind))) None None "" false
    end in
  mret (Some (stateChange_apply change state)).

Definition deploy : operation W := {|
  op_init := no_fields;
  op_String := deploy_String;
  op_NeedsGlobalMachineLock := false;
  op_ExecutionGroup := "";
  op_Prepare := simple_step deploy_Prepare;
  op_Execute := simple_step deploy_Execute;
  op_Commit := simple_step deploy_Commit;
|}.

End deploy.

(** ** runaction.go and failaction.go *)

(** [continuationKind] *)
Definition continuationKind (state : OpState) : OpKind :=
  match Hook state with
  | Some _ => RunHook
  | None => Continue
  end.

(** [runAction.Commit] and [failAction.Commit] *)
Definition action_Commit {F W} (state : OpState) : M (F * W) (option OpState) :=
  mret (Some (stateChange_apply
    (MkChange (continuationKind state) Pending (Hook state) None None "" false)
    state)).

(** The state both action operations record while they run. *)
Definition action_state (actionID : string) (step : OpStep) (state : OpState) :
    OpState :=
  stateChange_apply
    (MkChange RunAction step (Hook state) None (Some actionID) "" false) state.

Section runAction.
Context {W : Type} (cb : Callbacks W) (rf : RunnerFactory W)
  (action : UniterAction).

Definition runAction_Prepare (state : OpState) :
    M (OpFields W * W) (option OpState) :=
  let actionID := act_ID action in
  r ← try (liftW (rf_NewActionRunner rf action));
  match r with
  | Err e =>
      if IsBadActionError e then
        _ ← liftW (cb_ErrorAction cb actionID (error_text e));
        throw ErrSkipExecute
      else if decide (e = ErrActionNotAvailable) then throw ErrSkipExecute
      else throw e
  | Ok rnr =>
      name ← liftW (ctx_ActionDataName (rnr_Context rnr));
      _ ← liftW (ctx_Prepare (rnr_Context rnr));
      _ ← modify (λ s, (MkOpFields name (Some rnr) (f_hookFound s.1), s.2));
      mret (Some (action_state actionID Pending state))
  end.

(** The watcher that cancels the runner when the action is aborted runs beside
    [RunAction] and touches no recorded state; its effect is part of
    [rnr_RunAction]. *)
Definition runAction_Execute (state : OpState) :
    M (OpFields W * W) (option OpState) :=
  f ← gets fst;
  _ ← liftW (cb_SetExecutingStatus cb ("running action " +:+ f_name f)%string);
  rnr ← op_runner;
  _ ← liftW (rnr_RunAction rnr (f_name f));
  mret (Some (action_state (act_ID action) Done state)).

Definition runAction : operation W := {|
  op_init := no_fields;
  op_String := ("run action " +:+ act_ID action)%string;
  op_NeedsGlobalMachineLock :=
    negb (act_Parallel action) || bool_decide (act_ExecutionGroup action ≠ "");
  op_ExecutionGroup := act_ExecutionGroup action;
  op_Prepare := simple_step runAction_Prepare;
  op_Execute := simple_step runAction_Execute;
  op_Commit := simple_step action_Commit;
|}.

End runAction.

Section failAction.
Context {W : Type} (cb : Callbacks W) (actionId : string).

Definition failAction_Prepare (state : OpState) : M (OpFields W * W) (option OpState) :=
  mret (Some (action_state actionId Pending state)).

Definition failAction_Execute (state : OpState) : M (OpFields W * W) (option OpState) :=
  _ ← liftW (cb_FailAction cb actionId "action terminated");
  mret (Some (action_state actionId Done state)).

Definition failAction : operation W := {|
  op_init := no_fields;
  op_String := ("fail action " +:+ actionId)%string;
  op_NeedsGlobalMachineLock := true;
  op_ExecutionGroup := "";
  op_Prepare := simple_step failAction_Prepare;
  op_Execute := simple_step failAction_Execute;
  op_Commit := simple_step action_Commit;
|}.

End failAction.

(** ** leader.go *)

Section leader.
Context {W : Type}.

Definition acceptLeadership_checkState (state : OpState) : result () :=
  if decide (Kind state ≠ Continue) then Err ErrCannotAcceptLeadership
  else Ok ().

Definition acceptLeadership_Prepare (state : OpState) :
    M (OpFields W * W) (option OpState) :=
  _ ← lift_result (acceptLeadership_checkState state);
  throw ErrSkipExecute.

Definition acceptLeadership_Execute (state : OpState) :
    M (OpFields W * W) (option OpState) :=
  throw (ErrNew "prepare always errors; Execute is never valid").

Definition acceptLeadership_Commit (state : OpState) :
    M (OpFields W * W) (option OpState) :=
  _ ← lift_result (acceptLeadership_checkState state);
  mret (if Leader state then None
        else Some (set_Leader true (stateChange_apply
               (MkChange RunHook Queued
                  (Some (hook.info_of_kind hooks.LeaderElected)) None None "" false)
               state))).

Definition acceptLeadership : operation W := {|
  op_init := no_fields;
  op_String := "accept leadership";
  op_NeedsGlobalMachineLock := false;
  op_ExecutionGroup := "";
  op_Prepare := simple_step acceptLeadership_Prepare;
  op_Execute := simple_step acceptLeadership_Execute;
  op_Commit := simple_step acceptLeadership_Commit;
|}.

Definition resignLeadership_Prepare (state : OpState) :
    M (OpFields W * W) (option OpState) :=
  if negb (Leader state) then throw ErrSkipExecute else mret None.

Definition resignLeadership_Execute (state : OpState) :
    M (OpFields W * W) (option OpState) := mret None.

Definition resignLeadership_Commit (state : OpState) :
    M (OpFields W * W) (option OpState) := mret (Some (set_Leader false state)).

Definition resignLeadership : operation W := {|
  op_init := no_fields;
  op_String := "resign leadership";
  op_NeedsGlobalMachineLock := false;
  op_ExecutionGroup := "";
  op_Prepare := simple_step resignLeadership_Prepare;
  op_Execute := simple_step resignLeadership_Execute;
  op_Commit := simple_step resignLeadership_Commit;
|}.

End leader.

(** ** runcommands.go *)

Section runCommands.
Context {W : Type} (cb : Callbacks W) (rf : RunnerFactory W)
  (args : CommandArgs) (sendResponse : option string → option error → W → bool * W).

Definition runCommands_String : string :=
  let suffix :=
    if decide (ca_RelationId args ≠ -1)%Z then
      let infix :=
        if decide (ca_RemoteUnitName args ≠ "")
        then ("; " +:+ ca_RemoteUnitName args)%string else "" in
      (" (" +:+ pretty (ca_RelationId args) +:+ infix +:+ ")")%string
    else "" in
  ("run commands" +:+ suffix)%string.

Definition runCommands_Prepare (state : OpState) :
    M (OpFields W * W) (option OpState) :=
  rnr ← liftW (rf_NewCommandRunner rf args);
  _ ← liftW (ctx_Prepare (rnr_Context rnr));
  _ ← modify (λ s, (MkOpFields (f_name s.1) (Some rnr) (f_hookFound s.1), s.2));
  mret None.

(** [sendResponse(response, err)]: whether the error was handled. *)
Definition runCommands_send (response : option string) (err : option error) :
    M (OpFields W * W) bool := λ s,
  let '(handled, w) := sendResponse response err s.2 in (Ok handled, (s.1, w)).

Definition runCommands_Execute (state : OpState) :
    M (OpFields W * W) (option OpState) :=
  _ ← liftW (cb_SetExecutingStatus cb "running commands");
  rnr ← op_runner;
  '(response, err) ← liftW (rnr_RunCommands rnr (ca_Commands args));
  match err with
  | None =>
      _ ← runCommands_send response None;
      mret None
  | Some e =>
      if decide (e = ErrRequeueAndReboot ∨ e = ErrReboot) then
        _ ← runCommands_send response None;
        throw ErrNeedsReboot
      else
        handled ← runCommands_send response (Some e);
        if handled : bool then mret None else throw e
  end.

Definition runCommands_Commit (state : OpState) :
    M (OpFields W * W) (option OpState) := mret None.

Definition runCommands : operation W := {|
  op_init := no_fields;
  op_String := runCommands_String;
  op_NeedsGlobalMachineLock := true;
  op_ExecutionGroup := "";
  op_Prepare := simple_step runCommands_Prepare;
  op_Execute := simple_step runCommands_Execute;
  op_Commit := simple_step runCommands_Commit;
|}.

End runCommands.

(** ** skip.go and secrets.go *)

Definition skipOperation {W} (op : operation W) : operation W := {|
  op_init := op_init op;
  op_String := ("skip " +:+ op_String op)%string;
  op_NeedsGlobalMachineLock := false;
  op_ExecutionGroup := op_ExecutionGroup op;
  op_Prepare := simple_step (λ _, throw ErrSkipExecute);
  op_Execute := simple_step (λ _, throw ErrSkipExecute);
  op_Commit := op_Commit op;
|}.

Section noOpSecretsRemoved.
Context {W : Type} (cb : Callbacks W)
  (deletedRevisions deletedObsoleteRevisions : gmap string (list Z)).

Definition noOpSecretsRemoved_Commit (state : OpState) :
    M (OpFields W * W) (option OpState) :=
  _ ← liftW (cb_SecretsRemoved cb deletedRevisions deletedObsoleteRevisions);
  mret (Some state).

(** The lines of [String] follow the iteration order of Go maps, which is not
    specified; the revisions it prints are left out. *)
Definition noOpSecretsRemoved : operation W := {|
  op_init := no_fields;
  op_String := "remove deleted secrets:";
  op_NeedsGlobalMachineLock := false;
  op_ExecutionGroup := "";
  op_Prepare := simple_step (λ _, throw ErrSkipExecute);
  op_Execute := simple_step (λ _, throw ErrSkipExecute);
  op_Commit := simple_step noOpSecretsRemoved_Commit;
|}.

End noOpSecretsRemoved.

(** ** factory.go *)

(** [operation.Factory] *)
Record Factory (W : Type) : Type := MkFactory {
  NewInstall : string → M W (operation W);
  NewUpgrade : string → M W (operation W);
  NewRevertUpgrade : string → M W (operation W);
  NewResolvedUpgrade : string → M W (operation W);
  NewRunHook : hook.Info → M W (operation W);
  NewSkipHook : hook.Info → M W (operation W);
  NewAction : string → M W (operation W);
  NewFailAction : string → M W (operation W);
  NewCommands : CommandArgs →
    option (option string → option error → W → bool * W) → M W (operation W);
  NewAcceptLeadership : M W (operation W);
  NewResignLeadership : M W (operation W);
  NewNoOpSecretsRemoved :
    gmap string (list Z) → gmap string (list Z) → M W (operation W);
}.
Arguments NewInstall {W} _ _.
Arguments NewUpgrade {W} _ _.
Arguments NewRevertUpgrade {W} _ _.
Arguments NewResolvedUpgrade {W} _ _.
Arguments NewRunHook {W} _ _.
Arguments NewSkipHook {W} _ _.
Arguments NewAction {W} _ _.
Arguments NewFailAction {W} _ _.
Arguments NewCommands {W} _ _ _.
Arguments NewAcceptLeadership {W} _.
Arguments NewResignLeadership {W} _.
Arguments NewNoOpSecretsRemoved {W} _ _ _.

Record FactoryParams (W : Type) : Type := MkFactoryParams {
  fp_Deployer : option (Deployer W);
  fp_RunnerFactory : RunnerFactory W;
  fp_Callbacks : Callbacks W;
  fp_Action : string → M W UniterAction;
}.
Arguments fp_Deployer {W} _.
Arguments fp_RunnerFactory {W} _.
Arguments fp_Callbacks {W} _.
Arguments fp_Action {W} _ _.

Section factory.
Context {NM : Names} {SU : SecretURIs} {W : Type} (config : FactoryParams W).

Definition factory_newDeploy (kind : OpKind) (charmURL : string)
    (revert resolved : bool) : M W (operation W) :=
  match fp_Deployer config with
  | None => throw (ErrNew "deployer required")
  | Some dep =>
      if decide (charmURL = "") then throw (ErrNew "charm url required")
      else if decide (kind ≠ Install ∧ kind ≠ Upgrade) then
        throw (ErrNew "unknown deploy kind: %s")
      else mret (deploy (fp_Callbacks config) dep kind charmURL revert resolved)
  end.

Definition factory_NewRunHook (info : hook.Info) : M W (operation W) :=
  _ ← lift_result (hook.Info_Validate info);
  mret (runHook (fp_Callbacks config) (fp_RunnerFactory config) info).

Definition factory_NewSkipHook (info : hook.Info) : M W (operation W) :=
  hookOp ← factory_NewRunHook info;
  mret (skipOperation hookOp).

Definition factory_NewAction (actionId : string) : M W (operation W) :=
  if negb (IsValidAction actionId) then throw (ErrNew "invalid action id %q")
  else
    r ← try (fp_Action config actionId);
    match r with
    | Err e =>
        if IsCodeNotFoundOrCodeUnauthorized e then throw ErrActionNotAvailable
        else if IsCodeActionNotAvailable e then throw ErrActionNotAvailable
        else throw e
    | Ok action =>
        mret (runAction (fp_Callbacks config) (fp_RunnerFactory config) action)
    end.

Definition factory_NewFailAction (actionId : string) : M W (operation W) :=
  if negb (IsValidAction actionId) then throw (ErrNew "invalid action id %q")
  else mret (failAction (fp_Callbacks config) actionId).

Definition factory_NewCommands (args : CommandArgs)
    (sendResponse : option (option string → option error → W → bool * W)) :
    M W (operation W) :=
  _ ← lift_result (CommandArgs_Validate args);
  match sendResponse with
  | None => throw (ErrNew "response sender required")
  | Some send =>
      mret (runCommands (fp_Callbacks config) (fp_RunnerFactory config) args send)
  end.

Definition NewFactory : Factory W := {|
  NewInstall url := factory_newDeploy Install url false false;
  NewUpgrade url := factory_newDeploy Upgrade url false false;
  NewRevertUpgrade url := factory_newDeploy Upgrade url true false;
  NewResolvedUpgrade url := factory_newDeploy Upgrade url false true;
  NewRunHook := factory_NewRunHook;
  NewSkipHook := factory_NewSkipHook;
  NewAction := factory_NewAction;
  NewFailAction := factory_NewFailAction;
  NewCommands := factory_NewCommands;
  NewAcceptLeadership := mret acceptLeadership;
  NewResignLeadership := mret resignLeadership;
  NewNoOpSecretsRemoved del obs :=
    mret (noOpSecretsRemoved (fp_Callbacks config) del obs);
|}.

End factory.
