(* ===== verification/OperationFacts.v ===== *)
(** * What the operations of the unit agent do to its state

    Validity of every state an operation records, the lifecycle flags, what an
    upgrade or an action leaves of an interrupted hook, and the outcome of
    running one hook through the executor. *)

From S2P Require Import Prelude Hooks OpState Operations.
Import operation.

(** ** Steps *)

Lemma simple_step_inv {F W} (m : OpState → M (F * W) (option OpState)) st s o e s' :
  simple_step m st s = ((o, e), s') →
  (e = None ∧ m st s = (Ok o, s')) ∨ (∃ err, e = Some err ∧ o = None ∧ m st s = (Err err, s')).
Proof.
  unfold simple_step. destruct (m st s) as [[o'|err] s1]; naive_solver.
Qed.

Lemma full_step_inv {F W} (m : OpState → M (F * W) (option OpState * option error))
    st s ns e s' :
  full_step m st s = ((Some ns, e), s') → m st s = (Ok (Some ns, e), s').
Proof. unfold full_step. destruct (m st s) as [[[]|err] s1]; naive_solver. Qed.

Lemma simple_step_Some {F W} (m : OpState → M (F * W) (option OpState)) st s ns e s' :
  simple_step m st s = ((Some ns, e), s') → m st s = (Ok (Some ns), s').
Proof. intros [[_ ?]|(? & _ & ? & _)]%simple_step_inv; naive_solver. Qed.

Section facts.
Context {NM : Names} {SU : SecretURIs} {W : Type}.

(** ** Valid states *)

Lemma valid_inv st :
  valid st → OpState_validate_kind st = Ok () ∧
    (∀ s, Step st ≠ OtherStep s) ∧
    (∀ hi, Hook st = Some hi → hook.Info_Validate hi = Ok ()).
Proof.
  unfold valid, OpState_Validate. unfold mbind, result_bind.
  destruct (OpState_validate_kind st) as [[]|]; [|done].
  destruct (Step st), (Hook st); naive_solver.
Qed.

Lemma valid_intro st :
  OpState_validate_kind st = Ok () →
  (∀ s, Step st ≠ OtherStep s) →
  (∀ hi, Hook st = Some hi → hook.Info_Validate hi = Ok ()) → valid st.
Proof.
  unfold valid, OpState_Validate. unfold mbind, result_bind. intros -> Hs Hh.
  destruct (Step st) eqn:E; [..|by destruct (Hs s)]; destruct (Hook st); auto.
Qed.

(** Changing the flags and hashes does not change validity, unless the state
    is that of an installation. *)
Lemma valid_set_Leader b st : valid (set_Leader b st) ↔ valid st.
Proof. done. Qed.
Lemma valid_set_hashes c t a st : valid (set_hashes c t a st) ↔ valid st.
Proof. done. Qed.
Lemma valid_set_lifecycle a b i r st :
  Kind st ≠ Install → valid (set_lifecycle a b i r st) ↔ valid st.
Proof.
  intros H. unfold valid, OpState_Validate, OpState_validate_kind.
  simpl. by destruct (Kind st).
Qed.

(** The shapes of state the operations build. *)
Lemma valid_hook_state hi step hs b st :
  hook.Info_Validate hi = Ok () → (∀ s, step ≠ OtherStep s) →
  valid (stateChange_apply (MkChange RunHook step (Some hi) hs None "" b) st).
Proof. intros ??. apply valid_intro; simpl; naive_solver. Qed.

Lemma valid_continue st :
  valid (stateChange_apply (MkChange Continue Pending None None None "" false) st).
Proof. by apply valid_intro. Qed.

Lemma valid_action_state id step st :
  valid st → (∀ s, step ≠ OtherStep s) → valid (action_state id step st).
Proof. intros (_ & _ & ?)%valid_inv ?. by apply valid_intro. Qed.

Lemma unit_hook_valid k :
  k ∈ hooks.unitHooks → hook.Info_Validate (hook.info_of_kind k) = Ok ().
Proof. apply hook.Info_Validate_unit. Qed.

(** Every state an operation asks to record is valid, when its steps start
    from a valid state that satisfies [pre]. *)
Definition records_valid (pre : OpState → Prop) (op : operation W) : Prop :=
  ∀ step st s ns e s', valid st → pre st →
    step_run step op st s = ((Some ns, e), s') → valid ns.

Lemma runHook_finish_state cb info st step err s o e s' :
  runHook_finish (W:=W) cb info st step err s = (Ok (o, e), s') →
  ∃ b, o = Some (stateChange_apply
         (MkChange RunHook step (Some info) (Some step) None "" b) st) ∧ e = err.
Proof.
  unfold runHook_finish. intros H. minv; eauto.
Qed.

Lemma runHook_records_valid cb rf info :
  hook.Info_Validate info = Ok () →
  records_valid (λ _, True) (runHook cb rf info).
Proof.
  intros Hi step st s ns e s' Hv _. destruct step; simpl.
  - intros H%simple_step_Some. unfold runHook_Prepare in H.
    minv; by apply valid_hook_state.
  - intros H%full_step_inv. unfold runHook_Execute in H.
    minv; repeat match goal with
    | H : runHook_finish _ _ _ _ _ _ = _ |- _ =>
        apply runHook_finish_state in H as (? & ? & ?)
    end; simplify_eq; by apply valid_hook_state.
  - intros H%simple_step_Some. unfold runHook_Commit in H. minv.
    assert (valid (stateChange_apply a0 st) ∧ sc_Kind a0 ≠ Install) as [Hc Hk].
    { unfold runHook_commitChange in E0.
      destruct (Started st), (hook.Kind info); minv; (split; [|done]);
        try apply valid_continue; apply valid_hook_state; try done;
        by apply unit_hook_valid; unfold hooks.unitHooks; set_solver. }
    unfold runHook_commitFlags.
    destruct (hook.Kind info); rewrite ?valid_set_lifecycle by done; done.
Qed.

Lemma deploy_interruptedHook_valid st hi :
  valid st → deploy_interruptedHook st = Some hi → hook.Info_Validate hi = Ok ().
Proof.
  intros (_ & _ & H)%valid_inv. unfold deploy_interruptedHook.
  destruct (Kind st); naive_solver.
Qed.

Lemma deploy_records_valid cb dep kind url revert resolved :
  url ≠ "" → kind = Install ∨ kind = Upgrade →
  records_valid (λ st, kind = Install → Installed st = false)
    (deploy cb dep kind url revert resolved).
Proof.
  intros Hu Hk step st s ns e s' Hv Hpre.
  assert (∀ step', (∀ x, step' ≠ OtherStep x) →
    valid (deploy_getState kind url st step')) as Hget.
  { intros step' Hs. apply valid_intro; simpl; [|done|].
    - unfold OpState_validate_kind. simpl. rewrite bool_decide_true by done.
      destruct Hk as [-> | ->]; simpl; [by rewrite Hpre|done].
    - intros hi. by apply deploy_interruptedHook_valid. }
  destruct step; simpl; intros H%simple_step_Some.
  - unfold deploy_Prepare in H. minv; by apply Hget.
  - unfold deploy_Execute in H. minv; by apply Hget.
  - unfold deploy_Commit in H. minv. destruct (deploy_interruptedHook st) eqn:Ei.
    + apply valid_hook_state; [|done]. by eapply deploy_interruptedHook_valid.
    + apply valid_hook_state; [|done].
      by destruct Hk as [-> | ->]; apply unit_hook_valid; unfold hooks.unitHooks;
        set_solver.
Qed.

Lemma action_Commit_valid {F} st s ns (s' : F * W) :
  valid st → action_Commit st s = (Ok (Some ns), s') → valid ns.
Proof.
  intros (Hk & Hs & Hh)%valid_inv H. unfold action_Commit in H. minv.
  apply valid_intro; simpl; [|done..].
  unfold OpState_validate_kind, continuationKind. simpl. by destruct (Hook st).
Qed.

Lemma runAction_records_valid cb rf action :
  records_valid (λ _, True) (runAction cb rf action).
Proof.
  intros step st s ns e s' Hv _. destruct step; simpl; intros H%simple_step_Some.
  - unfold runAction_Prepare in H. minv; by apply valid_action_state.
  - unfold runAction_Execute in H. minv; by apply valid_action_state.
  - by eapply action_Commit_valid.
Qed.

Lemma failAction_records_valid cb id :
  records_valid (λ _, True) (failAction cb id).
Proof.
  intros step st s ns e s' Hv _. destruct step; simpl; intros H%simple_step_Some.
  - unfold failAction_Prepare in H. minv; by apply valid_action_state.
  - unfold failAction_Execute in H. minv; by apply valid_action_state.
  - by eapply action_Commit_valid.
Qed.

Lemma acceptLeadership_records_valid :
  records_valid (λ _, True) acceptLeadership.
Proof.
  intros step st s ns e s' Hv _. destruct step; simpl; intros H%simple_step_Some;
    unfold acceptLeadership_Prepare, acceptLeadership_Execute,
      acceptLeadership_Commit in H; minv.
  destruct (Leader st); simplify_eq. rewrite valid_set_Leader.
  by apply valid_hook_state.
Qed.

Lemma resignLeadership_records_valid :
  records_valid (λ _, True) resignLeadership.
Proof.
  intros step st s ns e s' Hv _. destruct step; simpl; intros H%simple_step_Some;
    unfold resignLeadership_Prepare, resignLeadership_Execute,
      resignLeadership_Commit in H; minv.
  by rewrite valid_set_Leader.
Qed.

Lemma runCommands_records_nothing cb rf args send step st s ns e s' :
  step_run step (runCommands (W:=W) cb rf args send) st s ≠ ((Some ns, e), s').
Proof.
  destruct step; simpl; intros H%simple_step_Some;
    unfold runCommands_Prepare, runCommands_Execute, runCommands_Commit in H;
    minv.
Qed.

Lemma skipOperation_records pre (op : operation W) :
  records_valid pre op → records_valid pre (skipOperation op).
Proof.
  intros Hop step st s ns e s' Hv Hpre.
  destruct step; simpl; [intros H%simple_step_Some; by minv..|].
  by apply (Hop stepCommit).
Qed.

Lemma noOpSecretsRemoved_records_valid cb del obs :
  records_valid (λ _, True) (noOpSecretsRemoved cb del obs).
Proof.
  intros step st s ns e s' Hv _. destruct step; simpl; intros H%simple_step_Some;
    unfold noOpSecretsRemoved_Commit in H; by minv.
Qed.

(** ** Everything the factory makes *)

(** A call of one of the factory's methods. *)
Inductive op_request : Type :=
| ReqInstall (url : string)
| ReqUpgrade (url : string)
| ReqRevertUpgrade (url : string)
| ReqResolvedUpgrade (url : string)
| ReqRunHook (info : hook.Info)
| ReqSkipHook (info : hook.Info)
| ReqAction (id : string)
| ReqFailAction (id : string)
| ReqCommands (args : CommandArgs)
    (send : option (option string → option error → W → bool * W))
| ReqAcceptLeadership
| ReqResignLeadership
| ReqNoOpSecretsRemoved (del obs : gmap string (list Z)).

Definition factory_make (f : Factory W) (req : op_request) : M W (operation W) :=
  match req with
  | ReqInstall url => NewInstall f url
  | ReqUpgrade url => NewUpgrade f url
  | ReqRevertUpgrade url => NewRevertUpgrade f url
  | ReqResolvedUpgrade url => NewResolvedUpgrade f url
  | ReqRunHook info => NewRunHook f info
  | ReqSkipHook info => NewSkipHook f info
  | ReqAction id => NewAction f id
  | ReqFailAction id => NewFailAction f id
  | ReqCommands args send => NewCommands f args send
  | ReqAcceptLeadership => NewAcceptLeadership f
  | ReqResignLeadership => NewResignLeadership f
  | ReqNoOpSecretsRemoved del obs => NewNoOpSecretsRemoved f del obs
  end.

Lemma factory_newDeploy_inv (config : FactoryParams W) kind url revert resolved w op w' :
  factory_newDeploy config kind url revert resolved w = (Ok op, w') →
  ∃ dep, op = deploy (fp_Callbacks config) dep kind url revert resolved
         ∧ url ≠ "" ∧ (kind = Install ∨ kind = Upgrade).
Proof.
  unfold factory_newDeploy. intros H. destruct (fp_Deployer config); minv.
  eexists; split_and!; [done..|].
  destruct (decide (kind = Install)), (decide (kind = Upgrade)); tauto.
Qed.

Lemma factory_NewRunHook_inv (config : FactoryParams W) info w op w' :
  factory_NewRunHook config info w = (Ok op, w') →
  op = runHook (fp_Callbacks config) (fp_RunnerFactory config) info
  ∧ hook.Info_Validate info = Ok ().
Proof.
  unfold factory_NewRunHook. intros H. minv. split; [done|].
  unfold lift_result in E. by destruct a; simplify_eq.
Qed.

(** What a request needs of the state it starts from. *)
Definition request_pre (req : op_request) (st : OpState) : Prop :=
  match req with
  | ReqInstall _ => Installed st = false
  | _ => True
  end.

Lemma records_valid_weaken (P Q : OpState → Prop) (op : operation W) :
  (∀ st, Q st → P st) → records_valid P op → records_valid Q op.
Proof. unfold records_valid. eauto. Qed.


(** ** The lifecycle flags *)

Definition lifecycle (st : OpState) : bool * bool * bool * bool * bool :=
  (Started st, Stopped st, Installed st, Removed st, Leader st).

(** The flags after a step: only committing a lifecycle hook or a change of
    leadership touches them. *)
Definition lifecycle_after (step : executorStep) (req : op_request)
    (st : OpState) : bool * bool * bool * bool * bool :=
  match step, req with
  | stepCommit, (ReqRunHook info | ReqSkipHook info) =>
      match hook.Kind info with
      | hooks.Install => (Started st, Stopped st, true, false, Leader st)
      | hooks.Start => (true, false, Installed st, Removed st, Leader st)
      | hooks.Stop => (Started st, true, Installed st, Removed st, Leader st)
      | hooks.Remove => (Started st, Stopped st, Installed st, true, Leader st)
      | _ => lifecycle st
      end
  | stepCommit, ReqAcceptLeadership =>
      (Started st, Stopped st, Installed st, Removed st, true)
  | stepCommit, ReqResignLeadership =>
      (Started st, Stopped st, Installed st, Removed st, false)
  | _, _ => lifecycle st
  end.

#[local] Arguments lifecycle_after : simpl never.

Lemma lifecycle_apply change st : lifecycle (stateChange_apply change st) = lifecycle st.
Proof. done. Qed.

Lemma runHook_lifecycle cb rf info step st s ns e s' :
  step_run step (runHook (W:=W) cb rf info) st s = ((Some ns, e), s') →
  lifecycle ns = lifecycle_after step (ReqRunHook info) st.
Proof.
  destruct step; simpl.
  - intros H%simple_step_Some. unfold runHook_Prepare in H. by minv.
  - intros H%full_step_inv. unfold runHook_Execute in H.
    minv; repeat match goal with
    | H : runHook_finish _ _ _ _ _ _ = _ |- _ =>
        apply runHook_finish_state in H as (? & ? & ?)
    end; by simplify_eq.
  - intros H%simple_step_Some. unfold runHook_Commit in H. minv.
    unfold runHook_commitFlags, lifecycle_after. by destruct (hook.Kind info).
Qed.

Lemma skip_lifecycle (op : operation W) req req' :
  (∀ step st s ns e s', step_run step op st s = ((Some ns, e), s') →
     lifecycle ns = lifecycle_after step req st) →
  (∀ st, lifecycle_after stepCommit req' st = lifecycle_after stepCommit req st) →
  ∀ step st s ns e s', step_run step (skipOperation op) st s = ((Some ns, e), s') →
     lifecycle ns = lifecycle_after step req' st.
Proof.
  intros Hop Hreq step st s ns e s'. destruct step; simpl.
  1-2: intros H%simple_step_Some; by minv.
  intros H. rewrite Hreq. by apply (Hop stepCommit _ _ _ _ _ H).
Qed.

(** The unit's lifecycle flags and its leadership flag change only when
    the step that decides them commits: [Installed], [Started], [Stopped] and
    [Removed] when the install, start, stop or remove hook is committed (run
    or skipped), [Leader] when leadership is accepted or resigned; every other
    step of every operation the factory makes leaves all five as they were. *)
Theorem factory_operations_lifecycle config req w op w' step st s ns e s' :
  factory_make (NewFactory config) req w = (Ok op, w') →
  step_run step op st s = ((Some ns, e), s') →
  lifecycle ns = lifecycle_after step req st.
Proof.
  intros Hmake. revert step st s ns e s'. destruct req; simpl in Hmake.
  1-4: apply factory_newDeploy_inv in Hmake as (dep & -> & _ & _);
    intros [] ????? H%simple_step_Some; simpl in H;
    unfold deploy_Prepare, deploy_Execute, deploy_Commit in H;
    minv; by simplify_eq.
  - apply factory_NewRunHook_inv in Hmake as [-> _]. apply runHook_lifecycle.
  - unfold factory_NewSkipHook in Hmake. minv.
    apply factory_NewRunHook_inv in E as [-> _].
    eapply skip_lifecycle; [apply runHook_lifecycle|done].
  - unfold factory_NewAction in Hmake. minv.
    intros [] ????? H%simple_step_Some; simpl in H;
      unfold runAction_Prepare, runAction_Execute, action_Commit in H; by minv.
  - unfold factory_NewFailAction in Hmake. minv.
    intros [] ????? H%simple_step_Some; simpl in H;
      unfold failAction_Prepare, failAction_Execute, action_Commit in H; by minv.
  - unfold factory_NewCommands in Hmake. minv.
    intros ?????? H. by apply runCommands_records_nothing in H.
  - minv. intros [] ????? H%simple_step_Some; simpl in H;
      unfold acceptLeadership_Prepare, acceptLeadership_Execute,
        acceptLeadership_Commit in H; minv.
    destruct (Leader st) eqn:?; by simplify_eq.
  - minv. intros [] ????? H%simple_step_Some; simpl in H;
      unfold resignLeadership_Prepare, resignLeadership_Execute,
        resignLeadership_Commit in H; by minv.
  - minv. intros [] ????? H; simpl in H; apply simple_step_Some in H;
      unfold noOpSecretsRemoved_Commit in H; by minv.
Qed.

(** ** Running an operation through the executor *)

Section runs.
Context {YM : Yaml OpState} (rw : UnitStateReadWriter W)
  (acquire : string → string → M W (W → W)).

(** A step leaves the executor's state alone or replaces it by the state the
    step returned. *)
Lemma executor_do_state {F} (op : Operation F W) step st x f w r x' f' w' :
  x_state x = Some st →
  executor_do rw op step (x, (f, w)) = (r, (x', (f', w'))) →
  x' = x ∨ ∃ ns e f1 w1, step_run step op st (f, w) = ((Some ns, e), (f1, w1))
                         ∧ x' = MkExecutor (x_unitName x) (Some ns).
Proof.
  intros Hx. unfold executor_do, executor_State. rewrite Hx.
  destruct (step_run step op st (f, w)) as [[[ns|] fe] [f1 w1]] eqn:E.
  - destruct (executor_writeState rw ns (x, w1)) as [wr [x2 w2]] eqn:E2.
    intros H. assert (x' = x2) as -> by (destruct fe, wr; naive_solver).
    apply executor_writeState_inv in E2 as [(-> & _)|(_ & ? & _ & [H2|H2])].
    + by left.
    + destruct H2 as (_ & -> & _). right. by eexists _, _, _, _.
    + destruct H2 as (? & _ & -> & _). by left.
  - intros H. left. destruct fe; naive_solver.
Qed.

(** An invariant of the states an operation records is an invariant of the
    executor running it, whatever the outcome. *)
Section state_inv.
Context {F : Type} (Q : OpState → Prop) (op : Operation F W).
Hypothesis HQ : ∀ step st s ns e s', Q st →
  step_run step op st s = ((Some ns, e), s') → Q ns.

Definition holds (x : executor) : Prop := ∃ st, x_state x = Some st ∧ Q st.

Lemma executor_do_holds step x f w r x' f' w' :
  holds x → executor_do rw op step (x, (f, w)) = (r, (x', (f', w'))) → holds x'.
Proof using HQ.
  intros (st & Hx & Hst) H.
  destruct (executor_do_state _ _ _ _ _ _ _ _ _ _ Hx H)
    as [-> | (ns & e & f1 & w1 & HS & ->)]; [by exists st|].
  exists ns. split; [done|]. by eapply HQ.
Qed.

Lemma executor_steps_holds x f w r x' f' w' :
  holds x → executor_steps rw op (x, (f, w)) = (r, (x', (f', w'))) → holds x'.
Proof using HQ.
  intros Hx. unfold executor_steps, try, mbind, M_bind, throw.
  destruct (executor_do rw op stepPrepare (x, (f, w))) as [r1 [x1 [f1 w1]]] eqn:E1.
  pose proof (executor_do_holds _ _ _ _ _ _ _ _ Hx E1) as Hx1.
  destruct r1 as [[]|e].
  - destruct (executor_do rw op stepExecute (x1, (f1, w1)))
      as [[[]|e2] [x2 [f2 w2]]] eqn:E2; intros; simplify_eq;
      pose proof (executor_do_holds _ _ _ _ _ _ _ _ Hx1 E2); [|done].
    by eapply executor_do_holds.
  - destruct e; try case_decide; intros; simplify_eq; try done;
      by eapply executor_do_holds.
Qed.

Lemma executor_Run_holds x w r x' w' :
  holds x → executor_Run rw acquire op (x, w) = (r, (x', w')) → holds x'.
Proof using HQ.
  intros Hx. unfold executor_Run.
  assert (∀ w r x' w', with_fields op (executor_steps rw op) (x, w) = (r, (x', w'))
            → holds x') as Hbody.
  { intros w0 r0 x0 w0'. unfold with_fields.
    destruct (executor_steps rw op (x, (op_init op, w0))) as [r1 [x1 [f1 w1]]] eqn:E1.
    intros; simplify_eq. by eapply executor_steps_holds. }
  destruct (op_NeedsGlobalMachineLock op); [|eauto].
  unfold mbind, M_bind, zoom, defer_release; simpl.
  destruct (acquire (op_String op) (op_ExecutionGroup op) w) as [[rel|e] w1];
    [|by intros; simplify_eq].
  destruct (with_fields op (executor_steps rw op) (x, w1)) as [r2 [x2 w2]] eqn:E2.
  intros; simplify_eq. eauto.
Qed.

End state_inv.

(** With a faithful encoding, a step that returns a state and succeeds leaves
    the executor in that state. *)
Section recorded.
Hypothesis Hyaml : yaml_roundtrip.
Hypothesis Hmarshal : ∀ st : OpState, is_ok (yaml_Marshal st) = true.

Lemma OpState_match_eq st st' : OpState_match st st' = true → st = st'.
Proof using Hyaml Hmarshal.
  unfold OpState_match, yaml_text. intros Hm%bool_decide_eq_true.
  pose proof (Hmarshal st) as H1. pose proof (Hmarshal st') as H2.
  destruct (yaml_Marshal st) eqn:E1, (yaml_Marshal st') eqn:E2; try done. subst.
  apply Hyaml in E1 as [_ E1]. apply Hyaml in E2 as [_ E2]. congruence.
Qed.

Lemma executor_do_ok {F} (op : Operation F W) step st x f w x' f' w' :
  x_state x = Some st →
  executor_do rw op step (x, (f, w)) = (Ok (), (x', (f', w'))) →
  ∃ ns w1, step_run step op st (f, w) = ((ns, None), (f', w1)) ∧
    match ns with Some ns => x_state x' = Some ns | None => x' = x end.
Proof using Hyaml Hmarshal.
  intros Hx. unfold executor_do, executor_State. rewrite Hx.
  destruct (step_run step op st (f, w)) as [[[ns|] [fe|]] [f1 w1]] eqn:E.
  - destruct (executor_writeState rw ns (x, w1)) as [? [? ?]]. intros. simplify_eq.
  - destruct (executor_writeState rw ns (x, w1)) as [[[]|] [x2 w2]] eqn:E2;
      intros; simplify_eq. eexists (Some ns), _. split; [done|].
    revert E2. unfold executor_writeState. munfold.
    destruct (OpState_Validate ns); [|done]. simpl. rewrite Hx.
    destruct (OpState_match st ns) eqn:Hm.
    + intros. simplify_eq. rewrite Hx. f_equal. by apply OpState_match_eq.
    + unfold zoom. simpl. destruct (StateOps_Write rw ns _) as [[[]|] ?];
        intros; by simplify_eq.
  - intros. simplify_eq.
  - intros. simplify_eq. by eexists None, _.
Qed.

(** An operation that ran to its end left what its commit returned, from a
    state that satisfies its invariant. *)
Lemma executor_Run_committed {F} (Q : OpState → Prop) (op : Operation F W) x w x' w' :
  (∀ step st s ns e s', Q st → step_run step op st s = ((Some ns, e), s') → Q ns) →
  holds Q x → executor_Run rw acquire op (x, w) = (Ok (), (x', w')) →
  ∃ st f w1 ns f2 w2, Q st ∧ step_run stepCommit op st (f, w1) = ((ns, None), (f2, w2))
    ∧ x_state x' = Some (default st ns).
Proof using Hyaml Hmarshal.
  intros HQ Hx.
  assert (∀ x f w f' w', holds Q x →
    executor_do rw op stepCommit (x, (f, w)) = (Ok (), (x', (f', w'))) →
    ∃ st f w1 ns f2 w2, Q st ∧ step_run stepCommit op st (f, w1) = ((ns, None), (f2, w2))
      ∧ x_state x' = Some (default st ns)) as Hdo.
  { intros x0 f w0 f' w0' (st & Hst & Hq) H.
    apply executor_do_ok with (st:=st) in H as (ns & w1 & H & E); [|done].
    eexists _, _, _, _, _, _. split_and!; [done..|].
    destruct ns; [done|]. by subst. }
  assert (∀ w f w', executor_steps rw op (x, (op_init op, w)) = (Ok (), (x', (f, w'))) →
    ∃ st f w1 ns f2 w2, Q st ∧ step_run stepCommit op st (f, w1) = ((ns, None), (f2, w2))
      ∧ x_state x' = Some (default st ns)) as Hsteps.
  { intros w0 f w0'. unfold executor_steps, try, mbind, M_bind, throw.
    destruct (executor_do rw op stepPrepare _) as [r1 [x1 [f1 w1]]] eqn:E1.
    pose proof (executor_do_holds Q op HQ _ _ _ _ _ _ _ _ Hx E1) as Hx1.
    destruct r1 as [[]|e].
    - destruct (executor_do rw op stepExecute _) as [[[]|e2] [x2 [f2 w2]]] eqn:E2;
        [|done]. pose proof (executor_do_holds Q op HQ _ _ _ _ _ _ _ _ Hx1 E2). eauto.
    - destruct e; try case_decide; intros; simplify_eq; eauto. }
  unfold executor_Run, with_fields, mbind, M_bind, zoom, defer_release. simpl.
  destruct (op_NeedsGlobalMachineLock op).
  - cbn [fst snd]. destruct (acquire (op_String op) (op_ExecutionGroup op) w)
      as [[rel|e] w1]; [|by intros; simplify_eq]. simpl.
    destruct (executor_steps rw op _) as [r2 [x2 [f2 w2]]] eqn:E2.
    intros. simplify_eq. eauto.
  - destruct (executor_steps rw op _) as [r2 [x2 [f2 w2]]] eqn:E2.
    intros. simplify_eq. eauto.
Qed.
End recorded.

(** An upgrade's states carry the hook it interrupted. *)
Definition carries_hook (hi : hook.Info) (st0 st : OpState) : Prop :=
  (Kind st = RunHook ∨ Kind st = Upgrade) ∧ Hook st = Some hi
  ∧ HookStep st = HookStep st0 ∧ lifecycle st = lifecycle st0.

Lemma carries_hook_interrupted hi st0 st :
  carries_hook hi st0 st → deploy_interruptedHook st = Some hi.
Proof. intros ([E|E] & Hh & _); unfold deploy_interruptedHook; by rewrite E. Qed.

Lemma upgrade_carries_hook cb dep url revert resolved hi st0 step st
    (s : OpFields W * W) ns e s' :
  carries_hook hi st0 st →
  step_run step (deploy cb dep Upgrade url revert resolved) st s = ((Some ns, e), s') →
  carries_hook hi st0 ns.
Proof.
  intros Hc. pose proof (carries_hook_interrupted _ _ _ Hc) as Hi.
  destruct Hc as (Hk & Hh & Hs & Hl).
  destruct step; simpl; intros H%simple_step_Some;
    unfold deploy_Prepare, deploy_Execute, deploy_Commit in H; minv;
    unfold carries_hook; simpl; rewrite ?Hi; simpl; split_and!; auto;
    unfold lifecycle; simpl; congruence.
Qed.

(** A charm upgrade never loses the hook it interrupted.  If the unit was
    running (or was to run) a hook, then after running an upgrade operation,
    whether it succeeds, conflicts or fails at any step, the recorded state
    still carries the same hook with the same hook step, as the hook to return
    to, and the same lifecycle flags. *)
Theorem upgrade_keeps_interrupted_hook cb dep url revert resolved hi st x w r x' w' :
  x_state x = Some st → Kind st = RunHook ∨ Kind st = Upgrade →
  Hook st = Some hi →
  executor_Run rw acquire (deploy cb dep Upgrade url revert resolved) (x, w)
    = (r, (x', w')) →
  ∃ st', x_state x' = Some st' ∧ (Kind st' = RunHook ∨ Kind st' = Upgrade)
    ∧ Hook st' = Some hi ∧ HookStep st' = HookStep st
    ∧ lifecycle st' = lifecycle st.
Proof.
  intros Hx Hk Hh.
  intros H. eapply (executor_Run_holds (carries_hook hi st)) in H as (st' & ? & ?);
    [by exists st'|by eapply upgrade_carries_hook|by exists st].
Qed.

(** ** Two ways in which a hook goes wrong *)

(** Committing a secret-rotate hook that was not prepared dereferences the
    nil runner.  It happens when the hook is skipped (an operator resolves the
    failed hook without retrying it, or the agent restarts before the commit),
    and when leadership is lost between queueing and running the rotation of an
    application-owned secret: [Prepare] then returns before it stores the
    runner, and the executor goes on to [Commit]. *)
Theorem secret_rotate_commit_without_runner cb rf info st x w w1 :
  hook.Kind info = hooks.SecretRotate → x_state x = Some st →
  cb_CommitHook cb info w = (Ok (), w1) →
  (executor_Run rw acquire (skipOperation (runHook cb rf info)) (x, w)).1
    = Err (GoPanic "nil pointer dereference")
  ∧ (∀ rnr md id m,
      cb_PrepareHook cb info w = (Ok "secret-rotate", w) →
      rf_NewHookRunner rf info w = (Ok rnr, w) →
      ctx_SecretMetadata (rnr_Context rnr) w = (Ok md, w) →
      ParseURI (hook.SecretURI info) = Some id → md !! id = Some m →
      sm_OwnerIsUnit m = false →
      ctx_IsLeader (rnr_Context rnr) w = (Ok false, w) →
      (with_fields (runHook cb rf info)
         (executor_steps rw (runHook cb rf info)) (x, w)).1
        = Err (GoPanic "nil pointer dereference")).
Proof.
  intros Hk Hx Hc.
  assert (∀ op f, op_Commit op = simple_step (runHook_Commit cb info) →
    f_runner f = None →
    executor_do rw op stepCommit (x, (f, w))
    = (Err (GoPanic "nil pointer dereference"), (x, (f, w1)))) as Hcommit.
  { intros op f Hop Hf. unfold executor_do, executor_State. rewrite Hx. simpl.
    rewrite Hop. unfold simple_step, runHook_Commit, runHook_commitChange, liftW.
    unfold op_runner.
    rewrite Hk. munfold. rewrite Hc. simpl. by rewrite Hf. }
  split.
  - unfold executor_Run, with_fields, executor_steps. simpl. munfold.
    unfold executor_do at 1, executor_State. rewrite Hx. simpl.
    by rewrite ?Hcommit.
  - intros rnr md id m Hp Hr Hm Hu Hmd Ho Hl.
    unfold with_fields, executor_steps. munfold.
    assert (executor_do rw (runHook cb rf info) stepPrepare (x, (no_fields, w))
      = (Err ErrSkipExecute, (x, (no_fields, w)))) as ->.
    { unfold executor_do, executor_State. rewrite Hx. simpl.
      unfold simple_step, runHook_Prepare, runHook_leaderNeeded, liftW. munfold.
      rewrite Hp. simpl. rewrite Hr. simpl. rewrite Hm. simpl.
      rewrite Hu, Hmd, Ho. simpl. rewrite Hl. done. }
    simpl. by rewrite Hcommit.
Qed.

End runs.

End facts.
