(* ===== verification/RelationState.v ===== *)
(** * The state of one relation

    internal/worker/uniter/relation/state.go: what the unit agent remembers of
    a relation, which hooks may run next, and how a committed hook changes it.
    Hooks are validated against this state before they run, which is how the
    agent keeps its guarantees about the order of relation hooks. *)

From S2P Require Import Prelude Hooks.
Import hooks hook.

(** ** state.go *)

(** [relation.State].  A Go map may be nil, which is [None]: reading it finds
    nothing and writing to it panics. *)
Record RelState : Type := MkRelState {
  rs_RelationId : Z;
  rs_Members : option (gmap string Z);
  rs_ApplicationMembers : option (gmap string Z);
  rs_ChangedPending : string;
}.

#[global] Instance RelState_eq_dec : EqDecision RelState.
Proof. solve_decision. Defined.

(** Reading a map that may be nil. *)
Definition members (s : RelState) : gmap string Z := default ∅ (rs_Members s).
Definition appMembers (s : RelState) : gmap string Z :=
  default ∅ (rs_ApplicationMembers s).

Definition NewRelState (relationId : Z) : RelState :=
  MkRelState relationId (Some ∅) (Some ∅) "".

(** [State.Validate] *)
Definition RelState_Validate (s : RelState) (hi : Info) : result () :=
  if decide (RelationId hi ≠ rs_RelationId s) then
    Err (ErrNew "expected relation %d, got relation %d")
  else if decide (rs_Members s = None) then
    Err (ErrNew "relation is broken and cannot be changed further")
  else if decide (Kind hi = RelationBroken) then
    if decide (members s = ∅) then Ok ()
    else Err (ErrNew "cannot run relation-broken while units still present")
  else if decide (rs_ChangedPending s ≠ "") then
    if decide (RemoteUnit hi ≠ rs_ChangedPending s ∨ Kind hi ≠ RelationChanged)
    then Err (ErrNew "expected relation-changed for %q")
    else Ok ()
  else if decide (RemoteUnit hi = "") then Ok ()
  else match members s !! RemoteUnit hi with
  | Some _ =>
      if decide (Kind hi = RelationJoined) then
        Err (ErrNew "unit already joined")
      else Ok ()
  | None =>
      if decide (Kind hi ≠ RelationJoined) then
        Err (ErrNew "unit has not joined")
      else Ok ()
  end.

(** [m[k] = v] for a map that may be nil. *)
Definition map_assign (m : option (gmap string Z)) (k : string) (v : Z) :
    result (option (gmap string Z)) :=
  match m with
  | Some m => Ok (Some (<[k := v]> m))
  | None => Err (GoPanic "assignment to entry in nil map")
  end.

(** [State.UpdateStateForHook] *)
Definition RelState_UpdateStateForHook (s : RelState) (hi : Info) : result RelState :=
  if decide (Kind hi = RelationBroken) then Ok s
  else
    let isApp := bool_decide (RemoteUnit hi = "") in
    if decide (Kind hi = RelationDeparted) then
      if isApp then
        Ok (MkRelState (rs_RelationId s) (rs_Members s)
              (delete (RemoteApplication hi) <$> rs_ApplicationMembers s)
              (rs_ChangedPending s))
      else
        Ok (MkRelState (rs_RelationId s)
              (delete (RemoteUnit hi) <$> rs_Members s)
              (rs_ApplicationMembers s) (rs_ChangedPending s))
    else
      let pending :=
        if decide (Kind hi = RelationJoined) then RemoteUnit hi else "" in
      if isApp then
        am ← map_assign (rs_ApplicationMembers s) (RemoteApplication hi)
               (ChangeVersion hi);
        Ok (MkRelState (rs_RelationId s) (rs_Members s) am pending)
      else
        m ← map_assign (rs_Members s) (RemoteUnit hi) (ChangeVersion hi);
        Ok (MkRelState (rs_RelationId s) m (rs_ApplicationMembers s) pending).

(** [State.UnmarshalYAML], after the YAML library has filled the struct. *)
Definition RelState_fill_nil (sc : RelState) : RelState :=
  MkRelState (rs_RelationId sc)
    (Some (default ∅ (rs_Members sc)))
    (Some (default ∅ (rs_ApplicationMembers sc)))
    (rs_ChangedPending sc).

(** [State.copy] *)
Definition RelState_copy (s : RelState) : RelState :=
  MkRelState (rs_RelationId s) (Some (members s)) (Some (appMembers s))
    (rs_ChangedPending s).

(** Hooks that are validated before they run and recorded after, in order. *)
Fixpoint apply_hooks (s : RelState) (his : list Info) : result RelState :=
  match his with
  | [] => Ok s
  | hi :: his' =>
      _ ← RelState_Validate s hi;
      s' ← RelState_UpdateStateForHook s hi;
      apply_hooks s' his'
  end.

(** ** Well-formed states *)

(** What holds of every state the agent builds: maps are not nil, a pending
    relation-changed is for a unit that has joined, and no unit has the empty
    name. *)
Record RelState_wf (s : RelState) : Prop := {
  wf_members : rs_Members s = Some (members s);
  wf_apps : rs_ApplicationMembers s = Some (appMembers s);
  wf_pending : rs_ChangedPending s ≠ "" →
    is_Some (members s !! rs_ChangedPending s);
  wf_names : members s !! "" = None;
}.

(** ** The order of relation hooks

    Where one remote unit stands, seen from the local unit. *)
Inductive uphase : Type := Absent | JustJoined | Present.

Definition phase (s : RelState) (u : string) : uphase :=
  match members s !! u with
  | None => Absent
  | Some _ => if decide (rs_ChangedPending s = u) then JustJoined else Present
  end.

(** The life of a remote unit: it joins, is reported changed at once, may be
    reported changed again, and departs; then it may come back. *)
Inductive unit_step : HookKind → uphase → uphase → Prop :=
| unit_joins : unit_step RelationJoined Absent JustJoined
| unit_first_changed : unit_step RelationChanged JustJoined Present
| unit_changed : unit_step RelationChanged Present Present
| unit_departs : unit_step RelationDeparted Present Absent.

(** A sequence of hooks of one unit. *)
Inductive unit_path : list HookKind → uphase → uphase → Prop :=
| unit_path_nil p : unit_path [] p p
| unit_path_cons k ks p q r :
    unit_step k p q → unit_path ks q r → unit_path (k :: ks) p r.

(** A relation hook as the agent makes it: a relation-joined or
    relation-departed names a unit, a relation-changed may, the hooks of the
    relation as a whole do not. *)
Definition relation_hook (hi : Info) : Prop :=
  match Kind hi with
  | RelationJoined | RelationDeparted => RemoteUnit hi ≠ ""
  | RelationChanged => True
  | RelationCreated | RelationBroken => RemoteUnit hi = ""
  | _ => False
  end.

Lemma NewRelState_wf id : RelState_wf (NewRelState id).
Proof. by split. Qed.

Lemma members_mk id m am p : members (MkRelState id (Some m) am p) = m.
Proof. done. Qed.

Lemma RelState_copy_id s : RelState_wf s → RelState_copy s = s.
Proof.
  intros [Hm Ha _ _]. destruct s as [id m am p]. unfold RelState_copy; simpl in *.
  by rewrite <- Hm, <- Ha.
Qed.

Lemma RelState_fill_nil_id s : RelState_wf s → RelState_fill_nil s = s.
Proof. apply RelState_copy_id. Qed.

(** What a successful update does, as one equation per field. *)
Lemma RelState_Update_wf_eq s hi :
  RelState_wf s →
  RelState_UpdateStateForHook s hi =
  Ok (if decide (Kind hi = RelationBroken) then s
      else if decide (Kind hi = RelationDeparted) then
        if decide (RemoteUnit hi = "") then
          MkRelState (rs_RelationId s) (Some (members s))
            (Some (delete (RemoteApplication hi) (appMembers s)))
            (rs_ChangedPending s)
        else
          MkRelState (rs_RelationId s)
            (Some (delete (RemoteUnit hi) (members s)))
            (Some (appMembers s)) (rs_ChangedPending s)
      else
        let pending := if decide (Kind hi = RelationJoined) then RemoteUnit hi else "" in
        if decide (RemoteUnit hi = "") then
          MkRelState (rs_RelationId s) (Some (members s))
            (Some (<[RemoteApplication hi := ChangeVersion hi]> (appMembers s)))
            pending
        else
          MkRelState (rs_RelationId s)
            (Some (<[RemoteUnit hi := ChangeVersion hi]> (members s)))
            (Some (appMembers s)) pending).
Proof.
  intros [Hm Ha _ _]. unfold RelState_UpdateStateForHook.
  rewrite Hm, Ha. unfold mbind, result_bind. simpl.
  repeat (case_bool_decide || case_decide); done.
Qed.

(** Inversion of validation, for the hooks that are not relation-broken. *)
Lemma RelState_Validate_inv s hi :
  RelState_Validate s hi = Ok () → Kind hi ≠ RelationBroken →
  RelationId hi = rs_RelationId s ∧
  (rs_ChangedPending s ≠ "" →
     RemoteUnit hi = rs_ChangedPending s ∧ Kind hi = RelationChanged) ∧
  (rs_ChangedPending s = "" → RemoteUnit hi ≠ "" →
     (is_Some (members s !! RemoteUnit hi) ↔ Kind hi ≠ RelationJoined)).
Proof.
  unfold RelState_Validate. intros H Hk.
  case_decide as Hid; [done|]. case_decide; [done|].
  rewrite decide_False in H by done. case_decide as Hp.
  { case_decide; [done|]. split_and!; [done|intros _|done].
    split; apply dec_stable; tauto. }
  split_and!; [done|done|]. intros _ Hu. rewrite decide_False in H by done.
  destruct (members s !! RemoteUnit hi) eqn:E; case_decide; try done.
Qed.

(** The converse, for well-formed states. *)
Lemma RelState_Validate_intro s hi :
  RelState_wf s → Kind hi ≠ RelationBroken →
  RelationId hi = rs_RelationId s →
  (rs_ChangedPending s ≠ "" →
     RemoteUnit hi = rs_ChangedPending s ∧ Kind hi = RelationChanged) →
  (rs_ChangedPending s = "" → RemoteUnit hi ≠ "" →
     (is_Some (members s !! RemoteUnit hi) ↔ Kind hi ≠ RelationJoined)) →
  RelState_Validate s hi = Ok ().
Proof.
  intros Hwf Hk Hid Hp Hu. unfold RelState_Validate.
  rewrite decide_False by tauto.
  rewrite decide_False by (rewrite wf_members by done; done).
  rewrite decide_False by done.
  destruct (decide (rs_ChangedPending s ≠ "")) as [Hp0|Hp0].
  - destruct (Hp Hp0). rewrite decide_False; [done|]. tauto.
  - case_decide as Hr; [done|]. apply dec_stable in Hp0. specialize (Hu Hp0 Hr).
    destruct (members s !! RemoteUnit hi); case_decide; try done; exfalso.
    + by destruct Hu as [Hu _]; apply Hu.
    + by destruct Hu as [_ Hu]; destruct Hu.
Qed.

Lemma RelState_update_wf s hi s' :
  RelState_wf s → RelState_Validate s hi = Ok () →
  RelState_UpdateStateForHook s hi = Ok s' → RelState_wf s'.
Proof.
  intros Hwf HV HU. rewrite RelState_Update_wf_eq in HU by done. simplify_eq.
  case_decide as Hb; [done|].
  destruct (RelState_Validate_inv _ _ HV Hb) as (_ & Hp & Hu).
  destruct Hwf as [Hm Ha Hpend Hn].
  repeat case_decide; (split; simpl; rewrite ?members_mk; try done).
  - (* departed *) intros Hne. destruct (Hp Hne). congruence.
  - rewrite lookup_delete_None. auto.
  - (* joined *) by rewrite lookup_insert_eq.
  - by rewrite lookup_insert_ne.
  - by rewrite lookup_insert_ne.
Qed.


(** ** Theorems *)

Lemma RelState_step_phase s hi s' u :
  RelState_wf s → relation_hook hi → RelState_Validate s hi = Ok () →
  RelState_UpdateStateForHook s hi = Ok s' → u ≠ "" →
  if decide (RemoteUnit hi = u) then unit_step (Kind hi) (phase s u) (phase s' u)
  else phase s' u = phase s u.
Proof.
  intros Hwf Hrel HV HU Hu. rewrite RelState_Update_wf_eq in HU by done.
  unfold relation_hook in Hrel.
  simplify_eq. destruct (decide (Kind hi = RelationBroken)) as [Hb|Hb].
  { rewrite Hb in Hrel. case_decide; congruence. }
  destruct (RelState_Validate_inv _ _ HV Hb) as (_ & Hp & Hm).
  destruct Hwf as [_ _ Hpend Hn].
  destruct (decide (RemoteUnit hi = u)) as [<-|Hne].
  - assert (Kind hi = RelationJoined ∨ Kind hi = RelationChanged
            ∨ Kind hi = RelationDeparted) as Hk3 by (destruct (Kind hi); tauto).
    clear Hrel. destruct (decide (rs_ChangedPending s = "")) as [Hp0|Hp0].
    + specialize (Hm Hp0 Hu).
      destruct Hk3 as [Hk|[Hk|Hk]]; rewrite Hk in *; simpl;
        unfold phase; simpl; rewrite ?members_mk, ?Hp0;
        rewrite ?(decide_False (P:=RemoteUnit hi = "")) by done; simpl;
        rewrite ?members_mk, ?lookup_insert_eq, ?lookup_delete_eq; simpl.
      * destruct (members s !! RemoteUnit hi); [naive_solver|].
        rewrite decide_True by done. constructor.
      * destruct (members s !! RemoteUnit hi); [|naive_solver].
        rewrite !decide_False by done. constructor.
      * destruct (members s !! RemoteUnit hi); [|naive_solver].
        rewrite !decide_False by done. constructor.
    + destruct (Hp Hp0) as [Heq Hk]. rewrite Hk. simpl. unfold phase.
      rewrite Heq in *. destruct (Hpend Hp0) as [v Hv]. rewrite Hv.
      rewrite (decide_True (P:=rs_ChangedPending s = _)) by done.
      rewrite decide_False by done. simpl. rewrite members_mk, lookup_insert_eq.
      rewrite decide_False by done. constructor.
  - unfold phase.
    repeat case_decide; simpl in *; rewrite ?members_mk in *;
      rewrite ?lookup_insert_ne, ?lookup_delete_ne by done; try done;
      destruct (members s !! u); try done; exfalso; subst; naive_solver.
Qed.

Lemma apply_hooks_cons s hi his s' :
  RelState_wf s → apply_hooks s (hi :: his) = Ok s' →
  ∃ s1, RelState_Validate s hi = Ok () ∧ RelState_UpdateStateForHook s hi = Ok s1
        ∧ RelState_wf s1 ∧ apply_hooks s1 his = Ok s'.
Proof.
  intros Hwf. simpl. unfold mbind, result_bind.
  destruct (RelState_Validate s hi) as [[]|] eqn:HV; [|done].
  destruct (RelState_UpdateStateForHook s hi) as [s1|] eqn:HU; [|done].
  intros. exists s1. eauto using RelState_update_wf.
Qed.

(** Relation states stay well formed and recording never fails.  From
    [NewState], a sequence of hooks that are each validated before they run and
    recorded after either leaves a state whose maps exist, whose unit owed a
    relation-changed is a member and whose members all have a name, or stops at
    a hook that [State.Validate] refuses; [UpdateStateForHook] never panics on
    a nil map. *)
Theorem relation_state_well_formed id his :
  match apply_hooks (NewRelState id) his with
  | Ok s => RelState_wf s
  | Err e => ∃ pre hi post s, his = pre ++ hi :: post
      ∧ apply_hooks (NewRelState id) pre = Ok s
      ∧ RelState_Validate s hi = Err e
  end.
Proof.
  generalize (NewRelState_wf id). generalize (NewRelState id).
  induction his as [|hi his IH]; intros s Hwf; [done|].
  simpl. unfold mbind, result_bind.
  destruct (RelState_Validate s hi) as [[]|e] eqn:HV;
    [|by exists [], hi, his, s].
  pose proof (RelState_Update_wf_eq s hi Hwf) as HU. rewrite HU.
  specialize (IH _ (RelState_update_wf _ _ _ Hwf HV HU)).
  destruct (apply_hooks _ his); [done|].
  destruct IH as (pre & hi' & post & s1 & -> & Hpre & ?).
  exists (hi :: pre), hi', post, s1. split_and!; [done| |done].
  simpl. unfold mbind, result_bind. by rewrite HV, HU.
Qed.

(** The hooks of a remote unit follow the relation protocol.  Take any run
    of validated relation hooks; the hooks that name a given remote unit are a
    path of its life cycle: joined when absent, then changed, then any number
    of changed, then departed, and so on; from the phase the state showed
    before to the phase it shows after. *)
Theorem relation_hooks_follow_unit_life s his s' u :
  RelState_wf s → Forall relation_hook his → u ≠ "" →
  apply_hooks s his = Ok s' →
  unit_path (Kind <$> filter (λ hi, RemoteUnit hi = u) his) (phase s u) (phase s' u).
Proof.
  intros Hwf Hall Hu. revert s Hwf. induction Hall as [|hi his Hhi Hall IH];
    intros s Hwf H; [simplify_eq/=; constructor|].
  apply apply_hooks_cons in H as (s1 & HV & HU & Hwf1 & H); [|done].
  pose proof (RelState_step_phase _ _ _ u Hwf Hhi HV HU Hu) as Hstep.
  specialize (IH _ Hwf1 H). rewrite filter_cons.
  case_decide; simpl; [by econstructor|by rewrite <- Hstep].
Qed.

Lemma apply_hooks_app s pre post :
  apply_hooks s (pre ++ post) = s1 ← apply_hooks s pre; apply_hooks s1 post.
Proof.
  revert s. induction pre as [|hi pre IH]; intros s; [done|]. simpl.
  unfold mbind, result_bind in *.
  destruct (RelState_Validate s hi); [|done].
  destruct (RelState_UpdateStateForHook s hi); [|done]. apply IH.
Qed.

Lemma apply_hooks_wf s his s' :
  RelState_wf s → apply_hooks s his = Ok s' → RelState_wf s'.
Proof.
  revert s. induction his as [|hi his IH]; intros s Hwf H; [by simplify_eq/=|].
  apply apply_hooks_cons in H as (s1 & _ & _ & Hwf1 & H); eauto.
Qed.

(** In a run of validated relation hooks, a relation-joined is followed at
    once, before any other hook of the relation, by the relation-changed of the
    same unit; and a relation-broken comes only when no unit is left in the
    relation. *)
Theorem relation_hooks_guaranteed_order s pre hi next post s' :
  RelState_wf s → Forall relation_hook (pre ++ hi :: next :: post) →
  apply_hooks s (pre ++ hi :: next :: post) = Ok s' →
  (Kind hi = RelationJoined →
     Kind next = RelationChanged ∧ RemoteUnit next = RemoteUnit hi)
  ∧ ∃ s1, apply_hooks s pre = Ok s1 ∧
     (Kind hi = RelationBroken → ∀ u, phase s1 u = Absent).
Proof.
  intros Hwf Hall H. rewrite apply_hooks_app in H.
  destruct (apply_hooks s pre) as [s1|] eqn:Hpre; [|done]. cbn [mbind result_bind] in H.
  assert (RelState_wf s1) as Hwf1 by eauto using apply_hooks_wf.
  apply Forall_app in Hall as [_ [Hhi Hnext]%Forall_cons_1].
  apply apply_hooks_cons in H as (s2 & HV & HU & Hwf2 & H); [|done].
  apply apply_hooks_cons in H as (s3 & HV2 & _ & _ & _); [|done]. split.
  - intros Hk. unfold relation_hook in Hhi. rewrite Hk in Hhi.
    rewrite RelState_Update_wf_eq, Hk in HU by done. simpl in HU.
    rewrite decide_False in HU by done. simplify_eq.
    unfold RelState_Validate in HV2. simpl in HV2. rewrite members_mk in HV2.
    repeat case_decide; try done.
    + by destruct (insert_non_empty (M:=gmap string) (members s1) (RemoteUnit hi)
                     (ChangeVersion hi)).
    + split; apply dec_stable; tauto.
  - exists s1. split; [done|]. intros Hk u. unfold RelState_Validate in HV.
    unfold phase. repeat case_decide; try done.
    all: by match goal with H : members _ = ∅ |- _ => rewrite H end.
Qed.

(** [UpdateStateForHook] is idempotent: recording the same hook again
    changes nothing. *)
Theorem UpdateStateForHook_idempotent s hi s' :
  RelState_UpdateStateForHook s hi = Ok s' →
  RelState_UpdateStateForHook s' hi = Ok s'.
Proof.
  unfold RelState_UpdateStateForHook. case_decide; [naive_solver|].
  case_decide; [|]; case_bool_decide; try case_decide; intros H'; simplify_eq/=.
  - destruct (rs_ApplicationMembers s); simpl; [|done]. by rewrite delete_delete_eq.
  - destruct (rs_Members s); simpl; [|done]. by rewrite delete_delete_eq.
  - destruct (rs_ApplicationMembers s); simplify_eq/=. by rewrite insert_insert_eq.
  - destruct (rs_ApplicationMembers s); simplify_eq/=. by rewrite insert_insert_eq.
  - destruct (rs_Members s); simplify_eq/=. by rewrite insert_insert_eq.
  - destruct (rs_Members s); simplify_eq/=. by rewrite insert_insert_eq.
Qed.
