(* ===== verification/RelationManager.v ===== *)
(** * The relation state manager

    internal/worker/uniter/relation/statemanager.go: the states of all the
    relations of the unit, kept in memory and, as YAML texts, on the
    controller.  [StateManager] is the interface its clients use and
    [StateManagerSpec] what it promises them. *)

From S2P Require Import Prelude Hooks RelationState.

(** ** interface.go *)

(** [UnitStateReadWriter], restricted to the [RelationState] field. *)
Record UnitRelationRW (W : Type) : Type := MkUnitRelationRW {
  rrw_State : M W (gmap Z string);
  rrw_SetState : gmap Z string → M W ();
}.
Arguments rrw_State {W} _.
Arguments rrw_SetState {W} _ _.

(** [StateManager].  [RemoveRelation] looks up units in [knownUnits] and adds
    to it; the extended map is the result. *)
Record StateManager (W : Type) : Type := MkStateManager {
  sm_Relation : Z → M W RelState;
  sm_RemoveRelation : Z → gmap string bool → M W (gmap string bool);
  sm_KnownIDs : M W (list Z);
  sm_SetRelation : RelState → M W ();
  sm_RelationFound : Z → M W bool;
}.
Arguments sm_Relation {W} _ _.
Arguments sm_RemoveRelation {W} _ _ _.
Arguments sm_KnownIDs {W} _.
Arguments sm_SetRelation {W} _ _.
Arguments sm_RelationFound {W} _ _.

(** ** statemanager.go *)

Section stateManager.
Context {NM : Names} {YR : Yaml RelState} {W : Type} {MO : MapOrder W}
  (L : lens W (gmap Z RelState)) (rw : UnitRelationRW W)
  (getUnit : string → M W ()).

Definition stateManager_Relation (id : Z) : M W RelState :=
  m ← gets (view L);
  match m !! id with
  | Some s => mret (RelState_copy s)
  | None => throw (NotFound "relation %d")
  end.

Definition stateManager_RelationFound (id : Z) : M W bool :=
  look L (λ m, bool_decide (is_Some (m !! id))).

Definition stateManager_KnownIDs : M W (list Z) :=
  gets (λ w, range w (map_to_list (view L w)).*1).

(** [State.YamlString], and unmarshalling through [State.UnmarshalYAML]. *)
Definition RelState_YamlString (s : RelState) : result string := yaml_Marshal s.
Definition RelState_Unmarshal (text : string) : result RelState :=
  sc ← yaml_Unmarshal text; Ok (RelState_fill_nil sc).

(** The loop of [stateToPersist]. *)
Fixpoint persist_loop (l : list (Z * RelState)) (newSt : gmap Z string) :
    result (gmap Z string) :=
  match l with
  | [] => Ok newSt
  | (k, v) :: l' =>
      str ← RelState_YamlString v;
      persist_loop l' (<[k := str]> newSt)
  end.

Definition stateManager_stateToPersist : M W (gmap Z string) :=
  w ← get;
  lift_result (persist_loop (range w (map_to_list (view L w))) ∅).

Definition stateManager_write (st : RelState) : M W () :=
  newSt ← stateManager_stateToPersist;
  str ← lift_result (RelState_YamlString st);
  rrw_SetState rw (<[rs_RelationId st := str]> newSt).

Definition stateManager_remove (id : Z) : M W () :=
  newSt ← stateManager_stateToPersist;
  rrw_SetState rw (delete id newSt).

Definition stateManager_SetRelation (st : RelState) : M W () :=
  _ ← stateManager_write st;
  over L (insert (rs_RelationId st) st).

(** [unitGetter.Unit(ctx, names.NewUnitTag(unitName))]: making a tag of an
    invalid name panics. *)
Definition unit_exists (unitName : string) : M W bool :=
  if negb (IsValidUnit unitName) then
    throw (GoPanic "%q is not a valid unit name")
  else
    r ← try (getUnit unitName);
    match r with
    | Ok _ => mret true
    | Err e => if IsCodeNotFoundOrCodeUnauthorized e then mret false else throw e
    end.

(** The loop of [RemoveRelation] over the members. *)
Fixpoint known_members (l : list (string * Z)) (knownUnits : gmap string bool)
    (knownMembers : gset string) : M W (gmap string bool * gset string) :=
  match l with
  | [] => mret (knownUnits, knownMembers)
  | (unitName, _) :: l' =>
      '(unitExists, knownUnits) ←
        match knownUnits !! unitName with
        | Some b => mret (b, knownUnits)
        | None =>
            b ← unit_exists unitName;
            mret (b, <[unitName := b]> knownUnits)
        end;
      if negb unitExists then known_members l' knownUnits knownMembers
      else known_members l' knownUnits ({[unitName]} ∪ knownMembers)
  end.

Definition stateManager_RemoveRelation (id : Z) (knownUnits : gmap string bool) :
    M W (gmap string bool) :=
  m ← gets (view L);
  match m !! id with
  | None => throw (NotFound "relation %d")
  | Some st =>
      w ← get;
      '(knownUnits, knownMembers) ←
        known_members (range w (map_to_list (members st))) knownUnits ∅;
      if decide (size knownMembers ≠ 0) then
        throw (ErrNew "cannot remove persisted state, relation %d has members: %v")
      else
        _ ← stateManager_remove id;
        _ ← over L (delete id);
        mret knownUnits
  end.

(** [initialize]; a unit without saved state reads as NotFound. *)
Definition stateManager_initialize : M W () :=
  r ← try (rrw_State rw);
  unitState ← match r with
              | Ok m => mret m
              | Err (NotFound _) => mret ∅
              | Err e => throw e
              end;
  _ ← over L (λ _, ∅);
  w ← get;
  for_each (range w (map_to_list unitState)) (λ '(k, v),
    state ← lift_result (RelState_Unmarshal v);
    over L (insert k state)).

(** [NewStateManager] *)
Definition NewStateManager : M W (StateManager W) :=
  _ ← stateManager_initialize;
  mret (MkStateManager W stateManager_Relation stateManager_RemoveRelation
          stateManager_KnownIDs stateManager_SetRelation
          stateManager_RelationFound).

End stateManager.

(** ** What the manager promises *)

(** The manager is a map of relation states: reading gives a copy of what is
    there, and a write takes effect exactly when it reports success. *)
Class StateManagerSpec {W} (sm : StateManager W) (states : W → gmap Z RelState) :
    Prop := {
  Relation_spec id w :
    sm_Relation sm id w =
    (match states w !! id with
     | Some s => Ok (RelState_copy s)
     | None => Err (NotFound "relation %d")
     end, w);
  RelationFound_spec id w :
    sm_RelationFound sm id w = (Ok (bool_decide (is_Some (states w !! id))), w);
  KnownIDs_spec w :
    ∃ ids, sm_KnownIDs sm w = (Ok ids, w) ∧ ids ≡ₚ (map_to_list (states w)).*1;
  SetRelation_spec st w r w' :
    sm_SetRelation sm st w = (r, w') →
    states w' = if is_ok r then <[rs_RelationId st := st]> (states w) else states w;
  RemoveRelation_spec id known w r w' :
    sm_RemoveRelation sm id known w = (r, w') →
    states w' = if is_ok r then delete id (states w) else states w;
  RemoveRelation_missing id known w :
    states w !! id = None →
    sm_RemoveRelation sm id known w = (Err (NotFound "relation %d"), w);
}.

(** ** Proofs *)

Section proofs.
Context {NM : Names} {YR : Yaml RelState} {W : Type} {MO : MapOrder W}
  {MOL : MapOrderLaws W}
  (L : lens W (gmap Z RelState)) {LL : LensLaws L} (rw : UnitRelationRW W)
  (getUnit : string → M W ()).

Section keeps.
Context {U : Type} (g : W → U).
Hypothesis Hunits : ∀ u, keeps g (getUnit u).

Lemma unit_exists_keeps u : keeps g (unit_exists getUnit u).
Proof.
  unfold unit_exists. destruct (negb _); [apply keeps_throw|].
  apply keeps_bind; [by apply keeps_try|].
  intros [|e]; [apply keeps_ret|].
  destruct (IsCodeNotFoundOrCodeUnauthorized e); [apply keeps_ret|apply keeps_throw].
Qed.

Lemma known_members_keeps l known km : keeps g (known_members getUnit l known km).
Proof.
  revert known km. induction l as [|[u v] l IH]; intros known km; simpl;
    [apply keeps_ret|].
  apply keeps_bind.
  - destruct (known !! u); [apply keeps_ret|].
    apply keeps_bind; [apply unit_exists_keeps|intros; apply keeps_ret].
  - intros [b known']. by destruct (negb b).
Qed.
End keeps.

Lemma stateToPersist_keeps {U} (g : W → U) : keeps g (stateManager_stateToPersist L).
Proof.
  intros w r w' H. unfold stateManager_stateToPersist in H. munfold. by simplify_eq.
Qed.
#[local] Hint Resolve stateToPersist_keeps : juju.

(** The texts to persist are those of all states. *)
Lemma persist_loop_inv l acc newSt :
  NoDup l.*1 → persist_loop l acc = Ok newSt →
  (∀ k s, (k, s) ∈ l → ∃ t, yaml_Marshal s = Ok t ∧ newSt !! k = Some t) ∧
  (∀ k, k ∉ l.*1 → newSt !! k = acc !! k).
Proof.
  revert acc. induction l as [|[k s] l IH]; intros acc Hnd H; simpl in *.
  { simplify_eq. split; [set_solver|done]. }
  apply NoDup_cons in Hnd as [Hk Hnd].
  unfold RelState_YamlString, mbind, result_bind in H.
  destruct (yaml_Marshal s) as [t|] eqn:Hm; [|done].
  destruct (IH _ Hnd H) as [H1 H2]. split.
  - intros k' s' [Heq|Hin]%elem_of_cons; [|eauto].
    simplify_eq. exists t. split; [done|].
    by rewrite H2, lookup_insert_eq.
  - intros k' [Hne Hk']%not_elem_of_cons. rewrite H2, lookup_insert_ne; auto.
Qed.

(** The saved texts are those of the states. *)
Definition saved_as (states : gmap Z RelState) (texts : gmap Z string) : Prop :=
  ∀ id, match states !! id, texts !! id with
        | Some s, Some t => yaml_Marshal s = Ok t
        | None, None => True
        | _, _ => False
        end.

Lemma stateToPersist_saved w newSt w' :
  stateManager_stateToPersist L w = (Ok newSt, w') →
  w' = w ∧ saved_as (view L w) newSt.
Proof.
  unfold stateManager_stateToPersist. munfold. intros H. simplify_eq. split; [done|].
  destruct (persist_loop _ ∅) eqn:E; simplify_eq.
  pose proof (range_perm w' (map_to_list (view L w'))) as Hperm.
  apply persist_loop_inv in E as [H1 H2];
    [|rewrite Hperm; apply NoDup_fst_map_to_list].
  intros id. destruct (view L w' !! id) as [s|] eqn:Hs.
  - destruct (H1 id s) as (t & ? & ->); [|done].
    by rewrite Hperm, elem_of_map_to_list.
  - rewrite H2; [by rewrite lookup_empty|]. rewrite Hperm.
    intros Hin. apply list_elem_of_fmap in Hin as ([k s] & -> & Hin). simpl in *.
    apply elem_of_map_to_list in Hin. congruence.
Qed.

Lemma saved_as_insert states texts id s t :
  saved_as states texts → yaml_Marshal s = Ok t →
  saved_as (<[id := s]> states) (<[id := t]> texts).
Proof.
  intros H Hm id'. destruct (decide (id = id')) as [<-|].
  - by rewrite !lookup_insert_eq.
  - rewrite !lookup_insert_ne by done. apply H.
Qed.

Lemma saved_as_delete states texts id :
  saved_as states texts → saved_as (delete id states) (delete id texts).
Proof.
  intros H id'. destruct (decide (id = id')) as [<-|].
  - by rewrite !lookup_delete_eq.
  - rewrite !lookup_delete_ne by done. apply H.
Qed.

(** Case analysis of a write. *)
Lemma SetRelation_inv st w r w' :
  stateManager_SetRelation L rw st w = (r, w') →
  (∃ e, r = Err e ∧ w' = w) ∨
  ∃ texts t r1 w1, saved_as (view L w) texts ∧ yaml_Marshal st = Ok t ∧
    rrw_SetState rw (<[rs_RelationId st := t]> texts) w = (r1, w1) ∧
    r = r1 ∧
    w' = if is_ok r1 then update L (<[rs_RelationId st := st]> (view L w1)) w1 else w1.
Proof.
  unfold stateManager_SetRelation, stateManager_write, RelState_YamlString. intros H.
  unfold mbind, M_bind, lift_result in H.
  destruct (stateManager_stateToPersist L w) as [[texts|e] w0] eqn:E.
  - apply stateToPersist_saved in E as [-> Hs].
    destruct (yaml_Marshal st) as [t|e] eqn:Hm; [|left; naive_solver].
    right. destruct (rrw_SetState rw _ w) as [[[]|e] w1] eqn:E2.
    + exists texts, t, (Ok ()), w1. unfold over, modify in H. by simplify_eq.
    + exists texts, t, (Err e), w1. by simplify_eq.
  - left. apply (stateToPersist_keeps id) in E. simpl in E. naive_solver.
Qed.

Lemma RemoveRelation_inv id known w r w' :
  stateManager_RemoveRelation L rw getUnit id known w = (r, w') →
  (∃ e w1, r = Err e ∧ w' = w1 ∧ ∀ U (g : W → U), (∀ u, keeps g (getUnit u)) → g w1 = g w) ∨
  ∃ texts known' r1 w0 w1, (∀ U (g : W → U), (∀ u, keeps g (getUnit u)) → g w0 = g w) ∧
    saved_as (view L w0) texts ∧
    rrw_SetState rw (delete id texts) w0 = (r1, w1) ∧
    r = (match r1 with Ok _ => Ok known' | Err e => Err e end) ∧
    w' = if is_ok r1 then update L (delete id (view L w1)) w1 else w1.
Proof.
  unfold stateManager_RemoveRelation, stateManager_remove. intros H.
  unfold mbind, M_bind, gets, get in H.
  destruct (view L w !! id) as [st|]; [|left; unfold throw in H; naive_solver].
  destruct (known_members _ _ _ _ w) as [[[known' km]|e] w0] eqn:E0; last first.
  { left. simplify_eq. eexists _, _. split_and!; [done..|]. intros U g Hg.
    by eapply known_members_keeps. }
  assert (∀ U (g : W → U), (∀ u, keeps g (getUnit u)) → g w0 = g w) as Hk.
  { intros U g Hg. by eapply known_members_keeps. }
  case_decide; [left; unfold throw in H; naive_solver|].
  destruct (stateManager_stateToPersist L w0) as [[texts|e] w1] eqn:E1; last first.
  { left. apply (stateToPersist_keeps (λ w, w)) in E1. simpl in E1. naive_solver. }
  apply stateToPersist_saved in E1 as [-> Hs]. right.
  destruct (rrw_SetState rw (delete id texts) w0) as [[[]|e] w1] eqn:E2.
  - exists texts, known', (Ok ()), w0, w1. unfold over, modify, mret, M_ret in H.
    by simplify_eq.
  - exists texts, known', (Err e), w0, w1. by simplify_eq.
Qed.

Lemma stateManager_spec :
  (∀ m, keeps (view L) (rrw_SetState rw m)) →
  (∀ u, keeps (view L) (getUnit u)) →
  StateManagerSpec
    (MkStateManager W (stateManager_Relation L)
       (stateManager_RemoveRelation L rw getUnit)
       (stateManager_KnownIDs L) (stateManager_SetRelation L rw)
       (stateManager_RelationFound L))
    (view L).
Proof.
  intros Hrw Hu. split; simpl.
  - intros id w. unfold stateManager_Relation. munfold. by destruct (view L w !! id).
  - done.
  - intros w. eexists. split; [done|]. apply range_perm.
  - intros st w r w' [(e & -> & ->)|(texts & t & r1 & w1 & _ & _ & HS & -> & ->)]%SetRelation_inv;
      [done|].
    apply Hrw in HS. destruct r1; simpl; [|done]. by rewrite view_update, HS.
  - intros id known w r w'
      [(e & w1 & -> & -> & Hk)|(texts & k' & r1 & w0 & w1 & Hk & _ & HS & -> & ->)]%RemoveRelation_inv.
    + by apply Hk.
    + apply Hrw in HS. destruct r1; simpl; rewrite ?view_update, HS, Hk; done.
  - intros id known w H. unfold stateManager_RemoveRelation. munfold. by rewrite H.
Qed.

(** The state manager refines a map of relation states.  If the controller
    connection and the unit lookups leave the manager's memory alone, the
    manager behaves as the map it shows: [Relation] returns a copy of the entry
    or NotFound, [RelationFound] and [KnownIDs] its domain, and [SetRelation]
    and [RemoveRelation] change the map exactly when they report success. *)
Theorem stateManager_refines_map :
  (∀ m, keeps (view L) (rrw_SetState rw m)) →
  (∀ u, keeps (view L) (getUnit u)) →
  StateManagerSpec
    (MkStateManager W (stateManager_Relation L)
       (stateManager_RemoveRelation L rw getUnit)
       (stateManager_KnownIDs L) (stateManager_SetRelation L rw)
       (stateManager_RelationFound L))
    (view L).
Proof. exact stateManager_spec. Qed.

(** *** The copy on the controller *)

Section persistence.
Context (persisted : W → gmap Z string).

(** The controller keeps one map of texts per unit: reading returns it, writing
    replaces it or fails and leaves it; nothing else touches it. *)
Record relation_store : Prop := {
  rstore_read w r w' : rrw_State rw w = (r, w') →
    persisted w' = persisted w ∧ ∀ m, r = Ok m → m = persisted w;
  rstore_write m w r w' : rrw_SetState rw m w = (r, w') →
    persisted w' = if is_ok r then m else persisted w;
  rstore_mem m : keeps (view L) (rrw_SetState rw m);
  rstore_unit u : keeps persisted (getUnit u);
  rstore_unit_mem u : keeps (view L) (getUnit u);
  rstore_apart : Apart L persisted;
}.

(** The YAML library reads back what it wrote, except that an empty map may
    come back as nil. *)
Definition relation_yaml_roundtrip : Prop := ∀ s t,
  yaml_Marshal s = Ok t →
  ∃ sc, yaml_Unmarshal t = Ok sc ∧ RelState_fill_nil sc = RelState_fill_nil s.

Definition maps_exist (states : gmap Z RelState) : Prop :=
  ∀ id s, states !! id = Some s → RelState_fill_nil s = s.

(** What happens to a manager, in order. *)
Inductive mgr_event : Type :=
| MgrSet (st : RelState)
| MgrRemove (id : Z) (known : gmap string bool).

Definition mgr_run (ev : mgr_event) (w : W) : W :=
  match ev with
  | MgrSet st => (stateManager_SetRelation L rw st w).2
  | MgrRemove id known => (stateManager_RemoveRelation L rw getUnit id known w).2
  end.

Definition mgr_saved (w : W) : Prop :=
  saved_as (view L w) (persisted w) ∧ maps_exist (view L w).

Lemma mgr_run_saved ev w :
  relation_store → (∀ st, ev = MgrSet st → RelState_fill_nil st = st) →
  mgr_saved w → mgr_saved (mgr_run ev w).
Proof.
  intros Hst Hev [Hs Hm]. destruct ev as [st|id known]; simpl.
  - destruct (stateManager_SetRelation L rw st w) as [r w'] eqn:E. simpl.
    apply SetRelation_inv in E
      as [(e & _ & ->)|(texts & t & r1 & w1 & Ht & HM & HS & _ & ->)]; [done|].
    pose proof (rstore_mem Hst _ _ _ _ HS) as Hmem.
    apply (rstore_write Hst) in HS. destruct r1; simpl in *; last first.
    { split; [by rewrite Hmem, HS|by rewrite Hmem]. }
    destruct (rstore_apart Hst) as [Hap]. split; rewrite view_update, Hmem.
    + rewrite Hap, HS. by apply saved_as_insert.
    + intros id s. rewrite lookup_insert_Some. intros [[_ <-]|[_ ?]]; eauto.
  - destruct (stateManager_RemoveRelation L rw getUnit id known w) as [r w'] eqn:E.
    simpl. apply RemoveRelation_inv in E
      as [(e & w1 & _ & -> & Hk)|(texts & k' & r1 & w0 & w1 & Hk & Ht & HS & _ & ->)].
    { rewrite <- (Hk _ persisted) in Hs by apply (rstore_unit Hst).
      rewrite <- (Hk _ (view L)) in Hs, Hm by apply (rstore_unit_mem Hst). by split. }
    rewrite <- (Hk _ persisted) in Hs by apply (rstore_unit Hst).
    rewrite <- (Hk _ (view L)) in Hs, Hm by apply (rstore_unit_mem Hst).
    pose proof (rstore_mem Hst _ _ _ _ HS) as Hmem.
    apply (rstore_write Hst) in HS. destruct r1; simpl in *; last first.
    { split; [by rewrite Hmem, HS|by rewrite Hmem]. }
    destruct (rstore_apart Hst) as [Hap]. split; rewrite view_update, Hmem.
    + rewrite Hap, HS. by apply saved_as_delete.
    + intros id' s [_ ?]%lookup_delete_Some. eauto.
Qed.

(** Loading the saved texts. *)
Lemma load_loop l w :
  NoDup l.*1 → (∀ k t, (k, t) ∈ l → is_ok (RelState_Unmarshal t) = true) →
  ∃ w', for_each l (λ '(k, v),
          state ← lift_result (RelState_Unmarshal v);
          over L (insert k state)) w = (Ok (), w')
    ∧ (∀ k t, (k, t) ∈ l → ∃ s, RelState_Unmarshal t = Ok s ∧ view L w' !! k = Some s)
    ∧ (∀ k, k ∉ l.*1 → view L w' !! k = view L w !! k).
Proof.
  revert w. induction l as [|[k t] l IH]; intros w Hnd Hok; simpl in *.
  { exists w. split_and!; [done|set_solver|done]. }
  apply NoDup_cons in Hnd as [Hk Hnd].
  destruct (RelState_Unmarshal t) as [s|] eqn:Hs; last first.
  { specialize (Hok k t ltac:(left)). by rewrite Hs in Hok. }
  unfold lift_result, over, modify. unfold mbind, M_bind.
  destruct (IH (update L (<[k:=s]> (view L w)) w) Hnd) as (w' & Hr & H1 & H2).
  { intros. eapply Hok. by right. }
  unfold lift_result, over, modify, mbind, M_bind in Hr. rewrite Hr.
  exists w'. split_and!; [done|..].
  - intros k' t' [Heq|Hin]%elem_of_cons; [|eauto]. simplify_eq. exists s.
    split; [done|]. by rewrite H2, view_update, lookup_insert_eq.
  - intros k' [Hne Hk']%not_elem_of_cons.
    rewrite H2, view_update, lookup_insert_ne by done. done.
Qed.


End persistence.

End proofs.
