(* ===== verification/Resolver.v ===== *)
(** * Resolvers

    internal/worker/uniter/remotestate/snapshot.go (what the controller wants
    of the unit), internal/worker/uniter/resolver/interface.go (local state and
    the [Resolver] interface), opfactory.go (operations that update the local
    state when they commit) and loop.go (the loop that resolves and runs
    operations). *)

From S2P Require Import Prelude Hooks OpState Operations.
Import life operation.

(** ** remotestate/snapshot.go *)

Record RelationSnapshot : Type := MkRelationSnapshot {
  rsn_Life : LifeValue;
  rsn_Suspended : bool;
  rsn_Members : gmap string Z;
  rsn_ApplicationMembers : gmap string Z;
}.

Inductive StorageKind : Type :=
| StorageKindUnknown
| StorageKindBlock
| StorageKindFilesystem.

#[global] Instance StorageKind_eq_dec : EqDecision StorageKind.
Proof. solve_decision. Defined.

Record StorageSnapshot : Type := MkStorageSnapshot {
  ssn_Kind : StorageKind;
  ssn_Life : LifeValue;
  ssn_Attached : bool;
  ssn_Location : string;
}.

Record SecretRevisionInfo : Type := MkSecretRevisionInfo {
  sri_LatestRevision : Z;
  sri_Label : string;
}.

(** [params.ResolvedMode] *)
Inductive ResolvedMode : Type :=
| ResolvedNone
| ResolvedRetryHooks
| ResolvedNoHooks
| OtherResolved (s : string).

#[global] Instance ResolvedMode_eq_dec : EqDecision ResolvedMode.
Proof. solve_decision. Defined.

(** Storage is keyed by storage ID, the content of a storage tag. *)
Record Snapshot : Type := MkSnapshot {
  sn_Life : LifeValue;
  sn_Relations : gmap Z RelationSnapshot;
  sn_Storage : gmap string StorageSnapshot;
  sn_CharmModifiedVersion : Z;
  sn_CharmURL : string;
  sn_ForceCharmUpgrade : bool;
  sn_ResolvedMode : ResolvedMode;
  sn_ProviderID : string;
  sn_RetryHookVersion : Z;
  sn_ConfigHash : string;
  sn_TrustHash : string;
  sn_AddressesHash : string;
  sn_Leader : bool;
  sn_UpdateStatusVersion : Z;
  sn_ActionsPending : list string;
  sn_ActionChanged : gmap string Z;
  sn_Commands : list string;
  sn_SecretRotations : list string;
  sn_ExpiredSecretRevisions : list string;
  sn_ConsumedSecretInfo : gmap string SecretRevisionInfo;
  sn_ObsoleteSecretRevisions : gmap string (list Z);
  sn_DeletedSecretRevisions : gmap string (list Z);
  sn_WorkloadEvents : list string;
  sn_Shutdown : bool;
}.

(** The zero value of a [RelationSnapshot] and of a [Snapshot]. *)
Definition zero_RelationSnapshot : RelationSnapshot :=
  MkRelationSnapshot (Unknown "") false ∅ ∅.
Definition zero_Snapshot : Snapshot :=
  MkSnapshot (Unknown "") ∅ ∅ 0 "" false ResolvedNone "" 0 "" "" "" false 0
    [] ∅ [] [] [] ∅ ∅ ∅ [] false.

(** A snapshot is passed by value, but its maps are shared: resolvers that
    change an entry of [Relations] or [Storage] change it for those after. *)
Definition set_Relations (m : gmap Z RelationSnapshot) (s : Snapshot) : Snapshot :=
  MkSnapshot (sn_Life s) m (sn_Storage s) (sn_CharmModifiedVersion s)
    (sn_CharmURL s) (sn_ForceCharmUpgrade s) (sn_ResolvedMode s)
    (sn_ProviderID s) (sn_RetryHookVersion s) (sn_ConfigHash s) (sn_TrustHash s)
    (sn_AddressesHash s) (sn_Leader s) (sn_UpdateStatusVersion s)
    (sn_ActionsPending s) (sn_ActionChanged s) (sn_Commands s)
    (sn_SecretRotations s) (sn_ExpiredSecretRevisions s)
    (sn_ConsumedSecretInfo s) (sn_ObsoleteSecretRevisions s)
    (sn_DeletedSecretRevisions s) (sn_WorkloadEvents s) (sn_Shutdown s).
Definition set_Storage (m : gmap string StorageSnapshot) (s : Snapshot) : Snapshot :=
  MkSnapshot (sn_Life s) (sn_Relations s) m (sn_CharmModifiedVersion s)
    (sn_CharmURL s) (sn_ForceCharmUpgrade s) (sn_ResolvedMode s)
    (sn_ProviderID s) (sn_RetryHookVersion s) (sn_ConfigHash s) (sn_TrustHash s)
    (sn_AddressesHash s) (sn_Leader s) (sn_UpdateStatusVersion s)
    (sn_ActionsPending s) (sn_ActionChanged s) (sn_Commands s)
    (sn_SecretRotations s) (sn_ExpiredSecretRevisions s)
    (sn_ConsumedSecretInfo s) (sn_ObsoleteSecretRevisions s)
    (sn_DeletedSecretRevisions s) (sn_WorkloadEvents s) (sn_Shutdown s).

(** ** interface.go *)

Abbreviation ErrNoOperation := (ErrConst "no operations").
Abbreviation ErrRestart := (ErrConst "restarting resolver").
Abbreviation ErrUnitDead := (ErrConst "unit dead").
Abbreviation ErrWaiting := (ErrConst "waiting for remote state change").
Abbreviation ErrLoopAborted := (ErrConst "resolver loop aborted").
Abbreviation ErrDoNotProceed := (ErrConst "do not proceed").
(** mutex.ErrCancelled *)
Abbreviation ErrCancelled := (ErrConst "cancelled acquiring mutex").

(** [resolver.LocalState]; its [CharmURL] hides the one of the embedded
    operation state. *)
Record LocalState : Type := MkLocalState {
  ls_State : OpState;
  ls_CharmModifiedVersion : Z;
  ls_CharmURL : string;
  ls_Conflicted : bool;
  ls_Restart : bool;
  ls_UpdateStatusVersion : Z;
  ls_RetryHookVersion : Z;
  ls_HookWasShutdown : bool;
}.

Definition set_ls_State (st : OpState) (l : LocalState) : LocalState :=
  MkLocalState st (ls_CharmModifiedVersion l) (ls_CharmURL l) (ls_Conflicted l)
    (ls_Restart l) (ls_UpdateStatusVersion l) (ls_RetryHookVersion l)
    (ls_HookWasShutdown l).

(** [Resolver.NextOp].  The snapshot is part of the state because of its
    shared maps. *)
Definition Resolver (W : Type) : Type :=
  LocalState → Factory W → M (Snapshot * W) (operation W).

(** [remoteState.F], and code that does not touch the snapshot. *)
Definition remote {W A} (f : Snapshot → A) : M (Snapshot * W) A :=
  gets (λ s, f s.1).
Definition liftR {W A} (m : M W A) : M (Snapshot * W) A :=
  zoom snd (λ w s, (s.1, w)) m.

(** [op, err := m; if errors.Cause(err) != ErrNoOperation { return op, err }] *)
Definition or_else {W A} (m k : M (Snapshot * W) A) : M (Snapshot * W) A :=
  r ← try m;
  match r with
  | Ok op => mret op
  | Err e => if decide (e = ErrNoOperation) then k else throw e
  end.

(** ** opfactory.go *)

Definition onCommitWrapper {W} (op : operation W)
    (onCommit : option OpState → W → option OpState * W) : operation W := {|
  op_init := op_init op;
  op_String := op_String op;
  op_NeedsGlobalMachineLock := op_NeedsGlobalMachineLock op;
  op_ExecutionGroup := op_ExecutionGroup op;
  op_Prepare := op_Prepare op;
  op_Execute := op_Execute op;
  op_Commit := λ state s,
    let '((st, err), (f, w)) := op_Commit op state s in
    match err with
    | Some e => ((None, Some e), (f, w))
    | None => let '(st', w') := onCommit st w in ((st', None), (f, w'))
    end;
|}.

Definition onPrepareWrapper {W} (op : operation W) (onPrepare : W → W) :
    operation W := {|
  op_init := op_init op;
  op_String := op_String op;
  op_NeedsGlobalMachineLock := op_NeedsGlobalMachineLock op;
  op_ExecutionGroup := op_ExecutionGroup op;
  op_Prepare := λ state s,
    let '((st, err), (f, w)) := op_Prepare op state s in
    match err with
    | Some e => ((None, Some e), (f, w))
    | None => ((st, None), (f, onPrepare w))
    end;
  op_Execute := op_Execute op;
  op_Commit := op_Commit op;
|}.

Section opfactory.
Context {W : Type} (LS : lens W LocalState).

(** What a committed upgrade does to the local state. *)
Definition upgrade_local (charmURL : string) (charmModifiedVersion : Z)
    (l : LocalState) : LocalState :=
  MkLocalState (ls_State l) charmModifiedVersion charmURL false true
    (ls_UpdateStatusVersion l) (ls_RetryHookVersion l) (ls_HookWasShutdown l).

Definition resolverOpFactory_wrapUpgradeOp (remoteState : Snapshot)
    (op : operation W) (charmURL : string) : operation W :=
  let charmModifiedVersion := sn_CharmModifiedVersion remoteState in
  onCommitWrapper op (λ st w,
    (st, update LS (upgrade_local charmURL charmModifiedVersion (view LS w)) w)).

(** What a committed hook, and a prepared one, do to the local state. *)
Definition hook_local (updateStatusVersion charmModifiedVersion : Z)
    (l : LocalState) : LocalState :=
  MkLocalState (ls_State l) charmModifiedVersion (ls_CharmURL l)
    (ls_Conflicted l) (ls_Restart l) updateStatusVersion
    (ls_RetryHookVersion l) (ls_HookWasShutdown l).
Definition retry_local (retryHookVersion : Z) (l : LocalState) : LocalState :=
  MkLocalState (ls_State l) (ls_CharmModifiedVersion l) (ls_CharmURL l)
    (ls_Conflicted l) (ls_Restart l) (ls_UpdateStatusVersion l)
    retryHookVersion (ls_HookWasShutdown l).

Definition resolverOpFactory_wrapHookOp (remoteState : Snapshot)
    (op : operation W) (info : hook.Info) : operation W :=
  let op :=
    match hook.Kind info with
    | hooks.ConfigChanged =>
        onCommitWrapper op (λ st w,
          (set_hashes (sn_ConfigHash remoteState) (sn_TrustHash remoteState)
             (sn_AddressesHash remoteState) <$> st, w))
    | _ => op
    end in
  let op := onCommitWrapper op (λ st w,
    (st, update LS (hook_local (sn_UpdateStatusVersion remoteState)
                      (sn_CharmModifiedVersion remoteState) (view LS w)) w)) in
  onPrepareWrapper op (λ w,
    update LS (retry_local (sn_RetryHookVersion remoteState) (view LS w)) w).

(** [resolverOpFactory]: the embedded factory with five methods replaced. *)
Definition resolverOpFactory (f : Factory W) (remoteState : Snapshot) : Factory W := {|
  NewInstall := NewInstall f;
  NewUpgrade charmURL :=
    op ← NewUpgrade f charmURL;
    mret (resolverOpFactory_wrapUpgradeOp remoteState op charmURL);
  NewRevertUpgrade charmURL :=
    op ← NewRevertUpgrade f charmURL;
    mret (resolverOpFactory_wrapUpgradeOp remoteState op charmURL);
  NewResolvedUpgrade charmURL :=
    op ← NewResolvedUpgrade f charmURL;
    mret (resolverOpFactory_wrapUpgradeOp remoteState op charmURL);
  NewRunHook info :=
    op ← NewRunHook f info;
    mret (resolverOpFactory_wrapHookOp remoteState op info);
  NewSkipHook info :=
    op ← NewSkipHook f info;
    mret (resolverOpFactory_wrapHookOp remoteState op info);
  NewAction := NewAction f;
  NewFailAction := NewFailAction f;
  NewCommands := NewCommands f;
  NewAcceptLeadership := NewAcceptLeadership f;
  NewResignLeadership := NewResignLeadership f;
  NewNoOpSecretsRemoved := NewNoOpSecretsRemoved f;
|}.

End opfactory.

(** ** loop.go *)

(** [LoopConfig], with what [Loop] waits for: the next remote state change or
    an abort.  The waiting lets the rest of the world go on. *)
Inductive loop_event : Type := RemoteStateChanged | Aborted.

Record LoopConfig (W : Type) : Type := MkLoopConfig {
  lc_Resolver : Resolver W;
  lc_Snapshot : W → Snapshot;
  lc_Factory : Factory W;
  lc_OnIdle : option (M W ());
  lc_Unlock : M W ();
  lc_Lockdown : M W ();
  lc_haveCharmDir : W → bool;
  lc_wait : W → loop_event * W;
  (** the snapshots seen within three seconds of each other *)
  lc_changes : W → list Snapshot * W;
}.
Arguments lc_Resolver {W} _.
Arguments lc_Snapshot {W} _ _.
Arguments lc_Factory {W} _.
Arguments lc_OnIdle {W} _.
Arguments lc_Unlock {W} _.
Arguments lc_Lockdown {W} _.
Arguments lc_haveCharmDir {W} _ _.
Arguments lc_wait {W} _ _.
Arguments lc_changes {W} _ _.

(** Where the loop is: about to look at the remote state after a change, or
    about to act on what the resolver said. *)
Inductive loop_point (W : Type) : Type :=
| LoopTop
| LoopResolved (r : result (operation W)).
Arguments LoopTop {W}.
Arguments LoopResolved {W} _.

Inductive restart_op : Type := RestartNothing | RestartInstall | RestartUpgrade.

#[global] Instance restart_op_eq_dec : EqDecision restart_op.
Proof. solve_decision. Defined.

Section loop.
Context {NM : Names} {SU : SecretURIs} {YM : Yaml OpState} {W : Type}
  (LS : lens W LocalState) (LX : lens W executor)
  (rw : UnitStateReadWriter W) (acquire : string → string → M W (W → W))
  (cfg : LoopConfig W).

(** The executor as a component of the world. *)
Definition Executor_State : M W OpState :=
  x ← gets (view LX);
  lift_result (executor_State x).
Definition Executor_Run (op : operation W) : M W () :=
  zoom (λ w, (view LX w, w)) (λ s _, update LX s.1 s.2)
    (executor_Run rw acquire op).

(** Whether the charm directory may be shared with other workers. *)
Definition charmDir_available (opState : OpState) : bool :=
  let changing :=
    bool_decide (Kind opState = Install) || bool_decide (Kind opState = Upgrade)
    || (bool_decide (Kind opState = RunHook) &&
        match Hook opState with
        | Some hi => bool_decide (hook.Kind hi = hooks.UpgradeCharm)
        | None => false
        end) in
  Started opState && negb (Stopped opState) && negb changing.

Definition updateCharmDir (opState : OpState) : M W () :=
  if charmDir_available opState then lc_Unlock cfg else lc_Lockdown cfg.

(** [checkCharmInstallUpgrade]: whether to install or upgrade the charm before
    the loop starts ... *)
Definition restart_choice (local : LocalState) (remoteState : Snapshot)
    (haveCharmDir : bool) : restart_op :=
  let st := ls_State local in
  let opFunc :=
    if negb (Installed st) &&
       match Hook st with
       | Some hi => bool_decide (hook.Kind hi = hooks.Install)
       | None => false
       end && bool_decide (Step st ≠ Done)
    then RestartInstall
    else if negb (Installed st) || bool_decide (sn_CharmURL remoteState = "")
    then RestartNothing
    else RestartUpgrade in
  if decide (opFunc = RestartNothing) then RestartNothing
  else if haveCharmDir &&
          (bool_decide (Kind st = Upgrade) ||
           match Hook st with
           | Some hi => bool_decide (hook.Kind hi = hooks.UpgradeCharm)
           | None => false
           end)
  then RestartNothing
  else
    let sameCharm := bool_decide (ls_CharmURL local = sn_CharmURL remoteState) in
    if haveCharmDir && (negb (Started st) || sameCharm) then RestartNothing
    else opFunc.

(** ... and doing it.  The factory's snapshot is not set yet at this point. *)
Definition checkCharmInstallUpgrade (remoteState : Snapshot) : M W () :=
  st ← Executor_State;
  _ ← over LS (set_ls_State st);
  local ← gets (view LS);
  haveCharmDir ← gets (lc_haveCharmDir cfg);
  let rf := resolverOpFactory LS (lc_Factory cfg) zero_Snapshot in
  let run (mk : M W (operation W)) :=
    op ← mk;
    _ ← Executor_Run op;
    local ← gets (view LS);
    if ls_Restart local then throw ErrRestart else mret () in
  match restart_choice local remoteState haveCharmDir with
  | RestartNothing => mret ()
  | RestartInstall => run (NewInstall rf (sn_CharmURL remoteState))
  | RestartUpgrade => run (NewUpgrade rf (sn_CharmURL remoteState))
  end.

(** [maybeAgentShutdown] *)
Definition maybeAgentShutdown : M W bool := λ w,
  let '(snapshots, w') := lc_changes cfg w in
  (Ok (existsb sn_Shutdown snapshots), w').

(** What the top of the loop does when a hook was killed: wait for a shutdown
    of the agent; if there is none, a warning names the kind of the hook in the
    local state. *)
Definition check_killed_hook (remoteState : Snapshot) : M W () :=
  local ← gets (view LS);
  if negb (ls_HookWasShutdown local) then mret ()
  else
    agentShutdown ← if sn_Shutdown remoteState then mret true else maybeAgentShutdown;
    if agentShutdown : bool then mret ()
    else match Hook (ls_State local) with
    | Some _ => mret ()
    | None => throw (GoPanic "nil pointer dereference")
    end.

(** Resolve once: the operation to run, or the resolver's error. *)
Definition loop_NextOp (remoteState : Snapshot) : M W (result (operation W)) :=
  local ← gets (view LS);
  try (λ w,
    let '(r, (_, w')) :=
      lc_Resolver cfg local (resolverOpFactory LS (lc_Factory cfg) remoteState)
        (remoteState, w) in (r, w')).

(** No operation to run: idle, or leave the loop. *)
Definition loop_idle (e : error) : M W () :=
  if decide (e = ErrWaiting) then mret ()
  else if decide (e = ErrNoOperation) then
    match lc_OnIdle cfg with Some onIdle => onIdle | None => mret () end
  else throw e.

Definition loop_wait : M W loop_event := λ w,
  let '(ev, w') := lc_wait cfg w in (Ok ev, w').

(** One turn of the loop: from the top to the resolver's answer, from an
    operation to the next answer, or from the lack of an operation back to the
    top.  An error ends the loop with it. *)
Definition loop_turn (p : loop_point W) : M W (loop_point W) :=
  match p with
  | LoopTop =>
      remoteState ← gets (lc_Snapshot cfg);
      st ← Executor_State;
      _ ← over LS (set_ls_State st);
      _ ← check_killed_hook remoteState;
      r ← loop_NextOp remoteState;
      mret (LoopResolved r)
  | LoopResolved (Ok op) =>
      r ← try (Executor_Run op);
      match r with
      | Err e => if decide (e = ErrCancelled) then throw ErrRestart else throw e
      | Ok _ =>
          remoteState ← gets (lc_Snapshot cfg);
          st ← Executor_State;
          _ ← over LS (set_ls_State st);
          _ ← updateCharmDir st;
          r ← loop_NextOp remoteState;
          mret (LoopResolved r)
      end
  | LoopResolved (Err e) =>
      _ ← loop_idle e;
      ev ← loop_wait;
      match ev with
      | Aborted => throw ErrLoopAborted
      | RemoteStateChanged => mret LoopTop
      end
  end.

(** [n] turns of the loop; it never returns without an error. *)
Fixpoint loop_turns (n : nat) (p : loop_point W) : M W (loop_point W) :=
  match n with
  | O => mret p
  | S n' => p' ← loop_turn p; loop_turns n' p'
  end.

(** [Loop], run for [n] turns: an error is what [Loop] returns. *)
Definition Loop (n : nat) : M W (loop_point W) :=
  st ← Executor_State;
  _ ← updateCharmDir st;
  remoteState ← gets (lc_Snapshot cfg);
  _ ← checkCharmInstallUpgrade remoteState;
  loop_turns n LoopTop.

End loop.

(** Code whose errors are not answers of a resolver. *)
Definition decisive {W A} (m : M W A) : Prop :=
  ∀ w e w', m w = (Err e, w') → e ≠ ErrNoOperation ∧ e ≠ ErrWaiting.

Lemma decisive_bind {W A B} (m : M W A) (k : A → M W B) :
  decisive m → (∀ a, decisive (k a)) → decisive (m ≫= k).
Proof.
  intros Hm Hk w e w' [H|(a & w1 & _ & H)]%bind_inv_err; [by eapply Hm|by eapply Hk].
Qed.

Lemma decisive_ok {W A} (m : M W A) : (∀ w, ∃ a w', m w = (Ok a, w')) → decisive m.
Proof. intros Hm w e w' H. destruct (Hm w) as (? & ? & ?). congruence. Qed.

Lemma decisive_liftR {W A} (m : M W A) : decisive m → decisive (liftR m).
Proof.
  intros Hm [sn w] e [sn' w'] H. unfold liftR, zoom in H. simpl in H.
  destruct (m w) eqn:E. simplify_eq. by eapply Hm.
Qed.

(** Code that cannot fail. *)
Ltac no_error := try apply decisive_liftR; apply decisive_ok; intros ?; by eexists _, _.
