(* ===== verification/RelationTracker.v ===== *)
(** * Relationers and the relation state tracker

    internal/worker/uniter/relation/relationer.go (one relation the unit has
    joined), statetracker.go (all of them, reconciled with the controller) and
    the endpoint tests of domain/deployment/charm/meta.go they use. *)

From S2P Require Import Prelude Hooks OpState RelationState RelationManager Operations Resolver.
Import life hooks hook.

(** ** domain/deployment/charm/meta.go *)

Inductive RelationRole : Type :=
| RolePeer
| RoleProvider
| RoleRequirer
| OtherRole (s : string).

Inductive RelationScope : Type :=
| ScopeGlobal
| ScopeContainer
| OtherScope (s : string).

#[global] Instance RelationRole_eq_dec : EqDecision RelationRole.
Proof. solve_decision. Defined.
#[global] Instance RelationScope_eq_dec : EqDecision RelationScope.
Proof. solve_decision. Defined.

(** [charm.Relation], as an endpoint; [Optional] and [Limit] play no part. *)
Record Endpoint : Type := MkEndpoint {
  ep_Name : string;
  ep_Role : RelationRole;
  ep_Interface : string;
  ep_Scope : RelationScope;
}.

(** The relations of a [charm.Meta]. *)
Record CharmMeta : Type := MkCharmMeta {
  meta_Provides : gmap string Endpoint;
  meta_Requires : gmap string Endpoint;
  meta_Peers : gmap string Endpoint;
}.

Definition Endpoint_IsImplicit (r : Endpoint) : bool :=
  bool_decide (ep_Name r = "juju-info" ∧ ep_Interface r = "juju-info"
               ∧ ep_Role r = RoleProvider).

Definition Endpoint_ImplementedBy (r : Endpoint) (meta : CharmMeta) : result bool :=
  if Endpoint_IsImplicit r then Ok true
  else
    m ← match ep_Role r with
        | RoleProvider => Ok (meta_Provides meta)
        | RoleRequirer => Ok (meta_Requires meta)
        | RolePeer => Ok (meta_Peers meta)
        | OtherRole _ => Err (GoPanic "unknown relation role %q")
        end;
    match m !! ep_Name r with
    | None => Ok false
    | Some rel =>
        if decide (ep_Interface rel = ep_Interface r) then
          match ep_Scope r with
          | ScopeGlobal => Ok (bool_decide (ep_Scope rel ≠ ScopeContainer))
          | ScopeContainer => Ok true
          | OtherScope _ => Err (GoPanic "unknown relation scope %q")
          end
        else Ok false
    end.

(** ** The controller, as the tracker sees it *)

(** [api.Relation] and [api.RelationUnit]: what they know; what they do is in
    [TrackerAPI]. *)
Record ApiRelation : Type := MkApiRelation {
  rel_Id : Z;
  rel_OtherApplication : string;
}.

Record RelationUnit : Type := MkRelationUnit {
  ru_Relation : ApiRelation;
  ru_Endpoint : Endpoint;
}.

(** [uniter.RelationStatus] *)
Record RelationStatus : Type := MkRelationStatus {
  rst_Tag : string;
  rst_Suspended : bool;
  rst_InScope : bool;
}.

(** What the [select] of [joinRelation] may see; that nothing more comes is the
    timeout. *)
Inductive join_event : Type := JoinAborted | WatcherClosed | UnitChanged.

Record TrackerAPI (W : Type) : Type := MkTrackerAPI {
  api_RelationsStatus : M W (list RelationStatus);
  api_Relation : string → M W ApiRelation;
  api_RelationById : Z → M W ApiRelation;
  api_Endpoint : ApiRelation → M W Endpoint;
  api_RelationUnit : ApiRelation → M W RelationUnit;
  api_SetStatus : ApiRelation → string → M W ();
  api_UpdateSuspended : ApiRelation → bool → W → W;
  api_EnterScope : RelationUnit → M W ();
  api_LeaveScope : RelationUnit → M W ();
  api_Watch : M W (list join_event);
  api_StopWatcher : M W ();
  api_Destroy : M W ();
  api_Life : M W (LifeValue * LifeValue);
  api_IsLeader : M W bool;
  api_CharmMeta : M W CharmMeta;
}.
Arguments api_RelationsStatus {W} _.
Arguments api_Relation {W} _ _.
Arguments api_RelationById {W} _ _.
Arguments api_Endpoint {W} _ _.
Arguments api_RelationUnit {W} _ _.
Arguments api_SetStatus {W} _ _ _.
Arguments api_UpdateSuspended {W} _ _ _ _.
Arguments api_EnterScope {W} _ _.
Arguments api_LeaveScope {W} _ _.
Arguments api_Watch {W} _.
Arguments api_StopWatcher {W} _.
Arguments api_Destroy {W} _.
Arguments api_Life {W} _.
Arguments api_IsLeader {W} _.
Arguments api_CharmMeta {W} _.

Definition IsCodeCannotEnterScope (e : error) : bool :=
  bool_decide (e = ErrCode "cannot enter scope").
Definition IsCodeCannotEnterScopeYet (e : error) : bool :=
  bool_decide (e = ErrCode "cannot enter scope yet").
(** dependency.ErrBounce and charm.FileNotFound *)
Abbreviation ErrBounce := (ErrConst "restart immediately").
Abbreviation FileNotFound := (ErrConst "file not found").

(** ** relationer.go *)

Record relationer : Type := MkRelationer {
  relr_ru : RelationUnit;
  relr_dying : bool;
}.

Definition relr_relationId (r : relationer) : Z := rel_Id (ru_Relation (relr_ru r)).

(** The fields of [relationStateTracker] that change. *)
Record Tracker : Type := MkTracker {
  t_relationers : gmap Z relationer;
  t_remoteAppName : gmap Z string;
  t_relationCreated : gmap Z bool;
  t_isPeerRelation : gmap Z bool;
}.

Definition set_relationers (m : gmap Z relationer) (t : Tracker) : Tracker :=
  MkTracker m (t_remoteAppName t) (t_relationCreated t) (t_isPeerRelation t).
Definition set_remoteAppName (m : gmap Z string) (t : Tracker) : Tracker :=
  MkTracker (t_relationers t) m (t_relationCreated t) (t_isPeerRelation t).
Definition set_relationCreated (m : gmap Z bool) (t : Tracker) : Tracker :=
  MkTracker (t_relationers t) (t_remoteAppName t) m (t_isPeerRelation t).
Definition set_isPeerRelation (m : gmap Z bool) (t : Tracker) : Tracker :=
  MkTracker (t_relationers t) (t_remoteAppName t) (t_relationCreated t) m.

Section relationer.
Context {W : Type} (sm : StateManager W) (api : TrackerAPI W).

(** [NewRelationer] *)
Definition NewRelationer (ru : RelationUnit) : relationer := MkRelationer ru false.

Definition relationer_IsImplicit (r : relationer) : bool :=
  Endpoint_IsImplicit (ru_Endpoint (relr_ru r)).

Definition relationer_Join (r : relationer) : M W () :=
  if relr_dying r then throw (ErrNew "dying relationer must not join!")
  else
    found ← sm_RelationFound sm (relr_relationId r);
    _ ← if found : bool then mret ()
        else sm_SetRelation sm (NewRelState (relr_relationId r));
    api_EnterScope api (relr_ru r).

Definition relationer_die (r : relationer) : M W () :=
  res ← try (api_LeaveScope api (relr_ru r));
  _ ← match res with
      | Ok _ => mret ()
      | Err e => if IsCodeNotFoundOrCodeUnauthorized e then mret () else throw e
      end;
  _ ← sm_RemoveRelation sm (relr_relationId r) ∅;
  mret ().

Definition relationer_PrepareHook (r : relationer) (hi : Info) : M W string :=
  if relationer_IsImplicit r then throw ErrBounce
  else
    st ← sm_Relation sm (RelationId hi);
    _ ← lift_result (RelState_Validate st hi);
    mret (ep_Name (ru_Endpoint (relr_ru r)) +:+ "-" +:+ kind_string (Kind hi))%string.

Definition relationer_CommitHook (r : relationer) (hi : Info) : M W () :=
  if relationer_IsImplicit r then throw ErrBounce
  else if decide (Kind hi = RelationBroken) then relationer_die r
  else
    st ← sm_Relation sm (RelationId hi);
    st' ← lift_result (RelState_UpdateStateForHook st hi);
    sm_SetRelation sm st'.

End relationer.

(** ** statetracker.go *)

Section tracker.
Context {NM : Names} {W : Type} {MO : MapOrder W}
  (L : lens W Tracker) (sm : StateManager W) (api : TrackerAPI W)
  (subordinate : bool) (principalName unitName : string).

(** [relationer.SetDying]; a relationer is the one the tracker has under its
    relation's id. *)
Definition relationer_SetDying (id : Z) (r : relationer) : M W () :=
  _ ← over L (λ t, set_relationers
        (<[id := MkRelationer (relr_ru r) true]> (t_relationers t)) t);
  if relationer_IsImplicit r then relationer_die sm api r else mret ().

Definition tracker_relationGone (id : Z) : M W () :=
  over L (λ t, MkTracker (delete id (t_relationers t))
    (delete id (t_remoteAppName t)) (delete id (t_relationCreated t))
    (delete id (t_isPeerRelation t))).

(** The loop of [joinRelation]. *)
Fixpoint join_loop (rel : ApiRelation) (r : relationer) (events : list join_event) :
    M W () :=
  match events with
  | [] => throw (ErrNew "unit watcher for %q failed to trigger joining relation %q")
  | JoinAborted :: _ => throw ErrLoopAborted
  | WatcherClosed :: _ => throw (ErrNew "unit watcher closed")
  | UnitChanged :: events' =>
      res ← try (relationer_Join sm api r);
      match res with
      | Err e =>
          if IsCodeCannotEnterScopeYet e then join_loop rel r events' else throw e
      | Ok _ =>
          isLeader ← api_IsLeader api;
          _ ← if isLeader : bool then api_SetStatus api rel "joined" else mret ();
          over L (λ t, set_relationers (<[rel_Id rel := r]> (t_relationers t)) t)
      end
  end.

(** [joinRelation]; the watcher is stopped on the way out, and its error
    counts if there is no other. *)
Definition tracker_joinRelation (rel : ApiRelation) : M W () :=
  ru ← api_RelationUnit api rel;
  events ← api_Watch api;
  res ← try (join_loop rel (NewRelationer ru) events);
  stopped ← try (api_StopWatcher api);
  match res, stopped with
  | Err e, _ => throw e
  | Ok _, Err e => throw e
  | Ok _, Ok _ => mret ()
  end.

(** The first loop of [loadInitialState], over the status of the relations. *)
Fixpoint load_status (l : list RelationStatus) (orderedIds : list Z)
    (isScopeRelations : gmap Z ApiRelation) (relationSuspended : gmap Z bool) :
    M W (list Z * gmap Z ApiRelation * gmap Z bool) :=
  match l with
  | [] => mret (orderedIds, isScopeRelations, relationSuspended)
  | rs :: l' =>
      if negb (rst_InScope rs) then
        load_status l' orderedIds isScopeRelations relationSuspended
      else
        rel ← api_Relation api (rst_Tag rs);
        _ ← over L (λ t, set_relationCreated
              (<[rel_Id rel := true]> (t_relationCreated t)) t);
        load_status l' (orderedIds ++ [rel_Id rel])
          (<[rel_Id rel := rel]> isScopeRelations)
          (<[rel_Id rel := rst_Suspended rs]> relationSuspended)
  end.

(** The second loop, over the relations with local state. *)
Fixpoint load_known (ids : list Z) (isScopeRelations : gmap Z ApiRelation)
    (relationSuspended : gmap Z bool) (knownUnits : gmap string bool) : M W () :=
  match ids with
  | [] => mret ()
  | id :: ids' =>
      match isScopeRelations !! id with
      | Some rel =>
          _ ← tracker_joinRelation rel;
          load_known ids' isScopeRelations relationSuspended knownUnits
      | None =>
          if negb (default false (relationSuspended !! id)) then
            knownUnits ← sm_RemoveRelation sm id knownUnits;
            load_known ids' isScopeRelations relationSuspended knownUnits
          else load_known ids' isScopeRelations relationSuspended knownUnits
      end
  end.

(** [loadInitialState], once it has the status of the unit's relations. *)
Definition tracker_loadRelations (relationStatus : list RelationStatus) : M W () :=
  '(orderedIds, isScopeRelations, relationSuspended) ←
    load_status relationStatus [] ∅ ∅;
  knownIDs ← sm_KnownIDs sm;
  _ ← load_known knownIDs isScopeRelations relationSuspended ∅;
  for_each orderedIds (λ id,
    found ← sm_RelationFound sm id;
    if found : bool then mret ()
    else match isScopeRelations !! id with
         | Some rel => tracker_joinRelation rel
         | None => throw (GoPanic "nil pointer dereference")
         end).

Definition tracker_loadInitialState : M W () :=
  relationStatus ← api_RelationsStatus api;
  tracker_loadRelations relationStatus.

Definition tracker_setDying (id : Z) : M W () :=
  t ← gets (view L);
  match t_relationers t !! id with
  | None => mret ()
  | Some r =>
      _ ← relationer_SetDying id r;
      if relationer_IsImplicit r then
        over L (λ t, set_relationers (delete id (t_relationers t)) t)
      else mret ()
  end.

(** [maybeSetSubordinateDying] *)
Definition tracker_maybeSetSubordinateDying : M W () :=
  principalApp ← lift_result (UnitApplication principalName);
  t ← gets (view L);
  if existsb (λ '(_, r),
       bool_decide (rel_OtherApplication (ru_Relation (relr_ru r)) = principalApp)
       && bool_decide (ep_Scope (ru_Endpoint (relr_ru r)) = ScopeContainer)
       && negb (relr_dying r)) (map_to_list (t_relationers t))
  then mret ()
  else api_Destroy api.

(** Reading the charm's metadata once; a deleted charm has none. *)
Definition read_meta (charmMeta : option CharmMeta) : M W (option CharmMeta) :=
  match charmMeta with
  | Some m => mret (Some m)
  | None =>
      r ← try (api_CharmMeta api);
      match r with
      | Ok m => mret (Some m)
      | Err e => if decide (e = FileNotFound) then mret None else throw e
      end
  end.

(** Whether the charm implements the endpoint of a relation that was not
    created before. *)
Definition endpoint_known (id : Z) (ep : Endpoint) (charmMeta : option CharmMeta) :
    M W (bool * option CharmMeta) :=
  created ← look L (λ t, default false (t_relationCreated t !! id));
  if created : bool then mret (true, charmMeta)
  else
    charmMeta ← read_meta charmMeta;
    match charmMeta with
    | None => mret (true, charmMeta)
    | Some m =>
        b ← lift_result (Endpoint_ImplementedBy ep m);
        mret (b, charmMeta)
    end.

(** Joining a new relation; if its scope cannot be entered, its state goes
    away again. *)
Definition sync_join (id : Z) (rel : ApiRelation) (knownUnits : gmap string bool) :
    M W (gmap string bool) :=
  joined ← try (tracker_joinRelation rel);
  match joined with
  | Ok _ => mret knownUnits
  | Err joinErr =>
      removed ← try (sm_RemoveRelation sm id knownUnits);
      if negb (IsCodeCannotEnterScope joinErr) then throw joinErr
      else match removed with
      | Err (NotFound _) => mret knownUnits
      | Err e => throw e
      | Ok knownUnits => mret knownUnits
      end
  end.

(** A relation that was not known before, and exists. *)
Definition sync_new (id : Z) (rel : ApiRelation)
    (acc : option CharmMeta * gmap string bool) :
    M W (option CharmMeta * gmap string bool) :=
  let '(charmMeta, knownUnits) := acc in
  ep ← api_Endpoint api rel;
  _ ← if decide (ep_Role ep = RolePeer) then
        over L (λ t, set_isPeerRelation (<[id := true]> (t_isPeerRelation t)) t)
      else mret ();
  _ ← over L (λ t, set_remoteAppName
        (<[id := rel_OtherApplication rel]> (t_remoteAppName t)) t);
  '(known, charmMeta) ← endpoint_known id ep charmMeta;
  if negb known then mret (charmMeta, knownUnits)
  else
    knownUnits ← sync_join id rel knownUnits;
    mret (charmMeta, knownUnits).

(** The body of the loop of [SynchronizeScopes], for one relation; the charm
    metadata and the units looked up so far are carried along. *)
Definition sync_relation (id : Z) (relationSnapshot : RelationSnapshot)
    (acc : option CharmMeta * gmap string bool) :
    M W (option CharmMeta * gmap string bool) :=
  t ← gets (view L);
  match t_relationers t !! id with
  | Some relr =>
      _ ← modify (api_UpdateSuspended api (ru_Relation (relr_ru relr))
                    (rsn_Suspended relationSnapshot));
      _ ← if bool_decide (rsn_Life relationSnapshot = Dying)
             || rsn_Suspended relationSnapshot
          then tracker_setDying id else mret ();
      mret acc
  | None =>
      if bool_decide (rsn_Life relationSnapshot ≠ Alive)
         || rsn_Suspended relationSnapshot
      then mret acc
      else
        r ← try (api_RelationById api id);
        match r with
        | Err e =>
            if IsCodeNotFoundOrCodeUnauthorized e then
              _ ← tracker_relationGone id;
              mret acc
            else throw e
        | Ok rel => sync_new id rel acc
        end
  end.

Fixpoint sync_relations (l : list (Z * RelationSnapshot))
    (acc : option CharmMeta * gmap string bool) : M W () :=
  match l with
  | [] => mret ()
  | (id, rsn) :: l' => acc' ← sync_relation id rsn acc; sync_relations l' acc'
  end.

Definition tracker_SynchronizeScopes (relations : gmap Z RelationSnapshot) : M W () :=
  w ← get;
  _ ← sync_relations (range w (map_to_list relations)) (None, ∅);
  if subordinate then tracker_maybeSetSubordinateDying else mret ().

(** The queries. *)
Definition tracker_IsKnown (id : Z) : M W bool :=
  look L (λ t, bool_decide (is_Some (t_relationers t !! id))).

Definition tracker_relationer (id : Z) : M W relationer :=
  t ← gets (view L);
  match t_relationers t !! id with
  | Some r => mret r
  | None => throw (NotFound "relation: %d")
  end.

Definition tracker_IsImplicit (id : Z) : M W bool :=
  r ← tracker_relationer id;
  mret (relationer_IsImplicit r).

Definition tracker_IsPeerRelation (id : Z) : M W bool :=
  _ ← tracker_relationer id;
  look L (λ t, default false (t_isPeerRelation t !! id)).

Definition tracker_HasContainerScope (id : Z) : M W bool :=
  r ← tracker_relationer id;
  mret (bool_decide (ep_Scope (ru_Endpoint (relr_ru r)) = ScopeContainer)).

Definition tracker_RelationCreated (id : Z) : M W bool :=
  look L (λ t, default false (t_relationCreated t !! id)).

Definition tracker_RemoteApplication (id : Z) : M W string :=
  look L (λ t, default "" (t_remoteAppName t !! id)).

Definition tracker_State (id : Z) : M W RelState :=
  _ ← tracker_relationer id;
  sm_Relation sm id.

Definition tracker_StateFound (id : Z) : M W bool := sm_RelationFound sm id.

Definition tracker_Name (id : Z) : M W string :=
  r ← tracker_relationer id;
  mret (ep_Name (ru_Endpoint (relr_ru r))).

(** [PrepareHook] and [CommitHook] *)
Definition tracker_PrepareHook (hi : Info) : M W string :=
  if negb (IsRelation (Kind hi)) then throw (ErrNew "not a relation hook: %#v")
  else
    t ← gets (view L);
    match t_relationers t !! RelationId hi with
    | None => throw operation.ErrSkipExecute
    | Some r => relationer_PrepareHook sm r hi
    end.

Definition tracker_CommitHook (hi : Info) : M W () :=
  if negb (IsRelation (Kind hi)) then throw (ErrNew "not a relation hook: %#v")
  else
    t ← gets (view L);
    _ ← match t_relationers t !! RelationId hi with
        | None => mret ()
        | Some r => relationer_CommitHook sm api r hi
        end;
    if decide (Kind hi = RelationCreated) then
      over L (λ t, set_relationCreated
        (<[RelationId hi := true]> (t_relationCreated t)) t)
    else if decide (Kind hi = RelationBroken) then
      tracker_relationGone (RelationId hi)
    else mret ().

End tracker.

(** [RelationStateTracker], the methods the resolvers and the callbacks use. *)
Record RelationStateTracker (W : Type) : Type := MkRelationStateTracker {
  rt_PrepareHook : Info → M W string;
  rt_CommitHook : Info → M W ();
  rt_SynchronizeScopes : gmap Z RelationSnapshot → M W ();
  rt_IsKnown : Z → M W bool;
  rt_IsImplicit : Z → M W bool;
  rt_IsPeerRelation : Z → M W bool;
  rt_HasContainerScope : Z → M W bool;
  rt_RelationCreated : Z → M W bool;
  rt_RemoteApplication : Z → M W string;
  rt_State : Z → M W RelState;
  rt_StateFound : Z → M W bool;
  rt_LocalUnitName : string;
  rt_LocalUnitAndApplicationLife : M W (LifeValue * LifeValue);
}.
Arguments rt_PrepareHook {W} _ _.
Arguments rt_CommitHook {W} _ _.
Arguments rt_SynchronizeScopes {W} _ _.
Arguments rt_IsKnown {W} _ _.
Arguments rt_IsImplicit {W} _ _.
Arguments rt_IsPeerRelation {W} _ _.
Arguments rt_HasContainerScope {W} _ _.
Arguments rt_RelationCreated {W} _ _.
Arguments rt_RemoteApplication {W} _ _.
Arguments rt_State {W} _ _.
Arguments rt_StateFound {W} _ _.
Arguments rt_LocalUnitName {W} _.
Arguments rt_LocalUnitAndApplicationLife {W} _.

Definition relationStateTracker {NM : Names} {W} {MO : MapOrder W}
    (L : lens W Tracker) (sm : StateManager W) (api : TrackerAPI W)
    (subordinate : bool) (principalName unitName : string) :
    RelationStateTracker W := {|
  rt_PrepareHook := tracker_PrepareHook L sm;
  rt_CommitHook := tracker_CommitHook L sm api;
  rt_SynchronizeScopes := tracker_SynchronizeScopes L sm api subordinate principalName;
  rt_IsKnown := tracker_IsKnown L;
  rt_IsImplicit := tracker_IsImplicit L;
  rt_IsPeerRelation := tracker_IsPeerRelation L;
  rt_HasContainerScope := tracker_HasContainerScope L;
  rt_RelationCreated := tracker_RelationCreated L;
  rt_RemoteApplication := tracker_RemoteApplication L;
  rt_State := tracker_State L sm;
  rt_StateFound := tracker_StateFound sm;
  rt_LocalUnitName := unitName;
  rt_LocalUnitAndApplicationLife := api_Life api;
|}.
