(* ===== verification/TrackerFacts.v ===== *)
(** * The relation state tracker keeps its promises

    Every relation the tracker knows has a saved, well-formed state; hooks pass
    through [State.Validate] before they run and are recorded after, so the
    hook order of RelationState.v is what the charm sees; and what happens to
    suspended relations when the agent starts. *)

From S2P Require Import Prelude Hooks OpState RelationState RelationManager Operations Resolver RelationTracker.
Import life hooks hook.

Section facts.
Context {NM : Names} {W : Type} {MO : MapOrder W}
  (L : lens W Tracker) (sm : StateManager W) (api : TrackerAPI W)
  (states : W → gmap Z RelState).

(** What the tracker and the manager remember. *)
Definition tv (w : W) : Tracker * gmap Z RelState := (view L w, states w).

(** The world around the tracker: the controller's replies do not touch what
    the tracker and the manager remember, a relation asked for by id has that
    id, a relation unit is of the relation it was asked of, and stopping a
    watcher does not fail with a relation scope error. *)
Class TrackerEnv : Prop := {
  te_manager :: StateManagerSpec sm states;
  te_lens :: LensLaws L;
  te_apart :: Apart L states;
  te_SetRelation st : keeps (view L) (sm_SetRelation sm st);
  te_RemoveRelation id known : keeps (view L) (sm_RemoveRelation sm id known);
  te_RelationsStatus : keeps tv (api_RelationsStatus api);
  te_Relation tag : keeps tv (api_Relation api tag);
  te_RelationById id : keeps tv (api_RelationById api id);
  te_Endpoint rel : keeps tv (api_Endpoint api rel);
  te_RelationUnit rel : keeps tv (api_RelationUnit api rel);
  te_SetStatus rel s : keeps tv (api_SetStatus api rel s);
  te_UpdateSuspended rel b w : tv (api_UpdateSuspended api rel b w) = tv w;
  te_EnterScope ru : keeps tv (api_EnterScope api ru);
  te_LeaveScope ru : keeps tv (api_LeaveScope api ru);
  te_Watch : keeps tv (api_Watch api);
  te_StopWatcher : keeps tv (api_StopWatcher api);
  te_Destroy : keeps tv (api_Destroy api);
  te_IsLeader : keeps tv (api_IsLeader api);
  te_CharmMeta : keeps tv (api_CharmMeta api);
  te_RelationById_id id w rel w' :
    api_RelationById api id w = (Ok rel, w') → rel_Id rel = id;
  te_RelationUnit_id rel w ru w' :
    api_RelationUnit api rel w = (Ok ru, w') → ru_Relation ru = rel;
  te_StopWatcher_err w e w' :
    api_StopWatcher api w = (Err e, w') → IsCodeCannotEnterScope e = false;
}.

(** A property of the saved states that survives what the tracker does to them
    besides recording hooks: giving a new relation a fresh state, and forgetting
    a relation. *)
Class Closed (R : gmap Z RelState → Prop) : Prop := {
  closed_new m id : R m → m !! id = None → R (<[id := NewRelState id]> m);
  closed_delete m id : R m → R (delete id m);
}.

Context (R : gmap Z RelState → Prop) {RC : Closed R}.

(** The saved states are well formed, each under its own id. *)
Definition states_ok (m : gmap Z RelState) : Prop :=
  R m ∧ ∀ id s, m !! id = Some s → RelState_wf s ∧ rs_RelationId s = id.

(** Every relationer the tracker has is the one of its relation, and has a
    saved state. *)
Definition known_ok (t : Tracker) (m : gmap Z RelState) : Prop :=
  ∀ id r, t_relationers t !! id = Some r →
    relr_relationId r = id ∧ is_Some (m !! id).

Definition tracker_inv (w : W) : Prop :=
  states_ok (states w) ∧ known_ok (view L w) (states w).

(** ** Pieces *)

Context `{TE : TrackerEnv}.

Lemma tv_eq w w' : tv w' = tv w → view L w' = view L w ∧ states w' = states w.
Proof. unfold tv. intros H. by simplify_eq. Qed.

Lemma tracker_inv_tv w w' : tv w' = tv w → tracker_inv w → tracker_inv w'.
Proof. intros [H1 H2]%tv_eq. unfold tracker_inv. by rewrite H1, H2. Qed.

(** The invariant, with the tracker's fields fixed. *)
Definition inv_at (t : Tracker) (w : W) : Prop := tracker_inv w ∧ view L w = t.

Lemma inv_at_tv t w w' : tv w' = tv w → inv_at t w → inv_at t w'.
Proof.
  intros H [H1 H2]. split; [by eapply tracker_inv_tv|].
  apply tv_eq in H as [-> _]. done.
Qed.

Lemma inv_at_api {A} t (m : M W A) : keeps tv m →
  triple (inv_at t) m (λ _, inv_at t) (λ _, inv_at t).
Proof. intros H. eapply triple_keeps; [done|apply inv_at_tv]. Qed.

Lemma inv_update t w :
  states_ok (states w) → known_ok t (states w) → tracker_inv (update L t w).
Proof. intros ??. split; rewrite ?view_update, apart; done. Qed.

Lemma known_ok_insert t m st id :
  known_ok t m → known_ok t (<[id := st]> m).
Proof.
  intros H id' r Hr. destruct (H _ _ Hr) as [? [s Hs]]. split; [done|].
  destruct (decide (id = id')) as [<-|]; [by rewrite lookup_insert_eq|].
  by rewrite lookup_insert_ne, Hs.
Qed.

Lemma states_ok_new m id :
  states_ok m → m !! id = None → states_ok (<[id := NewRelState id]> m).
Proof.
  intros [HR H] Hid. split; [by apply closed_new|].
  intros id' s' [[<- <-]|[_ ?]]%lookup_insert_Some; [|by apply H].
  split; [apply NewRelState_wf|done].
Qed.

Lemma states_ok_delete m id : states_ok m → states_ok (delete id m).
Proof.
  intros [HR H]. split; [by apply closed_delete|].
  intros id' s [_ ?]%lookup_delete_Some. by apply H.
Qed.

Lemma SetRelation_inv_at t id :
  triple (λ w, inv_at t w ∧ states w !! id = None)
    (sm_SetRelation sm (NewRelState id))
    (λ _ w, inv_at t w ∧ is_Some (states w !! id))
    (λ _ w, inv_at t w).
Proof.
  intros w r w' [[[Hs Hk] Ht] Hid] H.
  pose proof (te_SetRelation _ _ _ _ H) as Hv.
  apply SetRelation_spec in H. unfold inv_at, tracker_inv. rewrite Hv.
  destruct r; simpl in H; rewrite H; [|tauto].
  rewrite lookup_insert_eq. split; [|done]. split; [|done]. split.
  - by apply states_ok_new.
  - by apply known_ok_insert.
Qed.

(** Removing the state of a relation the tracker does not have. *)
Lemma RemoveRelation_inv_at t id known :
  t_relationers t !! id = None →
  triple (inv_at t) (sm_RemoveRelation sm id known) (λ _, inv_at t) (λ _, inv_at t).
Proof.
  intros Hid w r w' [[Hs Hk] Ht] H.
  pose proof (te_RemoveRelation _ _ _ _ _ H) as Hv.
  apply RemoveRelation_spec in H.
  assert (inv_at t w') as Hw.
  { unfold inv_at, tracker_inv. rewrite Hv, H. destruct r; simpl; [|done].
    split; [|done]. split; [by apply states_ok_delete|].
    intros id' r Hr. destruct (Hk _ _ Hr) as [? Hsome]. split; [done|].
    rewrite lookup_delete_ne; [done|]. intros <-. congruence. }
  by destruct r.
Qed.

Lemma Join_inv_at t r :
  triple (inv_at t) (relationer_Join sm api r)
    (λ _ w, inv_at t w ∧ is_Some (states w !! relr_relationId r))
    (λ _, inv_at t).
Proof.
  unfold relationer_Join. destruct (relr_dying r); [by apply triple_throw|].
  apply triple_bind with (R := λ b w, inv_at t w ∧
    if b : bool then is_Some (states w !! relr_relationId r)
    else states w !! relr_relationId r = None).
  { intros w o w' Hw H. rewrite RelationFound_spec in H. simplify_eq.
    split; [done|]. case_bool_decide; [done|by apply eq_None_not_Some]. }
  intros found.
  apply triple_bind with (R := λ _ w, inv_at t w ∧
    is_Some (states w !! relr_relationId r)).
  { destruct found; [apply triple_ret; naive_solver|].
    eapply triple_conseq; [apply SetRelation_inv_at|naive_solver..]. }
  intros _ w o w' [Hw Hs] H. pose proof (te_EnterScope _ _ _ _ H) as Htv.
  pose proof (inv_at_tv _ _ _ Htv Hw). apply tv_eq in Htv as [_ Htv].
  rewrite Htv. destruct o; done.
Qed.

(** Adding the relationer that has joined. *)
Definition joined_as (rel : ApiRelation) (t : Tracker) (w : W) : Prop :=
  tracker_inv w ∧
  ∃ r, view L w = set_relationers (<[rel_Id rel := r]> (t_relationers t)) t.

Lemma join_loop_inv t rel r events :
  relr_relationId r = rel_Id rel →
  triple (inv_at t) (join_loop L sm api rel r events)
    (λ _, joined_as rel t) (λ _, inv_at t).
Proof.
  intros Hid. induction events as [|[] events IH]; simpl; try by apply triple_throw.
  apply triple_bind with (R := λ res w, inv_at t w ∧
    (res = Ok () → is_Some (states w !! rel_Id rel))).
  { apply triple_try; [|naive_solver].
    eapply triple_conseq; [apply Join_inv_at|done|..].
    - intros [] w [??]. by rewrite <- Hid.
    - done. }
  intros [[]|e].
  - apply triple_bind with (R := λ _ w, inv_at t w ∧ is_Some (states w !! rel_Id rel)).
    { intros w o w' [Hw Hs] H. pose proof (te_IsLeader _ _ _ H) as Htv.
      pose proof (inv_at_tv _ _ _ Htv Hw). apply tv_eq in Htv as [_ Htv].
      rewrite Htv. destruct o; naive_solver. }
    intros isLeader.
    apply triple_bind with (R := λ _ w, inv_at t w ∧ is_Some (states w !! rel_Id rel)).
    { destruct isLeader; [|by apply triple_ret].
      intros w o w' [Hw Hs] H. pose proof (te_SetStatus _ _ _ _ _ H) as Htv.
      pose proof (inv_at_tv _ _ _ Htv Hw). apply tv_eq in Htv as [_ Htv].
      rewrite Htv. destruct o; naive_solver. }
    intros _. apply triple_modify. intros w [[[Hs Hk] <-] Hsome]. split.
    + apply inv_update; [done|]. intros id r'. simpl. rewrite lookup_insert_Some.
      intros [[<- <-]|[_ Hr]]; [done|by apply Hk].
    + exists r. by rewrite view_update.
  - destruct (IsCodeCannotEnterScopeYet e).
    + eapply triple_conseq; [apply IH|naive_solver..].
    + apply triple_throw. naive_solver.
Qed.

Lemma joinRelation_inv t rel :
  triple (inv_at t) (tracker_joinRelation L sm api rel)
    (λ _, joined_as rel t)
    (λ e w, IsCodeCannotEnterScope e = true → inv_at t w).
Proof.
  unfold tracker_joinRelation.
  apply triple_bind with (R := λ ru w, inv_at t w ∧ ru_Relation ru = rel).
  { intros w o w' Hw H. pose proof (te_RelationUnit _ _ _ _ H) as Htv.
    pose proof (inv_at_tv _ _ _ Htv Hw). destruct o; [|done].
    split; [done|]. by eapply te_RelationUnit_id. }
  intros ru.
  apply triple_bind with (R := λ _ w, inv_at t w ∧ ru_Relation ru = rel).
  { intros w o w' [Hw Hru] H. pose proof (te_Watch _ _ _ H) as Htv.
    pose proof (inv_at_tv _ _ _ Htv Hw). destruct o; naive_solver. }
  intros events.
  apply triple_bind with (R := λ res w,
    match res with Ok _ => joined_as rel t w | Err _ => inv_at t w end).
  { apply triple_try; [|done]. intros w o w' [Hw Hru].
    by apply (join_loop_inv t rel (NewRelationer ru)); [by rewrite <- Hru|]. }
  intros res.
  apply triple_bind with (R := λ stop w,
    match res with Ok _ => joined_as rel t w | Err _ => inv_at t w end
    ∧ ∀ e, stop = Err e → IsCodeCannotEnterScope e = false).
  { apply triple_try; [|naive_solver].
    intros w o w' Hw H. pose proof (te_StopWatcher _ _ _ H) as Htv.
    assert (match res with Ok _ => joined_as rel t w' | Err _ => inv_at t w' end) as Hw'.
    { destruct res; [|by eapply inv_at_tv]. destruct Hw as [? [r ?]]. split.
      - by eapply tracker_inv_tv.
      - exists r. apply tv_eq in Htv as [-> _]. done. }
    destruct o; (split; [done|]); [done|].
    intros e' ?. simplify_eq. by eapply te_StopWatcher_err. }
  intros stop. destruct res as [[]|e]; [destruct stop as [[]|e]|].
  - apply triple_ret. naive_solver.
  - apply triple_throw. intros w [_ H] He. rewrite H in He by done. done.
  - apply triple_throw. naive_solver.
Qed.

(** ** The operations keep the invariant *)

(** Worlds in which the tracker and the manager remember given things. *)
Definition at_tm (t : Tracker) (m : gmap Z RelState) (w : W) : Prop :=
  view L w = t ∧ states w = m.

Lemma triple_at {A} (c : M W A) Q E :
  (∀ t m, states_ok m → known_ok t m → triple (at_tm t m) c Q E) →
  triple tracker_inv c Q E.
Proof. intros H w r w' [Hs Hk]. eapply H; done. Qed.

Lemma at_inv t m w : states_ok m → known_ok t m → at_tm t m w → tracker_inv w.
Proof. intros ?? [Ht Hm]. unfold tracker_inv. by rewrite Ht, Hm. Qed.

Lemma at_api {A} t m (c : M W A) : keeps tv c →
  triple (at_tm t m) c (λ _, at_tm t m) (λ _, at_tm t m).
Proof.
  intros H. eapply triple_keeps; [done|]. intros w w' [Ht Hm]%tv_eq.
  unfold at_tm. by rewrite Ht, Hm.
Qed.

Lemma at_over t m f E :
  triple (at_tm t m) (over L f) (λ _, at_tm (f t) m) E.
Proof.
  apply triple_modify. intros w [<- <-]. split; [apply view_update|apply apart].
Qed.

(** [die] removes the state of its relation, or leaves everything. *)
Lemma die_spec r t m :
  triple (at_tm t m) (relationer_die sm api r)
    (λ _, at_tm t (delete (relr_relationId r) m)) (λ _, at_tm t m).
Proof.
  unfold relationer_die.
  apply triple_bind with (R := λ _, at_tm t m).
  { apply triple_try; [|done]. by apply at_api, te_LeaveScope. }
  intros res. apply triple_bind with (R := λ _, at_tm t m).
  { destruct res as [|e]; [by apply triple_ret|].
    destruct (IsCodeNotFoundOrCodeUnauthorized e); [by apply triple_ret|by apply triple_throw]. }
  intros _.
  apply triple_bind with (R := λ _, at_tm t (delete (relr_relationId r) m));
    [|by intros; apply triple_ret].
  intros w o w' [Ht Hm] H. pose proof (te_RemoveRelation _ _ _ _ _ H) as Hv.
  apply RemoveRelation_spec in H. unfold at_tm. rewrite Hv, H, Ht, Hm. by destruct o.
Qed.

(** Forgetting a relation on both sides. *)
Lemma inv_forget t m id t' :
  states_ok m → known_ok t m →
  t_relationers t' = delete id (t_relationers t) →
  states_ok (delete id m) ∧ known_ok t' (delete id m).
Proof.
  intros Hs Hk Ht'. split; [by apply states_ok_delete|].
  - intros id' r. rewrite Ht'. intros [Hne Hr]%lookup_delete_Some.
    rewrite lookup_delete_ne by done. by apply Hk.
Qed.

Lemma known_ok_replace t m id r r' :
  known_ok t m → t_relationers t !! id = Some r → relr_ru r' = relr_ru r →
  known_ok (set_relationers (<[id := r']> (t_relationers t)) t) m.
Proof.
  intros Hk Hr Hru id' r0. simpl. rewrite lookup_insert_Some.
  intros [[<- <-]|[_ ?]]; [|by apply Hk].
  unfold relr_relationId. rewrite Hru. by apply (Hk id r).
Qed.

Lemma setDying_inv id :
  triple tracker_inv (tracker_setDying L sm api id)
    (λ _, tracker_inv) (λ _, tracker_inv).
Proof.
  apply triple_at. intros t m Hs Hk. unfold tracker_setDying.
  apply (triple_read _ _ _ t); [by intros w [??]|].
  destruct (t_relationers t !! id) as [r|] eqn:Hr;
    [|apply triple_ret; intros; by eapply at_inv].
  destruct (Hk _ _ Hr) as [Hid _].
  pose proof (known_ok_replace _ _ _ _ (MkRelationer (relr_ru r) true) Hk Hr eq_refl)
    as Hk1.
  set (t1 := set_relationers _ t) in Hk1.
  apply triple_bind with (R := λ _,
    at_tm t1 (if relationer_IsImplicit r then delete id m else m)).
  { eapply triple_bind; [apply at_over|]. intros []. fold t1.
    destruct (relationer_IsImplicit r); [|by apply triple_ret].
    eapply triple_conseq; [apply die_spec|done|by rewrite Hid|].
    intros e w. by apply at_inv. }
  intros _. destruct (relationer_IsImplicit r);
    [|apply triple_ret; intros; by eapply at_inv].
  eapply triple_conseq with (E' := λ _, tracker_inv); [apply at_over|done| |done].
  intros [] w.
  destruct (inv_forget t1 m id (set_relationers (delete id (t_relationers t1)) t1))
    as [??]; [done..|]. by apply at_inv.
Qed.

(** Adding to what the tracker remembers, other than its relationers. *)
Lemma over_inv f E :
  (∀ t, t_relationers (f t) = t_relationers t) →
  triple tracker_inv (over L f) (λ _, tracker_inv) E.
Proof.
  intros Hf. apply triple_at. intros t m Hs Hk.
  eapply triple_conseq with (E' := E); [apply at_over|done| |done].
  intros [] w. apply at_inv; [done|]. intros id r. rewrite Hf. apply Hk.
Qed.

Lemma relationGone_spec id t m E :
  triple (at_tm t m) (tracker_relationGone L id)
    (λ _, at_tm (MkTracker (delete id (t_relationers t))
       (delete id (t_remoteAppName t)) (delete id (t_relationCreated t))
       (delete id (t_isPeerRelation t))) m) E.
Proof. apply at_over. Qed.

Lemma known_ok_less t t' m :
  known_ok t m → (∀ id r, t_relationers t' !! id = Some r → t_relationers t !! id = Some r) →
  known_ok t' m.
Proof. intros Hk Hsub id r Hr. by apply Hk, Hsub. Qed.

Definition anyE : error → W → Prop := λ _ _, True.

Lemma read_meta_inv t charmMeta :
  triple (inv_at t) (read_meta api charmMeta) (λ _, inv_at t) anyE.
Proof.
  destruct charmMeta; simpl; [by apply triple_ret|].
  apply triple_bind with (R := λ _, inv_at t).
  { apply triple_try; [|done]. apply inv_at_api, te_CharmMeta. }
  intros [|e]; [by apply triple_ret|].
  case_decide; [by apply triple_ret|by apply triple_throw].
Qed.

Lemma endpoint_known_inv t id ep charmMeta :
  triple (inv_at t) (endpoint_known L api id ep charmMeta) (λ _, inv_at t) anyE.
Proof.
  unfold endpoint_known, look.
  apply triple_bind with (R := λ _, inv_at t); [by apply triple_gets|].
  intros []; [by apply triple_ret|].
  apply triple_bind with (R := λ _, inv_at t); [apply read_meta_inv|].
  intros [mt|]; [|by apply triple_ret].
  apply triple_bind with (R := λ _, inv_at t); [|by intros; apply triple_ret].
  apply triple_lift. intros. by destruct (Endpoint_ImplementedBy ep mt).
Qed.

(** Joining a relation the tracker does not have, and undoing it when the scope
    cannot be entered. *)
Lemma sync_join_inv t id rel knownUnits :
  rel_Id rel = id → t_relationers t !! id = None →
  triple (inv_at t) (sync_join L sm api id rel knownUnits) (λ _, tracker_inv) anyE.
Proof.
  intros Hrel Hid.
  apply triple_bind with (R := λ joined w,
    match joined with
    | Ok _ => tracker_inv w
    | Err e => IsCodeCannotEnterScope e = true → inv_at t w
    end).
  { apply triple_try; [|done].
    eapply triple_conseq; [apply joinRelation_inv|done|by intros [] w [? _]|done]. }
  intros [[]|e]; [by apply triple_ret|].
  destruct (IsCodeCannotEnterScope e) eqn:He; simpl; last first.
  { apply triple_bind with (R := λ _ _, True); [|by intros; apply triple_throw].
    by intros w [] w' _ _. }
  apply triple_bind with (R := λ _, inv_at t).
  { apply triple_try; [|done].
    eapply triple_conseq; [by apply (RemoveRelation_inv_at t)|naive_solver|done|done]. }
  intros [?|[]]; try (by apply triple_throw); apply triple_ret; by intros w [? _].
Qed.

(** Changing what the tracker knows but its relationers. *)
Lemma over_other_inv id f :
  (∀ t, t_relationers (f t) = t_relationers t) →
  triple (λ w, tracker_inv w ∧ t_relationers (view L w) !! id = None) (over L f)
    (λ _ w, tracker_inv w ∧ t_relationers (view L w) !! id = None) anyE.
Proof.
  intros Hf w o w' [Hw Hsame] H. pose proof (over_inv f anyE Hf _ _ _ Hw H) as Hi.
  unfold over, modify in H. simplify_eq. split; [done|]. by rewrite view_update, Hf.
Qed.

Lemma sync_new_inv t id rel acc :
  rel_Id rel = id → t_relationers t !! id = None →
  triple (inv_at t) (sync_new L sm api id rel acc) (λ _, tracker_inv) anyE.
Proof.
  intros Hid Hr. destruct acc as [charmMeta knownUnits]. unfold sync_new.
  apply triple_bind with (R := λ _, inv_at t).
  { eapply triple_conseq; [apply inv_at_api, te_Endpoint|done..]. }
  intros ep. set (new w := tracker_inv w ∧ t_relationers (view L w) !! id = None).
  apply triple_bind with (R := λ _, new).
  { eapply triple_conseq with (P' := new) (E' := anyE) (Q' := λ _, new);
      [|intros w [? <-]; done|done|done].
    case_decide; [by apply over_other_inv|by apply triple_ret]. }
  intros _. eapply triple_bind; [by apply (over_other_inv id)|]. intros [].
  intros w0 o w' [Hw Hsame]. assert (inv_at (view L w0) w0) as Hw0 by done.
  revert o w' Hw0. clear Hw. revert Hsame. generalize (view L w0) as t1.
  intros t1 Hsame o w' Hw0 H. revert Hw0 H.
  apply (triple_bind (inv_at t1) anyE (λ _, inv_at t1)); [apply endpoint_known_inv|].
  intros [known charmMeta']. destruct (negb known).
  - apply triple_ret. by intros w [? _].
  - apply triple_bind with (R := λ _, tracker_inv); [by apply sync_join_inv|].
    intros. by apply triple_ret.
Qed.

Lemma relationGone_inv id :
  triple tracker_inv (tracker_relationGone L id) (λ _, tracker_inv) anyE.
Proof.
  apply triple_at with (Q := λ _, tracker_inv).
  intros t0 m Hs Hk. eapply triple_conseq with (E' := anyE);
    [apply relationGone_spec|done| |done].
  intros [] w. apply at_inv; [done|]. eapply known_ok_less; [done|].
  intros id1 r1; simpl; by intros [_ ?]%lookup_delete_Some.
Qed.

Lemma sync_relation_inv id rsn acc :
  triple tracker_inv (sync_relation L sm api id rsn acc) (λ _, tracker_inv) anyE.
Proof.
  assert (∀ t, triple (inv_at t) (sync_relation L sm api id rsn acc)
    (λ _, tracker_inv) anyE) as Ht.
  2: { intros w o w' Hinv H. by eapply (Ht (view L w)). }
  intros t. unfold sync_relation. apply (triple_read _ _ _ t); [by intros w [_ ?]|].
  destruct (t_relationers t !! id) as [relr|] eqn:Hr.
  { apply triple_bind with (R := λ _, tracker_inv).
    { apply triple_modify. intros w [Hw _].
      eapply tracker_inv_tv; [apply te_UpdateSuspended|done]. }
    intros _. apply triple_bind with (R := λ _, tracker_inv); [|by intros; apply triple_ret].
    destruct (_ || _); [|by apply triple_ret].
    eapply triple_conseq; [apply setDying_inv|done..]. }
  destruct (_ || _); [apply triple_ret; by intros w [? _]|].
  apply triple_bind with (R := λ r w, (∀ rel, r = Ok rel → rel_Id rel = id) ∧ inv_at t w).
  { apply triple_try; [|done]. intros w o w' Hw H.
    pose proof (inv_at_tv _ _ _ (te_RelationById _ _ _ _ H) Hw).
    destruct o; (split; [|done]); [|done].
    intros rel ?. simplify_eq. by eapply te_RelationById_id. }
  intros r. apply triple_pure. intros Hid. destruct r as [rel|e]; [by apply sync_new_inv; auto|].
  destruct (IsCodeNotFoundOrCodeUnauthorized e); [|by apply triple_throw].
  apply triple_bind with (R := λ _, tracker_inv); [|by intros; apply triple_ret].
  eapply triple_conseq; [apply relationGone_inv|by intros w [? _]|done|done].
Qed.

Lemma sync_relations_inv l acc :
  triple tracker_inv (sync_relations L sm api l acc) (λ _, tracker_inv) anyE.
Proof.
  revert acc. induction l as [|[id rsn] l IH]; intros acc; simpl; [by apply triple_ret|].
  apply triple_bind with (R := λ _, tracker_inv); [apply sync_relation_inv|done].
Qed.

Lemma SynchronizeScopes_inv subordinate principalName relations :
  triple tracker_inv
    (tracker_SynchronizeScopes L sm api subordinate principalName relations)
    (λ _, tracker_inv) anyE.
Proof.
  unfold tracker_SynchronizeScopes.
  apply triple_bind with (R := λ _, tracker_inv);
    [by intros w o w' Hw H; unfold get in H; simplify_eq|].
  intros w0. apply triple_bind with (R := λ _, tracker_inv); [apply sync_relations_inv|].
  intros _. destruct subordinate; [|by apply triple_ret].
  unfold tracker_maybeSetSubordinateDying.
  apply triple_bind with (R := λ _, tracker_inv).
  { apply triple_lift. intros. by destruct (UnitApplication _). }
  intros app. apply triple_bind with (R := λ _, tracker_inv); [by apply triple_gets|].
  intros t. destruct (existsb _ _); [by apply triple_ret|].
  eapply triple_conseq; [eapply triple_keeps; [apply te_Destroy|]|done..].
  intros. by eapply tracker_inv_tv.
Qed.

End facts.

(** ** The relation protocol machine

    The abstract contract of the tracker: a set of relation states that grows
    by fresh states, forgets relations, and otherwise changes only by hooks
    that are valid for the state of their relation. *)
Abbreviation rel_states := (gmap Z RelState).

Inductive rel_silent : rel_states → rel_states → Prop :=
| rel_new m id : m !! id = None → rel_silent m (<[id := NewRelState id]> m)
| rel_forget m id : rel_silent m (delete id m).

Inductive rel_hook (hi : Info) : rel_states → rel_states → Prop :=
| rel_update m s s' :
    m !! RelationId hi = Some s → RelState_Validate s hi = Ok () →
    Kind hi ≠ RelationBroken → RelState_UpdateStateForHook s hi = Ok s' →
    rel_hook hi m (<[RelationId hi := s']> m)
| rel_broken m s :
    m !! RelationId hi = Some s → RelState_Validate s hi = Ok () →
    Kind hi = RelationBroken → rel_hook hi m (delete (RelationId hi) m).

Inductive rel_trace (m0 : rel_states) : list Info → rel_states → Prop :=
| rel_start : rel_trace m0 [] m0
| rel_silently his m1 m2 :
    rel_trace m0 his m1 → rel_silent m1 m2 → rel_trace m0 his m2
| rel_by_hook his hi m1 m2 :
    rel_trace m0 his m1 → rel_hook hi m1 m2 → rel_trace m0 (his ++ [hi]) m2.

#[global] Instance rel_trace_closed m0 his : Closed (rel_trace m0 his).
Proof.
  split.
  - intros m id H Hid. econstructor; [done|by constructor].
  - intros m id H. econstructor; [done|constructor].
Qed.

(** ** Runs of the tracker *)

Section runs.
Context {NM : Names} {W : Type} {MO : MapOrder W}
  (L : lens W Tracker) (sm : StateManager W) (api : TrackerAPI W)
  (states : W → gmap Z RelState) (subordinate : bool) (principalName : string).

(** What the uniter does with its tracker: synchronise it with the remote
    state, or run a hook: prepare it, run its body, and commit it; a hook whose
    relation is gone is committed without being run.  The result is the hooks
    that ran. *)
Inductive trk_event : Type :=
| TrkSync (relations : gmap Z RelationSnapshot)
| TrkHook (hi : Info) (body : M W ()).

Definition trk_run (ev : trk_event) : M W (list Info) :=
  match ev with
  | TrkSync relations =>
      _ ← tracker_SynchronizeScopes L sm api subordinate principalName relations;
      mret []
  | TrkHook hi body =>
      r ← try (tracker_PrepareHook L sm hi);
      match r with
      | Ok _ =>
          _ ← body;
          _ ← tracker_CommitHook L sm api hi;
          mret [hi]
      | Err e =>
          if decide (e = operation.ErrSkipExecute) then
            _ ← tracker_CommitHook L sm api hi;
            mret []
          else throw e
      end
  end.

Fixpoint trk_runs (evs : list trk_event) : M W (list Info) :=
  match evs with
  | [] => mret []
  | ev :: evs' =>
      his ← trk_run ev;
      his' ← trk_runs evs';
      mret (his ++ his')
  end.

Context {TE : TrackerEnv L sm api states}.

Lemma Validate_not_skip s hi :
  RelState_Validate s hi ≠ Err operation.ErrSkipExecute.
Proof. unfold RelState_Validate. repeat case_decide; try done; by destruct (_ !! _). Qed.

(** What a prepared hook tells of the tracker. *)
Lemma PrepareHook_spec R t m hi :
  states_ok R m → known_ok t m →
  triple (at_tm L states t m) (tracker_PrepareHook L sm hi)
    (λ _ w, at_tm L states t m w ∧ IsRelation (Kind hi) = true ∧
       ∃ r s, t_relationers t !! RelationId hi = Some r ∧
         relationer_IsImplicit r = false ∧
         m !! RelationId hi = Some s ∧ RelState_Validate s hi = Ok ())
    (λ e w, at_tm L states t m w ∧
       (e = operation.ErrSkipExecute → t_relationers t !! RelationId hi = None)).
Proof.
  intros [_ Hs] Hk. unfold tracker_PrepareHook.
  destruct (IsRelation (Kind hi)) eqn:Hrel; simpl; [|by apply triple_throw].
  apply (triple_read _ _ _ t); [by intros w [??]|].
  destruct (t_relationers t !! RelationId hi) as [r|] eqn:Hr; [|by apply triple_throw].
  destruct (Hk _ _ Hr) as [_ [s Hsm]]. unfold relationer_PrepareHook.
  destruct (relationer_IsImplicit r) eqn:Hi; [by apply triple_throw|].
  intros w o w' [Hwt Hwm] H. unfold mbind, M_bind, lift_result in H.
  rewrite Relation_spec, Hwm, Hsm in H.
  destruct (Hs _ _ Hsm) as [Hwf _]. rewrite (RelState_copy_id _ Hwf) in H.
  destruct (RelState_Validate s hi) as [[]|e] eqn:HV; simplify_eq/=.
  - apply mret_inv in H as [-> ->]. split; [done|]. split; [done|].
    by exists r, s.
  - split; [done|]. intros ->. by destruct (Validate_not_skip s hi).
Qed.

Lemma Update_id s hi s' :
  RelState_UpdateStateForHook s hi = Ok s' → rs_RelationId s' = rs_RelationId s.
Proof.
  unfold RelState_UpdateStateForHook, map_assign, mbind, result_bind.
  repeat case_decide; try case_bool_decide; try case_decide; intros; simplify_eq; try done;
    repeat match goal with H : context [match ?x with _ => _ end] |- _ => destruct x end;
    by simplify_eq.
Qed.

Section commit.
Context (m0 : rel_states) (his : list Info).

Abbreviation inv l := (tracker_inv L states (rel_trace m0 l)).

(** Committing a hook that was prepared. *)
Lemma CommitHook_spec t m hi r s :
  states_ok (rel_trace m0 his) m → known_ok t m →
  IsRelation (Kind hi) = true → t_relationers t !! RelationId hi = Some r →
  relationer_IsImplicit r = false →
  m !! RelationId hi = Some s → RelState_Validate s hi = Ok () →
  triple (at_tm L states t m) (tracker_CommitHook L sm api hi)
    (λ _, inv (his ++ [hi])) anyE.
Proof.
  intros Hok Hk Hrel Hr Hi Hs HV. pose proof Hok as [Htr Hwf].
  destruct (Hwf _ _ Hs) as [Hswf Hsid]. destruct (Hk _ _ Hr) as [Hrid _].
  unfold tracker_CommitHook. rewrite Hrel. simpl.
  apply (triple_read _ _ _ t); [by intros w [??]|]. rewrite Hr.
  unfold relationer_CommitHook. rewrite Hi.
  destruct (decide (Kind hi = RelationBroken)) as [Hb|Hb].
  - rewrite decide_False by congruence.
    apply triple_bind with (R := λ _, at_tm L states t (delete (RelationId hi) m)).
    { eapply triple_conseq; [by apply die_spec|done|by rewrite Hrid|done]. }
    intros _. eapply triple_conseq with (E' := anyE);
      [by eapply relationGone_spec|done| |done].
    intros [] w. eapply at_inv.
    + destruct (states_ok_delete _ _ (RelationId hi) Hok) as [_ ?]. split; [|done].
      eapply rel_by_hook; [done|]. by eapply rel_broken.
    + intros id r'. simpl. intros [Hne Hr']%lookup_delete_Some.
      rewrite lookup_delete_ne by done. by apply Hk.
  - pose proof (RelState_Update_wf_eq s hi Hswf) as HU.
    set (s' := if decide _ then _ else _) in HU. clearbody s'.
    pose proof (RelState_update_wf _ _ _ Hswf HV HU) as Hwf'.
    pose proof (Update_id _ _ _ HU) as Hid'. rewrite Hsid in Hid'.
    assert (∀ t', (∀ id, is_Some (t_relationers t' !! id) → t_relationers t' !! id = t_relationers t !! id) →
      ∀ w, at_tm L states t' (<[RelationId hi := s']> m) w → inv (his ++ [hi]) w) as Hinv.
    { intros t' Ht' w. eapply at_inv.
      - split; [eapply rel_by_hook; [done|by eapply rel_update]|].
        intros id x [[<- <-]|[_ ?]]%lookup_insert_Some; [done|by apply Hwf].
      - apply known_ok_insert. intros id x Hx. apply Hk. rewrite <- Ht'; eauto. }
    apply triple_bind with (R := λ _, at_tm L states t (<[RelationId hi := s']> m)).
    { intros w o w' [Hwt Hwm] H. unfold mbind, M_bind, lift_result in H.
      rewrite Relation_spec, Hwm, Hs, (RelState_copy_id _ Hswf), HU in H.
      pose proof (te_SetRelation L sm api states _ _ _ _ H) as Hv.
      apply (SetRelation_spec (states:=states)) in H.
      destruct o; [|done]. split; [congruence|]. simpl in H. by rewrite H, Hid', Hwm. }
    intros _. case_decide.
    + eapply triple_conseq with (E' := anyE); [by eapply at_over|done| |done].
      intros [] w. by apply Hinv.
    + apply triple_ret. by apply Hinv.
Qed.

(** Committing a hook whose relation is gone. *)
Lemma CommitHook_gone t m hi :
  states_ok (rel_trace m0 his) m → known_ok t m →
  t_relationers t !! RelationId hi = None →
  triple (at_tm L states t m) (tracker_CommitHook L sm api hi) (λ _, inv his) anyE.
Proof.
  intros Hok Hk Hr. unfold tracker_CommitHook.
  destruct (IsRelation (Kind hi)); simpl; [|by apply triple_throw].
  apply (triple_read _ _ _ t); [by intros w [??]|]. rewrite Hr.
  apply triple_bind with (R := λ _, at_tm L states t m); [by apply triple_ret|].
  intros _. repeat case_decide.
  - eapply triple_conseq with (E' := anyE); [by eapply at_over|done| |done].
    intros [] w. by eapply at_inv.
  - eapply triple_conseq with (E' := anyE); [by eapply relationGone_spec|done| |done].
    intros [] w. eapply at_inv; [done|]. intros id r'. simpl.
    intros [_ ?]%lookup_delete_Some. by apply Hk.
  - apply triple_ret. intros w. by eapply at_inv.
Qed.

(** Bodies of hooks leave the tracker alone. *)
Definition body_keeps (ev : trk_event) : Prop :=
  match ev with TrkSync _ => True | TrkHook _ body => keeps (tv L states) body end.

Lemma trk_run_inv ev :
  body_keeps ev →
  triple (inv his) (trk_run ev) (λ new, inv (his ++ new)) anyE.
Proof.
  intros Hbody. destruct ev as [relations|hi body]; simpl.
  { apply triple_bind with (R := λ _, inv his); [by eapply SynchronizeScopes_inv; apply _|].
    intros _. apply triple_ret. intros w. by rewrite app_nil_r. }
  apply triple_at. intros t m Hok Hk.
  set (Q (ok : bool) (w : W) := at_tm L states t m w ∧
    if ok then IsRelation (Kind hi) = true ∧
       ∃ r s, t_relationers t !! RelationId hi = Some r ∧
         relationer_IsImplicit r = false ∧
         m !! RelationId hi = Some s ∧ RelState_Validate s hi = Ok ()
    else t_relationers t !! RelationId hi = None).
  apply triple_bind with (R := λ res w,
    match res with
    | Ok _ => Q true w
    | Err e => e = operation.ErrSkipExecute → Q false w
    end).
  { apply triple_try; [|done].
    eapply triple_conseq; [by apply (PrepareHook_spec (rel_trace m0 his) t m)|done|..];
      unfold Q; naive_solver. }
  intros [name|e].
  - apply triple_bind with (R := λ _, Q true).
    { eapply triple_conseq; [eapply triple_keeps; [exact Hbody|]|done|done|done].
      intros w w' Htv. unfold Q, at_tm. apply tv_eq in Htv as [-> ->]. done. }
    intros _ w o w' [Hw (Hrel & r & s & ? & ? & ? & ?)].
    revert w o w' Hw. change (triple (at_tm L states t m)
      (tracker_CommitHook L sm api hi ≫= λ _, mret [hi])
      (λ new, inv (his ++ new)) anyE).
    apply triple_bind with (R := λ _, inv (his ++ [hi])); [by eapply CommitHook_spec|].
    intros _. by apply triple_ret.
  - case_decide; [|by apply triple_throw].
    intros w o w' HQ. destruct (HQ ltac:(done)) as [Hw Hr]. revert w o w' Hw HQ.
    intros w o w' Hw _. revert w o w' Hw. change (triple (at_tm L states t m)
      (tracker_CommitHook L sm api hi ≫= λ _, mret [])
      (λ new, inv (his ++ new)) anyE).
    apply triple_bind with (R := λ _, inv his); [by apply CommitHook_gone|].
    intros _. apply triple_ret. intros w. by rewrite app_nil_r.
Qed.

End commit.

Lemma trk_runs_inv m0 his evs :
  Forall body_keeps evs →
  triple (tracker_inv L states (rel_trace m0 his)) (trk_runs evs)
    (λ new, tracker_inv L states (rel_trace m0 (his ++ new))) anyE.
Proof.
  intros Hall. revert his. induction Hall as [|ev evs Hev _ IH]; intros his; simpl.
  { apply triple_ret. intros w. by rewrite app_nil_r. }
  eapply triple_bind; [by apply trk_run_inv|]. intros new; simpl.
  eapply triple_bind; [apply IH|]. intros new'; simpl.
  apply triple_ret. intros w. by rewrite app_assoc.
Qed.

(** The states a run starts from. *)
Definition tracker_ok (w : W) : Prop := tracker_inv L states (λ _, True) w.

Lemma tracker_ok_start w :
  tracker_ok w → tracker_inv L states (rel_trace (states w) []) w.
Proof. intros [[_ ?] ?]. split; [|done]. split; [constructor|done]. Qed.

Lemma tracker_ok_forget R w : tracker_inv L states R w → tracker_ok w.
Proof. intros [[_ ?] ?]. by split. Qed.


(** *** What the charm sees of a remote unit *)

Definition phase_of (m : rel_states) (id : Z) (u : string) : uphase :=
  match m !! id with Some s => phase s u | None => Absent end.

(** The life of a unit in a relation that may be forgotten and come back. *)
Inductive unit_life : list HookKind → uphase → uphase → Prop :=
| life_nil p : unit_life [] p p
| life_hook ks p q k r :
    unit_life ks p q → unit_step k q r → unit_life (ks ++ [k]) p r
| life_forgotten ks p q : unit_life ks p q → unit_life ks p Absent.

Lemma rel_trace_wf m0 his m :
  (∀ id s, m0 !! id = Some s → RelState_wf s) → rel_trace m0 his m →
  ∀ id s, m !! id = Some s → RelState_wf s.
Proof.
  intros H0. induction 1 as [|his m1 m2 _ IH Hs|his hi m1 m2 _ IH Hh]; [done|..].
  - destruct Hs as [m i Hi|m i]; intros id s.
    + intros [[_ <-]|[_ ?]]%lookup_insert_Some; [apply NewRelState_wf|eauto].
    + intros [_ ?]%lookup_delete_Some. eauto.
  - destruct Hh as [m s s' Hs HV Hk HU|m s Hs HV Hk]; intros id s1.
    + intros [[_ <-]|[_ ?]]%lookup_insert_Some; [|eauto].
      eapply RelState_update_wf; [|done..]. eauto.
    + intros [_ ?]%lookup_delete_Some. eauto.
Qed.

Lemma rel_trace_life m0 his m id u :
  (∀ id s, m0 !! id = Some s → RelState_wf s) → u ≠ "" →
  rel_trace m0 his m → Forall relation_hook his →
  unit_life (Kind <$> filter (λ hi, RelationId hi = id ∧ RemoteUnit hi = u) his)
    (phase_of m0 id u) (phase_of m id u).
Proof.
  intros H0 Hu Htr. induction Htr as [|his m1 m2 Htr IH Hs|his hi m1 m2 Htr IH Hh];
    intros Hall; [constructor|..].
  - specialize (IH Hall). destruct Hs as [m i Hi|m i]; unfold phase_of.
    + destruct (decide (i = id)) as [<-|]; [|by rewrite lookup_insert_ne].
      rewrite lookup_insert_eq. change (phase (NewRelState i) u) with Absent.
      by eapply life_forgotten.
    + destruct (decide (i = id)) as [<-|]; [|by rewrite lookup_delete_ne].
      rewrite lookup_delete_eq. by eapply life_forgotten.
  - apply Forall_app in Hall as [Hall [Hhi _]%Forall_cons_1].
    specialize (IH Hall). rewrite filter_app, fmap_app.
    pose proof (rel_trace_wf _ _ _ H0 Htr) as Hwf.
    destruct Hh as [m s s' Hs HV Hk HU|m s Hs HV Hk]; unfold phase_of.
    + pose proof (RelState_step_phase _ _ _ u (Hwf _ _ Hs) Hhi HV HU Hu) as Hstep.
      unfold phase_of in IH.
      destruct (decide (RelationId hi = id)) as [<-|Hne].
      * rewrite Hs in IH. rewrite lookup_insert_eq. rewrite filter_cons.
        case_decide as Hru.
        -- rewrite decide_True by done. by econstructor.
        -- rewrite decide_False by tauto. simpl. by rewrite app_nil_r, Hstep.
      * rewrite lookup_insert_ne by done.
        rewrite filter_cons_False by tauto. simpl. by rewrite app_nil_r.
    + unfold relation_hook in Hhi. rewrite Hk in Hhi.
      rewrite filter_cons_False by (intros [_ ?]; congruence). simpl.
      rewrite app_nil_r. unfold phase_of in IH.
      destruct (decide (RelationId hi = id)) as [<-|Hne].
      * rewrite lookup_delete_eq. by eapply life_forgotten.
      * by rewrite lookup_delete_ne.
Qed.

(** What the charm sees of a remote unit is an orderly life.  In any run
    of the tracker, the hooks that ran for one unit of one relation are joined
    when the unit is absent, then changed, then any number of changed, then
    departed, and again; only when the relation itself is forgotten does the
    unit become absent without a departed hook. *)
Theorem tracker_hooks_follow_unit_life evs w his w' id u :
  tracker_ok w → Forall body_keeps evs →
  trk_runs evs w = (Ok his, w') →
  Forall relation_hook his → u ≠ "" →
  unit_life (Kind <$> filter (λ hi, RelationId hi = id ∧ RemoteUnit hi = u) his)
    (phase_of (states w) id u) (phase_of (states w') id u).
Proof.
  intros Hw Hall H Hhis Hu.
  pose proof (trk_runs_inv (states w) [] evs Hall w _ w' (tracker_ok_start _ Hw) H)
    as [[Htr _] _]. simpl in Htr.
  apply rel_trace_life; [|done..]. intros id' s Hs. by apply Hw in Hs as [? _].
Qed.

End runs.

(** ** Starting the agent *)

Section load.
Context {NM : Names} {W : Type} {MO : MapOrder W}
  (L : lens W Tracker) (sm : StateManager W) (api : TrackerAPI W).

(** The relations known to be suspended are among those in scope. *)
Lemma load_status_suspended l ids scope susp w r w' :
  (∀ id, scope !! id = None → susp !! id = None) →
  load_status L api l ids scope susp w = (Ok r, w') →
  ∀ id, r.1.2 !! id = None → r.2 !! id = None.
Proof.
  revert ids scope susp w. induction l as [|rs l IH]; intros ids scope susp w Hsub H; simpl in H.
  { apply mret_inv in H as [? ->]. by simplify_eq. }
  destruct (negb (rst_InScope rs)); [eauto|].
  apply bind_inv_ok in H as (rel & w1 & _ & H).
  apply bind_inv_ok in H as ([] & w2 & _ & H).
  eapply IH; [|done]. intros id. rewrite !lookup_insert_None. naive_solver.
Qed.

Lemma load_known_suspended ids scope susp known :
  (∀ id, scope !! id = None → susp !! id = None) →
  ∀ w, load_known L sm api ids scope susp known w
       = load_known L sm api ids scope ∅ known w.
Proof.
  intros Hsub. revert known. induction ids as [|id ids IH]; intros known w; [done|].
  simpl. destruct (scope !! id) eqn:Hs.
  - unfold mbind, M_bind. by destruct (tracker_joinRelation _ _ _ _ w) as [[] w1].
  - rewrite (Hsub _ Hs), lookup_empty. simpl. unfold mbind, M_bind.
    by destruct (sm_RemoveRelation _ _ _ w) as [[] w1].
Qed.

Lemma load_status_irrelevant l l' ids scope susp susp' w :
  map rst_Tag l = map rst_Tag l' → map rst_InScope l = map rst_InScope l' →
  match load_status L api l ids scope susp w, load_status L api l' ids scope susp' w with
  | (Ok (o, s, _), w1), (Ok (o', s', _), w1') => o = o' ∧ s = s' ∧ w1 = w1'
  | (Err e, w1), (Err e', w1') => e = e' ∧ w1 = w1'
  | _, _ => False
  end.
Proof.
  revert l' ids scope susp susp' w.
  induction l as [|rs l IH]; intros [|rs' l'] ids scope susp susp' w HT HS; simplify_eq/=;
    [done|].
  assert (rst_Tag rs = rst_Tag rs' ∧ rst_InScope rs = rst_InScope rs') as [Ht Hs]
    by naive_solver.
  rewrite Ht, Hs. destruct (negb (rst_InScope rs')); [apply IH; naive_solver|].
  unfold mbind, M_bind, over, modify.
  destruct (api_Relation api (rst_Tag rs') w) as [[rel|e] w1]; [|done].
  apply IH; naive_solver.
Qed.

(** Whether a relation is suspended plays no part when the agent starts.
    [loadInitialState] notes that "relations which are suspended may become
    active again so we keep the local state"; but it records the suspended flag
    only of relations in scope and consults it only for those out of scope, so
    for any two reports that differ in the suspended flags alone it does
    exactly the same: the local state of an out-of-scope relation is removed
    also when the relation is suspended. *)
Theorem loadInitialState_ignores_suspended l l' w :
  map rst_Tag l = map rst_Tag l' → map rst_InScope l = map rst_InScope l' →
  tracker_loadRelations L sm api l w = tracker_loadRelations L sm api l' w.
Proof.
  intros HT HS. unfold tracker_loadRelations.
  pose proof (load_status_irrelevant l l' [] ∅ ∅ ∅ w HT HS) as Hirr.
  destruct (load_status L api l [] ∅ ∅ w) as [[[[o s] su]|e] w1] eqn:E1;
  destruct (load_status L api l' [] ∅ ∅ w) as [[[[o' s'] su']|e'] w1'] eqn:E2;
    try done; last first.
  { rewrite (bind_err _ _ _ _ _ E1), (bind_err _ _ _ _ _ E2).
    by destruct Hirr as [<- <-]. }
  rewrite (bind_ok _ _ _ _ _ E1), (bind_ok _ _ _ _ _ E2).
  destruct Hirr as (<- & <- & <-).
  pose proof (load_status_suspended _ _ _ _ _ _ _ (λ id _, lookup_empty id) E1) as H1.
  pose proof (load_status_suspended _ _ _ _ _ _ _ (λ id _, lookup_empty id) E2) as H2. simpl in *.
  destruct (sm_KnownIDs sm w1) as [[ids|] w2] eqn:E3;
    [|by rewrite !(bind_err _ _ _ _ _ E3)].
  rewrite !(bind_ok _ _ _ _ _ E3). unfold mbind, M_bind.
  by rewrite (load_known_suspended _ _ _ _ H1), (load_known_suspended _ _ _ _ H2).
Qed.

Context (states : W → gmap Z RelState) {TE : TrackerEnv L sm api states}.

(** The invariant while the initial state loads: only relations in scope have
    relationers. *)
Definition load_inv (scope : gmap Z ApiRelation) (w : W) : Prop :=
  tracker_ok L states w ∧
  ∀ id, is_Some (t_relationers (view L w) !! id) → is_Some (scope !! id).

(** An empty tracker beside good saved states. *)
Definition load_start (w : W) : Prop :=
  tracker_ok L states w ∧ t_relationers (view L w) = ∅.

Lemma load_start_tv w w' : tv L states w' = tv L states w → load_start w → load_start w'.
Proof.
  intros Htv [Hok He]. split; [by eapply tracker_inv_tv|].
  apply tv_eq in Htv as [-> _]. done.
Qed.

Lemma load_start_api {A} (c : M W A) : keeps (tv L states) c →
  triple load_start c (λ _, load_start) anyE.
Proof.
  intros Hc w o w' Hw H. pose proof (load_start_tv _ _ (Hc _ _ _ H) Hw). by destruct o.
Qed.

Lemma load_start_over f :
  (∀ t, t_relationers (f t) = t_relationers t) →
  triple load_start (over L f) (λ _, load_start) anyE.
Proof.
  intros Hf. apply triple_modify. intros w [[Hs Hk] He].
  pose proof (te_lens L sm api states). pose proof (te_apart L sm api states).
  unfold load_start, tracker_ok, tracker_inv. rewrite view_update, apart.
  split; [split; [done|]|by rewrite Hf].
  intros id r. rewrite Hf. apply Hk.
Qed.

(** The relations in scope, under their own ids. *)
Definition scope_ok (ids : list Z) (scope : gmap Z ApiRelation) : Prop :=
  (∀ id rel, scope !! id = Some rel → rel_Id rel = id) ∧
  (∀ id, id ∈ ids → is_Some (scope !! id)).

Lemma load_status_inv l ids scope susp :
  scope_ok ids scope →
  triple load_start (load_status L api l ids scope susp)
    (λ r w, scope_ok r.1.1 r.1.2 ∧ load_start w) anyE.
Proof.
  revert ids scope susp. induction l as [|rs l IH]; intros ids scope susp Hok; simpl.
  { by apply triple_ret. }
  destruct (negb (rst_InScope rs)); [by apply IH|].
  eapply triple_bind; [apply load_start_api, (te_Relation L sm api states)|]. intros rel. simpl.
  eapply triple_bind; [by apply load_start_over|]. intros [].
  apply IH. destruct Hok as [Hids Hin]. split.
  - intros id rel' [[<- <-]|[_ ?]]%lookup_insert_Some; [done|eauto].
  - intros id Hid. destruct (decide (rel_Id rel = id)) as [<-|];
      [by rewrite lookup_insert_eq|].
    rewrite lookup_insert_ne by done. apply Hin. set_solver.
Qed.

Lemma join_load_inv scope rel id :
  scope !! id = Some rel → rel_Id rel = id →
  triple (load_inv scope) (tracker_joinRelation L sm api rel) (λ _, load_inv scope) anyE.
Proof.
  intros Hs Hid w o w' [Hok Hsub] H.
  assert (Closed (λ _ : rel_states, True)) as HC by by split.
  pose proof (joinRelation_inv L sm api states (λ _, True) (view L w) rel w o w'
                (conj Hok eq_refl) H) as Hpost.
  destruct o as [[]|]; [|done]. destruct Hpost as [Hok' [r Hv]]. split; [done|].
  rewrite Hv. simpl. intros id' [r' [[<- _]|[_ ?]]%lookup_insert_Some].
  - rewrite Hid, Hs. done.
  - eauto.
Qed.

Lemma load_known_inv ids0 ids scope susp known :
  scope_ok ids0 scope →
  triple (load_inv scope) (load_known L sm api ids scope susp known)
    (λ _, load_inv scope) anyE.
Proof.
  intros [Hids _]. assert (Closed (λ _ : rel_states, True)) as HC by by split.
  revert known. induction ids as [|id ids IH]; intros known; simpl; [by apply triple_ret|].
  destruct (scope !! id) as [rel|] eqn:Hs.
  - eapply triple_bind; [by eapply join_load_inv; eauto|]. intros []. apply IH.
  - destruct (negb _); [|apply IH].
    apply triple_bind with (R := λ _, load_inv scope); [|intros; apply IH].
    intros w o w' [Hok Hsub] H.
    assert (t_relationers (view L w) !! id = None) as Hnone.
    { apply eq_None_not_Some. intros [? Hx]%Hsub. congruence. }
    pose proof (RemoveRelation_inv_at L sm api states (λ _, True) (view L w) id known
                  Hnone w o w' (conj Hok eq_refl) H) as Hpost.
    destruct o; [|done]. destruct Hpost as [? Hv]. split; [done|]. by rewrite Hv.
Qed.

(** When the agent starts, the tracker is brought into agreement with its
    saved states.  From well-formed saved states and an empty tracker, a
    [loadInitialState] that succeeds leaves a tracker in which every relationer
    has a saved, well-formed state, the invariant that the operations of the
    tracker rely on. *)
Theorem loadInitialState_establishes w w' :
  (∀ id s, states w !! id = Some s → RelState_wf s ∧ rs_RelationId s = id) →
  t_relationers (view L w) = ∅ →
  tracker_loadInitialState L sm api w = (Ok (), w') →
  tracker_ok L states w'.
Proof.
  intros Hst He H.
  assert (load_start w) as Hw.
  { split; [|done]. split; [by split|]. intros id r. by rewrite He. }
  cut (triple load_start (tracker_loadInitialState L sm api)
         (λ _, tracker_ok L states) anyE).
  { intros Ht. apply (Ht _ _ _ Hw H). }
  clear -TE. unfold tracker_loadInitialState.
  eapply triple_bind; [apply load_start_api, (te_RelationsStatus L sm api states)|]. intros l. simpl.
  unfold tracker_loadRelations.
  eapply triple_bind; [by apply load_status_inv; split; set_solver|].
  intros [[ids scope] susp]. simpl. apply triple_pure. intros Hscope.
  eapply triple_conseq with (P' := load_inv scope) (Q' := λ _, load_inv scope) (E' := anyE);
    [|intros w [? He]; split; [done|rewrite He; by intros id [? ?]]|by intros ? ? [? _]|done].
  apply triple_bind with (R := λ _, load_inv scope).
  { intros w0 o w1 Hw Hr.
    destruct (KnownIDs_spec (states:=states) w0) as (k & Hk & _).
    rewrite Hk in Hr. by simplify_eq. }
  intros known. eapply triple_bind; [by eapply load_known_inv|]. intros []. simpl.
  destruct Hscope as [Hids Hin]. clear known. induction ids as [|id ids IH]; simpl;
    [by apply triple_ret|].
  apply triple_bind with (R := λ _, load_inv scope); [|intros _; apply IH; set_solver].
  apply triple_bind with (R := λ _, load_inv scope).
  { intros w0 o w1 Hw Hr. rewrite (RelationFound_spec (states:=states)) in Hr.
    by simplify_eq. }
  intros []; [by apply triple_ret|].
  destruct (scope !! id) as [rel|] eqn:Hs; [|by apply triple_throw].
  eapply join_load_inv; eauto.
Qed.

End load.
