(* ===== verification/RelationResolver.v ===== *)
(** * The relation resolvers

    internal/worker/uniter/relation/resolver.go: which relation hook to run
    next, given the saved state of each relation and the remote state. *)

From S2P Require Import Prelude Hooks OpState RelationState Operations Resolver RelationTracker.
Import life hooks hook.

Section resolver.
Context {NM : Names} {W : Type} {MO : MapOrder W}
  (rt : RelationStateTracker W) (DestroyAllSubordinates : M W ()).

(** ** relationsResolver.nextHookForRelation *)

(** All unit (application) names either side knows, sorted. *)
Definition sorted_union (a b : gmap string Z) : list string :=
  sorted_strings (dom a ∪ dom b).

(** Depart the units that are gone on the remote side. *)
Fixpoint next_departed (localState : RelState) (remoteState : RelationSnapshot)
    (units : list string) : M W (option Info) :=
  match units with
  | [] => mret None
  | unitName :: units' =>
      match members localState !! unitName, rsn_Members remoteState !! unitName with
      | Some changeVersion, None =>
          appName ← lift_result (UnitApplication unitName);
          '(localUnitLife, localAppLife) ← rt_LocalUnitAndApplicationLife rt;
          let departee :=
            if bool_decide (localUnitLife ≠ Alive) || bool_decide (localAppLife ≠ Alive)
            then rt_LocalUnitName rt else unitName in
          mret (Some (relation_info RelationDeparted (rs_RelationId localState)
                        unitName appName changeVersion departee))
      | _, _ => next_departed localState remoteState units'
      end
  end.

(** Applications whose settings changed. *)
Definition next_app_changed (localState : RelState) (remoteState : RelationSnapshot)
    (apps : list string) : option Info :=
  first_some (λ appName,
    match rsn_ApplicationMembers remoteState !! appName with
    | None => None
    | Some changeVersion =>
        if decide (default 0%Z (appMembers localState !! appName) ≠ changeVersion)
        then Some (relation_info RelationChanged (rs_RelationId localState)
                     "" appName changeVersion "")
        else None
    end) apps.

(** Join the units that are new on the remote side. *)
Fixpoint next_joined (localState : RelState) (remoteState : RelationSnapshot)
    (units : list string) : result (option Info) :=
  match units with
  | [] => Ok None
  | unitName :: units' =>
      match rsn_Members remoteState !! unitName, members localState !! unitName with
      | Some changeVersion, None =>
          appName ← UnitApplication unitName;
          Ok (Some (relation_info RelationJoined (rs_RelationId localState)
                      unitName appName changeVersion ""))
      | _, _ => next_joined localState remoteState units'
      end
  end.

(** Units whose settings changed. *)
Fixpoint next_changed (localState : RelState) (remoteState : RelationSnapshot)
    (units : list string) : result (option Info) :=
  match units with
  | [] => Ok None
  | unitName :: units' =>
      match rsn_Members remoteState !! unitName, members localState !! unitName with
      | Some remoteChangeVersion, Some localChangeVersion =>
          appName ← UnitApplication unitName;
          if decide (remoteChangeVersion ≠ localChangeVersion) then
            Ok (Some (relation_info RelationChanged (rs_RelationId localState)
                        unitName appName remoteChangeVersion ""))
          else next_changed localState remoteState units'
      | _, _ => next_changed localState remoteState units'
      end
  end.

(** Application changes, then joins, then changes. *)
Definition next_join_or_change (localState : RelState)
    (remoteState : RelationSnapshot) : result Info :=
  let sortedAppNames :=
    sorted_union (appMembers localState) (rsn_ApplicationMembers remoteState) in
  let sortedUnitNames :=
    sorted_union (members localState) (rsn_Members remoteState) in
  match next_app_changed localState remoteState sortedAppNames with
  | Some hi => Ok hi
  | None =>
      j ← next_joined localState remoteState sortedUnitNames;
      match j with
      | Some hi => Ok hi
      | None =>
          c ← next_changed localState remoteState sortedUnitNames;
          match c with Some hi => Ok hi | None => Err ErrNoOperation end
      end
  end.

(** What comes after the departures. *)
Definition next_break_or_change (localState : RelState)
    (remoteState : RelationSnapshot) (remoteBroken : bool) : M W Info :=
  let relationId := rs_RelationId localState in
  r ← try (rt_IsPeerRelation rt relationId);
  let isPeer := match r with Ok b => b | Err _ => false end in
  if remoteBroken && negb isPeer then
    found ← rt_StateFound rt relationId;
    if negb found then throw ErrNoOperation
    else
      app ← rt_RemoteApplication rt relationId;
      mret (relation_info RelationBroken relationId "" app 0 "")
  else lift_result (next_join_or_change localState remoteState).

Definition nextHookForRelation (localState : RelState)
    (remoteState : RelationSnapshot) (remoteBroken : bool) : M W Info :=
  let relationId := rs_RelationId localState in
  if decide (rs_ChangedPending localState ≠ "") then
    let unitName := rs_ChangedPending localState in
    appName ← lift_result (UnitApplication unitName);
    mret (relation_info RelationChanged relationId unitName appName
            (default 0%Z (rsn_Members remoteState !! unitName)) "")
  else
    let sortedUnitNames :=
      sorted_union (members localState) (rsn_Members remoteState) in
    if decide ("" ∈ dom (members localState) ∪ dom (rsn_Members remoteState)) then
      throw (ErrNew "somehow we got the empty unit. localState: %v, remote: %v")
    else
      d ← next_departed localState remoteState sortedUnitNames;
      match d with
      | Some hi => mret hi
      | None => next_break_or_change localState remoteState remoteBroken
      end.

(** ** relationsResolver.NextOp *)

(** The loop of [maybeDestroySubordinates]: alive container-scoped relations
    become dying in the snapshot. *)
Fixpoint destroy_loop (l : list (Z * RelationSnapshot)) (destroyAll : bool) :
    M (Snapshot * W) bool :=
  match l with
  | [] => mret destroyAll
  | (relationId, rsn) :: l' =>
      if decide (rsn_Life rsn ≠ Alive) then destroy_loop l' destroyAll
      else
        r ← try (liftR (rt_HasContainerScope rt relationId));
        match r with
        | Err (NotFound _) => destroy_loop l' true
        | Err e => throw e
        | Ok false => destroy_loop l' destroyAll
        | Ok true =>
            _ ← modify (λ s, (set_Relations
                  (<[relationId := MkRelationSnapshot Dying (rsn_Suspended rsn)
                       (rsn_Members rsn) (rsn_ApplicationMembers rsn)]>
                     (sn_Relations s.1)) s.1, s.2));
            destroy_loop l' true
        end
  end.

Definition maybeDestroySubordinates : M (Snapshot * W) () :=
  s ← get;
  if decide (sn_Life s.1 ≠ Dying) then mret ()
  else
    destroyAll ← destroy_loop (range s.2 (map_to_list (sn_Relations s.1))) false;
    if destroyAll : bool then liftR DestroyAllSubordinates else mret ().

Definition processRelationSnapshot (relationID : Z) (rsn : RelationSnapshot)
    (opFactory : Factory W) : M (Snapshot * W) (operation W) :=
  known ← liftR (rt_IsKnown rt relationID);
  if negb known then throw ErrNoOperation
  else
    r ← try (liftR (rt_IsImplicit rt relationID));
    if match r with Ok b => b | Err _ => false end then throw ErrNoOperation
    else
      unitLife ← remote sn_Life;
      let remoteBroken :=
        bool_decide (unitLife = Dying) || bool_decide (rsn_Life rsn = Dying)
        || rsn_Suspended rsn in
      let rsn := if remoteBroken then zero_RelationSnapshot else rsn in
      st ← try (liftR (rt_State rt relationID));
      relState ← match st with
                 | Ok s => mret s
                 | Err (NotFound _) => mret (NewRelState relationID)
                 | Err e => throw e
                 end;
      hInfo ← liftR (nextHookForRelation relState rsn remoteBroken);
      liftR (NewRunHook opFactory hInfo).

(** [op, err := ...; if ErrNoOperation { continue }] *)
Definition or_no_operation {A} (m : M (Snapshot * W) A) : M (Snapshot * W) (option A) :=
  r ← try m;
  match r with
  | Ok op => mret (Some op)
  | Err e => if decide (e = ErrNoOperation) then mret None else throw e
  end.

(** The first loop: relations that are not peer relations; the peer relations
    met on the way are collected. *)
Fixpoint process_relations (opFactory : Factory W) (l : list (Z * RelationSnapshot))
    (peerRelations : list Z) : M (Snapshot * W) (operation W + list Z) :=
  match l with
  | [] => mret (inr peerRelations)
  | (relationID, rsn) :: l' =>
      r ← try (liftR (rt_IsPeerRelation rt relationID));
      if match r with Ok b => b | Err _ => false end then
        process_relations opFactory l' (peerRelations ++ [relationID])
      else
        o ← or_no_operation (processRelationSnapshot relationID rsn opFactory);
        match o with
        | Some op => mret (inl op)
        | None => process_relations opFactory l' peerRelations
        end
  end.

Fixpoint process_peers (opFactory : Factory W) (peerRelations : list Z) :
    M (Snapshot * W) (operation W) :=
  match peerRelations with
  | [] => throw ErrNoOperation
  | relationID :: l' =>
      relations ← remote sn_Relations;
      o ← or_no_operation (processRelationSnapshot relationID
            (default zero_RelationSnapshot (relations !! relationID)) opFactory);
      match o with
      | Some op => mret op
      | None => process_peers opFactory l'
      end
  end.

Definition relationsResolver_NextOp : Resolver W := λ localState opFactory,
  _ ← maybeDestroySubordinates;
  if decide (operation.Kind (ls_State localState) ≠ operation.Continue) then
    throw ErrNoOperation
  else
    relations ← remote sn_Relations;
    _ ← liftR (rt_SynchronizeScopes rt relations);
    w ← gets snd;
    r ← process_relations opFactory (range w (map_to_list relations)) [];
    match r with
    | inl op => mret op
    | inr peerRelations => process_peers opFactory peerRelations
    end.

(** ** createdRelationsResolver *)

Definition created_nextHookForRelation (relationId : Z) : M W Info :=
  r ← try (rt_IsImplicit rt relationId);
  match r with
  | Err _ => throw ErrNoOperation
  | Ok isImplicit =>
      created ← rt_RelationCreated rt relationId;
      if created || isImplicit then throw ErrNoOperation
      else
        app ← rt_RemoteApplication rt relationId;
        mret (relation_info RelationCreated relationId "" app 0 "")
  end.

Fixpoint created_loop (opFactory : Factory W) (l : list (Z * RelationSnapshot)) :
    M (Snapshot * W) (operation W) :=
  match l with
  | [] => throw ErrNoOperation
  | (relationId, rsn) :: l' =>
      if decide (rsn_Life rsn ≠ Alive) then created_loop opFactory l'
      else
        o ← or_no_operation (liftR (created_nextHookForRelation relationId));
        match o with
        | None => created_loop opFactory l'
        | Some hi => liftR (NewRunHook opFactory hi)
        end
  end.

Definition createdRelationsResolver_NextOp : Resolver W := λ localState opFactory,
  unitLife ← remote sn_Life;
  if negb (operation.Installed (ls_State localState)) || bool_decide (unitLife = Dying)
  then throw ErrNoOperation
  else if decide (operation.Kind (ls_State localState) ≠ operation.Continue) then
    throw ErrNoOperation
  else
    relations ← remote sn_Relations;
    _ ← liftR (rt_SynchronizeScopes rt relations);
    w ← gets snd;
    created_loop opFactory (range w (map_to_list relations)).

End resolver.
