(* ===== verification/RelationProgress.v ===== *)
(** * The relation resolver makes progress

    Every hook the resolver proposes is one that the relation's state accepts;
    and running the hooks it proposes, one after the other, ends: in agreement
    with the remote state, or, for a relation to be broken, with every unit
    departed and relation-broken last. *)

From S2P Require Import Prelude Hooks OpState RelationState Operations Resolver RelationTracker RelationResolver.
Import life hooks hook.

(** ** Sums over lists *)

Definition total {A} (f : A → nat) (l : list A) : nat := sum_list (f <$> l).

Lemma total_cons {A} (f : A → nat) x l : total f (x :: l) = f x + total f l.
Proof. done. Qed.

Lemma total_ext {A} (f g : A → nat) l :
  (∀ x, x ∈ l → f x = g x) → total f l = total g l.
Proof.
  induction l as [|x l IH]; intros H; [done|]. rewrite !total_cons.
  rewrite (H x) by left. f_equal. apply IH. intros. apply H. by right.
Qed.

Lemma total_update {A} (f g : A → nat) l x :
  NoDup l → x ∈ l → (∀ y, y ≠ x → f y = g y) →
  total f l + g x = total g l + f x.
Proof.
  induction l as [|y l IH]; intros Hnd Hin Hne; [by apply not_elem_of_nil in Hin|].
  apply NoDup_cons in Hnd as [Hy Hnd]. rewrite !total_cons.
  apply elem_of_cons in Hin as [->|Hin].
  - assert (total f l = total g l) as ->; [|lia].
    apply total_ext. intros z Hz. apply Hne. by intros ->.
  - rewrite (Hne y) by (by intros ->). specialize (IH Hnd Hin Hne). lia.
Qed.

Section progress.
Context {NM : Names} {SU : SecretURIs} {W : Type} {MO : MapOrder W}
  (rt : RelationStateTracker W) (P : W → Prop).

(** ** Running the resolver on one relation *)

(** Ask for the next hook, record it, and again, until there is none or the
    relation is broken; [None] if the fuel runs out. *)
Fixpoint resolve_relation (fuel : nat) (localState : RelState)
    (remoteState : RelationSnapshot) (remoteBroken : bool) :
    M W (option (list Info * RelState)) :=
  match fuel with
  | O => mret None
  | S fuel' =>
      r ← try (nextHookForRelation rt localState remoteState remoteBroken);
      match r with
      | Err e =>
          if decide (e = ErrNoOperation) then mret (Some ([], localState)) else throw e
      | Ok hi =>
          if decide (Kind hi = RelationBroken) then mret (Some ([hi], localState))
          else
            st ← lift_result (RelState_UpdateStateForHook localState hi);
            o ← resolve_relation fuel' st remoteState remoteBroken;
            mret ((λ '(his, s), (hi :: his, s)) <$> o)
      end
  end.

(** How far a unit is from agreement, in hooks. *)
Definition unit_cost (l r : gmap string Z) (u : string) : nat :=
  match l !! u, r !! u with
  | Some _, None => 1
  | None, Some _ => 2
  | Some a, Some b => if decide (a = b) then 0 else 1
  | None, None => 0
  end.

(** The same for an application. *)
Definition app_cost (l r : gmap string Z) (a : string) : nat :=
  match r !! a with
  | Some v => if decide (default 0%Z (l !! a) = v) then 0 else 1
  | None => 0
  end.

Definition pending_cost (s : RelState) : nat :=
  if decide (rs_ChangedPending s = "") then 0 else 1.

(** How far a relation is, over given units and applications. *)
Definition distance (U A : list string) (s : RelState) (r : RelationSnapshot) : nat :=
  pending_cost s + total (unit_cost (members s) (rsn_Members r)) U
  + total (app_cost (appMembers s) (rsn_ApplicationMembers r)) A.

(** The local state says what the remote state says. *)
Definition agrees (s : RelState) (r : RelationSnapshot) : Prop :=
  rs_ChangedPending s = "" ∧ members s = rsn_Members r ∧
  ∀ a v, rsn_ApplicationMembers r !! a = Some v → default 0%Z (appMembers s !! a) = v.

(** What the resolver relies on: the names library knows the application of
    every unit and applications have names; and, in worlds that satisfy [P],
    the controller answers and leaves [P] true. *)
Record relation_names (s : RelState) (r : RelationSnapshot) : Prop := {
  rn_units u : u ∈ dom (members s) ∪ dom (rsn_Members r) →
    u ≠ "" ∧ ∃ a, UnitApplication u = Ok a ∧ a ≠ "";
  rn_apps : rsn_ApplicationMembers r !! "" = None;
}.

Record tracker_answers (id : Z) : Prop := {
  ta_life w : P w →
    ∃ l a w', rt_LocalUnitAndApplicationLife rt w = (Ok (l, a), w') ∧ P w';
  ta_peer w : P w →
    ∃ r w', rt_IsPeerRelation rt id w = (r, w') ∧ (∀ s, r ≠ Err (GoPanic s)) ∧ P w';
}.

(** ** The loops *)

Lemma next_departed_spec s r units w :
  (∀ u, u ∈ units → is_Some (members s !! u) → ∃ a, UnitApplication u = Ok a ∧ a ≠ "") →
  tracker_answers (rs_RelationId s) → P w →
  ∃ w', P w' ∧ ((next_departed rt s r units w = (Ok None, w') ∧
         ∀ u, u ∈ units → members s !! u = None ∨ is_Some (rsn_Members r !! u))
   ∨ ∃ u a v d, next_departed rt s r units w =
         (Ok (Some (relation_info RelationDeparted (rs_RelationId s) u a v d)), w')
       ∧ u ∈ units ∧ members s !! u = Some v ∧ rsn_Members r !! u = None ∧ a ≠ "").
Proof.
  intros Hn Ht HP. induction units as [|u units IH]; simpl.
  { exists w. split; [done|]. left. split; [done|]. intros u Hu. by apply not_elem_of_nil in Hu. }
  assert (∀ u, u ∈ units → is_Some (members s !! u) →
            ∃ a, UnitApplication u = Ok a ∧ a ≠ "") as Hn'.
  { intros u' ?. apply Hn. by right. }
  destruct (members s !! u) as [v|] eqn:Hs; [destruct (rsn_Members r !! u) as [v'|] eqn:Hr|].
  2: { destruct (Hn u) as (a & Ha & Hne); [left|by rewrite Hs|].
       destruct (ta_life _ Ht w HP) as (l & al & w' & Hl & HP').
       exists w'. split; [done|]. right. eexists u, a, v, _. unfold lift_result, mbind, M_bind.
       rewrite Ha. unfold mbind, M_bind. rewrite Hl. split_and!; [done|left|done..]. }
  all: destruct (IH Hn') as (w' & HP' & [[Heq Hall]|(u' & a & v0 & d & Heq & ? & ?)]);
    exists w'; (split; [done|]); [left; split; [done|]|right; eexists _, _, _, _; split; [done|];
      split; [by right|done]].
  all: intros u' [->|?]%elem_of_cons; [|auto]; rewrite ?Hs, ?Hr; eauto.
Qed.

Lemma next_joined_spec s r units :
  (∀ u, u ∈ units → is_Some (rsn_Members r !! u) → ∃ a, UnitApplication u = Ok a ∧ a ≠ "") →
  (next_joined s r units = Ok None ∧
     ∀ u, u ∈ units → is_Some (rsn_Members r !! u) → is_Some (members s !! u))
  ∨ ∃ u a v, next_joined s r units =
       Ok (Some (relation_info RelationJoined (rs_RelationId s) u a v ""))
     ∧ u ∈ units ∧ members s !! u = None ∧ rsn_Members r !! u = Some v ∧ a ≠ "".
Proof.
  intros Hn. induction units as [|u units IH]; simpl.
  { left. split; [done|]. intros u Hu. by apply not_elem_of_nil in Hu. }
  assert (∀ u, u ∈ units → is_Some (rsn_Members r !! u) →
            ∃ a, UnitApplication u = Ok a ∧ a ≠ "") as Hn'.
  { intros u' ?. apply Hn. by right. }
  destruct (rsn_Members r !! u) as [v|] eqn:Hr; [destruct (members s !! u) as [v'|] eqn:Hs|].
  2: { destruct (Hn u) as (a & Ha & Hne); [left|by rewrite Hr|].
       right. exists u, a, v. rewrite Ha. split_and!; [done|left|done..]. }
  all: destruct (IH Hn') as [[Heq Hall]|(u' & a & v0 & Heq & ? & ?)];
    [left; split; [done|]|right; eexists _, _, _; split; [done|]; split; [by right|done]].
  all: intros u' [->|?]%elem_of_cons; [|auto]; rewrite ?Hs, ?Hr; eauto.
  by intros [? ?].
Qed.

Lemma next_changed_spec s r units :
  (∀ u, u ∈ units → is_Some (rsn_Members r !! u) → ∃ a, UnitApplication u = Ok a ∧ a ≠ "") →
  (next_changed s r units = Ok None ∧
     ∀ u a b, u ∈ units → rsn_Members r !! u = Some a → members s !! u = Some b → a = b)
  ∨ ∃ u a v v', next_changed s r units =
       Ok (Some (relation_info RelationChanged (rs_RelationId s) u a v ""))
     ∧ u ∈ units ∧ members s !! u = Some v' ∧ rsn_Members r !! u = Some v ∧ v ≠ v' ∧ a ≠ "".
Proof.
  intros Hn. induction units as [|u units IH]; simpl.
  { left. split; [done|]. intros u a b Hu. by apply not_elem_of_nil in Hu. }
  assert (∀ u, u ∈ units → is_Some (rsn_Members r !! u) →
            ∃ a, UnitApplication u = Ok a ∧ a ≠ "") as Hn'.
  { intros u' ?. apply Hn. by right. }
  assert ((rsn_Members r !! u = members s !! u ∨ members s !! u = None
           ∨ rsn_Members r !! u = None) ∨
          ∃ v v', rsn_Members r !! u = Some v ∧ members s !! u = Some v' ∧ v ≠ v')
    as [Hsame|(v & v' & Hr & Hs & Hne)].
  { destruct (rsn_Members r !! u) as [v|], (members s !! u) as [v'|]; auto.
    destruct (decide (v = v')) as [->|]; [auto|]. right. eauto. }
  - assert (next_changed s r (u :: units) = next_changed s r units) as Heq.
    { simpl. destruct (rsn_Members r !! u) as [v|] eqn:Hr, (members s !! u) as [v'|] eqn:Hs;
        try done. destruct (Hn u) as (a & Ha & _); [left|by rewrite Hr|].
      rewrite Ha. simpl. destruct Hsame as [?|[?|?]]; simplify_eq.
      by rewrite decide_False by auto. }
    simpl in Heq. rewrite Heq.
    destruct (IH Hn') as [[Heq' Hall]|(u' & a & v0 & v1 & Heq' & ? & ?)].
    + left. split; [done|]. intros u' a b [->|?]%elem_of_cons; [|eauto].
      intros Ha Hb. rewrite Ha, Hb in Hsame. destruct Hsame as [?|[?|?]]; by simplify_eq.
    + right. eexists _, _, _, _. split; [done|]. split; [by right|done].
  - right. rewrite Hr, Hs. destruct (Hn u) as (a & Ha & Hne'); [left|by rewrite Hr|].
    exists u, a, v, v'. rewrite Ha. simpl. rewrite decide_True by done.
    split_and!; [done|left|done..].
Qed.

Lemma next_app_changed_spec s r apps :
  (next_app_changed s r apps = None ∧
     ∀ a v, a ∈ apps → rsn_ApplicationMembers r !! a = Some v →
       default 0%Z (appMembers s !! a) = v)
  ∨ ∃ a v, next_app_changed s r apps =
       Some (relation_info RelationChanged (rs_RelationId s) "" a v "")
     ∧ a ∈ apps ∧ rsn_ApplicationMembers r !! a = Some v
     ∧ default 0%Z (appMembers s !! a) ≠ v.
Proof.
  unfold next_app_changed. destruct (first_some _ apps) as [hi|] eqn:E.
  - right. apply first_some_Some in E as (a & Ha & E).
    destruct (rsn_ApplicationMembers r !! a) as [v|] eqn:Hr; [|done].
    case_decide; [|done]. simplify_eq. by exists a, v.
  - left. split; [done|]. intros a v Ha Hr.
    rewrite first_some_None in E. specialize (E a Ha). rewrite Hr in E.
    by case_decide.
Qed.

(** ** One step *)

(** The hooks of a unit or an application that have names are valid. *)
Lemma unit_info_valid k id u a v d :
  k = RelationJoined ∨ k = RelationChanged ∨ k = RelationDeparted →
  u ≠ "" → a ≠ "" → Info_Validate (relation_info k id u a v d) = Ok ().
Proof.
  intros [->|[->| ->]] Hu Ha; unfold Info_Validate; simpl; by rewrite !decide_False.
Qed.

Lemma app_info_valid id a v d :
  a ≠ "" → Info_Validate (relation_info RelationChanged id "" a v d) = Ok ().
Proof. intros Ha. unfold Info_Validate. simpl. by rewrite decide_False. Qed.

(** A hook that is proposed is accepted, and brings the relation closer. *)
Definition good_hook (U A : list string) (s : RelState) (r : RelationSnapshot)
    (hi : Info) : Prop :=
  Info_Validate hi = Ok () ∧ relation_hook hi ∧ RelState_Validate s hi = Ok () ∧
  Kind hi ≠ RelationBroken ∧
  ∃ s', RelState_UpdateStateForHook s hi = Ok s' ∧ RelState_wf s' ∧
    rs_RelationId s' = rs_RelationId s ∧
    dom (members s') ⊆ dom (members s) ∪ dom (rsn_Members r) ∧
    distance U A s' r < distance U A s r.

Section step.
Context (U A : list string) (s : RelState) (r : RelationSnapshot).
Hypothesis Hwf : RelState_wf s.
Hypothesis HU : NoDup U.
Hypothesis HA : NoDup A.
Hypothesis Hunits : ∀ u, u ∈ dom (members s) ∪ dom (rsn_Members r) → u ∈ U.
Hypothesis Happs : ∀ a, a ∈ dom (rsn_ApplicationMembers r) → a ∈ A.

(** Changing the entry of one unit changes the distance by its cost. *)
Lemma distance_unit m' u :
  u ∈ dom (members s) ∪ dom (rsn_Members r) →
  (∀ y, y ≠ u → m' !! y = members s !! y) →
  total (unit_cost m' (rsn_Members r)) U + unit_cost (members s) (rsn_Members r) u
  = total (unit_cost (members s) (rsn_Members r)) U + unit_cost m' (rsn_Members r) u.
Proof.
  intros Hu Hne. apply total_update; [done|by apply Hunits|].
  intros y Hy. unfold unit_cost. by rewrite Hne.
Qed.

(** A hook that sets the version of a unit to the remote one is good, when it
    is valid and what it costs is less than what it saves. *)
Lemma good_unit_set k u a v p' :
  k = RelationJoined ∨ k = RelationChanged → u ≠ "" → a ≠ "" →
  p' = (if decide (k = RelationJoined) then u else "") →
  u ∈ dom (members s) ∪ dom (rsn_Members r) →
  RelState_Validate s (relation_info k (rs_RelationId s) u a v "") = Ok () →
  (if decide (p' = "") then 0 else 1)
    + unit_cost (<[u := v]> (members s)) (rsn_Members r) u
  < pending_cost s + unit_cost (members s) (rsn_Members r) u →
  good_hook U A s r (relation_info k (rs_RelationId s) u a v "").
Proof.
  intros Hk Hu Ha Hp' Hin HV Hcost. set (hi := relation_info _ _ _ _ _ _) in *.
  pose proof (RelState_Update_wf_eq s hi Hwf) as HUp. simpl in HUp.
  rewrite decide_False in HUp by (destruct Hk as [->| ->]; done).
  rewrite decide_False in HUp by (destruct Hk as [->| ->]; done).
  rewrite decide_False in HUp by done.
  split_and!; [apply unit_info_valid; tauto| |done| |].
  { unfold relation_hook. simpl. by destruct Hk as [->| ->]. }
  { by destruct Hk as [->| ->]. }
  eexists. split; [done|]. split; [by eapply RelState_update_wf|].
  split; [done|]. simpl. rewrite members_mk. split; [rewrite dom_insert_L; set_solver|].
  pose proof (distance_unit (<[u := v]> (members s)) u Hin) as Ht.
  specialize (Ht ltac:(intros; by rewrite lookup_insert_ne)).
  unfold distance. simpl. rewrite members_mk. unfold pending_cost in *. simpl.
  rewrite <- Hp'. unfold appMembers at 1. simpl. lia.
Qed.

Lemma good_pending_changed a :
  rs_ChangedPending s ≠ "" → a ≠ "" →
  good_hook U A s r (relation_info RelationChanged (rs_RelationId s)
    (rs_ChangedPending s) a (default 0%Z (rsn_Members r !! rs_ChangedPending s)) "").
Proof.
  intros Hp Ha. set (u := rs_ChangedPending s) in *.
  destruct (wf_pending _ Hwf Hp) as [v Hv]. fold u in Hv.
  eapply (good_unit_set _ _ _ _ ""); [auto|done..| | |].
  - apply elem_of_union_l, elem_of_dom. eauto.
  - by apply RelState_Validate_intro.
  - unfold pending_cost, unit_cost. rewrite lookup_insert_eq, Hv.
    rewrite (decide_False (P := rs_ChangedPending s = "")) by done.
    destruct (rsn_Members r !! u); simpl; repeat case_decide; try done; lia.
Qed.

Lemma good_joined u a v :
  rs_ChangedPending s = "" → u ≠ "" → a ≠ "" →
  members s !! u = None → rsn_Members r !! u = Some v →
  good_hook U A s r (relation_info RelationJoined (rs_RelationId s) u a v "").
Proof.
  intros Hp Hu Ha Hs Hr. eapply (good_unit_set _ _ _ _ u); [auto|done..| | |].
  - apply elem_of_union_r, elem_of_dom. eauto.
  - apply RelState_Validate_intro; [done..| |]; simpl; [done|].
    intros _ _. rewrite Hs. split; [by intros [? ?]|done].
  - unfold pending_cost, unit_cost. rewrite lookup_insert_eq, Hs, Hr, Hp.
    rewrite decide_False, !decide_True by done. lia.
Qed.

Lemma good_changed u a v v' :
  rs_ChangedPending s = "" → u ≠ "" → a ≠ "" →
  members s !! u = Some v' → rsn_Members r !! u = Some v → v ≠ v' →
  good_hook U A s r (relation_info RelationChanged (rs_RelationId s) u a v "").
Proof.
  intros Hp Hu Ha Hs Hr Hne. eapply (good_unit_set _ _ _ _ ""); [auto|done..| | |].
  - apply elem_of_union_r, elem_of_dom. eauto.
  - apply RelState_Validate_intro; [done..| |]; simpl; [done|].
    intros _ _. rewrite Hs. split; eauto.
  - unfold pending_cost, unit_cost. rewrite lookup_insert_eq, Hs, Hr, Hp.
    rewrite !decide_True, decide_False by auto. lia.
Qed.

Lemma good_departed u a v d :
  rs_ChangedPending s = "" → u ≠ "" → a ≠ "" →
  members s !! u = Some v → rsn_Members r !! u = None →
  good_hook U A s r (relation_info RelationDeparted (rs_RelationId s) u a v d).
Proof.
  intros Hp Hu Ha Hs Hr. set (hi := relation_info _ _ _ _ _ _).
  assert (RelState_Validate s hi = Ok ()) as HV.
  { apply RelState_Validate_intro; [done..| |]; simpl; [done|].
    intros _ _. rewrite Hs. split; eauto. }
  pose proof (RelState_Update_wf_eq s hi Hwf) as HUp. simpl in HUp.
  rewrite decide_False in HUp by done.
  split_and!; [by apply unit_info_valid; auto|done..|].
  eexists. split; [done|]. split; [by eapply RelState_update_wf|].
  split; [done|]. simpl. rewrite members_mk. split; [rewrite dom_delete_L; set_solver|].
  pose proof (distance_unit (delete u (members s)) u) as Ht.
  specialize (Ht ltac:(apply elem_of_union_l, elem_of_dom; eauto)
                 ltac:(intros; by rewrite lookup_delete_ne)).
  unfold distance. simpl. rewrite members_mk. unfold pending_cost in *. simpl.
  unfold unit_cost at 2 4 in Ht. rewrite lookup_delete_eq, Hs, Hr in Ht.
  unfold appMembers at 1. simpl. lia.
Qed.

Lemma good_app_changed a v :
  rs_ChangedPending s = "" → a ≠ "" →
  rsn_ApplicationMembers r !! a = Some v → default 0%Z (appMembers s !! a) ≠ v →
  good_hook U A s r (relation_info RelationChanged (rs_RelationId s) "" a v "").
Proof.
  intros Hp Ha Hr Hne. set (hi := relation_info _ _ _ _ _ _).
  assert (RelState_Validate s hi = Ok ()) as HV.
  { by apply RelState_Validate_intro. }
  pose proof (RelState_Update_wf_eq s hi Hwf) as HUp. simpl in HUp.
  split_and!; [by apply app_info_valid|done..|].
  eexists. split; [done|]. split; [by eapply RelState_update_wf|].
  split; [done|]. simpl. rewrite members_mk. split; [set_solver|].
  unfold distance, pending_cost. simpl. rewrite members_mk, Hp, decide_True by done.
  pose proof (total_update (app_cost (<[a := v]> (appMembers s)) (rsn_ApplicationMembers r))
    (app_cost (appMembers s) (rsn_ApplicationMembers r)) A a HA) as Ht.
  specialize (Ht ltac:(apply Happs, elem_of_dom; eauto)).
  assert (app_cost (<[a := v]> (appMembers s)) (rsn_ApplicationMembers r) a = 0) as H0.
  { unfold app_cost. by rewrite lookup_insert_eq, Hr, decide_True. }
  assert (app_cost (appMembers s) (rsn_ApplicationMembers r) a = 1) as H1.
  { unfold app_cost. by rewrite Hr, decide_False. }
  unfold appMembers at 1. simpl. rewrite H0, H1 in Ht.
  enough (∀ y, y ≠ a → app_cost (<[a:=v]> (appMembers s)) (rsn_ApplicationMembers r) y
    = app_cost (appMembers s) (rsn_ApplicationMembers r) y) as Hext
    by (specialize (Ht Hext); lia).
  intros y Hy. unfold app_cost. by rewrite lookup_insert_ne.
Qed.

Hypothesis Hnames : relation_names s r.
Hypothesis Hanswers : tracker_answers (rs_RelationId s).

(** A guaranteed or departing hook comes first. *)
Lemma next_first w broken :
  P w →
  (∃ hi w', nextHookForRelation rt s r broken w = (Ok hi, w') ∧ P w'
     ∧ good_hook U A s r hi)
  ∨ (rs_ChangedPending s = "" ∧
     (∀ u, is_Some (members s !! u) → is_Some (rsn_Members r !! u)) ∧
     ∃ w', P w' ∧
       nextHookForRelation rt s r broken w = next_break_or_change rt s r broken w').
Proof.
  intros HP. unfold nextHookForRelation.
  destruct (decide (rs_ChangedPending s ≠ "")) as [Hp|Hp].
  { left. destruct (wf_pending _ Hwf Hp) as [v Hv].
    destruct (rn_units _ _ Hnames (rs_ChangedPending s)) as (_ & a & Ha & Hne).
    { apply elem_of_union_l, elem_of_dom. eauto. }
    unfold lift_result, mbind, M_bind. rewrite Ha.
    eexists _, _. split; [done|]. split; [done|]. by apply good_pending_changed. }
  apply dec_stable in Hp.
  rewrite decide_False by (intros Hin; by apply (rn_units _ _ Hnames) in Hin as [? _]).
  destruct (next_departed_spec s r (sorted_union (members s) (rsn_Members r)) w)
    as (w' & HP' & [[Heq Hall]|(u & a & v & d & Heq & Hin & Hs & Hr & Ha)]);
    [|done|done|..].
  - intros u _ Hu. apply (rn_units _ _ Hnames). by apply elem_of_union_l, elem_of_dom.
  - right. split_and!; [done|..].
    + intros u Hu. destruct (Hall u) as [Hn|?]; [|by destruct Hu; congruence|done].
      unfold sorted_union. apply elem_of_sorted_strings.
      by apply elem_of_union_l, elem_of_dom.
    + exists w'. split; [done|]. by rewrite (bind_ok _ _ _ _ _ Heq).
  - left. exists (relation_info RelationDeparted (rs_RelationId s) u a v d), w'.
    rewrite (bind_ok _ _ _ _ _ Heq). split; [done|]. split; [done|].
    apply good_departed; try done.
    apply (rn_units _ _ Hnames). apply elem_of_union_l, elem_of_dom. eauto.
Qed.

(** Then, if the relation is not to be broken, changes and joins. *)
Lemma next_join_or_change_spec :
  rs_ChangedPending s = "" →
  (∀ u, is_Some (members s !! u) → is_Some (rsn_Members r !! u)) →
  (next_join_or_change s r = Err ErrNoOperation ∧ agrees s r)
  ∨ ∃ hi, next_join_or_change s r = Ok hi ∧ good_hook U A s r hi.
Proof.
  intros Hp Hsub. unfold next_join_or_change.
  set (apps := sorted_union _ _). set (units := sorted_union _ _).
  assert (∀ u, is_Some (rsn_Members r !! u) → u ∈ units ∧ u ≠ "" ∧
            ∃ a, UnitApplication u = Ok a ∧ a ≠ "") as Hu.
  { intros u Hu. split.
    - apply elem_of_sorted_strings. by apply elem_of_union_r, elem_of_dom.
    - apply (rn_units _ _ Hnames). by apply elem_of_union_r, elem_of_dom. }
  destruct (next_app_changed_spec s r apps) as [[-> Happ]|(a & v & -> & _ & Hr & Hne)].
  2: { right. eexists. split; [done|]. apply good_app_changed; try done.
       intros ->. rewrite (rn_apps _ _ Hnames) in Hr. done. }
  destruct (next_joined_spec s r units) as [[-> Hj]|(u & a & v & -> & _ & Hs & Hr & Ha)];
    [by intros; apply Hu| |].
  2: { right. eexists. split; [done|]. apply good_joined; try done. apply Hu. eauto. }
  destruct (next_changed_spec s r units) as [[Hc1 Hc]|(u & a & v & v' & Hc1 & _ & Hs & Hr & Hne & Ha)];
    [by intros; apply Hu| |]; simpl; rewrite Hc1.
  2: { right. eexists. split; [done|]. eapply good_changed; try done. apply Hu. eauto. }
  left. split; [done|]. split_and!; [done|..].
  - apply map_eq. intros u. destruct (members s !! u) as [b|] eqn:Hs.
    + destruct (Hsub u) as [a Ha]; [eauto|]. rewrite Ha. f_equal. symmetry.
      eapply Hc; eauto. apply Hu. eauto.
    + destruct (rsn_Members r !! u) as [a|] eqn:Hr; [|done].
      destruct (Hj u) as [? ?]; [apply Hu; eauto|eauto|congruence].
  - intros a v Ha. apply Happ; [|done]. apply elem_of_sorted_strings.
    apply elem_of_union_r, elem_of_dom. eauto.
Qed.

Lemma next_step w :
  P w →
  ∃ w', P w' ∧ ((nextHookForRelation rt s r false w = (Err ErrNoOperation, w') ∧ agrees s r)
   ∨ ∃ hi, nextHookForRelation rt s r false w = (Ok hi, w') ∧ good_hook U A s r hi).
Proof.
  intros HP.
  destruct (next_first w false HP) as [(hi & w' & ? & ? & ?)|(Hp & Hsub & w' & HP' & ->)];
    [eauto 10|].
  unfold next_break_or_change. simpl.
  destruct (ta_peer _ Hanswers w' HP') as (o & w1 & Ho & Hpanic & HP1).
  assert (try (rt_IsPeerRelation rt (rs_RelationId s)) w' = (Ok o, w1)) as Ht.
  { unfold try. rewrite Ho. destruct o as [|[]]; try done. by destruct (Hpanic what). }
  rewrite (bind_ok _ _ _ _ _ Ht). unfold lift_result. exists w1. split; [done|].
  destruct (next_join_or_change_spec Hp Hsub) as [[-> ?]|(hi & -> & ?)]; eauto.
Qed.

End step.

Lemma relation_names_step s s' r :
  dom (members s') ⊆ dom (members s) ∪ dom (rsn_Members r) →
  relation_names s r → relation_names s' r.
Proof.
  intros Hd [Hu Ha]. split; [|done]. intros u Hin. apply Hu. set_solver.
Qed.

Lemma resolve_good n s r broken hi w w1 s' :
  nextHookForRelation rt s r broken w = (Ok hi, w1) →
  Kind hi ≠ RelationBroken → RelState_UpdateStateForHook s hi = Ok s' →
  resolve_relation (S n) s r broken w
  = (o ← resolve_relation n s' r broken;
     mret ((λ '(his, st), (hi :: his, st)) <$> o)) w1.
Proof.
  intros Hn Hk HUp. simpl. unfold mbind at 1, M_bind at 1, try. rewrite Hn.
  rewrite decide_False by done. unfold lift_result, mbind at 1, M_bind at 1.
  by rewrite HUp.
Qed.

(** The outcome of a run of [resolve_relation] that did not break the
    relation: the hooks are valid, in order, and lead to the final state. *)
Definition resolved_to (s : RelState) (his : list Info) (s' : RelState) : Prop :=
  Forall (λ hi, Info_Validate hi = Ok () ∧ relation_hook hi) his ∧
  apply_hooks s his = Ok s'.

Lemma resolved_to_cons U A s r hi s1 his s' :
  good_hook U A s r hi → RelState_UpdateStateForHook s hi = Ok s1 →
  resolved_to s1 his s' → resolved_to s (hi :: his) s'.
Proof.
  intros (Hi & Hh & HV & _) HU [Hall Happ]. split; [by constructor|].
  simpl. unfold mbind, result_bind. by rewrite HV, HU.
Qed.

Lemma resolve_converges n U A s r w :
  RelState_wf s → NoDup U → NoDup A →
  (∀ u, u ∈ dom (members s) ∪ dom (rsn_Members r) → u ∈ U) →
  (∀ a, a ∈ dom (rsn_ApplicationMembers r) → a ∈ A) →
  relation_names s r → tracker_answers (rs_RelationId s) →
  distance U A s r < n → P w →
  ∃ his s' w', resolve_relation n s r false w = (Ok (Some (his, s')), w')
    ∧ resolved_to s his s' ∧ agrees s' r ∧ length his ≤ distance U A s r.
Proof.
  intros Hwf HU HA Hu Ha Hn Ht. revert s w Hwf Hu Hn Ht.
  induction n as [|n IH]; intros s w Hwf Hu Hn Ht Hlt HP; [lia|].
  destruct (next_step U A s r Hwf HU HA Hu Ha Hn Ht w HP)
    as (w1 & HP1 & [[Heq Hag]|(hi & Heq & Hg)]).
  - exists [], s, w1. simpl. unfold mbind, M_bind, try. rewrite Heq. simpl.
    split_and!; [done| |done|lia]. by split.
  - pose proof Hg as (_ & _ & _ & Hk & s1 & HUp & Hwf1 & Hid & Hd & Hdist).
    rewrite (resolve_good _ _ _ _ _ _ _ _ Heq Hk HUp).
    destruct (IH s1 w1) as (his & s' & w' & Hr & Hres & Hag & Hlen); [done|..].
    + intros u Hin. apply Hu. set_solver.
    + by eapply relation_names_step.
    + by rewrite Hid.
    + lia.
    + done.
    + exists (hi :: his), s', w'. rewrite (bind_ok _ _ _ _ _ Hr).
      split_and!; [done|by eapply resolved_to_cons|done|]. simpl. lia.
Qed.

(** C16: the resolver brings a live relation into agreement.  For a relation
    that is not to be broken, asking the resolver for the next hook and
    recording it, again and again, comes to an end after at most as many hooks
    as the two states are apart (one for each owed, departed or changed unit or
    changed application, two for each new unit); every hook on the way is valid
    and accepted by the relation's state when it is proposed; and at the end
    the local members and their versions are exactly the remote ones. *)
Theorem relation_resolver_converges s r w :
  RelState_wf s → relation_names s r → tracker_answers (rs_RelationId s) → P w →
  let U := sorted_union (members s) (rsn_Members r) in
  let A := sorted_strings (dom (rsn_ApplicationMembers r)) in
  ∃ his s' w',
    resolve_relation (S (distance U A s r)) s r false w = (Ok (Some (his, s')), w')
    ∧ Forall (λ hi, Info_Validate hi = Ok () ∧ relation_hook hi) his
    ∧ apply_hooks s his = Ok s'
    ∧ agrees s' r ∧ length his ≤ distance U A s r.
Proof.
  intros Hwf Hn Ht HP U A.
  destruct (resolve_converges (S (distance U A s r)) U A s r w)
    as (his & s' & w' & ? & [? ?] & ? & ?); try done.
  - apply NoDup_sorted_strings.
  - apply NoDup_sorted_strings.
  - intros u Hu. by apply elem_of_sorted_strings.
  - intros a Ha. by apply elem_of_sorted_strings.
  - lia.
  - by exists his, s', w'.
Qed.

(** ** Breaking a relation *)

(** The relation is tracked, has a saved state, and is no peer relation, in
    the worlds that satisfy [P]. *)
Record breakable (id : Z) : Prop := {
  br_life w : P w →
    ∃ l a w', rt_LocalUnitAndApplicationLife rt w = (Ok (l, a), w') ∧ P w';
  br_peer w : P w → ∃ w', rt_IsPeerRelation rt id w = (Ok false, w') ∧ P w';
  br_found w : P w → ∃ w', rt_StateFound rt id w = (Ok true, w') ∧ P w';
  br_app w : P w → ∃ app w', rt_RemoteApplication rt id w = (Ok app, w') ∧ P w';
}.

Lemma breakable_answers id : breakable id → tracker_answers id.
Proof.
  intros [Hl Hp _ _]. split; [done|]. intros w HP. destruct (Hp w HP) as (w' & -> & ?).
  by eexists _, _.
Qed.

Lemma resolve_breaks n U s w :
  RelState_wf s → NoDup U → (∀ u, u ∈ dom (members s) → u ∈ U) →
  relation_names s zero_RelationSnapshot → breakable (rs_RelationId s) →
  distance U [] s zero_RelationSnapshot < n → P w →
  ∃ his app s' w', resolve_relation n s zero_RelationSnapshot true w
      = (Ok (Some (his ++ [relation_info RelationBroken (rs_RelationId s) "" app 0 ""], s')), w')
    ∧ resolved_to s his s' ∧ RelState_wf s' ∧ members s' = ∅
    ∧ rs_RelationId s' = rs_RelationId s
    ∧ length his ≤ distance U [] s zero_RelationSnapshot.
Proof.
  intros Hwf HU Hu Hn Ht. revert s w Hwf Hu Hn Ht.
  induction n as [|n IH]; intros s w Hwf Hu Hn Ht Hlt HP; [lia|].
  destruct (next_first U [] s zero_RelationSnapshot Hwf HU
      ltac:(constructor) ltac:(intros u Hin; apply Hu; set_solver)
      ltac:(intros a Ha; set_solver) Hn
      (breakable_answers _ Ht) w true HP)
    as [(hi & w1 & Heq & HP1 & Hg)|(Hp & Hsub & w1 & HP1 & Heq)].
  - pose proof Hg as (_ & _ & _ & Hk & s1 & HUp & Hwf1 & Hid & Hd & Hdist).
    rewrite (resolve_good _ _ _ _ _ _ _ _ Heq Hk HUp).
    destruct (IH s1 w1) as (his & app & s' & w' & Hr & Hres & Hwf' & Hm & Hid' & Hlen);
      [done|..].
    + intros u Hin. apply Hu. set_solver.
    + by eapply relation_names_step.
    + by rewrite Hid.
    + lia.
    + done.
    + exists (hi :: his), app, s', w'. rewrite (bind_ok _ _ _ _ _ Hr), Hid.
      split_and!; [done|by eapply resolved_to_cons|done..|congruence|simpl; lia].
  - destruct Ht as [_ Hpeer Hf Ha]. destruct (Hpeer w1 HP1) as (w2 & H2 & HP2).
    destruct (Hf w2 HP2) as (w3 & H3 & HP3). destruct (Ha w3 HP3) as (app & w4 & H4 & _).
    exists [], app, s, w4. simpl. unfold mbind at 1, M_bind at 1, try at 1. rewrite Heq.
    unfold next_break_or_change, mbind, M_bind, try. rewrite H2. simpl.
    rewrite H3. simpl. rewrite H4. simpl. split_and!; [done|by split|done| |done|lia].
    apply map_empty. intros u. apply eq_None_not_Some. intros Hin.
    apply Hsub in Hin. simpl in Hin. rewrite lookup_empty in Hin. by destruct Hin.
Qed.

(** A relation is broken in an orderly way.  When a relation that is
    tracked and is no peer relation is to be broken (it or the unit is dying,
    or it is suspended), running the resolver's hooks ends after at most one
    hook for each member, one for an owed relation-changed, and the break: all
    the hooks are accepted when proposed, every member is departed, and the last
    hook is relation-broken, which the empty relation accepts. *)
Theorem relation_resolver_breaks s w :
  RelState_wf s → relation_names s zero_RelationSnapshot →
  breakable (rs_RelationId s) → P w →
  ∃ his app s' w' brk,
    brk = relation_info RelationBroken (rs_RelationId s) "" app 0 "" ∧
    resolve_relation (S (S (size (members s)))) s zero_RelationSnapshot true w
      = (Ok (Some (his ++ [brk], s')), w')
    ∧ apply_hooks s his = Ok s' ∧ members s' = ∅
    ∧ RelState_Validate s' brk = Ok () ∧ Info_Validate brk = Ok ()
    ∧ length his ≤ S (size (members s)).
Proof.
  intros Hwf Hn Ht HP.
  set (U := elements (dom (members s))).
  assert (distance U [] s zero_RelationSnapshot ≤ S (size (members s))) as Hd.
  { unfold distance, pending_cost. change (total (app_cost _ _) []) with 0.
    assert (total (unit_cost (members s) (rsn_Members zero_RelationSnapshot)) U ≤ length U) as H.
    { clear. induction U as [|u U IH]; [done|]. rewrite total_cons. simpl.
      unfold unit_cost at 1. simpl. rewrite lookup_empty.
      simpl in IH. destruct (members s !! u); lia. }
    assert (length U = size (members s)) as HU
      by (unfold U; by rewrite <- size_dom). case_decide; lia. }
  destruct (resolve_breaks (S (S (size (members s)))) U s w)
    as (his & app & s' & w' & Hr & [_ Hap] & Hwf' & Hm & Hid & Hlen); try done.
  - apply NoDup_elements.
  - intros u. by apply elem_of_elements.
  - lia.
  - eexists his, app, s', w', _. split_and!; [done..| |done|lia].
    unfold RelState_Validate. simpl. rewrite decide_False by (rewrite Hid; tauto).
    rewrite decide_False by (rewrite wf_members by done; done).
    by rewrite decide_True.
Qed.

End progress.
