(* ===== verification/SmallResolvers.v ===== *)
(** * The small resolvers

    internal/worker/uniter: reboot/resolver.go, leadership/resolver.go,
    actions/resolver.go, runcommands/runcommands.go and container/workload.go,
    with the queues of commands and workload events. *)

From stdpp Require Import pretty.
From S2P Require Import Prelude Hooks OpState Operations Resolver.
Import life operation.

(** ** reboot/resolver.go *)

(** [nopResolver] *)
Definition nopResolver_NextOp {W} : Resolver W := λ _ _, throw ErrNoOperation.

Section reboot.
Context {W : Type} (RD : lens W bool).

Definition rebootResolver_NextOp : Resolver W := λ localState opFactory,
  rebootDetected ← liftR (gets (view RD));
  if negb rebootDetected then throw ErrNoOperation
  else if negb (Started (ls_State localState)) then
    _ ← liftR (over RD (λ _, false));
    throw ErrNoOperation
  else if decide (Kind (ls_State localState) = RunHook) then throw ErrNoOperation
  else
    op ← liftR (NewRunHook opFactory (hook.info_of_kind hooks.Start));
    _ ← liftR (over RD (λ _, false));
    mret op.
End reboot.

(** ** leadership/resolver.go *)

Definition leadershipResolver_NextOp {W} : Resolver W := λ localState opFactory,
  let st := ls_State localState in
  if negb (Installed st) then throw ErrNoOperation
  else
    sn ← remote (λ sn, sn);
    let dying := bool_decide (sn_Life sn = Dying) in
    let canAcceptLeader :=
      negb (Leader st) && negb dying && bool_decide (Kind st = Continue) in
    if sn_Leader sn && canAcceptLeader then liftR (NewAcceptLeadership opFactory)
    else if Leader st && (negb (sn_Leader sn) || dying) then
      liftR (NewResignLeadership opFactory)
    else throw ErrNoOperation.

(** ** Operations that report their completion

    [actionCompleter], [commandCompleter] and [secretCompleter] are the same
    wrapper: a callback after a successful [Commit]. *)
Definition completer {W} (op : operation W) (completed : W → W) : operation W := {|
  op_init := op_init op;
  op_String := op_String op;
  op_NeedsGlobalMachineLock := op_NeedsGlobalMachineLock op;
  op_ExecutionGroup := op_ExecutionGroup op;
  op_Prepare := op_Prepare op;
  op_Execute := op_Execute op;
  op_Commit := λ state s,
    let '((st, err), (f, w)) := op_Commit op state s in
    match err with
    | None => ((st, None), (f, completed w))
    | Some e => ((st, Some e), (f, w))
    end;
|}.

(** ** actions/resolver.go *)

Section actions.
Context {W : Type} (actionCompleted : string → W → W).

Definition completeOnCommit (newOp : string → M W (operation W)) (id : string) :
    M (Snapshot * W) (operation W) :=
  op ← liftR (newOp id);
  mret (completer op (actionCompleted id)).

(** The body of [actionsResolver.NextOp], before its deferred function. *)
Definition actionsResolver_body (nextActionId : string) : Resolver W :=
  λ localState opFactory,
  let st := ls_State localState in
  match Kind st with
  | RunHook =>
      if bool_decide (Step st = Pending) && bool_decide (nextActionId ≠ "") then
        completeOnCommit (NewAction opFactory) nextActionId
      else throw ErrNoOperation
  | RunAction =>
      match Hook st with
      | Some hi => liftR (NewSkipHook opFactory hi)
      | None =>
          match ActionId st with
          | None => throw (GoPanic "nil pointer dereference")
          | Some id =>
              if decide (nextActionId = id) then
                completeOnCommit (NewFailAction opFactory) id
              else completeOnCommit (NewAction opFactory) id
          end
      end
  | Continue =>
      if decide (nextActionId ≠ "") then
        completeOnCommit (NewAction opFactory) nextActionId
      else throw ErrNoOperation
  | _ => throw ErrNoOperation
  end.

(** [actionsResolver.NextOp]: an action that is gone is failed instead. *)
Definition actionsResolver_NextOp : Resolver W := λ localState opFactory,
  pending ← remote sn_ActionsPending;
  let nextActionId := default "" (head pending) in
  r ← try (actionsResolver_body nextActionId localState opFactory);
  match r with
  | Ok op => mret op
  | Err e =>
      if decide (e = ErrActionNotAvailable) then
        let st := ls_State localState in
        match (if decide (Step st = Pending) then ActionId st else None) with
        | Some id => completeOnCommit (NewFailAction opFactory) id
        | None =>
            if decide (nextActionId ≠ "") then
              completeOnCommit (NewFailAction opFactory) nextActionId
            else throw ErrNoOperation
        end
      else throw e
  end.
End actions.

(** ** runcommands/runcommands.go *)

(** The queue of commands; [R] is the type of response functions. *)
Record commands (R : Type) : Type := MkCommands {
  cmd_nextId : nat;
  cmd_pending : gmap string (CommandArgs * R);
}.
Arguments MkCommands {R} _ _.
Arguments cmd_nextId {R} _.
Arguments cmd_pending {R} _.

Section commands.
Context {R : Type}.

Definition NewCommandQueue : commands R := MkCommands 0 ∅.

Definition AddCommand (args : CommandArgs) (response : R) (c : commands R) :
    string * commands R :=
  let id := pretty (cmd_nextId c) in
  (id, MkCommands (S (cmd_nextId c)) (<[id := (args, response)]> (cmd_pending c))).

Definition RemoveCommand (id : string) (c : commands R) : commands R :=
  MkCommands (cmd_nextId c) (delete id (cmd_pending c)).

(** The zero value for an unknown id. *)
Definition GetCommand (id : string) (c : commands R) : CommandArgs * option R :=
  match cmd_pending c !! id with
  | Some (args, r) => (args, Some r)
  | None => (MkCommandArgs "" 0 "" false, None)
  end.
End commands.

Section commandsResolver.
Context {W : Type}
  (getCommand : string → W →
     CommandArgs * option (option string → option error → W → bool * W))
  (removeCommand commandCompleted : string → W → W).

Definition commandsResolver_NextOp : Resolver W := λ localState opFactory,
  pending ← remote sn_Commands;
  match pending with
  | [] => throw ErrNoOperation
  | id :: _ =>
      '(args, response) ← liftR (gets (getCommand id));
      op ← liftR (NewCommands opFactory args response);
      mret (completer op (λ w, commandCompleted id (removeCommand id w)))
  end.
End commandsResolver.

(** ** container/workload.go *)

Inductive WorkloadEventType : Type :=
| ReadyEvent
| CustomNoticeEvent
| CheckFailedEvent
| CheckRecoveredEvent
| OtherEvent (n : Z).

Record WorkloadEvent : Type := MkWorkloadEvent {
  we_Type : WorkloadEventType;
  we_WorkloadName : string;
  we_NoticeID : string;
  we_NoticeType : string;
  we_NoticeKey : string;
  we_CheckName : string;
}.

(** The queue of events; [R] is the type of callbacks. *)
Record workloadEvents (R : Type) : Type := MkWorkloadEvents {
  we_nextID : nat;
  we_pending : gmap string (WorkloadEvent * R);
}.
Arguments MkWorkloadEvents {R} _ _.
Arguments we_nextID {R} _.
Arguments we_pending {R} _.

Section workloadEvents.
Context {R : Type}.

Definition NewWorkloadEvents : workloadEvents R := MkWorkloadEvents 0 ∅.

Definition AddWorkloadEvent (evt : WorkloadEvent) (cb : R) (c : workloadEvents R) :
    string * workloadEvents R :=
  let id := pretty (we_nextID c) in
  (id, MkWorkloadEvents (S (we_nextID c)) (<[id := (evt, cb)]> (we_pending c))).

Definition RemoveWorkloadEvent (id : string) (c : workloadEvents R) : workloadEvents R :=
  MkWorkloadEvents (we_nextID c) (delete id (we_pending c)).

Definition GetWorkloadEvent (id : string) (c : workloadEvents R) :
    result (WorkloadEvent * R) :=
  match we_pending c !! id with
  | Some item => Ok item
  | None => Err (NotFound "workload event %s")
  end.

(** In the order of a map iteration. *)
Definition Events (order : list string) (c : workloadEvents R) : list WorkloadEvent :=
  omap (λ id, fst <$> we_pending c !! id) order.
Definition EventIDs (order : list string) (c : workloadEvents R) : list string :=
  filter (λ id, is_Some (we_pending c !! id)) order.
End workloadEvents.

(** [op.handler(err)], after a call that returned; a panic in the call skips
    it. *)
Definition call_handler {W} (handler : option error → W → W) (err : option error)
    (w : W) : W :=
  match err with
  | Some (GoPanic _) => w
  | _ => handler err w
  end.

(** [errorWrappedOp] *)
Definition errorWrappedOp {W} (op : operation W) (handler : option error → W → W) :
    operation W := {|
  op_init := op_init op;
  op_String := op_String op;
  op_NeedsGlobalMachineLock := op_NeedsGlobalMachineLock op;
  op_ExecutionGroup := op_ExecutionGroup op;
  op_Prepare := λ state s,
    let '((st, err), (f, w)) := op_Prepare op state s in
    match err with
    | Some e =>
        if decide (e = ErrSkipExecute) then ((st, err), (f, w))
        else ((st, err), (f, call_handler handler err w))
    | None => ((st, err), (f, w))
    end;
  op_Execute := λ state s,
    let '((st, err), (f, w)) := op_Execute op state s in
    match err with
    | Some _ => ((st, err), (f, call_handler handler err w))
    | None => ((st, err), (f, w))
    end;
  op_Commit := λ state s,
    let '((st, err), (f, w)) := op_Commit op state s in
    ((st, err), (f, call_handler handler err w));
|}.

Section workload.
Context {W : Type}
  (getEvent : string → W → result (WorkloadEvent * (option error → W → W)))
  (removeEvent eventCompleted : string → W → W).

(** The hook of an event. *)
Definition event_info (evt : WorkloadEvent) : result hook.Info :=
  match we_Type evt with
  | CustomNoticeEvent =>
      Ok (hook.workload_info hooks.PebbleCustomNotice (we_WorkloadName evt)
            (we_NoticeID evt) (we_NoticeType evt) (we_NoticeKey evt) "")
  | ReadyEvent =>
      Ok (hook.workload_info hooks.PebbleReady (we_WorkloadName evt) "" "" "" "")
  | CheckFailedEvent =>
      Ok (hook.workload_info hooks.PebbleCheckFailed (we_WorkloadName evt) "" "" ""
            (we_CheckName evt))
  | CheckRecoveredEvent =>
      Ok (hook.workload_info hooks.PebbleCheckRecovered (we_WorkloadName evt) "" "" ""
            (we_CheckName evt))
  | OtherEvent _ => Err (NotValid "workload event type %v")
  end.

Definition workload_noOp : Resolver W := λ localState opFactory,
  match Kind (ls_State localState), Hook (ls_State localState) with
  | RunHook, Some hi =>
      if hooks.IsWorkload (hook.Kind hi) then liftR (NewSkipHook opFactory hi)
      else throw ErrNoOperation
  | _, _ => throw ErrNoOperation
  end.

(** The loop over the events: the first that is still known. *)
Fixpoint workload_loop (localState : LocalState) (opFactory : Factory W)
    (ids : list string) : M (Snapshot * W) (operation W) :=
  match ids with
  | [] => workload_noOp localState opFactory
  | id :: ids' =>
      r ← liftR (gets (getEvent id));
      match r with
      | Err (NotFound _) => workload_loop localState opFactory ids'
      | Err e => throw e
      | Ok (evt, cb) =>
          let done (err : option error) (w : W) :=
            eventCompleted id (removeEvent id (cb err w)) in
          info ← lift_result (event_info evt);
          r ← try (liftR (NewRunHook opFactory info));
          match r with
          | Ok op => mret (errorWrappedOp op done)
          | Err e =>
              _ ← liftR (modify (done (Some e)));
              throw e
          end
      end
  end.

Definition workloadHookResolver_NextOp : Resolver W := λ localState opFactory,
  let st := ls_State localState in
  let loop :=
    ids ← remote sn_WorkloadEvents;
    workload_loop localState opFactory ids in
  match Kind st with
  | RunHook =>
      if bool_decide (Step st = Pending) &&
         match Hook st with
         | Some hi => hooks.IsWorkload (hook.Kind hi)
         | None => false
         end
      then loop else workload_noOp localState opFactory
  | Continue => loop
  | _ => workload_noOp localState opFactory
  end.
End workload.
