(* ===== verification/WorkloadFacts.v ===== *)
(** * Commands and workload events

    The queues of SmallResolvers.v against what their clients rely on: an id
    names one entry from the time it is handed out until it is removed, and
    whoever queued a workload event hears of its outcome exactly once. *)

From stdpp Require Import pretty.
From S2P Require Import Prelude Hooks OpState Operations OperationFacts Resolver SmallResolvers.
Import life operation.

(** ** The queues *)

(** What is done to a queue of commands. *)
Inductive queue_op (R : Type) : Type :=
| QueueAdd (args : CommandArgs) (response : R)
| QueueRemove (id : string).
Arguments QueueAdd {R} _ _.
Arguments QueueRemove {R} _.

(** The ids that were handed out, and the queue that is left. *)
Fixpoint run_queue {R} (ops : list (queue_op R)) (c : commands R) : list string * commands R :=
  match ops with
  | [] => ([], c)
  | QueueAdd args response :: ops' =>
      let '(id, c1) := AddCommand args response c in
      let '(ids, c2) := run_queue ops' c1 in (id :: ids, c2)
  | QueueRemove id :: ops' => run_queue ops' (RemoveCommand id c)
  end.

Section queue.
Context {R : Type}.

Lemma run_queue_nextId (ops : list (queue_op R)) c :
  cmd_nextId c ≤ cmd_nextId (run_queue ops c).2 ∧
  ∀ id, id ∈ (run_queue ops c).1 →
    ∃ n, id = pretty n ∧ cmd_nextId c ≤ n < cmd_nextId (run_queue ops c).2.
Proof.
  revert c. induction ops as [|[args r|id] ops IH]; intros c; simpl.
  - split; [done|]. intros id Hid. by apply not_elem_of_nil in Hid.
  - destruct (IH (AddCommand args r c).2) as [H1 H2]. simpl in *.
    destruct (run_queue ops _) as [ids c2]. simpl in *. split; [lia|].
    intros id [->|Hid]%elem_of_cons.
    + exists (cmd_nextId c). split; [done|lia].
    + destruct (H2 _ Hid) as (n & -> & ?). exists n. split; [done|lia].
  - apply (IH (RemoveCommand id c)).
Qed.

Lemma run_queue_keeps (ops : list (queue_op R)) c n item :
  n < cmd_nextId c → cmd_pending c !! (pretty n) = Some item →
  QueueRemove (pretty n) ∉ ops →
  cmd_pending (run_queue ops c).2 !! (pretty n) = Some item.
Proof.
  revert c. induction ops as [|[args r|id] ops IH]; intros c Hn Hl Hr; simpl; [done|..];
    apply not_elem_of_cons in Hr as [Hne Hr].
  - specialize (IH (AddCommand args r c).2). simpl in IH.
    destruct (run_queue ops _) as [ids c2]. simpl in *. apply IH; [lia| |done].
    rewrite lookup_insert_ne; [done|]. intros Heq. apply (inj pretty) in Heq. lia.
  - apply IH; [done| |done]. simpl. rewrite lookup_delete_ne; [done|congruence].
Qed.
End queue.

(** A queued command can be looked up under its id until it is removed.
    Whatever was done to the queue before, the id handed out for a command is
    none that was handed out before, and whatever is done after, other than
    removing that id, looking it up gives the command and its response function. *)
Theorem command_stays_until_removed {R} (before after : list (queue_op R)) args (r : R) :
  let '(ids, c) := run_queue before NewCommandQueue in
  let '(id, c1) := AddCommand args r c in
  (id ∉ ids) ∧ (QueueRemove id ∉ after →
              GetCommand id (run_queue after c1).2 = (args, Some r)).
Proof.
  pose proof (run_queue_nextId before NewCommandQueue) as [_ H].
  destruct (run_queue before NewCommandQueue) as [ids c]. simpl in *. split.
  - intros (n & Heq & Hn)%H. apply (inj pretty) in Heq. lia.
  - intros Hr. unfold GetCommand.
    rewrite (run_queue_keeps after _ (cmd_nextId c) (args, r)); simpl; [done|lia| |done].
    by rewrite lookup_insert_eq.
Qed.

(** ** The callback of a workload event *)

Section wrapped.
Context {NM : Names} {SU : SecretURIs} {YM : Yaml OpState} {W : Type}
  (rw : UnitStateReadWriter W) (acquire : string → string → M W (W → W))
  (op : operation W) (handler : option error → W → W) (log : W → list (option error)).

(** The calls of the callback so far; nothing else touches them. *)
Record logging : Prop := {
  lg_handler e w : log (handler e w) = log w ++ [e];
  lg_SetState data : keeps log (rw_SetState rw data);
  lg_acquire l g w r w' : acquire l g w = (r, w') → log w' = log w ∧
    match r with Ok rel => ∀ w, log (rel w) = log w | Err _ => True end;
  lg_op step st f w o f' w' : step_run step op st (f, w) = (o, (f', w')) → log w' = log w;
}.
Context (LG : logging).

(** How one step of the wrapped operation calls it. *)
Definition step_calls (step : executorStep) (err : option error) : list (option error) :=
  match step, err with
  | _, Some (GoPanic _) => []
  | stepPrepare, Some e => if decide (e = ErrSkipExecute) then [] else [Some e]
  | stepExecute, Some e => [Some e]
  | stepCommit, _ => [err]
  | _, None => []
  end.

Lemma wrapped_step step st f w ns err f' w' :
  step_run step (errorWrappedOp op handler) st (f, w) = ((ns, err), (f', w')) →
  log w' = log w ++ step_calls step err.
Proof using LG.
  pose proof (lg_op LG step st f w) as Hop.
  assert (∀ e w1, log (call_handler handler e w1)
    = log w1 ++ match e with Some (GoPanic _) => [] | _ => [e] end) as Hcall.
  { intros e w1. unfold call_handler. destruct e as [[]|]; rewrite ?app_nil_r; try done;
      apply (lg_handler LG). }
  destruct step; simpl in *;
    [destruct (op_Prepare op st (f, w)) as [[st1 e1] [f1 w1]]
    |destruct (op_Execute op st (f, w)) as [[st1 e1] [f1 w1]]
    |destruct (op_Commit op st (f, w)) as [[st1 e1] [f1 w1]]];
    rewrite <- (Hop _ _ _ eq_refl); clear Hop.
  - destruct e1 as [e|]; [case_decide as Hd|]; intros; simplify_eq;
      rewrite ?Hcall, ?app_nil_r; [done| |done].
    destruct e; by rewrite ?app_nil_r, ?decide_False.
  - destruct e1 as [e|]; intros; simplify_eq; rewrite ?app_nil_r, ?Hcall; [|done].
    by destruct e.
  - intros. simplify_eq. rewrite Hcall. by destruct err as [[]|].
Qed.

Lemma writeState_log ns x w r x' w' :
  executor_writeState rw ns (x, w) = (r, (x', w')) → log w' = log w.
Proof using LG.
  intros [(_ & -> & _)|(_ & data & _ & [(_ & _ & H)|(e & _ & _ & H)])]%executor_writeState_inv;
    [done|by apply (lg_SetState LG) in H..].
Qed.

(** The calls a step makes, when the executor reports [r] for it. *)
Definition calls_ok (step : executorStep) (r : result ()) (calls : list (option error)) : Prop :=
  length calls ≤ 1
  ∧ (∀ e, calls = [Some e] → r = Err e)
  ∧ match step with
    | stepPrepare => (r = Ok () ∨ r = Err ErrSkipExecute) → calls = []
    | stepExecute => r = Ok () → calls = []
    | stepCommit => r = Ok () → calls = [None]
    end.

Lemma do_calls step x f w r x' f' w' :
  executor_do rw (errorWrappedOp op handler) step (x, (f, w)) = (r, (x', (f', w'))) →
  ∃ calls, log w' = log w ++ calls ∧ calls_ok step r calls.
Proof using LG.
  unfold executor_do, executor_State. destruct (x_state x) as [st|].
  2:{ intros. simplify_eq. exists []. rewrite app_nil_r. split; [done|].
      split_and!; [simpl; lia|done|]. destruct step; naive_solver. }
  destruct (step_run _ _ st (f, w)) as [[ns err] [f1 w1]] eqn:E.
  apply wrapped_step in E.
  destruct (match ns with Some _ => _ | None => _ end) as [wr [x2 w2]] eqn:Ew.
  intros H. exists (step_calls step err).
  assert (log w' = log w1) as ->.
  { assert (w' = w2) as -> by (destruct err, wr; by simplify_eq).
    destruct ns; [by eapply writeState_log|by simplify_eq]. }
  split; [done|]. clear E Ew.
  assert (match err with Some e => r = Err e | None => True end) as Hr
    by (destruct err; by simplify_eq).
  assert (r = Ok () → err = None) as Hok by (intros ->; by destruct err).
  unfold calls_ok. destruct step, err as [[]|]; simpl; try case_decide; simpl; split_and!;
    try lia; intros; simplify_eq; try done; naive_solver.
Qed.

Lemma steps_calls x f w r x' f' w' :
  executor_steps rw (errorWrappedOp op handler) (x, (f, w)) = (r, (x', (f', w'))) →
  ∃ calls, log w' = log w ++ calls ∧ length calls ≤ 1
    ∧ (∀ e, calls = [Some e] → r = Err e) ∧ (r = Ok () → calls = [None]).
Proof using LG.
  unfold executor_steps, try, mbind, M_bind, throw.
  destruct (executor_do _ _ stepPrepare _) as [r1 [x1 [f1 w1]]] eqn:E1.
  apply do_calls in E1 as (c1 & L1 & Hl1 & He1 & Hp). simpl in Hp.
  assert (∀ r2 x2 f2 w2, c1 = [] →
    executor_do rw (errorWrappedOp op handler) stepCommit (x1, (f1, w1))
      = (r2, (x2, (f2, w2))) →
    ∃ calls, log w2 = log w ++ calls ∧ length calls ≤ 1
      ∧ (∀ e, calls = [Some e] → r2 = Err e) ∧ (r2 = Ok () → calls = [None])) as Hcommit.
  { intros r2 x2 f2 w2 -> (c2 & L2 & ? & ? & ?)%do_calls. exists c2.
    rewrite L2, L1, app_nil_r. done. }
  destruct r1 as [[]|e1].
  - specialize (Hp (or_introl eq_refl)). subst c1. rewrite app_nil_r in L1.
    destruct (executor_do _ _ stepExecute _) as [[[]|e2] [x2 [f2 w2]]] eqn:E2;
      apply do_calls in E2 as (c2 & L2 & Hl2 & He2 & Hx); simpl in Hx.
    + rewrite Hx, app_nil_r in L2 by done.
      intros (c3 & L3 & ? & ? & ?)%do_calls. exists c3. rewrite L3, L2, L1. done.
    + intros. simplify_eq. exists c2. rewrite L2, L1. done.
  - destruct (decide (e1 = ErrSkipExecute)) as [->|Hne].
    + simpl. apply Hcommit. auto.
    + intros H. assert (r = Err e1 ∧ w' = w1) as [-> ->].
      { destruct e1; rewrite ?decide_False in H by done; by simplify_eq. }
      by exists c1.
Qed.

(** Whoever queued a workload event hears of its outcome exactly once.
    Running the operation the resolver made for the event calls the event's
    callback at most once, with the error if it is told of one; and when the
    operation succeeds the callback was called once, with no error. *)
Theorem workload_callback_once x w r x' w' :
  executor_Run rw acquire (errorWrappedOp op handler) (x, w) = (r, (x', w')) →
  ∃ calls, log w' = log w ++ calls ∧ length calls ≤ 1
    ∧ (∀ e, calls = [Some e] → r = Err e) ∧ (r = Ok () → calls = [None]).
Proof using LG.
  unfold executor_Run, with_fields, defer_release, zoom, mbind, M_bind. simpl.
  destruct (op_NeedsGlobalMachineLock op).
  - cbn [fst snd]. destruct (acquire _ _ w) as [[rel|e] w1] eqn:Ea;
      apply (lg_acquire LG) in Ea as [La Hrel].
    + destruct (executor_steps _ _ _) as [r2 [x2 [f2 w2]]] eqn:E.
      intros. simplify_eq. apply steps_calls in E. by rewrite Hrel, <- La.
    + intros. simplify_eq. exists []. rewrite app_nil_r. split_and!; simpl; [done|lia|done|done].
  - destruct (executor_steps _ _ _) as [r2 [x2 [f2 w2]]] eqn:E.
    intros. simplify_eq. by apply steps_calls in E.
Qed.
End wrapped.
