(* ===== verification/Leadership.v ===== *)
(** * The leadership tracker

    internal/worker/leadership/tracker.go: the worker that claims leadership of
    the application for its unit, renews the claim before it runs out, and tells
    its clients, through tickets, whether the unit is leader.  The resolvers
    learn of leadership from it, by way of the remote state watcher.

    A ticket is a channel with room for one value, which the tracker sends true
    on or not and then closes.  The clock, the tomb and the claimer, which asks
    the controller for the lease, are the operations of [LeadershipAPI]; one turn
    of the tracker's loop is [tracker_handle], for each case of its [select]. *)

From S2P Require Import Prelude.

(** core/leadership/interface.go *)
Abbreviation ErrClaimDenied := (ErrConst "leadership claim denied").
Abbreviation ErrBlockCancelled := (ErrConst "waiting for leadership cancelled by client").

(** tomb.ErrDying *)
Abbreviation tomb_ErrDying := (ErrConst "tomb: dying").

(** ** Data *)

(** The channel of a ticket: how many values were sent, and whether it is
    closed. *)
Record ticket : Type := MkTicket {
  tk_sent : nat;
  tk_closed : bool;
}.

(** What [ticket.Wait] returns once the channel is closed. *)
Definition ticket_success (t : ticket) : bool := bool_decide (0 < tk_sent t).

(** [Tracker]: [lt_claimLease] tells whether that channel is there,
    [lt_renewLease] when the timer of the renewal goes off.  [lt_tickets] has the
    channels of the tickets by number. *)
Record Leadership : Type := MkLeadership {
  lt_isMinion : bool;
  lt_claimLease : bool;
  lt_renewLease : option Z;
  lt_waitingLeader : list nat;
  lt_waitingMinion : list nat;
  lt_tickets : gmap nat ticket;
}.

Definition set_isMinion (b : bool) (t : Leadership) : Leadership :=
  MkLeadership b (lt_claimLease t) (lt_renewLease t) (lt_waitingLeader t)
    (lt_waitingMinion t) (lt_tickets t).
Definition set_claimLease (b : bool) (t : Leadership) : Leadership :=
  MkLeadership (lt_isMinion t) b (lt_renewLease t) (lt_waitingLeader t)
    (lt_waitingMinion t) (lt_tickets t).
Definition set_renewLease (r : option Z) (t : Leadership) : Leadership :=
  MkLeadership (lt_isMinion t) (lt_claimLease t) r (lt_waitingLeader t)
    (lt_waitingMinion t) (lt_tickets t).
Definition set_waitingLeader (l : list nat) (t : Leadership) : Leadership :=
  MkLeadership (lt_isMinion t) (lt_claimLease t) (lt_renewLease t) l
    (lt_waitingMinion t) (lt_tickets t).
Definition set_waitingMinion (l : list nat) (t : Leadership) : Leadership :=
  MkLeadership (lt_isMinion t) (lt_claimLease t) (lt_renewLease t) (lt_waitingLeader t)
    l (lt_tickets t).
Definition set_ticket (id : nat) (tk : ticket) (t : Leadership) : Leadership :=
  MkLeadership (lt_isMinion t) (lt_claimLease t) (lt_renewLease t) (lt_waitingLeader t)
    (lt_waitingMinion t) (<[id := tk]> (lt_tickets t)).

(** [NewTracker], before its goroutine starts. *)
Definition NewTracker : Leadership := MkLeadership true false None [] [] ∅.

(** The cases of the [select] in [isLeader]. *)
Inductive renew_case : Type := RenewDying | RenewFired | RenewDefault.

(** The clock's [Now]; its [After], which gives the time at which the timer goes
    off; the claimer's [ClaimLeadership] for a duration; whether a [select]
    between the dying tomb and a channel that is ready takes the first; and the
    [select] of [isLeader], given the time at which the renewal is due. *)
Record LeadershipAPI (W : Type) : Type := MkLeadershipAPI {
  la_Now : W → Z * W;
  la_After : Z → W → Z * W;
  la_ClaimLeadership : Z → M W ();
  la_Dying : W → bool * W;
  la_Renew : option Z → W → renew_case * W;
}.
Arguments la_Now {W} _ _.
Arguments la_After {W} _ _ _.
Arguments la_ClaimLeadership {W} _ _.
Arguments la_Dying {W} _ _.
Arguments la_Renew {W} _ _ _.

Section tracker.
Context {W : Type} (LT : lens W Leadership) (api : LeadershipAPI W) (duration : Z).

(** ** Tickets *)

Definition close_ticket (id : nat) : M W () :=
  t ← gets (view LT);
  match lt_tickets t !! id with
  | None => throw (GoPanic "close of nil channel")
  | Some tk =>
      if tk_closed tk then throw (GoPanic "close of closed channel")
      else over LT (set_ticket id (MkTicket (tk_sent tk) true))
  end.

Definition sendTrue (id : nat) : M W () :=
  dying ← always (la_Dying api);
  if dying : bool then throw tomb_ErrDying
  else
    t ← gets (view LT);
    match lt_tickets t !! id with
    | None => throw (GoPanic "send on nil channel")
    | Some tk =>
        if tk_closed tk then throw (GoPanic "send on closed channel")
        else over LT (set_ticket id (MkTicket (S (tk_sent tk)) false))
    end.

Definition close_all (ids : list nat) : M W () := for_each ids close_ticket.

(** The loops of [setLeader] and [setMinion]: each ticket is taken off the list
    and sent true; those taken off are closed when the function returns, the
    last one first. *)
Fixpoint notify (set : list nat → Leadership → Leadership) (l popped : list nat) : M W () :=
  match l with
  | [] => close_all popped
  | id :: l' =>
      _ ← over LT (set l');
      r ← try (sendTrue id);
      match r with
      | Ok _ => notify set l' (id :: popped)
      | Err e => _ ← close_all (id :: popped); throw e
      end
  end.

(** ** Leadership *)

Definition setLeader (untilTime : Z) : M W () :=
  let renewTime := (untilTime - duration)%Z in
  _ ← over LT (λ t, set_claimLease false (set_isMinion false t));
  now ← always (la_Now api);
  due ← always (la_After api (renewTime - now)%Z);
  _ ← over LT (set_renewLease (Some due));
  l ← look LT lt_waitingLeader;
  notify set_waitingLeader l [].

(** The goroutine that waits for the release of the lease is there exactly while
    [claimLease] is. *)
Definition setMinion : M W () :=
  _ ← over LT (λ t, set_claimLease true (set_renewLease None (set_isMinion true t)));
  l ← look LT lt_waitingMinion;
  notify set_waitingMinion l [].

Definition refresh : M W () :=
  let leaseDuration := (2 * duration)%Z in
  now ← always (la_Now api);
  r ← try (la_ClaimLeadership api leaseDuration);
  match r with
  | Ok _ => setLeader (now + leaseDuration)
  | Err e => if decide (e = ErrClaimDenied) then setMinion else throw e
  end.

Definition tracker_isLeader : M W bool :=
  t ← gets (view LT);
  _ ← (if lt_isMinion t then mret ()
       else
         c ← always (la_Renew api (lt_renewLease t));
         match c, lt_renewLease t with
         | RenewDying, _ => throw tomb_ErrDying
         | RenewFired, Some _ => _ ← over LT (set_renewLease None); refresh
         | _, _ => mret ()
         end);
  look LT (λ t, negb (lt_isMinion t)).

Definition resolveClaim (id : nat) : M W () :=
  finally (leader ← tracker_isLeader; if leader : bool then sendTrue id else mret ())
    (close_ticket id).

(** The ticket is closed on the way out unless it was put on the list. *)
Definition resolveWaitLeader (id : nat) : M W () :=
  r ← try tracker_isLeader;
  match r with
  | Err e => _ ← close_ticket id; throw e
  | Ok true => finally (sendTrue id) (close_ticket id)
  | Ok false => over LT (λ t, set_waitingLeader (lt_waitingLeader t ++ [id]) t)
  end.

Definition resolveWaitMinion (id : nat) : M W () :=
  r ← try tracker_isLeader;
  match r with
  | Err e => _ ← close_ticket id; throw e
  | Ok true => over LT (λ t, set_waitingMinion (lt_waitingMinion t ++ [id]) t)
  | Ok false => close_ticket id
  end.

(** ** The loop *)

(** The cases of the loop's [select].  [claimLease] delivers an error, nil
    included, or nothing when it was closed. *)
Inductive leadership_event : Type :=
| LvDying
| LvClaimLease (r : option (option error))
| LvRenew
| LvClaim (id : nat)
| LvWaitLeader (id : nat)
| LvWaitMinion (id : nat).

(** [submit] makes the channel of a ticket; one that the tracker receives is
    handled. *)
Definition new_ticket (id : nat) : M W () := over LT (set_ticket id (MkTicket 0 false)).

(** A case of the [select]; an event of a nil channel changes nothing. *)
Definition tracker_handle (e : leadership_event) : M W () :=
  t ← gets (view LT);
  match e with
  | LvDying => throw tomb_ErrDying
  | LvClaimLease r =>
      if lt_claimLease t then
        _ ← over LT (set_claimLease false);
        match r with
        | None => mret ()
        | Some (Some err) => if decide (err = ErrBlockCancelled) then mret () else throw err
        | Some None => refresh
        end
      else mret ()
  | LvRenew =>
      match lt_renewLease t with
      | Some _ => _ ← over LT (set_renewLease None); refresh
      | None => mret ()
      end
  | LvClaim id => _ ← new_ticket id; resolveClaim id
  | LvWaitLeader id => _ ← new_ticket id; resolveWaitLeader id
  | LvWaitMinion id => _ ← new_ticket id; resolveWaitMinion id
  end.

(** What the goroutine of the tracker does when its loop has ended. *)
Definition tracker_exit : M W () :=
  t ← gets (view LT);
  _ ← close_all (lt_waitingLeader t);
  close_all (lt_waitingMinion t).

End tracker.
