(* ===== verification/LeadershipFacts.v ===== *)
(** * What the leadership tracker guarantees

    Every ticket is answered exactly once, whatever happens to the tracker; a
    ticket that says leader says so only while the lease is held for the
    tracker's duration; and a tracker never sits idle: a leader has a renewal
    coming, a minion a claim. *)

From S2P Require Import Prelude Leadership.

(** ** Tickets *)

(** The fields of the tracker but its tickets. *)
Record fields : Type := MkFields {
  f_isMinion : bool;
  f_claimLease : bool;
  f_renewLease : option Z;
  f_waitingLeader : list nat;
  f_waitingMinion : list nat;
}.
Definition fields_of (t : Leadership) : fields :=
  MkFields (lt_isMinion t) (lt_claimLease t) (lt_renewLease t) (lt_waitingLeader t)
    (lt_waitingMinion t).

Definition waiting (r : fields) : list nat := f_waitingLeader r ++ f_waitingMinion r.

(** Exactly the tickets that are waiting, [fresh] or [popped] are open; nothing was
    sent on those that wait or are fresh, and at most once on any. *)
Record tickets_ok (D : gset nat) (fresh popped : list nat) (t : Leadership) : Prop := {
  to_nodup : NoDup (waiting (fields_of t) ++ fresh ++ popped);
  to_there : ∀ id, id ∈ waiting (fields_of t) ++ fresh ++ popped → is_Some (lt_tickets t !! id);
  to_open : ∀ id tk, lt_tickets t !! id = Some tk →
    tk_closed tk = false ↔ id ∈ waiting (fields_of t) ++ fresh ++ popped;
  to_unsent : ∀ id tk, lt_tickets t !! id = Some tk →
    id ∈ waiting (fields_of t) ++ fresh → tk_sent tk = 0;
  to_popped : ∀ id tk, lt_tickets t !! id = Some tk → id ∈ popped → tk_sent tk = 1;
  to_once : ∀ id tk, lt_tickets t !! id = Some tk → tk_sent tk ≤ 1;
  to_dom : dom (lt_tickets t) = D;
}.

Lemma tickets_ok_perm D f p f' p' t t' :
  lt_tickets t' = lt_tickets t →
  waiting (fields_of t') ++ f' ≡ₚ waiting (fields_of t) ++ f → p' ≡ₚ p →
  tickets_ok D f p t → tickets_ok D f' p' t'.
Proof.
  intros Et Hf Hp [H1 H2 H3 H4 H5 H6 H7].
  assert (waiting (fields_of t') ++ f' ++ p' ≡ₚ waiting (fields_of t) ++ f ++ p) as Hall.
  { by rewrite !(assoc_L (++)), Hf, Hp. }
  split.
  - by rewrite Hall.
  - intros id. rewrite Hall, Et. apply H2.
  - intros id tk. rewrite Hall, Et. apply H3.
  - intros id tk. rewrite Hf, Et. apply H4.
  - intros id tk. rewrite Hp, Et. apply H5.
  - intros id tk. rewrite Et. apply H6.
  - by rewrite Et.
Qed.

Lemma tickets_ok_same D f p t t' :
  lt_tickets t' = lt_tickets t → waiting (fields_of t') = waiting (fields_of t) →
  tickets_ok D f p t → tickets_ok D f p t'.
Proof. intros ? E. eapply tickets_ok_perm; [done|by rewrite E|done]. Qed.

Lemma tickets_ok_renew D f p r t : tickets_ok D f p t → tickets_ok D f p (set_renewLease r t).
Proof. by apply tickets_ok_same. Qed.
Lemma tickets_ok_claim D f p b t : tickets_ok D f p t → tickets_ok D f p (set_claimLease b t).
Proof. by apply tickets_ok_same. Qed.

(** Sending on a fresh ticket. *)
Lemma tickets_ok_send D id f p t :
  tickets_ok D (id :: f) p t →
  ∃ tk, lt_tickets t !! id = Some tk ∧ tk_closed tk = false ∧
    tickets_ok D f (id :: p) (set_ticket id (MkTicket (S (tk_sent tk)) false) t).
Proof.
  intros [H1 H2 H3 H4 H5 H6 H7].
  destruct (H2 id) as [tk Htk]; [set_solver|]. exists tk. split; [done|].
  assert (tk_closed tk = false) as Hc by (apply (H3 id); [done|set_solver]).
  assert (tk_sent tk = 0) as Hs by (apply (H4 id); [done|set_solver]).
  assert (waiting (fields_of t) ++ f ++ id :: p ≡ₚ waiting (fields_of t) ++ (id :: f) ++ p)
    as Hp by solve_Permutation.
  split; [done|]. change (waiting (fields_of t)) with
    (waiting (fields_of (set_ticket id (MkTicket (S (tk_sent tk)) false) t))) in *.
  split; simpl.
  - by rewrite Hp.
  - intros id'. rewrite Hp. intros Hin. destruct (decide (id = id')) as [->|].
    + rewrite lookup_insert_eq. eauto.
    + rewrite lookup_insert_ne by done. eauto.
  - intros id' tk'. rewrite Hp. intros [[-> <-]|[? ?]]%lookup_insert_Some; [|by eapply H3].
    simpl. split; [set_solver|done].
  - intros id' tk' [[-> <-]|[? ?]]%lookup_insert_Some Hin; [exfalso|eapply H4; set_solver].
    apply NoDup_app in H1 as (_ & H1 & [H1' _]%NoDup_app). apply NoDup_cons in H1'.
    set_solver.
  - intros id' tk' [[-> <-]|[? ?]]%lookup_insert_Some Hin; [simpl; lia|].
    eapply H5; [done|]. set_solver.
  - intros id' tk' [[-> <-]|[? ?]]%lookup_insert_Some; [simpl; lia|eauto].
  - rewrite dom_insert_lookup_L; eauto.
Qed.

(** Closing a ticket that does not wait. *)
Lemma tickets_ok_close D id f p f' p' t :
  tickets_ok D f p t → f ++ p ≡ₚ id :: f' ++ p' → f' ⊆ f → p' ⊆ p →
  ∃ tk, lt_tickets t !! id = Some tk ∧ tk_closed tk = false ∧
    tickets_ok D f' p' (set_ticket id (MkTicket (tk_sent tk) true) t).
Proof.
  intros [H1 H2 H3 H4 H5 H6 H7] Hp Hsub Hsub'.
  assert (∀ x, x ∈ waiting (fields_of t) ++ f ++ p ↔
    x = id ∨ x ∈ waiting (fields_of t) ++ f' ++ p') as Hin.
  { intros x. rewrite Hp. set_solver. }
  rewrite Hp in H1. assert (id ∉ waiting (fields_of t) ++ f' ++ p') as Hnew.
  { apply NoDup_app in H1 as (_ & H1 & H1'). apply NoDup_cons in H1' as [? _]. set_solver. }
  destruct (H2 id) as [tk Htk]; [set_solver|]. exists tk. split; [done|].
  split; [apply (H3 id); [done|set_solver]|].
  change (waiting (fields_of t)) with
    (waiting (fields_of (set_ticket id (MkTicket (tk_sent tk) true) t))) in *.
  split; simpl.
  - apply NoDup_app in H1 as (? & ? & H1'). apply NoDup_cons in H1' as [_ ?].
    apply NoDup_app. split_and!; [done| |done]. set_solver.
  - intros id' Hid. rewrite lookup_insert_ne by set_solver. apply H2, Hin. by right.
  - intros id' tk' [[-> <-]|[Hne Ht]]%lookup_insert_Some; simpl; [by split|].
    rewrite (H3 _ _ Ht), Hin. naive_solver.
  - intros id' tk' [[-> <-]|[Hne Ht]]%lookup_insert_Some Hid; [set_solver|].
    apply (H4 _ _ Ht). set_solver.
  - intros id' tk' [[-> <-]|[Hne Ht]]%lookup_insert_Some Hid; [set_solver|].
    apply (H5 _ _ Ht). set_solver.
  - intros id' tk' [[-> <-]|[? ?]]%lookup_insert_Some; simpl; eauto.
  - rewrite dom_insert_lookup_L; eauto.
Qed.

(** ** The world of a tracker *)

Section facts.
Context {W : Type} (LT : lens W Leadership) (api : LeadershipAPI W) (duration : Z).

(** What time it is, until when leadership is guaranteed to the unit, and how much
    later than asked for a timer may go off. *)
Context (now lease : W → Z) (slack : Z).

(** What the rest of the world keeps to, apart from the tracker. *)
Context (sound : W → Prop).

(** Time passes, and a guarantee that was given stands. *)
Definition flows (w w' : W) : Prop :=
  view LT w' = view LT w ∧ (now w ≤ now w')%Z ∧ (lease w ≤ lease w')%Z ∧ (sound w → sound w').

(** What the clock, the tomb and the claimer are documented to do: a claim that
    succeeds guarantees leadership for the duration from the time of the call, and
    a timer that is due by more than the slack has gone off. *)
Class LeadershipWorld : Prop := {
  lw_laws :: LensLaws LT;
  lw_apart t w : now (update LT t w) = now w ∧ lease (update LT t w) = lease w;
  lw_sound t w : sound w → sound (update LT t w);
  lw_Now w n w' : la_Now api w = (n, w') → n = now w' ∧ flows w w';
  lw_After d w due w' : la_After api d w = (due, w') →
    (due ≤ now w + d + slack)%Z ∧ flows w w';
  lw_Claim w r w' : sound w → la_ClaimLeadership api (2 * duration) w = (r, w') →
    view LT w' = view LT w ∧ (now w ≤ now w')%Z ∧ sound w' ∧
    (∀ s, r ≠ Err (GoPanic s)) ∧ (r = Ok () → (now w + 2 * duration ≤ lease w')%Z);
  lw_Dying w b w' : la_Dying api w = (b, w') → flows w w';
  lw_Renew due w c w' : la_Renew api due w = (c, w') →
    flows w w' ∧ (c = RenewDefault → ∀ dl, due = Some dl → (now w' < dl)%Z);
}.
Context {LW : LeadershipWorld}.

Definition not_panic (e : error) : Prop := ∀ s, e ≠ GoPanic s.

Section tickets.
Context (D : gset nat).

(** The tracker in a world: its fields, its tickets, and bounds for the time and
    the lease. *)
Record tracker_at (r : fields) (f p : list nat) (n l : Z) (w : W) : Prop := {
  ta_fields : fields_of (view LT w) = r;
  ta_tickets : tickets_ok D f p (view LT w);
  ta_now : (n ≤ now w)%Z;
  ta_lease : (l ≤ lease w)%Z;
  ta_sound : sound w;
}.

Lemma tracker_at_flows r f p n l w w' :
  flows w w' → tracker_at r f p n l w → tracker_at r f p n l w'.
Proof. intros (E & ? & ? & ?) []. split; rewrite ?E; solve [auto | lia]. Qed.

(** Changing the tracker. *)
Lemma tracker_at_update r f p r' f' p' n l t w :
  tracker_at r f p n l w → fields_of t = r' → tickets_ok D f' p' t →
  tracker_at r' f' p' n l (update LT t w).
Proof.
  intros [H1 H2 H3 H4 H5] ??. destruct (lw_apart t w) as [Hn Hl].
  split; rewrite ?view_update, ?Hn, ?Hl; try done. by apply lw_sound.
Qed.

Lemma tracker_at_over (g : Leadership → Leadership) r f p r' f' p' n l E :
  (∀ t, fields_of t = r → tickets_ok D f p t →
    fields_of (g t) = r' ∧ tickets_ok D f' p' (g t)) →
  triple (tracker_at r f p n l) (over LT g) (λ _, tracker_at r' f' p' n l) E.
Proof.
  intros Hg. apply triple_modify. intros w Hw. pose proof Hw as [H1 H2 _ _ _].
  destruct (Hg _ H1 H2). by eapply tracker_at_update.
Qed.

Lemma always_flows {A} (c : W → A * W) (P : A → W → Prop) r f p n l E :
  (∀ w a w', c w = (a, w') → tracker_at r f p n l w → flows w w' ∧ P a w') →
  triple (tracker_at r f p n l) (always c)
    (λ a w, P a w ∧ tracker_at r f p n l w) E.
Proof.
  intros Hc w x w' Hw. unfold always. destruct (c w) as [a w1] eqn:Ec. intros [= <- <-].
  destruct (Hc _ _ _ Ec Hw). split; [done|]. by eapply tracker_at_flows.
Qed.

(** ** Answering tickets *)

Lemma triple_no_fail {A} (P : W → Prop) (m : M W A) Q E :
  triple P m Q (λ _ _, False) → triple P m Q E.
Proof. intros H. by eapply triple_conseq. Qed.

Lemma close_ticket_spec id r f p f' p' n l :
  f ++ p ≡ₚ id :: f' ++ p' → f' ⊆ f → p' ⊆ p →
  triple (tracker_at r f p n l) (close_ticket LT id)
    (λ _, tracker_at r f' p' n l) (λ _ _, False).
Proof.
  intros Hp Hsub Hsub' w x w' Hw. unfold close_ticket. rewrite (bind_ok _ _ _ (view LT w) w) by done.
  pose proof Hw as [Hr Ht _ _ _].
  destruct (tickets_ok_close D id f p f' p' _ Ht Hp Hsub Hsub') as (tk & Htk & Hc & Hok).
  rewrite Htk, Hc. intros [= <- <-]. by eapply tracker_at_update.
Qed.

Lemma close_all_spec r f p n l :
  triple (tracker_at r f p n l) (close_all LT p) (λ _, tracker_at r f [] n l) (λ _ _, False).
Proof.
  induction p as [|id p IH]; simpl; [by apply triple_ret|].
  eapply triple_bind; [apply (close_ticket_spec id r f (id :: p) f p)|done].
  - solve_Permutation.
  - done.
  - set_solver.
Qed.

Lemma sendTrue_spec id r f p n l :
  triple (tracker_at r (id :: f) p n l) (sendTrue LT api id)
    (λ _, tracker_at r f (id :: p) n l)
    (λ e w, not_panic e ∧ tracker_at r (id :: f) p n l w).
Proof.
  eapply triple_bind.
  { apply (always_flows _ (λ _ _, True)). intros w b w' H _.
    split; [by eapply lw_Dying|done]. }
  intros []; apply triple_pure; intros _; [by apply triple_throw|].
  intros w x w' Hw. rewrite (bind_ok _ _ _ (view LT w) w) by done.
  pose proof Hw as [Hr Ht _ _ _].
  destruct (tickets_ok_send D id f p _ Ht) as (tk & Htk & Hc & Hok).
  rewrite Htk, Hc. intros [= <- <-]. by eapply tracker_at_update.
Qed.

(** A list of waiting tickets in the fields. *)
Class Queue (set : list nat → Leadership → Leadership) (put : list nat → fields → fields) : Prop := {
  qu_fields l t : fields_of (set l t) = put l (fields_of t);
  qu_tickets l t : lt_tickets (set l t) = lt_tickets t;
  qu_put l l' r : put l (put l' r) = put l r;
  qu_waiting id l r : waiting (put (id :: l) r) ≡ₚ id :: waiting (put l r);
}.

Definition put_leader (l : list nat) (r : fields) : fields :=
  MkFields (f_isMinion r) (f_claimLease r) (f_renewLease r) l (f_waitingMinion r).
Definition put_minion (l : list nat) (r : fields) : fields :=
  MkFields (f_isMinion r) (f_claimLease r) (f_renewLease r) (f_waitingLeader r) l.

#[export] Instance queue_leader : Queue set_waitingLeader put_leader.
Proof. by split. Qed.
#[export] Instance queue_minion : Queue set_waitingMinion put_minion.
Proof. split; try done. intros. unfold waiting. simpl. solve_Permutation. Qed.

(** Taking a ticket off a list. *)
Lemma pop_spec set put `{!Queue set put} id q r f p n l E :
  triple (tracker_at (put (id :: q) r) f p n l) (over LT (set q))
    (λ _, tracker_at (put q r) (id :: f) p n l) E.
Proof.
  apply tracker_at_over. intros t Ht Hok.
  assert (fields_of (set q t) = put q r) as E'.
  { by rewrite qu_fields, Ht, qu_put. }
  split; [done|]. eapply tickets_ok_perm; [apply qu_tickets| |done|done].
  rewrite E', Ht, (qu_waiting id). solve_Permutation.
Qed.

Lemma notify_spec set put `{!Queue set put} q r f p n l :
  triple (tracker_at (put q r) f p n l) (notify LT api set q p)
    (λ _, tracker_at (put [] r) f [] n l)
    (λ e w, not_panic e ∧ ∃ q', tracker_at (put q' r) f [] n l w).
Proof.
  revert p. induction q as [|id q IH]; intros p; simpl.
  { apply triple_no_fail, close_all_spec. }
  eapply (triple_bind _ _ (λ _, tracker_at (put q r) (id :: f) p n l));
    [by apply pop_spec|]. intros _.
  eapply (triple_bind _ _ (λ x w, match x with
    | Ok _ => tracker_at (put q r) f (id :: p) n l w
    | Err e => not_panic e ∧ tracker_at (put q r) (id :: f) p n l w
    end)).
  { apply triple_try; [|by intros s w [H _]; destruct (H s)].
    apply sendTrue_spec. }
  intros [[]|e]; [apply IH|]. apply triple_pure. intros He.
  eapply (triple_bind _ _ (λ _, tracker_at (put q r) f [] n l));
    [|by intros; apply triple_throw; eauto].
  eapply (triple_bind _ _ (λ _, tracker_at (put q r) f p n l)).
  - apply triple_no_fail, close_ticket_spec; [done|set_solver..].
  - intros _. apply triple_no_fail, close_all_spec.
Qed.

(** ** Claiming leadership *)

(** Between two turns of the loop: a leader has a renewal coming, by which the
    lease is still good for the duration, and no one waits for it to become
    leader; no one waits for a minion to become one. *)
Record settled (f p : list nat) (w : W) : Prop := {
  se_tickets : tickets_ok D f p (view LT w);
  se_leader : lt_isMinion (view LT w) = false →
    lt_waitingLeader (view LT w) = [] ∧ lt_claimLease (view LT w) = false ∧
    ∃ due, lt_renewLease (view LT w) = Some due ∧ (due + duration - slack ≤ lease w)%Z;
  se_minion : lt_isMinion (view LT w) = true →
    lt_waitingMinion (view LT w) = [] ∧ lt_renewLease (view LT w) = None;
  se_sound : sound w;
}.

(** After an error that ends the loop. *)
Definition broken (f : list nat) (e : error) (w : W) : Prop :=
  not_panic e ∧ tickets_ok D f [] (view LT w).

Lemma setLeader_spec untilTime r f n :
  triple (tracker_at r f [] n untilTime) (setLeader LT api duration untilTime)
    (λ _ w, settled f [] w ∧ (n ≤ now w)%Z ∧ (untilTime ≤ lease w)%Z ∧
      lt_isMinion (view LT w) = false)
    (broken f).
Proof.
  unfold setLeader.
  set (r1 := MkFields false false (f_renewLease r) (f_waitingLeader r) (f_waitingMinion r)).
  eapply (triple_bind _ _ (λ _, tracker_at r1 f [] n untilTime)).
  { apply tracker_at_over. intros t <- Hok. split; [done|]. by apply (tickets_ok_same D _ _ t). }
  intros _ w x w' Hw. unfold mbind at 1, M_bind at 1, always at 1.
  destruct (la_Now api w) as [m w1] eqn:E1. apply lw_Now in E1 as [-> F1].
  unfold mbind at 1, M_bind at 1, always at 1.
  destruct (la_After api (untilTime - duration - now w1) w1) as [due w2] eqn:E2.
  apply lw_After in E2 as [Hdue F2].
  assert (due + duration - slack ≤ untilTime)%Z as Hd by lia.
  assert (tracker_at r1 f [] n untilTime w2) as Hw2.
  { eapply tracker_at_flows, tracker_at_flows; eauto. }
  clear w w1 F1 F2 Hdue Hw. revert w2 x w' Hw2.
  set (r2 := MkFields false false (Some due) (f_waitingLeader r) (f_waitingMinion r)).
  eapply (triple_bind _ _ (λ _, tracker_at r2 f [] n untilTime)).
  { apply tracker_at_over. intros t [= E1 E2 E3 E4 E5] Hok.
    split; [|by apply (tickets_ok_same D _ _ t)].
    unfold fields_of. simpl. by rewrite E1, E2, E4, E5. }
  intros _. eapply (triple_read _ _ _ (f_waitingLeader r)).
  { by intros w [[= ? ? ? ? ?] _ _ _ _]. }
  eapply triple_conseq; [apply (notify_spec _ put_leader (f_waitingLeader r) r2 f [])|done|..].
  - intros [] w [Hr Hok Hn Hl Hso]. injection Hr as E1 E2 E3 E4 E5.
    split_and!; [|done..]. split; [done| |by rewrite E1|done].
    intros _. rewrite E2, E3, E4. split_and!; [done..|]. exists due. split; [done|lia].
  - intros e w (? & q & [_ ? _ _ _]). by split.
Qed.

Lemma setMinion_spec r f n l :
  triple (tracker_at r f [] n l) (setMinion LT api)
    (λ _ w, settled f [] w ∧ (n ≤ now w)%Z ∧
      lt_isMinion (view LT w) = true ∧ lt_claimLease (view LT w) = true)
    (broken f).
Proof.
  unfold setMinion.
  set (r1 := MkFields true true None (f_waitingLeader r) (f_waitingMinion r)).
  eapply (triple_bind _ _ (λ _, tracker_at r1 f [] n l)).
  { apply tracker_at_over. intros t <- Hok. split; [done|]. by apply (tickets_ok_same D _ _ t). }
  intros _. eapply (triple_read _ _ _ (f_waitingMinion r)).
  { by intros w [[= ? ? ? ? ?] _ _ _ _]. }
  eapply triple_conseq; [apply (notify_spec _ put_minion (f_waitingMinion r) r1 f [])|done|..].
  - intros [] w [Hr Hok Hn Hl Hso]. injection Hr as E1 E2 E3 E4 E5.
    split_and!; [|done..]. split; [done|by rewrite E1| |done]. by rewrite E3, E5.
  - intros e w (? & q & [_ ? _ _ _]). by split.
Qed.

(** A refresh makes the tracker leader, with a lease counted from when the claim
    was made, or minion. *)
Lemma refresh_spec f n :
  triple (λ w, tickets_ok D f [] (view LT w) ∧ (n ≤ now w)%Z ∧ sound w) (refresh LT api duration)
    (λ _ w, settled f [] w ∧ (n ≤ now w)%Z ∧
      lt_claimLease (view LT w) = lt_isMinion (view LT w) ∧
      (lt_isMinion (view LT w) = false → (n + 2 * duration ≤ lease w)%Z))
    (broken f).
Proof.
  intros w x w' (Hok & Hn & Hso). unfold refresh, mbind at 1, M_bind at 1, always.
  destruct (la_Now api w) as [m w1] eqn:E1. apply lw_Now in E1 as (-> & Ev1 & Hn1 & _ & Hso1).
  unfold mbind at 1, M_bind at 1, try.
  destruct (la_ClaimLeadership api (2 * duration) w1) as [c w2] eqn:E2.
  apply lw_Claim in E2 as (Ev2 & Hn2 & Hso2 & Hnp & Hlease); [|by apply Hso1].
  assert (∀ l, (l ≤ lease w2)%Z → tracker_at (fields_of (view LT w2)) f [] n l w2) as Hw2.
  { intros l Hl. split; [done|by rewrite Ev2, Ev1|lia|done|done]. }
  destruct c as [[]|e].
  - intros H. specialize (Hlease eq_refl).
    pose proof (setLeader_spec _ _ _ _ _ _ _ (Hw2 _ Hlease) H) as Hs.
    destruct x; [|done]. destruct Hs as (Hs & ? & ? & Hm). split_and!; [done..| |lia].
    destruct (se_leader _ _ _ Hs Hm) as (_ & -> & _). by rewrite Hm.
  - assert (not_panic e) as He by (intros s ->; by destruct (Hnp s)).
    destruct (decide (e = ErrClaimDenied)) as [->|Hne].
    + simpl. intros H.
      pose proof (setMinion_spec _ _ _ _ _ _ _ (Hw2 _ (Z.le_refl _)) H) as Hs.
      destruct x; [|done]. destruct Hs as (Hs & ? & Hm & Hc). rewrite Hm, Hc.
      by split_and!.
    + intros H. assert (x = Err e ∧ w' = w2) as [-> ->].
      { destruct e; try (by destruct (Hnp what));
          rewrite decide_False in H by done; by apply throw_inv in H. }
      split; [done|]. by rewrite Ev2, Ev1.
Qed.

(** ** Resolving tickets *)

Definition steady (w : W) : Prop := lt_claimLease (view LT w) = lt_isMinion (view LT w).

(** A settled tracker with bounds for the time and the lease; [c] tells whether it
    is known to be steady. *)
Definition good (c : Prop) (f p : list nat) (n l : Z) (w : W) : Prop :=
  settled f p w ∧ (n ≤ now w)%Z ∧ (l ≤ lease w)%Z ∧ (c → steady w).

(** Answering tickets leaves the tracker settled. *)
Lemma good_answers {A} (m : M W A) (Bad : error → Prop) c f p f' p' n l :
  (∀ r n l, triple (tracker_at r f p n l) m (λ _, tracker_at r f' p' n l)
    (λ e w, Bad e ∧ tracker_at r f p n l w)) →
  triple (good c f p n l) m (λ _, good c f' p' n l) (λ e w, Bad e ∧ good c f p n l w).
Proof.
  intros Hm w x w' (Hs & Hn & Hl & Hc) H.
  assert (∀ f p, tracker_at (fields_of (view LT w)) f p (now w) (lease w) w' →
    good c f p n l w') as Hback.
  { intros f0 p0 [E Hok Hn' Hl' Hso]. injection E as E1 E2 E3 E4 E5. unfold good, steady.
    rewrite E1, E2. split_and!; [|lia..|done]. destruct Hs as [_ H1 H2 _].
    split; [done| |by rewrite E1, E3, E5|done]. rewrite E1, E2, E3, E4.
    intros Hm0. destruct (H1 Hm0) as (? & ? & due & ? & ?).
    split_and!; [done..|]. exists due. split; [done|lia]. }
  assert (tracker_at (fields_of (view LT w)) f p (now w) (lease w) w) as Hw.
  { split; [done|apply Hs|lia|lia|apply Hs]. }
  specialize (Hm _ _ _ _ _ _ Hw H). destruct x; [by apply Hback|].
  destruct Hm. auto.
Qed.

(** The last word on a ticket: it is closed, and what it says. *)
Definition answered (id : nat) (leader : bool) (w : W) : Prop :=
  ∃ tk, lt_tickets (view LT w) !! id = Some tk ∧ tk_closed tk = true ∧
    ticket_success tk = leader.

Lemma close_answers id f p n :
  f ++ p = [id] →
  triple (λ w, tickets_ok D f p (view LT w) ∧ (n ≤ lease w)%Z) (close_ticket LT id)
    (λ _ w, tickets_ok D [] [] (view LT w) ∧ answered id (bool_decide (p ≠ [])) w ∧
      (n ≤ lease w)%Z)
    (λ _ _, False).
Proof.
  intros Hp w x w' [Hok Hl]. unfold close_ticket. rewrite (bind_ok _ _ _ (view LT w) w) by done.
  destruct (tickets_ok_close D id f p [] [] _ Hok) as (tk & Htk & Hc & Hok');
    [by rewrite Hp|set_solver..|].
  rewrite Htk, Hc. intros [= <- <-]. rewrite view_update.
  destruct (lw_apart (set_ticket id (MkTicket (tk_sent tk) true) (view LT w)) w) as [_ ->].
  split_and!; [done| |done]. eexists. rewrite view_update. simpl. rewrite lookup_insert_eq.
  split_and!; [done..|]. unfold ticket_success. simpl. apply bool_decide_ext.
  destruct p as [|id' p].
  - rewrite app_nil_r in Hp. subst f.
    rewrite (to_unsent _ _ _ _ Hok id tk Htk) by set_solver. split; [lia|done].
  - assert (id ∈ id' :: p) as Hin.
    { destruct f as [|? [|]]; simplify_list_eq. set_solver. }
    rewrite (to_popped _ _ _ _ Hok id tk Htk Hin). split; [done|lia].
Qed.

Section duration.
Context (Hd : (0 < duration)%Z) (Hslack : (0 ≤ slack)%Z).

(** What [isLeader] found out at time [n] or later. *)
Definition found_out (c : Prop) (f p : list nat) (n : Z) (minion : bool) (w : W) : Prop :=
  settled f p w ∧ (n ≤ now w)%Z ∧ (c → steady w) ∧ lt_isMinion (view LT w) = minion ∧
  (minion = false → (n + duration - slack + 1 ≤ lease w)%Z).

Lemma isLeader_spec c f n :
  triple (λ w, settled f [] w ∧ (n ≤ now w)%Z ∧ (c → steady w))
    (tracker_isLeader LT api duration) (λ b, found_out c f [] n (negb b)) (broken f).
Proof.
  intros w x w' (Hs & Hn & Hc) H. unfold tracker_isLeader in H.
  rewrite (bind_ok _ _ _ (view LT w) w) in H by done.
  refine (triple_bind (λ w0, w0 = w) (broken f)
    (λ _ w, found_out c f [] n (lt_isMinion (view LT w)) w) _ _ (λ b, found_out c f [] n (negb b))
    _ _ w x w' eq_refl H); clear x w' H.
  2: { intros _. apply triple_gets. intros w1 H1. by rewrite negb_involutive. }
  destruct (lt_isMinion (view LT w)) eqn:Hm.
  { apply triple_ret. intros ? ->. unfold found_out. rewrite Hm. by split_and!. }
  destruct (se_leader _ _ _ Hs Hm) as (_ & _ & due & Hdue & Hlease). rewrite Hdue.
  intros w0 x w' -> H. unfold mbind, M_bind, always in H.
  destruct (la_Renew api (Some due) w) as [k w1] eqn:Ek.
  apply lw_Renew in Ek as [(Ev & Hn1 & Hl1 & Hso1) Hk]. destruct k.
  - apply throw_inv in H as [-> ->]. split; [by intros ? [=]|]. rewrite Ev. apply Hs.
  - unfold over, modify in H.
    eapply (refresh_spec f n) in H.
    + destruct x; [|done]. destruct H as (? & ? & Hst & Hb). split_and!; try done.
      intros Hm'. specialize (Hb Hm'). lia.
    + destruct (lw_apart (set_renewLease None (view LT w1)) w1) as [-> _].
      rewrite view_update, Ev. split_and!; [apply tickets_ok_renew, Hs|lia|].
      apply lw_sound, Hso1, Hs.
  - apply mret_inv in H as [-> ->]. specialize (Hk eq_refl due eq_refl).
    destruct Hs as [H1 H2 H3 H4]. unfold found_out, steady. rewrite Ev.
    split_and!; [|lia|done|done|lia].
    split; rewrite ?Ev; [done| |done|auto]. rewrite Hm. intros _.
    split_and!; [by apply H2..|]. exists due. split; [done|lia].
Qed.

Lemma found_out_answers {A} (m : M W A) (Bad : error → Prop) c f p f' p' n b :
  (∀ r n l, triple (tracker_at r f p n l) m (λ _, tracker_at r f' p' n l)
    (λ e w, Bad e ∧ tracker_at r f p n l w)) →
  triple (found_out c f p n b) m (λ _, found_out c f' p' n b)
    (λ e w, Bad e ∧ found_out c f p n b w).
Proof.
  intros Hm w x w' (Hs & Hn & Hc & Hb & Hl) H.
  assert (∀ f p, tracker_at (fields_of (view LT w)) f p (now w) (lease w) w' →
    settled f p w' → found_out c f p n b w') as Hback.
  { intros f0 p0 [E _ Hn' Hl' _] ?. injection E as E1 E2 _ _ _. unfold found_out, steady.
    rewrite E1, E2. split_and!; [done|lia|done|done|]. intros Hb0. specialize (Hl Hb0). lia. }
  pose proof (good_answers m Bad c f p f' p' (now w) (lease w) Hm w x w') as Hg.
  assert (tracker_at (fields_of (view LT w)) f p (now w) (lease w) w) as Hw.
  { split; [done|apply Hs|lia|lia|apply Hs]. }
  specialize (Hm _ _ _ _ _ _ Hw H).
  assert (good c f p (now w) (lease w) w) as Hgood by (split_and!; [done|lia..|done]).
  specialize (Hg Hgood H). destruct x; [apply Hback; [done|by destruct Hg]|].
  destruct Hm, Hg as [_ [? _]]. auto.
Qed.

Lemma close_found c id f p n m :
  f ++ p = [id] → bool_decide (p ≠ []) = negb m →
  triple (found_out c f p n m) (close_ticket LT id)
    (λ _ w, found_out c [] [] n m w ∧ answered id (negb m) w) (λ _ _, False).
Proof.
  intros Hp Hm w x w' Hw H.
  assert (match x with Ok _ => found_out c [] [] n m w' | Err e => False ∧ found_out c f p n m w' end)
    as Hf.
  { eapply (found_out_answers (close_ticket LT id) (λ _, False) c f p [] []); [|done..].
    intros. apply triple_no_fail, close_ticket_spec; [by rewrite Hp|set_solver..]. }
  destruct x; [|tauto]. split; [done|].
  eapply (close_answers id f p (lease w) Hp) in H; [|split; [apply Hw|lia]].
  rewrite Hm in H. by destruct H as (_ & ? & _).
Qed.

Lemma close_broken id e :
  triple (broken [id] e) (close_ticket LT id)
    (λ _ w, broken [] e w ∧ answered id false w) (λ _ _, False).
Proof.
  intros w x w' [He Hok] H. eapply (close_answers id [id] [] (lease w)) in H; [|done|split; [done|lia]].
  destruct x; [|done]. by destruct H as (? & ? & _).
Qed.

(** The state a ticket is resolved in, and what becomes of it. *)
Definition receives (c : Prop) (id : nat) (n : Z) (w : W) : Prop :=
  settled [id] [] w ∧ (n ≤ now w)%Z ∧ (c → steady w).

Lemma send_close_spec c id n :
  triple (found_out c [id] [] n false) (finally (sendTrue LT api id) (close_ticket LT id))
    (λ _ w, found_out c [] [] n false w ∧ answered id true w)
    (λ e w, broken [] e w ∧ answered id false w).
Proof.
  eapply (triple_bind _ _ (λ r w, match r with
    | Ok _ => found_out c [] [id] n false w
    | Err e => broken [id] e w end)).
  - apply triple_try; [|by intros s w [H _]; destruct (H s)].
    eapply triple_conseq;
      [apply (found_out_answers _ not_panic c [id] [] [] [id]); intros; apply sendTrue_spec|done..|].
    intros e w [? [Hs _]]. split; [done|apply Hs].
  - intros [[]|e].
    + eapply (triple_bind _ _ (λ _ w, found_out c [] [] n false w ∧ answered id true w)).
      * apply triple_no_fail. by apply (close_found c id [] [id] n false).
      * intros _. by apply triple_lift.
    + eapply (triple_bind _ _ (λ _ w, broken [] e w ∧ answered id false w)).
      * apply triple_no_fail, close_broken.
      * intros _. by apply triple_lift.
Qed.

Lemma resolveClaim_spec c id n :
  triple (receives c id n) (resolveClaim LT api duration id)
    (λ _ w, ∃ m, found_out c [] [] n m w ∧ answered id (negb m) w)
    (λ e w, broken [] e w ∧ answered id false w).
Proof.
  eapply (triple_bind _ _ (λ r w, match r with
    | Ok _ => ∃ f p m, f ++ p = [id] ∧ bool_decide (p ≠ []) = negb m ∧ found_out c f p n m w
    | Err e => broken [id] e w end)).
  - apply triple_try; [|by intros s w [H _]; destruct (H s)].
    eapply triple_bind; [apply isLeader_spec|]. intros [].
    + eapply triple_conseq;
        [apply (found_out_answers _ not_panic c [id] [] [] [id]); intros; apply sendTrue_spec|done|..].
      * intros [] w Hw. by exists [], [id], false.
      * intros e w [? [Hs _]]. split; [done|apply Hs].
    + apply triple_ret. intros w Hw. by exists [id], [], true.
  - intros [[]|e].
    + eapply (triple_bind _ _ (λ _ w, ∃ m, found_out c [] [] n m w ∧ answered id (negb m) w));
        [|intros _; by apply triple_lift].
      apply triple_no_fail. intros w x w' (f & p & m & Hp & Hm & Hw) H.
      pose proof (close_found c id f p n m Hp Hm w x w' Hw H). destruct x; eauto.
    + eapply (triple_bind _ _ (λ _ w, broken [] e w ∧ answered id false w)).
      * apply triple_no_fail, close_broken.
      * intros _. by apply triple_lift.
Qed.

(** Putting a ticket on a list of those that wait. *)
Lemma wait_spec c id n (m : bool) set put (get : Leadership → list nat) `{!Queue set put} :
  (∀ t, put (get t) (fields_of t) = fields_of t) →
  (∀ l r, put l r = MkFields (f_isMinion r) (f_claimLease r) (f_renewLease r)
     (if m then f_waitingLeader (put l r) else f_waitingLeader r)
     (if m then f_waitingMinion r else f_waitingMinion (put l r))) →
  triple (found_out c [id] [] n m) (over LT (λ t, set (get t ++ [id]) t))
    (λ _, found_out c [] [] n m) (λ _ _, False).
Proof.
  intros Hget Hput w x w' (Hs & Hn & Hc & Hm & Hl) [= <- <-].
  set (t := view LT w) in *. pose proof (qu_fields (get t ++ [id]) t) as E.
  rewrite Hput in E. injection E as E1 E2 E3 E4 E5.
  destruct (lw_apart (set (get t ++ [id]) t) w) as [En El].
  unfold found_out, steady. rewrite view_update, En, El, E1, E2.
  split_and!; try done. split; rewrite ?view_update.
  - eapply (tickets_ok_perm D [id] []); [apply qu_tickets| |done|apply Hs].
    rewrite qu_fields, app_nil_r. rewrite <- (Hget t) at 2.
    generalize (get t) as l. clear -Queue0. intros l. induction l as [|x l IH]; simpl.
    + by rewrite (qu_waiting id), (comm (++)).
    + rewrite !qu_waiting, IH. done.
  - rewrite E1, E2, E3, El. destruct m; [by rewrite Hm|]. intros _. rewrite E4. by apply Hs.
  - rewrite E1, E3. destruct m; [|by rewrite Hm]. intros _. rewrite E5. by apply Hs.
  - apply lw_sound, Hs.
Qed.

Lemma isLeader_try c id n :
  triple (receives c id n) (try (tracker_isLeader LT api duration))
    (λ r w, match r with
            | Ok b => found_out c [id] [] n (negb b) w
            | Err e => broken [id] e w end)
    (λ e w, broken [] e w).
Proof.
  apply triple_try; [|by intros s w [H _]; destruct (H s)]. apply isLeader_spec.
Qed.

Lemma close_throw_spec id e :
  triple (broken [id] e) (_ ← close_ticket LT id; throw e : M W ())
    (λ _ _, False) (broken []).
Proof.
  eapply (triple_bind _ _ (λ _ w, broken [] e w ∧ answered id false w));
    [apply triple_no_fail, close_broken|].
  intros _. apply triple_throw. by intros w [? _].
Qed.

Lemma resolveWaitLeader_spec c id n :
  triple (receives c id n) (resolveWaitLeader LT api duration id)
    (λ _ w, ∃ m, found_out c [] [] n m w) (broken []).
Proof.
  eapply triple_bind; [apply isLeader_try|]. intros [[]|e].
  - eapply triple_conseq; [apply send_close_spec|done|..].
    + intros [] w [? _]. by exists false.
    + by intros e w [? _].
  - eapply triple_conseq; [by apply (wait_spec c id n true set_waitingLeader put_leader lt_waitingLeader)|done|..].
    + intros [] w ?. by exists true.
    + done.
  - eapply triple_conseq; [apply close_throw_spec|done..].
Qed.

Lemma resolveWaitMinion_spec c id n :
  triple (receives c id n) (resolveWaitMinion LT api duration id)
    (λ _ w, ∃ m, found_out c [] [] n m w) (broken []).
Proof.
  eapply triple_bind; [apply isLeader_try|]. intros [[]|e].
  - eapply triple_conseq; [by apply (wait_spec c id n false set_waitingMinion put_minion lt_waitingMinion)|done|..].
    + intros [] w ?. by exists false.
    + done.
  - eapply triple_conseq; [by apply (close_found c id [id] [] n true)|done|..].
    + intros [] w [? _]. by exists true.
    + done.
  - eapply triple_conseq; [apply close_throw_spec|done..].
Qed.

End duration.
End tickets.

(** ** The loop *)

(** The tickets an event brings, and whether it ends the wait for the lease
    without a claim. *)
Definition submitted (e : leadership_event) : gset nat :=
  match e with
  | LvClaim id | LvWaitLeader id | LvWaitMinion id => {[id]}
  | _ => ∅
  end.
Definition cancels (e : leadership_event) : bool :=
  match e with
  | LvClaimLease None => true
  | LvClaimLease (Some (Some err)) => bool_decide (err = ErrBlockCancelled)
  | _ => false
  end.

(** Tickets are new, and errors are errors. *)
Definition can_come (D : gset nat) (e : leadership_event) : Prop :=
  submitted e ## D ∧
  match e with LvClaimLease (Some (Some err)) => not_panic err | _ => True end.

(** The worlds a tracker can be in between two turns of its loop; [b] as long as
    no wait for the lease was cancelled, [D] the tickets it has received. *)
Inductive tracking : bool → gset nat → W → Prop :=
| tracking_start w w' :
    view LT w = NewTracker → sound w → refresh LT api duration w = (Ok (), w') → tracking true ∅ w'
| tracking_pass b D w w' :
    tracking b D w → flows w w' → tracking b D w'
| tracking_step b D e w w' :
    tracking b D w → can_come D e → tracker_handle LT api duration e w = (Ok (), w') →
    tracking (b && negb (cancels e)) (submitted e ∪ D) w'.

Section loop.
Context (Hd : (0 < duration)%Z) (Hslack : (0 ≤ slack)%Z).

(** A new ticket. *)
Lemma new_ticket_spec D id (c : Prop) n E :
  id ∉ D →
  triple (λ w, settled D [] [] w ∧ (n ≤ now w)%Z ∧ (c → steady w)) (new_ticket LT id)
    (λ _, receives ({[id]} ∪ D) c id n) E.
Proof.
  intros Hid. apply triple_modify. intros w (Hs & Hn & Hc).
  destruct (lw_apart (set_ticket id (MkTicket 0 false) (view LT w)) w) as [En El].
  unfold receives, steady. rewrite view_update, En. split_and!; [|done|done].
  destruct Hs as [[H1 H2 H3 H4 H5 H6 H7] Hle Hmi Hso].
  rewrite app_nil_r in *. assert (lt_tickets (view LT w) !! id = None) as Hnew.
  { apply not_elem_of_dom. by rewrite H7. }
  assert (id ∉ waiting (fields_of (view LT w))) as Hnw.
  { intros Hin. apply H2 in Hin as [? ?]. congruence. }
  split; rewrite ?view_update; simpl; rewrite ?El; [|done|done|by apply lw_sound].
  split; simpl; change (waiting (fields_of (set_ticket id (MkTicket 0 false) (view LT w))))
    with (waiting (fields_of (view LT w))).
  - apply NoDup_app. split_and!; [done|set_solver|apply NoDup_singleton].
  - intros id' [Hin|Hin%list_elem_of_singleton]%elem_of_app.
    + rewrite lookup_insert_ne by set_solver. by apply H2.
    + subst. rewrite lookup_insert_eq. eauto.
  - intros id' tk [[-> <-]|[? Htk]]%lookup_insert_Some; simpl; [set_solver|].
    rewrite (H3 _ _ Htk). set_solver.
  - intros id' tk [[-> <-]|[? Htk]]%lookup_insert_Some; simpl; [done|].
    intros [?|?%list_elem_of_singleton]%elem_of_app; [by eapply H4|congruence].
  - intros id' tk _ Hin. by apply not_elem_of_nil in Hin.
  - intros id' tk [[-> <-]|[? Htk]]%lookup_insert_Some; simpl; [lia|by eapply H6].
  - rewrite dom_insert_L. by rewrite H7.
Qed.

(** Trying for the lease again. *)
Lemma again_spec D (c : Prop) n (g : Leadership → Leadership) :
  (∀ t, tickets_ok D [] [] t → tickets_ok D [] [] (g t)) →
  triple (λ w, settled D [] [] w ∧ (n ≤ now w)%Z ∧ (c → steady w))
    (_ ← over LT g; refresh LT api duration)
    (λ _ w, settled D [] [] w ∧ steady w) (broken D []).
Proof.
  intros Hg. eapply (triple_bind _ _ (λ _ w, tickets_ok D [] [] (view LT w) ∧ (n ≤ now w)%Z ∧ sound w)).
  - apply triple_modify. intros w (Hs & Hn & _). rewrite view_update.
    destruct (lw_apart (g (view LT w)) w) as [-> _]. split_and!; [apply Hg, Hs|done|apply lw_sound, Hs].
  - intros _. eapply triple_conseq;
      [apply (refresh_spec D [] n)|done|by intros ? ? (? & _ & ? & _)|done].
Qed.

(** The wait for the lease is over. *)
Lemma settled_claimed D f w :
  settled D f [] w → settled D f [] (update LT (set_claimLease false (view LT w)) w).
Proof.
  intros [Hok Hle Hmi Hso]. destruct (lw_apart (set_claimLease false (view LT w)) w) as [_ El].
  split; rewrite ?view_update, ?El; simpl; [by apply tickets_ok_claim| |done|by apply lw_sound].
  intros Hm. destruct (Hle Hm) as (? & _ & ?). done.
Qed.

Lemma claimLease_spec D r (c : Prop) n :
  can_come D (LvClaimLease r) →
  triple (λ w, settled D [] [] w ∧ (n ≤ now w)%Z ∧ (c → steady w))
    (tracker_handle LT api duration (LvClaimLease r))
    (λ _ w, settled D [] [] w ∧ (c → cancels (LvClaimLease r) = false → steady w))
    (broken D []).
Proof.
  intros [_ He] w x w' Hw H. unfold tracker_handle in H.
  rewrite (bind_ok _ _ _ (view LT w) w) in H by done.
  destruct (lt_claimLease (view LT w)) eqn:Hcl.
  2: { apply mret_inv in H as [-> ->]. destruct Hw as (? & _ & ?). eauto. }
  destruct Hw as (Hs & Hn & Hc). pose proof (settled_claimed _ _ _ Hs) as Hs'.
  destruct r as [[err|]|].
  - rewrite (bind_ok _ _ _ () (update LT (set_claimLease false (view LT w)) w)) in H by done.
    simpl. case_decide as Hb.
    + apply mret_inv in H as [-> ->]. rewrite bool_decide_eq_true_2 by done. done.
    + apply throw_inv in H as [-> ->]. split; [done|apply Hs'].
  - pose proof (again_spec D c n (set_claimLease false) (tickets_ok_claim D [] [] false) w x w')
      as Ha. specialize (Ha (conj Hs (conj Hn Hc)) H). destruct x; [|done].
    destruct Ha. eauto.
  - rewrite (bind_ok _ _ _ () (update LT (set_claimLease false (view LT w)) w)) in H by done.
    apply mret_inv in H as [-> ->]. done.
Qed.

(** A turn of the loop. *)
Lemma tracker_handle_spec D e (c : Prop) n :
  can_come D e →
  triple (λ w, settled D [] [] w ∧ (n ≤ now w)%Z ∧ (c → steady w))
    (tracker_handle LT api duration e)
    (λ _ w, settled (submitted e ∪ D) [] [] w ∧ (c → cancels e = false → steady w))
    (broken (submitted e ∪ D) []).
Proof.
  intros [Hnew He] w x w' Hw H. unfold tracker_handle in H.
  rewrite (bind_ok _ _ _ (view LT w) w) in H by done.
  assert (∀ id (m : M W ()), submitted e = {[id]} →
    triple (receives ({[id]} ∪ D) c id n) m
      (λ _ w, ∃ m, found_out ({[id]} ∪ D) c [] [] n m w) (broken ({[id]} ∪ D) []) →
    (_ ← new_ticket LT id; m) w = (x, w') →
    match x with
    | Ok _ => settled (submitted e ∪ D) [] [] w' ∧ (c → cancels e = false → steady w')
    | Err err => broken (submitted e ∪ D) [] err w' end) as Hticket.
  { intros id m Es Hm Hrun. rewrite Es in *. assert (id ∉ D) as Hid by set_solver.
    pose proof (triple_bind _ _ _ _ _ _ (new_ticket_spec D id c n _ Hid) (λ _, Hm) w x w' Hw Hrun)
      as Hr. clear Hrun. rename Hr into Hrun.
    destruct x; [|done]. destruct Hrun as (? & ? & _ & Hc & _). eauto. }
  destruct e as [|r| |id|id|id]; simpl in *; rewrite ?(left_id_L ∅ (∪)).
  - apply throw_inv in H as [-> ->]. split; [by intros ? [=]|apply Hw].
  - apply (claimLease_spec D r c n) in H; [done..].
  - destruct Hw as (Hs & Hn & Hc). destruct (lt_renewLease (view LT w)) eqn:Hr.
    2: { apply mret_inv in H as [-> ->]. eauto. }
    pose proof (again_spec D c n (set_renewLease None) (tickets_ok_renew D [] [] None) w x w')
      as Ha. specialize (Ha (conj Hs (conj Hn Hc)) H). destruct x; [|done].
    destruct Ha. eauto.
  - eapply Hticket; [done| |done]. eapply triple_conseq; [by apply resolveClaim_spec|done|..].
    + intros [] w0 (m & ? & _). eauto.
    + by intros e w0 [? _].
  - eapply Hticket; [done| |done]. by apply resolveWaitLeader_spec.
  - eapply Hticket; [done| |done]. by apply resolveWaitMinion_spec.
Qed.

(** ** The tracker's promises *)

Lemma tracking_settled b D w :
  tracking b D w → settled D [] [] w ∧ (b = true → steady w).
Proof.
  induction 1 as [w w' Hv Hso H|b D w w' _ [IH1 IH2] (Ev & Hn & Hl & Hso)|b D e w w' _ [IH1 IH2] Hc H].
  - assert (tickets_ok ∅ [] [] (view LT w)) as Hok.
    { rewrite Hv. split; simpl; try set_solver. apply NoDup_nil_2. }
    destruct (refresh_spec ∅ [] (now w) w (Ok ()) w' (conj Hok (conj (Z.le_refl _) Hso)) H)
      as (? & _ & ? & _). done.
  - unfold steady. rewrite Ev. split; [|done]. destruct IH1 as [? Hle ? ?].
    split; rewrite ?Ev; [done| |done|auto]. intros Hm. destruct (Hle Hm) as (? & ? & due & ? & ?).
    split_and!; [done..|]. exists due. split; [done|lia].
  - eapply (tracker_handle_spec D e (b = true) (now w) Hc w (Ok ()) w') in H; [|by split_and!; [|lia|]].
    destruct H as [? H]. split; [done|]. intros [? ?]%andb_true_iff. apply H; [done|].
    by apply negb_true_iff.
Qed.

(** Closing open tickets. *)
Definition closed_of (ids : list nat) (id : nat) (tk : ticket) : ticket :=
  if decide (id ∈ ids) then MkTicket (tk_sent tk) true else tk.

Lemma close_all_run ids w :
  NoDup ids →
  (∀ id, id ∈ ids → ∃ tk, lt_tickets (view LT w) !! id = Some tk ∧ tk_closed tk = false) →
  ∃ w', close_all LT ids w = (Ok (), w') ∧ fields_of (view LT w') = fields_of (view LT w) ∧
    ∀ id, lt_tickets (view LT w') !! id = closed_of ids id <$> lt_tickets (view LT w) !! id.
Proof.
  revert w. induction ids as [|i ids IH]; intros w Hnd Hopen.
  { exists w. split_and!; [done..|]. intros id. by destruct (_ !! id). }
  apply NoDup_cons in Hnd as [Hi Hnd]. destruct (Hopen i) as (tk & Htk & Hc); [set_solver|].
  set (w1 := update LT (set_ticket i (MkTicket (tk_sent tk) true) (view LT w)) w).
  assert (close_ticket LT i w = (Ok (), w1)) as E1.
  { unfold close_ticket. rewrite (bind_ok _ _ _ (view LT w) w) by done. by rewrite Htk, Hc. }
  assert (view LT w1 = set_ticket i (MkTicket (tk_sent tk) true) (view LT w)) as Ev
    by apply view_update.
  destruct (IH w1) as (w' & E2 & Ef & Et); [done|..].
  { intros id Hid. rewrite Ev. simpl. rewrite lookup_insert_ne by set_solver.
    apply Hopen. set_solver. }
  exists w'. split; [unfold close_all; simpl; by rewrite (bind_ok _ _ _ () w1)|].
  rewrite Ev in Ef, Et. split; [done|]. intros id. rewrite Et. unfold closed_of. simpl.
  destruct (decide (id = i)) as [->|Hne].
  - rewrite lookup_insert_eq, Htk. simpl. rewrite decide_False by done.
    by rewrite decide_True by set_solver.
  - rewrite lookup_insert_ne by done.
    assert (id ∈ i :: ids ↔ id ∈ ids) as Hiff by set_solver.
    destruct (_ !! id); [|done]. simpl. f_equal. by apply decide_ext.
Qed.

Lemma tracker_exit_run D w :
  tickets_ok D [] [] (view LT w) →
  ∃ w', tracker_exit LT w = (Ok (), w') ∧
    ∀ id, id ∈ D → ∃ tk, lt_tickets (view LT w') !! id = Some tk ∧
      tk_closed tk = true ∧ tk_sent tk ≤ 1.
Proof.
  intros [H1 H2 H3 H4 H5 H6 H7]. rewrite !app_nil_r in *. set (t := view LT w).
  assert (∀ id, id ∈ waiting (fields_of t) →
    ∃ tk, lt_tickets t !! id = Some tk ∧ tk_closed tk = false) as Hopen.
  { intros id Hid. destruct (H2 id Hid) as [tk Htk]. exists tk. split; [done|].
    by apply (H3 id tk Htk). }
  apply NoDup_app in H1 as (Hl & Hlm & Hm).
  destruct (close_all_run (lt_waitingLeader t) w Hl) as (w1 & E1 & _ & Et1).
  { intros id Hid. apply Hopen, elem_of_app. by left. }
  destruct (close_all_run (lt_waitingMinion t) w1 Hm) as (w2 & E2 & _ & Et2).
  { intros id Hid. destruct (Hopen id) as (tk & Htk & Hc); [apply elem_of_app; by right|].
    exists tk. rewrite Et1. unfold t in Htk. rewrite Htk. simpl. unfold closed_of.
    rewrite decide_False; [done|]. intros ?. by eapply Hlm. }
  exists w2. split.
  { unfold tracker_exit. rewrite (bind_ok _ _ _ t w) by done. by rewrite (bind_ok _ _ _ () w1). }
  intros id Hid. rewrite <- H7 in Hid. apply elem_of_dom in Hid as [tk Htk].
  rewrite Et2, Et1, Htk. simpl. eexists. split; [done|]. pose proof (H6 _ _ Htk).
  pose proof (H3 _ _ Htk) as Hc. unfold waiting in Hc. simpl in Hc. rewrite elem_of_app in Hc.
  unfold closed_of, t. repeat case_decide; simpl; (split; [|done]); try done.
  apply not_false_is_true. tauto.
Qed.

Lemma claim_ticket_spec b D id w x w' :
  tracking b D w → id ∉ D → tracker_handle LT api duration (LvClaim id) w = (x, w') →
  ∃ leader, answered id leader w' ∧
    (leader = true → (now w + duration - slack < lease w')%Z ∧ sound w') ∧
    (x = Ok () → leader = negb (lt_isMinion (view LT w'))).
Proof.
  intros Ht Hid H. apply tracking_settled in Ht as [Hs Hst].
  unfold tracker_handle in H. rewrite (bind_ok _ _ _ (view LT w) w) in H by done.
  pose proof (triple_bind _ _ _ _ _ _ (new_ticket_spec D id (b = true) (now w) _ Hid)
    (λ _, resolveClaim_spec ({[id]} ∪ D) Hd Hslack (b = true) id (now w)) w x w') as Hr.
  specialize (Hr (conj Hs (conj (Z.le_refl _) Hst)) H). destruct x as [[]|e].
  - destruct Hr as (m & (Hs' & _ & _ & Hm & Hl) & Ha). exists (negb m). split; [done|].
    split; [|by rewrite Hm]. intros ?%negb_true_iff. specialize (Hl ltac:(done)).
    split; [lia|apply Hs'].
  - destruct Hr as [_ Ha]. by exists false.
Qed.

(** C31: a ticket says leader only while leadership is guaranteed.  When the loop
    receives a ticket of [ClaimLeader], the ticket is closed before the next turn,
    whatever happens.  If it says that the unit is leader, the lease is good for
    the tracker's duration, less the slack of its timers, from the time it was
    received; and unless the tracker stops it says so exactly if the tracker is
    leader. *)
Theorem leadership_claims_are_guaranteed b D id w x w' :
  tracking b D w → id ∉ D → tracker_handle LT api duration (LvClaim id) w = (x, w') →
  ∃ leader, answered id leader w' ∧
    (leader = true → (now w + duration - slack < lease w')%Z) ∧
    (x = Ok () → leader = negb (lt_isMinion (view LT w'))).
Proof.
  intros Ht Hid H. destruct (claim_ticket_spec b D id w x w' Ht Hid H) as (l & ? & Hl & ?).
  exists l. split_and!; [done| |done]. intros E. by apply Hl.
Qed.

(** C32: every ticket is answered exactly once.  No turn of the loop closes a ticket
    twice or sends on a closed one, which would panic; when the loop ends, by an
    error or because the tracker is stopped, the tickets that still wait are
    closed, so that every ticket the tracker ever received is closed, after at most
    one value was sent on it. *)
Theorem leadership_tickets_answered_once b D e w x w' :
  tracking b D w → can_come D e → tracker_handle LT api duration e w = (x, w') →
  (∀ s, x ≠ Err (GoPanic s)) ∧
  (is_ok x = false → ∃ w'', tracker_exit LT w' = (Ok (), w'') ∧
    ∀ id, id ∈ submitted e ∪ D → ∃ tk, lt_tickets (view LT w'') !! id = Some tk ∧
      tk_closed tk = true ∧ tk_sent tk ≤ 1).
Proof.
  intros Ht Hc H. apply tracking_settled in Ht as [Hs Hst].
  eapply (tracker_handle_spec D e (b = true) (now w) Hc) in H; [|by split_and!; [|lia|]].
  destruct x as [a|err]; [done|]. destruct H as [Hnp Hok]. split; [by intros s [= ->]; destruct (Hnp s)|].
  intros _. by apply tracker_exit_run.
Qed.

(** A tracker is never idle.  Between any two turns of its loop, a tracker that
    is leader has a renewal coming, by which time the lease is still good for the
    duration less the slack, and no one is left waiting for it to become leader; a
    tracker that is not waits for the lease to be released, unless that wait was
    cancelled, and no one is left waiting for it to lose leadership; every ticket
    that is not closed is on one of the two lists. *)
Theorem leadership_tracker_never_idle b D w :
  tracking b D w →
  (if lt_isMinion (view LT w) then
     lt_waitingMinion (view LT w) = [] ∧ (b = true → lt_claimLease (view LT w) = true)
   else lt_waitingLeader (view LT w) = [] ∧
     ∃ due, lt_renewLease (view LT w) = Some due ∧ (due + duration - slack ≤ lease w)%Z) ∧
  ∀ id, id ∈ D → ∃ tk, lt_tickets (view LT w) !! id = Some tk ∧
    (tk_closed tk = true ∨
     id ∈ lt_waitingLeader (view LT w) ++ lt_waitingMinion (view LT w)).
Proof.
  intros Ht. apply tracking_settled in Ht as [[Hok Hle Hmi _] Hst]. split.
  - unfold steady in Hst. destruct (lt_isMinion (view LT w)) eqn:Hm.
    + split; [by apply Hmi|done].
    + destruct Hle as (? & _ & ?); done.
  - intros id Hid. rewrite <- (to_dom _ _ _ _ Hok) in Hid. apply elem_of_dom in Hid as [tk Htk].
    exists tk. split; [done|]. pose proof (to_open _ _ _ _ Hok id tk Htk) as Ho.
    rewrite app_nil_r in Ho. destruct (tk_closed tk); [by left|right]. by apply Ho.
Qed.

End loop.
End facts.
