(* ===== verification/StableLeadership.v ===== *)
(** * A function that runs while leadership does not change

    [Tracker.WithStableLeadership] of internal/worker/leadership/tracker.go beside
    the loop of the tracker.  It asks the tracker whether the unit is leader, asks to
    be told of a change with a second ticket, and runs a function with a context that
    another goroutine cancels when that ticket is ready. *)

From S2P Require Import Prelude Leadership LeadershipFacts.

Abbreviation ErrLeadershipChanged := (ErrConst "leadership changed").

(** ** The call *)

(** The caller: sending the ticket of [ClaimLeader], waiting for it, sending the
    second ticket, in the function, returned. *)
Inductive stable_point : Type :=
| SpSend
| SpClaim
| SpSubmit (leader : bool)
| SpRun (leader : bool)
| SpDone (r : result ()).
(** The goroutine that cancels the context: not started, at its [select], ended. *)
Inductive watch_point : Type := WtNone | WtSelect | WtGone.

(** [sc_leadershipCtx] has the error and the cause of the context once it is done;
    the two booleans tell of tickets that [submit] closed itself because the tracker
    was dying. *)
Record stable_call : Type := MkStableCall {
  sc_main : stable_point;
  sc_watch : watch_point;
  sc_leadershipCtx : option (error * error);
  sc_claimClosed : bool;
  sc_waitClosed : bool;
}.

Inductive stable_event : Type :=
| SvCaller (e : error)
| SvSubmit (closed : bool)
| SvCancelled
| SvClaimed
| SvChanged
| SvWatchEnds
| SvReturn (r : result ()).

(** [Ready] of a ticket. *)
Definition ticket_ready (closed : bool) (id : nat) (t : Leadership) : bool :=
  closed || match lt_tickets t !! id with
            | Some tk => tk_closed tk || bool_decide (0 < tk_sent tk)
            | None => false
            end.

(** What is returned, from what the function returned. *)
Definition stable_result (r : result ()) (ctx : option (error * error)) : result () :=
  match r with
  | Err e =>
      if decide (e = context_Canceled) then match ctx with Some x => Err x.2 | None => Ok () end
      else Err e
  | Ok _ => match ctx with Some x => Err x.1 | None => Ok () end
  end.

Section call.

(** The channels of the two tickets. *)
Context (claim wait : nat).

(** Up to the first ticket, given the context of the caller. *)
Definition WithStableLeadership (ctx : option error) : stable_call :=
  match ctx with
  | Some e => MkStableCall (SpDone (Err e)) WtNone (Some (e, e)) false false
  | None => MkStableCall SpSend WtNone None false false
  end.

Definition stable_step (t : Leadership) (ev : stable_event) (c : stable_call) : option stable_call :=
  let (main, watch, ctx, claimClosed, waitClosed) := c in
  match ev, main with
  | SvCaller e, _ => Some (MkStableCall main watch (Some (default (e, e) ctx)) claimClosed waitClosed)
  | SvSubmit closed, SpSend => Some (MkStableCall SpClaim watch ctx closed waitClosed)
  | SvSubmit closed, SpSubmit leader =>
      Some (MkStableCall (SpRun leader) WtSelect ctx claimClosed closed)
  | SvCancelled, SpClaim =>
      x ← ctx; Some (MkStableCall (SpDone (Err x.1)) watch ctx claimClosed waitClosed)
  | SvClaimed, SpClaim =>
      guard (ticket_ready claimClosed claim t = true);;
      let leader := match lt_tickets t !! claim with Some tk => ticket_success tk | None => false end in
      Some (MkStableCall (SpSubmit leader) watch ctx claimClosed waitClosed)
  | SvChanged, _ =>
      match watch with
      | WtSelect =>
          guard (ticket_ready waitClosed wait t = true);;
          Some (MkStableCall main WtGone (Some (default (context_Canceled, ErrLeadershipChanged) ctx))
            claimClosed waitClosed)
      | _ => None
      end
  | SvWatchEnds, _ =>
      match watch, ctx with
      | WtSelect, Some _ => Some (MkStableCall main WtGone ctx claimClosed waitClosed)
      | _, _ => None
      end
  | SvReturn r, SpRun _ =>
      Some (MkStableCall (SpDone (stable_result r ctx)) watch
        (Some (default (context_Canceled, context_Canceled) ctx)) claimClosed waitClosed)
  | _, _ => None
  end.

(** The ticket that the caller sends. *)
Definition submission (c : stable_call) : option leadership_event :=
  match sc_main c with
  | SpSend => Some (LvClaim claim)
  | SpSubmit true => Some (LvWaitMinion wait)
  | SpSubmit false => Some (LvWaitLeader wait)
  | _ => None
  end.
End call.

(** ** Who waits for what *)

Create HintDb stays.

Section stable.
Context {W : Type} (LT : lens W Leadership) (api : LeadershipAPI W) (duration : Z).
Context (now lease : W → Z) (slack : Z) (sound : W → Prop).
Context {LW : LeadershipWorld LT api duration now lease slack sound}.

Abbreviation flows := (LeadershipFacts.flows LT now lease sound).
Abbreviation tracking := (LeadershipFacts.tracking LT api duration now lease sound).
Abbreviation handle := (tracker_handle LT api duration).

Section away.
Context (side : bool) (id : nat).

(** Those who wait for the unit to become leader, or to lose leadership. *)
Definition queue (t : Leadership) : list nat :=
  if side then lt_waitingLeader t else lt_waitingMinion t.
Definition away (w : W) : Prop := sound w ∧ id ∉ queue (view LT w).

(** Code that puts no one into the queue. *)
Definition stays {A} (m : M W A) : Prop := triple away m (λ _, away) (λ _, away).

Lemma stays_ret {A} (a : A) : stays (mret a).
Proof. by apply triple_ret. Qed.
Lemma stays_throw {A} e : stays (throw e : M W A).
Proof. by apply triple_throw. Qed.
Lemma stays_gets {A} (f : W → A) : stays (gets f).
Proof. by apply triple_gets. Qed.
Lemma stays_lift {A} (x : result A) : stays (lift_result x).
Proof. apply triple_lift. by destruct x. Qed.
Lemma stays_bind {A B} (m : M W A) (k : A → M W B) : stays m → (∀ a, stays (k a)) → stays (m ≫= k).
Proof. intros Hm Hk. by eapply triple_bind. Qed.
Lemma stays_try {A} (m : M W A) : stays m → stays (try m).
Proof. intros Hm. by apply triple_try. Qed.
Lemma stays_over f : (∀ t, id ∉ queue t → id ∉ queue (f t)) → stays (over LT f).
Proof.
  intros Hf. apply triple_modify. intros w [Hs Hq]. split; [by eapply (lw_sound LT api duration now lease slack)|].
  rewrite view_update. auto.
Qed.
Lemma stays_flows {A} (c : W → A * W) : (∀ w a w', c w = (a, w') → flows w w') → stays (always c).
Proof.
  intros Hc w r w' [Hs Hq] H. unfold always in H. destruct (c w) as [a w1] eqn:E. simplify_eq.
  apply Hc in E as (Ev & _ & _ & Hso). split; [auto|by rewrite Ev].
Qed.
Lemma stays_finally {A} (m : M W A) f : stays m → stays f → stays (finally m f).
Proof.
  intros Hm Hf. apply stays_bind; [by apply stays_try|]. intros r. apply stays_bind; [done|].
  intros _. apply stays_lift.
Qed.

Lemma stays_Now : stays (always (la_Now api)).
Proof. apply stays_flows. by intros w a w' [_ ?]%(lw_Now LT api duration now lease slack sound). Qed.
Lemma stays_After d : stays (always (la_After api d)).
Proof. apply stays_flows. by intros w a w' [_ ?]%(lw_After LT api duration now lease slack sound). Qed.
Lemma stays_Dying : stays (always (la_Dying api)).
Proof. apply stays_flows. by intros w a w' ?%(lw_Dying LT api duration now lease slack sound). Qed.
Lemma stays_Renew due : stays (always (la_Renew api due)).
Proof. apply stays_flows. by intros w a w' [? _]%(lw_Renew LT api duration now lease slack sound). Qed.
Lemma stays_Claim : stays (la_ClaimLeadership api (2 * duration)).
Proof.
  intros w r w' [Hs Hq] H. apply (lw_Claim LT api duration now lease slack sound) in H as (Ev & _ & Hs' & _); [|done].
  destruct r; (split; [done|by rewrite Ev]).
Qed.

Hint Resolve stays_ret stays_throw stays_gets stays_Now stays_After stays_Dying stays_Renew stays_Claim : stays.

Lemma stays_close id' : stays (close_ticket LT id').
Proof.
  apply stays_bind; [apply stays_gets|]. intros t. case_match; [case_match|]; auto with stays.
  apply stays_over. by intros t'.
Qed.
Lemma stays_sendTrue id' : stays (sendTrue LT api id').
Proof.
  apply stays_bind; [auto with stays|]. intros []; [auto with stays|].
  apply stays_bind; [auto with stays|]. intros t. case_match; [case_match|]; auto with stays.
  apply stays_over. by intros t'.
Qed.
Lemma stays_close_all ids : stays (close_all LT ids).
Proof. induction ids; [apply stays_ret|]. apply stays_bind; [apply stays_close|]. by intros _. Qed.

(** A queue that is emptied, this one or the other. *)
Lemma stays_notify (set : list nat → Leadership → Leadership) l popped :
  (∀ l' t, id ∉ queue t → (∀ x, x ∈ l' → x ∈ l) → id ∉ queue (set l' t)) →
  stays (notify LT api set l popped).
Proof.
  revert popped. induction l as [|i l IH]; intros popped Hset; simpl; [apply stays_close_all|].
  apply stays_bind; [apply stays_over; intros t Ht; apply Hset; [done|]; intros x; by right|]. intros _.
  apply stays_bind; [apply stays_try, stays_sendTrue|]. intros [a|e].
  - apply IH. intros l' t Ht Hl. apply Hset; [done|]. intros x Hx. right. auto.
  - apply stays_bind; [apply stays_close_all|]. intros _. apply stays_throw.
Qed.

Hint Resolve stays_close stays_sendTrue stays_close_all : stays.

Lemma stays_setLeader untilTime : stays (setLeader LT api duration untilTime).
Proof.
  apply stays_bind; [by apply stays_over; intros t|]. intros _.
  apply stays_bind; [auto with stays|]. intros n. apply stays_bind; [auto with stays|]. intros due.
  apply stays_bind; [by apply stays_over; intros t|]. intros _.
  intros w r w' Hw H. unfold look in H. rewrite (bind_ok _ _ _ (lt_waitingLeader (view LT w)) w) in H by done.
  revert w r w' Hw H. intros w r w' Hw H.
  refine (stays_notify set_waitingLeader _ [] _ w r w' Hw H). destruct Hw as [_ Hw].
  intros l' t Ht Hl. unfold queue in *. destruct side; [|done]. simpl. auto.
Qed.
Lemma stays_setMinion : stays (setMinion LT api).
Proof.
  apply stays_bind; [by apply stays_over; intros t|]. intros _.
  intros w r w' Hw H. unfold look in H. rewrite (bind_ok _ _ _ (lt_waitingMinion (view LT w)) w) in H by done.
  refine (stays_notify set_waitingMinion _ [] _ w r w' Hw H). destruct Hw as [_ Hw].
  intros l' t Ht Hl. unfold queue in *. destruct side; [done|]. simpl. auto.
Qed.
Lemma stays_refresh : stays (refresh LT api duration).
Proof.
  apply stays_bind; [auto with stays|]. intros n. apply stays_bind; [apply stays_try; auto with stays|].
  intros [[]|e]; [apply stays_setLeader|]. case_decide; [apply stays_setMinion|apply stays_throw].
Qed.
Lemma stays_isLeader : stays (tracker_isLeader LT api duration).
Proof.
  apply stays_bind; [auto with stays|]. intros t. apply stays_bind; [|intros _; apply stays_gets].
  case_match; [auto with stays|]. apply stays_bind; [auto with stays|]. intros k.
  destruct k; [auto with stays| |auto with stays]. case_match; [|auto with stays].
  apply stays_bind; [by apply stays_over; intros t'|]. intros _. apply stays_refresh.
Qed.

Hint Resolve stays_refresh stays_isLeader : stays.

(** The ticket that would be put there. *)
Definition queues (e : leadership_event) : Prop :=
  e = if side then LvWaitLeader id else LvWaitMinion id.

Lemma stays_wait e :
  ¬ queues e →
  match e with
  | LvWaitLeader id' => stays (resolveWaitLeader LT api duration id')
  | LvWaitMinion id' => stays (resolveWaitMinion LT api duration id')
  | _ => True
  end.
Proof.
  unfold queues. intros Hq. destruct e as [| | | |id'|id']; try done;
    (apply stays_bind; [apply stays_try; auto with stays|]); intros [[]|e].
  - apply stays_finally; auto with stays.
  - apply stays_over. unfold queue. destruct side; [|done]. intros t Ht. simpl.
    assert (id ≠ id') by congruence. set_solver.
  - apply stays_bind; auto with stays.
  - apply stays_over. unfold queue. destruct side; [done|]. intros t Ht. simpl.
    assert (id ≠ id') by congruence. set_solver.
  - auto with stays.
  - apply stays_bind; auto with stays.
Qed.

Lemma stays_handle e : ¬ queues e → stays (handle e).
Proof.
  intros Hq. pose proof (stays_wait e Hq). apply stays_bind; [auto with stays|]. intros t.
  destruct e as [|r| |id'|id'|id']; auto with stays.
  - case_match; [|auto with stays]. apply stays_bind; [by apply stays_over; intros t'|]. intros _.
    destruct r as [[err|]|]; [case_decide| |]; auto with stays.
  - case_match; [|auto with stays]. apply stays_bind; [by apply stays_over; intros t'|]. auto with stays.
  - apply stays_bind; [by apply stays_over; intros t'|]. intros _. apply stays_finally; [|auto with stays].
    apply stays_bind; [auto with stays|]. intros []; auto with stays.
  - apply stays_bind; [by apply stays_over; intros t'|]. done.
  - apply stays_bind; [by apply stays_over; intros t'|]. done.
Qed.
End away.

(** ** The call beside the loop *)

Context (claim wait : nat).

Abbreviation step t := (stable_step claim wait t).

(** A turn of the loop handles the ticket that the caller sends, or something else. *)
Definition takes (e : leadership_event) (t : Leadership) (c c' : stable_call) : Prop :=
  (submission claim wait c = Some e ∧ step t (SvSubmit false) c = Some c') ∨
  (submitted e ## {[claim; wait]} ∧ c' = c).

(** The call and the world beside each other; the boolean tells whether the loop
    runs, [D] which tickets it has received. *)
Inductive stable : bool → gset nat → stable_call → W → Prop :=
| stable_start b D ctx w :
    tracking b D w → claim ≠ wait → claim ∉ D → wait ∉ D →
    stable true D (WithStableLeadership ctx) w
| stable_own alive D ev c c' w :
    stable alive D c w → ev ≠ SvSubmit false → step (view LT w) ev c = Some c' → stable alive D c' w
| stable_pass alive D c w w' : stable alive D c w → flows w w' → stable alive D c w'
| stable_turn D e c c' w w' :
    stable true D c w → can_come D e → takes e (view LT w) c c' → handle e w = (Ok (), w') →
    stable true (submitted e ∪ D) c' w'
| stable_ends D e c c' w x w1 w' :
    stable true D c w → can_come D e → takes e (view LT w) c c' → handle e w = (Err x, w1) →
    tracker_exit LT w1 = (Ok (), w') → stable false (submitted e ∪ D) c' w'.

Section slack.
Context (Hd : (0 < duration)%Z) (Hslack : (0 ≤ slack)%Z).

Lemma settles b D w :
  tracking b D w → LeadershipFacts.settled LT duration lease slack sound D [] [] w ∧
    (b = true → steady LT w).
Proof. by apply tracking_settled. Qed.

(** The tracker keeps to its promises meanwhile; when its loop has ended every ticket
    it received is closed. *)
Lemma stable_tracker alive D c w :
  stable alive D c w →
  if alive then ∃ b, tracking b D w
  else ∀ id, id ∈ D → ∃ tk, lt_tickets (view LT w) !! id = Some tk ∧ tk_closed tk = true.
Proof.
  induction 1 as [b D ctx w|alive D ev c c' w _ IH|alive D c w w' _ IH Hf|D e c c' w w' _ [b IH] Hc Ht H
    |D e c c' w x w1 w' _ [b IH] Hc Ht H Hex].
  - eauto.
  - done.
  - destruct alive; [destruct IH as [b IH]; exists b; by eapply tracking_pass|].
    destruct Hf as [-> _]. done.
  - eexists. by eapply tracking_step.
  - apply settles in IH as [Hs Hst].
    eapply (tracker_handle_spec LT api duration now lease slack sound Hd Hslack D e (b = true) (now w) Hc) in H;
      [|by split_and!; [|lia|]].
    destruct H as [_ Hok].
    destruct (tracker_exit_run LT api duration now lease slack sound Hd Hslack _ _ Hok) as (w2 & E & Hcl).
    rewrite Hex in E. injection E as <-. intros id Hid. destruct (Hcl id Hid) as (tk & ? & ? & _). eauto.
Qed.

Lemma waiting_received b D w side id :
  tracking b D w → id ∉ D → away side id w.
Proof.
  intros Ht Hid. apply settles in Ht as [[Hok _ _ Hs] _]. split; [done|].
  intros Hq. apply Hid. rewrite <- (to_dom _ _ _ _ Hok). apply elem_of_dom, (to_there _ _ _ _ Hok).
  rewrite app_nil_r. unfold queue in Hq. unfold waiting. simpl. apply elem_of_app. destruct side; auto.
Qed.

(** What is known of the call at each point. *)
Definition call_at (alive : bool) (D : gset nat) (c : stable_call) (w : W) : Prop :=
  match sc_main c with
  | SpSend => (claim ∉ D) ∧ (wait ∉ D) ∧ claim ≠ wait ∧ sc_watch c = WtNone
  | SpClaim | SpSubmit _ => (wait ∉ D) ∧ sc_watch c = WtNone
  | SpRun leader =>
      (sc_waitClosed c = true ∨ wait ∈ D ∧ (alive = true → away leader wait w)) ∧
      (sc_watch c = WtSelect ∨ sc_watch c = WtGone ∧ is_Some (sc_leadershipCtx c))
  | SpDone _ => True
  end.

Lemma call_at_own alive D ev c c' w :
  call_at alive D c w → ev ≠ SvSubmit false → step (view LT w) ev c = Some c' → call_at alive D c' w.
Proof.
  unfold call_at. destruct c as [main watch ctx cc wc]. simpl. intros Hc Hev H.
  destruct ev as [e|[]| | | | |r]; try done.
  - injection H as <-. destruct main; simpl; try done. destruct Hc as [? [->|[-> _]]]; split; eauto.
  - destruct main; try done; injection H as <-; simpl; [by destruct Hc as (_ & ? & _ & ?)|]. split; by left.
  - destruct main; try done. apply bind_Some in H as (x & _ & [= <-]). done.
  - destruct main; try done. apply bind_Some in H as (_ & _ & [= <-]). done.
  - destruct watch; [by destruct main| |by destruct main].
    assert (c' = MkStableCall main WtGone (Some (default (context_Canceled, ErrLeadershipChanged) ctx)) cc wc)
      as -> by (destruct main; apply bind_Some in H as (_ & _ & [= <-]); done).
    destruct main; simpl; try (by destruct_and! Hc). destruct Hc. split; [done|]. right. eauto.
  - destruct watch, ctx as [x|]; try (by destruct main).
    assert (c' = MkStableCall main WtGone (Some x) cc wc) as -> by (destruct main; injection H as <-; done).
    destruct main; simpl; try (by destruct_and! Hc). destruct Hc. split; [done|]. right. eauto.
  - destruct main; try done. by injection H as <-.
Qed.

Lemma call_at_turn alive b D e c c' w w' :
  tracking b D w → call_at true D c w → takes e (view LT w) c c' →
  (alive = true → handle e w = (Ok (), w')) → call_at alive (submitted e ∪ D) c' w'.
Proof.
  intros Ht Hc Htk Hh.
  assert (∀ side, alive = true → ¬ queues side wait e → away side wait w → away side wait w') as Haway.
  { intros side -> Hq Hw. by apply (stays_handle side wait e Hq w (Ok ()) w' Hw), Hh. }
  unfold call_at in *. destruct c as [main watch ctx cc wc]. simpl in *.
  destruct Htk as [[Hsub Hst]|[Hsub ->]].
  - unfold submission in Hsub. destruct main as [| |leader| |]; try done; simpl in *; simplify_eq; simpl.
    + destruct Hc as (? & ? & ? & ?). split; [|done]. by apply not_elem_of_union; split; [apply not_elem_of_singleton|].
    + destruct Hc as [Hw _]. split; [right|by left].
      split; [apply elem_of_union; left; destruct leader; simplify_eq; simpl; by apply elem_of_singleton|].
      intros Ha. apply Haway; [done| |by eapply waiting_received].
      unfold queues. destruct leader; simplify_eq; done.
  - assert ((claim ∉ submitted e) ∧ (wait ∉ submitted e)) as [H1 H2] by (clear -Hsub; set_solver).
    destruct main; simpl; rewrite ?not_elem_of_union; try tauto.
    destruct Hc as [[?|[Hin Hw]] ?]; (split; [|done]); [by left|right].
    split; [by apply elem_of_union; right|]. intros Ha. apply Haway; [done| |by apply Hw].
    unfold queues. intros ->. apply H2. destruct leader; simpl; by apply elem_of_singleton.
Qed.

Lemma stable_call_at alive D c w : stable alive D c w → call_at alive D c w.
Proof.
  induction 1 as [b D ctx w|alive D ev c c' w _ IH|alive D c w w' _ IH Hf|D e c c' w w' Hs IH Hc Ht H
    |D e c c' w x w1 w' Hs IH Hc Ht H Hex].
  - unfold call_at. destruct ctx; simpl; [done|]. by split_and!.
  - by eapply call_at_own.
  - unfold call_at in *. destruct (sc_main c); try done. destruct IH as [[?|[? Ha]] ?]; (split; [|done]); [by left|right].
    split; [done|]. intros Hal. specialize (Ha Hal). destruct Ha as [Hso Hq], Hf as (E & _ & _ & Hf).
    split; [auto|by rewrite E].
  - apply stable_tracker in Hs as [b Hs]. by eapply call_at_turn.
  - apply stable_tracker in Hs as [b Hs]. by eapply call_at_turn.
Qed.

(** C15: a function runs with stable leadership only while leadership does not change.
    While the function of [WithStableLeadership] runs, whatever turns the tracker's
    loop has taken in between and however it may have ended, one of three things
    holds.  The function's context is done; or the goroutine that watches over it can
    cancel it at once, with the cause that leadership changed; or the tracker runs and
    the unit is leader, or is not, as it was when the function was started, and a
    leader has a renewal coming by which the lease is still good for the tracker's
    duration, less the slack of its timers. *)
Theorem stable_leadership_guarded alive D c w leader :
  stable alive D c w → sc_main c = SpRun leader →
  is_Some (sc_leadershipCtx c) ∨
  (∃ c', step (view LT w) SvChanged c = Some c' ∧
     sc_leadershipCtx c' = Some (context_Canceled, ErrLeadershipChanged)) ∨
  (alive = true ∧ lt_isMinion (view LT w) = negb leader ∧
   (leader = true → ∃ due, lt_renewLease (view LT w) = Some due ∧ (due + duration - slack ≤ lease w)%Z)).
Proof.
  intros Hs Hm. pose proof (stable_call_at _ _ _ _ Hs) as Hc. pose proof (stable_tracker _ _ _ _ Hs) as Ht.
  unfold call_at in Hc. destruct c as [main watch [x|] cc wc]; simpl in *; [by left; eexists|]. right. subst main.
  destruct Hc as [Hw [->|[_ [y Hy]]]]; [|done].
  assert (ticket_ready wc wait (view LT w) = true ∨
    (alive = true ∧ lt_isMinion (view LT w) = negb leader ∧
     (leader = true → ∃ due, lt_renewLease (view LT w) = Some due ∧ (due + duration - slack ≤ lease w)%Z)))
    as [Hr|?]; [|left; rewrite Hr; simpl; eauto|by right].
  unfold ticket_ready. destruct Hw as [->|[Hin Ha]]; [by left|]. destruct alive.
  - destruct Ht as [b [[Hok Hle Hmi _] _]%settles]. destruct (Ha eq_refl) as [_ Hq].
    rewrite <- (to_dom _ _ _ _ Hok) in Hin. apply elem_of_dom in Hin as [tk Htk]. rewrite Htk.
    destruct (tk_closed tk) eqn:Hcl; [left; by rewrite orb_true_r|right]. split; [done|].
    apply (to_open _ _ _ _ Hok wait tk Htk) in Hcl. rewrite app_nil_r in Hcl.
    unfold waiting, queue in *. simpl in Hcl. apply elem_of_app in Hcl.
    destruct (lt_isMinion (view LT w)).
    + destruct (Hmi eq_refl) as [E _]. rewrite E in Hcl. destruct leader; [by destruct Hcl as [?|?%elem_of_nil]|done].
    + destruct (Hle eq_refl) as (E & _ & ?). rewrite E in Hcl. destruct leader; [done|by destruct Hcl as [?%elem_of_nil|?]].
  - destruct (Ht wait Hin) as (tk & -> & ->). left. by rewrite orb_true_r.
Qed.
End slack.
End stable.
