(* ===== verification/Fortress.v ===== *)
(** * The fortress

    internal/worker/fortress: fortress.go, a lock that guests share and a guard
    takes alone.  The unit agent and the workers around it use it to keep the
    charm directory still while a charm is upgraded.

    A fortress is a goroutine that receives tickets on two channels, and starts
    goroutines that complete them.  Everything those goroutines do that others
    can see is an event, and [fortress_step] says when an event can happen and
    what it does; the behaviours of the program are the runs of events, in any
    order in which each of them can happen.  A send on an unbuffered channel and
    its receipt are one event.  A [select] is one event for each of its cases. *)

From S2P Require Import Prelude.

(** ** Errors *)

Abbreviation ErrAborted := (ErrConst "fortress operation aborted").
Abbreviation ErrShutdown := (ErrConst "fortress worker shutting down").

Definition IsFortressError (err : option error) : bool :=
  match err with
  | Some e => bool_decide (e = ErrAborted) || bool_decide (e = ErrShutdown)
  | None => false
  end.

(** ** State *)

(** A goroutine that calls [active.Wait()]: about to call it, asleep in it, woken
    up in it, or through. *)
Inductive wait_stage : Type := WCall | WBlocked | WWoken | WReturned.

(** A call of [Visit] and the goroutine that completes its ticket: sending the
    ticket, goroutine started, inside the visit function, result sent, over. *)
Inductive visit_stage : Type := VSend | VStarted | VVisiting | VFinishing | VOver.

#[global] Instance wait_stage_eq_dec : EqDecision wait_stage.
Proof. solve_decision. Defined.
#[global] Instance visit_stage_eq_dec : EqDecision visit_stage.
Proof. solve_decision. Defined.

(** A call of [Visit]: whether its context is done, where it is, what the visit
    function returned, and what the call returns (the value on [result]). *)
Record guestTicket : Type := MkGuestTicket {
  gt_cancelled : bool;
  gt_stage : visit_stage;
  gt_visited : option (result ());
  gt_result : option (result ());
}.

(** A call of [Unlock] or [Lockdown]: which of them, whether its context is done,
    whether the loop has its ticket, the goroutine that waits for the visits
    ([WReturned] once it has closed [done]), and what the call returns. *)
Record guardTicket : Type := MkGuardTicket {
  gd_allowGuests : bool;
  gd_cancelled : bool;
  gd_accepted : bool;
  gd_wait : wait_stage;
  gd_result : option (result ());
}.

(** [loop]: in its [for], in its deferred [active.Wait()]; it has returned when
    that has. *)
Inductive loop_stage : Type := LoopRunning | LoopLeaving (w : wait_stage).

(** [fortress], with the locals of [loop]: the wait group's counter, and whether
    [guestTickets] is set.  [fo_panic] is set when the program has panicked. *)
Record fortress : Type := MkFortress {
  fo_dying : bool;
  fo_guestTickets : bool;
  fo_active : nat;
  fo_loop : loop_stage;
  fo_guests : gmap nat guestTicket;
  fo_guards : gmap nat guardTicket;
  fo_panic : bool;
}.

Definition set_guest (g : nat) (t : guestTicket) (s : fortress) : fortress :=
  MkFortress (fo_dying s) (fo_guestTickets s) (fo_active s) (fo_loop s)
    (<[g := t]> (fo_guests s)) (fo_guards s) (fo_panic s).
Definition set_guard (k : nat) (t : guardTicket) (s : fortress) : fortress :=
  MkFortress (fo_dying s) (fo_guestTickets s) (fo_active s) (fo_loop s)
    (fo_guests s) (<[k := t]> (fo_guards s)) (fo_panic s).
Definition set_loop (l : loop_stage) (s : fortress) : fortress :=
  MkFortress (fo_dying s) (fo_guestTickets s) (fo_active s) l
    (fo_guests s) (fo_guards s) (fo_panic s).
Definition set_panic (s : fortress) : fortress :=
  MkFortress (fo_dying s) (fo_guestTickets s) (fo_active s) (fo_loop s)
    (fo_guests s) (fo_guards s) true.

Definition newFortress : fortress :=
  MkFortress false false 0 LoopRunning ∅ ∅ false.

(** [Kill] *)
Definition fortress_Kill (s : fortress) : fortress :=
  MkFortress true (fo_guestTickets s) (fo_active s) (fo_loop s)
    (fo_guests s) (fo_guards s) (fo_panic s).

(** ** The wait group of the loop *)

(** [active.Add(1)] *)
Definition active_Add (s : fortress) : fortress :=
  MkFortress (fo_dying s) (fo_guestTickets s) (S (fo_active s)) (fo_loop s)
    (fo_guests s) (fo_guards s) (fo_panic s).

Definition wake (w : wait_stage) : wait_stage :=
  match w with WBlocked => WWoken | _ => w end.
Definition wake_guard (t : guardTicket) : guardTicket :=
  MkGuardTicket (gd_allowGuests t) (gd_cancelled t) (gd_accepted t) (wake (gd_wait t))
    (gd_result t).
Definition wake_loop (l : loop_stage) : loop_stage :=
  match l with LoopRunning => LoopRunning | LoopLeaving w => LoopLeaving (wake w) end.

(** [active.Done()]: the last one wakes up everyone that waits; one too many
    panics. *)
Definition active_Done (s : fortress) : fortress :=
  match fo_active s with
  | 0 => set_panic s
  | 1 => MkFortress (fo_dying s) (fo_guestTickets s) 0 (wake_loop (fo_loop s))
           (fo_guests s) (wake_guard <$> fo_guards s) (fo_panic s)
  | S n => MkFortress (fo_dying s) (fo_guestTickets s) n (fo_loop s)
             (fo_guests s) (fo_guards s) (fo_panic s)
  end.

(** [active.Wait()], as far as the goroutine can go on: it returns at once when
    the counter is zero, sleeps otherwise.  Once woken up it looks at the
    counter again: when the wait group is in use again already it panics
    ("WaitGroup is reused before previous Wait has returned"), which is [None]
    here. *)
Definition active_Wait (s : fortress) (w : wait_stage) : option (option wait_stage) :=
  match w with
  | WCall => Some (Some (if decide (fo_active s = 0) then WReturned else WBlocked))
  | WWoken => Some (if decide (fo_active s = 0) then Some WReturned else None)
  | WBlocked | WReturned => None
  end.

(** ** Events *)

(** What can happen to a call of [Visit]: it is made; its context is done; one of
    the three cases of its [select]; the [select] of [guestTicket.complete]
    finds the context done, or starts the visit function; that returns; the
    deferred [finished()]. *)
Inductive visit_event : Type :=
| VisitCall
| VisitCancel
| VisitShutdown
| VisitAbort
| VisitAccept
| VisitRefuse
| VisitEnter
| VisitReturn (r : result ())
| VisitFinished.

(** What can happen to a call of [Unlock] or [Lockdown]: it is made; its context
    is done; the two cases of [allowGuests]; the goroutine that waits for the
    visits goes on; the two cases of [guardTicket.complete]. *)
Inductive guard_event : Type :=
| GuardCall (allowGuests : bool)
| GuardCancel
| GuardShutdown
| GuardAccept
| GuardWait
| GuardDone
| GuardAbort.

Inductive event : Type :=
| Kill
| OnVisit (g : nat) (e : visit_event)
| OnGuard (k : nat) (e : guard_event)
| LoopDying
| LoopWait.

(** ** What they do *)

Definition loop_running (s : fortress) : bool :=
  match fo_loop s with LoopRunning => true | LoopLeaving _ => false end.

(** [Visit] up to the sending of its ticket; the loop's side of the ticket is
    [VisitAccept] in [loop_guest]. *)
Definition fortress_Visit (t : guestTicket) (e : visit_event) (s : fortress) :
    option guestTicket :=
  match e, gt_stage t with
  | VisitShutdown, VSend =>
      guard (fo_dying s = true);;
      Some (MkGuestTicket (gt_cancelled t) VOver None (Some (Err ErrShutdown)))
  | VisitAbort, VSend =>
      guard (gt_cancelled t = true);;
      Some (MkGuestTicket (gt_cancelled t) VOver None (Some (Err ErrAborted)))
  | _, _ => None
  end.

(** [guestTicket.complete] but for its deferred [finished()]. *)
Definition guestTicket_complete (t : guestTicket) (e : visit_event) : option guestTicket :=
  match e, gt_stage t with
  | VisitRefuse, VStarted =>
      guard (gt_cancelled t = true);;
      Some (MkGuestTicket true VFinishing None (Some (Err ErrAborted)))
  | VisitEnter, VStarted =>
      guard (gt_cancelled t = false);;
      Some (MkGuestTicket false VVisiting None None)
  | VisitReturn r, VVisiting =>
      Some (MkGuestTicket (gt_cancelled t) VFinishing (Some r) (Some r))
  | _, _ => None
  end.

(** The case of [loop] that receives a guest's ticket. *)
Definition loop_guest (g : nat) (t : guestTicket) (s : fortress) : option fortress :=
  guard (loop_running s = true ∧ fo_guestTickets s = true ∧ gt_stage t = VSend);;
  Some (active_Add (set_guest g (MkGuestTicket (gt_cancelled t) VStarted None None) s)).

Definition cancel_guest (t : guestTicket) : guestTicket :=
  MkGuestTicket true (gt_stage t) (gt_visited t) (gt_result t).

Definition visit_step (g : nat) (e : visit_event) (s : fortress) : option fortress :=
  match e, fo_guests s !! g with
  | VisitCall, None => Some (set_guest g (MkGuestTicket false VSend None None) s)
  | VisitCancel, Some t => Some (set_guest g (cancel_guest t) s)
  | VisitShutdown, Some t | VisitAbort, Some t =>
      t' ← fortress_Visit t e s; Some (set_guest g t' s)
  | VisitAccept, Some t => loop_guest g t s
  | VisitRefuse, Some t | VisitEnter, Some t | VisitReturn _, Some t =>
      t' ← guestTicket_complete t e; Some (set_guest g t' s)
  | VisitFinished, Some t =>
      guard (gt_stage t = VFinishing);;
      Some (active_Done (set_guest g
        (MkGuestTicket (gt_cancelled t) VOver (gt_visited t) (gt_result t)) s))
  | _, _ => None
  end.

(** [allowGuests] when the loop does not take its ticket. *)
Definition allowGuests_shutdown (t : guardTicket) (s : fortress) : option guardTicket :=
  guard (gd_accepted t = false ∧ gd_result t = None ∧ fo_dying s = true);;
  Some (MkGuardTicket (gd_allowGuests t) (gd_cancelled t) false (gd_wait t)
          (Some (Err ErrShutdown))).

(** The case of [loop] that receives a guard's ticket. *)
Definition loop_guard (k : nat) (t : guardTicket) (s : fortress) : option fortress :=
  guard (loop_running s = true ∧ gd_accepted t = false ∧ gd_result t = None);;
  Some (MkFortress (fo_dying s) (gd_allowGuests t) (fo_active s) (fo_loop s) (fo_guests s)
          (<[k := MkGuardTicket (gd_allowGuests t) (gd_cancelled t) true WCall None]>
             (fo_guards s)) (fo_panic s)).

(** The goroutine of [guardTicket.complete] that closes [done], after waiting for
    the visits when locking down. *)
Definition guardTicket_wait (k : nat) (t : guardTicket) (s : fortress) : option fortress :=
  guard (gd_accepted t = true);;
  let at_ (w : wait_stage) :=
    set_guard k (MkGuardTicket (gd_allowGuests t) (gd_cancelled t) true w (gd_result t)) s in
  if gd_allowGuests t then
    match gd_wait t with WReturned => None | _ => Some (at_ WReturned) end
  else
    next ← active_Wait s (gd_wait t);
    Some (match next with Some w => at_ w | None => set_panic s end).

(** The [select] of [guardTicket.complete], with the sending of its result. *)
Definition guardTicket_complete (t : guardTicket) (e : guard_event) : option guardTicket :=
  let return_ (r : result ()) :=
    MkGuardTicket (gd_allowGuests t) (gd_cancelled t) true (gd_wait t) (Some r) in
  guard (gd_accepted t = true ∧ gd_result t = None);;
  match e, gd_wait t, gd_cancelled t with
  | GuardDone, WReturned, _ => Some (return_ (Ok ()))
  | GuardAbort, _, true => Some (return_ (Err ErrAborted))
  | _, _, _ => None
  end.

Definition cancel_guard (t : guardTicket) : guardTicket :=
  MkGuardTicket (gd_allowGuests t) true (gd_accepted t) (gd_wait t) (gd_result t).

Definition guard_step (k : nat) (e : guard_event) (s : fortress) : option fortress :=
  match e, fo_guards s !! k with
  | GuardCall allow, None =>
      Some (set_guard k (MkGuardTicket allow false false WCall None) s)
  | GuardCancel, Some t => Some (set_guard k (cancel_guard t) s)
  | GuardShutdown, Some t => t' ← allowGuests_shutdown t s; Some (set_guard k t' s)
  | GuardAccept, Some t => loop_guard k t s
  | GuardWait, Some t => guardTicket_wait k t s
  | GuardDone, Some t | GuardAbort, Some t =>
      t' ← guardTicket_complete t e; Some (set_guard k t' s)
  | _, _ => None
  end.

(** The case of [loop] that leaves it, and its deferred [active.Wait()]. *)
Definition loop_leave (e : event) (s : fortress) : option fortress :=
  match e, fo_loop s with
  | LoopDying, LoopRunning =>
      guard (fo_dying s = true);; Some (set_loop (LoopLeaving WCall) s)
  | LoopWait, LoopLeaving w =>
      next ← active_Wait s w;
      Some (match next with Some w' => set_loop (LoopLeaving w') s | None => set_panic s end)
  | _, _ => None
  end.

Definition fortress_step (e : event) (s : fortress) : option fortress :=
  if fo_panic s then None
  else match e with
  | Kill => Some (fortress_Kill s)
  | OnVisit g e => visit_step g e s
  | OnGuard k e => guard_step k e s
  | LoopDying | LoopWait => loop_leave e s
  end.

Fixpoint fortress_run (es : list event) (s : fortress) : option fortress :=
  match es with
  | [] => Some s
  | e :: es' => s' ← fortress_step e s; fortress_run es' s'
  end.

(** The states a fortress can be in. *)
Inductive fortress_reachable : fortress → Prop :=
| reachable_new : fortress_reachable newFortress
| reachable_step e s s' :
    fortress_reachable s → fortress_step e s = Some s' → fortress_reachable s'.
