(* ===== verification/FortressFacts.v ===== *)
(** * What the fortress guarantees

    A guard that has locked the fortress down is alone; the worker stops only
    when no visit is left; a lockdown can always be completed; and when the
    calls of a guard can or cannot make the program panic. *)

From S2P Require Import Prelude Fortress.

(** ** Definitions *)

(** A visit is in progress from when the loop has its ticket to the end of its
    goroutine. *)
Definition visit_active (t : guestTicket) : bool :=
  match gt_stage t with VStarted | VVisiting | VFinishing => true | VSend | VOver => false end.

Definition actives (m : gmap nat guestTicket) : gmap nat guestTicket :=
  filter (λ p, visit_active p.2 = true) m.

(** No visit is in progress. *)
Definition deserted (s : fortress) : Prop :=
  ∀ g t, fo_guests s !! g = Some t → visit_active t = false.

(** The event is the loop's receipt of an [Unlock] ticket. *)
Definition unlocks (e : event) (s : fortress) : Prop :=
  match e with
  | OnGuard k GuardAccept => ∃ t, fo_guards s !! k = Some t ∧ gd_allowGuests t = true
  | _ => False
  end.

(** A run none of whose events unlocks the fortress. *)
Fixpoint stays_locked (es : list event) (s : fortress) : Prop :=
  match es with
  | [] => True
  | e :: es' => ¬ unlocks e s ∧ ∀ s', fortress_step e s = Some s' → stays_locked es' s'
  end.

(** The event is a step of the fortress's own goroutines or of a visit function,
    not a new call, a cancellation, a ticket or the end of the worker. *)
Definition internal (e : event) : bool :=
  match e with
  | OnVisit _ (VisitRefuse | VisitEnter | VisitReturn _ | VisitFinished) => true
  | OnGuard _ (GuardWait | GuardDone | GuardAbort) => true
  | _ => false
  end.

(** A guard that makes one call after the other, and cancels none. *)
Definition patient (e : event) (s : fortress) : Prop :=
  match e with
  | OnGuard _ (GuardCall _) => ∀ k t, fo_guards s !! k = Some t → gd_result t ≠ None
  | OnGuard _ GuardCancel => False
  | _ => True
  end.
Inductive patiently_reachable : fortress → Prop :=
| patient_new : patiently_reachable newFortress
| patient_step e s s' :
    patiently_reachable s → patient e s → fortress_step e s = Some s' →
    patiently_reachable s'.

(** What a call of [Visit] returns: the result of the visit function, or one of
    the two errors of the package when it has not been called. *)
Definition guest_ok (t : guestTicket) : Prop :=
  match gt_stage t with
  | VSend | VStarted | VVisiting => gt_visited t = None ∧ gt_result t = None
  | VFinishing | VOver =>
      ∃ r, gt_result t = Some r ∧
        (gt_visited t = Some r ∨
         gt_visited t = None ∧ (r = Err ErrAborted ∨ r = Err ErrShutdown))
  end.

(** What a call of [Unlock] or [Lockdown] returns. *)
Definition guard_ok (t : guardTicket) : Prop :=
  if gd_accepted t then
    match gd_result t with
    | None => True
    | Some (Ok _) => gd_wait t = WReturned
    | Some (Err e) => e = ErrAborted ∧ gd_cancelled t = true
    end
  else gd_wait t = WCall ∧ (gd_result t = None ∨ gd_result t = Some (Err ErrShutdown)).

Definition loop_blocked (l : loop_stage) : Prop :=
  match l with LoopLeaving WBlocked => True | _ => False end.
Definition loop_over (l : loop_stage) : Prop :=
  match l with LoopLeaving WWoken | LoopLeaving WReturned => True | _ => False end.

Record fortress_ok (s : fortress) : Prop := {
  ok_count : fo_active s = size (actives (fo_guests s));
  ok_guests : ∀ g t, fo_guests s !! g = Some t → guest_ok t;
  ok_guards : ∀ k t, fo_guards s !! k = Some t → guard_ok t;
  ok_blocked : ∀ k t, fo_guards s !! k = Some t → gd_wait t = WBlocked → fo_active s ≠ 0;
  ok_loop_blocked : loop_blocked (fo_loop s) → fo_active s ≠ 0;
  ok_loop_over : loop_over (fo_loop s) → fo_active s = 0;
}.

(** What an event changes: the cases of [fortress_step] sorted by their effect. *)
Inductive fortress_change (s : fortress) : event → fortress → Prop :=
| ch_kill : fortress_change s Kill (fortress_Kill s)
| ch_visit_call g :
    fo_guests s !! g = None →
    fortress_change s (OnVisit g VisitCall)
      (set_guest g (MkGuestTicket false VSend None None) s)
| ch_visit g e t t' :
    fo_guests s !! g = Some t → visit_active t' = visit_active t →
    (guest_ok t → guest_ok t') →
    fortress_change s (OnVisit g e) (set_guest g t' s)
| ch_visit_accept g t :
    fo_guests s !! g = Some t → fo_loop s = LoopRunning → fo_guestTickets s = true →
    gt_stage t = VSend →
    fortress_change s (OnVisit g VisitAccept)
      (active_Add (set_guest g (MkGuestTicket (gt_cancelled t) VStarted None None) s))
| ch_visit_finished g t :
    fo_guests s !! g = Some t → gt_stage t = VFinishing →
    fortress_change s (OnVisit g VisitFinished)
      (active_Done (set_guest g
        (MkGuestTicket (gt_cancelled t) VOver (gt_visited t) (gt_result t)) s))
| ch_guard_call k allow :
    fo_guards s !! k = None →
    fortress_change s (OnGuard k (GuardCall allow))
      (set_guard k (MkGuardTicket allow false false WCall None) s)
| ch_guard k e t t' :
    fo_guards s !! k = Some t → gd_wait t' = gd_wait t →
    gd_allowGuests t' = gd_allowGuests t → gd_accepted t' = gd_accepted t →
    (gd_cancelled t' = gd_cancelled t ∨ e = GuardCancel) →
    (gd_result t = None ∨ gd_result t' = gd_result t) →
    (guard_ok t → guard_ok t') →
    fortress_change s (OnGuard k e) (set_guard k t' s)
| ch_guard_accept k t :
    fo_guards s !! k = Some t → fo_loop s = LoopRunning → gd_accepted t = false →
    gd_result t = None →
    fortress_change s (OnGuard k GuardAccept)
      (MkFortress (fo_dying s) (gd_allowGuests t) (fo_active s) (fo_loop s) (fo_guests s)
         (<[k := MkGuardTicket (gd_allowGuests t) (gd_cancelled t) true WCall None]>
            (fo_guards s)) (fo_panic s))
| ch_guard_wait k t w :
    fo_guards s !! k = Some t → gd_accepted t = true →
    (if gd_allowGuests t then gd_wait t ≠ WReturned ∧ w = WReturned
     else active_Wait s (gd_wait t) = Some (Some w)) →
    fortress_change s (OnGuard k GuardWait)
      (set_guard k (MkGuardTicket (gd_allowGuests t) (gd_cancelled t) true w (gd_result t)) s)
| ch_guard_panic k t :
    fo_guards s !! k = Some t → gd_allowGuests t = false → gd_wait t = WWoken →
    fo_active s ≠ 0 →
    fortress_change s (OnGuard k GuardWait) (set_panic s)
| ch_dying :
    fo_loop s = LoopRunning → fo_dying s = true →
    fortress_change s LoopDying (set_loop (LoopLeaving WCall) s)
| ch_loop_wait w w' :
    fo_loop s = LoopLeaving w → active_Wait s w = Some (Some w') →
    fortress_change s LoopWait (set_loop (LoopLeaving w') s)
| ch_loop_panic :
    fo_loop s = LoopLeaving WWoken → fo_active s ≠ 0 →
    fortress_change s LoopWait (set_panic s).

(** ** Counting visits *)

Lemma actives_insert m g t :
  size (actives (<[g:=t]> m))
  = (if visit_active t then 1 else 0) + size (actives (delete g m)).
Proof.
  unfold actives. rewrite map_filter_insert. case_decide as E; simpl in E.
  - rewrite E, <- insert_delete_eq, map_filter_delete, map_size_insert_None; [done|].
    apply lookup_delete_eq.
  - by rewrite (not_true_is_false _ E).
Qed.

Lemma actives_lookup m g t :
  m !! g = Some t →
  size (actives m) = (if visit_active t then 1 else 0) + size (actives (delete g m)).
Proof.
  intros H. rewrite <- (insert_delete_id m g t H) at 1.
  by rewrite actives_insert, delete_delete_eq.
Qed.

Lemma actives_fresh m g t :
  m !! g = None → size (actives (<[g:=t]> m))
  = (if visit_active t then 1 else 0) + size (actives m).
Proof. intros H. by rewrite actives_insert, delete_id. Qed.

Lemma deserted_iff s : fortress_ok s → fo_active s = 0 ↔ deserted s.
Proof.
  intros H. rewrite (ok_count s H), map_size_empty_iff. unfold actives, deserted.
  rewrite map_empty. setoid_rewrite map_lookup_filter_None. split.
  - intros He g t Hg. apply not_true_is_false. destruct (He g) as [?|Hn]; [congruence|].
    by apply (Hn t).
  - intros Hd g. right. intros t Hg. simpl. by rewrite (Hd g t Hg).
Qed.

(** ** The invariant *)

Lemma active_Wait_Some s w w' :
  active_Wait s w = Some (Some w') →
  (w = WCall ∧ fo_active s ≠ 0 ∧ w' = WBlocked) ∨
  ((w = WCall ∨ w = WWoken) ∧ fo_active s = 0 ∧ w' = WReturned).
Proof. unfold active_Wait. destruct w; try case_decide; naive_solver. Qed.

Lemma active_Wait_panic s w :
  active_Wait s w = Some None → w = WWoken ∧ fo_active s ≠ 0.
Proof. unfold active_Wait. destruct w; try case_decide; naive_solver. Qed.

Lemma visit_step_change g e s s' :
  visit_step g e s = Some s' → fortress_change s (OnVisit g e) s'.
Proof.
  unfold visit_step. destruct (fo_guests s !! g) as [[c st v r]|] eqn:E.
  2: { destruct e; intros; simplify_eq. by constructor. }
  unfold fortress_Visit, guestTicket_complete, loop_guest, loop_running.
  destruct e; intros H; try done; simpl in H; destruct st; simplify_option_eq; destruct_and?;
    try (by eapply ch_visit; [done|done|]; unfold guest_ok; simpl; naive_solver).
  - destruct (fo_loop s) eqn:El; [|done].
    by eapply (ch_visit_accept s g (MkGuestTicket c VSend v r)).
  - by eapply (ch_visit_finished s g (MkGuestTicket c VFinishing v r)).
Qed.

Lemma guard_step_change k e s s' :
  guard_step k e s = Some s' → fortress_change s (OnGuard k e) s'.
Proof.
  unfold guard_step. destruct (fo_guards s !! k) as [[al c ac w r]|] eqn:E.
  2: { destruct e; intros; simplify_eq. by constructor. }
  unfold allowGuests_shutdown, loop_guard, guardTicket_wait, guardTicket_complete, loop_running.
  destruct e; intros H; try done; simpl in H.
  - simplify_eq. eapply ch_guard; try done; [by right|by right|].
    unfold guard_ok. simpl. destruct ac; [|done]. destruct r as [[]|]; naive_solver.
  - simplify_option_eq; destruct_and?; subst; try done. eapply ch_guard; try done; [by left|by left|].
    unfold guard_ok. simpl. naive_solver.
  - simplify_option_eq; destruct_and?; subst; try done. destruct (fo_loop s) eqn:El; [|done].
    rewrite <- El. by eapply (ch_guard_accept s k (MkGuardTicket al c false w None)).
  - simplify_option_eq. destruct al; simpl in *.
    + assert (w ≠ WReturned ∧
        s' = set_guard k (MkGuardTicket true c true WReturned r) s) as [? ->]
        by (destruct w; naive_solver).
      by eapply (ch_guard_wait s k (MkGuardTicket true c true w r)).
    + apply bind_Some in H as ([w'|] & Hw & [= <-]).
      * by eapply (ch_guard_wait s k (MkGuardTicket false c true w r)).
      * apply active_Wait_panic in Hw as [-> ?]. by eapply ch_guard_panic.
  - simplify_option_eq; destruct_and?; subst; try done. destruct w; simplify_eq.
    eapply ch_guard; simpl; eauto; by unfold guard_ok.
  - simplify_option_eq; destruct_and?; subst; try done. destruct c; [|by destruct w].
    destruct w; simplify_eq;
    eapply ch_guard; simpl; eauto; by unfold guard_ok.
Qed.

Lemma step_change e s s' :
  fortress_step e s = Some s' → fo_panic s = false ∧ fortress_change s e s'.
Proof.
  unfold fortress_step. destruct (fo_panic s); [done|]. split; [done|]. revert H.
  destruct e.
  - intros [= <-]. constructor.
  - apply visit_step_change.
  - apply guard_step_change.
  - unfold loop_leave. destruct (fo_loop s) eqn:El; [|done]. intros. simplify_option_eq.
    by constructor.
  - unfold loop_leave. destruct (fo_loop s) as [|w] eqn:El; [done|].
    intros ([w'|] & Hw & [= <-])%bind_Some; [by eapply ch_loop_wait|].
    apply active_Wait_panic in Hw as [-> ?]. by constructor.
Qed.

(** ** The invariant *)

Lemma fortress_ok_new : fortress_ok newFortress.
Proof. by split. Qed.

Lemma active_Done_cases s :
  fo_active s ≠ 0 →
  (fo_active s = 1 ∧ active_Done s =
    MkFortress (fo_dying s) (fo_guestTickets s) 0 (wake_loop (fo_loop s))
      (fo_guests s) (wake_guard <$> fo_guards s) (fo_panic s)) ∨
  (1 < fo_active s ∧ active_Done s =
    MkFortress (fo_dying s) (fo_guestTickets s) (pred (fo_active s)) (fo_loop s)
      (fo_guests s) (fo_guards s) (fo_panic s)).
Proof.
  intros H. unfold active_Done. destruct (fo_active s) as [|[|n]]; [done|by left|].
  right. split; [lia|done].
Qed.

Lemma wake_guard_ok t : guard_ok t → guard_ok (wake_guard t).
Proof.
  unfold guard_ok. destruct t as [al c ac w r]. simpl.
  destruct ac, r as [[]|]; naive_solver.
Qed.

Lemma fortress_ok_guest g t' s :
  fortress_ok s → guest_ok t' →
  size (actives (<[g:=t']> (fo_guests s))) = size (actives (fo_guests s)) →
  fortress_ok (set_guest g t' s).
Proof.
  intros [Hc Hg Hk Hb Hlb Hlo] Ht Hs. split; simpl; try done; [by rewrite Hs|].
  intros g' t [[-> ->]|[? H]]%lookup_insert_Some; [done|by eapply Hg].
Qed.

Lemma fortress_ok_guard k t' s :
  fortress_ok s → guard_ok t' → (gd_wait t' = WBlocked → fo_active s ≠ 0) →
  fortress_ok (set_guard k t' s).
Proof.
  intros [Hc Hg Hk Hb Hlb Hlo] Ht Hw. split; simpl; try done.
  - intros k' t [[-> ->]|[? H]]%lookup_insert_Some; [done|by eapply Hk].
  - intros k' t [[-> ->]|[? H]]%lookup_insert_Some; [done|by eapply Hb].
Qed.

Lemma fortress_ok_done g t s :
  fortress_ok s → fo_guests s !! g = Some t → gt_stage t = VFinishing →
  fortress_ok (active_Done (set_guest g
    (MkGuestTicket (gt_cancelled t) VOver (gt_visited t) (gt_result t)) s)).
Proof.
  intros [Hc Hg Hk Hb Hlb Hlo] Ht Hst.
  set (t' := MkGuestTicket (gt_cancelled t) VOver (gt_visited t) (gt_result t)).
  assert (guest_ok t') as Hok.
  { specialize (Hg g t Ht). unfold guest_ok in *. by rewrite Hst in Hg. }
  assert (fo_active s = S (size (actives (<[g:=t']> (fo_guests s))))) as Hn.
  { rewrite Hc, actives_insert, (actives_lookup _ g t Ht).
    unfold visit_active at 1. by rewrite Hst. }
  assert (∀ g' t0, <[g:=t']> (fo_guests s) !! g' = Some t0 → guest_ok t0) as Hg'.
  { intros g' t0 [[-> <-]|[? H]]%lookup_insert_Some; [done|by eapply Hg]. }
  destruct (active_Done_cases (set_guest g t' s)) as [[H1 ->]|[H1 ->]];
    simpl in *; [lia| |]; split; simpl; try done; try lia.
  - intros k t0 (t1 & <- & H)%lookup_fmap_Some. by eapply wake_guard_ok, Hk.
  - intros k t0 (t1 & <- & H)%lookup_fmap_Some. simpl. by destruct (gd_wait t1).
  - by destruct (fo_loop s) as [|[]].
  - intros H. specialize (Hlo H). lia.
Qed.

Lemma set_guest_count g t t' s :
  fo_guests s !! g = Some t → visit_active t' = visit_active t →
  size (actives (<[g:=t']> (fo_guests s))) = size (actives (fo_guests s)).
Proof. intros H E. by rewrite actives_insert, E, <- actives_lookup. Qed.

Lemma change_ok e s s' : fortress_change s e s' → fortress_ok s → fortress_ok s'.
Proof.
  intros H Hs. pose proof Hs as [Hc Hg Hk Hb Hlb Hlo]. destruct H.
  - by split.
  - apply fortress_ok_guest; [done|by split|]. by rewrite actives_fresh.
  - apply fortress_ok_guest; [done|by eauto|by eapply set_guest_count].
  - split; simpl; try done.
    + assert (visit_active t = false) as Hv by (unfold visit_active; by rewrite H2).
      by rewrite Hc, actives_insert, (actives_lookup _ g t), Hv by done.
    + intros g' t' [[-> <-]|[? Ht']]%lookup_insert_Some; [by split|by eapply Hg].
    + by rewrite H0.
  - by apply fortress_ok_done.
  - apply fortress_ok_guard; [done| |done]. unfold guard_ok. simpl. auto.
  - apply fortress_ok_guard; [done|by eauto|]. rewrite H0. by eapply Hb.
  - split; simpl; try done.
    + intros k' t' [[-> <-]|[? Ht']]%lookup_insert_Some; [by unfold guard_ok|by eapply Hk].
    + intros k' t' [[-> <-]|[? Ht']]%lookup_insert_Some; [done|by eapply Hb].
  - specialize (Hk k t H). unfold guard_ok in Hk. rewrite H0 in Hk.
    apply fortress_ok_guard; [done| |]; simpl.
    + unfold guard_ok. simpl. destruct (gd_result t) as [[]|]; [|done|done].
      rewrite Hk in H1. destruct (gd_allowGuests t); [by destruct H1|done].
    + intros ->. destruct (gd_allowGuests t); [by destruct H1|].
      apply active_Wait_Some in H1. naive_solver.
  - by split.
  - split; simpl; done.
  - split; simpl; try done.
    + intros ?. apply active_Wait_Some in H0. destruct w'; naive_solver.
    + intros ?. apply active_Wait_Some in H0. destruct w'; naive_solver.
  - by split.
Qed.

Lemma reachable_ok s : fortress_reachable s → fortress_ok s.
Proof.
  induction 1 as [|e s s' _ IH H]; [apply fortress_ok_new|].
  apply step_change in H as [_ H]. by eapply change_ok.
Qed.

Lemma run_ok es s s' : fortress_ok s → fortress_run es s = Some s' → fortress_ok s'.
Proof.
  revert s. induction es as [|e es IH]; simpl; intros s Hs H; [by simplify_eq|].
  apply bind_Some in H as (s1 & H1 & H). apply step_change in H1 as [_ H1].
  eapply IH; [by eapply change_ok|done].
Qed.

(** ** A lockdown is exclusive *)

(** Guard [k] has asked for a lockdown, and the loop has closed the gate. *)
Definition locking (k : nat) (s : fortress) : Prop :=
  fo_guestTickets s = false ∧
  ∃ t, fo_guards s !! k = Some t ∧ gd_allowGuests t = false ∧ gd_accepted t = true ∧
    (gd_wait t = WWoken ∨ gd_wait t = WReturned → fo_active s = 0).

Lemma locking_set_guard k k' t' s :
  locking k s →
  (k' = k → gd_allowGuests t' = false ∧ gd_accepted t' = true ∧
    (gd_wait t' = WWoken ∨ gd_wait t' = WReturned → fo_active s = 0)) →
  locking k (set_guard k' t' s).
Proof.
  intros [Hg (t & Hk & Ht)] H. split; [done|]. simpl. destruct (decide (k' = k)) as [->|Hne].
  - exists t'. rewrite lookup_insert_eq. split; [done|]. by apply H.
  - exists t. by rewrite lookup_insert_ne.
Qed.

Lemma locking_change e k s s' :
  fortress_ok s → fortress_change s e s' → ¬ unlocks e s → locking k s → locking k s'.
Proof.
  intros Hok H Hu Hl. pose proof Hl as [Hg (t0 & Hk & Ha & Hac & Hw)].
  destruct H; try done; try (split; [done|]; by exists t0).
  - congruence.
  - assert (fo_active s ≠ 0) as Hn.
    { rewrite (ok_count s Hok), (actives_lookup _ g t) by done.
      unfold visit_active. by rewrite H0. }
    destruct (active_Done_cases (set_guest g
        (MkGuestTicket (gt_cancelled t) VOver (gt_visited t) (gt_result t)) s))
      as [[H1 ->]|[H1 ->]]; simpl in *; [done| |]; (split; [done|]); simpl.
    + exists (wake_guard t0). by rewrite lookup_fmap, Hk.
    + exists t0. split_and!; [done..|]. intros ?. specialize (Hw H2). lia.
  - apply locking_set_guard; [done|]. intros ->. congruence.
  - apply locking_set_guard; [done|]. intros ->. simplify_eq. rewrite H0, H1, H2. done.
  - simpl in Hu. split; simpl.
    + destruct (gd_allowGuests t) eqn:?; [|done]. destruct Hu. eauto.
    + exists t0. rewrite lookup_insert_ne by congruence. done.
  - apply locking_set_guard; [done|]. intros ->. simplify_eq. simpl. split_and!; [done..|].
    rewrite Ha in H1. apply active_Wait_Some in H1. naive_solver.
Qed.

Lemma locking_run es k s s' :
  fortress_ok s → fortress_run es s = Some s' → stays_locked es s → locking k s →
  locking k s'.
Proof.
  revert s. induction es as [|e es IH]; simpl; intros s Hs H Hl Hk; [by simplify_eq|].
  apply bind_Some in H as (s1 & H1 & H). destruct Hl as [Hu Hl]. specialize (Hl s1 H1).
  apply step_change in H1 as [_ H1].
  eapply IH; [by eapply change_ok|done|done|by eapply locking_change].
Qed.

(** C20: a successful lockdown is exclusive.  Take any moment at which the loop
    receives the ticket of a [Lockdown], and any continuation in which it
    receives no [Unlock]: once that call of [Lockdown] has returned nil, no
    visit is in progress, and none of its goroutines is left, however the
    goroutines are scheduled and whatever was cancelled or killed. *)
Theorem lockdown_exclusive s k t s1 es s2 t' :
  fortress_reachable s →
  fo_guards s !! k = Some t → gd_allowGuests t = false →
  fortress_step (OnGuard k GuardAccept) s = Some s1 →
  fortress_run es s1 = Some s2 → stays_locked es s1 →
  fo_guards s2 !! k = Some t' → gd_result t' = Some (Ok ()) →
  deserted s2.
Proof.
  intros Hr Hk Ha H1 H2 Hl Hk' Hres. apply reachable_ok in Hr.
  assert (locking k s1) as Hlk.
  { simpl in H1. unfold fortress_step in H1. destruct (fo_panic s); [done|].
    simpl in H1. rewrite Hk in H1. unfold loop_guard in H1. rewrite Ha in H1.
    simplify_option_eq. split; [done|]. simpl. eexists. rewrite lookup_insert_eq.
    split_and!; [done..|]. simpl. naive_solver. }
  apply step_change in H1 as [_ H1]. pose proof (change_ok _ _ _ H1 Hr) as Hok1.
  pose proof (run_ok _ _ _ Hok1 H2) as Hok2.
  pose proof (locking_run _ _ _ _ Hok1 H2 Hl Hlk) as [_ (t2 & Hk2 & _ & Hac & Hw)].
  simplify_eq. apply deserted_iff; [done|]. apply Hw. right.
  pose proof (ok_guards _ Hok2 _ _ Hk') as Hg. unfold guard_ok in Hg.
  by rewrite Hac, Hres in Hg.
Qed.

(** ** The end of the worker *)

Lemma stopped_change e s s' :
  fortress_ok s → fortress_change s e s' →
  fo_loop s = LoopLeaving WReturned → fo_loop s' = LoopLeaving WReturned.
Proof.
  intros Hok H Hl. destruct H; simpl; try congruence.
  - destruct (active_Done_cases (set_guest g
        (MkGuestTicket (gt_cancelled t) VOver (gt_visited t) (gt_result t)) s))
      as [[H1 ->]|[H1 ->]]; simpl; [| |done]; rewrite ?Hl; [|done].
    rewrite (ok_count s Hok), (actives_lookup _ g t) by done.
    unfold visit_active. by rewrite H0.
  - rewrite Hl in H. simplify_eq.
Qed.

Lemma stopped_run es s s' :
  fortress_ok s → fortress_run es s = Some s' →
  fo_loop s = LoopLeaving WReturned → fo_loop s' = LoopLeaving WReturned.
Proof.
  revert s. induction es as [|e es IH]; simpl; intros s Hs H Hl; [by simplify_eq|].
  apply bind_Some in H as (s1 & H1 & H). apply step_change in H1 as [_ H1].
  eapply IH; [by eapply change_ok|done|by eapply stopped_change].
Qed.

(** The worker leaves nothing behind.  Once its loop has returned, which is
    when [Wait] does, no visit is in progress and none will be again. *)
Theorem stopped_fortress_deserted s es s' :
  fortress_reachable s → fo_loop s = LoopLeaving WReturned →
  fortress_run es s = Some s' → deserted s'.
Proof.
  intros Hr%reachable_ok Hl H. pose proof (run_ok _ _ _ Hr H) as Hok.
  apply deserted_iff; [done|]. apply (ok_loop_over _ Hok).
  by rewrite (stopped_run _ _ _ Hr H Hl).
Qed.

(** ** A lockdown can complete *)

Lemma run_app es1 es2 s s1 :
  fortress_run es1 s = Some s1 → fortress_run (es1 ++ es2) s = fortress_run es2 s1.
Proof.
  revert s. induction es1 as [|e es IH]; simpl; intros s H; [by simplify_eq|].
  apply bind_Some in H as (s0 & -> & H). simpl. by apply IH.
Qed.

(** The ticket of a guard after some wake-ups. *)
Definition later (t t' : guardTicket) : Prop := t' = t ∨ t' = wake_guard t.

Lemma later_trans t1 t2 t3 : later t1 t2 → later t2 t3 → later t1 t3.
Proof.
  unfold later, wake_guard. destruct t1 as [????? ], t2, t3. simpl.
  intros [?|?] [?|?]; simplify_eq; auto. right. by destruct gd_wait.
Qed.

(** [s'] is [s] with some goroutines of visits further on. *)
Definition drained (n : nat) (s s' : fortress) : Prop :=
  fo_active s' = n ∧ fo_panic s' = false ∧
  ∀ k t, fo_guards s !! k = Some t → ∃ t', fo_guards s' !! k = Some t' ∧ later t t'.

Lemma finish_visit s g t n :
  fo_active s = S n → fo_panic s = false → fo_guests s !! g = Some t →
  gt_stage t = VFinishing →
  ∃ s', fortress_step (OnVisit g VisitFinished) s = Some s' ∧ drained n s s'.
Proof.
  intros Hn Hp Hg Hst. unfold fortress_step. rewrite Hp. simpl. rewrite Hg.
  rewrite option_guard_True by done. eexists. split; [done|].
  match goal with |- drained _ _ (active_Done ?s0) =>
    destruct (active_Done_cases s0) as [[H1 ->]|[H1 ->]] end; simpl in *; [lia| |];
    (split_and!; [simpl; lia|done|]); simpl; intros k t0 Hk.
  - exists (wake_guard t0). rewrite lookup_fmap, Hk. split; [done|by right].
  - exists t0. split; [done|by left].
Qed.

Lemma finish_active s g t n :
  fo_active s = S n → fo_panic s = false → fo_guests s !! g = Some t →
  visit_active t = true →
  ∃ es s', fortress_run es s = Some s' ∧ forallb internal es = true ∧ drained n s s'.
Proof.
  intros Hn Hp Hg Ha.
  assert (∀ es s1 t1, fortress_run es s = Some s1 → forallb internal es = true →
    fo_active s1 = S n → fo_panic s1 = false → fo_guards s1 = fo_guards s →
    fo_guests s1 !! g = Some t1 → gt_stage t1 = VFinishing →
    ∃ es s', fortress_run es s = Some s' ∧ forallb internal es = true ∧ drained n s s')
    as Hfin.
  { intros es s1 t1 Hrun Hint Hn1 Hp1 Hk1 Hg1 Hst1.
    destruct (finish_visit s1 g t1 n Hn1 Hp1 Hg1 Hst1) as (s' & Hs & Hd).
    exists (es ++ [OnVisit g VisitFinished]), s'. split_and!.
    - rewrite (run_app _ _ _ _ Hrun). simpl. by rewrite Hs.
    - rewrite forallb_app, Hint. done.
    - unfold drained in *. by rewrite <- Hk1. }
  assert (∀ e t', guestTicket_complete t e = Some t' →
    (e = VisitRefuse ∨ e = VisitEnter ∨ ∃ r, e = VisitReturn r) →
    fortress_step (OnVisit g e) s = Some (set_guest g t' s)) as Hstep.
  { intros e t' He Hk. unfold fortress_step. rewrite Hp. simpl.
    destruct Hk as [->|[->|[r ->]]]; unfold visit_step; rewrite Hg; by rewrite He. }
  destruct t as [c st v r]. destruct st; try done.
  - destruct c.
    + eapply (Hfin [OnVisit g VisitRefuse]
        (set_guest g (MkGuestTicket true VFinishing None (Some (Err ErrAborted))) s));
        try done; [|apply lookup_insert_eq|done].
      simpl. erewrite Hstep by eauto. done.
    + eapply (Hfin [OnVisit g VisitEnter; OnVisit g (VisitReturn (Ok ()))]
        (set_guest g (MkGuestTicket false VFinishing (Some (Ok ())) (Some (Ok ())))
          (set_guest g (MkGuestTicket false VVisiting None None) s)));
        try done; [|apply lookup_insert_eq|done].
      cbn [fortress_run]. erewrite Hstep by eauto. simpl.
      unfold fortress_step. simpl. by rewrite Hp, lookup_insert_eq.
  - eapply (Hfin [OnVisit g (VisitReturn (Ok ()))]
      (set_guest g (MkGuestTicket c VFinishing (Some (Ok ())) (Some (Ok ()))) s));
      try done; [|apply lookup_insert_eq|done].
    simpl. erewrite Hstep by eauto. done.
  - by eapply (Hfin [] s).
Qed.

Lemma active_visit_exists s n :
  fortress_ok s → fo_active s = S n → ∃ g t, fo_guests s !! g = Some t ∧ visit_active t = true.
Proof.
  intros Hok Hn. rewrite (ok_count s Hok) in Hn.
  assert (actives (fo_guests s) ≠ ∅) as (g & t & H)%map_choose.
  { intros E. rewrite E, map_size_empty in Hn. done. }
  apply map_lookup_filter_Some in H as [? ?]. eauto.
Qed.

Lemma drain s :
  fortress_ok s → fo_panic s = false →
  ∃ es s', fortress_run es s = Some s' ∧ forallb internal es = true ∧ drained 0 s s'.
Proof.
  remember (fo_active s) as n eqn:Hn. revert s Hn.
  induction n as [|n IH]; intros s Hn Hok Hp.
  { exists [], s. split_and!; [done|done|]. split_and!; [done|done|].
    intros k t H. exists t. split; [done|by left]. }
  destruct (active_visit_exists s n Hok (eq_sym Hn)) as (g & t & Hg & Ha).
  destruct (finish_active s g t n (eq_sym Hn) Hp Hg Ha) as (es1 & s1 & H1 & Hi1 & Hn1 & Hp1 & Hk1).
  destruct (IH s1 (eq_sym Hn1) (run_ok _ _ _ Hok H1) Hp1) as (es2 & s2 & H2 & Hi2 & Hn2 & Hp2 & Hk2).
  exists (es1 ++ es2), s2. split_and!; [by rewrite (run_app _ _ _ _ H1)| |].
  { by rewrite forallb_app, Hi1, Hi2. }
  split_and!; [done|done|]. intros k t0 H.
  destruct (Hk1 k t0 H) as (t1 & ? & ?). destruct (Hk2 k t1) as (t2 & ? & ?); [done|].
  exists t2. split; [done|by eapply later_trans].
Qed.

(** The steps of one guard's goroutines once no visit is left. *)
Lemma guard_steps s k t :
  fo_active s = 0 → fo_panic s = false → fo_guards s !! k = Some t →
  gd_accepted t = true → gd_result t = None → gd_wait t ≠ WBlocked →
  ∃ es s' t', fortress_run es s = Some s' ∧ forallb internal es = true ∧
    fo_panic s' = false ∧ fo_guards s' !! k = Some t' ∧ gd_result t' = Some (Ok ()).
Proof.
  intros Hn Hp Hk Hac Hr Hw. destruct t as [al c ac w r]. simpl in *. subst ac r.
  set (t1 := MkGuardTicket al c true WReturned None).
  set (t2 := MkGuardTicket al c true WReturned (Some (Ok ()))).
  assert (∀ s1, fo_guards s1 !! k = Some t1 → fo_panic s1 = false →
    fortress_step (OnGuard k GuardDone) s1 = Some (set_guard k t2 s1)) as Hdone.
  { intros s1 H1 Hp1. unfold fortress_step. rewrite Hp1. simpl. by rewrite H1. }
  destruct (decide (w = WReturned)) as [->|Hne].
  - exists [OnGuard k GuardDone], (set_guard k t2 s), t2. split_and!; try done.
    + cbn [fortress_run]. by rewrite Hdone.
    + apply lookup_insert_eq.
  - assert (fortress_step (OnGuard k GuardWait) s = Some (set_guard k t1 s)) as Hwait.
    { unfold fortress_step. rewrite Hp. simpl. rewrite Hk. unfold guardTicket_wait. simpl.
      unfold active_Wait. rewrite Hn. by destruct al, w. }
    exists [OnGuard k GuardWait; OnGuard k GuardDone], (set_guard k t2 (set_guard k t1 s)), t2.
    split_and!; try done.
    + cbn [fortress_run]. rewrite Hwait. simpl.
      rewrite Hdone; [done|apply lookup_insert_eq|done].
    + apply lookup_insert_eq.
Qed.

(** A guard is never stuck.  Whenever the loop has the ticket of a call of
    [Unlock] or [Lockdown] that has not returned, the goroutines of the
    fortress can go on, without any new call, ticket or cancellation and with
    nothing needed from the visits but that they return, until the call
    returns nil. *)
Theorem guard_call_can_complete s k t :
  fortress_reachable s → fo_panic s = false →
  fo_guards s !! k = Some t → gd_accepted t = true → gd_result t = None →
  ∃ es s' t', fortress_run es s = Some s' ∧ forallb internal es = true ∧
    fo_panic s' = false ∧ fo_guards s' !! k = Some t' ∧ gd_result t' = Some (Ok ()).
Proof.
  intros Hr%reachable_ok Hp Hk Hac Hres.
  destruct (drain s Hr Hp) as (es1 & s1 & H1 & Hi1 & Hn1 & Hp1 & Hk1).
  destruct (Hk1 k t Hk) as (t1 & Hk' & Hl).
  pose proof (run_ok _ _ _ Hr H1) as Hok1.
  destruct (guard_steps s1 k t1) as (es2 & s2 & t2 & H2 & Hi2 & ?); try done.
  - by destruct Hl as [-> | ->].
  - by destruct Hl as [-> | ->].
  - intros Hb. by apply (ok_blocked _ Hok1 k t1).
  - exists (es1 ++ es2), s2, t2. rewrite (run_app _ _ _ _ H1), forallb_app, Hi1, Hi2.
    naive_solver.
Qed.

(** ** Panics *)

(** What holds while the guard is patient: it has one call outstanding at most,
    and an outstanding lockdown keeps the gate closed. *)
Record at_peace (s : fortress) : Prop := {
  pe_ok : fortress_ok s;
  pe_panic : fo_panic s = false;
  pe_cancel : ∀ k t, fo_guards s !! k = Some t → gd_cancelled t = false;
  pe_one : ∀ k k' t t', fo_guards s !! k = Some t → fo_guards s !! k' = Some t' →
    gd_result t = None → gd_result t' = None → k = k';
  pe_gate : ∀ k t, fo_guards s !! k = Some t → gd_accepted t = true → gd_result t = None →
    fo_guestTickets s = gd_allowGuests t;
  pe_wait : ∀ k t, fo_guards s !! k = Some t → gd_wait t = WBlocked ∨ gd_wait t = WWoken →
    gd_allowGuests t = false;
  pe_woken : ∀ k t, fo_guards s !! k = Some t → gd_wait t = WWoken → fo_active s = 0;
}.

(** A goroutine that is still in [active.Wait()] belongs to a call that has not
    returned. *)
Lemma waiting_unanswered s k t :
  at_peace s → fo_guards s !! k = Some t → gd_wait t = WBlocked ∨ gd_wait t = WWoken →
  gd_accepted t = true ∧ gd_result t = None.
Proof.
  intros Hs Hk Hw. pose proof (ok_guards _ (pe_ok _ Hs) _ _ Hk) as H.
  pose proof (pe_cancel _ Hs _ _ Hk). unfold guard_ok in H.
  destruct (gd_accepted t).
  2: { destruct H as [H _]. rewrite H in Hw. by destruct Hw. }
  split; [done|]. destruct (gd_result t) as [[|e]|]; [|destruct H; congruence|done].
  rewrite H in Hw. by destruct Hw.
Qed.

Lemma at_peace_guest g t' s :
  at_peace s → fortress_ok (set_guest g t' s) → at_peace (set_guest g t' s).
Proof. intros [] ?. by split. Qed.

(** A change of the only ticket that may change. *)
Lemma at_peace_guard k t t' s :
  at_peace s → fo_guards s !! k = Some t → fortress_ok (set_guard k t' s) →
  gd_allowGuests t' = gd_allowGuests t → gd_accepted t' = gd_accepted t →
  gd_cancelled t' = false → (gd_result t = None ∨ gd_result t' = gd_result t) →
  (gd_wait t' = gd_wait t ∨ gd_wait t' = WReturned ∨
    gd_wait t' = WBlocked ∧ gd_allowGuests t = false) →
  at_peace (set_guard k t' s).
Proof.
  intros [Hok Hp Hc Hone Hgate Hwait Hwok] Hk Hok' Ha Hac Hcan Hres Hw.
  assert (gd_result t' = None → gd_result t = None) as Hres'.
  { intros E. destruct Hres as [?|Er]; [done|]. congruence. }
  split; simpl; try done.
  - intros k' t0 [[-> <-]|[? H]]%lookup_insert_Some; [done|by eapply Hc].
  - intros k1 k2 t1 t2 [[-> <-]|[? H1]]%lookup_insert_Some
      [[-> <-]|[? H2]]%lookup_insert_Some ??; [done|..|by eauto]; eapply Hone; eauto.
  - intros k' t0 [[-> <-]|[? H]]%lookup_insert_Some; [|by eapply Hgate].
    intros ? ?. rewrite Ha. eapply Hgate; [done|congruence|auto].
  - intros k' t0 [[-> <-]|[? H]]%lookup_insert_Some; [|by eapply Hwait].
    intros ?. rewrite Ha. destruct Hw as [E|[E|[E ?]]]; [|naive_solver congruence|done].
    eapply Hwait; [done|]. by rewrite <- E.
  - intros k' t0 [[-> <-]|[? H]]%lookup_insert_Some; [|by eapply Hwok].
    intros ?. eapply Hwok; [done|]. destruct Hw as [E|[E|[E ?]]]; congruence.
Qed.

Lemma at_peace_wake s l gs :
  at_peace s → fortress_ok (MkFortress (fo_dying s) (fo_guestTickets s) 0 l gs
    (wake_guard <$> fo_guards s) (fo_panic s)) →
  at_peace (MkFortress (fo_dying s) (fo_guestTickets s) 0 l gs
    (wake_guard <$> fo_guards s) (fo_panic s)).
Proof.
  intros [Hok Hp Hc Hone Hgate Hwait Hwok] Hok'. split; simpl; try done.
  - intros k t' (t & <- & H)%lookup_fmap_Some. apply (Hc k t H).
  - intros k1 k2 t1' t2' (t1 & <- & H1)%lookup_fmap_Some (t2 & <- & H2)%lookup_fmap_Some.
    apply (Hone k1 k2 t1 t2 H1 H2).
  - intros k t' (t & <- & H)%lookup_fmap_Some. apply (Hgate k t H).
  - intros k t' (t & <- & H)%lookup_fmap_Some. simpl. intros Hw. apply (Hwait k t H).
    destruct (gd_wait t); naive_solver.
Qed.

(** A new ticket, while all others are answered. *)
Lemma at_peace_only k allow accepted open s :
  at_peace s →
  (∀ k' t', k' ≠ k → fo_guards s !! k' = Some t' → gd_result t' ≠ None) →
  (accepted = true → open = allow) →
  let s' := MkFortress (fo_dying s) open (fo_active s) (fo_loop s) (fo_guests s)
    (<[k := MkGuardTicket allow false accepted WCall None]> (fo_guards s)) (fo_panic s) in
  fortress_ok s' → at_peace s'.
Proof.
  intros [Hok Hp Hc Hone Hgate Hwait Hwok] Hother Hopen s' Hok'. split; simpl; try done.
  - intros k' t' [[-> <-]|[? Ht']]%lookup_insert_Some; [done|by eapply Hc].
  - intros k1 k2 t1 t2 [[-> <-]|[? H4]]%lookup_insert_Some
      [[-> <-]|[? H5]]%lookup_insert_Some ??; [done|..|by eauto]; exfalso;
      by eapply Hother.
  - intros k' t' [[-> <-]|[? Ht']]%lookup_insert_Some; [by auto|].
    intros ? Hr. by destruct (Hother k' t').
  - intros k' t' [[-> <-]|[? Ht']]%lookup_insert_Some; [naive_solver|by eapply Hwait].
  - intros k' t' [[-> <-]|[? Ht']]%lookup_insert_Some; [done|by eapply Hwok].
Qed.

Lemma at_peace_change e s s' :
  fortress_change s e s' → patient e s → at_peace s → at_peace s'.
Proof.
  intros H Hpat Hs. pose proof (change_ok _ _ _ H (pe_ok _ Hs)) as Hok.
  pose proof Hs as [Hok0 Hp Hc Hone Hgate Hwait Hwok]. destruct H.
  - by split.
  - by apply at_peace_guest.
  - by apply at_peace_guest.
  - split; simpl; try done. intros k t0 Hk Hw. exfalso.
    destruct (waiting_unanswered s k t0 Hs Hk) as [Ha Hr]; [by right|].
    specialize (Hgate _ _ Hk Ha Hr). specialize (Hwait _ _ Hk (or_intror Hw)). congruence.
  - match goal with |- at_peace (active_Done ?s0) =>
      destruct (active_Done_cases s0) as [[H1 E]|[H1 E]] end; simpl in *.
    + rewrite (ok_count s Hok0), (actives_lookup _ g t) by done.
      unfold visit_active. by rewrite H0.
    + rewrite E in *. by apply at_peace_wake.
    + rewrite E in *. split; simpl; try done. intros k t0 Hk Hw.
      specialize (Hwok _ _ Hk Hw). lia.
  - apply (at_peace_only k); try done. intros k' t' _ Hk'. by apply (Hpat k').
  - eapply at_peace_guard; try done; [|by left].
    destruct H3 as [->| ->]; [by eapply Hc|done].
  - rewrite (Hc _ _ H) in *. apply (at_peace_only k); try done.
    intros k' t' Hne Hk' Hr. destruct Hne. by eapply Hone.
  - eapply at_peace_guard; simpl; try done; [by eapply Hc|by right|].
    destruct (gd_allowGuests t); [naive_solver|].
    apply active_Wait_Some in H1. naive_solver.
  - by rewrite (Hwok _ _ H H1) in H2.
  - by split.
  - by split.
  - by rewrite (ok_loop_over _ Hok0) in H0 by by rewrite H.
Qed.

(** A patient guard is safe.  As long as the guard makes one call after the
    other and cancels none, the program does not panic, whatever the guests
    do: the wait group is not used again before those who wait for it are
    through. *)
Theorem patient_guard_never_panics s : patiently_reachable s → fo_panic s = false.
Proof.
  intros H. apply pe_panic. induction H as [|e s s' _ IH Hpat H].
  { by split. }
  apply step_change in H as [_ H]. by eapply at_peace_change.
Qed.

(** An impatient one is not.  A guard that makes one call after the other,
    but cancels a [Lockdown] while a visit is in progress and unlocks the
    fortress again, can make the program panic: the goroutine of the cancelled
    call still waits for the visits, is woken up when the visit ends, and
    finds the wait group in use again by the next visit. *)
Theorem cancelled_lockdown_can_panic :
  ∃ es s, fortress_run es newFortress = Some s ∧ fo_panic s = true ∧
    (gd_result <$> fo_guards s !! 0) = Some (Some (Ok ())) ∧
    (gd_result <$> fo_guards s !! 1) = Some (Some (Err ErrAborted)) ∧
    (gd_result <$> fo_guards s !! 2) = Some (Some (Ok ())).
Proof.
  exists [OnGuard 0 (GuardCall true); OnGuard 0 GuardAccept; OnGuard 0 GuardWait;
    OnGuard 0 GuardDone; OnVisit 0 VisitCall; OnVisit 0 VisitAccept; OnVisit 0 VisitEnter;
    OnGuard 1 (GuardCall false); OnGuard 1 GuardAccept; OnGuard 1 GuardWait;
    OnGuard 1 GuardCancel; OnGuard 1 GuardAbort;
    OnGuard 2 (GuardCall true); OnGuard 2 GuardAccept; OnGuard 2 GuardWait;
    OnGuard 2 GuardDone; OnVisit 1 VisitCall;
    OnVisit 0 (VisitReturn (Ok ())); OnVisit 0 VisitFinished; OnVisit 1 VisitAccept;
    OnGuard 1 GuardWait].
  eexists. split; [vm_compute; reflexivity|]. by vm_compute.
Qed.
