(* ===== verification/Occupy.v ===== *)
(** * Occupying a fortress

    internal/worker/fortress/occupy.go: a worker that is started inside a fortress
    and is a guest there until it ends.  [Occupy] starts a goroutine that visits the
    fortress with a function, the task, that starts the worker; it hands the worker
    to its caller, or an error.  The goroutines of the caller, of the visit and of
    the worker interleave with those of the fortress in any order. *)

From S2P Require Import Prelude Fortress FortressFacts.

(** ** State *)

(** The caller: at its [select], where [finished] was received or not, or returned
    with the worker, which is [Ok ()], or an error. *)
Inductive occupy_point : Type :=
| OcSelect (finished : bool)
| OcReturned (r : result ()).

(** The task: not run, in [start], at the [select] with the worker, at the one with
    the error, in [worker.Wait], about to return, over. *)
Inductive task_point : Type :=
| TkIdle
| TkStarting
| TkStarted
| TkFailed (e : error)
| TkWaiting
| TkDone
| TkOver.

Inductive worker_point : Type :=
| WkNone
| WkRunning (killed : bool)
| WkEnded.

(** [oc_finished] is what is in the channel of that name, and [oc_sent] whether
    something was put there. *)
Record occupation : Type := MkOccupation {
  oc_fortress : fortress;
  oc_main : occupy_point;
  oc_task : task_point;
  oc_worker : worker_point;
  oc_finished : option (result ());
  oc_sent : bool;
}.

Inductive occupy_event : Type :=
| OvFortress (e : event)
| OvStart (r : result ())
| OvSendStarted
| OvDropStarted
| OvSendFailed
| OvDropFailed
| OvKillWorker
| OvWorkerEnds
| OvWait
| OvTaskReturns
| OvFinished
| OvAborted
| OvTakeFinished.

Section occupy.

(** The number of the visit, whose context is the caller's. *)
Context (g : nat).

(** [Occupy], after the call of [Visit] in its goroutine. *)
Definition Occupy (s : fortress) : occupation :=
  MkOccupation s (OcSelect false) TkIdle WkNone None false.

Definition ctx_done (o : occupation) : bool :=
  match fo_guests (oc_fortress o) !! g with Some t => gt_cancelled t | None => false end.

(** What the fortress does; the call and the return of this visit are the
    goroutine's and the task's. *)
Definition occupied_event (e : event) : bool :=
  match e with
  | OnVisit g' VisitCall | OnVisit g' (VisitReturn _) => negb (bool_decide (g' = g))
  | _ => true
  end.
Definition entered (e : event) : bool :=
  match e with OnVisit g' VisitEnter => bool_decide (g' = g) | _ => false end.

Definition occupy_step (ev : occupy_event) (o : occupation) : option occupation :=
  let (s, main, task, worker, finished, sent) := o in
  match ev, task, main with
  | OvFortress e, _, _ =>
      guard (occupied_event e = true);;
      s' ← fortress_step e s;
      Some (MkOccupation s' main (if entered e then TkStarting else task) worker finished sent)
  | OvStart (Ok _), TkStarting, _ =>
      Some (MkOccupation s main TkStarted (WkRunning false) finished sent)
  | OvStart (Err e), TkStarting, _ => Some (MkOccupation s main (TkFailed e) worker finished sent)
  | OvSendStarted, TkStarted, OcSelect _ =>
      Some (MkOccupation s (OcReturned (Ok ())) TkWaiting worker finished sent)
  | OvDropStarted, TkStarted, _ =>
      guard (ctx_done o = true);;
      Some (MkOccupation s main TkWaiting
        (match worker with WkRunning _ => WkRunning true | _ => worker end) finished sent)
  | OvSendFailed, TkFailed e, OcSelect _ =>
      Some (MkOccupation s (OcReturned (Err e)) TkDone worker finished sent)
  | OvDropFailed, TkFailed _, _ =>
      guard (ctx_done o = true);; Some (MkOccupation s main TkDone worker finished sent)
  | OvKillWorker, _, OcReturned (Ok _) =>
      Some (MkOccupation s main task
        (match worker with WkRunning _ => WkRunning true | _ => worker end) finished sent)
  | OvWorkerEnds, _, _ =>
      match worker with
      | WkRunning _ => Some (MkOccupation s main task WkEnded finished sent)
      | _ => None
      end
  | OvWait, TkWaiting, _ =>
      match worker with
      | WkEnded => Some (MkOccupation s main TkDone worker finished sent)
      | _ => None
      end
  | OvTaskReturns, TkDone, _ =>
      s' ← fortress_step (OnVisit g (VisitReturn (Ok ()))) s;
      Some (MkOccupation s' main TkOver worker finished sent)
  | OvFinished, _, _ =>
      guard (sent = false);;
      t ← fo_guests s !! g;
      r ← gt_result t;
      Some (MkOccupation s main task worker (Some r) true)
  | OvAborted, _, OcSelect _ =>
      guard (ctx_done o = true);;
      Some (MkOccupation s (OcReturned (Err ErrAborted)) task worker finished sent)
  | OvTakeFinished, _, OcSelect _ =>
      r ← finished;
      Some (MkOccupation s (match r with Ok _ => OcSelect true | Err e => OcReturned (Err e) end)
        task worker None sent)
  | _, _, _ => None
  end.

(** The runs of a call. *)
Inductive occupying : occupation → Prop :=
| occupying_start s s' :
    fortress_reachable s → fortress_step (OnVisit g VisitCall) s = Some s' → occupying (Occupy s')
| occupying_step ev o o' : occupying o → occupy_step ev o = Some o' → occupying o'.

(** ** The ticket of the visit *)

Definition ticket_step (e : visit_event) (t t' : guestTicket) : Prop :=
  match e with
  | VisitCall => False
  | VisitCancel => t' = cancel_guest t
  | VisitShutdown | VisitAbort =>
      gt_stage t = VSend ∧ ∃ err, t' = MkGuestTicket (gt_cancelled t) VOver None (Some (Err err))
  | VisitAccept => gt_stage t = VSend ∧ t' = MkGuestTicket (gt_cancelled t) VStarted None None
  | VisitRefuse =>
      gt_stage t = VStarted ∧ ∃ err, t' = MkGuestTicket (gt_cancelled t) VFinishing None (Some (Err err))
  | VisitEnter => gt_stage t = VStarted ∧ t' = MkGuestTicket (gt_cancelled t) VVisiting None None
  | VisitReturn r =>
      gt_stage t = VVisiting ∧ t' = MkGuestTicket (gt_cancelled t) VFinishing (Some r) (Some r)
  | VisitFinished =>
      gt_stage t = VFinishing ∧ t' = MkGuestTicket (gt_cancelled t) VOver (gt_visited t) (gt_result t)
  end.

Lemma active_Done_guests s : fo_guests (active_Done s) = fo_guests s.
Proof. unfold active_Done. by repeat case_match. Qed.

Lemma visit_step_ticket g' e s s' t :
  visit_step g' e s = Some s' → fo_guests s !! g = Some t →
  ∃ t', fo_guests s' !! g = Some t' ∧ (if decide (g' = g) then ticket_step e t t' else t' = t).
Proof.
  intros H Ht. case_decide as Eg.
  - subst g'. unfold visit_step in H. rewrite Ht in H. destruct t as [c st v r].
    unfold fortress_Visit, guestTicket_complete, loop_guest in H.
    destruct e; try done; simpl in H; destruct st; simplify_option_eq; destruct_and?;
      rewrite ?active_Done_guests; simpl; rewrite lookup_insert_eq; eexists; (split; [done|]); naive_solver.
  - exists t. split; [|done]. apply visit_step_change in H.
    inversion H; subst; rewrite ?active_Done_guests; simpl; by rewrite lookup_insert_ne.
Qed.

Lemma fortress_ticket e s s' t :
  fortress_step e s = Some s' → fo_guests s !! g = Some t →
  ∃ t', fo_guests s' !! g = Some t' ∧
    match e with
    | OnVisit g' e' => if decide (g' = g) then ticket_step e' t t' else t' = t
    | _ => t' = t
    end.
Proof.
  intros H Ht. unfold fortress_step in H. destruct (fo_panic s) eqn:Ep; [done|].
  assert (fo_guests s' = fo_guests s → ∃ t', fo_guests s' !! g = Some t' ∧ t' = t) as Hsame.
  { intros ->. eauto. }
  destruct e as [|g' e|k e| |]; [|by eapply visit_step_ticket|..].
  - injection H as <-. by apply Hsame.
  - apply Hsame. apply guard_step_change in H. by inversion H.
  - apply Hsame. unfold loop_leave in H. destruct (fo_loop s); by simplify_option_eq.
  - apply Hsame. unfold loop_leave in H. destruct (fo_loop s); simplify_option_eq; try done.
    by repeat case_match.
Qed.

(** ** The invariant *)

Definition returned (o : occupation) : bool := match oc_main o with OcReturned _ => true | _ => false end.
Definition runs (k : worker_point) : bool := match k with WkRunning _ => true | _ => false end.

(** Where the task is, with the visit and the worker. *)
Definition task_fits (o : occupation) (t : guestTicket) : Prop :=
  let visiting := gt_stage t = VVisiting ∧ gt_result t = None in
  match oc_task o with
  | TkIdle =>
      oc_worker o = WkNone ∧
      match gt_stage t with
      | VSend | VStarted => gt_result t = None
      | VVisiting => False
      | VFinishing | VOver => ∃ e, gt_result t = Some (Err e)
      end
  | TkStarting => visiting ∧ oc_worker o = WkNone
  | TkStarted => visiting ∧ oc_worker o ≠ WkNone
  | TkFailed _ => visiting ∧ oc_worker o = WkNone
  | TkWaiting =>
      visiting ∧ oc_worker o ≠ WkNone ∧
      (oc_main o = OcReturned (Ok ()) ∨ oc_worker o ≠ WkRunning false ∧ gt_cancelled t = true)
  | TkDone => visiting ∧ runs (oc_worker o) = false ∧ (returned o = true ∨ gt_cancelled t = true)
  | TkOver =>
      (gt_stage t = VFinishing ∨ gt_stage t = VOver) ∧ gt_result t = Some (Ok ()) ∧
      runs (oc_worker o) = false ∧ (returned o = true ∨ gt_cancelled t = true)
  end.

(** Where the caller is. *)
Definition main_fits (o : occupation) (t : guestTicket) : Prop :=
  match oc_main o with
  | OcSelect taken =>
      if taken then gt_result t = Some (Ok ()) else oc_sent o = true → is_Some (oc_finished o)
  | OcReturned (Ok _) =>
      match oc_task o with TkWaiting | TkDone | TkOver => True | _ => False end
  | OcReturned (Err _) =>
      gt_cancelled t = true ∨ oc_task o = TkDone ∨ oc_task o = TkOver ∨
      ∃ e, gt_result t = Some (Err e)
  end.

Definition occupation_ok (o : occupation) : Prop :=
  ∃ t, fo_guests (oc_fortress o) !! g = Some t ∧ task_fits o t ∧ main_fits o t ∧
    (∀ r, oc_finished o = Some r → gt_result t = Some r).

(** A step of the fortress; [entered] starts the task. *)
Lemma fortress_occupation_ok e o s' :
  occupied_event e = true → fortress_step e (oc_fortress o) = Some s' → occupation_ok o →
  occupation_ok (MkOccupation s' (oc_main o) (if entered e then TkStarting else oc_task o)
    (oc_worker o) (oc_finished o) (oc_sent o)).
Proof.
  intros He H (t & Ht & Htask & Hmain & Hfin). destruct (fortress_ticket e _ s' t H Ht) as (t' & Ht' & Hstep).
  assert ((entered e = false ∧ t' = t) ∨ ∃ e', e = OnVisit g e' ∧ ticket_step e' t t') as [[Ee ->]|(e' & -> & Hs)].
  { destruct e as [|g' e'|k e'| |]; try (by left). case_decide as Eg; [right; subst; by exists e'|left].
    split; [|done]. destruct e'; try done. by apply bool_decide_eq_false. }
  { rewrite Ee. exists t. split_and!; done. }
  destruct o as [s main task worker finished sent], t as [c st v r].
  exists t'. unfold task_fits, main_fits in *. simpl in *. split; [done|].
  rewrite bool_decide_true in He by done.
  destruct e'; simpl in Hs; try done;
    repeat match goal with Hx : _ ∧ _ |- _ => destruct Hx | Hx : ∃ _, _ |- _ => destruct Hx end; subst; simpl;
    rewrite ?bool_decide_true by done.
  all: destruct task; simpl in *; destruct_and?; subst; try done.
  all: split_and!; try done; clear H He Hstep Ht Ht'; unfold returned in *; simpl in *;
    destruct main as [[]|[[]|]]; simpl in *; naive_solver.
Qed.

Lemma task_returns_ok o s' :
  oc_task o = TkDone → fortress_step (OnVisit g (VisitReturn (Ok ()))) (oc_fortress o) = Some s' →
  occupation_ok o →
  occupation_ok (MkOccupation s' (oc_main o) TkOver (oc_worker o) (oc_finished o) (oc_sent o)).
Proof.
  intros Ek H (t & Ht & Htask & Hmain & Hfin). destruct (fortress_ticket _ _ s' t H Ht) as (t' & Ht' & Hs).
  rewrite decide_True in Hs by done. destruct Hs as [_ ->].
  unfold task_fits, main_fits in *. rewrite Ek in *. destruct Htask as ([_ Er] & Hk & Hret).
  eexists. split; [done|]. unfold task_fits, main_fits. simpl. split_and!; [by left|done..| |].
  - destruct (oc_main o) as [[]|[[]|]]; naive_solver.
  - intros r Hr. apply Hfin in Hr. congruence.
Qed.

(** Steps in which the fortress does nothing. *)
Lemma same_fortress_ok o main task worker finished sent :
  let o' := MkOccupation (oc_fortress o) main task worker finished sent in
  (∀ t, fo_guests (oc_fortress o) !! g = Some t → task_fits o t → main_fits o t →
    (∀ r, oc_finished o = Some r → gt_result t = Some r) →
    task_fits o' t ∧ main_fits o' t ∧ ∀ r, finished = Some r → gt_result t = Some r) →
  occupation_ok o → occupation_ok o'.
Proof. intros o' H (t & Ht & H1 & H2 & H3). exists t. destruct (H t); auto. Qed.

Lemma ctx_done_ticket o t :
  ctx_done o = true → fo_guests (oc_fortress o) !! g = Some t → gt_cancelled t = true.
Proof. unfold ctx_done. by intros H E; rewrite E in H. Qed.

Lemma occupy_step_ok ev o o' : occupy_step ev o = Some o' → occupation_ok o → occupation_ok o'.
Proof.
  intros H Hok. destruct ev as [e| | | | | | | | |  | | |];
    [destruct o; simpl in H; simplify_option_eq; by eapply fortress_occupation_ok in Hok| | | | | | | | |
     destruct o as [? ? []]; simplify_option_eq; by eapply task_returns_ok in Hok| | |].
  all: destruct o as [s main task worker finished sent]; unfold occupy_step in H.
  all: revert Hok.
  - destruct r as [[]|], task; simplify_eq; apply same_fortress_ok; intros [c st v res];
      unfold task_fits, main_fits; simpl; destruct main as [[]|[[]|]]; naive_solver.
  - destruct task, main; simplify_eq. apply same_fortress_ok; intros [c st v res];
      unfold task_fits, main_fits; simpl. naive_solver.
  - destruct task; try done. simplify_option_eq. apply same_fortress_ok. intros [c st v res] Ht.
    apply (ctx_done_ticket _ _ ltac:(done)) in Ht. unfold task_fits, main_fits. simpl in *. subst c.
    destruct worker, main as [[]|[[]|]]; naive_solver.
  - destruct task, main; simplify_eq. apply same_fortress_ok. intros [c st v res].
    unfold task_fits, main_fits, returned; simpl. intros _ [? ->]. naive_solver.
  - destruct task; try done. simplify_option_eq. apply same_fortress_ok. intros [c st v res] Ht.
    apply (ctx_done_ticket _ _ ltac:(done)) in Ht. unfold task_fits, main_fits, returned. simpl in *. subst c.
    intros [? ->]. destruct main as [[]|[[]|]]; naive_solver.
  - destruct task, main as [[]|[[]|]]; simplify_eq; apply same_fortress_ok; intros [c st v res] _;
      unfold task_fits, main_fits, returned; simpl; destruct worker; naive_solver.
  - destruct task, worker; simplify_eq; apply same_fortress_ok; intros [c st v res] _;
      unfold task_fits, main_fits, returned; simpl; destruct main as [[]|[[]|]]; naive_solver.
  - destruct task, worker; simplify_eq. apply same_fortress_ok. intros [c st v res] _.
    unfold task_fits, main_fits, returned. simpl. destruct main as [[]|[[]|]]; naive_solver.
  - intros Hok. destruct (fo_guests s !! g) as [t|] eqn:Ht; [|by destruct task; simplify_option_eq].
    assert (sent = false ∧ ∃ r, gt_result t = Some r ∧ o' = MkOccupation s main task worker (Some r) true)
      as (-> & r & Er & ->) by (destruct task; simplify_option_eq; eauto).
    revert Hok. apply same_fortress_ok. simpl. intros t' Ht'. simplify_eq. unfold task_fits, main_fits; simpl.
    intros ? Hmain _. split_and!; [done| |naive_solver]. destruct main as [[]|[[]|]]; naive_solver.
  - intros Hok. assert (ctx_done (MkOccupation s main task worker finished sent) = true ∧
      o' = MkOccupation s (OcReturned (Err ErrAborted)) task worker finished sent) as [Hc ->]
      by (destruct task, main; by simplify_option_eq).
    revert Hok. apply same_fortress_ok. intros t Ht. apply (ctx_done_ticket _ _ Hc) in Ht.
    unfold task_fits, main_fits, returned. simpl. rewrite Ht. destruct task; naive_solver.
  - intros Hok. assert (∃ r taken, finished = Some r ∧ main = OcSelect taken ∧
      o' = MkOccupation s (match r with Ok _ => OcSelect true | Err e => OcReturned (Err e) end) task
        worker None sent) as (r & taken & -> & -> & ->)
      by (destruct task, main; simplify_option_eq; eauto).
    revert Hok. apply same_fortress_ok. intros t Ht. unfold task_fits, main_fits, returned. simpl.
    intros Htask _ Hf. specialize (Hf r eq_refl). rewrite Hf in *.
    destruct r as [[]|e]; (split_and!; [|naive_solver|done]); destruct task; naive_solver.
Qed.

Lemma occupying_ok o : occupying o → occupation_ok o.
Proof.
  induction 1 as [s s' _ H|ev o o' _ IH H]; [|by eapply occupy_step_ok].
  unfold fortress_step in H. destruct (fo_panic s); [done|]. simpl in H.
  destruct (fo_guests s !! g); [done|]. simplify_eq. eexists. simpl. rewrite lookup_insert_eq.
  split; [done|]. unfold task_fits, main_fits. by simpl.
Qed.

(** C21: an occupant is a guest.  In every interleaving of a call of [Occupy] with the
    fortress: as long as the worker runs, its visit is in progress, so that a guard
    that has locked the fortress down does not have it inside; when the call has
    failed, the worker does not run, or was killed, or will be by a step of the
    visit's goroutine that waits for no one; and a call whose visit is over is not
    stuck. *)
Theorem occupant_is_guest o :
  occupying o →
  (runs (oc_worker o) = true → ¬ deserted (oc_fortress o)) ∧
  (∀ e, oc_main o = OcReturned (Err e) → oc_worker o = WkRunning false →
     ∃ o', occupy_step OvDropStarted o = Some o' ∧ oc_worker o' = WkRunning true) ∧
  (∀ taken t, oc_main o = OcSelect taken → fo_guests (oc_fortress o) !! g = Some t →
     is_Some (gt_result t) →
     ∃ ev, ev ∈ [OvFinished; OvTakeFinished; OvAborted] ∧ is_Some (occupy_step ev o)).
Proof.
  intros (t & Ht & Htask & Hmain & Hfin)%occupying_ok. split_and!.
  - intros Hr Hd. specialize (Hd g t Ht). unfold visit_active in Hd.
    assert (gt_stage t = VVisiting) as Es; [|by rewrite Es in Hd].
    unfold task_fits in Htask. destruct (oc_worker o); try done. destruct (oc_task o); naive_solver.
  - intros e Em Ew. unfold task_fits, main_fits in *. rewrite Em, Ew in *.
    destruct o as [s main task worker finished sent]. simpl in *. subst.
    destruct task; try naive_solver. eexists. simpl.
    assert (gt_cancelled t = true) as Hc by naive_solver.
    unfold ctx_done. simpl. rewrite Ht, Hc. by split.
  - intros taken t' Em Et [r Hr]. assert (t' = t) as -> by congruence. unfold main_fits in Hmain. rewrite Em in Hmain.
    destruct o as [s main task worker finished sent]. simpl in *. subst main.
    destruct sent.
    2: { exists OvFinished. split; [set_solver|]. destruct task; simpl; rewrite Ht; simpl; rewrite Hr; by eexists. }
    destruct finished as [x|]; [exists OvTakeFinished; split; [set_solver|destruct task; by eexists]|].
    exists OvAborted. split; [set_solver|]. destruct taken; [|by destruct Hmain].
    assert (gt_cancelled t = true) as Hc.
    { unfold task_fits in Htask. simpl in Htask. rewrite Hmain in *.
      destruct task; [destruct (gt_stage t)|..]; naive_solver. }
    destruct task; simpl; unfold ctx_done; simpl; rewrite Ht, Hc; by eexists.
Qed.
End occupy.
