(* ===== verification/Storage.v ===== *)
(** * Storage

    internal/worker/uniter/storage: state.go (which storage the unit has
    attached), attachments.go (that state, its copy on the controller, and the
    hooks that change it) and resolver.go (which storage hook to run next). *)

From S2P Require Import Prelude Hooks OpState Operations Resolver.
Import life operation.

(** ** state.go *)

(** [storage.State]: storage ID to attached or not. *)
Definition StorageState : Type := gmap string bool.

Definition StorageState_Detach (storageID : string) (s : StorageState) :
    result StorageState :=
  match s !! storageID with
  | None => Err (NotFound "storage %q")
  | Some _ => Ok (<[storageID := false]> s)
  end.

Definition StorageState_Attach (storageID : string) (s : StorageState) : StorageState :=
  <[storageID := true]> s.

(** The two results of [State.Attached]. *)
Definition StorageState_Attached (storageID : string) (s : StorageState) : bool * bool :=
  match s !! storageID with
  | Some attached => (attached, true)
  | None => (false, false)
  end.

Definition StorageState_Empty (s : StorageState) : bool := bool_decide (size s = 0).

Definition StorageState_ValidateHook (hi : hook.Info) (s : StorageState) : result () :=
  let attached := (StorageState_Attached (hook.StorageId hi) s).1 in
  match hook.Kind hi with
  | hooks.StorageAttached =>
      if attached then Err (ErrNew "storage already attached") else Ok ()
  | hooks.StorageDetaching =>
      if negb attached then Err (ErrNew "storage not attached") else Ok ()
  | _ => Ok ()
  end.

(** The unit's storage state on the controller. *)
Record UnitStorageRW (W : Type) : Type := MkUnitStorageRW {
  srw_State : M W string;
  srw_SetState : string → M W ();
}.
Arguments srw_State {W} _.
Arguments srw_SetState {W} _ _.

(** The storage parts of the uniter API. *)
Record StorageAPI (W : Type) : Type := MkStorageAPI {
  st_UnitStorageAttachments : M W (list string);
  st_DestroyUnitStorageAttachments : M W ();
  st_RemoveStorageAttachment : string → M W ();
}.
Arguments st_UnitStorageAttachments {W} _.
Arguments st_DestroyUnitStorageAttachments {W} _.
Arguments st_RemoveStorageAttachment {W} _ _.

Section stateOps.
Context {YS : Yaml (gmap string bool)} {W : Type} (rw : UnitStorageRW W).

(** [stateOps.Read]: the state and the error it returns.  A unit without saved
    state has an empty one, with NotFound. *)
Definition storageOps_Read : M W (option StorageState * option error) :=
  r ← try (srw_State rw);
  mret match r with
       | Err e => (None, Some e)
       | Ok text =>
           if decide (text = "") then (Some ∅, Some (NotFound "storage State"))
           else match yaml_Unmarshal text with
           | Ok stor => (Some stor, None)
           | Err e => (None, Some e)
           end
       end.

Definition storageOps_Write (st : StorageState) : M W () :=
  str ← if decide (0 < size st) then lift_result (yaml_Marshal st) else mret "";
  srw_SetState rw str.
End stateOps.

(** ** attachments.go *)

(** The fields of [Attachments] that change. *)
Record Attachments : Type := MkAttachments {
  at_pending : gset string;
  at_storageState : StorageState;
}.

Definition set_pending (p : gset string) (a : Attachments) : Attachments :=
  MkAttachments p (at_storageState a).
Definition set_storageState (s : StorageState) (a : Attachments) : Attachments :=
  MkAttachments (at_pending a) s.

Section attachments.
Context {NM : Names} {YS : Yaml (gmap string bool)} {W : Type} {MO : MapOrder W}
  (L : lens W Attachments) (rw : UnitStorageRW W) (api : StorageAPI W).

(** The loop of [init] over the attachments: what is pending and what the new
    state is. *)
Definition init_attachment (existing : StorageState) (acc : gset string * StorageState)
    (id : string) : gset string * StorageState :=
  let '(pending, newState) := acc in
  let '(attached, ok) := StorageState_Attached id existing in
  let pending := if negb ok then {[id]} ∪ pending else pending in
  if negb attached then (pending, newState)
  else (pending, StorageState_Attach id newState).

(** [names.ParseStorageTag] of each attachment id. *)
Definition parse_attachments (ids : list string) : result (gset string) :=
  if forallb IsValidStorage ids then Ok (list_to_set ids)
  else Err (ErrNew "%q is not a valid tag").

(** [Attachments.init].  A NotFound error of the controller leaves a nil state,
    which the loop over the attachments dereferences. *)
Definition Attachments_init : M W () :=
  attachmentIds ← st_UnitStorageAttachments api;
  attachmentsByTag ← lift_result (parse_attachments attachmentIds);
  '(existing, err) ← storageOps_Read rw;
  existing ← match err, existing with
             | None, Some s | Some (NotFound _), Some s => mret s
             | Some (NotFound _), None | None, None =>
                 if decide (attachmentsByTag = ∅) then mret ∅
                 else throw (GoPanic "nil pointer dereference")
             | Some e, _ => throw e
             end;
  a ← gets (view L);
  w ← get;
  let '(pending, newState) :=
    foldl (init_attachment existing) (at_pending a, ∅)
      (range w (elements attachmentsByTag)) in
  _ ← over L (λ _, MkAttachments pending newState);
  if StorageState_Empty newState then mret ()
  else storageOps_Write rw newState.

Definition Attachments_SetDying : M W () := st_DestroyUnitStorageAttachments api.

Definition Attachments_Pending : M W nat := look L (λ a, size (at_pending a)).

Definition Attachments_ValidateHook (hi : hook.Info) : M W () :=
  a ← gets (view L);
  lift_result (StorageState_ValidateHook hi (at_storageState a)).

Definition Attachments_removeStorageAttachment (id : string) : M W () :=
  _ ← st_RemoveStorageAttachment api id;
  over L (λ a, set_pending (at_pending a ∖ {[id]}) a).

Definition Attachments_CommitHook (hi : hook.Info) : M W () :=
  let id := hook.StorageId hi in
  if negb (hooks.IsStorage (hook.Kind hi)) then
    throw (ErrNew "not a storage hook: %#v")
  else
    a ← gets (view L);
    s ← if decide (hook.Kind hi = hooks.StorageDetaching) then
          match StorageState_Detach id (at_storageState a) with
          | Err _ => throw (ErrNew "unknown storage %q")
          | Ok s => mret s
          end
        else mret (StorageState_Attach id (at_storageState a));
    _ ← over L (set_storageState s);
    _ ← storageOps_Write rw s;
    if negb (IsValidStorage id) then
      throw (GoPanic "%q is not a valid storage ID")
    else if decide (hook.Kind hi = hooks.StorageAttached) then
      over L (λ a, set_pending (at_pending a ∖ {[id]}) a)
    else Attachments_removeStorageAttachment id.

End attachments.

(** ** resolver.go *)

Inductive ModelType : Type := IAAS | CAAS.

#[global] Instance ModelType_eq_dec : EqDecision ModelType.
Proof. solve_decision. Defined.

Section storageResolver.
Context {NM : Names} {W : Type} {MO : MapOrder W}
  (L : lens W Attachments) (LD : lens W bool) (api : StorageAPI W)
  (modelType : ModelType).

(** Make all storage dying, in the snapshot. *)
Definition all_dying (m : gmap string StorageSnapshot) : gmap string StorageSnapshot :=
  (λ snap, MkStorageSnapshot (ssn_Kind snap) Dying (ssn_Attached snap)
             (ssn_Location snap)) <$> m.

(** [maybeShortCircuitRemoval] *)
Fixpoint short_circuit (l : list (string * StorageSnapshot)) : M (Snapshot * W) () :=
  match l with
  | [] => mret ()
  | (tag, snap) :: l' =>
      a ← liftR (gets (view L));
      let '(attached, ok) := StorageState_Attached tag (at_storageState a) in
      if (ok && attached) || bool_decide (ssn_Life snap = Alive) then short_circuit l'
      else
        _ ← liftR (Attachments_removeStorageAttachment L api tag);
        _ ← modify (λ s, (set_Storage (delete tag (sn_Storage s.1)) s.1, s.2));
        short_circuit l'
  end.

(** Whether storage hooks may run now. *)
Definition runStorageHooks (st : OpState) : bool :=
  match Kind st, Step st with
  | Continue, _ => true
  | RunHook, Queued =>
      match modelType with
      | CAAS => Started st
      | IAAS => negb (Installed st)
      end
  | _, _ => false
  end.

Definition storageResolver_nextHookOp (tag : string) (snap : StorageSnapshot)
    (opFactory : Factory W) : M W (operation W) :=
  if decide (ssn_Life snap = Dead) then throw ErrNoOperation
  else
    a ← gets (view L);
    let '(attached, ok) := StorageState_Attached tag (at_storageState a) in
    match ssn_Life snap with
    | Alive =>
        if ok && attached then throw ErrNoOperation
        else
          _ ← over L (λ a, set_pending ({[tag]} ∪ at_pending a) a);
          if negb (ssn_Attached snap) then throw ErrNoOperation
          else NewRunHook opFactory (hook.storage_info hooks.StorageAttached tag)
    | Dying =>
        if negb ok || negb attached then throw ErrNoOperation
        else NewRunHook opFactory (hook.storage_info hooks.StorageDetaching tag)
    | _ => NewRunHook opFactory (hook.storage_info (hooks.OtherKind "") tag)
    end.

Fixpoint storage_loop (l : list (string * StorageSnapshot)) (opFactory : Factory W) :
    M W (option (operation W)) :=
  match l with
  | [] => mret None
  | (tag, snap) :: l' =>
      r ← try (storageResolver_nextHookOp tag snap opFactory);
      match r with
      | Ok op => mret (Some op)
      | Err e => if decide (e = ErrNoOperation) then storage_loop l' opFactory else throw e
      end
  end.

(** What a dying unit does to its storage. *)
Definition storage_dying : M (Snapshot * W) () :=
  unitLife ← remote sn_Life;
  if decide (unitLife = Dying) then
    dying ← liftR (gets (view LD));
    _ ← if dying : bool then mret ()
        else
          _ ← liftR (Attachments_SetDying api);
          liftR (over LD (λ _, true));
    modify (λ s, (set_Storage (all_dying (sn_Storage s.1)) s.1, s.2))
  else mret ().

Definition storageResolver_NextOp : Resolver W := λ localState opFactory,
  let st := ls_State localState in
  _ ← storage_dying;
  s ← get;
  _ ← short_circuit (range s.2 (map_to_list (sn_Storage s.1)));
  if negb (runStorageHooks st) then throw ErrNoOperation
  else
    s ← get;
    o ← liftR (storage_loop (range s.2 (map_to_list (sn_Storage s.1))) opFactory);
    match o with
    | Some op => mret op
    | None =>
        n ← liftR (Attachments_Pending L);
        if bool_decide (0 < n) && negb (Installed st) && bool_decide (modelType = IAAS)
        then throw ErrWaiting
        else throw ErrNoOperation
    end.

End storageResolver.
