(* ===== verification/StorageFacts.v ===== *)
(** * Storage hooks, in the right order

    The state of a unit's storage attachments (Storage.v) against what it
    promises: storage-attached and storage-detaching alternate for each storage,
    the resolver proposes exactly the hooks that are due, and what a restarted
    agent makes of the state on the controller. *)

From S2P Require Import Prelude Hooks OpState Operations Resolver Storage.
Import life operation.

(** The storage hooks of one storage: attached, detaching, attached, ... *)
Fixpoint alternates (attached : bool) (ks : list hooks.HookKind) : Prop :=
  match ks with
  | [] => True
  | hooks.StorageAttached :: ks' => attached = false ∧ alternates true ks'
  | hooks.StorageDetaching :: ks' => attached = true ∧ alternates false ks'
  | _ => False
  end.

(** Whether a storage is recorded as attached. *)
Definition is_attached (id : string) (s : StorageState) : bool :=
  (StorageState_Attached id s).1.

(** The kinds of the hooks that were run for one storage. *)
Definition kinds_for (id : string) (his : list hook.Info) : list hooks.HookKind :=
  hook.Kind <$> filter (λ hi, hook.StorageId hi = id) his.

Section facts.
Context {NM : Names} {YS : Yaml (gmap string bool)} {W : Type} {MO : MapOrder W}
  (L : lens W Attachments) (LD : lens W bool) (rw : UnitStorageRW W)
  (api : StorageAPI W) (mt : ModelType).

(** The part of the world the hooks depend on. *)
Definition storage_of (w : W) : StorageState := at_storageState (view L w).

(** The agent's work on storage: a storage hook that was validated, then run,
    then committed; or the resolver asked for an operation, or anything else
    that leaves the attachments' state alone. *)
Inductive storage_event : W → option hook.Info → W → Prop :=
| hook_ran hi w w1 w2 w3 :
    hooks.IsStorage (hook.Kind hi) = true →
    Attachments_ValidateHook L hi w = (Ok (), w1) →
    storage_of w2 = storage_of w1 →
    Attachments_CommitHook L rw api hi w2 = (Ok (), w3) →
    storage_event w (Some hi) w3
| asked l f sn w r sn' w' :
    (∀ hi, keeps storage_of (NewRunHook f hi)) →
    storageResolver_NextOp L LD api mt l f (sn, w) = (r, (sn', w')) →
    storage_event w None w'
| other w w' : storage_of w' = storage_of w → storage_event w None w'.

Inductive storage_events : W → list hook.Info → W → Prop :=
| events_nil w : storage_events w [] w
| events_cons w ev w1 his w2 :
    storage_event w ev w1 → storage_events w1 his w2 →
    storage_events w (option_list ev ++ his) w2.

(** What a resolver may propose for one storage. *)
Definition due (snap : StorageSnapshot) (attached : bool) (k : hooks.HookKind) : Prop :=
  match ssn_Life snap with
  | Alive => attached = false ∧ ssn_Attached snap = true ∧ k = hooks.StorageAttached
  | Dying => attached = true ∧ k = hooks.StorageDetaching
  | Dead => False
  | Unknown _ => k = hooks.OtherKind ""
  end.

(** ** The world around the attachments *)

(** The lens, and a controller that is not part of the attachments. *)
Class StorageWorld : Prop := {
  stw_L :: LensLaws L;
  stw_SetState data : keeps (view L) (srw_SetState rw data);
  stw_Remove id : keeps (view L) (st_RemoveStorageAttachment api id);
  stw_Destroy : keeps (view L) (st_DestroyUnitStorageAttachments api);
  stw_LD :: Apart LD (view L);
}.
Context {SW : StorageWorld}.

Abbreviation onL := (λ s : Snapshot * W, storage_of s.2).

Lemma keeps_storage {A} (m : M W A) : keeps (view L) m → keeps storage_of m.
Proof. intros H w r w' E. unfold storage_of. by rewrite (H _ _ _ E). Qed.

Lemma keeps_pending g : keeps storage_of (over L (λ a, set_pending (g a) a)).
Proof.
  intros w r w' H. unfold over, modify in H. simplify_eq.
  unfold storage_of. by rewrite view_update.
Qed.

Lemma keeps_remove id : keeps storage_of (Attachments_removeStorageAttachment L api id).
Proof.
  apply keeps_bind; [apply keeps_storage, stw_Remove|]. intros []. apply keeps_pending.
Qed.

Lemma keeps_liftR_storage {A} (m : M W A) : keeps storage_of m → keeps onL (liftR m).
Proof.
  intros Hm [sn w] r [sn' w'] H. unfold liftR, zoom in H. simpl in *.
  destruct (m w) as [a w1] eqn:E. simplify_eq. by eapply Hm.
Qed.

Lemma keeps_modify_snapshot (g : Snapshot * W → Snapshot) :
  keeps onL (modify (λ s, (g s, s.2))).
Proof. intros [sn w] r s' H. unfold modify in H. by simplify_eq. Qed.

Lemma keeps_Write st : keeps (view L) (storageOps_Write rw st).
Proof.
  apply keeps_bind; [|intros; apply stw_SetState].
  case_decide; [apply keeps_lift|apply keeps_ret].
Qed.

(** ** The resolver leaves the state alone *)

Lemma short_circuit_keeps l : keeps onL (short_circuit L api l).
Proof.
  induction l as [|[tag snap] l IH]; simpl; [apply keeps_ret|].
  apply keeps_bind; [apply keeps_liftR_storage, keeps_gets|]. intros a.
  destruct (StorageState_Attached _ _). destruct (_ || _); [done|].
  apply keeps_bind; [apply keeps_liftR_storage, keeps_remove|]. intros [].
  apply keeps_bind; [apply keeps_modify_snapshot|done].
Qed.

Lemma storage_dying_keeps : keeps onL (storage_dying LD api).
Proof.
  apply keeps_bind; [apply keeps_gets|]. intros ul.
  case_decide; [|apply keeps_ret].
  apply keeps_bind; [apply keeps_liftR_storage, keeps_gets|]. intros b.
  apply keeps_bind; [|intros; apply keeps_modify_snapshot].
  destruct b; [apply keeps_ret|].
  apply keeps_bind; [apply keeps_liftR_storage, keeps_storage, stw_Destroy|].
  intros []. apply keeps_liftR_storage, keeps_storage. by apply keeps_over, _.
Qed.

Section resolver.
Context (f : Factory W) (Hf : ∀ hi, keeps storage_of (NewRunHook f hi)).

Lemma nextHookOp_keeps tag snap :
  keeps storage_of (storageResolver_nextHookOp L tag snap f).
Proof using Hf SW.
  unfold storageResolver_nextHookOp. case_decide; [apply keeps_throw|].
  apply keeps_bind; [apply keeps_gets|]. intros a. destruct (StorageState_Attached _ _).
  destruct (ssn_Life snap); auto.
  - destruct (_ && _); [apply keeps_throw|].
    apply keeps_bind; [apply (keeps_pending (λ a, {[tag]} ∪ at_pending a))|]. intros [].
    destruct (negb _); [apply keeps_throw|apply Hf].
  - destruct (_ || _); [apply keeps_throw|apply Hf].
Qed.

Lemma storage_loop_keeps l : keeps storage_of (storage_loop L l f).
Proof using Hf SW.
  induction l as [|[tag snap] l IH]; simpl; [apply keeps_ret|].
  apply keeps_bind; [apply keeps_try, nextHookOp_keeps|]. intros [op|e];
    [apply keeps_ret|]. case_decide; [done|apply keeps_throw].
Qed.

Lemma storageResolver_keeps l : keeps onL (storageResolver_NextOp L LD api mt l f).
Proof using Hf SW.
  apply keeps_bind; [apply storage_dying_keeps|]. intros [].
  apply keeps_bind; [intros s r s' H; unfold get in H; by simplify_eq|]. intros s.
  apply keeps_bind; [apply short_circuit_keeps|]. intros [].
  destruct (negb _); [apply keeps_throw|].
  apply keeps_bind; [intros ? r s' H; unfold get in H; by simplify_eq|]. intros s1.
  apply keeps_bind; [apply keeps_liftR_storage, storage_loop_keeps|].
  intros [op|]; [apply keeps_ret|].
  apply keeps_bind; [apply keeps_liftR_storage, keeps_gets|]. intros n.
  destruct (_ && _ && _); apply keeps_throw.
Qed.
End resolver.

(** ** Committing a hook *)

(** The state a committed hook leaves. *)
Definition after_storage_hook (hi : hook.Info) (s : StorageState) : StorageState :=
  <[hook.StorageId hi := bool_decide (hook.Kind hi = hooks.StorageAttached)]> s.

Lemma CommitHook_state hi w w' :
  Attachments_CommitHook L rw api hi w = (Ok (), w') →
  (hook.Kind hi = hooks.StorageAttached ∨ hook.Kind hi = hooks.StorageDetaching)
  ∧ storage_of w' = after_storage_hook hi (storage_of w).
Proof.
  unfold Attachments_CommitHook, hooks.IsStorage. intros H.
  destruct (negb _) eqn:Hk; [by minv|]. apply negb_false_iff in Hk.
  assert (hook.Kind hi = hooks.StorageAttached ∨ hook.Kind hi = hooks.StorageDetaching)
    as Hkind by (destruct (hook.Kind hi); auto; done).
  split; [done|].
  apply bind_inv_ok in H as (a & w1 & Ha & H). unfold gets in Ha.
  injection Ha as <- <-. apply bind_inv_ok in H as (s & w2 & Hs & H).
  assert (w2 = w ∧ s = after_storage_hook hi (storage_of w)) as [-> ->].
  { unfold after_storage_hook, StorageState_Detach, StorageState_Attach in *.
    unfold storage_of. destruct Hkind as [Hh|Hh]; rewrite Hh in *;
      [rewrite decide_False in Hs by done|rewrite decide_True in Hs by done];
      [by minv|]. destruct (_ !! _); by minv. }
  apply bind_inv_ok in H as ([] & w3 & H3 & H). unfold over, modify in H3.
  injection H3 as <-. apply bind_inv_ok in H as ([] & w4 & H4 & H).
  apply keeps_Write in H4.
  assert (storage_of w4 = after_storage_hook hi (storage_of w)) as E.
  { unfold storage_of at 1. rewrite H4, view_update. done. }
  rewrite <- E. destruct (negb _); [by minv|]. case_decide.
  - by apply keeps_pending in H.
  - by apply keeps_remove in H.
Qed.

Lemma is_attached_after hi id s :
  is_attached id (after_storage_hook hi s) =
    (if decide (hook.StorageId hi = id)
     then bool_decide (hook.Kind hi = hooks.StorageAttached) else is_attached id s).
Proof.
  unfold is_attached, StorageState_Attached, after_storage_hook.
  unfold StorageState in *.
  case_decide as E; [by rewrite E, lookup_insert_eq|by rewrite lookup_insert_ne].
Qed.


(** ** What the resolver proposes *)

(** Storage that is dying and not attached is removed at once, without a hook:
    from the controller and from the snapshot. *)
Definition dropped (s : StorageState) (tag : string) (snap : StorageSnapshot) : Prop :=
  is_attached tag s = false ∧ ssn_Life snap ≠ Alive.

Lemma StorageState_Attached_both tag s a ok :
  StorageState_Attached tag s = (a, ok) → a = is_attached tag s ∧ (ok && a) = a.
Proof.
  unfold is_attached, StorageState_Attached. destruct (s !! tag) as [[]|];
    intros [= <- <-]; done.
Qed.

Lemma short_circuit_storage l s s' :
  short_circuit L api l s = (Ok (), s') →
  sn_Life s'.1 = sn_Life s.1 ∧
  ∀ tag snap, sn_Storage s'.1 !! tag = Some snap ↔
    sn_Storage s.1 !! tag = Some snap
    ∧ ¬ ∃ snap', (tag, snap') ∈ l ∧ dropped (storage_of s.2) tag snap'.
Proof.
  revert s. induction l as [|[tag0 snap0] l IH]; intros s H; simpl in H.
  { apply mret_inv in H as [_ ->]. split; [done|]. intros tag snap. set_solver. }
  apply bind_inv_ok in H as (a & s1 & Ha & H).
  assert (s1 = s ∧ a = view L s.2) as [-> ->].
  { destruct s as [sn w]. unfold liftR, zoom, gets in Ha. by simplify_eq/=. }
  fold (storage_of s.2) in H.
  destruct (StorageState_Attached tag0 (storage_of s.2)) as [a ok] eqn:E.
  apply StorageState_Attached_both in E as [-> E]. rewrite E in H.
  destruct (_ || _) eqn:Hb.
  - destruct (IH _ H) as [HL HS]. split; [done|]. intros tag snap. rewrite HS.
    apply orb_true_iff in Hb. rewrite bool_decide_eq_true in Hb.
    assert (¬ dropped (storage_of s.2) tag0 snap0) as Hnd.
    { unfold dropped. intros [H1 H2]. destruct Hb; congruence. }
    split; intros [H1 H2]; (split; [done|]); intros (snap' & Hin & Hd).
    + apply elem_of_cons in Hin as [[= -> ->]|Hin]; eauto.
    + apply H2. exists snap'. split; [by right|done].
  - apply orb_false_iff in Hb as [Hb1 Hb2%bool_decide_eq_false].
    apply bind_inv_ok in H as ([] & s1 & H1 & H).
    assert (s1.1 = s.1) as E1.
    { destruct s as [sn w]. unfold liftR, zoom in H1. simpl in H1.
      destruct (Attachments_removeStorageAttachment _ _ _ _). by simplify_eq. }
    apply (keeps_liftR_storage _ (keeps_remove tag0)) in H1. simpl in H1.
    apply bind_inv_ok in H as ([] & s2 & H2 & H). unfold modify in H2.
    injection H2 as <-. destruct (IH _ H) as [HL HS]. simpl in *.
    split; [congruence|]. intros tag snap. rewrite HS, H1, E1, lookup_delete_Some.
    split.
    + intros ((Hne & Hl) & Hn). split; [done|]. intros (snap' & Hin & Hd).
      apply elem_of_cons in Hin as [[= -> ->]|Hin]; eauto.
    + intros (Hl & Hn). split_and!; [|done|].
      * intros ->. apply Hn. exists snap0. split; [left|done].
      * intros (snap' & Hin & Hd). apply Hn. exists snap'. split; [by right|done].
Qed.

Section proposals.
Context (f : Factory W).
Hypothesis Hf : ∀ hi, keeps storage_of (NewRunHook f hi).

(** One storage: the hook that is due, or nothing. *)
Lemma nextHookOp_cases tag snap w r w' :
  storageResolver_nextHookOp L tag snap f w = (r, w') →
  (r = Err ErrNoOperation ∧ ∀ k, ¬ due snap (is_attached tag (storage_of w)) k)
  ∨ ∃ k w1, due snap (is_attached tag (storage_of w)) k
            ∧ NewRunHook f (hook.storage_info k tag) w1 = (r, w').
Proof.
  unfold storageResolver_nextHookOp, due.
  case_decide as Hd; [intros [-> ->]%throw_inv; rewrite Hd; auto|].
  rewrite (bind_ok _ _ _ (view L w) w) by done. fold (storage_of w).
  destruct (StorageState_Attached tag (storage_of w)) as [a ok] eqn:E.
  apply StorageState_Attached_both in E as [-> E].
  destruct (ssn_Life snap); [| |done|eauto 6].
  - rewrite E. destruct (is_attached tag (storage_of w));
      [intros [-> ->]%throw_inv; left; naive_solver|].
    unfold over. rewrite (bind_ok _ _ _ () _) by (unfold modify; done).
    destruct (ssn_Attached snap); simpl;
      [intros H; right; eexists _, _; eauto|].
    intros [-> ->]%throw_inv. left. naive_solver.
  - rewrite <- negb_andb, E. destruct (is_attached tag (storage_of w)); simpl;
      [intros H; right; eexists _, _; eauto|].
    intros [-> ->]%throw_inv. left. naive_solver.
Qed.

Lemma storage_loop_cases l w r w' :
  storage_loop L l f w = (Ok r, w') →
  match r with
  | Some op => ∃ tag snap k w1 w2, (tag, snap) ∈ l
      ∧ due snap (is_attached tag (storage_of w)) k
      ∧ NewRunHook f (hook.storage_info k tag) w1 = (Ok op, w2)
  | None => (∀ hi w w', NewRunHook f hi w ≠ (Err ErrNoOperation, w')) →
      ∀ tag snap k, (tag, snap) ∈ l → ¬ due snap (is_attached tag (storage_of w)) k
  end.
Proof.
  revert w. induction l as [|[tag0 snap0] l IH]; intros w H; simpl in H.
  { apply mret_inv in H as [[= ->] ->]. set_solver. }
  apply bind_inv_ok in H as (a & w1 & Ha & H). unfold try in Ha.
  destruct (storageResolver_nextHookOp L tag0 snap0 f w) as [ra wa] eqn:E.
  pose proof (nextHookOp_keeps f Hf _ _ _ _ _ E) as Hk.
  apply nextHookOp_cases in E as [[-> Hnd]|(k & w2 & Hdue & Hnew)].
  - cbv in Ha. injection Ha as <- <-. rewrite decide_True in H by done.
    specialize (IH _ H). rewrite Hk in IH. destruct r as [op|].
    + destruct IH as (tag & snap & k & v1 & v2 & ? & ? & ?).
      exists tag, snap, k, v1, v2. split_and!; [by right|done..].
    + intros Hn tag snap k [[= -> ->]|Hin]%elem_of_cons; eauto.
  - destruct ra as [op|e]; simplify_eq.
    + apply mret_inv in H as [[= ->] ->]. eexists tag0, snap0, k, _, _.
      split_and!; [by left|done|exact Hnew].
    + destruct e; simplify_eq; case_decide as He; try (by apply throw_inv in H as [? _]);
        try done. rewrite He in Hnew. specialize (IH _ H). rewrite Hk in IH.
      destruct r as [op|]; [|intros Hn; by destruct (Hn _ _ _ Hnew)].
      destruct IH as (tag & snap & k' & v1 & v2 & ? & ? & ?).
      exists tag, snap, k', v1, v2. split_and!; [by right|done..].
Qed.

Lemma all_dying_lookup m tag snap :
  all_dying m !! tag = Some snap → ssn_Life snap = Dying.
Proof. unfold all_dying. rewrite lookup_fmap_Some. by intros (? & <- & _). Qed.

(** A dying unit's storage is dying. *)
Lemma storage_dying_snapshot s s' :
  storage_dying LD api s = (Ok (), s') →
  sn_Life s'.1 = sn_Life s.1 ∧
  (sn_Life s.1 = Dying → ∀ tag snap, sn_Storage s'.1 !! tag = Some snap →
     ssn_Life snap = Dying).
Proof.
  intros H. apply bind_inv_ok in H as (ul & s1 & H1 & H).
  unfold remote, gets in H1. injection H1 as <- <-.
  case_decide as Hd; [|apply mret_inv in H as [_ ->]; done].
  apply bind_inv_ok in H as (b & s1 & H1 & H).
  apply bind_inv_ok in H as ([] & s2 & H2 & H). unfold modify in H. injection H as <-.
  assert (∀ {A} (m : M W A) s r s', liftR m s = (r, s') → s'.1 = s.1) as Hlift.
  { intros A m [sn w] r0 [sn1 w1] Hm. unfold liftR, zoom in Hm. simpl in *.
    destruct (m w). by simplify_eq. }
  apply Hlift in H1.
  assert (s2.1 = s1.1) as E2.
  { destruct b; [by apply mret_inv in H2 as [_ ->]|].
    apply bind_inv_ok in H2 as ([] & s3 & H3 & H2).
    apply Hlift in H3, H2. congruence. }
  simpl. split; [by rewrite E2, H1|]. intros _ tag snap. apply all_dying_lookup.
Qed.

(** What the resolver looked at when it went over the storage: the snapshot it
    leaves, in which only attached storage is dying. *)
Lemma storageResolver_inv l s r s' :
  MapOrderLaws W →
  runStorageHooks mt (ls_State l) = true →
  storageResolver_NextOp L LD api mt l f s = (r, s') →
  (∃ e, r = Err e ∧ (storage_dying LD api s = (Err e, s') ∨
     ∃ tags s0, short_circuit L api tags s0 = (Err e, s')))
  ∨ ∃ s1, storage_of s1.2 = storage_of s.2
    ∧ (sn_Life s.1 = Dying → ∀ tag snap, sn_Storage s1.1 !! tag = Some snap →
         ssn_Life snap = Dying)
    ∧ (∀ tag snap, sn_Storage s1.1 !! tag = Some snap →
         ¬ dropped (storage_of s1.2) tag snap)
    ∧ (o ← liftR (storage_loop L (range s1.2 (map_to_list (sn_Storage s1.1))) f);
       match o with
       | Some op => mret op
       | None =>
           n ← liftR (Attachments_Pending L);
           if bool_decide (0 < n) && negb (Installed (ls_State l))
              && bool_decide (mt = IAAS)
           then throw ErrWaiting else throw ErrNoOperation
       end) s1 = (r, s').
Proof.
  intros MOL Hrun. unfold storageResolver_NextOp. rewrite Hrun. simpl.
  destruct (storage_dying LD api s) as [[[]|e] s0] eqn:E0.
  2:{ rewrite (bind_err _ _ _ _ _ E0). intros. simplify_eq. left. eauto 6. }
  rewrite (bind_ok _ _ _ _ _ E0), (bind_ok _ _ _ s0 s0) by done.
  destruct (short_circuit L api (range s0.2 (map_to_list (sn_Storage s0.1))) s0)
    as [[[]|e] s1] eqn:E1.
  2:{ rewrite (bind_err _ _ _ _ _ E1). intros. simplify_eq. left. eauto 8. }
  rewrite (bind_ok _ _ _ _ _ E1), (bind_ok _ _ _ s1 s1) by done.
  intros H. right. exists s1.
  pose proof (storage_dying_keeps _ _ _ E0) as K0.
  pose proof (short_circuit_keeps _ _ _ _ E1) as K1. simpl in K0, K1.
  apply storage_dying_snapshot in E0 as [_ HD].
  apply short_circuit_storage in E1 as [_ HS].
  split_and!; [congruence| | |exact H].
  - intros Hd tag snap [Hl _]%HS. by eapply HD.
  - intros tag snap [Hl Hn]%HS Hd. apply Hn. exists snap.
    rewrite range_perm, elem_of_map_to_list. rewrite <- K1. done.
Qed.
End proposals.

Lemma storage_dying_decisive :
  decisive (st_DestroyUnitStorageAttachments api) → decisive (storage_dying LD api).
Proof.
  intros Hd. apply decisive_bind; [no_error|]. intros ul.
  case_decide; [|no_error].
  apply decisive_bind; [no_error|]. intros b.
  apply decisive_bind; [|intros; no_error].
  destruct b; [no_error|].
  apply decisive_bind; [by apply decisive_liftR|].
  intros []. no_error.
Qed.

Lemma short_circuit_decisive l :
  (∀ id, decisive (st_RemoveStorageAttachment api id)) → decisive (short_circuit L api l).
Proof.
  intros Hr. induction l as [|[tag snap] l IH]; simpl;
    [no_error|].
  apply decisive_bind; [no_error|]. intros a.
  destruct (StorageState_Attached _ _). destruct (_ || _); [done|].
  apply decisive_bind; [|intros []; apply decisive_bind; [|done]].
  - apply decisive_liftR, decisive_bind; [done|]. intros [].
    no_error.
  - no_error.
Qed.

Lemma storage_loop_decisive (f : Factory W) l :
  (∀ hi, decisive (NewRunHook f hi)) → decisive (storage_loop L l f).
Proof.
  intros Hn. induction l as [|[tag snap] l IH]; simpl;
    [no_error|].
  intros w e w' [H|(r & w1 & Hr & H)]%bind_inv_err.
  - unfold try in H. destruct (storageResolver_nextHookOp _ _ _ _ _) as [[|[]]] eqn:E;
      simplify_eq; done.
  - destruct r as [op|e1]; [by apply mret_inv in H as [? _]|].
    case_decide; [by eapply IH|]. apply throw_inv in H as [[= ->] ->].
    split; [done|]. unfold try in Hr.
    destruct (storageResolver_nextHookOp _ _ _ _ _) as [ra wa] eqn:E.
    assert (ra = Err e1) as -> by (destruct ra as [|[]]; by simplify_eq).
    apply nextHookOp_cases in E as [[[= ->] _]|(k & v & _ & E)]; [done|].
    by apply Hn in E as [_ ?].
Qed.

(** The storage resolver proposes only hooks that are due.  A proposed
    operation runs a hook for a storage of the snapshot: storage-attached only
    for storage that is alive, provisioned and not attached yet,
    storage-detaching only for attached storage that is dying, and only
    storage-detaching when the unit itself is dying.  The hook passes the
    validation that guards its execution. *)
Theorem storage_resolver_proposes_due_hooks (f : Factory W) l sn w op sn' w' :
  MapOrderLaws W → (∀ hi, keeps storage_of (NewRunHook f hi)) →
  storageResolver_NextOp L LD api mt l f (sn, w) = (Ok op, (sn', w')) →
  ∃ tag snap k w1 w2, sn_Storage sn' !! tag = Some snap
    ∧ due snap (is_attached tag (storage_of w')) k
    ∧ NewRunHook f (hook.storage_info k tag) w1 = (Ok op, w2)
    ∧ (sn_Life sn = Dying → k = hooks.StorageDetaching)
    ∧ Attachments_ValidateHook L (hook.storage_info k tag) w' = (Ok (), w').
Proof.
  intros MOL Hf H. pose proof (storageResolver_keeps f Hf _ _ _ _ H) as K. simpl in K.
  destruct (runStorageHooks mt (ls_State l)) eqn:Hrun.
  2:{ unfold storageResolver_NextOp in H. rewrite Hrun in H. by minv. }
  apply (storageResolver_inv f) in H as [(e & ? & _)|(s1 & K1 & HD & _ & H)]; [done| |done..].
  apply bind_inv_ok in H as (o & s2 & H2 & H).
  assert (s2 = (sn', w') ∧ o = Some op) as [-> ->].
  { destruct o as [op0|]; [by apply mret_inv in H as [[= ->] ->]|].
    apply bind_inv_ok in H as (n & s3 & _ & H). destruct (_ && _ && _); by minv. }
  destruct s1 as [sn1 w1]. unfold liftR, zoom in H2. simpl in *.
  destruct (storage_loop L _ f w1) as [r2 w2] eqn:E2. simplify_eq.
  apply (storage_loop_cases f Hf) in E2 as (tag & snap & k & v1 & v2 & Hin & Hd & Hn).
  rewrite range_perm, elem_of_map_to_list in Hin. rewrite K1, <- K in Hd.
  exists tag, snap, k, v1, v2. split_and!; [done..| |].
  - intros Hdy. specialize (HD Hdy _ _ Hin). unfold due in Hd. rewrite HD in Hd. naive_solver.
  - unfold Attachments_ValidateHook. munfold. fold (storage_of w').
    unfold StorageState_ValidateHook. simpl. fold (is_attached tag (storage_of w')).
    unfold due in Hd. destruct (ssn_Life snap); destruct_and?; subst; try done;
      by destruct (is_attached _ _).
Qed.

(** When the storage resolver has nothing to do, the storage is settled.
    If storage hooks may run and the resolver answers that there is no
    operation, or that it waits, then every storage of the snapshot is alive or
    dead, no dying storage is left, and storage that is alive and provisioned is
    attached. *)
Theorem storage_settled_when_idle (f : Factory W) l sn w e sn' w' :
  MapOrderLaws W → (∀ hi, keeps storage_of (NewRunHook f hi)) →
  (∀ hi, decisive (NewRunHook f hi)) →
  decisive (st_DestroyUnitStorageAttachments api) →
  (∀ id, decisive (st_RemoveStorageAttachment api id)) →
  runStorageHooks mt (ls_State l) = true →
  e = ErrNoOperation ∨ e = ErrWaiting →
  storageResolver_NextOp L LD api mt l f (sn, w) = (Err e, (sn', w')) →
  ∀ tag snap, sn_Storage sn' !! tag = Some snap →
    (ssn_Life snap = Alive ∨ ssn_Life snap = Dead)
    ∧ (ssn_Life snap = Alive → ssn_Attached snap = true →
       is_attached tag (storage_of w') = true).
Proof.
  intros MOL Hf Hn Hdes Hrem Hrun He H tag snap Hl.
  pose proof (storageResolver_keeps f Hf _ _ _ _ H) as K. simpl in K.
  apply (storageResolver_inv f) in H as [(e' & [= <-] & H)|(s1 & K1 & _ & Hnd & H)];
    [| |done..].
  { exfalso. assert (e ≠ ErrNoOperation ∧ e ≠ ErrWaiting); [|naive_solver].
    destruct H as [H|(tags & s0 & H)]; [by eapply storage_dying_decisive|].
    by eapply short_circuit_decisive. }
  apply bind_inv_err in H as [H|(o & s2 & H2 & H)].
  { exfalso. apply (decisive_liftR _ (storage_loop_decisive f _ Hn)) in H. naive_solver. }
  assert (s2 = (sn', w') ∧ o = None) as [-> ->].
  { destruct o as [op|]; [by apply mret_inv in H as [? _]|]. split; [|done].
    apply bind_inv_err in H as [H|(n & s3 & H3 & H)];
      [destruct s2; unfold liftR, zoom in H; by simplify_eq|].
    destruct s2. unfold liftR, zoom in H3. simplify_eq/=.
    destruct (_ && _ && _); apply throw_inv in H as [_ ->]; done. }
  destruct s1 as [sn1 w1]. unfold liftR, zoom in H2. simpl in *.
  destruct (storage_loop L _ f w1) as [r2 w2] eqn:E2. simplify_eq.
  apply (storage_loop_cases f Hf) in E2. rewrite K1 in *. rewrite K.
  assert (∀ k, ¬ due snap (is_attached tag (storage_of w)) k) as Hno.
  { intros k. apply E2; [|by rewrite range_perm, elem_of_map_to_list].
    intros hi v v' Hv. apply Hn in Hv. naive_solver. }
  specialize (Hnd _ _ Hl). unfold dropped, due in *.
  destruct (ssn_Life snap), (is_attached tag (storage_of w)), (ssn_Attached snap);
    naive_solver.
Qed.

(** ** Restarting the agent *)

(** The text on the controller stands for a state. *)
Definition encodes (text : string) (s : StorageState) : Prop :=
  (text = "" ∧ s = ∅) ∨ (text ≠ "" ∧ yaml_Unmarshal text = Ok s).

(** The unit's storage state on the controller is a cell apart from the rest,
    and the YAML library reads back what it wrote. *)
Record storage_store (stored : W → string) : Prop := {
  sst_get w : srw_State rw w = (Ok (stored w), w);
  sst_put data w r w' : srw_SetState rw data w = (r, w') →
    stored w' = match r with Ok _ => data | Err _ => stored w end;
  sst_L v w : stored (update L v w) = stored w;
  sst_attachments : keeps stored (st_UnitStorageAttachments api);
  sst_attachments_L : keeps (view L) (st_UnitStorageAttachments api);
  sst_remove id : keeps stored (st_RemoveStorageAttachment api id);
  sst_yaml (m : StorageState) data : yaml_Marshal m = Ok data →
    data ≠ "" ∧ yaml_Unmarshal data = Ok m;
}.

Lemma Write_encodes stored st w w' :
  storage_store stored → storageOps_Write rw st w = (Ok (), w') → encodes (stored w') st.
Proof.
  intros ST H. unfold storageOps_Write in H.
  apply bind_inv_ok in H as (str & w1 & H1 & H). apply (sst_put _ ST) in H. rewrite H.
  case_decide as Hs.
  - unfold lift_result in H1. injection H1 as H1 _. right. by apply (sst_yaml _ ST).
  - apply mret_inv in H1 as [[= ->] _]. left. split; [done|].
    apply map_size_empty_iff. unfold StorageState in *. lia.
Qed.

Lemma CommitHook_encodes stored hi w w' :
  storage_store stored → Attachments_CommitHook L rw api hi w = (Ok (), w') →
  encodes (stored w') (storage_of w').
Proof.
  intros ST H. unfold Attachments_CommitHook in H. destruct (negb _); [by minv|].
  apply bind_inv_ok in H as (a & w1 & _ & H). apply bind_inv_ok in H as (s & w2 & _ & H).
  apply bind_inv_ok in H as ([] & w3 & H3 & H). unfold over, modify in H3.
  injection H3 as <-. apply bind_inv_ok in H as ([] & w4 & H4 & H).
  pose proof (keeps_Write _ _ _ _ H4) as Hk.
  apply (Write_encodes _ _ _ _ ST) in H4.
  assert (storage_of w4 = s) as E4 by (unfold storage_of; by rewrite Hk, view_update).
  rewrite <- E4 in H4. destruct (negb _); [by minv|].
  assert (stored w' = stored w4 ∧ storage_of w' = storage_of w4) as [-> ->]; [|done].
  case_decide.
  - split; [|by apply keeps_pending in H].
    unfold over, modify in H. simplify_eq. by rewrite (sst_L _ ST).
  - split; [|by apply keeps_remove in H].
    apply bind_inv_ok in H as ([] & w5 & H5 & H). apply (sst_remove _ ST) in H5.
    unfold over, modify in H. simplify_eq. by rewrite (sst_L _ ST).
Qed.

(** What the loop over the attachments makes of the saved state. *)
Lemma init_attachments_spec existing ids p s p' s' :
  foldl (init_attachment existing) (p, s) ids = (p', s') →
  p' = p ∪ filter (λ id, existing !! id = None) (list_to_set ids)
  ∧ ∀ id, s' !! id = if decide (id ∈ ids ∧ existing !! id = Some true)
                     then Some true else s !! id.
Proof.
  revert p s. induction ids as [|id0 ids IH]; intros p s H.
  { simpl in H. simplify_eq. split; [set_solver|]. intros id.
    rewrite decide_False; [done|set_solver]. }
  cbn [foldl] in H. unfold init_attachment at 2, StorageState_Attached in H.
  assert (∀ p1, p1 = (if decide (existing !! id0 = None) then {[id0]} ∪ p else p) →
    p1 ∪ filter (λ id, existing !! id = None) (list_to_set ids)
    = p ∪ filter (λ id, existing !! id = None) (list_to_set (id0 :: ids))) as HP.
  { intros p1 ->. apply set_eq. intros x. rewrite !elem_of_union, !elem_of_filter.
    rewrite !elem_of_list_to_set, elem_of_cons. case_decide; set_unfold; naive_solver. }
  assert (∀ (s1 : StorageState) id, s1 !! id = (if decide (id = id0 ∧ existing !! id0 = Some true)
                               then Some true else s !! id) →
    (if decide (id ∈ ids ∧ existing !! id = Some true) then Some true else s1 !! id)
    = if decide (id ∈ id0 :: ids ∧ existing !! id = Some true) then Some true
      else s !! id) as HS1.
  { intros s1 id ->. repeat case_decide; rewrite ?elem_of_cons in *; naive_solver. }
  destruct (existing !! id0) as [[]|] eqn:E; simpl in H; destruct (IH _ _ H) as [-> HS];
    (split; [by apply HP|]); intros id; rewrite HS; apply HS1.
  - unfold StorageState_Attach, StorageState in *. rewrite lookup_insert.
    repeat case_decide; naive_solver.
  - by rewrite decide_False by naive_solver.
  - by rewrite decide_False by naive_solver.
Qed.

Lemma storageOps_Read_encodes stored w existing :
  storage_store stored → encodes (stored w) existing →
  ∃ err, storageOps_Read rw w = (Ok (Some existing, err), w)
    ∧ (err = None ∨ err = Some (NotFound "storage State")).
Proof.
  intros ST He. unfold storageOps_Read.
  rewrite (bind_ok _ _ _ (Ok (stored w)) w) by (unfold try; by rewrite (sst_get _ ST)).
  unfold mret, M_ret. destruct He as [[-> ->]|[Hne Hy]].
  - rewrite decide_True by done. eauto.
  - rewrite decide_False by done. rewrite Hy. eauto.
Qed.

(** What a starting agent makes of the controller's list of attachments and of
    the saved state. *)
Definition initialised (ids : list string) (existing : StorageState) (w w' : W) : Prop :=
  (∀ id, storage_of w' !! id =
     if decide (id ∈ ids ∧ existing !! id = Some true) then Some true else None)
  ∧ at_pending (view L w') = at_pending (view L w) ∪
      filter (λ id, existing !! id = None) (list_to_set ids).

Lemma Attachments_init_spec stored w existing w' :
  MapOrderLaws W → storage_store stored → encodes (stored w) existing →
  Attachments_init L rw api w = (Ok (), w') →
  ∃ ids w1, st_UnitStorageAttachments api w = (Ok ids, w1)
    ∧ initialised ids existing w w'
    ∧ (if decide (storage_of w' = ∅) then stored w' = stored w
       else encodes (stored w') (storage_of w')).
Proof.
  intros MOL ST He H. unfold Attachments_init in H.
  apply bind_inv_ok in H as (ids & w1 & H1 & H). exists ids, w1. split; [done|].
  pose proof (sst_attachments _ ST _ _ _ H1) as E1.
  pose proof (sst_attachments_L _ ST _ _ _ H1) as E2. rewrite <- E1 in He.
  apply bind_inv_ok in H as (tags & w2 & H2 & H). unfold lift_result in H2.
  injection H2 as H2 <-. unfold parse_attachments in H2.
  destruct (forallb _ _); simplify_eq.
  destruct (storageOps_Read_encodes _ _ _ ST He) as (err & Hr & Herr).
  rewrite (bind_ok _ _ _ _ _ Hr) in H.
  rewrite (bind_ok _ _ _ existing w1) in H by by destruct Herr as [->| ->].
  rewrite (bind_ok _ _ _ (view L w1) w1), (bind_ok _ _ _ w1 w1) in H by done.
  destruct (foldl _ _ _) as [p' s'] eqn:Ef. apply init_attachments_spec in Ef as [-> HS].
  apply bind_inv_ok in H as ([] & w2 & H2 & H). unfold over, modify in H2.
  injection H2 as <-.
  set (w2 := update L _ w1) in *.
  assert (storage_of w' = s' ∧ at_pending (view L w') = at_pending (view L w2)
    ∧ if decide (s' = ∅) then stored w' = stored w else encodes (stored w') s')
    as (Es & Ep & Hst).
  { unfold StorageState_Empty in H. destruct (bool_decide _) eqn:Hz.
    - apply bool_decide_eq_true, map_size_empty_iff in Hz.
      apply mret_inv in H as [_ ->]. unfold storage_of, w2. rewrite view_update.
      by rewrite decide_True, (sst_L _ ST) by done.
    - apply bool_decide_eq_false in Hz. pose proof (keeps_Write _ _ _ _ H) as Hk.
      apply (Write_encodes _ _ _ _ ST) in H. unfold storage_of. rewrite Hk. unfold w2.
      rewrite view_update, decide_False; [done|]. intros ->. by apply Hz. }
  rewrite Es. split; [|done]. split.
  - intros id. rewrite Es, HS.
    assert (id ∈ range w1 (elements (list_to_set ids : gset string)) ↔ id ∈ ids) as Hi.
    { by rewrite range_perm, elem_of_elements, elem_of_list_to_set. }
    repeat case_decide; try done; naive_solver.
  - rewrite Ep. unfold w2. rewrite view_update. simpl. rewrite E2. f_equal. f_equal.
    apply set_eq. intros x. by rewrite elem_of_list_to_set, range_perm, elem_of_elements.
Qed.

(** A restarted agent finds its storage as it left it.  After a storage
    hook was committed, a new agent process that reads the state back from the
    controller has exactly the storage recorded as attached that was attached
    before and that the controller still lists for the unit; and pending is
    exactly the listed storage no hook was ever committed for. *)
Theorem storage_survives_restart stored hi w w1 w2 w3 :
  MapOrderLaws W → storage_store stored →
  Attachments_CommitHook L rw api hi w = (Ok (), w1) →
  stored w2 = stored w1 → at_pending (view L w2) = ∅ →
  Attachments_init L rw api w2 = (Ok (), w3) →
  ∃ ids w', st_UnitStorageAttachments api w2 = (Ok ids, w')
    ∧ (∀ id, is_attached id (storage_of w3) = true ↔
         id ∈ ids ∧ is_attached id (storage_of w1) = true)
    ∧ (∀ id, id ∈ at_pending (view L w3) ↔ id ∈ ids ∧ storage_of w1 !! id = None).
Proof.
  intros MOL ST Hc Es Hp Hi.
  assert (encodes (stored w2) (storage_of w1)) as He.
  { rewrite Es. by eapply CommitHook_encodes. }
  destruct (Attachments_init_spec _ _ _ _ MOL ST He Hi) as (ids & w' & Ha & [HS HP] & _).
  exists ids, w'. split_and!; [done|..]; intros id.
  - unfold is_attached, StorageState_Attached. rewrite HS.
    case_decide; destruct (storage_of w1 !! id) as [[]|]; naive_solver.
  - rewrite HP, Hp, elem_of_union, elem_of_filter, elem_of_list_to_set. set_solver.
Qed.

(** A record of attached storage can outlive the storage.  A starting
    agent writes the state it computed only when it is not empty.  If the
    controller lists no attachment, the record of an attached storage stays on
    the controller; when that storage is attached to the unit again and the
    agent restarts once more, it counts as attached and is not pending, so no
    storage-attached hook is due for it. *)
Theorem stale_storage_record stored id existing w w1 w2 w3 :
  MapOrderLaws W → storage_store stored →
  encodes (stored w) existing → existing !! id = Some true →
  (∃ w', st_UnitStorageAttachments api w = (Ok [], w')) →
  Attachments_init L rw api w = (Ok (), w1) →
  stored w2 = stored w1 → at_pending (view L w2) = ∅ →
  (∃ w', st_UnitStorageAttachments api w2 = (Ok [id], w')) →
  Attachments_init L rw api w2 = (Ok (), w3) →
  storage_of w1 = ∅
  ∧ is_attached id (storage_of w3) = true ∧ at_pending (view L w3) = ∅
  ∧ ∀ snap k, ssn_Life snap = Alive → ¬ due snap (is_attached id (storage_of w3)) k.
Proof.
  intros MOL ST He Hx (v1 & Ha1) Hi1 Es Hp (v2 & Ha2) Hi2.
  destruct (Attachments_init_spec _ _ _ _ MOL ST He Hi1) as (ids & w' & Ha & [HS _] & Hst).
  assert (ids = []) as -> by congruence.
  assert (storage_of w1 = ∅) as E0.
  { apply (map_eq (M:=gmap string)). intros x. rewrite HS, decide_False; [done|set_solver]. }
  rewrite decide_True in Hst by done. rewrite <- Hst, <- Es in He.
  destruct (Attachments_init_spec _ _ _ _ MOL ST He Hi2) as (ids & v' & Hb & [HS2 HP2] & _).
  assert (ids = [id]) as -> by congruence.
  assert (is_attached id (storage_of w3) = true) as E3.
  { unfold is_attached, StorageState_Attached. rewrite HS2, decide_True; [done|].
    split; [by left|done]. }
  split_and!; [done..| |].
  - rewrite HP2, Hp. apply set_eq. intros x.
    rewrite elem_of_union, elem_of_filter, elem_of_list_to_set, list_elem_of_singleton.
    set_unfold. naive_solver.
  - intros snap k HL. unfold due. rewrite HL, E3. naive_solver.
Qed.
End facts.
