(* ===== verification/Secrets.v ===== *)
(** * Secrets

    internal/worker/uniter/secrets: state.go (what the unit has seen of the
    secrets it consumes and owns), secrets.go (that state, its copy on the
    controller, and the hooks that change it) and resolver.go (which secret
    hook to run next). *)

From S2P Require Import Prelude GoText Hooks OpState Operations Resolver SmallResolvers.
Import life operation.

(** ** state.go *)

(** [secrets.State]; the maps of a state the agent made or read exist. *)
Record SecretsState : Type := MkSecretsState {
  ss_ConsumedSecretInfo : gmap string Z;
  ss_SecretObsoleteRevisions : gmap string (list Z);
}.

Definition NewSecretsState : SecretsState := MkSecretsState ∅ ∅.

(** [State.UpdateStateForHook] *)
Definition SecretsState_UpdateStateForHook (info : hook.Info) (s : SecretsState) :
    SecretsState :=
  let uri := hook.SecretURI info in
  match hook.Kind info with
  | hooks.SecretChanged =>
      MkSecretsState (<[uri := hook.SecretRevision info]> (ss_ConsumedSecretInfo s))
        (ss_SecretObsoleteRevisions s)
  | hooks.SecretRemove =>
      let obsolete : gset Z :=
        {[hook.SecretRevision info]} ∪
        list_to_set (default [] (ss_SecretObsoleteRevisions s !! uri)) in
      MkSecretsState (ss_ConsumedSecretInfo s)
        (<[uri := sorted_ints obsolete]> (ss_SecretObsoleteRevisions s))
  | _ => s
  end.

(** What the YAML library reads: maps that may be nil.  [UnmarshalYAML] makes
    them. *)
Record SecretsYaml : Type := MkSecretsYaml {
  sy_ConsumedSecretInfo : option (gmap string Z);
  sy_SecretObsoleteRevisions : option (gmap string (list Z));
}.

Definition SecretsState_UnmarshalYAML (sc : SecretsYaml) : SecretsState :=
  MkSecretsState (default ∅ (sy_ConsumedSecretInfo sc))
    (default ∅ (sy_SecretObsoleteRevisions sc)).

(** The unit's secret state on the controller, and the YAML library for it. *)
Record UnitSecretRW (W : Type) : Type := MkUnitSecretRW {
  secrw_State : M W string;
  secrw_SetState : string → M W ();
}.
Arguments secrw_State {W} _.
Arguments secrw_SetState {W} _ _.

Class SecretsYamlLib : Type := {
  secrets_Marshal : SecretsState → result string;
  secrets_Unmarshal : string → result SecretsYaml;
}.

Section stateOps.
Context {YS : SecretsYamlLib} {W : Type} (rw : UnitSecretRW W).

(** [stateOps.Read]: the state and the error it returns. *)
Definition secretsOps_Read : M W (option SecretsState * option error) :=
  r ← try (secrw_State rw);
  mret match r with
       | Err e => (None, Some e)
       | Ok text =>
           if decide (text = "") then (Some NewSecretsState, Some (NotFound "secret State"))
           else match secrets_Unmarshal text with
           | Ok sc => (Some (SecretsState_UnmarshalYAML sc), None)
           | Err e => (None, Some e)
           end
       end.

Definition secretsOps_Write (st : SecretsState) : M W () :=
  data ← lift_result (secrets_Marshal st);
  secrw_SetState rw data.
End stateOps.

(** ** secrets.go *)

(** [set.NewInts(tracked...).Difference(set.NewInts(revs...)).SortedValues()] *)
Definition revs_difference (tracked revs : list Z) : list Z :=
  sorted_ints (list_to_set tracked ∖ list_to_set revs).

(** Drop revisions of a secret from the obsolete ones. *)
Definition drop_obsolete (uri : string) (revs : list Z) (m : gmap string (list Z)) :
    gmap string (list Z) :=
  let newObsoleteRevs := revs_difference (default [] (m !! uri)) revs in
  if decide (newObsoleteRevs = []) then delete uri m
  else <[uri := newObsoleteRevs]> m.

(** The two loops of [SecretsRemoved]; an empty list of revisions stands for
    the whole secret. *)
Definition remove_deleted (s : SecretsState) (d : string * list Z) : SecretsState :=
  let '(uri, revs) := d in
  if decide (revs = []) then
    MkSecretsState (delete uri (ss_ConsumedSecretInfo s))
      (delete uri (ss_SecretObsoleteRevisions s))
  else MkSecretsState (ss_ConsumedSecretInfo s)
         (drop_obsolete uri revs (ss_SecretObsoleteRevisions s)).

Definition remove_obsolete (s : SecretsState) (d : string * list Z) : SecretsState :=
  let '(uri, revs) := d in
  MkSecretsState (ss_ConsumedSecretInfo s)
    (if decide (revs = []) then delete uri (ss_SecretObsoleteRevisions s)
     else drop_obsolete uri revs (ss_SecretObsoleteRevisions s)).

(** [CollectRemovedSecretObsoleteRevisions]: binary search in the sorted known
    revisions is membership; nil and an empty map are the same to the caller. *)
Definition CollectRemoved (known : gmap string (list Z)) (s : SecretsState) :
    gmap string (list Z) :=
  map_imap (λ id trackedRevs,
    match known !! id with
    | None => Some []
    | Some knownRevs =>
        let lostRevs := filter (λ rev, rev ∉ knownRevs) trackedRevs in
        if decide (lostRevs = []) then None else Some lostRevs
    end) (ss_SecretObsoleteRevisions s).

(** It sorts, in place, the known revisions of the secrets it tracks. *)
Definition CollectRemoved_known (known : gmap string (list Z)) (s : SecretsState) :
    gmap string (list Z) :=
  map_imap (λ id knownRevs,
    Some (match ss_SecretObsoleteRevisions s !! id with
          | Some _ => merge_sort Z.le knownRevs
          | None => knownRevs
          end)) known.

Section secrets.
Context {YS : SecretsYamlLib} {W : Type} {MO : MapOrder W}
  (L : lens W SecretsState) (rw : UnitSecretRW W)
  (GetConsumerSecretsRevisionInfo : list string → M W (gmap string SecretRevisionInfo)).

Definition Secrets_init : M W () :=
  '(existing, err) ← secretsOps_Read rw;
  existing ← match err, existing with
             | None, Some s | Some (NotFound _), Some s => mret s
             | Some (NotFound _), None | None, None =>
                 throw (GoPanic "nil pointer dereference")
             | Some e, _ => throw e
             end;
  _ ← over L (λ _, existing);
  if decide (0 < size (ss_ConsumedSecretInfo existing)) then
    info ← GetConsumerSecretsRevisionInfo
             (sorted_strings (dom (ss_ConsumedSecretInfo existing)));
    let updated := sri_LatestRevision <$> info in
    if decide (updated ≠ ss_ConsumedSecretInfo existing) then
      let s := MkSecretsState updated (ss_SecretObsoleteRevisions existing) in
      _ ← over L (λ _, s);
      secretsOps_Write rw s
    else mret ()
  else mret ().

Definition Secrets_ConsumedSecretRevision (uri : string) : M W Z :=
  look L (λ s, default 0%Z (ss_ConsumedSecretInfo s !! uri)).

Definition Secrets_SecretObsoleteRevisions (uri : string) : M W (list Z) :=
  look L (λ s, default [] (ss_SecretObsoleteRevisions s !! uri)).

Definition Secrets_PrepareHook (hi : hook.Info) : M W () :=
  if negb (hooks.IsSecret (hook.Kind hi)) then throw (ErrNew "not a secret hook: %#v")
  else mret ().

Definition Secrets_CommitHook (hi : hook.Info) : M W () :=
  if negb (hooks.IsSecret (hook.Kind hi)) then throw (ErrNew "not a secret hook: %#v")
  else
    _ ← over L (SecretsState_UpdateStateForHook hi);
    s ← gets (view L);
    secretsOps_Write rw s.

Definition Secrets_SecretsRemoved (deletedRevisions deletedObsoleteRevisions :
    gmap string (list Z)) : M W () :=
  w ← get;
  _ ← over L (λ s, foldl remove_deleted s (range w (map_to_list deletedRevisions)));
  w ← get;
  _ ← over L (λ s, foldl remove_obsolete s
        (range w (map_to_list deletedObsoleteRevisions)));
  s ← gets (view L);
  secretsOps_Write rw s.

End secrets.

(** ** resolver.go *)

Definition splitSecretChange (c : string) : string * Z :=
  match split_on slash c with
  | uri :: rev :: _ => (uri, (Atoi rev).1)
  | [uri] => (uri, 0%Z)
  | [] => ("", 0%Z)
  end.

(** [SecretStateTracker], the methods the resolver uses.  Collecting removed
    revisions also gives the known ones as it leaves them. *)
Record SecretStateTracker (W : Type) : Type := MkSecretStateTracker {
  sec_ConsumedSecretRevision : string → M W Z;
  sec_CollectRemoved : gmap string (list Z) →
    M W (gmap string (list Z) * gmap string (list Z));
  sec_SecretObsoleteRevisions : string → M W (list Z);
}.
Arguments sec_ConsumedSecretRevision {W} _ _.
Arguments sec_CollectRemoved {W} _ _.
Arguments sec_SecretObsoleteRevisions {W} _ _.

Definition secretsTracker {W} (L : lens W SecretsState) : SecretStateTracker W := {|
  sec_ConsumedSecretRevision := Secrets_ConsumedSecretRevision L;
  sec_CollectRemoved known :=
    look L (λ s, (CollectRemoved known s, CollectRemoved_known known s));
  sec_SecretObsoleteRevisions := Secrets_SecretObsoleteRevisions L;
|}.

Section secretsResolver.
Context {W : Type} {MO : MapOrder W} (tracker : SecretStateTracker W)
  (rotatedSecrets expiredRevisions : string → W → W)
  (deletedSecrets : gmap string (list Z) → W → W).

Definition secrets_expireOp (opFactory : Factory W) : M (Snapshot * W) (operation W) :=
  expired ← remote sn_ExpiredSecretRevisions;
  match expired with
  | [] => throw ErrNoOperation
  | revSpec :: _ =>
      let '(uri, rev) := splitSecretChange revSpec in
      if decide (rev = 0)%Z then throw ErrNoOperation
      else
        op ← liftR (NewRunHook opFactory (hook.secret_info hooks.SecretExpired uri rev ""));
        mret (completer op (expiredRevisions revSpec))
  end.

Definition secrets_rotateOp (opFactory : Factory W) : M (Snapshot * W) (operation W) :=
  rotations ← remote sn_SecretRotations;
  match rotations with
  | [] => throw ErrNoOperation
  | uri :: _ =>
      op ← liftR (NewRunHook opFactory (hook.secret_info hooks.SecretRotate uri 0 ""));
      mret (completer op (rotatedSecrets uri))
  end.

(** The first consumed secret with a new revision. *)
Fixpoint secrets_changed (l : list (string * SecretRevisionInfo)) : M W (option hook.Info) :=
  match l with
  | [] => mret None
  | (uri, info) :: l' =>
      existing ← sec_ConsumedSecretRevision tracker uri;
      if decide (existing ≠ sri_LatestRevision info) then
        mret (Some (hook.secret_info hooks.SecretChanged uri (sri_LatestRevision info)
                      (sri_Label info)))
      else secrets_changed l'
  end.

(** The first obsolete revision that has had no secret-remove. *)
Fixpoint secrets_obsolete (l : list (string * list Z)) : M W (option hook.Info) :=
  match l with
  | [] => mret None
  | (uri, revs) :: l' =>
      processed ← sec_SecretObsoleteRevisions tracker uri;
      match head (filter (λ rev, rev ∉ processed) revs) with
      | Some rev => mret (Some (hook.secret_info hooks.SecretRemove uri rev ""))
      | None => secrets_obsolete l'
      end
  end.

(** The part of [NextOp] after expiry and rotation. *)
Definition secrets_rest (opFactory : Factory W) : M (Snapshot * W) (operation W) :=
  s ← get;
  changed ← liftR (secrets_changed (range s.2 (map_to_list (sn_ConsumedSecretInfo s.1))));
  match changed with
  | Some hi => liftR (NewRunHook opFactory hi)
  | None =>
      obsolete ← remote sn_ObsoleteSecretRevisions;
      deleted ← remote sn_DeletedSecretRevisions;
      '(deletedObsolete, obsolete) ← liftR (sec_CollectRemoved tracker obsolete);
      if bool_decide (0 < size deleted) || bool_decide (0 < size deletedObsolete) then
        op ← liftR (NewNoOpSecretsRemoved opFactory deleted deletedObsolete);
        mret (completer op (deletedSecrets deleted))
      else
        s ← get;
        o ← liftR (secrets_obsolete (range s.2 (map_to_list obsolete)));
        match o with
        | Some hi => liftR (NewRunHook opFactory hi)
        | None => throw ErrNoOperation
        end
  end.

Definition secretsResolver_NextOp : Resolver W := λ localState opFactory,
  let st := ls_State localState in
  unitLife ← remote sn_Life;
  if negb (Installed st) || bool_decide (unitLife = Dying) then throw ErrNoOperation
  else if decide (Kind st ≠ Continue) then throw ErrNoOperation
  else
    or_else (secrets_expireOp opFactory)
      (or_else (secrets_rotateOp opFactory) (secrets_rest opFactory)).

End secretsResolver.
