(* ===== verification/SecretsFacts.v ===== *)
(** * Secret hooks, each one once

    The state of a unit's secrets (Secrets.v) against what it is kept for:
    every new revision of a consumed secret and every obsolete revision of an
    owned one gets its hook exactly once, whatever the order in which the
    resolver goes over them, and revisions that are gone are forgotten. *)

From S2P Require Import Prelude Hooks OpState Operations Resolver SmallResolvers Secrets.
Import life operation.

(** What is due: a secret-changed for a consumed secret, a secret-remove for an
    obsolete revision. *)
Abbreviation secret_item := (string + string * Z)%type.

Definition changed_due (consumed : gmap string SecretRevisionInfo) (s : SecretsState) :
    list secret_item :=
  inl <$> (filter (λ p, default 0%Z (ss_ConsumedSecretInfo s !! p.1) ≠ sri_LatestRevision p.2)
             (map_to_list consumed)).*1.

Definition remove_due (obsolete : gmap string (list Z)) (s : SecretsState) :
    list secret_item :=
  map_to_list obsolete ≫= λ p,
    (λ rev, inr (p.1, rev)) <$>
      filter (λ rev, rev ∉ default [] (ss_SecretObsoleteRevisions s !! p.1)) p.2.

Definition secret_due (sn : Snapshot) (s : SecretsState) : gset secret_item :=
  list_to_set (changed_due (sn_ConsumedSecretInfo sn) s
               ++ remove_due (sn_ObsoleteSecretRevisions sn) s).

(** The hook for it. *)
Definition item_hook (sn : Snapshot) (item : secret_item) (hi : hook.Info) : Prop :=
  match item with
  | inl uri => ∃ info, sn_ConsumedSecretInfo sn !! uri = Some info ∧
      hi = hook.secret_info hooks.SecretChanged uri (sri_LatestRevision info)
             (sri_Label info)
  | inr (uri, rev) => hi = hook.secret_info hooks.SecretRemove uri rev ""
  end.

(** The revisions that are left of a secret's obsolete ones. *)
Definition left_over (revs : list Z) (o : option (list Z)) : option (list Z) :=
  if decide (revs = []) then None
  else
    let n := revs_difference (default [] o) revs in
    if decide (n = []) then None else Some n.

(** ** What is due *)

Lemma due_changed sn s uri :
  inl uri ∈ secret_due sn s ↔ ∃ info, sn_ConsumedSecretInfo sn !! uri = Some info
    ∧ default 0%Z (ss_ConsumedSecretInfo s !! uri) ≠ sri_LatestRevision info.
Proof.
  unfold secret_due. rewrite elem_of_list_to_set, elem_of_app.
  unfold changed_due, remove_due. split.
  - intros [H|H].
    + apply list_elem_of_fmap in H as (u & [= ->] & H).
      apply list_elem_of_fmap in H as ([u' info] & -> & H).
      apply list_elem_of_filter in H as [H1 H2%elem_of_map_to_list]. eauto.
    + apply list_elem_of_bind in H as (p & H & _).
      apply list_elem_of_fmap in H as (? & ? & _). done.
  - intros (info & H1 & H2). left. apply list_elem_of_fmap. exists uri. split; [done|].
    apply list_elem_of_fmap. exists (uri, info). split; [done|].
    apply list_elem_of_filter. by rewrite elem_of_map_to_list.
Qed.

Lemma due_remove sn s uri rev :
  inr (uri, rev) ∈ secret_due sn s ↔
    ∃ revs, sn_ObsoleteSecretRevisions sn !! uri = Some revs ∧ rev ∈ revs
      ∧ rev ∉ default [] (ss_SecretObsoleteRevisions s !! uri).
Proof.
  unfold secret_due. rewrite elem_of_list_to_set, elem_of_app.
  unfold changed_due, remove_due. split.
  - intros [H|H].
    + apply list_elem_of_fmap in H as (? & ? & _). done.
    + apply list_elem_of_bind in H as ([u revs] & H & Hp%elem_of_map_to_list).
      apply list_elem_of_fmap in H as (r & [= -> ->] & H).
      apply list_elem_of_filter in H as [H1 H2]. eauto.
  - intros (revs & H1 & H2 & H3). right. apply list_elem_of_bind.
    exists (uri, revs). rewrite elem_of_map_to_list. split; [|done].
    apply list_elem_of_fmap. exists rev. split; [done|]. by apply list_elem_of_filter.
Qed.

(** Committing the hook of a due item discharges that item and no other. *)
Lemma item_discharged sn item hi s :
  item_hook sn item hi →
  secret_due sn (SecretsState_UpdateStateForHook hi s) = secret_due sn s ∖ {[item]}.
Proof.
  intros Hi. apply set_eq. intros x. rewrite elem_of_difference, elem_of_singleton.
  destruct item as [uri|[uri rev]]; simpl in Hi.
  - destruct Hi as (info & Hl & ->). unfold SecretsState_UpdateStateForHook. simpl.
    destruct x as [u|[u r]]; [rewrite !due_changed|rewrite !due_remove; naive_solver].
    simpl. destruct (decide (u = uri)) as [->|Hne].
    + rewrite lookup_insert_eq, Hl. simpl. naive_solver.
    + rewrite lookup_insert_ne by done. naive_solver.
  - subst hi. unfold SecretsState_UpdateStateForHook. simpl.
    destruct x as [u|[u r]]; [rewrite !due_changed; naive_solver|rewrite !due_remove].
    simpl. destruct (decide (u = uri)) as [->|Hne].
    + rewrite lookup_insert_eq. simpl. setoid_rewrite elem_of_sorted_ints.
      setoid_rewrite elem_of_union. setoid_rewrite elem_of_singleton.
      setoid_rewrite elem_of_list_to_set. naive_solver.
    + rewrite lookup_insert_ne by done. naive_solver.
Qed.

(** ** The resolver *)

Section resolver.
Context {W : Type} {MO : MapOrder W} {MOL : MapOrderLaws W}
  (L : lens W SecretsState) (rotated expired : string → W → W)
  (deletedSecrets : gmap string (list Z) → W → W).

Lemma secrets_changed_cases l w :
  secrets_changed (secretsTracker L) l w =
    (Ok (first_some (λ p,
       if decide (default 0%Z (ss_ConsumedSecretInfo (view L w) !! p.1)
                  ≠ sri_LatestRevision p.2)
       then Some (hook.secret_info hooks.SecretChanged p.1 (sri_LatestRevision p.2)
                    (sri_Label p.2))
       else None) l), w).
Proof.
  induction l as [|[uri info] l IH]; [done|]. simpl.
  unfold Secrets_ConsumedSecretRevision, look. rewrite (bind_ok _ _ _ _ w) by done.
  by case_decide.
Qed.

Lemma secrets_obsolete_cases l w :
  secrets_obsolete (secretsTracker L) l w =
    (Ok (first_some (λ p,
       (λ rev, hook.secret_info hooks.SecretRemove p.1 rev "") <$>
         head (filter (λ rev, rev ∉ default []
                 (ss_SecretObsoleteRevisions (view L w) !! p.1)) p.2)) l), w).
Proof.
  induction l as [|[uri revs] l IH]; [done|]. simpl.
  unfold Secrets_SecretObsoleteRevisions, look. rewrite (bind_ok _ _ _ _ w) by done.
  by destruct (head _).
Qed.

(** The first choice: a consumed secret that changed. *)
Lemma changed_choice sn w l :
  l ≡ₚ map_to_list (sn_ConsumedSecretInfo sn) →
  match (secrets_changed (secretsTracker L) l w).1 with
  | Ok (Some hi) => ∃ uri, inl uri ∈ secret_due sn (view L w) ∧ item_hook sn (inl uri) hi
  | Ok None => ∀ uri, inl uri ∉ secret_due sn (view L w)
  | Err _ => False
  end.
Proof.
  intros Hl. rewrite secrets_changed_cases. simpl.
  destruct (first_some _ l) as [hi|] eqn:E.
  - apply first_some_Some in E as ([uri info] & Hin & E). simpl in E.
    case_decide; [|done]. injection E as <-.
    rewrite Hl, elem_of_map_to_list in Hin. exists uri. split; [apply due_changed|]; by exists info.
  - intros uri (info & H1 & H2)%due_changed. rewrite first_some_None in E.
    specialize (E (uri, info)). simpl in E. rewrite decide_True in E by done.
    discriminate E. by rewrite Hl, elem_of_map_to_list.
Qed.

(** The last one: an obsolete revision. *)
Lemma obsolete_choice sn w l :
  l ≡ₚ map_to_list (CollectRemoved_known (sn_ObsoleteSecretRevisions sn) (view L w)) →
  match (secrets_obsolete (secretsTracker L) l w).1 with
  | Ok (Some hi) => ∃ it, inr it ∈ secret_due sn (view L w) ∧ item_hook sn (inr it) hi
  | Ok None => ∀ it, inr it ∉ secret_due sn (view L w)
  | Err _ => False
  end.
Proof.
  intros Hl.
  assert (∀ uri revs, (uri, revs) ∈ l → ∃ revs0, revs ≡ₚ revs0 ∧
            sn_ObsoleteSecretRevisions sn !! uri = Some revs0) as Hlk.
  { intros uri revs. rewrite Hl, elem_of_map_to_list. unfold CollectRemoved_known.
    rewrite map_lookup_imap. intros (revs0 & H1 & H2)%bind_Some.
    exists revs0. split; [|done]. injection H2 as <-.
    destruct (ss_SecretObsoleteRevisions _ !! _); [apply merge_sort_Permutation|done]. }
  rewrite secrets_obsolete_cases. simpl. destruct (first_some _ l) as [hi|] eqn:E.
  - apply first_some_Some in E as ([uri revs] & Hin & E). simpl in E.
    apply fmap_Some in E as (rev & E & ->).
    apply head_Some_elem_of, list_elem_of_filter in E as [E1 E2].
    destruct (Hlk _ _ Hin) as (revs0 & Hp & Hs). rewrite Hp in E2.
    exists (uri, rev). split; [apply due_remove; by exists revs0|done].
  - intros [uri rev] (revs & H1 & H2 & H3)%due_remove. rewrite first_some_None in E.
    assert (∃ revs1, revs1 ≡ₚ revs ∧ (uri, revs1) ∈ l) as (revs1 & Hp & Hin).
    { setoid_rewrite Hl. setoid_rewrite elem_of_map_to_list. unfold CollectRemoved_known.
      setoid_rewrite map_lookup_imap. rewrite H1. simpl. eexists. split; [|done].
      destruct (ss_SecretObsoleteRevisions _ !! _); [apply merge_sort_Permutation|done]. }
    specialize (E _ Hin). simpl in E. apply fmap_None, head_None in E.
    assert (rev ∈ filter (λ rev, rev ∉ default []
      (ss_SecretObsoleteRevisions (view L w) !! uri)) revs1) as Hr.
    { apply list_elem_of_filter. by rewrite Hp. }
    rewrite E in Hr. by apply not_elem_of_nil in Hr.
Qed.

Abbreviation NextOp := (secretsResolver_NextOp (secretsTracker L) rotated expired deletedSecrets).

(** The resolver past expiry and rotation, and what it finds there. *)
Lemma secrets_rest_eq (f : Factory W) sn w :
  ∃ changed obs, 
    match changed with
    | Some hi => ∃ uri, inl uri ∈ secret_due sn (view L w) ∧ item_hook sn (inl uri) hi
    | None => ∀ uri, inl uri ∉ secret_due sn (view L w)
    end ∧
    match obs with
    | Some hi => ∃ it, inr it ∈ secret_due sn (view L w) ∧ item_hook sn (inr it) hi
    | None => ∀ it, inr it ∉ secret_due sn (view L w)
    end ∧
    let deleted := sn_DeletedSecretRevisions sn in
    let removed := CollectRemoved (sn_ObsoleteSecretRevisions sn) (view L w) in
    secrets_rest (secretsTracker L) deletedSecrets f (sn, w) =
    match changed with
    | Some hi => liftR (NewRunHook f hi) (sn, w)
    | None =>
        if bool_decide (0 < size deleted) || bool_decide (0 < size removed) then
          (op ← liftR (NewNoOpSecretsRemoved f deleted removed);
           mret (completer op (deletedSecrets deleted))) (sn, w)
        else match obs with
        | Some hi => liftR (NewRunHook f hi) (sn, w)
        | None => (Err ErrNoOperation, (sn, w))
        end
    end.
Proof.
  pose proof (changed_choice sn w (range w (map_to_list (sn_ConsumedSecretInfo sn)))
    (range_perm _ _)) as Hc.
  set (known := CollectRemoved_known (sn_ObsoleteSecretRevisions sn) (view L w)).
  pose proof (obsolete_choice sn w (range w (map_to_list known)) (range_perm _ _)) as Ho.
  rewrite secrets_changed_cases in Hc. rewrite secrets_obsolete_cases in Ho. simpl in *.
  eexists _, _. split; [exact Hc|]. split; [exact Ho|]. simpl.
  unfold secrets_rest. rewrite (bind_ok _ _ _ (sn, w) (sn, w)) by done.
  assert (∀ {A} (m : M W A) r, m w = (r, w) → liftR m (sn, w) = (r, (sn, w))) as Hlift.
  { intros A m r H. unfold liftR, zoom. simpl. by rewrite H. }
  rewrite (bind_ok _ _ _ _ _ (Hlift _ _ _ (secrets_changed_cases _ w))). cbn [fst snd].
  destruct (first_some _ (range w (map_to_list (sn_ConsumedSecretInfo sn)))); [done|].
  rewrite (bind_ok _ _ _ (sn_ObsoleteSecretRevisions sn) (sn, w)) by done.
  rewrite (bind_ok _ _ _ (sn_DeletedSecretRevisions sn) (sn, w)) by done.
  rewrite (bind_ok _ _ _ (CollectRemoved (sn_ObsoleteSecretRevisions sn) (view L w), known)
    (sn, w)) by done.
  destruct (_ || _); [done|]. rewrite (bind_ok _ _ _ (sn, w) (sn, w)) by done.
  rewrite (bind_ok _ _ _ _ _ (Hlift _ _ _ (secrets_obsolete_cases _ w))). cbn [fst snd].
  by destruct (first_some _ (range w (map_to_list known))).
Qed.

Lemma secrets_NextOp_rest l (f : Factory W) sn w :
  Installed (ls_State l) = true → Kind (ls_State l) = Continue → sn_Life sn ≠ Dying →
  sn_ExpiredSecretRevisions sn = [] → sn_SecretRotations sn = [] →
  NextOp l f (sn, w) = secrets_rest (secretsTracker L) deletedSecrets f (sn, w).
Proof.
  intros HI HK HL HE HR. unfold secretsResolver_NextOp.
  rewrite (bind_ok _ _ _ (sn_Life sn) (sn, w)), HI, HK, bool_decide_false by done. simpl.
  unfold or_else, secrets_expireOp, secrets_rotateOp.
  munfold. rewrite HE. simpl. by rewrite HR.
Qed.


(** When the secrets resolver has nothing to do, nothing is due.  If it
    answers that there is no operation for an installed unit at rest, every
    consumed secret's latest revision was seen, every obsolete revision had its
    secret-remove hook, and there is no deleted revision left to forget. *)
Theorem no_secret_due_when_idle l (f : Factory W) sn w s' :
  (∀ hi, decisive (NewRunHook f hi)) →
  (∀ d r, decisive (NewNoOpSecretsRemoved f d r)) →
  Installed (ls_State l) = true → Kind (ls_State l) = Continue → sn_Life sn ≠ Dying →
  sn_ExpiredSecretRevisions sn = [] → sn_SecretRotations sn = [] →
  NextOp l f (sn, w) = (Err ErrNoOperation, s') →
  secret_due sn (view L w) = ∅ ∧ sn_DeletedSecretRevisions sn = ∅
  ∧ CollectRemoved (sn_ObsoleteSecretRevisions sn) (view L w) = ∅.
Proof.
  intros Hn Hd HI HK HL HE HR H. rewrite secrets_NextOp_rest in H by done.
  destruct (secrets_rest_eq f sn w) as (changed & obs & Hc & Ho & E).
  cbv zeta in E. rewrite E in H. destruct changed as [hi|].
  { by apply (decisive_liftR _ (Hn hi)) in H as [? _]. }
  destruct (_ || _) eqn:Hb.
  { exfalso. apply bind_inv_err in H as [H|(? & ? & _ & H)].
    - by apply (decisive_liftR _ (Hd _ _)) in H as [? _].
    - by apply mret_inv in H as [? _]. }
  destruct obs as [hi|]; [by apply (decisive_liftR _ (Hn hi)) in H as [? _]|].
  apply orb_false_iff in Hb as [Hb1%bool_decide_eq_false Hb2%bool_decide_eq_false].
  split_and!.
  - apply set_eq. intros [uri|it]; set_solver.
  - apply map_size_empty_iff. lia.
  - apply map_size_empty_iff. lia.
Qed.
End resolver.

(** ** Forgetting what is gone *)

(** A loop over a map that treats each key on its own does not depend on the
    order. *)
Section keyed.
Context {A B V : Type} (step : A → string * V → A) (at_key : A → string → B) (g : V → B → B).
Hypothesis Hsame : ∀ a k v, at_key (step a (k, v)) k = g v (at_key a k).
Hypothesis Hother : ∀ a k v k', k' ≠ k → at_key (step a (k, v)) k' = at_key a k'.

Lemma keyed_absent l a k : k ∉ l.*1 → at_key (foldl step a l) k = at_key a k.
Proof using Hother.
  revert a. induction l as [|[k0 v0] l IH]; intros a Hk; [done|].
  rewrite fmap_cons, not_elem_of_cons in Hk. destruct Hk as [Hne Hk]. simpl in *.
  rewrite IH by done. by apply Hother.
Qed.

Lemma keyed_present l a k v :
  NoDup l.*1 → (k, v) ∈ l → at_key (foldl step a l) k = g v (at_key a k).
Proof using Hsame Hother.
  revert a. induction l as [|[k0 v0] l IH]; intros a Hd Hin; [by apply not_elem_of_nil in Hin|].
  rewrite fmap_cons, NoDup_cons in Hd. destruct Hd as [Hk Hd]. simpl in *.
  apply elem_of_cons in Hin as [[= -> ->]|Hin].
  - rewrite keyed_absent by done. apply Hsame.
  - rewrite IH by done. rewrite Hother; [done|]. intros ->. apply Hk.
    apply list_elem_of_fmap. by exists (k0, v).
Qed.

Lemma keyed_map (m : gmap string V) l a k :
  l ≡ₚ map_to_list m →
  at_key (foldl step a l) k = match m !! k with Some v => g v (at_key a k) | None => at_key a k end.
Proof using Hsame Hother.
  intros Hl. destruct (m !! k) as [v|] eqn:E.
  - apply keyed_present; [rewrite Hl; apply NoDup_fst_map_to_list|].
    by rewrite Hl, elem_of_map_to_list.
  - apply keyed_absent. rewrite Hl. intros ([k' v] & -> & H)%list_elem_of_fmap.
    apply elem_of_map_to_list in H. simpl in *. congruence.
Qed.
End keyed.

Lemma lookup_drop_obsolete uri revs m k :
  revs ≠ [] →
  drop_obsolete uri revs m !! k = if decide (k = uri) then left_over revs (m !! uri) else m !! k.
Proof.
  intros Hr. unfold drop_obsolete, left_over. rewrite (decide_False (P:=revs = [])) by done.
  repeat case_decide; subst; by rewrite ?lookup_insert_eq, ?lookup_delete_eq,
    ?lookup_insert_ne, ?lookup_delete_ne by done.
Qed.

Lemma elem_of_left_over revs o rev :
  rev ∈ default [] (left_over revs o) ↔
    rev ∈ default [] o ∧ revs ≠ [] ∧ rev ∉ revs.
Proof.
  unfold left_over. case_decide as Hr; simpl; [set_solver|].
  assert (rev ∈ revs_difference (default [] o) revs ↔ rev ∈ default [] o ∧ rev ∉ revs) as E.
  { unfold revs_difference. by rewrite elem_of_sorted_ints, elem_of_difference,
      !elem_of_list_to_set. }
  case_decide as Hn; simpl; [rewrite Hn in E|]; set_solver.
Qed.

(** Both loops of [SecretsRemoved], one secret at a time. *)
Lemma lookup_remove_obsolete l (m : gmap string (list Z)) s uri :
  l ≡ₚ map_to_list m →
  ss_SecretObsoleteRevisions (foldl remove_obsolete s l) !! uri =
    match m !! uri with
    | Some revs => left_over revs (ss_SecretObsoleteRevisions s !! uri)
    | None => ss_SecretObsoleteRevisions s !! uri
    end.
Proof.
  apply (keyed_map remove_obsolete (λ s k, ss_SecretObsoleteRevisions s !! k) left_over).
  - intros a k revs. unfold remove_obsolete. simpl. case_decide as Hr.
    + subst. by rewrite lookup_delete_eq.
    + by rewrite lookup_drop_obsolete, decide_True.
  - intros a k revs k' Hne. unfold remove_obsolete. simpl. case_decide.
    + by rewrite lookup_delete_ne.
    + by rewrite lookup_drop_obsolete, decide_False.
Qed.

Lemma remove_obsolete_consumed l s :
  ss_ConsumedSecretInfo (foldl remove_obsolete s l) = ss_ConsumedSecretInfo s.
Proof. revert s; induction l as [|[] l IH]; intros s0; [done|]. simpl. by rewrite IH. Qed.

Lemma lookup_remove_deleted l (m : gmap string (list Z)) s uri :
  l ≡ₚ map_to_list m →
  ss_SecretObsoleteRevisions (foldl remove_deleted s l) !! uri =
    match m !! uri with
    | Some revs => left_over revs (ss_SecretObsoleteRevisions s !! uri)
    | None => ss_SecretObsoleteRevisions s !! uri
    end.
Proof.
  apply (keyed_map remove_deleted (λ s k, ss_SecretObsoleteRevisions s !! k) left_over).
  - intros a k revs. unfold remove_deleted. case_decide as Hr; simpl.
    + subst. by rewrite lookup_delete_eq.
    + by rewrite lookup_drop_obsolete, decide_True.
  - intros a k revs k' Hne. unfold remove_deleted. case_decide; simpl.
    + by rewrite lookup_delete_ne.
    + by rewrite lookup_drop_obsolete, decide_False.
Qed.

Lemma lookup_remove_consumed l (m : gmap string (list Z)) s uri :
  l ≡ₚ map_to_list m →
  ss_ConsumedSecretInfo (foldl remove_deleted s l) !! uri =
    match m !! uri with
    | Some [] => None
    | _ => ss_ConsumedSecretInfo s !! uri
    end.
Proof.
  intros Hl. rewrite (keyed_map remove_deleted (λ s k, ss_ConsumedSecretInfo s !! k)
    (λ revs o, match revs with [] => None | _ => o end)) with (m := m); [| | |done].
  - by destruct (m !! uri) as [[]|].
  - intros a k [|r revs]; unfold remove_deleted; [|done]. simpl. by rewrite lookup_delete_eq.
  - intros a k revs k' Hne. unfold remove_deleted. case_decide; [|done]. simpl.
    by rewrite lookup_delete_ne.
Qed.

(** Whether the controller says that a revision was deleted. *)
Definition gone (deleted : gmap string (list Z)) (uri : string) (rev : Z) : Prop :=
  ∃ revs, deleted !! uri = Some revs ∧ (revs = [] ∨ rev ∈ revs).

(** What remains of one secret's obsolete revisions. *)
Definition remains (deleted known : gmap string (list Z)) (s : SecretsState)
    (uri : string) : option (list Z) :=
  let o := match deleted !! uri with
           | Some revs => left_over revs (ss_SecretObsoleteRevisions s !! uri)
           | None => ss_SecretObsoleteRevisions s !! uri
           end in
  match CollectRemoved known s !! uri with
  | Some revs => left_over revs o
  | None => o
  end.

Lemma elem_of_not_gone deleted uri rev o :
  rev ∈ default [] (match deleted !! uri with
                    | Some revs => left_over revs o | None => o end) ↔
    rev ∈ default [] o ∧ ¬ gone deleted uri rev.
Proof.
  unfold gone. destruct (deleted !! uri) as [revs|]; [|naive_solver].
  rewrite elem_of_left_over. naive_solver.
Qed.

Lemma elem_of_remains deleted known s uri rev :
  rev ∈ default [] (remains deleted known s uri) ↔
    rev ∈ default [] (ss_SecretObsoleteRevisions s !! uri)
    ∧ (∃ revs, known !! uri = Some revs ∧ rev ∈ revs) ∧ ¬ gone deleted uri rev.
Proof.
  unfold remains, CollectRemoved. rewrite map_lookup_imap.
  destruct (ss_SecretObsoleteRevisions s !! uri) as [tracked|] eqn:Et; simpl;
    [|rewrite elem_of_not_gone; set_solver].
  destruct (known !! uri) as [revs|] eqn:Ek; [|rewrite elem_of_left_over; naive_solver].
  case_decide as Hl.
  - rewrite elem_of_not_gone. simpl. split; [|naive_solver]. intros [H1 H2].
    split_and!; [done| |done]. exists revs. split; [done|].
    destruct (decide (rev ∈ revs)) as [|n]; [done|].
    by destruct (filter_nil_not_elem_of _ _ rev Hl n).
  - rewrite elem_of_left_over, elem_of_not_gone, list_elem_of_filter. simpl.
    destruct (decide (rev ∈ revs)); naive_solver.
Qed.

(** Nothing remains of a secret that is not known. *)
Lemma remains_unknown deleted known s uri :
  known !! uri = None → remains deleted known s uri = None.
Proof.
  intros Hk. unfold remains, CollectRemoved. rewrite map_lookup_imap, Hk.
  destruct (ss_SecretObsoleteRevisions s !! uri) as [tracked|]; [done|]. simpl.
  destruct (deleted !! uri) as [revs|]; [|done]. unfold left_over. case_decide; [done|].
  rewrite decide_True; [done|]. apply elem_of_nil_inv. intros rev.
  unfold revs_difference. rewrite elem_of_sorted_ints. set_solver.
Qed.

Section removed.
Context {YS : SecretsYamlLib} {W : Type} {MO : MapOrder W} {MOL : MapOrderLaws W}
  (L : lens W SecretsState) {LL : LensLaws L} (rw : UnitSecretRW W).
Hypothesis Hset : ∀ data, keeps (view L) (secrw_SetState rw data).

Lemma SecretsRemoved_state deleted deletedObsolete w w' :
  Secrets_SecretsRemoved L rw deleted deletedObsolete w = (Ok (), w') →
  ∃ l1 l2, l1 ≡ₚ map_to_list deleted ∧ l2 ≡ₚ map_to_list deletedObsolete ∧
    view L w' = foldl remove_obsolete (foldl remove_deleted (view L w) l1) l2.
Proof using LL MOL Hset.
  unfold Secrets_SecretsRemoved. rewrite (bind_ok _ _ _ w w) by done.
  unfold over. rewrite (bind_ok _ _ _ () _) by (unfold modify; done).
  set (w1 := update L _ w). rewrite (bind_ok _ _ _ w1 w1) by done.
  rewrite (bind_ok _ _ _ () _) by (unfold modify; done). set (w2 := update L _ w1).
  rewrite (bind_ok _ _ _ (view L w2) w2) by done. intros H.
  apply bind_inv_ok in H as (data & w3 & H3 & H). unfold lift_result in H3.
  injection H3 as _ <-. apply Hset in H.
  eexists _, _. split; [apply range_perm|]. split; [apply range_perm|].
  rewrite H. unfold w2, w1. by rewrite !view_update.
Qed.

(** The unit forgets exactly the revisions that are gone.  When the
    deleted revisions and the tracked obsolete ones the controller no longer
    knows are removed, what remains tracked is what was tracked, is still known
    and was not deleted; a consumed secret is dropped exactly when it was
    deleted as a whole; and collecting again finds nothing more to remove. *)
Theorem removed_secrets_are_forgotten deleted known w w' :
  Secrets_SecretsRemoved L rw deleted (CollectRemoved known (view L w)) w = (Ok (), w') →
  (∀ uri rev,
     rev ∈ default [] (ss_SecretObsoleteRevisions (view L w') !! uri) ↔
       rev ∈ default [] (ss_SecretObsoleteRevisions (view L w) !! uri)
       ∧ (∃ revs, known !! uri = Some revs ∧ rev ∈ revs) ∧ ¬ gone deleted uri rev)
  ∧ (∀ uri, ss_ConsumedSecretInfo (view L w') !! uri =
       if decide (deleted !! uri = Some []) then None
       else ss_ConsumedSecretInfo (view L w) !! uri)
  ∧ CollectRemoved known (view L w') = ∅.
Proof using LL MOL Hset.
  intros (l1 & l2 & P1 & P2 & E)%SecretsRemoved_state.
  assert (∀ uri, ss_SecretObsoleteRevisions (view L w') !! uri =
    remains deleted known (view L w) uri) as Ho.
  { intros uri. rewrite E, (lookup_remove_obsolete _ _ _ _ P2).
    by rewrite (lookup_remove_deleted _ _ _ _ P1). }
  split_and!.
  - intros uri rev. rewrite Ho. apply elem_of_remains.
  - intros uri. rewrite E, remove_obsolete_consumed, (lookup_remove_consumed _ _ _ _ P1).
    destruct (deleted !! uri) as [[]|]; by case_decide.
  - apply map_eq. intros uri. rewrite lookup_empty. unfold CollectRemoved.
    rewrite map_lookup_imap, Ho.
    destruct (known !! uri) as [revs|] eqn:Ek; [|by rewrite remains_unknown].
    destruct (remains _ _ _ _) as [tracked|] eqn:Et; [|done]. simpl.
    rewrite decide_True; [done|]. apply elem_of_nil_inv. intros rev.
    rewrite list_elem_of_filter. intros [Hn Hin].
    assert (rev ∈ default [] (remains deleted known (view L w) uri)) as Hr by by rewrite Et.
    apply elem_of_remains in Hr. naive_solver.
Qed.
End removed.
