(* ===== verification/UniterResolver.v ===== *)
(** * The uniter's resolver and callbacks

    internal/worker/uniter/resolver.go (the resolver that asks all the others,
    in order, and decides about installs, upgrades, hook errors and the end of
    the unit) and op_callbacks.go (what operations ask of the uniter's parts). *)

From S2P Require Import Prelude Hooks OpState Operations RelationState Resolver RelationTracker Storage Secrets.
Import life operation.

(** internal/worker/errors.go *)
Abbreviation ErrTerminateAgent := (ErrConst "agent should be terminated").
Abbreviation ErrRebootMachine := (ErrConst "machine needs to reboot").

(** ** resolver.go *)

Record ResolverConfig (W : Type) : Type := MkResolverConfig {
  rc_ClearResolved : M W ();
  rc_ReportHookError : hook.Info → M W ();
  rc_ShouldRetryHooks : bool;
  rc_StartRetryHookTimer : W → W;
  rc_StopRetryHookTimer : W → W;
  rc_Reboot : Resolver W;
  rc_Leadership : Resolver W;
  rc_Actions : Resolver W;
  rc_CreatedRelations : Resolver W;
  rc_Relations : Resolver W;
  rc_Storage : Resolver W;
  rc_Commands : Resolver W;
  rc_Secrets : Resolver W;
  rc_OptionalResolvers : list (Resolver W);
  (** a wrench in the works, which only exists when tracing *)
  rc_wrench : string → hooks.HookKind → bool;
}.
Arguments rc_ClearResolved {W} _.
Arguments rc_ReportHookError {W} _ _.
Arguments rc_ShouldRetryHooks {W} _.
Arguments rc_StartRetryHookTimer {W} _ _.
Arguments rc_StopRetryHookTimer {W} _ _.
Arguments rc_Reboot {W} _ _ _.
Arguments rc_Leadership {W} _ _ _.
Arguments rc_Actions {W} _ _ _.
Arguments rc_CreatedRelations {W} _ _ _.
Arguments rc_Relations {W} _ _ _.
Arguments rc_Storage {W} _ _ _.
Arguments rc_Commands {W} _ _ _.
Arguments rc_Secrets {W} _ _ _.
Arguments rc_OptionalResolvers {W} _.
Arguments rc_wrench {W} _ _ _.

Section uniterResolver.
Context {W : Type} (config : ResolverConfig W) (RT : lens W bool).

Abbreviation op_of := (M (Snapshot * W) (operation W)).

(** [*localState.Hook] *)
Definition local_hook (localState : LocalState) : M (Snapshot * W) hook.Info :=
  match Hook (ls_State localState) with
  | Some hi => mret hi
  | None => throw (GoPanic "nil pointer dereference")
  end.

Definition charmModified (local : LocalState) (remoteState : Snapshot) : bool :=
  if decide (sn_CharmURL remoteState = "") then false
  else if decide (ls_CharmURL local ≠ sn_CharmURL remoteState) then true
  else if decide (ls_CharmModifiedVersion local ≠ sn_CharmModifiedVersion remoteState)
  then true else false.

(** [s.retryHookTimerStarted = b] *)
Definition set_retryTimer (b : bool) : M (Snapshot * W) () :=
  liftR (over RT (λ _, b)).

Definition newUpgradeOperation (opFactory : Factory W) : op_of :=
  url ← remote sn_CharmURL;
  liftR (NewUpgrade opFactory url).

Definition nextOpConflicted (localState : LocalState) (opFactory : Factory W) : op_of :=
  sn ← remote (λ sn, sn);
  if decide (sn_ResolvedMode sn ≠ ResolvedNone) then
    _ ← liftR (rc_ClearResolved config);
    liftR (NewResolvedUpgrade opFactory (ls_CharmURL localState))
  else if sn_ForceCharmUpgrade sn && charmModified localState sn then
    liftR (NewRevertUpgrade opFactory (sn_CharmURL sn))
  else throw ErrWaiting.

(** Stopping the retry timer and clearing the resolved mode. *)
Definition hook_resolved : M (Snapshot * W) () :=
  _ ← liftR (modify (rc_StopRetryHookTimer config));
  _ ← set_retryTimer false;
  liftR (rc_ClearResolved config).

Definition nextOpHookError (localState : LocalState) (opFactory : Factory W) : op_of :=
  hi ← local_hook localState;
  _ ← liftR (rc_ReportHookError config hi);
  sn ← remote (λ sn, sn);
  if sn_ForceCharmUpgrade sn && charmModified localState sn then
    newUpgradeOperation opFactory
  else match sn_ResolvedMode sn with
  | ResolvedNone =>
      if decide (sn_RetryHookVersion sn > ls_RetryHookVersion localState)%Z then
        _ ← set_retryTimer false;
        liftR (NewRunHook opFactory hi)
      else
        started ← liftR (gets (view RT));
        _ ← if negb started && rc_ShouldRetryHooks config then
              _ ← liftR (modify (rc_StartRetryHookTimer config));
              set_retryTimer true
            else mret ();
        throw ErrNoOperation
  | ResolvedRetryHooks =>
      _ ← hook_resolved;
      liftR (NewRunHook opFactory hi)
  | ResolvedNoHooks =>
      _ ← hook_resolved;
      liftR (NewSkipHook opFactory hi)
  | OtherResolved _ => throw (ErrNew "unknown resolved mode %q")
  end.

(** The part of [nextOp] for a unit that goes on living. *)
Definition nextOp_alive (localState : LocalState) (opFactory : Factory W) : op_of :=
  let st := ls_State localState in
  sn ← remote (λ sn, sn);
  if negb (Installed st) && negb (Started st) then
    liftR (NewRunHook opFactory (hook.info_of_kind hooks.Install))
  else if charmModified localState sn then newUpgradeOperation opFactory
  else if bool_decide (ConfigHash st ≠ sn_ConfigHash sn)
          || bool_decide (TrustHash st ≠ sn_TrustHash sn)
          || bool_decide (AddressesHash st ≠ sn_AddressesHash sn) then
    liftR (NewRunHook opFactory (hook.info_of_kind hooks.ConfigChanged))
  else
    or_else (rc_Relations config localState opFactory)
      (if decide (ls_UpdateStatusVersion localState ≠ sn_UpdateStatusVersion sn) then
         liftR (NewRunHook opFactory (hook.info_of_kind hooks.UpdateStatus))
       else throw ErrNoOperation).

Definition nextOp (localState : LocalState) (opFactory : Factory W) : op_of :=
  let st := ls_State localState in
  sn ← remote (λ sn, sn);
  match sn_Life sn with
  | Alive =>
      if sn_Shutdown sn then
        if Started st && negb (Stopped st) then
          liftR (NewRunHook opFactory (hook.info_of_kind hooks.Stop))
        else throw ErrTerminateAgent
      else nextOp_alive localState opFactory
  | Dying =>
      or_else (rc_Relations config localState opFactory)
        (if Started st && negb (Stopped st) then
           liftR (NewRunHook opFactory (hook.info_of_kind hooks.Stop))
         else if Installed st && negb (Removed st) then
           liftR (NewRunHook opFactory (hook.info_of_kind hooks.Remove))
         else throw ErrUnitDead)
  | Dead => throw ErrUnitDead
  | Unknown _ => nextOp_alive localState opFactory
  end.

(** The resolvers asked before anything else, in order. *)
Fixpoint ask_in_order (rs : list (Resolver W)) (localState : LocalState)
    (opFactory : Factory W) (k : op_of) : op_of :=
  match rs with
  | [] => k
  | r :: rs' =>
      or_else (r localState opFactory) (ask_in_order rs' localState opFactory k)
  end.

(** The last part of [NextOp]: the operation in progress. *)
Definition nextOp_inProgress (localState : LocalState) (opFactory : Factory W) : op_of :=
  let st := ls_State localState in
  match Kind st with
  | RunHook =>
      match default (Step st) (HookStep st) with
      | Pending => nextOpHookError localState opFactory
      | Queued =>
          hi ← local_hook localState;
          if decide (hook.Kind hi = hooks.Install) then nextOp localState opFactory
          else liftR (NewRunHook opFactory hi)
      | Done =>
          hi ← local_hook localState;
          if bool_decide (ls_CharmURL localState ≠ "")
             && rc_wrench config (ls_CharmURL localState) (hook.Kind hi) then
            throw (ErrNew "commit hook %q failed due to a wrench in the works")
          else liftR (NewSkipHook opFactory hi)
      | OtherStep _ => throw (ErrNew "unknown hook operation step %v")
      end
  | Continue => nextOp localState opFactory
  | _ => throw (ErrNew "unknown operation kind %v")
  end.

(** Reset the retry timer when there is no failed hook. *)
Definition maybe_stopRetryTimer (st : OpState) : M (Snapshot * W) () :=
  started ← liftR (gets (view RT));
  if started && (bool_decide (Kind st ≠ RunHook) || bool_decide (Step st ≠ Pending)) then
    _ ← liftR (modify (rc_StopRetryHookTimer config));
    set_retryTimer false
  else mret ().

Definition uniterResolver_NextOp : Resolver W := λ localState opFactory,
  let st := ls_State localState in
  sn ← remote (λ sn, sn);
  if bool_decide (sn_Life sn = Dead) || Removed st then throw ErrUnitDead
  else
    or_else (rc_Reboot config localState opFactory)
    (if decide (Kind st = Upgrade) then
       if ls_Conflicted localState then nextOpConflicted localState opFactory
       else newUpgradeOperation opFactory
     else if ls_Restart localState then throw ErrRestart
     else
       _ ← maybe_stopRetryTimer st;
       ask_in_order
         ([rc_CreatedRelations config; rc_Leadership config]
          ++ rc_OptionalResolvers config
          ++ [rc_Secrets config; rc_Actions config; rc_Commands config;
              rc_Storage config])
         localState opFactory
         (sn ← remote (λ sn, sn);
          if sn_Shutdown sn then nextOp localState opFactory
          else nextOp_inProgress localState opFactory)).

End uniterResolver.

(** ** op_callbacks.go *)

(** What the uniter has behind its callbacks. *)
Record UniterParts (W : Type) : Type := MkUniterParts {
  up_tracker : RelationStateTracker W;
  up_SetHasStarted : bool → W → W;
  up_HookCompleted : option (string → W → W);
  up_HookFailed : option (string → W → W);
  up_ActionFinish : string → string → string → M W ();
  up_Charm : string → M W string;
  up_SetCharm : string → M W ();
  up_SetAgentStatus : string → string → M W ();
  up_SecretRotated : string → Z → M W ();
}.
Arguments up_tracker {W} _.
Arguments up_SetHasStarted {W} _ _ _.
Arguments up_HookCompleted {W} _.
Arguments up_HookFailed {W} _.
Arguments up_ActionFinish {W} _ _ _ _.
Arguments up_Charm {W} _ _.
Arguments up_SetCharm {W} _ _.
Arguments up_SetAgentStatus {W} _ _ _.
Arguments up_SecretRotated {W} _ _ _.

Section callbacks.
Context {NM : Names} {YS : Yaml (gmap string bool)} {YC : SecretsYamlLib}
  {W : Type} {MO : MapOrder W}
  (LA : lens W Attachments) (srw : UnitStorageRW W) (sapi : StorageAPI W)
  (LC : lens W SecretsState) (crw : UnitSecretRW W)
  (u : UniterParts W).

Definition callbacks_PrepareHook (hi : hook.Info) : M W string :=
  let kind := hook.Kind hi in
  let name := hooks.kind_string kind in
  if hooks.IsWorkload kind then
    mret (hook.WorkloadName hi +:+ "-" +:+ name)%string
  else if hooks.IsRelation kind then rt_PrepareHook (up_tracker u) hi
  else if hooks.IsStorage kind then
    _ ← Attachments_ValidateHook LA hi;
    storageName ← lift_result (StorageName (hook.StorageId hi));
    mret (storageName +:+ "-" +:+ name)%string
  else if hooks.IsSecret kind then
    _ ← Secrets_PrepareHook hi;
    mret name
  else mret name.

Definition callbacks_CommitHook (hi : hook.Info) : M W () :=
  let kind := hook.Kind hi in
  if decide (kind = hooks.Start) then modify (up_SetHasStarted u true)
  else if decide (kind = hooks.Stop) then modify (up_SetHasStarted u false)
  else if hooks.IsWorkload kind then mret ()
  else if hooks.IsRelation kind then rt_CommitHook (up_tracker u) hi
  else if hooks.IsStorage kind then Attachments_CommitHook LA srw sapi hi
  else if hooks.IsSecret kind then Secrets_CommitHook LC crw hi
  else mret ().

(** [FailAction] and [ErrorAction]: an action that is gone or finished already
    is fine. *)
Definition finish_action (status actionId message : string) : M W () :=
  if negb (IsValidAction actionId) then throw (ErrNew "invalid action id %q")
  else
    r ← try (up_ActionFinish u actionId status message);
    match r with
    | Ok _ => mret ()
    | Err e =>
        if IsCodeNotFoundOrCodeUnauthorized e || bool_decide (e = ErrCode CodeAlreadyExists)
        then mret () else throw e
    end.

Definition callbacks_FailAction : string → string → M W () := finish_action "failed".
Definition callbacks_ErrorAction : string → string → M W () := finish_action "error".

(** [operationCallbacks] *)
Definition operationCallbacks : Callbacks W := {|
  cb_PrepareHook := callbacks_PrepareHook;
  cb_CommitHook := callbacks_CommitHook;
  cb_SetExecutingStatus := up_SetAgentStatus u "executing";
  cb_NotifyHookCompleted := default (λ _ w, w) (up_HookCompleted u);
  cb_NotifyHookFailed := default (λ _ w, w) (up_HookFailed u);
  cb_FailAction := callbacks_FailAction;
  cb_ErrorAction := callbacks_ErrorAction;
  cb_GetArchiveInfo := up_Charm u;
  cb_SetCurrentCharm := up_SetCharm u;
  cb_SetSecretRotated := up_SecretRotated u;
  cb_SecretsRemoved := Secrets_SecretsRemoved LC crw;
|}.

End callbacks.
