(* ===== verification/RemoteState.v ===== *)
(** * The remote state watcher

    internal/worker/uniter/remotestate: watcher.go, the worker that listens to
    everything the controller says of a unit and keeps the [Snapshot] the
    resolvers read; the parts of storagewatcher.go and relationunits.go it
    calls.

    The watcher's fields, and the locals of its loop, are two components of the
    world; the API client, the leadership tracker and the catacomb that owns its
    workers are the operations of [RemoteAPI].  One turn of the loop is
    [watcher_step], for each case of its [select]. *)

From S2P Require Import Prelude GoText Hooks OpState Operations Resolver.
From S2P Require Import Storage Secrets UniterResolver.
Import life operation.

(** ** Data *)

(** Changing the fields of a snapshot. *)
Definition set_ResolvedMode (v : ResolvedMode) (s : Snapshot) : Snapshot :=
  MkSnapshot (sn_Life s) (sn_Relations s) (sn_Storage s) (sn_CharmModifiedVersion s)
    (sn_CharmURL s) (sn_ForceCharmUpgrade s) v (sn_ProviderID s) (sn_RetryHookVersion s)
    (sn_ConfigHash s) (sn_TrustHash s) (sn_AddressesHash s) (sn_Leader s)
    (sn_UpdateStatusVersion s) (sn_ActionsPending s) (sn_ActionChanged s) (sn_Commands
    s) (sn_SecretRotations s) (sn_ExpiredSecretRevisions s) (sn_ConsumedSecretInfo s)
    (sn_ObsoleteSecretRevisions s) (sn_DeletedSecretRevisions s) (sn_WorkloadEvents s)
    (sn_Shutdown s).
Definition set_unit (life : LifeValue) (provider : string) (mode : ResolvedMode) (s : Snapshot) : Snapshot :=
  MkSnapshot life (sn_Relations s) (sn_Storage s) (sn_CharmModifiedVersion s)
    (sn_CharmURL s) (sn_ForceCharmUpgrade s) mode provider (sn_RetryHookVersion s)
    (sn_ConfigHash s) (sn_TrustHash s) (sn_AddressesHash s) (sn_Leader s)
    (sn_UpdateStatusVersion s) (sn_ActionsPending s) (sn_ActionChanged s) (sn_Commands
    s) (sn_SecretRotations s) (sn_ExpiredSecretRevisions s) (sn_ConsumedSecretInfo s)
    (sn_ObsoleteSecretRevisions s) (sn_DeletedSecretRevisions s) (sn_WorkloadEvents s)
    (sn_Shutdown s).
Definition set_charm (url : string) (force : bool) (ver : Z) (s : Snapshot) : Snapshot :=
  MkSnapshot (sn_Life s) (sn_Relations s) (sn_Storage s) ver url force (sn_ResolvedMode
    s) (sn_ProviderID s) (sn_RetryHookVersion s) (sn_ConfigHash s) (sn_TrustHash s)
    (sn_AddressesHash s) (sn_Leader s) (sn_UpdateStatusVersion s) (sn_ActionsPending s)
    (sn_ActionChanged s) (sn_Commands s) (sn_SecretRotations s)
    (sn_ExpiredSecretRevisions s) (sn_ConsumedSecretInfo s) (sn_ObsoleteSecretRevisions
    s) (sn_DeletedSecretRevisions s) (sn_WorkloadEvents s) (sn_Shutdown s).
Definition set_RetryHookVersion (v : Z) (s : Snapshot) : Snapshot :=
  MkSnapshot (sn_Life s) (sn_Relations s) (sn_Storage s) (sn_CharmModifiedVersion s)
    (sn_CharmURL s) (sn_ForceCharmUpgrade s) (sn_ResolvedMode s) (sn_ProviderID s) v
    (sn_ConfigHash s) (sn_TrustHash s) (sn_AddressesHash s) (sn_Leader s)
    (sn_UpdateStatusVersion s) (sn_ActionsPending s) (sn_ActionChanged s) (sn_Commands
    s) (sn_SecretRotations s) (sn_ExpiredSecretRevisions s) (sn_ConsumedSecretInfo s)
    (sn_ObsoleteSecretRevisions s) (sn_DeletedSecretRevisions s) (sn_WorkloadEvents s)
    (sn_Shutdown s).
Definition set_ConfigHash (config trust : string) (s : Snapshot) : Snapshot :=
  MkSnapshot (sn_Life s) (sn_Relations s) (sn_Storage s) (sn_CharmModifiedVersion s)
    (sn_CharmURL s) (sn_ForceCharmUpgrade s) (sn_ResolvedMode s) (sn_ProviderID s)
    (sn_RetryHookVersion s) config trust (sn_AddressesHash s) (sn_Leader s)
    (sn_UpdateStatusVersion s) (sn_ActionsPending s) (sn_ActionChanged s) (sn_Commands
    s) (sn_SecretRotations s) (sn_ExpiredSecretRevisions s) (sn_ConsumedSecretInfo s)
    (sn_ObsoleteSecretRevisions s) (sn_DeletedSecretRevisions s) (sn_WorkloadEvents s)
    (sn_Shutdown s).
Definition set_AddressesHash (v : string) (s : Snapshot) : Snapshot :=
  MkSnapshot (sn_Life s) (sn_Relations s) (sn_Storage s) (sn_CharmModifiedVersion s)
    (sn_CharmURL s) (sn_ForceCharmUpgrade s) (sn_ResolvedMode s) (sn_ProviderID s)
    (sn_RetryHookVersion s) (sn_ConfigHash s) (sn_TrustHash s) v (sn_Leader s)
    (sn_UpdateStatusVersion s) (sn_ActionsPending s) (sn_ActionChanged s) (sn_Commands
    s) (sn_SecretRotations s) (sn_ExpiredSecretRevisions s) (sn_ConsumedSecretInfo s)
    (sn_ObsoleteSecretRevisions s) (sn_DeletedSecretRevisions s) (sn_WorkloadEvents s)
    (sn_Shutdown s).
Definition set_UpdateStatusVersion (v : Z) (s : Snapshot) : Snapshot :=
  MkSnapshot (sn_Life s) (sn_Relations s) (sn_Storage s) (sn_CharmModifiedVersion s)
    (sn_CharmURL s) (sn_ForceCharmUpgrade s) (sn_ResolvedMode s) (sn_ProviderID s)
    (sn_RetryHookVersion s) (sn_ConfigHash s) (sn_TrustHash s) (sn_AddressesHash s)
    (sn_Leader s) v (sn_ActionsPending s) (sn_ActionChanged s) (sn_Commands s)
    (sn_SecretRotations s) (sn_ExpiredSecretRevisions s) (sn_ConsumedSecretInfo s)
    (sn_ObsoleteSecretRevisions s) (sn_DeletedSecretRevisions s) (sn_WorkloadEvents s)
    (sn_Shutdown s).
Definition set_actions (pending : list string) (changed : gmap string Z) (s : Snapshot) : Snapshot :=
  MkSnapshot (sn_Life s) (sn_Relations s) (sn_Storage s) (sn_CharmModifiedVersion s)
    (sn_CharmURL s) (sn_ForceCharmUpgrade s) (sn_ResolvedMode s) (sn_ProviderID s)
    (sn_RetryHookVersion s) (sn_ConfigHash s) (sn_TrustHash s) (sn_AddressesHash s)
    (sn_Leader s) (sn_UpdateStatusVersion s) pending changed (sn_Commands s)
    (sn_SecretRotations s) (sn_ExpiredSecretRevisions s) (sn_ConsumedSecretInfo s)
    (sn_ObsoleteSecretRevisions s) (sn_DeletedSecretRevisions s) (sn_WorkloadEvents s)
    (sn_Shutdown s).
Definition set_Commands (v : list string) (s : Snapshot) : Snapshot :=
  MkSnapshot (sn_Life s) (sn_Relations s) (sn_Storage s) (sn_CharmModifiedVersion s)
    (sn_CharmURL s) (sn_ForceCharmUpgrade s) (sn_ResolvedMode s) (sn_ProviderID s)
    (sn_RetryHookVersion s) (sn_ConfigHash s) (sn_TrustHash s) (sn_AddressesHash s)
    (sn_Leader s) (sn_UpdateStatusVersion s) (sn_ActionsPending s) (sn_ActionChanged s)
    v (sn_SecretRotations s) (sn_ExpiredSecretRevisions s) (sn_ConsumedSecretInfo s)
    (sn_ObsoleteSecretRevisions s) (sn_DeletedSecretRevisions s) (sn_WorkloadEvents s)
    (sn_Shutdown s).
Definition set_SecretRotations (v : list string) (s : Snapshot) : Snapshot :=
  MkSnapshot (sn_Life s) (sn_Relations s) (sn_Storage s) (sn_CharmModifiedVersion s)
    (sn_CharmURL s) (sn_ForceCharmUpgrade s) (sn_ResolvedMode s) (sn_ProviderID s)
    (sn_RetryHookVersion s) (sn_ConfigHash s) (sn_TrustHash s) (sn_AddressesHash s)
    (sn_Leader s) (sn_UpdateStatusVersion s) (sn_ActionsPending s) (sn_ActionChanged s)
    (sn_Commands s) v (sn_ExpiredSecretRevisions s) (sn_ConsumedSecretInfo s)
    (sn_ObsoleteSecretRevisions s) (sn_DeletedSecretRevisions s) (sn_WorkloadEvents s)
    (sn_Shutdown s).
Definition set_Expired (v : list string) (s : Snapshot) : Snapshot :=
  MkSnapshot (sn_Life s) (sn_Relations s) (sn_Storage s) (sn_CharmModifiedVersion s)
    (sn_CharmURL s) (sn_ForceCharmUpgrade s) (sn_ResolvedMode s) (sn_ProviderID s)
    (sn_RetryHookVersion s) (sn_ConfigHash s) (sn_TrustHash s) (sn_AddressesHash s)
    (sn_Leader s) (sn_UpdateStatusVersion s) (sn_ActionsPending s) (sn_ActionChanged s)
    (sn_Commands s) (sn_SecretRotations s) v (sn_ConsumedSecretInfo s)
    (sn_ObsoleteSecretRevisions s) (sn_DeletedSecretRevisions s) (sn_WorkloadEvents s)
    (sn_Shutdown s).
Definition set_secrets (consumed : gmap string SecretRevisionInfo)
    (obsolete deleted : gmap string (list Z)) (s : Snapshot) : Snapshot :=
  MkSnapshot (sn_Life s) (sn_Relations s) (sn_Storage s) (sn_CharmModifiedVersion s)
    (sn_CharmURL s) (sn_ForceCharmUpgrade s) (sn_ResolvedMode s) (sn_ProviderID s)
    (sn_RetryHookVersion s) (sn_ConfigHash s) (sn_TrustHash s) (sn_AddressesHash s)
    (sn_Leader s) (sn_UpdateStatusVersion s) (sn_ActionsPending s) (sn_ActionChanged s)
    (sn_Commands s) (sn_SecretRotations s) (sn_ExpiredSecretRevisions s) consumed
    obsolete deleted (sn_WorkloadEvents s) (sn_Shutdown s).
Definition set_WorkloadEvents (v : list string) (s : Snapshot) : Snapshot :=
  MkSnapshot (sn_Life s) (sn_Relations s) (sn_Storage s) (sn_CharmModifiedVersion s)
    (sn_CharmURL s) (sn_ForceCharmUpgrade s) (sn_ResolvedMode s) (sn_ProviderID s)
    (sn_RetryHookVersion s) (sn_ConfigHash s) (sn_TrustHash s) (sn_AddressesHash s)
    (sn_Leader s) (sn_UpdateStatusVersion s) (sn_ActionsPending s) (sn_ActionChanged s)
    (sn_Commands s) (sn_SecretRotations s) (sn_ExpiredSecretRevisions s)
    (sn_ConsumedSecretInfo s) (sn_ObsoleteSecretRevisions s) (sn_DeletedSecretRevisions
    s) v (sn_Shutdown s).
Definition set_Shutdown (v : bool) (s : Snapshot) : Snapshot :=
  MkSnapshot (sn_Life s) (sn_Relations s) (sn_Storage s) (sn_CharmModifiedVersion s)
    (sn_CharmURL s) (sn_ForceCharmUpgrade s) (sn_ResolvedMode s) (sn_ProviderID s)
    (sn_RetryHookVersion s) (sn_ConfigHash s) (sn_TrustHash s) (sn_AddressesHash s)
    (sn_Leader s) (sn_UpdateStatusVersion s) (sn_ActionsPending s) (sn_ActionChanged s)
    (sn_Commands s) (sn_SecretRotations s) (sn_ExpiredSecretRevisions s)
    (sn_ConsumedSecretInfo s) (sn_ObsoleteSecretRevisions s) (sn_DeletedSecretRevisions
    s) (sn_WorkloadEvents s) v.
Definition set_sn_Leader (v : bool) (s : Snapshot) : Snapshot :=
  MkSnapshot (sn_Life s) (sn_Relations s) (sn_Storage s) (sn_CharmModifiedVersion s)
    (sn_CharmURL s) (sn_ForceCharmUpgrade s) (sn_ResolvedMode s) (sn_ProviderID s)
    (sn_RetryHookVersion s) (sn_ConfigHash s) (sn_TrustHash s) (sn_AddressesHash s) v
    (sn_UpdateStatusVersion s) (sn_ActionsPending s) (sn_ActionChanged s) (sn_Commands
    s) (sn_SecretRotations s) (sn_ExpiredSecretRevisions s) (sn_ConsumedSecretInfo s)
    (sn_ObsoleteSecretRevisions s) (sn_DeletedSecretRevisions s) (sn_WorkloadEvents s)
    (sn_Shutdown s).

(** [names.RelationTag] and [names.StorageTag] are their contents here, a relation
    key and a storage ID. *)

(** What the API says of a relation. *)
Record WatchedRelation : Type := MkWatchedRelation {
  ar_Id : Z;
  ar_Life : LifeValue;
  ar_Suspended : bool;
}.

(** [watcher.RelationUnitsChange]; of the unit settings the version is used. *)
Record RelationUnitsChange : Type := MkRelationUnitsChange {
  ruc_Changed : gmap string Z;
  ruc_AppChanged : gmap string Z;
  ruc_Departed : list string;
}.

(** [params.StorageAttachment] *)
Record StorageAttachment : Type := MkStorageAttachment {
  sa_Kind : StorageKind;
  sa_Life : LifeValue;
  sa_Location : string;
}.

(** [RemoteStateWatcher].  [rw_relations] has the relation ID of the watcher of
    each relation that is watched, [rw_storageWatchers] the storage that is
    watched; [rw_nilMembers] the relations of the snapshot whose two maps are
    nil.  [rw_out] tells whether a signal is waiting in the channel [out]. *)
Record RemoteStateWatcher : Type := MkWatcher {
  rw_modelType : ModelType;
  rw_sidecar : bool;
  rw_enforcedCharmModifiedVersion : Z;
  rw_relations : gmap string Z;
  rw_nilMembers : gset Z;
  rw_storageWatchers : gset string;
  rw_secretRotateWatcher : bool;
  rw_secretExpiryWatcher : bool;
  rw_obsoleteRevisionWatcher : bool;
  rw_deletedRevisionWatcher : bool;
  rw_out : bool;
  rw_current : Snapshot;
}.

Definition set_current (sn : Snapshot) (r : RemoteStateWatcher) : RemoteStateWatcher :=
  MkWatcher (rw_modelType r) (rw_sidecar r) (rw_enforcedCharmModifiedVersion r)
    (rw_relations r) (rw_nilMembers r) (rw_storageWatchers r) (rw_secretRotateWatcher r)
    (rw_secretExpiryWatcher r) (rw_obsoleteRevisionWatcher r) (rw_deletedRevisionWatcher r)
    (rw_out r) sn.
Definition set_out (b : bool) (r : RemoteStateWatcher) : RemoteStateWatcher :=
  MkWatcher (rw_modelType r) (rw_sidecar r) (rw_enforcedCharmModifiedVersion r)
    (rw_relations r) (rw_nilMembers r) (rw_storageWatchers r) (rw_secretRotateWatcher r)
    (rw_secretExpiryWatcher r) (rw_obsoleteRevisionWatcher r) (rw_deletedRevisionWatcher r)
    b (rw_current r).
Definition set_watched (m : gmap string Z) (nils : gset Z) (r : RemoteStateWatcher) :
    RemoteStateWatcher :=
  MkWatcher (rw_modelType r) (rw_sidecar r) (rw_enforcedCharmModifiedVersion r)
    m nils (rw_storageWatchers r) (rw_secretRotateWatcher r)
    (rw_secretExpiryWatcher r) (rw_obsoleteRevisionWatcher r) (rw_deletedRevisionWatcher r)
    (rw_out r) (rw_current r).
Definition set_storageWatchers (m : gset string) (r : RemoteStateWatcher) :
    RemoteStateWatcher :=
  MkWatcher (rw_modelType r) (rw_sidecar r) (rw_enforcedCharmModifiedVersion r)
    (rw_relations r) (rw_nilMembers r) m (rw_secretRotateWatcher r)
    (rw_secretExpiryWatcher r) (rw_obsoleteRevisionWatcher r) (rw_deletedRevisionWatcher r)
    (rw_out r) (rw_current r).
Definition set_secretWatchers (rotate expiry obsolete deleted : bool)
    (r : RemoteStateWatcher) : RemoteStateWatcher :=
  MkWatcher (rw_modelType r) (rw_sidecar r) (rw_enforcedCharmModifiedVersion r)
    (rw_relations r) (rw_nilMembers r) (rw_storageWatchers r) rotate expiry obsolete deleted
    (rw_out r) (rw_current r).
Definition on_current (f : Snapshot → Snapshot) (r : RemoteStateWatcher) :
    RemoteStateWatcher := set_current (f (rw_current r)) r.

(** [WatcherConfig], but for the clients and channels. *)
Record WatcherConfig : Type := MkWatcherConfig {
  wc_ModelType : ModelType;
  wc_Sidecar : bool;
  wc_EnforcedCharmModifiedVersion : Z;
  wc_Logger : bool;
  wc_InitialWorkloadEventIDs : list string;
}.

Definition WatcherConfig_validate (w : WatcherConfig) : result () :=
  if decide (wc_ModelType w = IAAS ∧ wc_Sidecar w = true) then
    Err (NotValid "sidecar mode is only for %q model")
  else if negb (wc_Logger w) then Err (NotValid "nil Logger")
  else Ok ().

(** [NewWatcher] up to the start of its goroutine. *)
Definition NewWatcher (config : WatcherConfig) : result RemoteStateWatcher :=
  _ ← WatcherConfig_validate config;
  Ok (MkWatcher (wc_ModelType config) (wc_Sidecar config)
        (wc_EnforcedCharmModifiedVersion config) ∅ ∅ ∅ false false false false false
        (set_WorkloadEvents (wc_InitialWorkloadEventIDs config) zero_Snapshot)).

(** ** What others report done *)

(** The loops that take the first occurrence out of a list:
    [append(l[:i], l[i+1:]...)] *)
Fixpoint remove_first (x : string) (l : list string) : list string :=
  match l with
  | [] => []
  | y :: l' => if decide (y = x) then l' else y :: remove_first x l'
  end.

Definition ClearResolvedMode (s : Snapshot) : Snapshot := set_ResolvedMode ResolvedNone s.
Definition CommandCompleted (completed : string) (s : Snapshot) : Snapshot :=
  set_Commands (remove_first completed (sn_Commands s)) s.
Definition ActionCompleted (completed : string) (s : Snapshot) : Snapshot :=
  set_actions (remove_first completed (sn_ActionsPending s))
    (delete completed (sn_ActionChanged s)) s.
Definition WorkloadEventCompleted (workloadEventID : string) (s : Snapshot) : Snapshot :=
  set_WorkloadEvents (remove_first workloadEventID (sn_WorkloadEvents s)) s.
Definition RotateSecretCompleted (rotatedURL : string) (s : Snapshot) : Snapshot :=
  set_SecretRotations (remove_first rotatedURL (sn_SecretRotations s)) s.
Definition ExpireRevisionCompleted (expiredRevision : string) (s : Snapshot) : Snapshot :=
  set_Expired (remove_first expiredRevision (sn_ExpiredSecretRevisions s)) s.

(** [RemoveSecretsCompleted]: one entry of its argument, then all of them. *)
Definition remove_secret (uri : string) (revs : list Z) (s : Snapshot) : Snapshot :=
  if decide (revs = []) then
    set_secrets (sn_ConsumedSecretInfo s) (delete uri (sn_ObsoleteSecretRevisions s))
      (delete uri (sn_DeletedSecretRevisions s)) s
  else
    set_secrets (sn_ConsumedSecretInfo s)
      (drop_obsolete uri revs (sn_ObsoleteSecretRevisions s))
      (drop_obsolete uri revs (sn_DeletedSecretRevisions s)) s.
Definition RemoveSecretsCompleted (deletedRevisions : gmap string (list Z))
    (s : Snapshot) : Snapshot :=
  map_fold remove_secret s deletedRevisions.

(** ** What needs no API *)

Definition updateStatusChanged (s : Snapshot) : Snapshot :=
  set_UpdateStatusVersion (sn_UpdateStatusVersion s + 1) s.
Definition commandsChanged (id : string) (s : Snapshot) : Snapshot :=
  set_Commands (sn_Commands s ++ [id]) s.
Definition workloadEventsChanged (id : string) (s : Snapshot) : Snapshot :=
  if decide (id ∈ sn_WorkloadEvents s) then s
  else set_WorkloadEvents (sn_WorkloadEvents s ++ [id]) s.
Definition retryHookTimerTriggered (s : Snapshot) : Snapshot :=
  set_RetryHookVersion (sn_RetryHookVersion s + 1) s.
Definition configHashChanged (value : string) (s : Snapshot) : Snapshot :=
  set_ConfigHash value value s.
Definition addressesHashChanged (value : string) (s : Snapshot) : Snapshot :=
  set_AddressesHash value s.
Definition markShutdown (s : Snapshot) : Snapshot := set_Shutdown true s.

(** The loop of [rotateSecretURIs] and of [expireSecretRevisions]: what is not
    pending yet is appended. *)
Definition add_pending (l items : list string) : list string :=
  foldl (λ l x, if decide (x ∈ l) then l else l ++ [x]) l items.

Definition rotateSecretURIs (uris : list string) (s : Snapshot) : Snapshot :=
  set_SecretRotations (add_pending (sn_SecretRotations s) uris) s.
Definition expireSecretRevisions (revisions : list string) (s : Snapshot) : Snapshot :=
  set_Expired (add_pending (sn_ExpiredSecretRevisions s) revisions) s.

Definition action_changed (s : Snapshot) (action : string) : Snapshot :=
  match sn_ActionChanged s !! action with
  | Some r => set_actions (sn_ActionsPending s) (<[action := (r + 1)%Z]> (sn_ActionChanged s)) s
  | None => set_actions (sn_ActionsPending s ++ [action])
              (<[action := 0%Z]> (sn_ActionChanged s)) s
  end.
Definition actionsChanged (actions : list string) (s : Snapshot) : Snapshot :=
  foldl action_changed s actions.

Definition storageAttachmentChanged (tag : string) (snapshot : StorageSnapshot)
    (s : Snapshot) : Snapshot :=
  set_Storage (<[tag := snapshot]> (sn_Storage s)) s.

(** One entry of [secretObsoleteRevisionsChanged] and of
    [secretDeletedRevisions], "uri/revision" or "uri".  [parts[0]] exists, for
    [strings.Split] gives one part at least. *)
Definition revision_parts (revInfo : string) : string * option string :=
  match split_on slash revInfo with
  | [] => ("", None)
  | [uri] => (uri, None)
  | uri :: rev :: _ => (uri, Some rev)
  end.

Abbreviation err_revision := (NotValid "secret revision %q for %q").

Definition obsolete_revision (s : Snapshot) (revInfo : string) : result Snapshot :=
  match revision_parts revInfo with
  | (_, None) => Ok s
  | (uri, Some part) =>
      match Atoi part with
      | (rev, None) =>
          let m := sn_ObsoleteSecretRevisions s in
          let obsolete : gset Z := {[rev]} ∪ list_to_set (default [] (m !! uri)) in
          Ok (set_secrets (sn_ConsumedSecretInfo s) (<[uri := sorted_ints obsolete]> m)
                (sn_DeletedSecretRevisions s) s)
      | (_, Some _) => Err err_revision
      end
  end.

Definition deleted_revision (s : Snapshot) (revInfo : string) : result Snapshot :=
  let m := sn_DeletedSecretRevisions s in
  match revision_parts revInfo with
  | (uri, None) =>
      Ok (set_secrets (sn_ConsumedSecretInfo s) (sn_ObsoleteSecretRevisions s)
            (<[uri := []]> m) s)
  | (uri, Some part) =>
      match Atoi part with
      | (rev, None) =>
          Ok (set_secrets (sn_ConsumedSecretInfo s) (sn_ObsoleteSecretRevisions s)
                (<[uri := default [] (m !! uri) ++ [rev]]> m) s)
      | (_, Some _) => Err err_revision
      end
  end.

(** [for uri, revs := range deleted { if len(revs) == 0 { delete(m, uri) } }] *)
Definition drop_deleted {A} (deleted : gmap string (list Z)) (m : gmap string A) :
    gmap string A :=
  map_fold (λ uri revs m, if decide (revs = []) then delete uri m else m) m deleted.

(** ** What the watcher talks to *)

(** The watchers whose first event the loop waits for, and the leadership claim. *)
Inductive watch_kind : Type :=
| WatchUnit
| WatchConfig
| WatchRelations
| WatchAddresses
| WatchSecrets
| WatchApplication
| WatchStorage
| WatchActions
| WatchUpdateStatusInterval
| WatchLeadership.

#[global] Instance watch_kind_eq_dec : EqDecision watch_kind.
Proof. solve_decision. Defined.

(** The API client, the leadership tracker and the catacomb.
    [ra_RefreshUnit] is [unit.Refresh] with what the unit then says;
    [ra_FirstRelationUnits] and [ra_FirstStorageEvent] wait for the first event
    of a watcher (false when its channel is closed), [ra_ClaimLeader] for the
    outcome of the claim; they end with [ErrDying] when the worker is killed
    first.  [ra_Stop] stops the worker of a name, [ra_Kill] tells it to stop,
    [ra_Add] puts it in the catacomb.  The owners whose secrets [ra_WatchObsolete]
    and [ra_WatchDeleted] watch are the unit and, for a leader, its application. *)
Record RemoteAPI (W : Type) : Type := MkRemoteAPI {
  ra_Unit : M W ();
  ra_Application : M W ();
  ra_Watch : watch_kind → M W ();
  ra_RefreshUnit : M W (LifeValue * string * ResolvedMode);
  ra_RefreshApplication : M W ();
  ra_CharmURL : M W (string * bool);
  ra_CharmModifiedVersion : M W Z;
  ra_GetConsumerSecretsRevisionInfo : list string → M W (gmap string SecretRevisionInfo);
  ra_Relation : string → M W WatchedRelation;
  ra_WatchRelationUnits : string → M W ();
  ra_FirstRelationUnits : string → M W (option RelationUnitsChange);
  ra_WrapRelationUnits : Z → M W ();
  ra_StorageAttachmentLife : list string → M W (list (result LifeValue));
  ra_WatchStorageAttachment : string → M W ();
  ra_FirstStorageEvent : string → M W bool;
  ra_StorageAttachment : string → M W StorageAttachment;
  ra_NewStorageAttachmentWatcher : string → M W ();
  ra_UpdateStatusHookInterval : M W Z;
  ra_ClaimLeader : M W bool;
  ra_SecretRotateWatcher : bool → M W ();
  ra_SecretExpiryWatcher : bool → M W ();
  ra_WatchObsolete : bool → M W ();
  ra_WatchDeleted : bool → M W ();
  ra_Add : string → M W ();
  ra_Stop : string → M W ();
  ra_Kill : string → M W ();
}.
Arguments ra_Unit {W} _.
Arguments ra_Application {W} _.
Arguments ra_Watch {W} _ _.
Arguments ra_RefreshUnit {W} _.
Arguments ra_RefreshApplication {W} _.
Arguments ra_CharmURL {W} _.
Arguments ra_CharmModifiedVersion {W} _.
Arguments ra_GetConsumerSecretsRevisionInfo {W} _ _.
Arguments ra_Relation {W} _ _.
Arguments ra_WatchRelationUnits {W} _ _.
Arguments ra_FirstRelationUnits {W} _ _.
Arguments ra_WrapRelationUnits {W} _ _.
Arguments ra_StorageAttachmentLife {W} _ _.
Arguments ra_WatchStorageAttachment {W} _ _.
Arguments ra_FirstStorageEvent {W} _ _.
Arguments ra_StorageAttachment {W} _ _.
Arguments ra_NewStorageAttachmentWatcher {W} _ _.
Arguments ra_UpdateStatusHookInterval {W} _.
Arguments ra_ClaimLeader {W} _.
Arguments ra_SecretRotateWatcher {W} _ _.
Arguments ra_SecretExpiryWatcher {W} _ _.
Arguments ra_WatchObsolete {W} _ _.
Arguments ra_WatchDeleted {W} _ _.
Arguments ra_Add {W} _ _.
Arguments ra_Stop {W} _ _.
Arguments ra_Kill {W} _ _.

(** The locals of [loop]: how many first events it waits for, those it has seen
    and their number, the update-status timer, and which of the two leadership
    channels it listens to. *)
Record watcher_loop : Type := MkWatcherLoop {
  wl_requiredEvents : nat;
  wl_seen : list watch_kind;
  wl_eventsObserved : nat;
  wl_updateStatusTimer : option Z;
  wl_waitLeader : bool;
  wl_waitMinion : bool;
}.

(** The cases of the loop's [select].  A closed channel delivers nothing: [None],
    or [false] for those that carry no value. *)
Inductive watcher_event : Type :=
| EvDying
| EvUnit (ok : bool)
| EvApplication (ok : bool)
| EvSecrets (secrets : option (list string))
| EvConfig (hashes : option (list string))
| EvAddresses (hashes : option (list string))
| EvActions (actions : option (list string))
| EvRelations (keys : option (list string))
| EvStorage (keys : option (list string))
| EvUpdateStatusInterval (ok : bool)
| EvMinion
| EvLeader
| EvRotateSecrets (uris : option (list string))
| EvExpireSecrets (revisions : option (list string))
| EvObsoleteRevisions (secretRevisions : option (list string))
| EvDeletedRevisions (secretRevisions : option (list string))
| EvStorageAttachment (tag : string) (snapshot : StorageSnapshot)
| EvRelationUnits (relationId : Z) (change : RelationUnitsChange)
| EvUpdateStatusTimer
| EvCommand (id : option string)
| EvWorkload (id : option string)
| EvRetryHook (ok : bool)
| EvShutdown (shutdown : option bool).

(** catacomb.ErrDying *)
Abbreviation ErrDying := (ErrConst "catacomb 0x... is dying").

Section watcher.
Context {W : Type} (api : RemoteAPI W) (LR : lens W RemoteStateWatcher)
  (LL : lens W watcher_loop).

(** Change the current snapshot. *)
Definition change (f : Snapshot → Snapshot) : M W () := over LR (on_current f).

(** [Snapshot] *)
Definition Watcher_Snapshot : M W Snapshot := look LR rw_current.

(** ** Handlers *)

Definition unitStateChanged : M W () :=
  '(life, provider, mode) ← ra_RefreshUnit api;
  change (set_unit life provider mode).

Definition applicationChanged : M W () :=
  _ ← ra_RefreshApplication api;
  '(url, force) ← ra_CharmURL api;
  ver ← ra_CharmModifiedVersion api;
  r ← look LR id;
  if rw_sidecar r && bool_decide (ver ≠ rw_enforcedCharmModifiedVersion r) then mret ()
  else change (set_charm url force ver).

(** The first loop of [secretsChanged], and what follows it. *)
Definition consumed_info (info : gmap string SecretRevisionInfo) (s : Snapshot)
    (uri : string) : Snapshot :=
  match info !! uri with
  | Some latest =>
      set_secrets (<[uri := latest]> (sn_ConsumedSecretInfo s))
        (sn_ObsoleteSecretRevisions s) (sn_DeletedSecretRevisions s) s
  | None =>
      set_secrets (sn_ConsumedSecretInfo s) (sn_ObsoleteSecretRevisions s)
        (<[uri := []]> (sn_DeletedSecretRevisions s)) s
  end.
Definition drop_consumed (s : Snapshot) : Snapshot :=
  set_secrets (drop_deleted (sn_DeletedSecretRevisions s) (sn_ConsumedSecretInfo s))
    (sn_ObsoleteSecretRevisions s) (sn_DeletedSecretRevisions s) s.
Definition secretsChanged (secretURIs : list string) : M W () :=
  info ← ra_GetConsumerSecretsRevisionInfo api secretURIs;
  change (λ s, drop_consumed (foldl (consumed_info info) s secretURIs)).

(** Handle the entries of a list one after the other, until one is not valid. *)
Definition change_each (f : Snapshot → string → result Snapshot) (l : list string) :
    M W () :=
  for_each l (λ x,
    s ← look LR rw_current;
    s' ← lift_result (f s x);
    change (λ _, s')).

Definition secretObsoleteRevisionsChanged (secretRevisions : list string) : M W () :=
  change_each obsolete_revision secretRevisions.

Definition drop_obsolete_of_deleted (s : Snapshot) : Snapshot :=
  set_secrets (sn_ConsumedSecretInfo s)
    (drop_deleted (sn_DeletedSecretRevisions s) (sn_ObsoleteSecretRevisions s))
    (sn_DeletedSecretRevisions s) s.
Definition secretDeletedRevisions (deletedRevisions : list string) : M W () :=
  _ ← change_each deleted_revision deletedRevisions;
  change drop_obsolete_of_deleted.

(** Stop the secret watchers that run. *)
Definition stop_if (b : bool) (name : string) : M W () :=
  if b then (_ ← try (ra_Stop api name); mret ()) else mret ().

Definition leadershipChanged (isLeader : bool) : M W () :=
  _ ← change (set_sn_Leader isLeader);
  r ← look LR id;
  _ ← stop_if (rw_secretRotateWatcher r) "rotate";
  _ ← change (set_SecretRotations []);
  _ ← stop_if (rw_secretExpiryWatcher r) "expiry";
  _ ← change (set_Expired []);
  _ ← stop_if (rw_obsoleteRevisionWatcher r) "obsolete";
  _ ← stop_if (rw_deletedRevisionWatcher r) "deleted";
  _ ← over LR (set_secretWatchers false false false false);
  _ ← ra_SecretRotateWatcher api isLeader;
  _ ← ra_Add api "rotate";
  _ ← over LR (set_secretWatchers true false false false);
  _ ← ra_SecretExpiryWatcher api isLeader;
  _ ← ra_Add api "expiry";
  _ ← over LR (set_secretWatchers true true false false);
  _ ← ra_WatchObsolete api isLeader;
  _ ← ra_Add api "obsolete";
  _ ← over LR (set_secretWatchers true true true false);
  _ ← ra_WatchDeleted api isLeader;
  _ ← ra_Add api "deleted";
  over LR (set_secretWatchers true true true true).

(** ** Relations *)

(** [watchRelationUnits] *)
Definition watchRelationUnits (tag : string) (rel : WatchedRelation) : M W () :=
  r ← try (ra_WatchRelationUnits api tag);
  match r with
  | Err e => if IsCodeNotFoundOrCodeUnauthorized e then mret () else throw e
  | Ok _ =>
      _ ← ra_Add api "relation units";
      c ← ra_FirstRelationUnits api tag;
      match c with
      | None => throw (ErrNew "relation units watcher closed")
      | Some c =>
          let relationSnapshot :=
            MkRelationSnapshot (ar_Life rel) (ar_Suspended rel) (ruc_Changed c)
              (ruc_AppChanged c) in
          _ ← ra_WrapRelationUnits api (ar_Id rel);
          _ ← ra_Add api "relation units";
          over LR (λ w, set_watched (<[tag := ar_Id rel]> (rw_relations w))
            (rw_nilMembers w ∖ {[ar_Id rel]})
            (on_current (λ s,
               set_Relations (<[ar_Id rel := relationSnapshot]> (sn_Relations s)) s) w))
      end
  end.

(** The relation in the snapshot with a new life and status; one that is not there
    is the zero value, with nil maps. *)
Definition update_relation (rel : WatchedRelation) (w : RemoteStateWatcher) :
    RemoteStateWatcher :=
  let m := sn_Relations (rw_current w) in
  let relationSnapshot := default zero_RelationSnapshot (m !! ar_Id rel) in
  set_watched (rw_relations w)
    (match m !! ar_Id rel with
     | Some _ => rw_nilMembers w
     | None => {[ar_Id rel]} ∪ rw_nilMembers w
     end)
    (on_current (λ s, set_Relations (<[ar_Id rel :=
       MkRelationSnapshot (ar_Life rel) (ar_Suspended rel) (rsn_Members relationSnapshot)
         (rsn_ApplicationMembers relationSnapshot)]> (sn_Relations s)) s) w).

Definition ensureRelationUnits (tag : string) (rel : WatchedRelation) : M W () :=
  w ← look LR id;
  match rw_relations w !! tag with
  | Some _ =>
      _ ← over LR (update_relation rel);
      if ar_Suspended rel then
        _ ← try (ra_Stop api tag);
        over LR (λ w, set_watched (delete tag (rw_relations w)) (rw_nilMembers w) w)
      else mret ()
  | None =>
      if ar_Suspended rel then mret () else watchRelationUnits tag rel
  end.

Definition relation_changed (tag : string) : M W () :=
  r ← try (ra_Relation api tag);
  match r with
  | Err e =>
      if IsCodeNotFoundOrCodeUnauthorized e then
        w ← look LR id;
        match rw_relations w !! tag with
        | Some relationId =>
            _ ← try (ra_Stop api tag);
            over LR (λ w, set_watched (delete tag (rw_relations w))
              (rw_nilMembers w ∖ {[relationId]})
              (on_current (λ s, set_Relations (delete relationId (sn_Relations s)) s) w))
        | None => mret ()
        end
      else throw e
  | Ok rel => ensureRelationUnits tag rel
  end.
Definition relationsChanged (keys : list string) : M W () := for_each keys relation_changed.

(** [relationUnitsChanged]; writing to a nil map panics. *)
Definition relation_units (c : RelationUnitsChange) (snapshot : RelationSnapshot) :
    RelationSnapshot :=
  MkRelationSnapshot (rsn_Life snapshot) (rsn_Suspended snapshot)
    (foldl (λ m unit, delete unit m) (ruc_Changed c ∪ rsn_Members snapshot) (ruc_Departed c))
    (ruc_AppChanged c ∪ rsn_ApplicationMembers snapshot).
Definition relationUnitsChanged (relationId : Z) (c : RelationUnitsChange) : M W () :=
  w ← look LR id;
  match sn_Relations (rw_current w) !! relationId with
  | None => mret ()
  | Some snapshot =>
      if bool_decide (relationId ∈ rw_nilMembers w)
         && (bool_decide (ruc_Changed c ≠ ∅) || bool_decide (ruc_AppChanged c ≠ ∅))
      then throw (GoPanic "assignment to entry in nil map")
      else change (λ s, set_Relations
        (<[relationId := relation_units c snapshot]> (sn_Relations s)) s)
  end.

(** ** Storage *)

Definition getStorageSnapshot (tag : string) : M W StorageSnapshot :=
  attachment ← ra_StorageAttachment api tag;
  mret (MkStorageSnapshot (sa_Kind attachment) (sa_Life attachment) true
          (sa_Location attachment)).

Definition watchStorageAttachment (tag : string) (life : LifeValue) : M W () :=
  ok ← try (ra_FirstStorageEvent api tag);
  storageSnapshot ← match ok with
    | Err e => _ ← ra_Kill api tag; throw e
    | Ok false =>
        _ ← ra_Kill api tag; throw (ErrNew "storage attachment watcher closed for %s")
    | Ok true =>
        r ← try (getStorageSnapshot tag);
        match r with
        | Ok s => mret s
        | Err (NotProvisioned _) => mret (MkStorageSnapshot StorageKindUnknown life false "")
        | Err e => _ ← ra_Kill api tag; throw e
        end
    end;
  _ ← ra_NewStorageAttachmentWatcher api tag;
  _ ← ra_Add api tag;
  w ← look LR id;
  _ ← change (λ s, set_Storage (<[tag := storageSnapshot]> (sn_Storage s)) s);
  _ ← (if decide (tag ∈ rw_storageWatchers w) then ra_Kill api tag else mret ());
  over LR (λ w, set_storageWatchers ({[tag]} ∪ rw_storageWatchers w) w).

Definition storage_changed (tag : string) (res : result LifeValue) : M W () :=
  match res with
  | Ok life =>
      s ← look LR rw_current;
      match sn_Storage s !! tag with
      | Some old =>
          change (λ s, set_Storage (<[tag := MkStorageSnapshot (ssn_Kind old) life
            (ssn_Attached old) (ssn_Location old)]> (sn_Storage s)) s)
      | None =>
          _ ← ra_WatchStorageAttachment api tag;
          watchStorageAttachment tag life
      end
  | Err e =>
      if bool_decide (e = ErrCode CodeNotFound) then
        w ← look LR id;
        _ ← (if decide (tag ∈ rw_storageWatchers w) then
               _ ← ra_Kill api tag;
               over LR (λ w, set_storageWatchers (rw_storageWatchers w ∖ {[tag]}) w)
             else mret ());
        change (λ s, set_Storage (delete tag (sn_Storage s)) s)
      else throw e
  end.

(** [tags[i]] for each result; more results than tags are out of range. *)
Fixpoint storage_results (tags : list string) (results : list (result LifeValue))
    {struct results} : M W () :=
  match results, tags with
  | [], _ => mret ()
  | res :: results', tag :: tags' =>
      _ ← storage_changed tag res; storage_results tags' results'
  | _ :: _, [] => throw (GoPanic "index out of range")
  end.
Definition storageChanged (keys : list string) : M W () :=
  results ← ra_StorageAttachmentLife api keys;
  storage_results keys results.

(** ** The loop *)

Definition setUp : M W () :=
  r ← try (_ ← ra_Unit api; ra_Application api);
  w ← look LR id;
  match r with
  | Ok _ => mret ()
  | Err e =>
      if IsCodeNotFoundOrCodeUnauthorized e && bool_decide (rw_modelType w = IAAS)
      then throw ErrTerminateAgent else throw e
  end.

Definition observedEvent (k : watch_kind) (l : watcher_loop) : watcher_loop :=
  if decide (k ∈ wl_seen l) then l
  else MkWatcherLoop (wl_requiredEvents l) (k :: wl_seen l) (S (wl_eventsObserved l))
         (wl_updateStatusTimer l) (wl_waitLeader l) (wl_waitMinion l).
Definition observed (k : watch_kind) : M W () := over LL (observedEvent k).

Definition set_wait (leader minion : bool) (l : watcher_loop) : watcher_loop :=
  MkWatcherLoop (wl_requiredEvents l) (wl_seen l) (wl_eventsObserved l)
    (wl_updateStatusTimer l) leader minion.
Definition set_timer (t : option Z) (l : watcher_loop) : watcher_loop :=
  MkWatcherLoop (wl_requiredEvents l) (wl_seen l) (wl_eventsObserved l) t
    (wl_waitLeader l) (wl_waitMinion l).
Definition require_event (l : watcher_loop) : watcher_loop :=
  MkWatcherLoop (S (wl_requiredEvents l)) (wl_seen l) (wl_eventsObserved l)
    (wl_updateStatusTimer l) (wl_waitLeader l) (wl_waitMinion l).

(** [fire]: whether it got to its non-blocking send, after which a signal is
    waiting. *)
Definition fire : M W bool :=
  l ← look LL id;
  if decide (wl_eventsObserved l ≠ wl_requiredEvents l) then mret false
  else _ ← over LR (set_out true); mret true.

(** The watchers in the order the loop starts them. *)
Definition initial_watches : list watch_kind :=
  [WatchUnit; WatchConfig; WatchRelations; WatchAddresses; WatchSecrets; WatchApplication;
   WatchStorage; WatchActions; WatchUpdateStatusInterval].

(** [loop] up to its [for]. *)
Definition loop_start : M W () :=
  _ ← over LL (λ _, MkWatcherLoop 0 [] 0 None false false);
  _ ← setUp;
  _ ← for_each initial_watches (λ k,
    _ ← ra_Watch api k; _ ← ra_Add api "watcher"; over LL require_event);
  _ ← over LL require_event;
  isLeader ← ra_ClaimLeader api;
  _ ← leadershipChanged isLeader;
  _ ← over LL (set_wait (negb isLeader) isLeader);
  observed WatchLeadership.

Definition closed {A} (what : string) : M W A := throw (ErrNew what).

(** A case of the [select]: whether it goes on to [fire].  A nil channel delivers
    nothing, so an event of one changes nothing. *)
Definition handle_event (e : watcher_event) : M W bool :=
  l ← look LL id;
  match e with
  | EvDying => throw ErrDying
  | EvUnit ok =>
      if negb ok then closed "unit watcher closed"
      else _ ← unitStateChanged; _ ← observed WatchUnit; mret true
  | EvApplication ok =>
      if negb ok then closed "application watcher closed"
      else _ ← applicationChanged; _ ← observed WatchApplication; mret true
  | EvSecrets None => closed "secrets watcher closed"
  | EvSecrets (Some secrets) =>
      _ ← secretsChanged secrets; _ ← observed WatchSecrets; mret true
  | EvConfig None => closed "config watcher closed"
  | EvConfig (Some [hash]) =>
      _ ← change (configHashChanged hash); _ ← observed WatchConfig; mret true
  | EvConfig (Some _) => closed "expected one hash in config change"
  | EvAddresses None => closed "addresses watcher closed"
  | EvAddresses (Some [hash]) =>
      _ ← change (addressesHashChanged hash); _ ← observed WatchAddresses; mret true
  | EvAddresses (Some _) => closed "expected one hash in addresses change"
  | EvActions None => closed "actions watcher closed"
  | EvActions (Some actions) =>
      _ ← change (actionsChanged actions); _ ← observed WatchActions; mret true
  | EvRelations None => closed "relations watcher closed"
  | EvRelations (Some keys) =>
      _ ← relationsChanged keys; _ ← observed WatchRelations; mret true
  | EvStorage None => closed "storage watcher closed"
  | EvStorage (Some keys) =>
      _ ← storageChanged keys; _ ← observed WatchStorage; mret true
  | EvUpdateStatusInterval ok =>
      if negb ok then closed "update status interval watcher closed"
      else
        _ ← observed WatchUpdateStatusInterval;
        interval ← ra_UpdateStatusHookInterval api;
        _ ← over LL (set_timer (Some interval));
        mret (bool_decide (wl_updateStatusTimer l = None))
  | EvMinion =>
      if negb (wl_waitMinion l) then mret false
      else
        _ ← leadershipChanged false;
        _ ← over LL (set_wait true false);
        mret true
  | EvLeader =>
      if negb (wl_waitLeader l) then mret false
      else
        _ ← leadershipChanged true;
        _ ← over LL (set_wait false true);
        mret true
  | EvRotateSecrets None | EvRotateSecrets (Some []) => mret false
  | EvRotateSecrets (Some uris) => _ ← change (rotateSecretURIs uris); mret true
  | EvExpireSecrets None | EvExpireSecrets (Some []) => mret false
  | EvExpireSecrets (Some revisions) => _ ← change (expireSecretRevisions revisions); mret true
  | EvObsoleteRevisions None => closed "obsolete secret revisions watcher closed"
  | EvObsoleteRevisions (Some secretRevisions) =>
      _ ← secretObsoleteRevisionsChanged secretRevisions; mret true
  | EvDeletedRevisions None => closed "deleted secret revisions watcher closed"
  | EvDeletedRevisions (Some secretRevisions) =>
      _ ← secretDeletedRevisions secretRevisions; mret true
  | EvStorageAttachment tag snapshot =>
      _ ← change (storageAttachmentChanged tag snapshot); mret true
  | EvRelationUnits relationId c => _ ← relationUnitsChanged relationId c; mret true
  | EvUpdateStatusTimer =>
      match wl_updateStatusTimer l with
      | None => mret false
      | Some _ => _ ← change updateStatusChanged; mret true
      end
  | EvCommand None => closed "commandChannel closed"
  | EvCommand (Some id) => _ ← change (commandsChanged id); mret true
  | EvWorkload None => closed "workloadEventChannel closed"
  | EvWorkload (Some id) => _ ← change (workloadEventsChanged id); mret true
  | EvRetryHook ok =>
      if negb ok then closed "retryHookChannel closed"
      else _ ← change retryHookTimerTriggered; mret true
  | EvShutdown None => closed "shutdownChannel closed"
  | EvShutdown (Some shutdown) =>
      _ ← (if shutdown then change markShutdown else mret ()); mret true
  end.

(** One turn of the loop: whether it signalled. *)
Definition watcher_step (e : watcher_event) : M W bool :=
  something ← handle_event e;
  if something : bool then fire else mret false.

(** Turns of the loop, and which of them signalled. *)
Fixpoint watcher_run (es : list watcher_event) : M W (list bool) :=
  match es with
  | [] => mret []
  | e :: es' =>
      fired ← watcher_step e;
      rest ← watcher_run es';
      mret (fired :: rest)
  end.
End watcher.
