(* ===== verification/RemoteFacts.v ===== *)
(** * What the remote state watcher guarantees

    When it signals, what always holds of the snapshot it keeps, and that work
    it was told about stays in the snapshot until it is reported done. *)

From S2P Require Import Prelude GoText Hooks OpState Operations Resolver.
From S2P Require Import Storage Secrets UniterResolver RemoteState.
From stdpp Require Import pretty.
Import life operation.

(** ** Definitions *)

(** The operations of the API. *)
Inductive from_api {W} (api : RemoteAPI W) : ∀ {A}, M W A → Prop :=
| fa_Unit : from_api api (ra_Unit api)
| fa_Application : from_api api (ra_Application api)
| fa_Watch k : from_api api (ra_Watch api k)
| fa_RefreshUnit : from_api api (ra_RefreshUnit api)
| fa_RefreshApplication : from_api api (ra_RefreshApplication api)
| fa_CharmURL : from_api api (ra_CharmURL api)
| fa_CharmModifiedVersion : from_api api (ra_CharmModifiedVersion api)
| fa_GetConsumerSecretsRevisionInfo l : from_api api (ra_GetConsumerSecretsRevisionInfo api l)
| fa_Relation t : from_api api (ra_Relation api t)
| fa_WatchRelationUnits t : from_api api (ra_WatchRelationUnits api t)
| fa_FirstRelationUnits t : from_api api (ra_FirstRelationUnits api t)
| fa_WrapRelationUnits i : from_api api (ra_WrapRelationUnits api i)
| fa_StorageAttachmentLife l : from_api api (ra_StorageAttachmentLife api l)
| fa_WatchStorageAttachment t : from_api api (ra_WatchStorageAttachment api t)
| fa_FirstStorageEvent t : from_api api (ra_FirstStorageEvent api t)
| fa_StorageAttachment t : from_api api (ra_StorageAttachment api t)
| fa_NewStorageAttachmentWatcher t : from_api api (ra_NewStorageAttachmentWatcher api t)
| fa_UpdateStatusHookInterval : from_api api (ra_UpdateStatusHookInterval api)
| fa_ClaimLeader : from_api api (ra_ClaimLeader api)
| fa_SecretRotateWatcher b : from_api api (ra_SecretRotateWatcher api b)
| fa_SecretExpiryWatcher b : from_api api (ra_SecretExpiryWatcher api b)
| fa_WatchObsolete b : from_api api (ra_WatchObsolete api b)
| fa_WatchDeleted b : from_api api (ra_WatchDeleted api b)
| fa_Add t : from_api api (ra_Add api t)
| fa_Stop t : from_api api (ra_Stop api t)
| fa_Kill t : from_api api (ra_Kill api t).
#[export] Hint Constructors from_api : juju.

(** The API leaves the watcher's fields and the loop's locals alone. *)
Class RemoteWorld {W : Type} (api : RemoteAPI W) (LR : lens W RemoteStateWatcher)
    (LL : lens W watcher_loop) : Prop := {
  rw_LR : LensLaws LR;
  rw_LL : LensLaws LL;
  rw_LR_LL : Apart LR (view LL);
  rw_LL_LR : Apart LL (view LR);
  rw_keeps {A} (op : M W A) : from_api api op → keeps (λ w, (view LR w, view LL w)) op;
}.

(** The first event an event of the loop is. *)
Definition kind_of (e : watcher_event) : option watch_kind :=
  match e with
  | EvUnit _ => Some WatchUnit
  | EvApplication _ => Some WatchApplication
  | EvSecrets _ => Some WatchSecrets
  | EvConfig _ => Some WatchConfig
  | EvAddresses _ => Some WatchAddresses
  | EvActions _ => Some WatchActions
  | EvRelations _ => Some WatchRelations
  | EvStorage _ => Some WatchStorage
  | EvUpdateStatusInterval _ => Some WatchUpdateStatusInterval
  | _ => None
  end.

(** Events that always lead to a signal once the first events are in; the others
    may turn out not to be news. *)
Definition news (e : watcher_event) : bool :=
  match e with
  | EvUpdateStatusInterval _ | EvMinion | EvLeader | EvRotateSecrets _ | EvExpireSecrets _
  | EvUpdateStatusTimer => false
  | _ => true
  end.

(** The loop's bookkeeping of first events. *)
Record counts_events (l : watcher_loop) : Prop := {
  ce_required : wl_requiredEvents l = 10;
  ce_nodup : NoDup (wl_seen l);
  ce_count : wl_eventsObserved l = length (wl_seen l);
  ce_leadership : WatchLeadership ∈ wl_seen l;
}.

(** What always holds of the watcher.  [owner] is the key of the relation with an
    ID: the controller never gives one ID to two relations. *)
Record watcher_ok (owner : Z → string) (r : RemoteStateWatcher) : Prop := {
  wk_actions : NoDup (sn_ActionsPending (rw_current r));
  wk_changed a :
    a ∈ sn_ActionsPending (rw_current r) ↔ is_Some (sn_ActionChanged (rw_current r) !! a);
  wk_rotations : NoDup (sn_SecretRotations (rw_current r));
  wk_expired : NoDup (sn_ExpiredSecretRevisions (rw_current r));
  wk_workload : NoDup (sn_WorkloadEvents (rw_current r));
  wk_owner tag id : rw_relations r !! tag = Some id → owner id = tag;
  wk_watched tag id :
    rw_relations r !! tag = Some id →
    is_Some (sn_Relations (rw_current r) !! id) ∧ id ∉ rw_nilMembers r;
  wk_storage tag :
    tag ∈ rw_storageWatchers r → is_Some (sn_Storage (rw_current r) !! tag);
}.

(** An error that is not a panic of the program. *)
Definition no_panic (e : error) : Prop := ∀ s, e ≠ GoPanic s.

(** What the API is relied on for: it does not panic, gives an ID to one relation
    only, and answers for no more storage than it was asked about. *)
Record api_behaves {W} (owner : Z → string) (api : RemoteAPI W) : Prop := {
  ab_calm {A} (op : M W A) w e w' : from_api api op → op w = (Err e, w') → no_panic e;
  ab_owner tag w rel w' : ra_Relation api tag w = (Ok rel, w') → owner (ar_Id rel) = tag;
  ab_lives keys w results w' :
    ra_StorageAttachmentLife api keys w = (Ok results, w') →
    length results ≤ length keys ∧
    Forall (λ x, match x with Ok _ => True | Err e => no_panic e end) results;
}.

(** Changes of relation units come from the watchers that run. *)
Definition delivered (e : watcher_event) (r : RemoteStateWatcher) : Prop :=
  match e with
  | EvRelationUnits id _ => ∃ tag, rw_relations r !! tag = Some id
  | _ => True
  end.

(** What the rest of the agent does to the watcher: it reports work done, and takes
    the signal. *)
Inductive completion : Type :=
| ResolvedCleared
| CommandDone (id : string)
| ActionDone (id : string)
| WorkloadEventDone (id : string)
| RotationDone (url : string)
| ExpiryDone (rev : string)
| SecretsRemoved_ (deletedRevisions : gmap string (list Z)).
Definition complete (c : completion) : Snapshot → Snapshot :=
  match c with
  | ResolvedCleared => ClearResolvedMode
  | CommandDone id => CommandCompleted id
  | ActionDone id => ActionCompleted id
  | WorkloadEventDone id => WorkloadEventCompleted id
  | RotationDone url => RotateSecretCompleted url
  | ExpiryDone rev => ExpireRevisionCompleted rev
  | SecretsRemoved_ d => RemoveSecretsCompleted d
  end.

(** The worlds a started watcher can be in. *)
Inductive watching {W} (api : RemoteAPI W) (LR : lens W RemoteStateWatcher)
    (LL : lens W watcher_loop) : W → Prop :=
| watching_start config r w w' :
    NewWatcher config = Ok r → NoDup (wc_InitialWorkloadEventIDs config) →
    view LR w = r → loop_start api LR LL w = (Ok (), w') → watching api LR LL w'
| watching_step w e b w' :
    watching api LR LL w → delivered e (view LR w) →
    watcher_step api LR LL e w = (Ok b, w') → watching api LR LL w'
| watching_complete w c w' :
    watching api LR LL w → change LR (complete c) w = (Ok (), w') → watching api LR LL w'
| watching_observe w :
    watching api LR LL w → watching api LR LL (update LR (set_out false (view LR w)) w).

Lemma keeps_for_each {W U A} (g : W → U) (l : list A) (f : A → M W ()) :
  (∀ x, keeps g (f x)) → keeps g (for_each l f).
Proof. intros H. induction l as [|x l IH]; simpl; auto with juju. Qed.
#[export] Hint Resolve keeps_for_each : juju.

(** ** Lists of pending work *)

Lemma elem_of_remove_first x y l : y ∈ remove_first x l → y ∈ l.
Proof.
  induction l as [|z l IH]; simpl; [done|]. case_decide; rewrite ?elem_of_cons; naive_solver.
Qed.
Lemma elem_of_remove_first_ne x y l : y ≠ x → y ∈ l → y ∈ remove_first x l.
Proof.
  intros Hne. induction l as [|z l IH]; simpl; [done|].
  case_decide; rewrite ?elem_of_cons; naive_solver.
Qed.
Lemma NoDup_remove_first x l : NoDup l → NoDup (remove_first x l) ∧ x ∉ remove_first x l.
Proof.
  induction 1 as [|z l Hz Hl [IH1 IH2]]; simpl; [split; [constructor|set_solver]|].
  case_decide as E; [by subst|]. split.
  - constructor; [|done]. by intros ?%elem_of_remove_first.
  - rewrite elem_of_cons. naive_solver.
Qed.
Lemma elem_of_remove_first_iff x y l :
  NoDup l → y ∈ remove_first x l ↔ y ≠ x ∧ y ∈ l.
Proof.
  intros Hl. destruct (NoDup_remove_first x l Hl) as [_ Hx]. split.
  - intros H. split; [by intros ->|by eapply elem_of_remove_first].
  - intros [? ?]. by apply elem_of_remove_first_ne.
Qed.

Lemma NoDup_snoc {A} (l : list A) x : NoDup l → x ∉ l → NoDup (l ++ [x]).
Proof.
  intros Hl Hx. apply NoDup_app. split_and!; [done| |apply NoDup_singleton].
  intros y Hy ->%list_elem_of_singleton. done.
Qed.

Lemma NoDup_add_pending l items : NoDup l → NoDup (add_pending l items).
Proof.
  unfold add_pending. revert l. induction items as [|x items IH]; intros l Hl; simpl; [done|].
  apply IH. case_decide; [done|]. by apply NoDup_snoc.
Qed.
Lemma elem_of_add_pending x l items : x ∈ add_pending l items ↔ x ∈ l ∨ x ∈ items.
Proof.
  unfold add_pending. revert l. induction items as [|y items IH]; intros l; simpl.
  { set_solver. }
  rewrite IH. case_decide; set_solver.
Qed.

Section facts.
Context {W : Type} (api : RemoteAPI W) (LR : lens W RemoteStateWatcher)
  (LL : lens W watcher_loop) `{RW : !RemoteWorld api LR LL}.
#[local] Existing Instances rw_LR rw_LL rw_LR_LL rw_LL_LR.

(** ** The loop's locals *)

Lemma api_keeps_LL {A} (op : M W A) : from_api api op → keeps (view LL) op.
Proof. intros H w r w' E. by specialize (rw_keeps op H w r w' E) as [=]. Qed.
Lemma api_keeps_LR {A} (op : M W A) : from_api api op → keeps (view LR) op.
Proof. intros H w r w' E. by specialize (rw_keeps op H w r w' E) as [=]. Qed.
#[local] Hint Resolve api_keeps_LL api_keeps_LR : juju.

Lemma keeps_change f : keeps (view LL) (change LR f).
Proof. unfold change. apply keeps_over, _. Qed.
#[local] Hint Resolve keeps_change : juju.

Ltac keep :=
  repeat first
    [ lazymatch goal with |- ∀ _, _ => intros ? end
    | apply keeps_bind
    | apply keeps_try
    | apply keeps_for_each
    | apply keeps_over; apply _
    | apply keeps_ret | apply keeps_throw | apply keeps_gets | apply keeps_lift
    | apply keeps_change
    | apply api_keeps_LL; constructor
    | case_match ].

Lemma leadershipChanged_keeps b : keeps (view LL) (leadershipChanged api LR b).
Proof. unfold leadershipChanged, stop_if, look. keep. Qed.
Lemma relationsChanged_keeps l : keeps (view LL) (relationsChanged api LR l).
Proof.
  unfold relationsChanged, relation_changed, ensureRelationUnits, watchRelationUnits, look.
  keep.
Qed.
Lemma storageChanged_keeps l : keeps (view LL) (storageChanged api LR l).
Proof.
  unfold storageChanged. keep. revert l. induction a as [|res a IH]; intros l; [apply keeps_ret|].
  destruct l as [|tag l]; simpl; [apply keeps_throw|]. apply keeps_bind; [|auto].
  unfold storage_changed, watchStorageAttachment, getStorageSnapshot, look. keep.
Qed.

Lemma observed_seen k l :
  counts_events l → counts_events (observedEvent k l) ∧
  ∀ k', k' ∈ wl_seen (observedEvent k l) ↔ k' = k ∨ k' ∈ wl_seen l.
Proof.
  intros [Hr Hn Hc Hl]. unfold observedEvent. case_decide as Hk.
  - split; [done|]. intros k'. naive_solver.
  - split; [split; simpl; [done|by constructor|by rewrite Hc|by right]|].
    intros k'. simpl. by rewrite elem_of_cons.
Qed.

(** With ten kinds of first events, ten of them seen are all of them. *)
Lemma all_seen l :
  counts_events l →
  wl_eventsObserved l = wl_requiredEvents l ↔ ∀ k, k ∈ initial_watches → k ∈ wl_seen l.
Proof.
  intros [Hr Hn Hc Hl]. rewrite Hr, Hc.
  set (all := WatchLeadership :: initial_watches).
  assert (∀ k, k ∈ all) as Hall by (intros []; set_solver).
  assert (NoDup all) as Hnd by (apply (bool_decide_unpack _); by vm_compute).
  split.
  - intros Hlen k _. assert (all ⊆+ wl_seen l) as Hsub; [|by eapply elem_of_submseteq].
    assert (wl_seen l ⊆+ all) as H by (by apply NoDup_submseteq).
    apply Permutation_submseteq, symmetry, submseteq_length_Permutation; [done|].
    by rewrite Hlen.
  - intros Hk. apply (anti_symm (≤)).
    + change 10 with (length all). apply submseteq_length. by apply NoDup_submseteq.
    + change 10 with (length all). apply submseteq_length. apply NoDup_submseteq; [done|].
      intros k [->|H]%elem_of_cons; [done|by apply Hk].
Qed.

(** The three shapes of a case of the [select]. *)
Lemma case_observed (m : M W ()) k w b w' :
  keeps (view LL) m → (_ ← m; _ ← observed LL k; mret true) w = (Ok b, w') →
  view LL w' = observedEvent k (view LL w) ∧ b = true.
Proof.
  intros Hm H. apply bind_inv_ok in H as (a & w1 & E & H). apply Hm in E.
  apply bind_inv_ok in H as ([] & w2 & E2 & H). apply mret_inv in H as [[= ->] ->].
  split; [|done]. unfold observed, over, modify in E2. simplify_eq.
  by rewrite view_update, E.
Qed.

Lemma case_plain (m : M W ()) w b w' :
  keeps (view LL) m → (_ ← m; mret true) w = (Ok b, w') → view LL w' = view LL w ∧ b = true.
Proof.
  intros Hm H. apply bind_inv_ok in H as (a & w1 & E & H). apply Hm in E.
  by apply mret_inv in H as [[= ->] ->].
Qed.

Lemma case_wait (m : M W ()) x y w b w' :
  keeps (view LL) m → (_ ← m; _ ← over LL (set_wait x y); mret true) w = (Ok b, w') →
  view LL w' = set_wait x y (view LL w).
Proof.
  intros Hm H. apply bind_inv_ok in H as (a & w1 & E & H). apply Hm in E.
  apply bind_inv_ok in H as ([] & w2 & E2 & H). apply mret_inv in H as [_ ->].
  unfold over, modify in E2. simplify_eq. by rewrite view_update, E.
Qed.

Lemma counts_set_wait x y l : counts_events l → counts_events (set_wait x y l).
Proof. by intros []. Qed.

Lemma keeps_look {A} (f : RemoteStateWatcher → A) : keeps (view LL) (look LR f).
Proof. apply keeps_gets. Qed.

Lemma handlers_keep :
  keeps (view LL) (unitStateChanged api LR) ∧ keeps (view LL) (applicationChanged api LR) ∧
  (∀ l, keeps (view LL) (secretsChanged api LR l)) ∧
  (∀ l, keeps (view LL) (secretObsoleteRevisionsChanged LR l)) ∧
  (∀ l, keeps (view LL) (secretDeletedRevisions LR l)) ∧
  (∀ i c, keeps (view LL) (relationUnitsChanged LR i c)).
Proof.
  unfold unitStateChanged, applicationChanged, secretsChanged, secretObsoleteRevisionsChanged,
    secretDeletedRevisions, relationUnitsChanged, change_each, look.
  split_and!; keep.
Qed.

(** What handling an event does to the locals. *)
Definition accounted (e : watcher_event) (l : watcher_loop) (b : bool) (l' : watcher_loop) :
    Prop :=
  counts_events l' ∧ (∀ k, k ∈ wl_seen l' ↔ kind_of e = Some k ∨ k ∈ wl_seen l) ∧
  (news e = true → b = true).

Lemma accounted_observed e k l l' b :
  counts_events l → kind_of e = Some k → l' = observedEvent k l ∧ b = true →
  accounted e l b l'.
Proof.
  intros Hc Hk [-> ->]. destruct (observed_seen k _ Hc) as [? Hs]. split_and!; [done| |done].
  intros k'. rewrite Hs, Hk. naive_solver.
Qed.

Lemma accounted_same e l l' b :
  counts_events l' → wl_seen l' = wl_seen l → kind_of e = None →
  (news e = true → b = true) → accounted e l b l'.
Proof. intros Hc Hs Hk Hb. split_and!; [done| |done]. rewrite Hs, Hk. naive_solver. Qed.

Lemma accounted_plain e l l' b :
  counts_events l → kind_of e = None → l' = l ∧ b = true → accounted e l b l'.
Proof. intros Hc Hk [-> ->]. by apply accounted_same. Qed.

Lemma handle_event_seen e w b w' :
  handle_event api LR LL e w = (Ok b, w') → counts_events (view LL w) →
  accounted e (view LL w) b (view LL w').
Proof.
  intros H Hc. destruct handlers_keep as (K1 & K2 & K3 & K4 & K5 & K6).
  unfold handle_event in H. apply bind_inv_ok in H as (l & w0 & El & H).
  unfold look, gets in El. simplify_eq.
  destruct e as [|[]|[]|[]|[[|? []]|]|[[|? []]|]|[]|[]|[]|[]| | |[[]|]|[[]|]|[]|[]| | | |[]|[]|[]|[]];
    cbn in H; try done;
    try (eapply accounted_observed; [done|done|]; eapply case_observed;
         [|exact H]; auto using relationsChanged_keeps, storageChanged_keeps, keeps_change);
    try (eapply accounted_plain; [done|done|]; eapply case_plain; [|exact H];
         auto using keeps_change);
    try (apply mret_inv in H as [[= ->] ->]; by apply accounted_same).
  - apply bind_inv_ok in H as ([] & w1 & E1 & H). apply bind_inv_ok in H as (i & w2 & E2 & H).
    apply bind_inv_ok in H as ([] & w3 & E3 & H). apply mret_inv in H as [_ ->].
    apply (api_keeps_LL _ (fa_UpdateStatusHookInterval api)) in E2.
    unfold observed, over, modify in E1, E3. simplify_eq. rewrite view_update in *.
    rewrite E2. destruct (observed_seen WatchUpdateStatusInterval _ Hc) as [[] Hs].
    split_and!; [by split| |done]. intros k. simpl. rewrite Hs. naive_solver.
  - destruct (wl_waitMinion (view LL w0)); cbn in H.
    2: { apply mret_inv in H as [[= ->] ->]. by apply accounted_same. }
    apply case_wait in H as E; [|apply leadershipChanged_keeps].
    rewrite E. by apply accounted_same; [apply counts_set_wait|..].
  - destruct (wl_waitLeader (view LL w0)); cbn in H.
    2: { apply mret_inv in H as [[= ->] ->]. by apply accounted_same. }
    apply case_wait in H as E; [|apply leadershipChanged_keeps].
    rewrite E. by apply accounted_same; [apply counts_set_wait|..].
  - destruct (wl_updateStatusTimer (view LL w0)).
    + eapply accounted_plain; [done|done|]. eapply case_plain; [|exact H]. apply keeps_change.
    + apply mret_inv in H as [[= ->] ->]. by apply accounted_same.
  - destruct b0; [apply keeps_change|apply keeps_ret].
Qed.

Lemma fire_keeps : keeps (view LL) (fire LR LL).
Proof. unfold fire, look. keep. Qed.

Lemma fire_ok w b w' :
  fire LR LL w = (Ok b, w') → counts_events (view LL w) →
  b = true ↔ ∀ k, k ∈ initial_watches → k ∈ wl_seen (view LL w).
Proof.
  intros H Hc. rewrite <- all_seen by done. unfold fire in H.
  apply bind_inv_ok in H as (l & w0 & El & H). unfold look, gets in El. simplify_eq.
  case_decide as Hd.
  - apply mret_inv in H as [[= ->] ->]. naive_solver.
  - apply bind_inv_ok in H as ([] & w2 & _ & H). apply mret_inv in H as [[= ->] ->].
    naive_solver.
Qed.

Lemma watcher_step_signal e w b w' :
  watcher_step api LR LL e w = (Ok b, w') → counts_events (view LL w) →
  counts_events (view LL w') ∧
  (∀ k, k ∈ wl_seen (view LL w') ↔ kind_of e = Some k ∨ k ∈ wl_seen (view LL w)) ∧
  (b = true → ∀ k, k ∈ initial_watches → k ∈ wl_seen (view LL w')) ∧
  (news e = true → (∀ k, k ∈ initial_watches → k ∈ wl_seen (view LL w')) → b = true).
Proof.
  intros H Hc. unfold watcher_step in H. apply bind_inv_ok in H as (x & w1 & E & H).
  apply handle_event_seen in E as (Hc1 & Hs & Hn); [|done]. destruct x.
  - pose proof (fire_keeps _ _ _ H) as Ek. apply fire_ok in H; [|done].
    rewrite Ek. naive_solver.
  - apply mret_inv in H as [[= ->] ->]. split_and!; [done|done|done|naive_solver].
Qed.

(** The kinds of first events among events [0..i] of a run. *)
Definition seen_by (es : list watcher_event) (i : nat) (k : watch_kind) : Prop :=
  ∃ j e, j ≤ i ∧ es !! j = Some e ∧ kind_of e = Some k.

Lemma watcher_run_signals es w fired w' :
  watcher_run api LR LL es w = (Ok fired, w') → counts_events (view LL w) →
  ∀ i e, es !! i = Some e →
    (fired !! i = Some true →
      ∀ k, k ∈ initial_watches → seen_by es i k ∨ k ∈ wl_seen (view LL w)) ∧
    (news e = true →
      (∀ k, k ∈ initial_watches → seen_by es i k ∨ k ∈ wl_seen (view LL w)) →
      fired !! i = Some true).
Proof.
  revert w fired. induction es as [|e0 es IH]; intros w fired H Hc i e Hi; [done|].
  simpl in H. apply bind_inv_ok in H as (b & w1 & E & H).
  apply bind_inv_ok in H as (rest & w2 & E2 & H). apply mret_inv in H as [[= ->] ->].
  apply watcher_step_signal in E as (Hc1 & Hs & Hb & Hn); [|done].
  destruct i as [|i]; simpl in Hi; simplify_eq/=.
  - assert (∀ k, (seen_by (e :: es) 0 k ∨ k ∈ wl_seen (view LL w)) ↔
      k ∈ wl_seen (view LL w1)) as Hk.
    { intros k. rewrite Hs. split.
      - intros [(j & e' & Hj & He & Hk)|?]; [|by right].
        assert (j = 0) as -> by lia. simpl in He. simplify_eq. by left.
      - intros [?|?]; [left; exists 0, e|by right]. done. }
    setoid_rewrite Hk. split; [intros [= ->]; by apply Hb|]. intros Hne Hall. by rewrite Hn.
  - assert (∀ k, (seen_by (e0 :: es) (S i) k ∨ k ∈ wl_seen (view LL w)) ↔
      (seen_by es i k ∨ k ∈ wl_seen (view LL w1))) as Hk.
    { intros k. rewrite Hs. split.
      - intros [([|j] & e' & Hj & He & Hk)|?]; [| |by right; right]; simpl in He.
        + simplify_eq. by right; left.
        + left. exists j, e'. split_and!; [lia|done|done].
      - intros [(j & e' & Hj & He & Hk)|[?|?]].
        + left. exists (S j), e'. split_and!; [lia|done|done].
        + left. exists 0, e0. split_and!; [lia|done|done].
        + by right. }
    setoid_rewrite Hk. by eapply IH.
Qed.

Lemma start_watches ks w w' l :
  for_each ks (λ k, _ ← ra_Watch api k; _ ← ra_Add api "watcher"; over LL require_event) w
    = (Ok (), w') →
  view LL w = l → view LL w' = Nat.iter (length ks) require_event l.
Proof.
  revert w l. induction ks as [|k ks IH]; intros w l H Hl; simpl in H.
  { by apply mret_inv in H as [_ ->]. }
  apply bind_inv_ok in H as ([] & w1 & E & H).
  apply bind_inv_ok in E as (? & w2 & E1 & E). apply bind_inv_ok in E as (? & w3 & E2 & E).
  apply (api_keeps_LL _ (fa_Watch api k)) in E1.
  apply (api_keeps_LL _ (fa_Add api "watcher")) in E2.
  unfold over, modify in E. simplify_eq.
  rewrite (IH _ _ H (view_update _ _)). rewrite E2, E1. simpl.
  by rewrite <- Nat.iter_succ_r.
Qed.

Lemma setUp_keeps : keeps (view LL) (setUp api LR).
Proof. unfold setUp, look. keep. Qed.

Lemma loop_start_counts w w' :
  loop_start api LR LL w = (Ok (), w') →
  counts_events (view LL w') ∧ wl_seen (view LL w') = [WatchLeadership].
Proof.
  unfold loop_start. intros H. apply bind_inv_ok in H as ([] & w1 & E1 & H).
  apply bind_inv_ok in H as ([] & w2 & E2 & H). apply setUp_keeps in E2.
  apply bind_inv_ok in H as ([] & w3 & E3 & H).
  apply bind_inv_ok in H as ([] & w4 & E4 & H).
  apply bind_inv_ok in H as (b & w5 & E5 & H).
  apply (api_keeps_LL _ (fa_ClaimLeader api)) in E5.
  apply bind_inv_ok in H as ([] & w6 & E6 & H). apply leadershipChanged_keeps in E6.
  apply bind_inv_ok in H as ([] & w7 & E7 & H).
  eapply start_watches in E3; [|exact E2].
  unfold observed, over, modify in *. simplify_eq. rewrite !view_update in *.
  rewrite E6, E5, E3. split; [|done]. split; simpl; [done|apply NoDup_singleton|done|by left].
Qed.


(** ** Relations that are suspended *)

Lemma try_api {A} (op : M W A) w x w1 :
  from_api api op → op w = (x, w1) → (∀ s, x ≠ Err (GoPanic s)) →
  try op w = (Ok x, w1) ∧ view LR w1 = view LR w.
Proof.
  intros Ho E Hx. split; [|by eapply api_keeps_LR].
  unfold try. rewrite E. destruct x as [a|e]; [done|]. destruct e; try done. by destruct (Hx what).
Qed.

Lemma suspend_relation tag rel i w wr x w' :
  rw_relations (view LR w) !! tag = Some i →
  ra_Relation api tag w = (Ok rel, wr) → ar_Suspended rel = true →
  relation_changed api LR tag w = (Ok x, w') →
  rw_relations (view LR w') !! tag = None ∧
  rsn_Suspended <$> (sn_Relations (rw_current (view LR w')) !! ar_Id rel) = Some true.
Proof.
  intros Ht Hr Hs H. unfold relation_changed in H.
  destruct (try_api _ _ _ _ (fa_Relation api tag) Hr) as [E Ev]; [done|].
  rewrite (bind_ok _ _ _ _ _ E) in H. unfold ensureRelationUnits in H.
  rewrite (bind_ok (look LR id) _ wr (view LR wr) wr eq_refl), Ev, Ht in H.
  apply bind_inv_ok in H as ([] & w2 & E2 & H). rewrite Hs in H.
  apply bind_inv_ok in H as (y & w3 & E3 & H).
  apply (keeps_try (view LR)) in E3; [|apply api_keeps_LR; constructor].
  unfold over, modify in E2, H. simplify_eq. rewrite view_update, E3, view_update, Ev.
  simpl. rewrite lookup_delete_eq, lookup_insert_eq. simpl. by rewrite Hs.
Qed.

Lemma remove_unwatched tag e w wr x w' :
  rw_relations (view LR w) !! tag = None →
  ra_Relation api tag w = (Err e, wr) → IsCodeNotFoundOrCodeUnauthorized e = true →
  relation_changed api LR tag w = (x, w') → view LR w' = view LR w.
Proof.
  intros Ht Hr He H. unfold relation_changed in H.
  destruct (try_api _ _ _ _ (fa_Relation api tag) Hr) as [E Ev]; [by intros s [= ->]|].
  rewrite (bind_ok _ _ _ _ _ E) in H. simpl in H. rewrite He in H.
  rewrite (bind_ok (look LR id) _ wr (view LR wr) wr eq_refl), Ev, Ht in H.
  apply mret_inv in H as [_ ->]. done.
Qed.

(** A relation that is removed while it is suspended stays in the snapshot.
    When a watched relation is suspended the watcher stops watching its units
    but keeps it in the snapshot, so that its hooks can run; when it is then
    removed, the notification that it is gone changes nothing, and the
    resolvers see a suspended relation that does not exist for good. *)
Theorem removed_suspended_relation_stays tag rel i w wr x w1 e wr1 x1 w2 :
  rw_relations (view LR w) !! tag = Some i →
  ra_Relation api tag w = (Ok rel, wr) → ar_Suspended rel = true →
  relation_changed api LR tag w = (Ok x, w1) →
  ra_Relation api tag w1 = (Err e, wr1) → IsCodeNotFoundOrCodeUnauthorized e = true →
  relation_changed api LR tag w1 = (x1, w2) →
  rsn_Suspended <$> (sn_Relations (rw_current (view LR w2)) !! ar_Id rel) = Some true.
Proof.
  intros Ht Hr Hs H He Hc H1.
  destruct (suspend_relation _ _ _ _ _ _ _ Ht Hr Hs H) as [Hn Hsn].
  by rewrite (remove_unwatched _ _ _ _ _ _ Hn He Hc H1).
Qed.
End facts.

(** ** Secrets that are deleted *)

Lemma revision_parts_uri uri : lacks slash uri = true → revision_parts uri = (uri, None).
Proof. intros H. unfold revision_parts. by rewrite split_on_lacks. Qed.
Lemma revision_parts_rev uri (rev : Z) :
  lacks slash uri = true → (0 ≤ rev)%Z →
  revision_parts (uri +:+ String slash (pretty rev)) = (uri, Some (pretty rev)).
Proof.
  intros H Hr. unfold revision_parts. rewrite split_on_app by done.
  by rewrite split_on_lacks by by apply pretty_Z_lacks.
Qed.

(** An empty list of deleted revisions stands for the whole secret: when the
    deletion of a secret is reported before that of one of its revisions, the
    secret is taken for one that has lost that revision only. *)
Lemma later_revision_hides_deletion s uri (rev : Z) :
  lacks slash uri = true → (0 ≤ rev ≤ MaxInt)%Z →
  ∃ s1 s2, deleted_revision s uri = Ok s1 ∧
    sn_DeletedSecretRevisions s1 !! uri = Some [] ∧
    deleted_revision s1 (uri +:+ String slash (pretty rev)) = Ok s2 ∧
    sn_DeletedSecretRevisions s2 !! uri = Some [rev].
Proof.
  intros Hu Hr. unfold deleted_revision.
  rewrite revision_parts_uri, revision_parts_rev by (done || lia).
  rewrite Atoi_pretty by (unfold MinInt; lia).
  eexists _, _. split_and!; [done|apply lookup_insert_eq|done|]. simpl.
  by rewrite !lookup_insert_eq.
Qed.
