(* ===== verification/RemoteInvariant.v ===== *)
(** * The invariant of the remote state watcher

    Every handler keeps [watcher_ok], on success and on error, and none panics;
    work that is pending stays pending until it is reported done. *)

From S2P Require Import Prelude GoText Hooks OpState Operations Resolver.
From S2P Require Import Storage Secrets UniterResolver RemoteState RemoteFacts.
Import life operation.

(** ** Changes of the snapshot *)

Section changes.
Context (owner : Z → string).

(** A change that touches nothing the invariant looks at. *)
Definition same_pending (s s' : Snapshot) : Prop :=
  sn_ActionsPending s' = sn_ActionsPending s ∧ sn_ActionChanged s' = sn_ActionChanged s ∧
  sn_SecretRotations s' = sn_SecretRotations s ∧
  sn_ExpiredSecretRevisions s' = sn_ExpiredSecretRevisions s ∧
  sn_WorkloadEvents s' = sn_WorkloadEvents s ∧
  sn_Relations s' = sn_Relations s ∧ sn_Storage s' = sn_Storage s.

Lemma ok_same f r :
  watcher_ok owner r → same_pending (rw_current r) (f (rw_current r)) →
  watcher_ok owner (on_current f r).
Proof.
  intros [? ? ? ? ? ? ? ?] (E1 & E2 & E3 & E4 & E5 & E6 & E7). unfold on_current.
  split; simpl; rewrite ?E1, ?E2, ?E3, ?E4, ?E5, ?E6, ?E7; done.
Qed.

Lemma ok_workload r v :
  watcher_ok owner r → NoDup v → watcher_ok owner (on_current (set_WorkloadEvents v) r).
Proof. intros [] ?. by split. Qed.
Lemma ok_rotations r v :
  watcher_ok owner r → NoDup v → watcher_ok owner (on_current (set_SecretRotations v) r).
Proof. intros [] ?. by split. Qed.
Lemma ok_expired r v :
  watcher_ok owner r → NoDup v → watcher_ok owner (on_current (set_Expired v) r).
Proof. intros [] ?. by split. Qed.
Lemma ok_actions r p c :
  watcher_ok owner r → NoDup p → (∀ a, a ∈ p ↔ is_Some (c !! a)) →
  watcher_ok owner (on_current (set_actions p c) r).
Proof. intros [] ??. by split. Qed.

Lemma ok_actionsChanged r l :
  watcher_ok owner r → watcher_ok owner (on_current (actionsChanged l) r).
Proof.
  revert r. induction l as [|a l IH]; intros r H; [by destruct r|].
  specialize (IH (on_current (λ s, action_changed s a) r)). apply IH.
  unfold on_current, action_changed. pose proof (wk_actions _ _ H). pose proof (wk_changed _ _ H) as Hc.
  destruct (sn_ActionChanged (rw_current r) !! a) as [n|] eqn:E; apply ok_actions; try done.
  - intros b. rewrite Hc. destruct (decide (b = a)) as [->|].
    + rewrite E, lookup_insert_eq. split; eauto.
    + by rewrite lookup_insert_ne.
  - apply NoDup_snoc; [done|]. rewrite Hc, E. by intros [].
  - intros b. rewrite elem_of_app, list_elem_of_singleton, Hc.
    destruct (decide (b = a)) as [->|].
    + rewrite lookup_insert_eq. split; eauto.
    + rewrite lookup_insert_ne by done. naive_solver.
Qed.

Lemma remove_secret_same uri revs s : same_pending s (remove_secret uri revs s).
Proof. unfold remove_secret. by case_decide. Qed.
Lemma RemoveSecretsCompleted_same d s : same_pending s (RemoveSecretsCompleted d s).
Proof.
  unfold RemoveSecretsCompleted. apply (map_fold_weak_ind (λ s' _, same_pending s s')); [done|].
  intros uri revs m s' _ (E1 & E2 & E3 & E4 & E5 & E6 & E7).
  destruct (remove_secret_same uri revs s') as (F1 & F2 & F3 & F4 & F5 & F6 & F7).
  unfold same_pending. by rewrite F1, F2, F3, F4, F5, F6, F7.
Qed.
Lemma consumed_info_same info l s : same_pending s (foldl (consumed_info info) s l).
Proof.
  revert s. induction l as [|u l IH]; intros s; [done|]. simpl.
  destruct (IH (consumed_info info s u)) as (E1 & E2 & E3 & E4 & E5 & E6 & E7).
  unfold same_pending. rewrite E1, E2, E3, E4, E5, E6, E7. unfold consumed_info.
  by destruct (info !! u).
Qed.

Lemma ok_complete c r : watcher_ok owner r → watcher_ok owner (on_current (complete c) r).
Proof.
  intros H. pose proof H as [? ? ? ? ? ? ? ?]. destruct c; simpl.
  - by apply ok_same.
  - by apply ok_same.
  - apply (ok_actions r); [done|by apply NoDup_remove_first|].
    intros a. rewrite elem_of_remove_first_iff, wk_changed by done.
    destruct (decide (a = id)) as [->|]; [rewrite lookup_delete_eq|rewrite lookup_delete_ne by done].
    + split; [naive_solver|by intros []].
    + naive_solver.
  - apply (ok_workload r); [done|by apply NoDup_remove_first].
  - apply (ok_rotations r); [done|by apply NoDup_remove_first].
  - apply (ok_expired r); [done|by apply NoDup_remove_first].
  - apply ok_same; [done|]. apply RemoveSecretsCompleted_same.
Qed.

(** ** Relations and storage *)

Lemma ok_update_relation rel r : watcher_ok owner r → watcher_ok owner (update_relation rel r).
Proof.
  intros [? ? ? ? ? ? Hw ?]. unfold update_relation. split; simpl; try done.
  intros tag id H. destruct (Hw tag id H) as [Hs Hn]. split.
  - destruct (decide (id = ar_Id rel)) as [->|]; [rewrite lookup_insert_eq; eauto|].
    by rewrite lookup_insert_ne.
  - destruct (_ !! ar_Id rel) eqn:E; [done|]. rewrite not_elem_of_union. split; [|done].
    rewrite elem_of_singleton. intros ->. rewrite E in Hs. by destruct Hs.
Qed.

Lemma ok_unwatch tag r :
  watcher_ok owner r →
  watcher_ok owner (set_watched (delete tag (rw_relations r)) (rw_nilMembers r) r).
Proof.
  intros [? ? ? ? ? Ho Hw ?]. split; simpl; try done.
  - intros tag' id [_ H]%lookup_delete_Some. by apply Ho.
  - intros tag' id [_ H]%lookup_delete_Some. by eapply Hw.
Qed.

Lemma ok_forget tag id r :
  watcher_ok owner r → rw_relations r !! tag = Some id →
  watcher_ok owner (set_watched (delete tag (rw_relations r)) (rw_nilMembers r ∖ {[id]})
    (on_current (λ s, set_Relations (delete id (sn_Relations s)) s) r)).
Proof.
  intros [? ? ? ? ? Ho Hw ?] Ht. split; simpl; try done.
  - intros tag' id' [_ H]%lookup_delete_Some. by apply Ho.
  - intros tag' id' [Hne H]%lookup_delete_Some. destruct (Hw tag' id' H) as [Hs Hn].
    assert (id' ≠ id) as Hid.
    { intros ->. apply Hne. by rewrite <- (Ho tag id Ht), <- (Ho tag' id H). }
    rewrite lookup_delete_ne by done. set_solver.
Qed.

Lemma ok_watch tag rel rsn r :
  watcher_ok owner r → owner (ar_Id rel) = tag →
  watcher_ok owner (set_watched (<[tag := ar_Id rel]> (rw_relations r))
    (rw_nilMembers r ∖ {[ar_Id rel]})
    (on_current (λ s, set_Relations (<[ar_Id rel := rsn]> (sn_Relations s)) s) r)).
Proof.
  intros [? ? ? ? ? Ho Hw ?] Hr. split; simpl; try done.
  - intros tag' id' [[<- <-]|[_ H]]%lookup_insert_Some; [done|by apply Ho].
  - intros tag' id' [[<- <-]|[_ H]]%lookup_insert_Some.
    + rewrite lookup_insert_eq. set_solver.
    + destruct (Hw tag' id' H) as [Hs Hn]. split; [|set_solver].
      destruct (decide (id' = ar_Id rel)) as [->|]; [rewrite lookup_insert_eq; eauto|].
      by rewrite lookup_insert_ne.
Qed.

Lemma ok_relation_units id rsn r :
  watcher_ok owner r →
  watcher_ok owner (on_current (λ s, set_Relations (<[id := rsn]> (sn_Relations s)) s) r).
Proof.
  intros [? ? ? ? ? Ho Hw ?]. split; simpl; try done.
  intros tag' id' H. destruct (Hw tag' id' H) as [Hs Hn]. split; [|done].
  destruct (decide (id' = id)) as [->|]; [rewrite lookup_insert_eq; eauto|].
  by rewrite lookup_insert_ne.
Qed.

Lemma ok_set_storage tag v r :
  watcher_ok owner r →
  watcher_ok owner (on_current (λ s, set_Storage (<[tag := v]> (sn_Storage s)) s) r).
Proof.
  intros [? ? ? ? ? ? ? Hs]. split; simpl; try done. intros tag' H%Hs.
  destruct (decide (tag' = tag)) as [->|]; [rewrite lookup_insert_eq; eauto|].
  by rewrite lookup_insert_ne.
Qed.
End changes.

(** ** Handlers *)

Section handlers.
Context {W : Type} (api : RemoteAPI W) (LR : lens W RemoteStateWatcher)
  (LL : lens W watcher_loop) `{RW : !RemoteWorld api LR LL}.
Context (owner : Z → string) (Hapi : api_behaves owner api).
#[local] Existing Instances rw_LR rw_LL rw_LR_LL rw_LL_LR.

#[local] Abbreviation ok := (watcher_ok owner).

(** From a watcher that satisfies [Φ], [m] ends in one that satisfies [Ψ] or, with
    an error that is not a panic, in one that satisfies the invariant. *)
Definition hoare {A} (Φ : RemoteStateWatcher → Prop) (m : M W A)
    (Ψ : A → RemoteStateWatcher → Prop) : Prop :=
  triple (λ w, Φ (view LR w)) m (λ a w, Ψ a (view LR w))
    (λ e w, ok (view LR w) ∧ no_panic e).

Lemma h_bind {A B} Φ (m : M W A) (k : A → M W B) Ψ Θ :
  hoare Φ m Ψ → (∀ a, hoare (Ψ a) (k a) Θ) → hoare Φ (m ≫= k) Θ.
Proof. intros ??. by eapply triple_bind. Qed.
Lemma h_ret {A} (a : A) (Φ : RemoteStateWatcher → Prop) (Ψ : A → RemoteStateWatcher → Prop) :
  (∀ r, Φ r → Ψ a r) → hoare Φ (mret a) Ψ.
Proof. intros H. apply triple_ret. auto. Qed.
Lemma h_throw {A} e (Φ : RemoteStateWatcher → Prop) (Ψ : A → RemoteStateWatcher → Prop) :
  (∀ r, Φ r → ok r) → no_panic e → hoare Φ (throw e) Ψ.
Proof. intros H He. apply triple_throw. auto. Qed.
Lemma h_look {A} (f : RemoteStateWatcher → A) Φ :
  hoare Φ (look LR f) (λ a r, Φ r ∧ a = f r).
Proof. apply triple_gets. auto. Qed.
Lemma h_look_loop {A} (f : watcher_loop → A) Φ : hoare Φ (look LL f) (λ _, Φ).
Proof. apply triple_gets. auto. Qed.
Lemma h_over f Φ (Ψ : RemoteStateWatcher → Prop) :
  (∀ r, Φ r → Ψ (f r)) → hoare Φ (over LR f) (λ _, Ψ).
Proof. intros H. apply triple_modify. intros w Hw. rewrite view_update. auto. Qed.
Lemma h_change f Φ (Ψ : RemoteStateWatcher → Prop) :
  (∀ r, Φ r → Ψ (on_current f r)) → hoare Φ (change LR f) (λ _, Ψ).
Proof. apply h_over. Qed.
Lemma h_over_loop f Φ : hoare Φ (over LL f) (λ _, Φ).
Proof. apply triple_modify. intros w Hw. by rewrite (apart (f:=view LR)). Qed.
Lemma h_lift {A} (x : result A) Φ :
  (∀ r, Φ r → ok r) → (∀ e, x = Err e → no_panic e) →
  hoare Φ (lift_result x) (λ a r, Φ r ∧ x = Ok a).
Proof. intros H He. apply triple_lift. intros w Hw. destruct x; auto. Qed.
Lemma h_api {A} (op : M W A) Φ :
  from_api api op → (∀ r, Φ r → ok r) → hoare Φ op (λ _, Φ).
Proof.
  intros Ho HΦ w r w' Hw H. pose proof (api_keeps_LR api LR LL op Ho w r w' H) as E.
  rewrite E. destruct r; [done|]. split; [auto|]. by eapply (ab_calm _ _ Hapi).
Qed.
Lemma h_try {A} (op : M W A) Φ :
  from_api api op → (∀ r, Φ r → ok r) → hoare Φ (try op) (λ _, Φ).
Proof.
  intros Ho HΦ w r w' Hw H. unfold try in H. destruct (op w) as [x w1] eqn:E.
  pose proof (api_keeps_LR api LR LL op Ho w x w1 E) as E1.
  destruct x as [a|e]; [by simplify_eq; rewrite E1|].
  pose proof (ab_calm _ _ Hapi op w e w1 Ho E) as Hc.
  destruct e; simplify_eq; try by rewrite E1. by destruct (Hc what).
Qed.
Lemma h_weaken {A} (Φ Φ' : RemoteStateWatcher → Prop) (m : M W A) Ψ :
  hoare Φ' m Ψ → (∀ r, Φ r → Φ' r) → hoare Φ m Ψ.
Proof. intros Hm H w r w' Hw. apply Hm. auto. Qed.
Lemma h_pure {A} (P : Prop) Φ (m : M W A) Ψ :
  (P → hoare Φ m Ψ) → hoare (λ r, Φ r ∧ P) m Ψ.
Proof. intros H w r w' [Hw HP]. by apply H. Qed.
Lemma h_bind_try {A B} (op : M W A) (k : result A → M W B) Φ Θ :
  from_api api op → (∀ r, Φ r → ok r) →
  (∀ x, match x with Ok _ => True | Err e => no_panic e end → hoare Φ (k x) Θ) →
  hoare Φ (try op ≫= k) Θ.
Proof.
  intros Ho HΦ Hk. eapply (h_bind _ _ _ (λ x r, Φ r ∧
    match x with Ok _ => True | Err e => no_panic e end)).
  2: { intros x. apply h_pure, Hk. }
  intros w x w' Hw H. pose proof (h_try op Φ Ho HΦ w x w' Hw H) as Ht.
  destruct x as [[a|e]|e]; [done| |done]. split; [done|].
  unfold try in H. destruct (op w) as [[a|e'] w1] eqn:E; [done|].
  pose proof (ab_calm _ _ Hapi op w e' w1 Ho E). by destruct e'; simplify_eq.
Qed.
Lemma safe_try {A B} (m : M W A) (k : result A → M W B) Θ :
  hoare ok m (λ _, ok) →
  (∀ x, match x with Ok _ => True | Err e => no_panic e end → hoare ok (k x) Θ) →
  hoare ok (try m ≫= k) Θ.
Proof.
  intros Hm Hk. eapply (h_bind _ _ _ (λ x r, ok r ∧
    match x with Ok _ => True | Err e => no_panic e end)).
  2: { intros x. apply h_pure, Hk. }
  intros w x w' Hw H. unfold try in H. destruct (m w) as [[a|e] w1] eqn:E;
    specialize (Hm _ _ _ Hw E); simpl in Hm; [by simplify_eq|].
  destruct Hm as [? Hc]. by destruct e; simplify_eq.
Qed.
Lemma h_for_each {A} (l : list A) (f : A → M W ()) Φ :
  (∀ x, hoare Φ (f x) (λ _, Φ)) → hoare Φ (for_each l f) (λ _, Φ).
Proof.
  intros Hf. induction l as [|x l IH]; simpl; [by apply h_ret|].
  eapply h_bind; [apply Hf|auto].
Qed.

(** Run through a handler whose steps all keep the invariant. *)
Ltac safe :=
  repeat lazymatch goal with
  | |- ∀ _, _ => intros ?
  | |- hoare _ (try _ ≫= _) _ => eapply h_bind_try; [once constructor|done|intros ? ?]
  | |- hoare _ (_ ≫= _) _ => eapply (h_bind _ _ _ (λ _, ok))
  | |- hoare _ (over LL _) _ => apply h_over_loop
  | |- hoare _ (look LL _) _ => apply h_look_loop
  | |- hoare _ (observed LL _) _ => apply h_over_loop
  | |- hoare _ (over LR _) _ => apply h_over; intros ? ?
  | |- hoare _ (change LR _) _ => apply h_change; intros ? ?
  | |- hoare _ (mret _) _ => by apply h_ret
  | |- hoare _ (throw _) _ => by apply h_throw
  | |- hoare _ (closed _) _ => by apply h_throw
  | |- hoare _ (look LR _) _ => apply triple_gets; by auto
  | |- hoare _ (match ?x with _ => _ end) _ => destruct x eqn:?
  | |- hoare _ _ _ => apply h_api; [solve [constructor]|done]
  end.

Lemma safe_look {A} (f : RemoteStateWatcher → A) : hoare ok (look LR f) (λ _, ok).
Proof. apply triple_gets. auto. Qed.

Lemma safe_unitStateChanged : hoare ok (unitStateChanged api LR) (λ _, ok).
Proof. unfold unitStateChanged. safe. by apply ok_same. Qed.

Lemma safe_applicationChanged : hoare ok (applicationChanged api LR) (λ _, ok).
Proof. unfold applicationChanged. safe. by apply ok_same. Qed.

Lemma safe_secretsChanged l : hoare ok (secretsChanged api LR l) (λ _, ok).
Proof.
  unfold secretsChanged. safe. apply ok_same; [done|].
  destruct (consumed_info_same a l (rw_current r)) as (?&?&?&?&?&?&?). done.
Qed.

Lemma safe_change_each f l :
  (∀ s x s', f s x = Ok s' → same_pending s s') →
  (∀ s x e, f s x = Err e → no_panic e) → hoare ok (change_each LR f l) (λ _, ok).
Proof.
  intros Hs He. unfold change_each. apply h_for_each. intros x.
  eapply h_bind; [apply h_look|]. intros s.
  eapply h_bind; [apply h_lift; [by intros r [? _]|by eauto]|]. intros s'.
  apply h_change. intros r [[Hr ->] E]. apply ok_same; [done|]. by eapply Hs.
Qed.

Lemma safe_obsolete l : hoare ok (secretObsoleteRevisionsChanged LR l) (λ _, ok).
Proof.
  apply safe_change_each; unfold obsolete_revision; intros s x y H;
    repeat case_match; by simplify_eq.
Qed.
Lemma safe_deleted l : hoare ok (secretDeletedRevisions LR l) (λ _, ok).
Proof.
  unfold secretDeletedRevisions. eapply h_bind.
  - apply safe_change_each; unfold deleted_revision; intros s x y H;
      repeat case_match; by simplify_eq.
  - intros []. apply h_change. intros r H. by apply ok_same.
Qed.

Lemma ok_secretWatchers a b c d r : ok r → ok (set_secretWatchers a b c d r).
Proof. intros []. by split. Qed.

Lemma safe_leadershipChanged b : hoare ok (leadershipChanged api LR b) (λ _, ok).
Proof.
  unfold leadershipChanged, stop_if. safe; try by apply ok_secretWatchers.
  - by apply ok_same.
  - apply ok_rotations; [done|constructor].
  - apply ok_expired; [done|constructor].
Qed.

(** ** Relations *)

Lemma safe_watchRelationUnits tag rel :
  owner (ar_Id rel) = tag → hoare ok (watchRelationUnits api LR tag rel) (λ _, ok).
Proof. intros Ho. unfold watchRelationUnits. safe. by apply ok_watch. Qed.

Lemma safe_ensureRelationUnits tag rel :
  owner (ar_Id rel) = tag → hoare ok (ensureRelationUnits api LR tag rel) (λ _, ok).
Proof.
  intros Ho. unfold ensureRelationUnits. safe.
  - by apply ok_update_relation.
  - by apply ok_unwatch.
  - by apply safe_watchRelationUnits.
Qed.

Lemma safe_relation_changed tag : hoare ok (relation_changed api LR tag) (λ _, ok).
Proof.
  unfold relation_changed.
  eapply (h_bind _ _ _ (λ x r, ok r ∧
    match x with Ok rel => owner (ar_Id rel) = tag | Err e => no_panic e end)).
  { intros w x w' Hw H. pose proof (h_try _ ok (fa_Relation api tag) (λ _ h, h) _ _ _ Hw H) as Hok.
    destruct x as [x|e]; [split; [done|]|done].
    unfold try in H. destruct (ra_Relation api tag w) as [[rel'|e'] w1] eqn:E.
    - simplify_eq. by eapply (ab_owner _ _ Hapi).
    - pose proof (ab_calm _ _ Hapi _ w e' w1 (fa_Relation api tag) E).
      by destruct e'; simplify_eq. }
  intros [rel|e]; apply h_pure; intros Hrel; [by apply safe_ensureRelationUnits|].
  destruct (IsCodeNotFoundOrCodeUnauthorized e) eqn:Ee.
  - eapply h_bind; [apply h_look|]. intros r0.
    destruct (rw_relations r0 !! tag) as [id|] eqn:Et; [|apply h_ret; naive_solver].
    eapply h_bind.
    { apply (h_try _ _ (fa_Stop api tag)). by intros r [? _]. }
    intros ?. apply h_over. intros r [Hr ->]. by apply ok_forget.
  - by apply h_throw.
Qed.

Lemma safe_relationsChanged keys : hoare ok (relationsChanged api LR keys) (λ _, ok).
Proof. apply h_for_each. apply safe_relation_changed. Qed.

Lemma safe_relationUnitsChanged id c :
  hoare (λ r, ok r ∧ ∃ tag, rw_relations r !! tag = Some id) (relationUnitsChanged LR id c)
    (λ _, ok).
Proof.
  unfold relationUnitsChanged. eapply h_bind; [apply h_look|]. intros r0.
  destruct (sn_Relations (rw_current r0) !! id) as [rsn|] eqn:E; [|apply h_ret; naive_solver].
  eapply (h_weaken _ (λ r, ok r ∧ id ∉ rw_nilMembers r0)).
  2: { intros r [[Hr [tag Ht]] ->]. split; [done|]. by eapply wk_watched. }
  apply h_pure. intros Hn. rewrite (bool_decide_eq_false_2 (id ∈ _)) by done. simpl.
  apply h_change. intros r Hr. by apply ok_relation_units.
Qed.

(** ** Storage *)

Lemma safe_watchStorageAttachment tag life :
  hoare ok (watchStorageAttachment api LR tag life) (λ _, ok).
Proof.
  unfold watchStorageAttachment.
  eapply h_bind_try; [by constructor|done|intros x Hx].
  eapply (h_bind _ _ _ (λ _, ok)).
  { destruct x as [[]|e].
    - apply safe_try; [unfold getStorageSnapshot; by safe|]. intros [s|e] He; [by apply h_ret|].
      destruct e; by safe.
    - by safe.
    - by safe. }
  intros s. eapply (h_bind _ _ _ (λ _, ok)); [apply h_api; [constructor|done]|intros ?].
  eapply (h_bind _ _ _ (λ _, ok)); [apply h_api; [constructor|done]|intros ?].
  eapply (h_bind _ _ _ (λ _, ok)); [apply safe_look|intros r0].
  eapply (h_bind _ _ _ (λ _ r, ok r ∧ is_Some (sn_Storage (rw_current r) !! tag))).
  { apply h_change. intros r Hr. split; [by apply ok_set_storage|]. simpl.
    rewrite lookup_insert_eq. eauto. }
  intros ?. eapply (h_bind _ _ _ (λ _ r, ok r ∧ is_Some (sn_Storage (rw_current r) !! tag))).
  { case_decide; [|by apply h_ret]. apply h_api; [constructor|]. by intros r [? _]. }
  intros ?. apply h_over. intros r [[] Hs]. split; simpl; try done.
  intros tag' [->%elem_of_singleton|?]%elem_of_union; auto.
Qed.

Lemma safe_storage_changed tag res :
  match res with Ok _ => True | Err e => no_panic e end →
  hoare ok (storage_changed api LR tag res) (λ _, ok).
Proof.
  intros Hres. unfold storage_changed. destruct res as [life|e].
  - eapply (h_bind _ _ _ (λ _, ok)); [apply safe_look|intros s].
    destruct (sn_Storage s !! tag).
    + apply h_change. intros r Hr. by apply ok_set_storage.
    + eapply (h_bind _ _ _ (λ _, ok)); [apply h_api; [constructor|done]|intros ?].
      apply safe_watchStorageAttachment.
  - case_bool_decide; [|by apply h_throw].
    eapply h_bind; [apply h_look|]. intros r0.
    eapply (h_bind _ _ _ (λ _ r, ok r ∧ tag ∉ rw_storageWatchers r)).
    + case_decide as Hd.
      * eapply h_bind; [apply h_api; [constructor|by intros r [? _]]|]. intros ?.
        apply h_over. intros r [[] ->]. split; [split; simpl; try done; set_solver|].
        simpl. set_solver.
      * apply h_ret. by intros r [? ->].
    + intros ?. apply h_change. intros r [[] Hn]. split; simpl; try done.
      intros tag' Ht. rewrite lookup_delete_ne; [auto|]. by intros ->.
Qed.

Lemma safe_storageChanged keys : hoare ok (storageChanged api LR keys) (λ _, ok).
Proof.
  unfold storageChanged.
  eapply (h_bind _ _ _ (λ results r, ok r ∧ (length results ≤ length keys ∧
    Forall (λ x, match x with Ok _ => True | Err e => no_panic e end) results))).
  { intros w x w' Hw H.
    pose proof (h_api _ ok (fa_StorageAttachmentLife api keys) (λ _ h, h) _ _ _ Hw H) as Hok.
    destruct x; [|done]. split; [done|]. by eapply (ab_lives _ _ Hapi). }
  intros results. apply h_pure. intros [Hlen Hall]. revert keys Hlen.
  induction Hall as [|x results Hx Hall IH]; intros keys Hlen; [by apply h_ret|].
  destruct keys as [|tag keys]; simpl in Hlen; [lia|]. simpl.
  eapply (h_bind _ _ _ (λ _, ok)); [by apply safe_storage_changed|]. intros ?. apply IH. lia.
Qed.

(** ** The loop *)

Lemma safe_observed k : hoare ok (observed LL k) (λ _, ok).
Proof. apply h_over_loop. Qed.

Lemma safe_handle_event e :
  hoare (λ r, ok r ∧ delivered e r) (handle_event api LR LL e) (λ _, ok).
Proof.
  unfold handle_event. eapply h_bind; [apply h_look_loop|]. intros l.
  assert ((∃ id c, e = EvRelationUnits id c) ∨ ∀ id c, e ≠ EvRelationUnits id c)
    as [(id & c & ->)|Hne] by (destruct e; eauto; right; congruence).
  { eapply h_bind; [apply safe_relationUnitsChanged|]. intros ?. by apply h_ret. }
  eapply h_weaken; [|by intros r [Hr _]; exact Hr].
  destruct e; safe; auto using safe_unitStateChanged, safe_applicationChanged,
    safe_secretsChanged, ok_actionsChanged, safe_relationsChanged, safe_storageChanged,
    safe_leadershipChanged, safe_obsolete, safe_deleted; try by apply ok_same.
  - apply ok_rotations; [done|]. by apply NoDup_add_pending, wk_rotations with owner.
  - apply ok_expired; [done|]. by apply NoDup_add_pending, wk_expired with owner.
  - by apply ok_set_storage.
  - by destruct (Hne relationId change).
  - unfold on_current, workloadEventsChanged. case_decide; [by destruct r|].
    apply (ok_workload _ r); [done|]. by apply NoDup_snoc; [eapply wk_workload|].
Qed.

Lemma safe_watcher_step e :
  hoare (λ r, ok r ∧ delivered e r) (watcher_step api LR LL e) (λ _, ok).
Proof.
  unfold watcher_step. eapply h_bind; [apply safe_handle_event|]. intros b. unfold fire. safe.
  by destruct H; split.
Qed.

Lemma safe_loop_start : hoare ok (loop_start api LR LL) (λ _, ok).
Proof.
  unfold loop_start. safe; [|apply h_for_each; by safe|apply safe_leadershipChanged].
  unfold setUp. apply safe_try; [by safe|]. intros x Hx. by safe.
Qed.

Lemma NewWatcher_ok config r :
  NewWatcher config = Ok r → NoDup (wc_InitialWorkloadEventIDs config) → ok r.
Proof.
  unfold NewWatcher. destruct (WatcherConfig_validate config); [|done]. simpl.
  intros [= <-] Hn. split; simpl; try done; try (intros; set_solver); try constructor.
  - set_solver.
  - intros [? H]. by rewrite lookup_empty in H.
Qed.

Lemma watching_ok w : watching api LR LL w → ok (view LR w).
Proof.
  induction 1 as [config r w0 w1 Hr Hn Hv Hs|w0 e0 b w1 _ IH Hd Hs|w0 c w1 _ IH Hs|w0 _ IH].
  - apply (safe_loop_start _ _ _ (eq_rect_r _ (NewWatcher_ok _ _ Hr Hn) Hv) Hs).
  - apply (safe_watcher_step e0 _ _ _ (conj IH Hd) Hs).
  - unfold change, over, modify in Hs. simplify_eq. rewrite view_update. by apply ok_complete.
  - rewrite view_update. by destruct IH; split.
Qed.

End handlers.

(** ** Work that is pending *)

(** The work the watcher has been told about and that is to be reported done. *)
Inductive work : Type :=
| WorkAction (id : string)
| WorkCommand (id : string)
| WorkWorkload (id : string).

Definition pending (x : work) (s : Snapshot) : Prop :=
  match x with
  | WorkAction id => id ∈ sn_ActionsPending s
  | WorkCommand id => id ∈ sn_Commands s
  | WorkWorkload id => id ∈ sn_WorkloadEvents s
  end.

(** The report that some work is done. *)
Definition reports (c : completion) (x : work) : Prop :=
  match x with
  | WorkAction id => c = ActionDone id
  | WorkCommand id => c = CommandDone id
  | WorkWorkload id => c = WorkloadEventDone id
  end.

(** The event that brings some work. *)
Definition brings (e : watcher_event) (x : work) : Prop :=
  match x with
  | WorkAction id => ∃ actions, e = EvActions (Some actions) ∧ id ∈ actions
  | WorkCommand id => e = EvCommand (Some id)
  | WorkWorkload id => e = EvWorkload (Some id)
  end.

Section pending.
Context {W : Type} (api : RemoteAPI W) (LR : lens W RemoteStateWatcher)
  (LL : lens W watcher_loop) `{RW : !RemoteWorld api LR LL}.
#[local] Existing Instances rw_LR rw_LL rw_LR_LL rw_LL_LR.

(** [m] loses no pending work. *)
Definition loses_nothing {A} (m : M W A) : Prop :=
  ∀ w x w' y, m w = (x, w') → pending y (rw_current (view LR w)) →
    pending y (rw_current (view LR w')).

Lemma l_bind {A B} (m : M W A) (k : A → M W B) :
  loses_nothing m → (∀ a, loses_nothing (k a)) → loses_nothing (m ≫= k).
Proof.
  intros Hm Hk w x w' y H Hy. unfold mbind, M_bind in H.
  destruct (m w) as [[a|e] w1] eqn:E; [by eapply Hk; [|eapply Hm]|].
  simplify_eq. by eapply Hm.
Qed.
Lemma l_keeps {A} (m : M W A) : keeps (view LR) m → loses_nothing m.
Proof. intros Hm w x w' y H. by rewrite (Hm _ _ _ H). Qed.
Lemma l_over f :
  (∀ r y, pending y (rw_current r) → pending y (rw_current (f r))) →
  loses_nothing (over LR f).
Proof.
  intros Hf w x w' y H. unfold over, modify in H. simplify_eq. rewrite view_update. apply Hf.
Qed.
Lemma l_try {A} (m : M W A) : loses_nothing m → loses_nothing (try m).
Proof.
  intros Hm w x w' y H. unfold try in H. destruct (m w) as [[a|e] w1] eqn:E;
    [|destruct e]; simplify_eq; by eapply Hm.
Qed.
Lemma l_for_each {A} (l : list A) (f : A → M W ()) :
  (∀ x, loses_nothing (f x)) → loses_nothing (for_each l f).
Proof.
  intros Hf. induction l as [|x l IH]; simpl; [apply l_keeps, keeps_ret|].
  apply l_bind; auto.
Qed.
Lemma l_loop f : loses_nothing (over LL f).
Proof. apply l_keeps, keeps_over, _. Qed.

Lemma actionsChanged_pending l s y : pending y s → pending y (actionsChanged l s).
Proof.
  unfold actionsChanged. revert s. induction l as [|a l IH]; intros s H; [done|]. simpl.
  apply IH. unfold action_changed. destruct (_ !! a); [by destruct y|].
  destruct y; simpl in *; set_solver.
Qed.

Ltac lose :=
  repeat lazymatch goal with
  | |- ∀ _, _ => intros ?
  | |- loses_nothing (_ ≫= _) => apply l_bind
  | |- loses_nothing (try _) => apply l_try
  | |- loses_nothing (for_each _ _) => apply l_for_each
  | |- loses_nothing (over LL _) => apply l_loop
  | |- loses_nothing (observed LL _) => apply l_loop
  | |- loses_nothing (over LR _) =>
      apply l_over; let y := fresh "y" in intros ? y ?; try by destruct y
  | |- loses_nothing (change LR _) =>
      apply l_over; let y := fresh "y" in intros ? y ?; try by destruct y
  | |- loses_nothing (mret _) => apply l_keeps, keeps_ret
  | |- loses_nothing (throw _) => apply l_keeps, keeps_throw
  | |- loses_nothing (closed _) => apply l_keeps, keeps_throw
  | |- loses_nothing (lift_result _) => apply l_keeps, keeps_lift
  | |- loses_nothing (look _ _) => apply l_keeps, keeps_gets
  | |- loses_nothing (match ?x with _ => _ end) => destruct x eqn:?
  | |- loses_nothing _ => apply l_keeps, (api_keeps_LR api LR LL); solve [constructor]
  end.

Lemma lose_leadership b : loses_nothing (leadershipChanged api LR b).
Proof. unfold leadershipChanged, stop_if. lose. Qed.
Lemma lose_relations keys : loses_nothing (relationsChanged api LR keys).
Proof.
  unfold relationsChanged, relation_changed, ensureRelationUnits, watchRelationUnits. lose.
Qed.
Lemma lose_storage keys : loses_nothing (storageChanged api LR keys).
Proof.
  unfold storageChanged. lose. revert keys. induction a as [|x a IH]; intros keys; cbn; [by lose|].
  destruct keys as [|tag keys]; [by lose|].
  apply l_bind; [|intros ?; apply IH].
  unfold storage_changed, watchStorageAttachment, getStorageSnapshot. lose.
Qed.
Lemma lose_secrets l : loses_nothing (secretsChanged api LR l).
Proof.
  unfold secretsChanged. lose.
  assert (∀ s, pending y s → pending y (foldl (consumed_info a) s l)) as Hf.
  { induction l as [|u l IH]; intros s Hs; [done|]. simpl. apply IH.
    unfold consumed_info. destruct (a !! u); by destruct y. }
  apply Hf in H. by destruct y.
Qed.
Lemma lose_each f l :
  (∀ s x s' y, f s x = Ok s' → pending y s → pending y s') →
  loses_nothing (change_each LR f l).
Proof.
  intros Hf. unfold change_each. apply l_for_each. intros u w x w' y H Hy.
  unfold change in H. munfold.
  destruct (f (rw_current (view LR w)) u) as [s'|] eqn:E; unfold modify in H; simplify_eq; [|done].
  rewrite view_update. simpl. by eapply Hf.
Qed.
Lemma lose_obsolete l : loses_nothing (secretObsoleteRevisionsChanged LR l).
Proof.
  apply lose_each. unfold obsolete_revision. intros s u s' y H ?.
  repeat case_match; simplify_eq; by destruct y.
Qed.
Lemma lose_deleted l : loses_nothing (secretDeletedRevisions LR l).
Proof.
  unfold secretDeletedRevisions. apply l_bind; [|by lose].
  apply lose_each. unfold deleted_revision. intros s u s' y H ?.
  repeat case_match; simplify_eq; by destruct y.
Qed.
Lemma lose_units id c : loses_nothing (relationUnitsChanged LR id c).
Proof. unfold relationUnitsChanged. lose. Qed.
Lemma lose_unit : loses_nothing (unitStateChanged api LR).
Proof. unfold unitStateChanged. lose. Qed.
Lemma lose_application : loses_nothing (applicationChanged api LR).
Proof. unfold applicationChanged. lose. Qed.

Lemma lose_step e : loses_nothing (watcher_step api LR LL e).
Proof.
  unfold watcher_step, fire, handle_event. apply l_bind; [|by lose].
  apply l_bind; [by lose|]. intros l.
  destruct e; lose; auto using lose_leadership, lose_relations, lose_storage, lose_secrets,
    lose_obsolete, lose_deleted, lose_units, lose_unit, lose_application.
  - by apply actionsChanged_pending.
  - destruct y; [done| |done]. apply elem_of_app. by left.
  - unfold on_current, workloadEventsChanged. case_decide; [done|].
    destruct y; [done|done|]. apply elem_of_app. by left.
Qed.

Lemma complete_pending c y s : ¬ reports c y → pending y s → pending y (complete c s).
Proof.
  intros Hc Hy. destruct c; try by destruct y.
  - destruct y; simpl in *; try done. apply elem_of_remove_first_ne; congruence.
  - destruct y; simpl in *; try done. apply elem_of_remove_first_ne; congruence.
  - destruct y; simpl in *; try done. apply elem_of_remove_first_ne; congruence.
  - simpl. unfold RemoveSecretsCompleted.
    apply (map_fold_weak_ind (λ s' _, pending y s')); [done|].
    intros uri revs m s' _ IH. unfold remove_secret. case_decide; by destruct y.
Qed.

Lemma actionsChanged_brings l s a :
  (∀ a, is_Some (sn_ActionChanged s !! a) → a ∈ sn_ActionsPending s) → a ∈ l →
  a ∈ sn_ActionsPending (actionsChanged l s).
Proof.
  unfold actionsChanged. revert s. induction l as [|b l IH]; intros s Hs Ha; [set_solver|].
  simpl. assert (b ∈ sn_ActionsPending (action_changed s b)) as Hb.
  { unfold action_changed. destruct (sn_ActionChanged s !! b) eqn:E; simpl; [|set_solver].
    apply Hs. eauto. }
  apply elem_of_cons in Ha as [->|Ha].
  - by apply (actionsChanged_pending l _ (WorkAction b)).
  - apply IH; [|done]. intros c. unfold action_changed.
    destruct (sn_ActionChanged s !! b) as [n|] eqn:E; simpl.
    + destruct (decide (c = b)) as [->|]; [intros _; apply Hs; eauto|].
      rewrite lookup_insert_ne by done. apply Hs.
    + rewrite elem_of_app, list_elem_of_singleton.
      destruct (decide (c = b)) as [->|]; [by right|].
      rewrite lookup_insert_ne by done. intros Hc. left. by apply Hs.
Qed.

Lemma brings_pending owner e b w w' y :
  watcher_ok owner (view LR w) → watcher_step api LR LL e w = (Ok b, w') → brings e y →
  pending y (rw_current (view LR w')).
Proof.
  intros Hok H Hb. unfold watcher_step in H. apply bind_inv_ok in H as (x & w1 & E & H).
  assert (loses_nothing (if x then fire LR LL else mret false)) as Hl
    by (destruct x; unfold fire; lose).
  eapply Hl; [exact H|]. clear H Hl. unfold handle_event in E.
  apply bind_inv_ok in E as (l & w0 & El & E). unfold look, gets in El. simplify_eq.
  destruct y as [id|id|id]; simpl in Hb; [destruct Hb as (actions & -> & Hid)|subst e|subst e];
    apply bind_inv_ok in E as ([] & w2 & E2 & E); unfold change, over, modify in E2;
    simplify_eq.
  - apply bind_inv_ok in E as ([] & w3 & E3 & E). apply mret_inv in E as [_ ->].
    eapply (l_loop _ _ _ _ (WorkAction id) E3). rewrite view_update.
    apply actionsChanged_brings; [|done]. intros a. by apply (wk_changed _ _ Hok).
  - apply mret_inv in E as [_ ->]. rewrite view_update. simpl. set_solver.
  - apply mret_inv in E as [_ ->]. rewrite view_update. simpl. unfold workloadEventsChanged.
    case_decide; simpl; set_solver.
Qed.

(** C19: no work is lost, and none is done twice.  Actions, commands and workload
    events the watcher is told about are in the snapshot from then on, through
    every other event and every report, until they are reported done
    themselves; an action or a workload event that was reported done is not
    there any more. *)
Theorem pending_until_reported owner w e x w' y :
  api_behaves owner api → watching api LR LL w → watcher_step api LR LL e w = (x, w') →
  (is_ok x = true → brings e y → pending y (rw_current (view LR w'))) ∧
  (pending y (rw_current (view LR w)) → pending y (rw_current (view LR w'))) ∧
  (∀ c, ¬ reports c y → pending y (rw_current (view LR w)) →
    pending y (complete c (rw_current (view LR w)))) ∧
  (∀ c, reports c y → (∀ id, y ≠ WorkCommand id) →
    ¬ pending y (complete c (rw_current (view LR w)))).
Proof.
  intros Hapi Hw H. pose proof (watching_ok api LR LL owner Hapi w Hw) as Hok. split_and!.
  - destruct x as [b|]; [|done]. intros _. by eapply brings_pending.
  - by eapply lose_step.
  - intros c. apply complete_pending.
  - intros c Hc Hne. destruct y as [id|id|id]; simpl in Hc; subst c.
    + simpl. by apply NoDup_remove_first, (wk_actions _ _ Hok).
    + by destruct (Hne id).
    + simpl. by apply NoDup_remove_first, (wk_workload _ _ Hok).
Qed.
End pending.
