(* ===== verification/RemoteSlices.v ===== *)
(** * The slices of the remote state watcher

    internal/worker/uniter/remotestate/watcher.go again, for what the lists of
    RemoteState.v hide: the lists of strings of a snapshot are Go slices, views
    of arrays that several slices can share and that [append] and the removal of
    an element write to in place.  The model has a heap of arrays; the slice
    operations of the watcher refine those on lists, and a snapshot is followed
    through the operations after it. *)

From S2P Require Import Prelude Resolver RemoteState.

(** ** Arrays and slices *)

Abbreviation heap := (gmap nat (list string)).

(** A slice of strings that starts at the first element of its array, as all of
    these do; [None] is the nil slice. *)
Record view_of : Type := MkViewOf {
  sl_array : nat;
  sl_len : nat;
}.
Definition slice : Type := option view_of.

(** The elements of a slice. *)
Definition elements_of (h : heap) (s : slice) : list string :=
  match s with
  | None => []
  | Some v => take (sl_len v) (default [] (h !! sl_array v))
  end.

(** [copy] to an array from its first element. *)
Definition overwrite (arr xs : list string) (at_ : nat) : list string :=
  take at_ arr ++ xs ++ drop (at_ + length xs) arr.

Section slices.
(** How much [append] allocates when it has to: the spare elements, given the old
    capacity and the length needed. *)
Context (spare : nat → nat → list string).

(** [append(s[:n], xs...)]: in place when the capacity is enough, to a new array
    otherwise. *)
Definition append_at (h : heap) (s : slice) (n : nat) (xs : list string) : heap * slice :=
  match s, xs with
  | None, [] => (h, None)
  | None, _ =>
      let p := fresh (dom h) in
      (<[p := xs ++ spare 0 (length xs)]> h, Some (MkViewOf p (length xs)))
  | Some v, _ =>
      let arr := default [] (h !! sl_array v) in
      if decide (n + length xs ≤ length arr) then
        (<[sl_array v := overwrite arr xs n]> h, Some (MkViewOf (sl_array v) (n + length xs)))
      else
        let p := fresh (dom h) in
        (<[p := take n arr ++ xs ++ spare (length arr) (n + length xs)]> h,
         Some (MkViewOf p (n + length xs)))
  end.

Definition slice_len (s : slice) : nat :=
  match s with None => 0 | Some v => sl_len v end.

(** [append(s, xs...)] *)
Definition slice_append (h : heap) (s : slice) (xs : list string) : heap * slice :=
  append_at h s (slice_len s) xs.

(** [make([]string, len(s))] and [copy]. *)
Definition slice_copy (h : heap) (s : slice) : heap * slice :=
  let p := fresh (dom h) in
  (<[p := elements_of h s]> h, Some (MkViewOf p (slice_len s))).

(** The index of the first occurrence. *)
Fixpoint index_of (x : string) (l : list string) : option nat :=
  match l with
  | [] => None
  | y :: l' => if decide (y = x) then Some 0 else S <$> index_of x l'
  end.

(** [for i, id := range s { if id != x { continue }; s = append(s[:i], s[i+1:]...); break }] *)
Definition slice_remove (h : heap) (s : slice) (x : string) : heap * slice :=
  match index_of x (elements_of h s) with
  | None => (h, s)
  | Some i => append_at h s i (drop (S i) (elements_of h s))
  end.

(** ** The watcher's slices *)

Inductive field : Type := FActions | FCommands | FRotations | FExpired | FWorkload.

#[global] Instance field_eq_dec : EqDecision field.
Proof. solve_decision. Defined.

(** The heap and the slices of [current]. *)
Record slices : Type := MkSlices {
  sc_heap : heap;
  sc_slice : field → slice;
}.

Definition set_slice (f : field) (hs : heap * slice) (c : slices) : slices :=
  MkSlices hs.1 (λ f', if decide (f' = f) then hs.2 else sc_slice c f').

(** What the handlers and the reports do to the slices. *)
Inductive slice_op : Type :=
| SAppend (f : field) (x : string)
| SRemove (f : field) (x : string)
| SClear (f : field).

Definition slice_step (c : slices) (o : slice_op) : slices :=
  match o with
  | SAppend f x => set_slice f (slice_append (sc_heap c) (sc_slice c f) [x]) c
  | SRemove f x => set_slice f (slice_remove (sc_heap c) (sc_slice c f) x) c
  | SClear f => set_slice f (sc_heap c, None) c
  end.

(** [Snapshot]: it makes a copy of all but the expired revisions. *)
Definition copy_field (f : field) (st : slices * (field → slice)) : slices * (field → slice) :=
  let '(c, sn) := st in
  let '(h, s) := slice_copy (sc_heap c) (sc_slice c f) in
  (MkSlices h (sc_slice c), λ f', if decide (f' = f) then s else sn f').
Definition take_snapshot (c : slices) : slices * (field → slice) :=
  copy_field FRotations (copy_field FWorkload (copy_field FCommands (copy_field FActions
    (c, sc_slice c)))).
End slices.

(** The same operations on lists. *)
Definition list_step (l : field → list string) (o : slice_op) : field → list string :=
  match o with
  | SAppend f x => λ f', if decide (f' = f) then l f ++ [x] else l f'
  | SRemove f x => λ f', if decide (f' = f) then remove_first x (l f) else l f'
  | SClear f => λ f', if decide (f' = f) then [] else l f'
  end.

(** The lists of a snapshot. *)
Definition field_list (s : Snapshot) (f : field) : list string :=
  match f with
  | FActions => sn_ActionsPending s
  | FCommands => sn_Commands s
  | FRotations => sn_SecretRotations s
  | FExpired => sn_ExpiredSecretRevisions s
  | FWorkload => sn_WorkloadEvents s
  end.

(** The functions of RemoteState.v that an operation on slices is part of. *)
Definition snap_step (s : Snapshot) (o : slice_op) : Snapshot :=
  match o with
  | SRemove FActions x => ActionCompleted x s
  | SRemove FCommands x => CommandCompleted x s
  | SRemove FRotations x => RotateSecretCompleted x s
  | SRemove FExpired x => ExpireRevisionCompleted x s
  | SRemove FWorkload x => WorkloadEventCompleted x s
  | SAppend FCommands x => commandsChanged x s
  | SAppend FActions x => set_actions (sn_ActionsPending s ++ [x]) (sn_ActionChanged s) s
  | SAppend FRotations x => set_SecretRotations (sn_SecretRotations s ++ [x]) s
  | SAppend FExpired x => set_Expired (sn_ExpiredSecretRevisions s ++ [x]) s
  | SAppend FWorkload x => set_WorkloadEvents (sn_WorkloadEvents s ++ [x]) s
  | SClear FActions => set_actions [] (sn_ActionChanged s) s
  | SClear FCommands => set_Commands [] s
  | SClear FRotations => set_SecretRotations [] s
  | SClear FExpired => set_Expired [] s
  | SClear FWorkload => set_WorkloadEvents [] s
  end.

(** The slices have arrays of their own, as long as they are. *)
Definition apart_slices (c : slices) : Prop :=
  (∀ f v, sc_slice c f = Some v →
     ∃ arr, sc_heap c !! sl_array v = Some arr ∧ sl_len v ≤ length arr) ∧
  (∀ f f' v v', sc_slice c f = Some v → sc_slice c f' = Some v' →
     sl_array v = sl_array v' → f = f').

Definition lists_of (c : slices) (f : field) : list string :=
  elements_of (sc_heap c) (sc_slice c f).

(** ** Slices as lists *)

Section facts.
Context (spare : nat → nat → list string).

Definition slice_ok (h : heap) (s : slice) : Prop :=
  ∀ v, s = Some v → ∃ arr, h !! sl_array v = Some arr ∧ sl_len v ≤ length arr.

Lemma length_overwrite arr xs n :
  n + length xs ≤ length arr → length (overwrite arr xs n) = length arr.
Proof. intros H. unfold overwrite. rewrite !length_app, length_take, length_drop. lia. Qed.

(** [append] gives the elements it should, in an array of the heap. *)
Lemma append_at_elements h s n xs :
  slice_ok h s → n ≤ slice_len s →
  let hs := append_at spare h s n xs in
  elements_of hs.1 hs.2 = take n (elements_of h s) ++ xs ∧ slice_ok hs.1 hs.2.
Proof.
  intros Hs Hn. destruct s as [[p len]|]; simpl in *.
  - destruct (Hs _ eq_refl) as (arr & Ha & Hlen). simpl in Ha, Hlen. rewrite Ha. simpl.
    rewrite take_take, Nat.min_l by lia. case_decide as Hd; simpl.
    + rewrite lookup_insert_eq. simpl. split.
      * unfold overwrite. rewrite (assoc_L (++)), take_app_le, take_ge; [done| |];
          rewrite length_app, length_take; lia.
      * intros v [= <-]. simpl. exists (overwrite arr xs n). rewrite lookup_insert_eq.
        split; [done|]. by rewrite length_overwrite.
    + rewrite lookup_insert_eq. simpl. split.
      * rewrite (assoc_L (++)), take_app_le, take_ge; [done| |];
          rewrite length_app, length_take; lia.
      * intros v [= <-]. simpl. eexists. rewrite lookup_insert_eq. split; [done|].
        rewrite !length_app, length_take. lia.
  - assert (n = 0) as -> by lia. destruct xs as [|x xs]; simpl; [done|].
    rewrite lookup_insert_eq. split.
    + simpl. f_equal. rewrite take_app_le, take_ge; done.
    + intros v [= <-]. eexists. simpl. rewrite lookup_insert_eq. split; [done|].
      simpl. rewrite length_app. lia.
Qed.

(** It leaves every other array alone, and takes the slice's array or a new one. *)
Lemma append_at_frame h s n xs p :
  p ∈ dom h → (∀ v, s = Some v → sl_array v ≠ p) →
  let hs := append_at spare h s n xs in
  hs.1 !! p = h !! p ∧ p ∈ dom hs.1 ∧ (∀ v, hs.2 = Some v → sl_array v ≠ p).
Proof.
  intros Hp Hs. assert (fresh (dom h) ≠ p) as Hf.
  { intros E. apply (is_fresh (dom h)). by rewrite E. }
  destruct s as [[q len]|]; simpl.
  - specialize (Hs _ eq_refl). simpl in Hs. case_decide; simpl.
    + rewrite lookup_insert_ne, dom_insert by done. split_and!; [done|set_solver|].
      by intros v [= <-].
    + rewrite lookup_insert_ne, dom_insert by done. split_and!; [done|set_solver|].
      by intros v [= <-].
  - destruct xs as [|x xs]; simpl; [done|].
    rewrite lookup_insert_ne, dom_insert by done. split_and!; [done|set_solver|].
    by intros v [= <-].
Qed.

Lemma index_of_remove x l :
  match index_of x l with
  | None => remove_first x l = l
  | Some i => i < length l ∧ remove_first x l = take i l ++ drop (S i) l
  end.
Proof.
  induction l as [|y l IH]; simpl; [done|]. case_decide; simpl; [split; [lia|done]|].
  destruct (index_of x l); simpl; [|by f_equal].
  destruct IH as [? ->]. split; [lia|done].
Qed.

Lemma slice_len_elements h s : slice_ok h s → length (elements_of h s) = slice_len s.
Proof.
  intros Hs. destruct s as [v|]; [|done]. destruct (Hs v eq_refl) as (arr & Ha & ?). simpl.
  rewrite Ha. simpl. rewrite length_take. lia.
Qed.

(** An operation on one field: elements and array of the field, everything else
    untouched. *)
Definition field_op (h : heap) (s : slice) (l : list string) (hs : heap * slice) : Prop :=
  elements_of hs.1 hs.2 = l ∧ slice_ok hs.1 hs.2 ∧
  ∀ p, p ∈ dom h → (∀ v, s = Some v → sl_array v ≠ p) →
    hs.1 !! p = h !! p ∧ p ∈ dom hs.1 ∧ (∀ v, hs.2 = Some v → sl_array v ≠ p).

Lemma slice_append_op h s x :
  slice_ok h s → field_op h s (elements_of h s ++ [x]) (slice_append spare h s [x]).
Proof.
  intros Hs. destruct (append_at_elements h s (slice_len s) [x] Hs) as [He Ho]; [done|].
  split_and!; [|done|intros; by apply append_at_frame].
  unfold slice_append. rewrite He, take_ge; [done|]. by rewrite slice_len_elements.
Qed.

Lemma slice_remove_op h s x :
  slice_ok h s → field_op h s (remove_first x (elements_of h s)) (slice_remove spare h s x).
Proof.
  intros Hs. unfold slice_remove. pose proof (index_of_remove x (elements_of h s)) as Hi.
  destruct (index_of x (elements_of h s)) as [i|]; [|by rewrite Hi].
  destruct Hi as [Hi ->]. rewrite slice_len_elements in Hi by done.
  destruct (append_at_elements h s i (drop (S i) (elements_of h s)) Hs) as [He Ho]; [lia|].
  split_and!; [by rewrite He|done|intros; by apply append_at_frame].
Qed.

Lemma set_slice_refines c f l hs :
  apart_slices c → field_op (sc_heap c) (sc_slice c f) l hs →
  apart_slices (set_slice f hs c) ∧
  ∀ f', lists_of (set_slice f hs c) f' = if decide (f' = f) then l else lists_of c f'.
Proof.
  intros [Hok Hap] (He & Ho & Hfr).
  assert (∀ f' v', f' ≠ f → sc_slice c f' = Some v' →
    hs.1 !! sl_array v' = sc_heap c !! sl_array v' ∧
    ∀ v, hs.2 = Some v → sl_array v ≠ sl_array v') as Hother.
  { intros f' v' Hne Hv'. destruct (Hok f' v' Hv') as (arr & Ha & _).
    destruct (Hfr (sl_array v')) as (? & _ & ?); [by apply elem_of_dom_2 in Ha| |done].
    intros v Hv E. apply Hne. by eapply Hap. }
  split; [split|].
  - intros f' v'. simpl. case_decide as Hd; [apply Ho|]. intros Hv'.
    destruct (Hother f' v' Hd Hv') as [-> _]. by eapply Hok.
  - intros f1 f2 v1 v2. simpl. repeat case_decide; intros H1 H2 E; subst; try done.
    + by destruct (Hother f2 v2) as [_ Hne]; [done|done|]; destruct (Hne v1).
    + destruct (Hother f1 v1) as [_ Hne]; [done|done|]. by destruct (Hne v2).
    + by eapply Hap.
  - intros f'. unfold lists_of. simpl. case_decide as Hd; [done|].
    destruct (sc_slice c f') as [v'|] eqn:Hv'; [|done]. simpl.
    by destruct (Hother f' v' Hd Hv') as [-> _].
Qed.

Lemma slice_step_refines c o :
  apart_slices c →
  apart_slices (slice_step spare c o) ∧
  ∀ f, lists_of (slice_step spare c o) f = list_step (lists_of c) o f.
Proof.
  intros Hc. assert (∀ f, slice_ok (sc_heap c) (sc_slice c f)) as Hok.
  { intros f v Hv. by eapply Hc. }
  destruct o as [f x|f x|f]; simpl.
  - by apply set_slice_refines, slice_append_op.
  - by apply set_slice_refines, slice_remove_op.
  - by apply (set_slice_refines c f [] (sc_heap c, None)).
Qed.

(** ** Snapshots *)

(** An array that no slice of the watcher uses. *)
Definition private (p : nat) (c : slices) : Prop :=
  p ∈ dom (sc_heap c) ∧ ∀ f v, sc_slice c f = Some v → sl_array v ≠ p.

(** A slice of a snapshot that has such an array, and its elements. *)
Definition frozen (s : slice) (l : list string) (c : slices) : Prop :=
  ∃ v, s = Some v ∧ private (sl_array v) c ∧ elements_of (sc_heap c) s = l.

Lemma set_slice_private f l hs p c :
  field_op (sc_heap c) (sc_slice c f) l hs → private p c →
  private p (set_slice f hs c) ∧ hs.1 !! p = sc_heap c !! p.
Proof.
  intros (_ & _ & Hfr) [Hp Hs]. destruct (Hfr p Hp (Hs f)) as (? & ? & ?).
  split; [|done]. split; [done|]. intros f' v. simpl. case_decide; [auto|by apply Hs].
Qed.

Lemma slice_step_private o p c :
  apart_slices c → private p c →
  private p (slice_step spare c o) ∧ sc_heap (slice_step spare c o) !! p = sc_heap c !! p.
Proof.
  intros Hc Hp. assert (∀ f, slice_ok (sc_heap c) (sc_slice c f)) as Hok.
  { intros f v Hv. by eapply Hc. }
  destruct o as [f x|f x|f]; simpl.
  - by eapply set_slice_private; [apply slice_append_op|].
  - by eapply set_slice_private; [apply slice_remove_op|].
  - by eapply (set_slice_private f [] (sc_heap c, None)).
Qed.

Lemma slice_run_frozen ops s l c :
  apart_slices c → frozen s l c → frozen s l (foldl (slice_step spare) c ops).
Proof.
  revert c. induction ops as [|o ops IH]; intros c Hc Hf; [done|]. simpl.
  apply IH; [by apply slice_step_refines|]. destruct Hf as (v & -> & Hp & Hl).
  destruct (slice_step_private o _ _ Hc Hp) as [Hp' Hh].
  exists v. split_and!; [done|done|]. simpl in *. by rewrite Hh.
Qed.

Lemma copy_field_frozen f c sn c' sn' :
  apart_slices c → copy_field f (c, sn) = (c', sn') →
  apart_slices c' ∧ (∀ f', lists_of c' f' = lists_of c f') ∧ frozen (sn' f) (lists_of c f) c' ∧
  (∀ f', f' ≠ f → sn' f' = sn f') ∧ (∀ s l, frozen s l c → frozen s l c').
Proof.
  intros [Hok Hap]. unfold copy_field, slice_copy. intros [= <- <-].
  set (p := fresh (dom (sc_heap c))).
  assert (p ∉ dom (sc_heap c)) as Hfresh by apply is_fresh.
  assert (∀ q, q ∈ dom (sc_heap c) → p ≠ q) as Hne by (by intros q Hq ->).
  assert (∀ f v, sc_slice c f = Some v → p ≠ sl_array v) as Hcur.
  { intros f' v Hv. apply Hne. destruct (Hok f' v Hv) as (? & ? & _). by eapply elem_of_dom_2. }
  split_and!.
  - split; [|done]. intros f' v Hv. simpl. rewrite lookup_insert_ne by eauto. eauto.
  - intros f'. unfold lists_of. simpl. destruct (sc_slice c f') as [v|] eqn:E; [|done]. simpl.
    by rewrite lookup_insert_ne by eauto.
  - rewrite decide_True by done. eexists. split_and!; [done| |].
    + split; simpl; [rewrite dom_insert; set_solver|]. intros f' v Hv E. by apply (Hcur f' v).
    + simpl. rewrite lookup_insert_eq. simpl. apply take_ge. unfold lists_of.
      rewrite slice_len_elements; [done|]. intros v Hv. by eapply Hok.
  - intros f' Hf'. by rewrite decide_False.
  - intros s l (v & -> & [Hp Hs] & Hl). exists v. split_and!; [done| |].
    + split; simpl; [rewrite dom_insert; set_solver|done].
    + simpl in *. by rewrite lookup_insert_ne by auto.
Qed.

Lemma snap_step_list s o f : field_list (snap_step s o) f = list_step (field_list s) o f.
Proof. by destruct o as [[] x|[] x|[]], f. Qed.

Lemma list_step_ext l l' o f : (∀ f, l f = l' f) → list_step l o f = list_step l' o f.
Proof. intros H. destruct o; simpl; case_decide; by rewrite ?H. Qed.

(** The slices implement the lists.  Started from slices with arrays of
    their own, any sequence of additions, removals and resets that the watcher
    does in place leaves the slices with the elements the lists of the snapshot
    have, and still with arrays of their own, so that no removal from one list
    shows in another; whatever [append] allocates. *)
Theorem slices_refine_snapshot c s ops :
  apart_slices c → (∀ f, lists_of c f = field_list s f) →
  apart_slices (foldl (slice_step spare) c ops) ∧
  ∀ f, lists_of (foldl (slice_step spare) c ops) f = field_list (foldl snap_step s ops) f.
Proof.
  revert c s. induction ops as [|o ops IH]; intros c s Hc Hl; [done|]. simpl.
  destruct (slice_step_refines c o Hc) as [Hc' Hl']. apply IH; [done|]. intros f.
  rewrite Hl', snap_step_list. by apply list_step_ext.
Qed.

(** A snapshot stays as it was taken, but for the expired revisions.
    Whatever the watcher adds, removes or resets after [Snapshot] has returned,
    the lists of actions, commands, rotations and workload events of the
    snapshot keep the elements they had. *)
Theorem snapshot_stays c c' sn ops f :
  apart_slices c → take_snapshot c = (c', sn) → f ≠ FExpired →
  elements_of (sc_heap (foldl (slice_step spare) c' ops)) (sn f) = lists_of c f.
Proof.
  intros Hc H Hf. unfold take_snapshot in H.
  destruct (copy_field FActions (c, sc_slice c)) as [c1 sn1] eqn:E1.
  destruct (copy_field FCommands (c1, sn1)) as [c2 sn2] eqn:E2.
  destruct (copy_field FWorkload (c2, sn2)) as [c3 sn3] eqn:E3.
  apply copy_field_frozen in E1 as (Hc1 & Hl1 & Hf1 & Hs1 & Hp1); [|done].
  apply copy_field_frozen in E2 as (Hc2 & Hl2 & Hf2 & Hs2 & Hp2); [|done].
  apply copy_field_frozen in E3 as (Hc3 & Hl3 & Hf3 & Hs3 & Hp3); [|done].
  apply copy_field_frozen in H as (Hc4 & Hl4 & Hf4 & Hs4 & Hp4); [|done].
  assert (frozen (sn f) (lists_of c f) c') as Hfr.
  { destruct f; [| | |done|].
    - rewrite Hs4, Hs3, Hs2 by done. auto.
    - rewrite Hs4, Hs3 by done. rewrite <- Hl1. auto.
    - by rewrite <- Hl1, <- Hl2, <- Hl3.
    - rewrite Hs4 by done. rewrite <- Hl1, <- Hl2. auto. }
  by destruct (slice_run_frozen ops _ _ _ Hc4 Hfr) as (v & _ & _ & ?).
Qed.
End facts.

(** The expired revisions of a snapshot are the watcher's own.  With two
    revisions expired, reporting the first one done overwrites the array the
    snapshot still looks at: the snapshot then has the second one twice. *)
Theorem snapshot_shares_expired spare :
  ∃ c c' sn, apart_slices c ∧ take_snapshot c = (c', sn) ∧
    elements_of (sc_heap c') (sn FExpired) = ["a/1"; "b/1"] ∧
    elements_of (sc_heap (slice_step spare c' (SRemove FExpired "a/1"))) (sn FExpired)
      = ["b/1"; "b/1"].
Proof.
  set (c := MkSlices {[0 := ["a/1"; "b/1"]]}
    (λ f, if decide (f = FExpired) then Some (MkViewOf 0 2) else None)).
  exists c, (take_snapshot c).1, (take_snapshot c).2. split_and!.
  - split.
    + intros f v. simpl. case_decide; [|done]. intros [= <-]. eexists.
      rewrite lookup_singleton_eq. split; [done|]. simpl. lia.
    + intros f f' v v'. simpl. repeat case_decide; naive_solver.
  - by destruct (take_snapshot c).
  - by vm_compute.
  - by vm_compute.
Qed.
