(* ===== verification/Uniter.v ===== *)
(** * The uniter

    internal/worker/uniter/uniter.go: the resolvers the unit agent runs with,
    what it does with the outcome of the resolver loop, how it resumes an
    installation and how a dead unit terminates; and the agent's status
    (agent.go). *)

From S2P Require Import Prelude Hooks OpState Operations RelationState Resolver RelationTracker.
From S2P Require Import RelationResolver SmallResolvers Storage Secrets UniterResolver.
Import life operation.

(** ** The resolvers of a unit *)

Section config.
Context {NM : Names} {W : Type} {MO : MapOrder W}.

(** What the agent's resolvers are made of. *)
Record AgentParts : Type := MkAgentParts {
  ap_modelType : ModelType;
  ap_clearResolved : M W ();
  ap_reportHookError : hook.Info → M W ();
  ap_ShouldRetry : bool;
  ap_StartTimer : W → W;
  ap_StopTimer : W → W;
  ap_rebootDetected : bool;
  ap_reboot : lens W bool;
  ap_actionCompleted : string → W → W;
  ap_tracker : RelationStateTracker W;
  ap_destroySubordinates : M W ();
  ap_attachments : lens W Attachments;
  ap_storageDying : lens W bool;
  ap_storageAPI : StorageAPI W;
  ap_getCommand : string → W →
    CommandArgs * option (option string → option error → W → bool * W);
  ap_removeCommand : string → W → W;
  ap_commandCompleted : string → W → W;
  ap_secrets : SecretStateTracker W;
  ap_rotateCompleted : string → W → W;
  ap_expireCompleted : string → W → W;
  ap_removeSecretsCompleted : gmap string (list Z) → W → W;
  ap_containerNames : list string;
  ap_getEvent : string → W → result (WorkloadEvent * (option error → W → W));
  ap_removeEvent : string → W → W;
  ap_eventCompleted : string → W → W;
  ap_wrench : string → hooks.HookKind → bool;
}.

(** [reboot.NewResolver] *)
Definition NewRebootResolver (p : AgentParts) : Resolver W :=
  if ap_rebootDetected p then rebootResolver_NextOp (ap_reboot p)
  else nopResolver_NextOp.

(** The [ResolverConfig] of [Uniter.loop]. *)
Definition uniter_config (p : AgentParts) : ResolverConfig W := {|
  rc_ClearResolved := ap_clearResolved p;
  rc_ReportHookError := ap_reportHookError p;
  rc_ShouldRetryHooks := ap_ShouldRetry p;
  rc_StartRetryHookTimer := ap_StartTimer p;
  rc_StopRetryHookTimer := ap_StopTimer p;
  rc_Reboot := NewRebootResolver p;
  rc_Leadership := leadershipResolver_NextOp;
  rc_Actions := actionsResolver_NextOp (ap_actionCompleted p);
  rc_CreatedRelations := createdRelationsResolver_NextOp (ap_tracker p);
  rc_Relations := relationsResolver_NextOp (ap_tracker p) (ap_destroySubordinates p);
  rc_Storage := storageResolver_NextOp (ap_attachments p) (ap_storageDying p)
                  (ap_storageAPI p) (ap_modelType p);
  rc_Commands := commandsResolver_NextOp (ap_getCommand p) (ap_removeCommand p)
                   (ap_commandCompleted p);
  rc_Secrets := secretsResolver_NextOp (ap_secrets p) (ap_rotateCompleted p)
                  (ap_expireCompleted p) (ap_removeSecretsCompleted p);
  rc_OptionalResolvers :=
    if bool_decide (0 < length (ap_containerNames p)) then
      [workloadHookResolver_NextOp (ap_getEvent p) (ap_removeEvent p)
         (ap_eventCompleted p)]
    else [];
  rc_wrench := ap_wrench p;
|}.
End config.
Arguments AgentParts : clear implicits.
