(* ===== verification/AgentProgress.v ===== *)
(** * The agent makes progress

    The resolver loop (Resolver.v), with the uniter's resolver
    (UniterResolver.v) and the operations (Operations.v), on a unit with
    nothing else to do than live and die: a deployed unit installs, configures
    and starts, then idles; a dying one stops, is removed and ends; and what
    happens on the way when an agent is told to shut down. *)

From S2P Require Import Prelude Hooks OpState Operations OperationFacts Resolver UniterResolver.
Import life operation.

Section agent.
Context {NM : Names} {SU : SecretURIs} {YM : Yaml OpState} {W : Type}
  (LS : lens W LocalState) (LX : lens W executor) (RT : lens W bool)
  (rw : UnitStateReadWriter W) (acquire : string → string → M W (W → W))
  (fp : FactoryParams W) (config : ResolverConfig W) (cfg : LoopConfig W).

Abbreviation cb := (fp_Callbacks fp).

(** ** A smooth world

    What the loop looks at, and calls that succeed and leave it alone. *)
Definition obs (w : W) : executor * LocalState * bool * Snapshot :=
  (view LX w, view LS w, view RT w, lc_Snapshot cfg w).

Definition smooth {A} (m : M W A) : Prop :=
  ∀ w, ∃ a w', m w = (Ok a, w') ∧ obs w' = obs w.

(** A charm whose hooks succeed, or do not exist. *)
Record smooth_runner (rnr : Runner W) : Prop := {
  sr_Prepare : smooth (ctx_Prepare (rnr_Context rnr));
  sr_SetUnitStatus s m : smooth (ctx_SetUnitStatus (rnr_Context rnr) s m);
  sr_Reset w : obs (ctx_ResetExecutionSetUnitStatus (rnr_Context rnr) w) = obs w;
  sr_RunHook name w : ∃ r w', rnr_RunHook rnr name w = (r, w') ∧ obs w' = obs w ∧
    match r with Ok _ => True | Err e => IsMissingHookError e = true end;
}.

(** A controller that answers and a machine that lets the agent work. *)
Record smooth_world : Prop := {
  sw_LX :: LensLaws LX;
  sw_LS :: LensLaws LS;
  sw_LX_LS v w : view LS (update LX v w) = view LS w;
  sw_LX_RT v w : view RT (update LX v w) = view RT w;
  sw_LX_sn v w : lc_Snapshot cfg (update LX v w) = lc_Snapshot cfg w;
  sw_LS_LX v w : view LX (update LS v w) = view LX w;
  sw_LS_RT v w : view RT (update LS v w) = view RT w;
  sw_LS_sn v w : lc_Snapshot cfg (update LS v w) = lc_Snapshot cfg w;
  sw_yaml : yaml_roundtrip;
  sw_marshal (st : OpState) : is_ok (yaml_Marshal st) = true;
  sw_SetState data : smooth (rw_SetState rw data);
  sw_acquire l g w : ∃ rel w', acquire l g w = (Ok rel, w') ∧ obs w' = obs w ∧
    ∀ w, obs (rel w) = obs w;
  sw_PrepareHook k w : ∃ w', cb_PrepareHook cb (hook.info_of_kind k) w
      = (Ok (hooks.kind_string k), w') ∧ obs w' = obs w;
  sw_CommitHook k : smooth (cb_CommitHook cb (hook.info_of_kind k));
  sw_SetExecutingStatus s : smooth (cb_SetExecutingStatus cb s);
  sw_Completed name w : obs (cb_NotifyHookCompleted cb name w) = obs w;
  sw_runner hi w : ∃ rnr w', rf_NewHookRunner (fp_RunnerFactory fp) hi w
      = (Ok rnr, w') ∧ obs w' = obs w ∧ smooth_runner rnr;
  sw_Unlock : smooth (lc_Unlock cfg);
  sw_Lockdown : smooth (lc_Lockdown cfg);
}.

(** The loop runs the uniter's resolver and the agent's operations. *)
Record agent_loop : Prop := {
  al_Resolver : lc_Resolver cfg = uniterResolver_NextOp config RT;
  al_Factory : lc_Factory cfg = NewFactory fp;
}.

(** Nothing for the other resolvers to do. *)
Definition idle (r : Resolver W) : Prop :=
  ∀ l f s, r l f s = (Err ErrNoOperation, s).

Record quiet : Prop := {
  q_Reboot : idle (rc_Reboot config);
  q_Leadership : idle (rc_Leadership config);
  q_Actions : idle (rc_Actions config);
  q_CreatedRelations : idle (rc_CreatedRelations config);
  q_Relations : idle (rc_Relations config);
  q_Storage : idle (rc_Storage config);
  q_Commands : idle (rc_Commands config);
  q_Secrets : idle (rc_Secrets config);
  q_Optional : Forall idle (rc_OptionalResolvers config);
}.

(** ** What a hook leaves *)

(** The hooks of the unit's own life that any unit runs. *)
Definition life_hooks : list hooks.HookKind :=
  [hooks.Install; hooks.Start; hooks.ConfigChanged; hooks.UpgradeCharm;
   hooks.Stop; hooks.Remove; hooks.UpdateStatus].

(** The operation the loop runs for such a hook. *)
Definition hook_op (sn : Snapshot) (k : hooks.HookKind) : operation W :=
  resolverOpFactory_wrapHookOp LS sn
    (runHook cb (fp_RunnerFactory fp) (hook.info_of_kind k)) (hook.info_of_kind k).

(** The change its commit records; [b] is whether the charm set its status. *)
Definition hook_change (k : hooks.HookKind) (b : bool) (st : OpState) : stateChange :=
  let continue := MkChange Continue Pending None None None "" b in
  let queue k := MkChange RunHook Queued (Some (hook.info_of_kind k)) None None "" b in
  match k with
  | hooks.ConfigChanged => if Started st then continue else queue hooks.Start
  | hooks.UpgradeCharm => queue hooks.ConfigChanged
  | _ => continue
  end.

Definition after_hook (sn : Snapshot) (k : hooks.HookKind) (b : bool) (st : OpState) :
    OpState :=
  let st' := runHook_commitFlags (hook.info_of_kind k)
               (stateChange_apply (hook_change k b st) st) in
  if decide (k = hooks.ConfigChanged) then
    set_hashes (sn_ConfigHash sn) (sn_TrustHash sn) (sn_AddressesHash sn) st'
  else st'.

(** What it does to the local state, besides the operation state. *)
Definition local_after (sn : Snapshot) (l : LocalState) : LocalState :=
  hook_local (sn_UpdateStatusVersion sn) (sn_CharmModifiedVersion sn)
    (retry_local (sn_RetryHookVersion sn) l).

(** The hooks a run of the loop executes, one turn each, and how it ends: with
    the resolver's answer [e], in an operation state that satisfies [Q]. *)
Fixpoint runs_hooks (sn : Snapshot) (ks : list hooks.HookKind) (e : error)
    (Q : OpState → Prop) (p : loop_point W) (w : W) : Prop :=
  match ks with
  | [] => ∃ st w', loop_turn LS LX rw acquire cfg p w = (Ok (LoopResolved (Err e)), w')
      ∧ x_state (view LX w') = Some st ∧ Q st
  | k :: ks' => ∃ w',
      loop_turn LS LX rw acquire cfg p w
        = (Ok (LoopResolved (Ok (hook_op sn k))), w')
      ∧ runs_hooks sn ks' e Q (LoopResolved (Ok (hook_op sn k))) w'
  end.

(** ** What the resolver decides for a quiet unit *)

(** The choice for a unit with no operation in progress. *)
Definition decide_rest (l : LocalState) (sn : Snapshot) : result hooks.HookKind :=
  let st := ls_State l in
  let alive :=
    if negb (Installed st) && negb (Started st) then Ok hooks.Install
    else if bool_decide (ConfigHash st ≠ sn_ConfigHash sn)
            || bool_decide (TrustHash st ≠ sn_TrustHash sn)
            || bool_decide (AddressesHash st ≠ sn_AddressesHash sn)
    then Ok hooks.ConfigChanged
    else if decide (ls_UpdateStatusVersion l ≠ sn_UpdateStatusVersion sn)
    then Ok hooks.UpdateStatus
    else Err ErrNoOperation in
  match sn_Life sn with
  | Dead => Err ErrUnitDead
  | Dying =>
      if Started st && negb (Stopped st) then Ok hooks.Stop
      else if Installed st && negb (Removed st) then Ok hooks.Remove
      else Err ErrUnitDead
  | Alive =>
      if sn_Shutdown sn then
        if Started st && negb (Stopped st) then Ok hooks.Stop
        else Err ErrTerminateAgent
      else alive
  | Unknown _ => alive
  end.

(** A queued hook is run first, unless it is the install hook or the agent is
    shutting down. *)
Definition decision (l : LocalState) (sn : Snapshot) : result hooks.HookKind :=
  let st := ls_State l in
  if bool_decide (sn_Life sn = Dead) || Removed st then Err ErrUnitDead
  else if sn_Shutdown sn then decide_rest l sn
  else match Kind st, Hook st with
  | RunHook, Some hi =>
      if decide (hook.Kind hi = hooks.Install) then decide_rest l sn
      else Ok (hook.Kind hi)
  | _, _ => decide_rest l sn
  end.

(** No operation in progress, or one of the unit's own hooks queued. *)
Definition plain (st : OpState) : Prop :=
  Kind st = Continue ∨
  (Kind st = RunHook ∧ default (Step st) (HookStep st) = Queued ∧
   ∃ k, k ∈ life_hooks ∧ Hook st = Some (hook.info_of_kind k)).

(** No charm to upgrade to, no restart asked for. *)
Record calm (sn : Snapshot) (l : LocalState) : Prop := {
  calm_restart : ls_Restart l = false;
  calm_charm : charmModified l sn = false;
}.

(** The loop's view of a world. *)
Record ready (sn : Snapshot) (st : OpState) (l : LocalState) (w : W) : Prop := {
  ready_state : x_state (view LX w) = Some st;
  ready_local : view LS w = l;
  ready_timer : view RT w = false;
  ready_snapshot : lc_Snapshot cfg w = sn;
}.

(** The same, from the resolver's decisions alone. *)
Fixpoint plan (sn : Snapshot) (ks : list hooks.HookKind) (e : error)
    (Q : OpState → Prop) (l : LocalState) : Prop :=
  match ks with
  | [] => decision l sn = Err e ∧ Q (ls_State l)
  | k :: ks' => decision l sn = Ok k ∧ k ∈ life_hooks ∧ ∀ b,
      plan sn ks' e Q
        (set_ls_State (after_hook sn k b (ls_State l)) (local_after sn l))
  end.

(** The hooks with which a unit ends. *)
Definition teardown_hooks (st : OpState) : list hooks.HookKind :=
  if Removed st then []
  else (if Started st && negb (Stopped st) then [hooks.Stop] else [])
       ++ (if Installed st then [hooks.Remove] else []).

(** ** One hook, through the executor *)

Context (SW : smooth_world).

Lemma obs_eq w w' : obs w' = obs w →
  view LX w' = view LX w ∧ view LS w' = view LS w ∧ view RT w' = view RT w
  ∧ lc_Snapshot cfg w' = lc_Snapshot cfg w.
Proof. unfold obs. intros H. by simplify_eq. Qed.

Lemma writeState_smooth ns x w :
  valid ns → ∃ w', executor_writeState rw ns (x, w)
    = (Ok (), (MkExecutor (x_unitName x) (Some ns), w')) ∧ obs w' = obs w.
Proof.
  intros Hv. unfold executor_writeState. munfold. unfold valid in Hv. rewrite Hv. simpl.
  destruct (match x_state x with Some st => OpState_match st ns | None => false end) eqn:Hm.
  - exists w. split; [|done]. destruct x as [name [st|]]; simpl in *; [|done].
    by rewrite (OpState_match_eq (sw_yaml SW) (sw_marshal SW) _ _ Hm).
  - unfold StateOps_Write. munfold. rewrite Hv. simpl.
    pose proof (sw_marshal SW ns) as Hd. destruct (yaml_Marshal ns) as [data|]; [|done].
    destruct (sw_SetState SW data w) as ([] & w' & -> & Hw). eauto.
Qed.

Lemma do_smooth {F} (op : Operation F W) step x st f w ns f1 w1 :
  x_state x = Some st →
  step_run step op st (f, w) = ((Some ns, None), (f1, w1)) → valid ns →
  ∃ w', executor_do rw op step (x, (f, w))
    = (Ok (), (MkExecutor (x_unitName x) (Some ns), (f1, w'))) ∧ obs w' = obs w1.
Proof.
  intros Hx Hs Hv. unfold executor_do, executor_State. rewrite Hx, Hs.
  destruct (writeState_smooth ns x w1 Hv) as (w' & -> & Hw). eauto.
Qed.

(** A call that succeeds smoothly, at the head of a sequence. *)
Lemma bind_smooth {A B} (m : M W A) (k : A → M (OpFields W * W) B) f w :
  smooth m → ∃ a w', obs w' = obs w ∧ (liftW m ≫= k) (f, w) = k a (f, w').
Proof.
  intros Hm. destruct (Hm w) as (a & w' & H & Hw). exists a, w'. split; [done|].
  unfold liftW. munfold. by rewrite H.
Qed.

Section hook.
Context (sn : Snapshot) (k : hooks.HookKind) (Hk : k ∈ life_hooks).

Lemma life_hook_name : hooks.kind_of_string (hooks.kind_string k) = k.
Proof.
  apply hooks.canonical_named. unfold life_hooks, hooks.named_kinds, hooks.unitHooks in *.
  set_solver.
Qed.

Lemma life_hook_valid : hook.Info_Validate (hook.info_of_kind k) = Ok ().
Proof.
  apply hook.Info_Validate_unit. unfold life_hooks, hooks.unitHooks in *. set_solver.
Qed.

Lemma life_hook_not_leader :
  k ≠ hooks.LeaderElected ∧ k ≠ hooks.SecretRotate ∧ k ≠ hooks.SecretExpired
  ∧ k ≠ hooks.SecretRemove ∧ k ≠ hooks.RelationBroken.
Proof. unfold life_hooks in Hk. set_solver. Qed.

Lemma hook_prepare_smooth st f w :
  ∃ rnr w', smooth_runner rnr ∧
    runHook_Prepare cb (fp_RunnerFactory fp) (hook.info_of_kind k) st (f, w)
    = (Ok (Some (stateChange_apply
         (MkChange RunHook Pending (Some (hook.info_of_kind k)) None None "" false) st)),
       (MkOpFields (hooks.kind_string k) (Some rnr) (f_hookFound f), w'))
    ∧ obs w' = obs w.
Proof.
  unfold runHook_Prepare.
  destruct (sw_PrepareHook SW k w) as (w1 & H1 & O1).
  destruct (sw_runner SW (hook.info_of_kind k) w1) as (rnr & w2 & H2 & O2 & Hr).
  destruct (sr_Prepare _ Hr w2) as ([] & w3 & H3 & O3).
  exists rnr, w3. split; [done|].
  destruct life_hook_not_leader as (N1 & N2 & N3 & N4 & _).
  unfold liftW, runHook_leaderNeeded. munfold. rewrite H1. simpl. rewrite H2. simpl.
  rewrite life_hook_name, !bool_decide_false by done. munfold.
  rewrite H3. simpl. split; [done|congruence].
Qed.

(** A hook of this kind sets a status before it runs, or not. *)
Lemma hook_before_smooth st name rnr h w :
  smooth_runner rnr →
  ∃ w', runHook_beforeHook (hook.info_of_kind k) st (MkOpFields name (Some rnr) h, w)
    = (Ok (), (MkOpFields name (Some rnr) h, w')) ∧ obs w' = obs w.
Proof.
  intros Hr.
  assert (∀ s m, ∃ w', (rnr ← op_runner; liftW (ctx_SetUnitStatus (rnr_Context rnr) s m))
      (MkOpFields name (Some rnr) h, w)
    = (Ok (), (MkOpFields name (Some rnr) h, w')) ∧ obs w' = obs w) as Hset.
  { intros s m. destruct (sr_SetUnitStatus _ Hr s m w) as ([] & w' & H & O).
    exists w'. unfold op_runner, liftW. munfold. by rewrite H. }
  assert (∃ w', (mret () : M (OpFields W * W) ()) (MkOpFields name (Some rnr) h, w)
    = (Ok (), (MkOpFields name (Some rnr) h, w')) ∧ obs w' = obs w) as Hret by by exists w.
  unfold runHook_beforeHook. simpl. destruct k; auto. by destruct (StatusSet st).
Qed.

Lemma hook_after_smooth st name rnr h w :
  smooth_runner rnr →
  ∃ b w', runHook_afterHook (hook.info_of_kind k) st (MkOpFields name (Some rnr) h, w)
    = (Ok b, (MkOpFields name (Some rnr) h, w')) ∧ obs w' = obs w.
Proof.
  intros Hr. destruct life_hook_not_leader as (_ & _ & _ & _ & Hb).
  set (b := ctx_HasExecutionSetUnitStatus (rnr_Context rnr) w || StatusSet st).
  exists b.
  assert (∀ s m, ∃ w', liftW (ctx_SetUnitStatus (rnr_Context rnr) s m)
      (MkOpFields name (Some rnr) h, w)
    = (Ok (), (MkOpFields name (Some rnr) h, w')) ∧ obs w' = obs w) as Hset.
  { intros s m. destruct (sr_SetUnitStatus _ Hr s m w) as ([] & w' & H & O).
    exists w'. unfold liftW. munfold. by rewrite H. }
  unfold runHook_afterHook, op_runner. munfold. fold b.
  destruct k; simpl; try done; try (by exists w);
    try (by edestruct Hset as (w' & -> & ?); eauto).
  destruct b; [by exists w|]. by edestruct Hset as (w' & -> & ?); eauto.
Qed.

Lemma hook_finish_smooth st name rnr h w :
  smooth_runner rnr →
  ∃ b w', runHook_finish cb (hook.info_of_kind k) st Done None
      (MkOpFields name (Some rnr) h, w)
    = (Ok (Some (stateChange_apply (MkChange RunHook Done (Some (hook.info_of_kind k))
               (Some Done) None "" b) st), None),
       (MkOpFields name (Some rnr) h, w')) ∧ obs w' = obs w.
Proof.
  intros Hr. unfold runHook_finish. munfold.
  destruct h; simpl.
  - destruct (hook_after_smooth st name rnr true (cb_NotifyHookCompleted cb name w) Hr)
      as (b & w' & -> & O). exists b, w'. split; [done|].
    rewrite O. apply (sw_Completed SW).
  - destruct (hook_after_smooth st name rnr false w Hr) as (b & w' & -> & O).
    by exists b, w'.
Qed.

Lemma hook_execute_smooth st rnr h w :
  smooth_runner rnr →
  ∃ b h' w', runHook_Execute cb (hook.info_of_kind k) st
      (MkOpFields (hooks.kind_string k) (Some rnr) h, w)
    = (Ok (Some (stateChange_apply (MkChange RunHook Done (Some (hook.info_of_kind k))
               (Some Done) None "" b) st), None),
       (MkOpFields (hooks.kind_string k) (Some rnr) h', w')) ∧ obs w' = obs w.
Proof.
  intros Hr. unfold runHook_Execute.
  rewrite (bind_ok (gets fst) _ _ _ _ eq_refl). cbn [f_name].
  destruct (hook_before_smooth st (hooks.kind_string k) rnr h w Hr) as (w1 & H1 & O1).
  rewrite (bind_ok _ _ _ _ _ H1).
  assert (∃ w2, (if decide (hooks.kind_of_string (hooks.kind_string k) = hooks.UpdateStatus)
      then mret () else liftW (cb_SetExecutingStatus cb
        (RunningHookMessage (hooks.kind_string k) (hook.info_of_kind k))))
      (MkOpFields (hooks.kind_string k) (Some rnr) h, w1)
    = (Ok (), (MkOpFields (hooks.kind_string k) (Some rnr) h, w2)) ∧ obs w2 = obs w)
    as (w2 & H2 & O2).
  { case_decide as Hu; [by exists w1|].
    destruct (sw_SetExecutingStatus SW
      (RunningHookMessage (hooks.kind_string k) (hook.info_of_kind k)) w1)
      as ([] & w2 & H & O). exists w2. unfold liftW. munfold. rewrite H.
    split; [done|congruence]. }
  rewrite (bind_ok _ _ _ _ _ H2). unfold op_runner, set_hookFound, liftW. munfold.
  set (w3 := ctx_ResetExecutionSetUnitStatus (rnr_Context rnr) w2).
  assert (obs w3 = obs w) as O3 by (rewrite <- O2; apply (sr_Reset _ Hr)).
  destruct (sr_RunHook _ Hr (hooks.kind_string k) w3) as (r & w4 & H4 & O4 & Hok).
  rewrite H4. destruct r as [[]|e]; simpl.
  - destruct (hook_finish_smooth st (hooks.kind_string k) rnr true w4 Hr)
      as (b & w' & -> & O). exists b, true, w'. split; [done|congruence].
  - destruct e; simpl in Hok |- *; try done. rewrite Hok. simpl.
    destruct (hook_finish_smooth st (hooks.kind_string k) rnr false w4 Hr)
      as (b & w' & -> & O). exists b, false, w'. split; [done|congruence].
Qed.

Lemma hook_commit_smooth st f w :
  ∃ w', runHook_Commit cb (hook.info_of_kind k) st (f, w)
    = (Ok (Some (runHook_commitFlags (hook.info_of_kind k)
         (stateChange_apply (hook_change k false st) st))), (f, w')) ∧ obs w' = obs w.
Proof.
  destruct (sw_CommitHook SW k w) as ([] & w' & H & O). exists w'. split; [|done].
  destruct life_hook_not_leader as (_ & Hrot & _).
  unfold runHook_Commit, runHook_commitChange, liftW. munfold. rewrite H. simpl.
  by destruct k.
Qed.

(** The states on the way. *)
Definition hook_state (step : OpStep) (hs : option OpStep) (b : bool) (st : OpState) :
    OpState :=
  stateChange_apply
    (MkChange RunHook step (Some (hook.info_of_kind k)) hs None "" b) st.

Lemma hook_state_valid step hs b st :
  (∀ s, step ≠ OtherStep s) → valid (hook_state step hs b st).
Proof. intros. apply valid_hook_state; [apply life_hook_valid|done]. Qed.

Lemma after_hook_valid b st : valid (after_hook sn k b st).
Proof.
  assert (valid (stateChange_apply (hook_change k b st) st)
          ∧ sc_Kind (hook_change k b st) ≠ Install) as [Hv Hi].
  { unfold hook_change.
    destruct k; try (destruct (Started st)); (split; [|done]);
      (apply valid_hook_state || apply valid_intro); try done;
      by apply unit_hook_valid; unfold hooks.unitHooks; set_solver. }
  assert (valid (runHook_commitFlags (hook.info_of_kind k)
    (stateChange_apply (hook_change k b st) st))) as Hv'.
  { unfold runHook_commitFlags. destruct k; simpl; rewrite ?valid_set_lifecycle by done; done. }
  unfold after_hook. case_decide; [|done]. by rewrite valid_set_hashes.
Qed.

Lemma after_hook_steps b st :
  runHook_commitFlags (hook.info_of_kind k)
    (stateChange_apply (hook_change k false (hook_state Done (Some Done) b
       (hook_state Pending None false st)))
       (hook_state Done (Some Done) b (hook_state Pending None false st)))
  = runHook_commitFlags (hook.info_of_kind k) (stateChange_apply (hook_change k b st) st).
Proof.
  unfold hook_state, hook_change, runHook_commitFlags, stateChange_apply, set_lifecycle.
  simpl. rewrite !orb_false_r.
  destruct k; try (destruct (Started st)); simpl; by rewrite ?orb_false_r.
Qed.

(** The three steps of the operation the loop runs. *)
Lemma hook_op_prepare st w :
  ∃ rnr w', smooth_runner rnr ∧
    step_run stepPrepare (hook_op sn k) st (no_fields, w)
    = ((Some (hook_state Pending None false st), None),
       (MkOpFields (hooks.kind_string k) (Some rnr) false, w'))
    ∧ obs w' = (view LX w, retry_local (sn_RetryHookVersion sn) (view LS w), view RT w,
                lc_Snapshot cfg w).
Proof.
  destruct (hook_prepare_smooth st no_fields w) as (rnr & w1 & Hr & H & O).
  exists rnr, (update LS (retry_local (sn_RetryHookVersion sn) (view LS w1)) w1).
  split; [done|]. apply obs_eq in O as (O1 & O2 & O3 & O4). split.
  - unfold hook_op, resolverOpFactory_wrapHookOp.
    destruct (hook.Kind (hook.info_of_kind k)); simpl; unfold simple_step; by rewrite H.
  - unfold obs. rewrite (sw_LS_LX SW), (sw_LS_RT SW), (sw_LS_sn SW).
    pose proof (sw_LS SW). rewrite view_update. congruence.
Qed.

Lemma hook_op_execute st rnr w :
  smooth_runner rnr →
  ∃ b f w', step_run stepExecute (hook_op sn k) st
      (MkOpFields (hooks.kind_string k) (Some rnr) false, w)
    = ((Some (hook_state Done (Some Done) b st), None), (f, w')) ∧ obs w' = obs w.
Proof.
  intros Hr. destruct (hook_execute_smooth st rnr false w Hr) as (b & h & w' & H & O).
  eexists b, _, w'. split; [|done].
  unfold hook_op, resolverOpFactory_wrapHookOp.
  destruct (hook.Kind (hook.info_of_kind k)); simpl; unfold full_step; by rewrite H.
Qed.

Lemma hook_op_commit b st f w :
  ∃ w', step_run stepCommit (hook_op sn k)
      (hook_state Done (Some Done) b (hook_state Pending None false st)) (f, w)
    = ((Some (after_hook sn k b st), None), (f, w'))
    ∧ obs w' = (view LX w, hook_local (sn_UpdateStatusVersion sn)
                  (sn_CharmModifiedVersion sn) (view LS w), view RT w, lc_Snapshot cfg w).
Proof.
  destruct (hook_commit_smooth
    (hook_state Done (Some Done) b (hook_state Pending None false st)) f w)
    as (w1 & H & O). rewrite after_hook_steps in H.
  exists (update LS (hook_local (sn_UpdateStatusVersion sn)
            (sn_CharmModifiedVersion sn) (view LS w1)) w1).
  apply obs_eq in O as (O1 & O2 & O3 & O4). split.
  - unfold hook_op, resolverOpFactory_wrapHookOp, after_hook. simpl.
    destruct (decide (k = hooks.ConfigChanged)) as [Hc|Hc];
      destruct k; try done; simpl; unfold simple_step; by rewrite H.
  - unfold obs. rewrite (sw_LS_LX SW), (sw_LS_RT SW), (sw_LS_sn SW).
    pose proof (sw_LS SW). rewrite view_update. congruence.
Qed.

Lemma hook_op_steps x st w :
  x_state x = Some st →
  ∃ b w', with_fields (hook_op sn k) (executor_steps rw (hook_op sn k)) (x, w)
      = (Ok (), (MkExecutor (x_unitName x) (Some (after_hook sn k b st)), w'))
    ∧ obs w' = (view LX w, local_after sn (view LS w), view RT w, lc_Snapshot cfg w).
Proof.
  intros Hx. assert (op_init (hook_op sn k) = no_fields) as Hi.
  { unfold hook_op, resolverOpFactory_wrapHookOp. by destruct (hook.Kind _). }
  unfold with_fields. rewrite Hi.
  destruct (hook_op_prepare st w) as (rnr & w1 & Hr & S1 & O1).
  destruct (do_smooth _ _ _ _ _ _ _ _ _ Hx S1 ltac:(by apply hook_state_valid))
    as (w2 & D1 & O2).
  destruct (hook_op_execute (hook_state Pending None false st) rnr w2 Hr)
    as (b & f & w3 & S2 & O3).
  destruct (do_smooth _ _ (MkExecutor (x_unitName x) _) _ _ _ _ _ _ eq_refl S2
    ltac:(by apply hook_state_valid)) as (w4 & D2 & O4).
  destruct (hook_op_commit b st f w4) as (w5 & S3 & O5).
  destruct (do_smooth _ _ (MkExecutor (x_unitName x) _) _ _ _ _ _ _ eq_refl S3
    ltac:(by apply after_hook_valid)) as (w6 & D3 & O6).
  exists b, w6. split.
  - unfold executor_steps, try. unfold mbind at 1, M_bind at 1. rewrite D1.
    simpl in D2. rewrite (bind_ok _ _ _ _ _ D2). simpl in D3. by rewrite D3.
  - assert (obs w4 = obs w1) as O by congruence. rewrite O1 in O.
    unfold obs in O at 1. injection O as E1 E2 E3 E4.
    rewrite O6, O5, E1, E2, E3, E4. done.
Qed.

(** Running the hook through the executor. *)
Lemma Executor_Run_hook st w :
  x_state (view LX w) = Some st →
  ∃ b w', Executor_Run LX rw acquire (hook_op sn k) w = (Ok (), w') ∧
    obs w' = (MkExecutor (x_unitName (view LX w)) (Some (after_hook sn k b st)),
              local_after sn (view LS w), view RT w, lc_Snapshot cfg w).
Proof.
  intros Hx.
  assert (op_NeedsGlobalMachineLock (hook_op sn k) = true) as Hl.
  { unfold hook_op, resolverOpFactory_wrapHookOp. by destruct (hook.Kind _). }
  destruct (sw_acquire SW (op_String (hook_op sn k)) (op_ExecutionGroup (hook_op sn k)) w)
    as (rel & w1 & H1 & O1 & Hrel).
  destruct (hook_op_steps (view LX w) st w1 Hx) as (b & w2 & H2 & O2).
  exists b, (update LX (MkExecutor (x_unitName (view LX w))
               (Some (after_hook sn k b st))) (rel w2)). split.
  - unfold Executor_Run, executor_Run, zoom. rewrite Hl. unfold mbind, M_bind. cbn [fst snd].
    rewrite H1. unfold defer_release. by rewrite H2.
  - pose proof (Hrel w2) as O3. rewrite O2 in O3. unfold obs in O3 at 1.
    injection O3 as E1 E2 E3 E4. apply obs_eq in O1 as (F1 & F2 & F3 & F4).
    unfold obs. rewrite (sw_LX_LS SW), (sw_LX_RT SW), (sw_LX_sn SW).
    pose proof (sw_LX SW). rewrite view_update. congruence.
Qed.

End hook.

(** ** The resolver *)

Definition answer (sn : Snapshot) (r : result hooks.HookKind) : result (operation W) :=
  match r with Ok k => Ok (hook_op sn k) | Err e => Err e end.

Lemma or_else_idle (r : Resolver W) l f k s :
  idle r → or_else (r l f) k s = k s.
Proof. intros Hr. unfold or_else. munfold. by rewrite Hr. Qed.

Lemma ask_idle rs l f k s :
  Forall idle rs → ask_in_order rs l f k s = k s.
Proof.
  induction 1 as [|r rs Hr _ IH]; simpl; [done|]. by rewrite or_else_idle.
Qed.

Abbreviation factory sn := (resolverOpFactory LS (NewFactory fp) sn).

Lemma NewRunHook_life sn k w :
  k ∈ life_hooks →
  NewRunHook (factory sn) (hook.info_of_kind k) w = (Ok (hook_op sn k), w).
Proof.
  intros Hk. simpl. unfold factory_NewRunHook. munfold.
  by rewrite (life_hook_valid k Hk).
Qed.

Lemma liftR_life sn sn' k w :
  k ∈ life_hooks →
  liftR (NewRunHook (factory sn) (hook.info_of_kind k)) (sn', w)
  = (Ok (hook_op sn k), (sn', w)).
Proof. intros Hk. unfold liftR, zoom. cbn [snd]. by rewrite NewRunHook_life. Qed.

Context (HQ : quiet).

Lemma nextOp_rest l sn w :
  charmModified l sn = false →
  nextOp config l (factory sn) (sn, w) = (answer sn (decide_rest l sn), (sn, w)).
Proof.
  intros Hc.
  assert (nextOp_alive config l (factory sn) (sn, w)
    = (answer sn (if negb (Installed (ls_State l)) && negb (Started (ls_State l))
         then Ok hooks.Install
         else if bool_decide (ConfigHash (ls_State l) ≠ sn_ConfigHash sn)
              || bool_decide (TrustHash (ls_State l) ≠ sn_TrustHash sn)
              || bool_decide (AddressesHash (ls_State l) ≠ sn_AddressesHash sn)
         then Ok hooks.ConfigChanged
         else if decide (ls_UpdateStatusVersion l ≠ sn_UpdateStatusVersion sn)
         then Ok hooks.UpdateStatus else Err ErrNoOperation), (sn, w))) as Ha.
  { unfold nextOp_alive, remote. rewrite (bind_ok _ _ _ sn (sn, w)) by done.
    rewrite Hc.
    destruct (_ && _); [by apply liftR_life; unfold life_hooks; set_solver|].
    destruct (_ || _); [by apply liftR_life; unfold life_hooks; set_solver|].
    rewrite or_else_idle by apply HQ.
    case_decide; [by apply liftR_life; unfold life_hooks; set_solver|done]. }
  unfold nextOp, remote. rewrite (bind_ok _ _ _ sn (sn, w)) by done.
  unfold decide_rest. destruct (sn_Life sn); [|..|done|done].
  - destruct (sn_Shutdown sn); [|done].
    destruct (Started _ && negb (Stopped _)); [by apply liftR_life; unfold life_hooks; set_solver|done].
  - rewrite or_else_idle by apply HQ.
    destruct (Started _ && negb (Stopped _)); [by apply liftR_life; unfold life_hooks; set_solver|].
    destruct (Installed _ && negb (Removed _)); [by apply liftR_life; unfold life_hooks; set_solver|done].
Qed.

Lemma NextOp_decision l sn w :
  calm sn l → plain (ls_State l) → view RT w = false →
  uniterResolver_NextOp config RT l (factory sn) (sn, w)
  = (answer sn (decision l sn), (sn, w)).
Proof.
  intros [Hr Hc] Hp Ht. unfold uniterResolver_NextOp, decision, remote.
  rewrite (bind_ok _ _ _ sn (sn, w)) by done.
  destruct (_ || Removed _); [done|]. rewrite or_else_idle by apply HQ.
  rewrite decide_False by (destruct Hp as [->|[-> _]]; done). rewrite Hr.
  rewrite (bind_ok _ _ _ () (sn, w)); last first.
  { unfold maybe_stopRetryTimer, liftR. munfold. by rewrite Ht. }
  rewrite ask_idle; last first.
  { destruct HQ. repeat (apply Forall_cons_2 || apply Forall_app_2); try done. }
  rewrite (bind_ok _ _ _ sn (sn, w)) by done.
  destruct (sn_Shutdown sn) eqn:Hs.
  { by apply nextOp_rest. }
  unfold nextOp_inProgress.
  destruct Hp as [-> | (-> & -> & k & Hk & Hh)]; [by apply nextOp_rest|]. rewrite (bind_ok _ _ _ (hook.info_of_kind k) (sn, w));
    [|unfold local_hook; by rewrite Hh].
  rewrite Hh. cbn [hook.Kind hook.info_of_kind].
  case_decide; [by apply nextOp_rest|]. by apply liftR_life.
Qed.

(** ** The loop *)

Context (AL : agent_loop).

Lemma decision_no_panic l sn s : decision l sn ≠ Err (GoPanic s).
Proof.
  unfold decision, decide_rest. destruct (_ || _); [done|].
  repeat case_match; done.
Qed.

Lemma loop_NextOp_ready sn w l :
  view LS w = l → calm sn l → plain (ls_State l) → view RT w = false →
  loop_NextOp LS cfg sn w = (Ok (answer sn (decision l sn)), w).
Proof.
  intros Hl Hc Hp Ht. unfold loop_NextOp.
  rewrite (bind_ok _ _ _ l w) by (unfold gets; by rewrite Hl).
  unfold try. rewrite (al_Resolver AL), (al_Factory AL), NextOp_decision by done.
  pose proof (decision_no_panic l sn) as Hn.
  destruct (decision l sn) as [k|[]]; try done. by destruct (Hn what).
Qed.

Lemma calm_set_State sn st l : calm sn l → calm sn (set_ls_State st l).
Proof. by intros []. Qed.

Lemma calm_local_after sn l : calm sn l → calm sn (local_after sn l).
Proof.
  intros [H1 H2]. split; [done..|]. unfold charmModified in *. simpl.
  repeat case_decide; try done.
Qed.

Lemma after_hook_plain sn k b st : plain (after_hook sn k b st).
Proof.
  assert (plain (runHook_commitFlags (hook.info_of_kind k)
    (stateChange_apply (hook_change k b st) st))) as H.
  { unfold plain, runHook_commitFlags, hook_change.
    destruct k; try (destruct (Started st)); simpl; try (by left);
      right; split_and!; try done; eexists; (split; [|done]);
      unfold life_hooks; set_solver. }
  unfold after_hook. case_decide; [|done]. exact H.
Qed.

Lemma Executor_State_ready sn st l w :
  ready sn st l w → Executor_State LX w = (Ok st, w).
Proof. intros [H _ _ _]. unfold Executor_State, executor_State. munfold. by rewrite H. Qed.

Lemma ready_set_State sn st l w :
  ready sn st l w →
  ready sn st (set_ls_State st l) (update LS (set_ls_State st (view LS w)) w).
Proof.
  intros [H1 H2 H3 H4]. pose proof (sw_LS SW). split.
  - by rewrite (sw_LS_LX SW).
  - rewrite view_update. by rewrite H2.
  - by rewrite (sw_LS_RT SW).
  - by rewrite (sw_LS_sn SW).
Qed.

(** At the top of the loop, once the check for a killed hook is passed. *)
Lemma top_turn_checked sn st l w w' :
  ready sn st l w → calm sn l → plain st →
  check_killed_hook LS cfg sn (update LS (set_ls_State st (view LS w)) w) = (Ok (), w') →
  obs w' = obs (update LS (set_ls_State st (view LS w)) w) →
  loop_turn LS LX rw acquire cfg LoopTop w
      = (Ok (LoopResolved (answer sn (decision (set_ls_State st l) sn))), w')
  ∧ ready sn st (set_ls_State st l) w'.
Proof.
  intros Hw Hc Hp Hk O. pose proof (ready_set_State _ _ _ _ Hw) as Hw1.
  assert (ready sn st (set_ls_State st l) w') as Hw'.
  { apply obs_eq in O as (E1 & E2 & E3 & E4). destruct Hw1. split; congruence. }
  split; [|done]. unfold loop_turn.
  rewrite (bind_ok _ _ _ sn w) by (unfold gets; by rewrite (ready_snapshot _ _ _ _ Hw)).
  rewrite (bind_ok _ _ _ _ _ (Executor_State_ready _ _ _ _ Hw)).
  rewrite (bind_ok _ _ _ () (update LS (set_ls_State st (view LS w)) w)) by done.
  rewrite (bind_ok _ _ _ _ _ Hk).
  rewrite (bind_ok _ _ _ _ _ (loop_NextOp_ready sn _ (set_ls_State st l)
    (ready_local _ _ _ _ Hw') (calm_set_State _ _ _ Hc) Hp (ready_timer _ _ _ _ Hw'))).
  done.
Qed.

Lemma top_turn sn st l w :
  ready sn st l w → calm sn l → ls_HookWasShutdown l = false → plain st →
  ∃ w', loop_turn LS LX rw acquire cfg LoopTop w
      = (Ok (LoopResolved (answer sn (decision (set_ls_State st l) sn))), w')
    ∧ ready sn st (set_ls_State st l) w'.
Proof.
  intros Hw Hc Hs Hp. pose proof (ready_set_State _ _ _ _ Hw) as Hw'.
  eexists. apply top_turn_checked; [done..| |done].
  unfold check_killed_hook. munfold.
  assert (view LS (update LS (set_ls_State st (view LS w)) w) = set_ls_State st l) as ->
    by apply Hw'. simpl. by rewrite Hs.
Qed.

Lemma hook_turn sn k st l w :
  k ∈ life_hooks → ready sn st l w → calm sn l →
  ∃ b w', let st' := after_hook sn k b st in
    let l' := set_ls_State st' (local_after sn l) in
    loop_turn LS LX rw acquire cfg (LoopResolved (Ok (hook_op sn k))) w
      = (Ok (LoopResolved (answer sn (decision l' sn))), w')
    ∧ ready sn st' l' w'.
Proof.
  intros Hk Hw Hc.
  destruct (Executor_Run_hook sn k Hk st w (ready_state _ _ _ _ Hw)) as (b & w1 & H1 & O1).
  set (st' := after_hook sn k b st). set (l1 := local_after sn l).
  assert (ready sn st' l1 w1) as Hw1.
  { unfold obs in O1. destruct Hw as [_ H2 H3 H4].
    injection O1 as E1 E2 E3 E4. split; [by rewrite E1|unfold l1; congruence|congruence..]. }
  pose proof (ready_set_State _ _ _ _ Hw1) as Hw2.
  set (w2 := update LS (set_ls_State st' (view LS w1)) w1) in Hw2.
  assert (smooth (updateCharmDir cfg st')) as Hsm.
  { unfold updateCharmDir. destruct (charmDir_available st');
      [apply (sw_Unlock SW)|apply (sw_Lockdown SW)]. }
  destruct (Hsm w2) as ([] & w3 & H3 & O3).
  assert (ready sn st' (set_ls_State st' l1) w3) as Hw3.
  { apply obs_eq in O3 as (E1 & E2 & E3 & E4). destruct Hw2. split; congruence. }
  exists b, w3. split; [|done]. unfold loop_turn.
  rewrite (bind_ok _ _ _ (Ok ()) w1) by (unfold try; by rewrite H1).
  rewrite (bind_ok _ _ _ sn w1) by (unfold gets; by rewrite (ready_snapshot _ _ _ _ Hw1)).
  rewrite (bind_ok _ _ _ _ _ (Executor_State_ready _ _ _ _ Hw1)).
  rewrite (bind_ok _ _ _ () w2) by done. rewrite (bind_ok _ _ _ _ _ H3).
  rewrite (bind_ok _ _ _ _ _ (loop_NextOp_ready sn w3 (set_ls_State st' l1)
    (ready_local _ _ _ _ Hw3)
    (calm_set_State _ _ _ (calm_local_after _ _ Hc)) (after_hook_plain _ _ _ _)
    (ready_timer _ _ _ _ Hw3))). done.
Qed.

(** A plan is carried out. *)
Lemma plan_runs_hook sn ks e Q k st l w :
  k ∈ life_hooks → ready sn st l w → calm sn l →
  (∀ b, plan sn ks e Q (set_ls_State (after_hook sn k b st) (local_after sn l))) →
  runs_hooks sn ks e Q (LoopResolved (Ok (hook_op sn k))) w.
Proof.
  revert k st l w. induction ks as [|k' ks IH]; intros k st l w Hk Hw Hc Hp;
    destruct (hook_turn sn k st l w Hk Hw Hc) as (b & w' & Ht & Hw'); simpl.
  - destruct (Hp b) as [Hd HQ']. rewrite Hd in Ht.
    eexists _, w'. split_and!; [exact Ht|by apply Hw'|exact HQ'].
  - destruct (Hp b) as (Hd & Hk' & Hp'). rewrite Hd in Ht.
    exists w'. split; [exact Ht|]. eapply IH; [done|exact Hw'| |exact Hp'].
    by apply calm_set_State, calm_local_after.
Qed.

Lemma plan_runs sn ks e Q st l w :
  ready sn st l w → calm sn l → ls_HookWasShutdown l = false → plain st →
  plan sn ks e Q (set_ls_State st l) →
  runs_hooks sn ks e Q LoopTop w.
Proof.
  intros Hw Hc Hs Hpl Hp. destruct (top_turn sn st l w Hw Hc Hs Hpl) as (w' & Ht & Hw').
  destruct ks as [|k ks]; simpl in *.
  - destruct Hp as [Hd HQ']. rewrite Hd in Ht.
    exists st, w'. split_and!; [exact Ht|by apply Hw'|exact HQ'].
  - destruct Hp as (Hd & Hk & Hp). rewrite Hd in Ht. exists w'. split; [exact Ht|].
    eapply plan_runs_hook; [done|exact Hw'|by apply calm_set_State|exact Hp].
Qed.

(** ** A unit's life *)



(** ** A hook that was killed *)

(** The rest of the loop's configuration is smooth as well: nothing more comes
    within the three seconds, idling works, and then the remote state
    changes. *)
Record smooth_waiting : Prop := {
  sw_changes w : existsb sn_Shutdown (lc_changes cfg w).1 = false
    ∧ obs (lc_changes cfg w).2 = obs w;
  sw_OnIdle : match lc_OnIdle cfg with Some m => smooth m | None => True end;
  sw_wait w : (lc_wait cfg w).1 = RemoteStateChanged ∧ obs (lc_wait cfg w).2 = obs w;
}.

(** A unit at rest in its remote state, but for the hook it has to run. *)
Record at_rest (sn : Snapshot) (st : OpState) : Prop := {
  ar_Life : sn_Life sn = Alive;
  ar_Shutdown : sn_Shutdown sn = false;
  ar_Installed : Installed st = true;
  ar_Started : Started st = true;
  ar_Stopped : Stopped st = false;
  ar_Removed : Removed st = false;
  ar_Config : ConfigHash st = sn_ConfigHash sn;
  ar_Trust : TrustHash st = sn_TrustHash sn;
  ar_Addresses : AddressesHash st = sn_AddressesHash sn;
}.

Lemma idle_turn w :
  smooth_waiting →
  ∃ w', loop_turn LS LX rw acquire cfg (LoopResolved (Err ErrNoOperation)) w
    = (Ok LoopTop, w') ∧ obs w' = obs w.
Proof.
  intros SWt. unfold loop_turn, loop_idle. simpl.
  assert (∃ w1, match lc_OnIdle cfg with Some m => m | None => mret () end w = (Ok (), w1)
            ∧ obs w1 = obs w) as (w1 & H1 & O1).
  { pose proof (sw_OnIdle SWt) as Hi. destruct (lc_OnIdle cfg) as [m|]; [|by exists w].
    destruct (Hi w) as ([] & w1 & ? & ?). by exists w1. }
  rewrite (bind_ok _ _ _ _ _ H1). destruct (sw_wait SWt w1) as [Hw Ow].
  exists (lc_wait cfg w1).2. split; [|congruence].
  unfold loop_wait, mbind, M_bind. destruct (lc_wait cfg w1) as [ev w2]. simpl in *.
  by rewrite Hw.
Qed.

(** A killed hook is looked up in the local state. *)
Lemma check_killed_quiet sn w :
  smooth_waiting → sn_Shutdown sn = false → ls_HookWasShutdown (view LS w) = true →
  ∃ w', obs w' = obs w ∧
    check_killed_hook LS cfg sn w =
      (match Hook (ls_State (view LS w)) with
       | Some _ => Ok ()
       | None => Err (GoPanic "nil pointer dereference")
       end, w').
Proof.
  intros SWt Hs Hk. destruct (sw_changes SWt w) as [Hc Oc].
  exists (lc_changes cfg w).2. split; [done|].
  unfold check_killed_hook, maybeAgentShutdown. munfold. rewrite Hk, Hs. simpl.
  destruct (lc_changes cfg w) as [snaps w2]. simpl in *. rewrite Hc.
  by destruct (Hook _).
Qed.

(** The check at the top of the loop, with and without a hook. *)
Lemma top_check_killed sn st l w :
  smooth_waiting → ready sn st l w → ls_HookWasShutdown l = true →
  sn_Shutdown sn = false →
  ∃ w', obs w' = obs (update LS (set_ls_State st (view LS w)) w) ∧
    check_killed_hook LS cfg sn (update LS (set_ls_State st (view LS w)) w) =
      (match Hook st with
       | Some _ => Ok ()
       | None => Err (GoPanic "nil pointer dereference")
       end, w').
Proof.
  intros SWt Hw Hks HD. pose proof (ready_local _ _ _ _ (ready_set_State _ _ _ _ Hw)) as Hl.
  destruct (check_killed_quiet sn _ SWt HD ltac:(by rewrite Hl)) as (w' & O & H).
  exists w'. rewrite Hl in H. done.
Qed.

Lemma top_turn_killed_panic sn st l w :
  smooth_waiting → ready sn st l w → ls_HookWasShutdown l = true →
  sn_Shutdown sn = false → Hook st = None →
  ∃ w', loop_turn LS LX rw acquire cfg LoopTop w
    = (Err (GoPanic "nil pointer dereference"), w').
Proof.
  intros SWt Hw Hks HD HH.
  destruct (top_check_killed sn st l w SWt Hw Hks HD) as (w' & _ & H). rewrite HH in H.
  exists w'. unfold loop_turn. rewrite (bind_ok _ _ _ sn w)
    by (unfold gets; by rewrite (ready_snapshot _ _ _ _ Hw)).
  rewrite (bind_ok _ _ _ _ _ (Executor_State_ready _ _ _ _ Hw)).
  rewrite (bind_ok _ _ _ () (update LS (set_ls_State st (view LS w)) w)) by done.
  by rewrite (bind_err _ _ _ _ _ H).
Qed.

(** A hook that brings a unit at rest back to rest. *)
Lemma rest_after_hook sn st l k b :
  at_rest sn st → k ∈ [hooks.Start; hooks.ConfigChanged; hooks.UpdateStatus] →
  Hook (after_hook sn k b st) = None ∧
  decision (set_ls_State (after_hook sn k b st) (local_after sn l)) sn
    = Err ErrNoOperation.
Proof.
  intros [HL HD HI HS HT HR H1 H2 H3] Hk.
  unfold decision, decide_rest, after_hook, hook_change.
  assert (k = hooks.Start ∨ k = hooks.ConfigChanged ∨ k = hooks.UpdateStatus)
    as [-> | [-> | ->]] by set_solver;
    simpl; rewrite ?HS, ?HL, ?HD, ?HR, ?HI; simpl;
    rewrite ?HS, ?HI; simpl; by rewrite !bool_decide_false, decide_False by tauto.
Qed.

(** After a hook is killed, the agent dies of a nil pointer dereference
    although it was never told to stop.  [HookWasShutdown], set when a hook
    exits because of SIGTERM, is never reset.  If no shutdown of the agent
    follows, the loop runs the queued hook again, the hook succeeds and the
    agent idles; at the next change of the remote state the warning at the top
    of the loop reads the kind of [localState.Hook], which is nil by then. *)
Theorem killed_hook_panics_later sn st l w k :
  smooth_waiting → ready sn st l w → calm sn l → ls_HookWasShutdown l = true →
  at_rest sn st → k ∈ [hooks.Start; hooks.ConfigChanged; hooks.UpdateStatus] →
  Kind st = RunHook → Step st = Queued → HookStep st = Some Queued →
  Hook st = Some (hook.info_of_kind k) →
  ∃ w1 w2 w3 w4,
    loop_turn LS LX rw acquire cfg LoopTop w
      = (Ok (LoopResolved (Ok (hook_op sn k))), w1)
    ∧ loop_turn LS LX rw acquire cfg (LoopResolved (Ok (hook_op sn k))) w1
      = (Ok (LoopResolved (Err ErrNoOperation)), w2)
    ∧ loop_turn LS LX rw acquire cfg (LoopResolved (Err ErrNoOperation)) w2
      = (Ok LoopTop, w3)
    ∧ loop_turn LS LX rw acquire cfg LoopTop w3
      = (Err (GoPanic "nil pointer dereference"), w4).
Proof.
  intros SWt Hw Hc Hks Hrest Hk HK HST HHS HH. pose proof Hrest as [HL HD _ _ _ HR _ _ _].
  assert (k ∈ life_hooks ∧ k ≠ hooks.Install) as [Hlife Hni]
    by (unfold life_hooks; set_solver).
  destruct (top_check_killed sn st l w SWt Hw Hks HD) as (w1 & O1 & Hck).
  rewrite HH in Hck.
  destruct (top_turn_checked sn st l w w1 Hw Hc) as [T1 Hw1]; [|done..|].
  { right. split_and!; [done|by rewrite HHS|by exists k]. }
  assert (decision (set_ls_State st l) sn = Ok k) as E1.
  { unfold decision. simpl. rewrite HL, HR, HD, HK, HH. simpl. by rewrite decide_False. }
  rewrite E1 in T1.
  destruct (hook_turn sn k st _ w1 Hlife Hw1) as (b & w2 & T2 & Hw2);
    [by apply calm_set_State|].
  destruct (rest_after_hook sn st (set_ls_State st l) k b Hrest Hk) as [HH' E2].
  rewrite E2 in T2. destruct (idle_turn w2 SWt) as (w3 & T3 & O3).
  destruct (top_turn_killed_panic sn (after_hook sn k b st)
    (set_ls_State (after_hook sn k b st) (local_after sn (set_ls_State st l))) w3)
    as (w4 & T4); [done| |done..|].
  { apply obs_eq in O3 as (F1 & F2 & F3 & F4). destruct Hw2. split; congruence. }
  by exists w1, w2, w3, w4.
Qed.
End agent.
