(* ===== verification/UniterFacts.v ===== *)
(** * What the unit agent decides

    The uniter's resolver with the agent's own resolvers (Uniter.v): what may
    happen while a hook is in error, and how an upgrade at the wrong moment
    turns a hook that was only queued into one in error. *)

From S2P Require Import Prelude Hooks OpState Operations OperationFacts RelationState Resolver.
From S2P Require Import RelationTracker RelationResolver SmallResolvers Storage Secrets.
From S2P Require Import UniterResolver Uniter AgentProgress.
Import life operation.

(** ** The snapshot's own fields *)

(** Resolvers change only the shared maps of the snapshot; the rest of it is
    their own copy. *)
Definition scalars (sn : Snapshot) : bool * bool * ResolvedMode * Z * string * Z :=
  (sn_Shutdown sn, sn_ForceCharmUpgrade sn, sn_ResolvedMode sn,
   sn_RetryHookVersion sn, sn_CharmURL sn, sn_CharmModifiedVersion sn).

(** The operation was made by the factory for a request, and perhaps wrapped to
    report its completion. *)
Definition made {W} (f : Factory W) (req : op_request (W:=W)) (op : operation W) : Prop :=
  ∃ op0 w w', factory_make f req w = (Ok op0, w') ∧
    (op = op0 ∨ (∃ g, op = completer op0 g) ∨ ∃ h, op = errorWrappedOp op0 h).

(** What may be run while the hook [hi] is in error: the hook itself, retried
    on request or skipped when resolved; a forced upgrade; giving up
    leadership; actions and commands; and, when it is a workload hook, the
    hooks of the workload. *)
Definition allowed_in_error {W} (hi : hook.Info) (l : LocalState) (sn : Snapshot)
    (req : op_request (W:=W)) : Prop :=
  match req with
  | ReqRunHook info =>
      (info = hi ∧ (sn_ResolvedMode sn = ResolvedRetryHooks
                    ∨ (sn_RetryHookVersion sn > ls_RetryHookVersion l)%Z))
      ∨ (hooks.IsWorkload (hook.Kind hi) = true ∧ hooks.IsWorkload (hook.Kind info) = true)
  | ReqSkipHook info =>
      info = hi ∧ (sn_ResolvedMode sn = ResolvedNoHooks
                   ∨ hooks.IsWorkload (hook.Kind hi) = true)
  | ReqUpgrade url => sn_ForceCharmUpgrade sn = true ∧ url = sn_CharmURL sn
  | ReqAction _ | ReqFailAction _ | ReqCommands _ _ | ReqResignLeadership => True
  | _ => False
  end.

Section facts.
Context {NM : Names} {W : Type} {MO : MapOrder W}.

Abbreviation scal := (λ s : Snapshot * W, scalars s.1).

Lemma keeps_liftR {A} (m : M W A) : keeps scal (liftR m).
Proof.
  intros [sn w] r s' H. unfold liftR, zoom in H. simpl in H.
  destruct (m w) as [a w']. by simplify_eq.
Qed.

Lemma keeps_remote {A} (f : Snapshot → A) : keeps scal (remote (W:=W) f).
Proof. apply keeps_gets. Qed.

Lemma keeps_storage_modify f :
  keeps scal (modify (λ s : Snapshot * W, (set_Storage (f s) s.1, s.2))).
Proof. intros s r s' H. unfold modify in H. by simplify_eq. Qed.

Ltac keeps_step :=
  match goal with
  | |- keeps _ (_ ≫= _) => apply keeps_bind; [|intros ?]
  | |- keeps _ (mret _) => apply keeps_ret
  | |- keeps _ (throw _) => apply keeps_throw
  | |- keeps _ (gets _) => apply keeps_gets
  | |- keeps _ get => apply (keeps_gets _ id)
  | |- keeps _ (lift_result _) => apply keeps_lift
  | |- keeps _ (try _) => apply keeps_try
  | |- keeps _ (liftR _) => apply keeps_liftR
  | |- keeps _ (remote _) => apply keeps_remote
  | |- keeps _ (modify _) => apply keeps_storage_modify
  | |- keeps _ (match ?x with _ => _ end) => destruct x
  end.

Lemma completeOnCommit_keeps g (newOp : string → M W (operation W)) id :
  keeps scal (completeOnCommit g newOp id).
Proof. unfold completeOnCommit. repeat keeps_step. Qed.

Lemma actions_keeps g l f : keeps scal (actionsResolver_NextOp (W:=W) g l f).
Proof.
  unfold actionsResolver_NextOp, actionsResolver_body.
  repeat (apply completeOnCommit_keeps || keeps_step).
Qed.

Lemma commands_keeps g r c l f : keeps scal (commandsResolver_NextOp (W:=W) g r c l f).
Proof. unfold commandsResolver_NextOp. repeat keeps_step. Qed.

Lemma leadership_keeps l f : keeps scal (leadershipResolver_NextOp (W:=W) l f).
Proof. unfold leadershipResolver_NextOp. repeat keeps_step. Qed.

Lemma workload_keeps g r c l f : keeps scal (workloadHookResolver_NextOp (W:=W) g r c l f).
Proof.
  assert (keeps scal (workload_noOp (W:=W) l f)) as Hn
    by (unfold workload_noOp; repeat keeps_step).
  assert (∀ ids, keeps scal (workload_loop (W:=W) g r c l f ids)) as Hl.
  { induction ids as [|id ids IH]; simpl; [done|]. repeat (apply IH || keeps_step). }
  unfold workloadHookResolver_NextOp. repeat (apply Hl || apply Hn || keeps_step).
Qed.

Lemma storage_keeps L LD api mt l f :
  keeps scal (storageResolver_NextOp (W:=W) L LD api mt l f).
Proof.
  assert (∀ m, keeps scal (short_circuit (W:=W) L api m)) as Hs.
  { induction m as [|[tag snap] m IH]; simpl; repeat (apply IH || keeps_step). }
  unfold storageResolver_NextOp, storage_dying. repeat (apply Hs || keeps_step).
Qed.

Lemma reboot_keeps p l f : keeps scal (NewRebootResolver (W:=W) p l f).
Proof.
  unfold NewRebootResolver, nopResolver_NextOp, rebootResolver_NextOp.
  destruct (ap_rebootDetected p); repeat keeps_step.
Qed.

Lemma retryTimer_keeps (config : ResolverConfig W) RT st :
  keeps scal (maybe_stopRetryTimer config RT st).
Proof.
  unfold maybe_stopRetryTimer, set_retryTimer.
  apply keeps_bind; [apply keeps_liftR|]. intros started. destruct (_ && _);
    [|apply keeps_ret]. apply keeps_bind; intros; apply keeps_liftR.
Qed.

(** ** Asking in order *)

Lemma or_else_inv (m k : M (Snapshot * W) (operation W)) s op s' :
  keeps scal m → or_else m k s = (Ok op, s') →
  m s = (Ok op, s') ∨ ∃ s1, scal s1 = scal s ∧ k s1 = (Ok op, s').
Proof.
  intros Hm H. unfold or_else in H. munfold.
  destruct (m s) as [[o|e] s1] eqn:E; [left; by simplify_eq|right].
  exists s1. split; [by eapply Hm|]. destruct e; try done; by case_decide.
Qed.

Lemma ask_inv rs l f k s op s' :
  Forall (λ r : Resolver W, keeps scal (r l f)) rs →
  ask_in_order rs l f k s = (Ok op, s') →
  Exists (λ r : Resolver W, ∃ s1, scal s1 = scal s ∧ r l f s1 = (Ok op, s')) rs
  ∨ ∃ s1, scal s1 = scal s ∧ k s1 = (Ok op, s').
Proof.
  intros Hall. revert s. induction Hall as [|r rs Hr _ IH]; intros s H; simpl in H.
  { right. by exists s. }
  apply or_else_inv in H as [H|(s1 & Hs & H)]; [left; left; by exists s| |done].
  destruct (IH _ H) as [Hex|(s2 & Hs2 & ?)].
  - left. right. eapply Exists_impl; [exact Hex|]. intros r' (s2 & ? & ?).
    exists s2. split; [congruence|done].
  - right. exists s2. split; [congruence|done].
Qed.

(** An operation made for a request, as it is or wrapped. *)
Lemma liftR_factory (f : Factory W) req s op s' :
  liftR (factory_make f req) s = (Ok op, s') →
  ∃ w w', factory_make f req w = (Ok op, w').
Proof.
  destruct s as [sn w]. unfold liftR, zoom. simpl.
  destruct (factory_make f req w) as [r w'] eqn:E. intros. simplify_eq. eauto.
Qed.

Lemma liftR_made (f : Factory W) req s op s' :
  liftR (factory_make f req) s = (Ok op, s') → made f req op.
Proof. intros (w & w' & H)%liftR_factory. exists op, w, w'. eauto. Qed.

Lemma liftR_made_completer (f : Factory W) req s op g s' :
  liftR (factory_make f req) s = (Ok op, s') → made f req (completer op g).
Proof. intros (w & w' & H)%liftR_factory. exists op, w, w'. eauto. Qed.

Lemma liftR_made_wrapped (f : Factory W) req s op h s' :
  liftR (factory_make f req) s = (Ok op, s') → made f req (errorWrappedOp op h).
Proof. intros (w & w' & H)%liftR_factory. exists op, w, w'. eauto. Qed.

(** ** The resolvers, while a hook is in error *)

Section error.
Context (l : LocalState) (hi : hook.Info) (f : Factory W).
Hypothesis HK : Kind (ls_State l) = RunHook.
Hypothesis HS : Step (ls_State l) = Pending.
Hypothesis HH : Hook (ls_State l) = Some hi.

Lemma reboot_error p s op s' : NewRebootResolver p l f s ≠ (Ok op, s').
Proof.
  unfold NewRebootResolver. destruct (ap_rebootDetected p); [|done].
  unfold rebootResolver_NextOp. rewrite HK. intros H. by minv.
Qed.

Lemma created_error (rt : RelationStateTracker W) s op s' :
  createdRelationsResolver_NextOp rt l f s ≠ (Ok op, s').
Proof.
  unfold createdRelationsResolver_NextOp. rewrite HK. intros H. by minv.
Qed.

Lemma secrets_error (t : SecretStateTracker W) g1 g2 g3 s op s' :
  secretsResolver_NextOp t g1 g2 g3 l f s ≠ (Ok op, s').
Proof. unfold secretsResolver_NextOp. rewrite HK. intros H. by minv. Qed.

Lemma storage_error L LD api mt s op s' :
  storageResolver_NextOp (W:=W) L LD api mt l f s ≠ (Ok op, s').
Proof.
  unfold storageResolver_NextOp, runStorageHooks. rewrite HK, HS. intros H. by minv.
Qed.

Lemma leadership_error sn s op s' :
  leadershipResolver_NextOp l f s = (Ok op, s') →
  ∃ req, made f req op ∧ allowed_in_error hi l sn req.
Proof.
  unfold leadershipResolver_NextOp. rewrite HK. intros H.
  exists ReqResignLeadership. split; [|done].
  destruct (negb (Installed _)); [by minv|].
  apply bind_inv_ok in H as (sn0 & s1 & _ & H). cbv zeta in H.
  rewrite (bool_decide_false (RunHook = Continue)), !andb_false_r in H by done.
  destruct (_ && _); [by eapply (liftR_made _ ReqResignLeadership)|by minv].
Qed.

Lemma completeOnCommit_made g (newOp : string → M W (operation W)) req id s op s' :
  newOp id = factory_make f req →
  completeOnCommit g newOp id s = (Ok op, s') → made f req op.
Proof.
  unfold completeOnCommit. intros Hn H. minv. rewrite Hn in E.
  by eapply liftR_made_completer.
Qed.

Lemma actions_error g sn s op s' :
  actionsResolver_NextOp g l f s = (Ok op, s') →
  ∃ req, made f req op ∧ allowed_in_error hi l sn req.
Proof.
  unfold actionsResolver_NextOp, actionsResolver_body. rewrite HK. intros H.
  apply bind_inv_ok in H as (pending & s1 & _ & H).
  apply bind_inv_ok in H as (r & s2 & Hr & H).
  destruct r as [o|e].
  - apply mret_inv in H as [? ->]. simplify_eq. unfold try in Hr.
    destruct (_ && _).
    + destruct (completeOnCommit _ _ _ s1) as [[|[]] s3] eqn:E; simplify_eq.
      exists (ReqAction (default "" (head pending))). split; [|done].
      eapply completeOnCommit_made; [|exact E]. done.
    + unfold throw in Hr. by simplify_eq.
  - assert (∃ id, completeOnCommit g (NewFailAction f) id s2 = (Ok op, s')) as [id Hid].
    { minv; eauto. }
    exists (ReqFailAction id). split; [|done].
    eapply completeOnCommit_made; [|exact Hid]. done.
Qed.

Lemma commands_error g r c sn s op s' :
  commandsResolver_NextOp g r c l f s = (Ok op, s') →
  ∃ req, made f req op ∧ allowed_in_error hi l sn req.
Proof.
  unfold commandsResolver_NextOp. intros H. minv.
  eexists (ReqCommands _ _). split; [|done].
  by eapply (liftR_made_completer _ (ReqCommands _ _)).
Qed.

Lemma workload_noOp_error sn s op s' :
  workload_noOp l f s = (Ok op, s') →
  ∃ req, made f req op ∧ allowed_in_error hi l sn req.
Proof.
  unfold workload_noOp. rewrite HK, HH. intros H. minv.
  exists (ReqSkipHook hi). split; [by eapply (liftR_made _ (ReqSkipHook hi))|].
  simpl. auto.
Qed.

Lemma event_info_workload evt info :
  event_info evt = Ok info → hooks.IsWorkload (hook.Kind info) = true.
Proof. unfold event_info. destruct (we_Type evt); intros; by simplify_eq. Qed.

Lemma workload_loop_error g r c ids sn s op s' :
  hooks.IsWorkload (hook.Kind hi) = true →
  workload_loop g r c l f ids s = (Ok op, s') →
  ∃ req, made f req op ∧ allowed_in_error hi l sn req.
Proof.
  intros Hw. revert s. induction ids as [|id ids IH]; intros s H; simpl in H;
    [by eapply workload_noOp_error|].
  apply bind_inv_ok in H as (ev & s1 & _ & H).
  destruct ev as [[evt cb]|[]]; try (by apply throw_inv in H as [? _]); [|by eapply IH].
  apply bind_inv_ok in H as (info & s2 & Hi & H). unfold lift_result in Hi. simplify_eq.
  apply bind_inv_ok in H as (o & s3 & Ho & H).
  destruct o as [op0|e]; [|by minv]. minv.
  exists (ReqRunHook info). split; [|right; split; [done|by eapply event_info_workload]].
  unfold try in Ho. destruct (liftR (NewRunHook f info) s2) as [[|[]] s4] eqn:E; simplify_eq.
  by eapply (liftR_made_wrapped _ (ReqRunHook info)).
Qed.

Lemma workload_error g r c sn s op s' :
  workloadHookResolver_NextOp g r c l f s = (Ok op, s') →
  ∃ req, made f req op ∧ allowed_in_error hi l sn req.
Proof.
  unfold workloadHookResolver_NextOp. rewrite HK, HS, HH. simpl.
  destruct (hooks.IsWorkload (hook.Kind hi)) eqn:Hw; intros H;
    [|by eapply workload_noOp_error].
  apply bind_inv_ok in H as (ids & s1 & _ & H). by eapply workload_loop_error.
Qed.

(** All the resolvers that are asked first. *)
Lemma resolvers_in_error p sn :
  Forall (λ r : Resolver W, keeps scal (r l f) ∧ ∀ s op s', r l f s = (Ok op, s') →
            ∃ req, made f req op ∧ allowed_in_error hi l sn req)
    ([rc_CreatedRelations (uniter_config p); rc_Leadership (uniter_config p)]
     ++ rc_OptionalResolvers (uniter_config p)
     ++ [rc_Secrets (uniter_config p); rc_Actions (uniter_config p);
         rc_Commands (uniter_config p); rc_Storage (uniter_config p)]).
Proof.
  rewrite !Forall_app, !Forall_cons, !Forall_nil. simpl. split_and!; try done.
  - unfold createdRelationsResolver_NextOp. rewrite HK. repeat keeps_step.
    exfalso; naive_solver.
  - intros s op s' H. by apply created_error in H.
  - apply leadership_keeps.
  - apply leadership_error.
  - destruct (bool_decide _); [|done]. apply Forall_singleton.
    split; [apply workload_keeps|apply workload_error].
  - unfold secretsResolver_NextOp. rewrite HK. apply keeps_bind; [apply keeps_remote|].
    intros ul. destruct (_ || _); apply keeps_throw.
  - intros s op s' H. by apply secrets_error in H.
  - apply actions_keeps.
  - apply actions_error.
  - apply commands_keeps.
  - apply commands_error.
  - apply storage_keeps.
  - intros s op s' H. by apply storage_error in H.
Qed.

(** The hook error itself. *)
Lemma hook_error_allowed (config : ResolverConfig W) RT s op s' :
  nextOpHookError config RT l f s = (Ok op, s') →
  ∃ req, made f req op ∧ allowed_in_error hi l s.1 req.
Proof.
  unfold nextOpHookError, local_hook. rewrite HH. intros H.
  apply bind_inv_ok in H as (hi' & s1 & H1 & H). apply mret_inv in H1 as [[= ->] ->].
  apply bind_inv_ok in H as ([] & s2 & H2 & H). apply keeps_liftR in H2.
  apply bind_inv_ok in H as (sn & s3 & H3 & H).
  unfold remote, gets in H3. injection H3 as <- <-. unfold scalars in H2.
  injection H2 as E1 E2 E3 E4 E5 E6.
  destruct (_ && _) eqn:Hf.
  { apply andb_true_iff in Hf as [Hf _]. exists (ReqUpgrade (sn_CharmURL s.1)).
    split; [|simpl; split; congruence]. unfold newUpgradeOperation in H.
    apply bind_inv_ok in H as (url & s4 & H4 & H). unfold remote, gets in H4. simplify_eq.
    rewrite <- E5. by eapply (liftR_made _ (ReqUpgrade (sn_CharmURL s4.1))). }
  destruct (sn_ResolvedMode s2.1) eqn:Hm.
  - case_decide as Hv; [|by minv].
    exists (ReqRunHook hi). apply bind_inv_ok in H as ([] & s4 & _ & H).
    split; [by eapply (liftR_made _ (ReqRunHook hi))|]. left. split; [done|]. right. by rewrite <- E4.
  - exists (ReqRunHook hi). apply bind_inv_ok in H as ([] & s4 & _ & H).
    split; [by eapply (liftR_made _ (ReqRunHook hi))|]. left. split; [done|]. left. congruence.
  - exists (ReqSkipHook hi). apply bind_inv_ok in H as ([] & s4 & _ & H).
    split; [by eapply (liftR_made _ (ReqSkipHook hi))|]. split; [done|]. left. congruence.
  - by minv.
Qed.
End error.

Lemma allowed_scalars hi l sn sn' (req : op_request (W:=W)) :
  scalars sn = scalars sn' → allowed_in_error hi l sn req → allowed_in_error hi l sn' req.
Proof.
  unfold scalars. intros [= E1 E2 E3 E4 E5 E6].
  destruct req; simpl; rewrite ?E2, ?E3, ?E4, ?E5; auto.
Qed.


(** ** A queued hook and an upgrade *)

Section upgrade.
Context {SU : SecretURIs} {YM : Yaml OpState} (rw : UnitStateReadWriter W)
  (acquire : string → string → M W (W → W)).
Hypothesis Hyaml : yaml_roundtrip.
Hypothesis Hmarshal : ∀ st : OpState, is_ok (yaml_Marshal st) = true.

(** The upgrade comes back to the hook it interrupted as a pending one. *)
Lemma upgrade_commits_pending cb dep url revert resolved hi st x w x' w' :
  x_state x = Some st → Kind st = RunHook → Step st = Queued →
  Hook st = Some hi → HookStep st = None →
  executor_Run rw acquire (deploy cb dep Upgrade url revert resolved) (x, w)
    = (Ok (), (x', w')) →
  ∃ st', x_state x' = Some st' ∧ Kind st' = RunHook ∧ Step st' = Pending
    ∧ Hook st' = Some hi ∧ HookStep st' = None.
Proof using Hyaml Hmarshal.
  intros Hx HK HS HH HHS H.
  eapply (executor_Run_committed rw acquire Hyaml Hmarshal (carries_hook hi st)) in H
    as (st1 & f & w1 & ns & f2 & w2 & Hc & H & E);
    [|by eapply upgrade_carries_hook|by exists st; repeat split; auto].
  apply simple_step_inv in H as [[_ H]|(? & ? & _)]; [|done].
  unfold deploy_Commit in H. rewrite (carries_hook_interrupted _ _ _ Hc) in H.
  apply mret_inv in H as [[= ->] _]. eexists. split; [exact E|].
  destruct Hc as (_ & _ & Hs & _). simpl. by rewrite Hs, HHS.
Qed.

(** An upgrade turns a queued hook into a failed one.  Committing an
    upgrade-charm or config-changed hook queues the next hook without a hook
    step.  If the agent then restarts with a new charm to deploy, the upgrade
    leaves the state [RunHook]/[Pending] with no hook step, which the resolver
    cannot tell from a hook that was started and failed: it goes to the error
    handling of a hook that never ran, instead of running it. *)
Theorem upgrade_fails_queued_hook cb dep url revert resolved hi st x w x' w' :
  x_state x = Some st → Kind st = RunHook → Step st = Queued →
  Hook st = Some hi → HookStep st = None →
  executor_Run rw acquire (deploy cb dep Upgrade url revert resolved) (x, w)
    = (Ok (), (x', w')) →
  ∃ st', x_state x' = Some st' ∧ Kind st' = RunHook ∧ Step st' = Pending
    ∧ Hook st' = Some hi ∧ HookStep st' = None
    ∧ ∀ (config : ResolverConfig W) RT l f, ls_State l = st' →
        nextOp_inProgress config RT l f = nextOpHookError config RT l f.
Proof using Hyaml Hmarshal.
  intros Hx HK HS HH HHS Hrun.
  assert (∃ st', x_state x' = Some st' ∧ Kind st' = RunHook ∧ Step st' = Pending
    ∧ Hook st' = Some hi ∧ HookStep st' = None) as (st' & ? & K & S & H & E).
  { by eapply upgrade_commits_pending. }
  exists st'. split_and!; [done..|]. intros config RT l f Hl.
  unfold nextOp_inProgress. by rewrite Hl, K, S, E.
Qed.
End upgrade.
End facts.
