(* ===== verification/Samples.v ===== *)
(** * Samples

    Concrete instances of the libraries, services and interfaces the other
    files take as parameters, and the theorems applied to them: a serializer
    that reads back what it writes, a names library, a controller that keeps
    one text per unit, and small charms, relations and hooks. *)

From Stdlib Require Import Ascii.
From stdpp Require Import countable pretty.
From S2P Require Import Prelude Hooks OpState Operations OperationFacts.
Import operation.

(** ** A serializer *)

(** Positive numbers in binary, least significant digit first. *)
Fixpoint print_positive (p : positive) : string :=
  match p with
  | xH => "."
  | xO p => String "0"%char (print_positive p)
  | xI p => String "1"%char (print_positive p)
  end.

Fixpoint parse_positive (s : string) : option positive :=
  match s with
  | String c s' =>
      if decide (c = "0"%char) then xO <$> parse_positive s'
      else if decide (c = "1"%char) then xI <$> parse_positive s'
      else Some xH
  | EmptyString => None
  end.

(** Any countable type has a serializer. *)
Definition countable_yaml {A} `{Countable A} : Yaml A := {|
  yaml_Marshal a := Ok (print_positive (encode a));
  yaml_Unmarshal s :=
    match parse_positive s ≫= decode with
    | Some a => Ok a
    | None => Err (ErrNew "yaml: cannot unmarshal")
    end;
|}.

#[global] Instance HookKind_countable : Countable hooks.HookKind.
Proof.
  refine (inj_countable'
    (λ k, match k with
          | hooks.OtherKind s => (true, s)
          | k => (false, hooks.kind_string k)
          end)
    (λ '(b, s), if b : bool then hooks.OtherKind s else hooks.kind_of_string s) _).
  by intros [].
Defined.

#[global] Instance Info_countable : Countable hook.Info.
Proof.
  refine (inj_countable'
    (λ '(hook.MkInfo a b c d e f g h i j k l m n o p),
       ((a, b, c, d), (e, f, g, h), (i, j, k, l), (m, n, o, p)))
    (λ '((a, b, c, d), (e, f, g, h), (i, j, k, l), (m, n, o, p)),
       hook.MkInfo a b c d e f g h i j k l m n o p) _).
  by intros [].
Defined.

#[global] Instance OpKind_countable : Countable OpKind.
Proof.
  refine (inj_countable'
    (λ k, match k with
          | Install => inl 0 | RunHook => inl 1 | RunAction => inl 2
          | Upgrade => inl 3 | Continue => inl 4 | RemoteInit => inl 5
          | OtherOp s => inr s
          end)
    (λ x, match x with
          | inl 0 => Install | inl 1 => RunHook | inl 2 => RunAction
          | inl 3 => Upgrade | inl 4 => Continue | inl _ => RemoteInit
          | inr s => OtherOp s
          end) _).
  by intros [].
Defined.

#[global] Instance OpStep_countable : Countable OpStep.
Proof.
  refine (inj_countable'
    (λ k, match k with
          | Queued => inl 0 | Pending => inl 1 | Done => inl 2
          | OtherStep s => inr s
          end)
    (λ x, match x with
          | inl 0 => Queued | inl 1 => Pending | inl _ => Done
          | inr s => OtherStep s
          end) _).
  by intros [].
Defined.

#[global] Instance OpState_countable : Countable OpState.
Proof.
  refine (inj_countable'
    (λ '(MkOpState a b c d e f g h i j k l m n o),
       ((a, b, c, d), (e, f, g, h), (i, j, k, l), (m, n, o)))
    (λ '((a, b, c, d), (e, f, g, h), (i, j, k, l), (m, n, o)),
       MkOpState a b c d e f g h i j k l m n o) _).
  by intros [].
Defined.

#[global] Instance OpState_yaml : Yaml OpState := countable_yaml.

Lemma parse_print_positive p : parse_positive (print_positive p) = Some p.
Proof. induction p as [p IH|p IH|]; simpl; rewrite ?IH; done. Qed.

Lemma print_positive_nonempty p : print_positive p ≠ "".
Proof. by destruct p. Qed.

Lemma countable_yaml_unmarshal `{Countable A} (a : A) data :
  yaml_Marshal (Yaml:=countable_yaml) a = Ok data →
  data ≠ "" ∧ yaml_Unmarshal (Yaml:=countable_yaml) data = Ok a.
Proof.
  simpl. intros [= <-]. split; [apply print_positive_nonempty|].
  rewrite parse_print_positive. simpl. by rewrite decode_encode.
Qed.

Lemma OpState_yaml_roundtrip : yaml_roundtrip.
Proof. intros st data. apply (countable_yaml_unmarshal st). Qed.

(** ** Names and secrets *)

(** The part of a string before the first separator. *)
Fixpoint before (sep : Ascii.ascii) (s : string) : option string :=
  match s with
  | EmptyString => None
  | String c s' =>
      if decide (c = sep) then Some "" else String c <$> before sep s'
  end.

#[global] Instance sample_names : Names := {|
  IsValidStorage s := bool_decide (is_Some (before "/"%char s));
  IsValidAction s := bool_decide (s ≠ "");
  IsValidUnit s := bool_decide (is_Some (before "/"%char s));
  UnitApplication s :=
    match before "/"%char s with Some a => Ok a | None => Err (NotValid s) end;
  StorageName s :=
    match before "/"%char s with Some a => Ok a | None => Err (NotValid s) end;
|}.

#[global] Instance sample_uris : SecretURIs := {|
  ParseURI s := match s with String "s"%char (String ":"%char id) => Some id | _ => None end;
|}.

(** ** The operations, over a controller that keeps one text *)

(** The world is the text saved on the controller. *)
Definition text_rw : UnitStateReadWriter string := {|
  rw_State w := (Ok w, w);
  rw_SetState data _ := (Ok (), data);
|}.

Definition free_lock {W} (_ _ : string) : M W (W → W) := mret (λ w, w).

(** A charm whose every hook does nothing, on a unit that is not the leader. *)
Section quiet_charm.
Context {W : Type}.

Definition quiet_context (md : gmap string SecretMetadata) : HookContext W := {|
  ctx_Prepare := mret ();
  ctx_IsLeader := mret false;
  ctx_SecretMetadata := mret md;
  ctx_SetUnitStatus _ _ := mret ();
  ctx_ResetExecutionSetUnitStatus w := w;
  ctx_HasExecutionSetUnitStatus _ := false;
  ctx_Relation _ := throw (NotFound "relation");
  ctx_ActionDataName := mret "backup";
|}.

Definition quiet_runner (md : gmap string SecretMetadata) : Runner W := {|
  rnr_Context := quiet_context md;
  rnr_RunHook _ := mret ();
  rnr_RunAction _ := mret ();
  rnr_RunCommands _ := mret (None, None);
|}.

Definition quiet_runners (md : gmap string SecretMetadata) : RunnerFactory W := {|
  rf_NewHookRunner _ := mret (quiet_runner md);
  rf_NewActionRunner _ := mret (quiet_runner md);
  rf_NewCommandRunner _ := mret (quiet_runner md);
|}.

Definition quiet_callbacks : Callbacks W := {|
  cb_PrepareHook hi := mret (hooks.kind_string (hook.Kind hi));
  cb_CommitHook _ := mret ();
  cb_SetExecutingStatus _ := mret ();
  cb_NotifyHookCompleted _ w := w;
  cb_NotifyHookFailed _ w := w;
  cb_FailAction _ _ := mret ();
  cb_ErrorAction _ _ := mret ();
  cb_GetArchiveInfo url := mret url;
  cb_SetCurrentCharm _ := mret ();
  cb_SetSecretRotated _ _ := mret ();
  cb_SecretsRemoved _ _ := mret ();
|}.

Definition quiet_deployer : Deployer W := {|
  dep_Stage _ := mret ();
  dep_Deploy := mret ();
|}.

Definition quiet_factory : FactoryParams W := {|
  fp_Deployer := Some quiet_deployer;
  fp_RunnerFactory := quiet_runners ∅;
  fp_Callbacks := quiet_callbacks;
  fp_Action id := mret (MkUniterAction id false "");
|}.
End quiet_charm.

Definition install_queued : OpState :=
  MkOpState false false false false false false Install Queued None None None
    "ch:mysql" "" "" "".

Definition hook_pending (hi : hook.Info) : OpState :=
  MkOpState false true false true false false RunHook Pending (Some hi)
    (Some Pending) None "" "" "" "".

Definition agent_in (st : OpState) : executor := MkExecutor "mysql/0" (Some st).

Definition install_run {W} : list (exec_event (F:=OpFields W) (W:=W)) :=
  [EvRun (deploy quiet_callbacks quiet_deployer Install "ch:mysql" false false);
   EvRun (runHook quiet_callbacks (quiet_runners ∅)
            (hook.info_of_kind hooks.Install));
   EvSkip (runHook quiet_callbacks (quiet_runners ∅)
             (hook.info_of_kind hooks.Start))].

Lemma executor_state_always_valid_witness :
  state_ok (run_events text_rw free_lock install_run (agent_in install_queued, "")).1.
Proof.
  apply (executor_state_always_valid text_rw free_lock install_run
           (agent_in install_queued) "").
  exists install_queued. split; vm_compute; reflexivity.
Defined.

(** The quiet charm's hooks touch nothing. *)
Section quiet_hooks.
Context {W U : Type} (stored : W → U) (k : U) (md : gmap string SecretMetadata).

Definition untouched (s : OpFields W * W) : Prop :=
  (f_runner s.1 = None ∨ f_runner s.1 = Some (quiet_runner md)) ∧ stored s.2 = k.

Abbreviation calmly m := (triple untouched m (λ _, untouched) (λ _, untouched)).

Lemma calm_liftW {A} (a : A) : calmly (liftW (mret a)).
Proof. intros [f w] r s' Hs H. unfold liftW in H. munfold. by simplify_eq/=. Qed.

Lemma calm_liftW_bind {A B} (a : A) (m : A → M (OpFields W * W) B) :
  calmly (m a) → calmly (liftW (mret a) ≫= m).
Proof.
  intros Hm [f w] r s' Hs H. unfold liftW in H. munfold. by eapply Hm.
Qed.

Lemma calm_runner {A} (m : Runner W → M (OpFields W * W) A) :
  calmly (m (quiet_runner md)) → calmly (op_runner ≫= m).
Proof.
  intros Hm [f w] r s' Hs H. unfold op_runner in H. munfold.
  destruct Hs as [[Hf|Hf] Hk]; simpl in Hf; rewrite Hf in H; simpl in H;
    [simplify_eq; split; [by left|done]|].
  eapply Hm; [|exact H]. split; [by right|done].
Qed.

Lemma calm_leaderNeeded info name :
  calmly (liftW (runHook_leaderNeeded info name (quiet_runner md))).
Proof.
  intros [f w] r s' Hs H. unfold liftW, runHook_leaderNeeded in H. munfold.
  destruct (_ || _); by simplify_eq/=.
Qed.

Ltac calm_step :=
  match goal with
  | |- triple _ (op_runner ≫= _) _ _ => apply calm_runner; simpl
  | |- triple _ (liftW (mret _) ≫= _) _ _ => apply calm_liftW_bind; simpl
  | |- triple _ (_ ≫= _) _ _ =>
      eapply (triple_bind _ _ (λ _, untouched)); [|intros ?]
  | |- triple _ (mret _) _ _ => by apply triple_ret
  | |- triple _ (throw _) _ _ => by apply triple_throw
  | |- triple _ (gets _) _ _ => by apply triple_gets
  | |- triple _ (modify _) _ _ =>
      apply triple_modify; unfold untouched; simpl; tauto
  | |- triple _ (liftW (mret _)) _ _ => apply calm_liftW
  | |- triple _ (liftW (runHook_leaderNeeded _ _ _)) _ _ => apply calm_leaderNeeded
  | |- triple _ (try _) _ _ => apply triple_try; [|done]
  | |- triple _ (match ?x with _ => _ end) _ _ => destruct x
  end.

Lemma quiet_prepare_calm info st :
  calmly (runHook_Prepare quiet_callbacks (quiet_runners md) info st).
Proof. unfold runHook_Prepare. simpl. repeat calm_step. Qed.

Lemma quiet_finish_calm info st step err :
  calmly (runHook_finish quiet_callbacks info st step err).
Proof. unfold runHook_finish, runHook_afterHook. simpl. repeat calm_step. Qed.

Lemma quiet_execute_calm info st : calmly (runHook_Execute quiet_callbacks info st).
Proof.
  unfold runHook_Execute, runHook_beforeHook, set_hookFound. simpl.
  repeat (apply quiet_finish_calm || calm_step).
Qed.

Lemma quiet_commit_calm info st : calmly (runHook_Commit quiet_callbacks info st).
Proof. unfold runHook_Commit, runHook_commitChange. simpl. repeat calm_step. Qed.

Lemma quiet_runHook_steps info step st s o s' :
  untouched s →
  step_run step (runHook quiet_callbacks (quiet_runners md) info) st s = (o, s') →
  untouched s'.
Proof.
  intros Hs. destruct step; simpl; unfold simple_step, full_step.
  - destruct (runHook_Prepare _ _ _ _ _) as [r s1] eqn:E.
    apply quiet_prepare_calm in E; [|done]. destruct r; naive_solver.
  - destruct (runHook_Execute _ _ _ _) as [r s1] eqn:E.
    apply quiet_execute_calm in E; [|done]. destruct r; naive_solver.
  - destruct (runHook_Commit _ _ _ _) as [r s1] eqn:E.
    apply quiet_commit_calm in E; [|done]. destruct r; naive_solver.
Qed.
End quiet_hooks.

Lemma quiet_runHook_leaves {W} md info (stored : W → string) :
  leaves_stored stored (runHook quiet_callbacks (quiet_runners md) info).
Proof.
  exists (λ f, f_runner f = None ∨ f_runner f = Some (quiet_runner md)).
  split; [by left|]. intros step st f w o f' w' Hf H.
  eapply (quiet_runHook_steps stored (stored w)) in H; [exact H|done].
Qed.

Lemma quiet_deploy_leaves {W} kind url revert resolved (stored : W → string) :
  leaves_stored stored (deploy quiet_callbacks quiet_deployer kind url revert resolved).
Proof.
  exists (λ _, True). split; [done|]. intros step st f w o f' w' _ H.
  destruct step; simpl in H; unfold simple_step, deploy_Prepare, deploy_Execute,
    deploy_Commit, liftW in H; munfold; repeat case_match; by simplify_eq/=.
Qed.

Lemma executor_crash_recovery_witness :
  NewExecutor "mysql/0"
    (MkExecutorConfig _ (Some text_rw) install_queued free_lock true)
    (run_events text_rw free_lock install_run (agent_in install_queued, "")).2
  = (Ok (MkExecutor "mysql/0" (x_state
       (run_events text_rw free_lock install_run (agent_in install_queued, "")).1)),
     (run_events text_rw free_lock install_run (agent_in install_queued, "")).2).
Proof.
  eapply (executor_crash_recovery text_rw id install_queued free_lock install_run
           (agent_in install_queued) "" "mysql/0" free_lock).
  - apply OpState_yaml_roundtrip.
  - split; simpl; intros; simplify_eq; naive_solver.
  - intros l g w r w' H. unfold free_lock, mret, M_ret in H. simplify_eq.
    split; [done|]. by intros rel ? [= <-].
  - unfold install_run. rewrite !Forall_cons. split_and!;
      [apply quiet_deploy_leaves|apply quiet_runHook_leaves..|apply Forall_nil_2].
  - exists install_queued. split_and!; [done|vm_compute; reflexivity|by right].
  - done.
Defined.

Lemma NewExecutor_unreadable_state_witness :
  ∃ x, NewExecutor "mysql/0"
         (MkExecutorConfig _ (Some text_rw) install_queued free_lock true) "%"
         = (Ok x, "%")
       ∧ executor_State x = Err (GoPanic "nil pointer dereference")
       ∧ ∀ (op : operation string) s, executor_Skip text_rw op (x, s)
         = (Err (GoPanic "nil pointer dereference"), (x, s)).
Proof.
  eapply (NewExecutor_unreadable_state text_rw "mysql/0" install_queued free_lock
            "%"); [reflexivity|discriminate|vm_compute; reflexivity].
Defined.


Lemma factory_operations_lifecycle_witness :
  lifecycle (runHook_commitFlags (hook.info_of_kind hooks.Stop)
    (stateChange_apply (MkChange Continue Pending None None None "" false)
       (hook_pending (hook.info_of_kind hooks.Stop))))
  = (true, true, true, false, false).
Proof.
  eapply (factory_operations_lifecycle quiet_factory
    (ReqRunHook (hook.info_of_kind hooks.Stop)) "" _ "" stepCommit
    (hook_pending (hook.info_of_kind hooks.Stop)) (no_fields, "")
    _ None (no_fields, "")); reflexivity.
Defined.

Definition upgrade_run : result () * (executor * string) :=
  executor_Run text_rw free_lock
    (deploy quiet_callbacks quiet_deployer Upgrade "ch:mysql-2" false false)
    (agent_in (hook_pending (hook.info_of_kind hooks.ConfigChanged)), "").

Lemma upgrade_keeps_interrupted_hook_witness :
  ∃ st', x_state upgrade_run.2.1 = Some st'
    ∧ (Kind st' = RunHook ∨ Kind st' = Upgrade)
    ∧ Hook st' = Some (hook.info_of_kind hooks.ConfigChanged)
    ∧ HookStep st' = Some Pending
    ∧ lifecycle st' = (true, false, true, false, false).
Proof.
  apply (upgrade_keeps_interrupted_hook text_rw free_lock quiet_callbacks
    quiet_deployer "ch:mysql-2" false false _
    (hook_pending (hook.info_of_kind hooks.ConfigChanged))
    (agent_in (hook_pending (hook.info_of_kind hooks.ConfigChanged))) ""
    upgrade_run.1 upgrade_run.2.1 upgrade_run.2.2);
    [reflexivity|by left|reflexivity|].
  unfold upgrade_run. by destruct (executor_Run _ _ _ _) as [r [x' w']].
Defined.

Definition rotate_hook : hook.Info :=
  hook.secret_info hooks.SecretRotate "s:9m4e" 0 "".

Definition app_owned_secret : gmap string SecretMetadata :=
  {["9m4e" := MkSecretMetadata false 3]}.

Lemma secret_rotate_commit_without_runner_witness :
  (executor_Run text_rw free_lock (skipOperation
     (runHook quiet_callbacks (quiet_runners app_owned_secret) rotate_hook))
     (agent_in (hook_pending rotate_hook), "")).1
    = Err (GoPanic "nil pointer dereference")
  ∧ (with_fields (runHook quiet_callbacks (quiet_runners app_owned_secret) rotate_hook)
      (executor_steps text_rw
        (runHook quiet_callbacks (quiet_runners app_owned_secret) rotate_hook))
      (agent_in (hook_pending rotate_hook), "")).1
    = Err (GoPanic "nil pointer dereference").
Proof.
  destruct (secret_rotate_commit_without_runner text_rw free_lock quiet_callbacks
    (quiet_runners app_owned_secret) rotate_hook (hook_pending rotate_hook)
    (agent_in (hook_pending rotate_hook)) "" "") as [H1 H2]; [reflexivity..|].
  split; [exact H1|]. eapply H2; reflexivity.
Defined.
