(* ===== verification/RelationSamples.v ===== *)
(** * Relation samples

    A unit mysql/0 related to the application wordpress by relation 7, with its
    state manager, tracker and controller, and the theorems on relations
    applied to it. *)

From stdpp Require Import countable.
From S2P Require Import Prelude Hooks OpState RelationState RelationManager Operations Resolver.
From S2P Require Import RelationTracker TrackerFacts RelationResolver RelationProgress Samples.
Import life hooks hook.

(** ** The world *)

Record rel_world : Type := MkRelWorld {
  rlw_tracker : Tracker;
  rlw_states : gmap Z RelState;
  rlw_saved : gmap Z string;
}.

Definition tracker_lens : lens rel_world Tracker :=
  MkLens rlw_tracker (λ t w, MkRelWorld t (rlw_states w) (rlw_saved w)).
Definition states_lens : lens rel_world (gmap Z RelState) :=
  MkLens rlw_states (λ m w, MkRelWorld (rlw_tracker w) m (rlw_saved w)).

#[global] Instance tracker_lens_laws : LensLaws tracker_lens.
Proof. by split. Qed.
#[global] Instance states_lens_laws : LensLaws states_lens.
Proof. by split. Qed.
#[global] Instance tracker_states_apart : Apart tracker_lens rlw_states.
Proof. by split. Qed.

#[global] Instance in_order {W} : MapOrder W := {| range _ _ l := l |}.
#[global] Instance in_order_laws {W} : MapOrderLaws W.
Proof. by split. Qed.

#[global] Instance RelState_countable : Countable RelState.
Proof.
  refine (inj_countable'
    (λ '(MkRelState a b c d), (a, b, c, d))
    (λ '(a, b, c, d), MkRelState a b c d) _).
  by intros [].
Defined.
#[global] Instance RelState_yaml : Yaml RelState := countable_yaml.

(** The controller keeps the relation states; it knows no units. *)
Definition saved_rw : UnitRelationRW rel_world := {|
  rrw_State w := (Ok (rlw_saved w), w);
  rrw_SetState m w := (Ok (), MkRelWorld (rlw_tracker w) (rlw_states w) m);
|}.
Definition no_units (_ : string) : M rel_world () := throw (ErrCode CodeNotFound).

Definition sample_manager : StateManager rel_world := {|
  sm_Relation := stateManager_Relation states_lens;
  sm_RemoveRelation := stateManager_RemoveRelation states_lens saved_rw no_units;
  sm_KnownIDs := stateManager_KnownIDs states_lens;
  sm_SetRelation := stateManager_SetRelation states_lens saved_rw;
  sm_RelationFound := stateManager_RelationFound states_lens;
|}.

Definition db_endpoint : Endpoint :=
  MkEndpoint "db" RoleProvider "mysql" ScopeGlobal.
Definition db_relation : ApiRelation := MkApiRelation 7 "wordpress".

Definition sample_api : TrackerAPI rel_world := {|
  api_RelationsStatus := mret [MkRelationStatus "relation-wordpress.db#mysql.db" false true];
  api_Relation _ := mret db_relation;
  api_RelationById id :=
    if decide (id = 7%Z) then mret db_relation else throw (ErrCode CodeNotFound);
  api_Endpoint _ := mret db_endpoint;
  api_RelationUnit rel := mret (MkRelationUnit rel db_endpoint);
  api_SetStatus _ _ := mret ();
  api_UpdateSuspended _ _ w := w;
  api_EnterScope _ := mret ();
  api_LeaveScope _ := mret ();
  api_Watch := mret [UnitChanged];
  api_StopWatcher := mret ();
  api_Destroy := mret ();
  api_Life := mret (Alive, Alive);
  api_IsLeader := mret true;
  api_CharmMeta := mret (MkCharmMeta {["db" := db_endpoint]} ∅ ∅);
|}.

Definition empty_world : rel_world := MkRelWorld (MkTracker ∅ ∅ ∅ ∅) ∅ ∅.

(** ** Relation hooks *)

Definition joined_hook : Info :=
  relation_info RelationJoined 7 "wordpress/0" "wordpress" 1 "".
Definition changed_hook : Info :=
  relation_info RelationChanged 7 "wordpress/0" "wordpress" 1 "".
Definition departed_hook : Info :=
  relation_info RelationDeparted 7 "wordpress/0" "wordpress" 1 "wordpress/0".
Definition broken_hook : Info :=
  relation_info RelationBroken 7 "" "wordpress" 0 "".

Definition one_member : RelState :=
  MkRelState 7 (Some {["wordpress/0" := 1%Z]}) (Some ∅) "".

Lemma one_member_wf : RelState_wf one_member.
Proof. by split. Qed.

Lemma relation_hooks_follow_unit_life_witness :
  unit_path [RelationJoined; RelationChanged; RelationDeparted] Absent Absent.
Proof.
  apply (relation_hooks_follow_unit_life (NewRelState 7)
    [joined_hook; changed_hook; departed_hook] (NewRelState 7) "wordpress/0").
  - apply NewRelState_wf.
  - by repeat constructor.
  - done.
  - vm_compute. reflexivity.
Defined.

Lemma relation_hooks_guaranteed_order_witness :
  (Kind joined_hook = RelationJoined →
     Kind changed_hook = RelationChanged
     ∧ RemoteUnit changed_hook = RemoteUnit joined_hook)
  ∧ ∃ s1, apply_hooks (NewRelState 7) [] = Ok s1 ∧
     (Kind joined_hook = RelationBroken → ∀ u, phase s1 u = Absent).
Proof.
  apply (relation_hooks_guaranteed_order (NewRelState 7) [] joined_hook changed_hook
    [departed_hook; broken_hook] (NewRelState 7)).
  - apply NewRelState_wf.
  - by repeat constructor.
  - vm_compute. reflexivity.
Defined.

Lemma UpdateStateForHook_idempotent_witness :
  RelState_UpdateStateForHook one_member changed_hook = Ok one_member.
Proof.
  apply (UpdateStateForHook_idempotent
    (MkRelState 7 (Some {["wordpress/0" := 0%Z]}) (Some ∅) "") changed_hook).
  vm_compute. reflexivity.
Defined.

(** ** The state manager *)

Lemma saved_rw_keeps m : keeps (view states_lens) (rrw_SetState saved_rw m).
Proof. intros w r w' H. simpl in H. by simplify_eq. Qed.

Lemma no_units_keeps {U} (g : rel_world → U) u : keeps g (no_units u).
Proof. apply keeps_throw. Qed.

Lemma stateManager_refines_map_witness :
  StateManagerSpec sample_manager rlw_states.
Proof.
  apply (stateManager_refines_map states_lens saved_rw no_units).
  - apply saved_rw_keeps.
  - intros u. apply no_units_keeps.
Defined.

Definition manager_events : list mgr_event :=
  [MgrSet one_member; MgrSet (NewRelState 8); MgrRemove 8 ∅].


(** ** The tracker *)

Lemma sample_SetRelation_keeps st :
  keeps rlw_tracker (sm_SetRelation sample_manager st).
Proof.
  intros w r w' H. apply (SetRelation_inv states_lens saved_rw) in H
    as [(e & _ & ->)|(texts & t & r1 & w1 & _ & _ & HS & _ & ->)]; [done|].
  simpl in HS. simplify_eq/=. done.
Qed.

Lemma sample_RemoveRelation_keeps id known :
  keeps rlw_tracker (sm_RemoveRelation sample_manager id known).
Proof.
  intros w r w' H. apply (RemoveRelation_inv states_lens saved_rw no_units) in H
    as [(e & w1 & _ & -> & Hk)|(texts & k' & r1 & w0 & w1 & Hk & _ & HS & _ & ->)].
  - apply Hk. intros. apply no_units_keeps.
  - simpl in HS. simplify_eq/=. apply Hk. intros. apply no_units_keeps.
Qed.

#[global] Instance sample_env : TrackerEnv tracker_lens sample_manager sample_api rlw_states.
Proof.
  split; try apply _; simpl; intros; try apply keeps_ret;
    try (by repeat case_decide; munfold; simplify_eq).
  - apply (stateManager_spec states_lens saved_rw no_units);
      [apply saved_rw_keeps|intros; apply no_units_keeps].
  - apply sample_SetRelation_keeps.
  - apply sample_RemoveRelation_keeps.
  - case_decide; [apply keeps_ret|apply keeps_throw].
Qed.

Definition db_snapshot : RelationSnapshot :=
  MkRelationSnapshot Alive false {["wordpress/0" := 1%Z]} {["wordpress" := 2%Z]}.

Definition created_hook : Info :=
  relation_info RelationCreated 7 "" "wordpress" 0 "".

Definition tracker_events : list (trk_event (W:=rel_world)) :=
  TrkSync {[7%Z := db_snapshot]}
  :: map (λ hi, TrkHook hi (mret ()))
       [created_hook; joined_hook; changed_hook; departed_hook; broken_hook].

Definition tracker_run : result (list Info) * rel_world :=
  trk_runs tracker_lens sample_manager sample_api false "" tracker_events empty_world.

Lemma empty_world_ok : tracker_ok tracker_lens rlw_states empty_world.
Proof. split; [split; [done|]|]; by intros id s. Qed.

Lemma tracker_events_quiet :
  Forall (body_keeps tracker_lens rlw_states) tracker_events.
Proof.
  unfold tracker_events. simpl. repeat constructor; try done; simpl; apply keeps_ret.
Qed.

Lemma tracker_run_ok :
  tracker_run = (Ok [created_hook; joined_hook; changed_hook; departed_hook; broken_hook],
                 tracker_run.2).
Proof. rewrite (surjective_pairing tracker_run) at 1. f_equal. Qed.


Lemma tracker_hooks_follow_unit_life_witness :
  unit_life [RelationJoined; RelationChanged; RelationDeparted] Absent
    (phase_of (rlw_states tracker_run.2) 7 "wordpress/0").
Proof.
  apply (tracker_hooks_follow_unit_life tracker_lens sample_manager sample_api rlw_states
    false "" tracker_events empty_world
    [created_hook; joined_hook; changed_hook; departed_hook; broken_hook]
    tracker_run.2 7 "wordpress/0").
  - apply empty_world_ok.
  - apply tracker_events_quiet.
  - apply tracker_run_ok.
  - by repeat constructor.
  - done.
Defined.

Lemma loadInitialState_ignores_suspended_witness :
  tracker_loadRelations tracker_lens sample_manager sample_api
    [MkRelationStatus "relation-wordpress.db#mysql.db" true false] empty_world
  = tracker_loadRelations tracker_lens sample_manager sample_api
    [MkRelationStatus "relation-wordpress.db#mysql.db" false false] empty_world.
Proof.
  apply (loadInitialState_ignores_suspended tracker_lens sample_manager sample_api);
    reflexivity.
Defined.

(** An agent that starts with the saved state of relation 7. *)
Definition saved_world : rel_world :=
  MkRelWorld (MkTracker ∅ ∅ ∅ ∅) {[7%Z := one_member]} ∅.

Definition loaded : result () * rel_world :=
  tracker_loadInitialState tracker_lens sample_manager sample_api saved_world.

Lemma loadInitialState_establishes_witness :
  tracker_ok tracker_lens rlw_states loaded.2
  ∧ is_Some (t_relationers (rlw_tracker loaded.2) !! 7%Z).
Proof.
  split; [|by eexists].
  apply (loadInitialState_establishes tracker_lens sample_manager sample_api rlw_states
    saved_world).
  - intros id s. simpl. rewrite lookup_singleton_Some. intros [<- <-].
    split; [apply one_member_wf|done].
  - done.
  - rewrite (surjective_pairing (tracker_loadInitialState _ _ _ _)). f_equal.
Defined.

(** ** The resolver *)

Definition sample_tracker : RelationStateTracker rel_world :=
  relationStateTracker tracker_lens sample_manager sample_api false "" "mysql/0".

(** Another unit of wordpress than the one the relation has. *)
Definition other_member : RelState :=
  MkRelState 7 (Some {["wordpress/1" := 4%Z]}) (Some ∅) "".

Lemma other_member_wf : RelState_wf other_member.
Proof. by split. Qed.

Lemma other_member_names r :
  r = db_snapshot ∨ r = zero_RelationSnapshot → relation_names other_member r.
Proof.
  intros Hr. split.
  - intros u Hu. destruct Hr as [-> | ->]; vm_compute in Hu.
    + assert (u = "wordpress/0" ∨ u = "wordpress/1") as [-> | ->].
      { assert (u ∈ ({["wordpress/0"; "wordpress/1"]} : gset string)) by exact Hu.
        set_solver. }
      all: split; [done|]; exists "wordpress"; by split.
    + assert (u = "wordpress/1") as ->.
      { assert (u ∈ ({["wordpress/1"]} : gset string)) by exact Hu. set_solver. }
      split; [done|]. exists "wordpress". by split.
  - by destruct Hr as [-> | ->].
Qed.

Lemma sample_answers : tracker_answers sample_tracker (λ w, w = loaded.2) 7.
Proof.
  split; intros w ->.
  - by exists Alive, Alive, loaded.2.
  - by exists (Ok false), loaded.2.
Qed.

Lemma sample_breakable : breakable sample_tracker (λ w, w = loaded.2) 7.
Proof.
  split; intros w ->.
  - by exists Alive, Alive, loaded.2.
  - by exists loaded.2.
  - by exists loaded.2.
  - by exists "", loaded.2.
Qed.

Lemma relation_resolver_converges_witness :
  ∃ his s' w',
    resolve_relation sample_tracker 5 other_member db_snapshot false loaded.2
      = (Ok (Some (his, s')), w')
    ∧ Forall (λ hi, Info_Validate hi = Ok () ∧ relation_hook hi) his
    ∧ apply_hooks other_member his = Ok s'
    ∧ agrees s' db_snapshot ∧ length his ≤ 4.
Proof.
  apply (relation_resolver_converges sample_tracker (λ w, w = loaded.2) other_member
    db_snapshot loaded.2).
  - apply other_member_wf.
  - apply other_member_names. by left.
  - apply sample_answers.
  - done.
Defined.

Lemma relation_resolver_breaks_witness :
  ∃ his app s' w' brk,
    brk = relation_info RelationBroken 7 "" app 0 "" ∧
    resolve_relation sample_tracker 3 other_member zero_RelationSnapshot true loaded.2
      = (Ok (Some (his ++ [brk], s')), w')
    ∧ apply_hooks other_member his = Ok s' ∧ members s' = ∅
    ∧ RelState_Validate s' brk = Ok () ∧ Info_Validate brk = Ok ()
    ∧ length his ≤ 2.
Proof.
  apply (relation_resolver_breaks sample_tracker (λ w, w = loaded.2) other_member
    loaded.2).
  - apply other_member_wf.
  - apply other_member_names. by right.
  - apply sample_breakable.
  - done.
Defined.
