(* ===== verification/AgentSamples.v ===== *)
(** * Samples for the agent

    A smooth world for the agent's loop: an executor, the local state, the
    retry timer and the text on the controller, with a charm whose hooks do
    nothing; the resolvers of an agent without relations, storage or secrets. *)

From S2P Require Import Prelude Hooks OpState Operations OperationFacts Resolver.
From S2P Require Import RelationState RelationTracker SmallResolvers Storage Secrets.
From S2P Require Import UniterResolver RemoteState Uniter AgentProgress UniterFacts Samples.
Import life operation.

(** ** A unit that lives and dies *)

Record agent_world : Type := MkAgentWorld {
  aw_executor : executor;
  aw_local : LocalState;
  aw_timer : bool;
  aw_saved : string;
}.

Definition aw_LX : lens agent_world executor :=
  MkLens aw_executor (λ x w, MkAgentWorld x (aw_local w) (aw_timer w) (aw_saved w)).
Definition aw_LS : lens agent_world LocalState :=
  MkLens aw_local (λ l w, MkAgentWorld (aw_executor w) l (aw_timer w) (aw_saved w)).
Definition aw_RT : lens agent_world bool :=
  MkLens aw_timer (λ b w, MkAgentWorld (aw_executor w) (aw_local w) b (aw_saved w)).

Definition aw_rw : UnitStateReadWriter agent_world := {|
  rw_State w := (Ok (aw_saved w), w);
  rw_SetState data w :=
    (Ok (), MkAgentWorld (aw_executor w) (aw_local w) (aw_timer w) data);
|}.

Definition no_operation {W} : Resolver W := λ _ _, throw ErrNoOperation.

Definition quiet_config : ResolverConfig agent_world := {|
  rc_ClearResolved := mret ();
  rc_ReportHookError _ := mret ();
  rc_ShouldRetryHooks := true;
  rc_StartRetryHookTimer w := w;
  rc_StopRetryHookTimer w := w;
  rc_Reboot := no_operation;
  rc_Leadership := no_operation;
  rc_Actions := no_operation;
  rc_CreatedRelations := no_operation;
  rc_Relations := no_operation;
  rc_Storage := no_operation;
  rc_Commands := no_operation;
  rc_Secrets := no_operation;
  rc_OptionalResolvers := [no_operation];
  rc_wrench _ _ := false;
|}.

Definition quiet_loop (sn : Snapshot) : LoopConfig agent_world := {|
  lc_Resolver := uniterResolver_NextOp quiet_config aw_RT;
  lc_Snapshot _ := sn;
  lc_Factory := NewFactory quiet_factory;
  lc_OnIdle := None;
  lc_Unlock := mret ();
  lc_Lockdown := mret ();
  lc_haveCharmDir _ := true;
  lc_wait w := (Aborted, w);
  lc_changes w := ([], w);
|}.

Lemma smooth_ret {A} (a : A) sn :
  smooth aw_LS aw_LX aw_RT (quiet_loop sn) (mret a : M agent_world A).
Proof. intros w. by exists a, w. Qed.

Lemma quiet_smooth_world sn :
  smooth_world aw_LS aw_LX aw_RT aw_rw free_lock quiet_factory (quiet_loop sn).
Proof.
  split; try done; try apply OpState_yaml_roundtrip; try (intros; apply smooth_ret).
  - intros data w. by eexists (), _.
  - intros l g w. by eexists _, w.
  - intros k w. by exists w.
  - intros hi w. eexists _, w. split_and!; [done|done|].
    split; try (intros; apply smooth_ret); [done|].
    intros name w'. by eexists _, w'.
Qed.

Lemma quiet_config_quiet : quiet quiet_config.
Proof. by split; repeat constructor. Qed.
Lemma quiet_agent_loop sn : agent_loop aw_RT quiet_factory quiet_config (quiet_loop sn).
Proof. by split. Qed.

(** A unit that is alive with a configuration not seen yet, and one that dies. *)
Definition new_unit_snapshot : Snapshot :=
  set_unit Alive "" ResolvedNone
    (set_ConfigHash "config" "config" (set_AddressesHash "addresses" zero_Snapshot)).
Definition dying_snapshot : Snapshot := set_unit Dying "" ResolvedNone zero_Snapshot.

Definition fresh_state : OpState :=
  MkOpState false false false false false false RunHook Queued
    (Some (hook.info_of_kind hooks.Install)) None None "" "" "" "".
Definition running_state : OpState :=
  MkOpState false true false true false false Continue Pending None None None "" "" "" "".

Definition local_of (st : OpState) : LocalState :=
  MkLocalState st 0 "" false false 0 0 false.
Definition world_of (st : OpState) : agent_world :=
  MkAgentWorld (agent_in st) (local_of st) false "".

Lemma world_ready st sn :
  ready aw_LS aw_LX aw_RT (quiet_loop sn) sn st (local_of st) (world_of st).
Proof. by split. Qed.



(** ** A unit whose hook failed *)

(** The world of the resolvers of an agent: the reboot and storage flags, and the
    storage attachments. *)
Definition parts_world : Type := bool * bool * Attachments.

Definition parts_reboot : lens parts_world bool :=
  MkLens (λ w, w.1.1) (λ b w, (b, w.1.2, w.2)).
Definition parts_dying : lens parts_world bool :=
  MkLens (λ w, w.1.2) (λ b w, (w.1.1, b, w.2)).
Definition parts_attachments : lens parts_world Attachments :=
  MkLens snd (λ a w, (w.1, a)).

#[global] Instance parts_order : MapOrder parts_world := {| range A _ l := l |}.

Definition no_relations {W} : RelationStateTracker W := {|
  rt_PrepareHook _ := throw (NotFound "relation");
  rt_CommitHook _ := throw (NotFound "relation");
  rt_SynchronizeScopes _ := mret ();
  rt_IsKnown _ := mret false;
  rt_IsImplicit _ := throw (NotFound "relation");
  rt_IsPeerRelation _ := throw (NotFound "relation");
  rt_HasContainerScope _ := throw (NotFound "relation");
  rt_RelationCreated _ := mret false;
  rt_RemoteApplication _ := mret "";
  rt_State _ := throw (NotFound "relation");
  rt_StateFound _ := mret false;
  rt_LocalUnitName := "mysql/0";
  rt_LocalUnitAndApplicationLife := mret (Alive, Alive);
|}.

Definition no_storage {W} : StorageAPI W := {|
  st_UnitStorageAttachments := mret [];
  st_DestroyUnitStorageAttachments := mret ();
  st_RemoveStorageAttachment _ := mret ();
|}.

Definition no_secrets {W} : SecretStateTracker W := {|
  sec_ConsumedSecretRevision _ := mret 0%Z;
  sec_CollectRemoved m := mret (∅, m);
  sec_SecretObsoleteRevisions _ := mret [];
|}.

Definition plain_parts : AgentParts parts_world := {|
  ap_modelType := IAAS;
  ap_clearResolved := mret ();
  ap_reportHookError _ := mret ();
  ap_ShouldRetry := true;
  ap_StartTimer w := w;
  ap_StopTimer w := w;
  ap_rebootDetected := false;
  ap_reboot := parts_reboot;
  ap_actionCompleted _ w := w;
  ap_tracker := no_relations;
  ap_destroySubordinates := mret ();
  ap_attachments := parts_attachments;
  ap_storageDying := parts_dying;
  ap_storageAPI := no_storage;
  ap_getCommand _ w := (MkCommandArgs "" (-1) "" false, None);
  ap_removeCommand _ w := w;
  ap_commandCompleted _ w := w;
  ap_secrets := no_secrets;
  ap_rotateCompleted _ w := w;
  ap_expireCompleted _ w := w;
  ap_removeSecretsCompleted _ w := w;
  ap_containerNames := [];
  ap_getEvent _ w := Err (NotFound "workload event");
  ap_removeEvent _ w := w;
  ap_eventCompleted _ w := w;
  ap_wrench _ _ := false;
|}.

Definition failed_state : OpState := hook_pending (hook.info_of_kind hooks.ConfigChanged).
Definition retry_snapshot : Snapshot := set_unit Alive "" ResolvedRetryHooks zero_Snapshot.

