(* ===== verification/StorageSamples.v ===== *)
(** * Storage and secret samples

    A unit with one storage attachment and a controller that keeps the storage
    state as a text; a unit that consumes one secret and owns another; the
    theorems on storage and secrets applied to them. *)

From S2P Require Import Prelude Hooks OpState Operations Resolver Storage StorageFacts.
From S2P Require Import SmallResolvers Secrets SecretsFacts UniterResolver RemoteState.
From S2P Require Import Samples RelationSamples.
Import life operation.

(** ** Storage *)

Record stor_world : Type := MkStorWorld {
  stw_attachments : Attachments;
  stw_dying : bool;
  stw_saved : string;
  stw_listed : list string;
}.

Definition stw_at : lens stor_world Attachments :=
  MkLens stw_attachments
    (λ a w, MkStorWorld a (stw_dying w) (stw_saved w) (stw_listed w)).
Definition stw_dy : lens stor_world bool :=
  MkLens stw_dying
    (λ b w, MkStorWorld (stw_attachments w) b (stw_saved w) (stw_listed w)).

#[global] Instance storage_yaml : Yaml (gmap string bool) := countable_yaml.

Definition stor_rw : UnitStorageRW stor_world := {|
  srw_State w := (Ok (stw_saved w), w);
  srw_SetState data w :=
    (Ok (), MkStorWorld (stw_attachments w) (stw_dying w) data (stw_listed w));
|}.
Definition stor_api : StorageAPI stor_world := {|
  st_UnitStorageAttachments w := (Ok (stw_listed w), w);
  st_DestroyUnitStorageAttachments := mret ();
  st_RemoveStorageAttachment id w :=
    (Ok (), MkStorWorld (stw_attachments w) (stw_dying w) (stw_saved w)
              (filter (λ i, i ≠ id) (stw_listed w)));
|}.

#[global] Instance stor_world_ok : StorageWorld stw_at stw_dy stor_rw stor_api.
Proof.
  split; [by split| | |apply keeps_ret|by split]; intros x w r w' H; simpl in H; by simplify_eq.
Qed.

Lemma stor_store : storage_store stw_at stor_rw stor_api stw_saved.
Proof.
  split; try done.
  - intros data w r w' H. simpl in H. simpl in H. by simplify_eq.
  - intros w r w' H. simpl in H. by simplify_eq.
  - intros w r w' H. simpl in H. by simplify_eq.
  - intros id w r w' H. simpl in H. by simplify_eq.
  - intros m data. apply (countable_yaml_unmarshal m).
Qed.

(** A unit with the storage data/0, provisioned and not attached yet. *)
Definition stor_unit : stor_world :=
  MkStorWorld (MkAttachments {["data/0"]} ∅) false "" ["data/0"].
Definition attached_hook : hook.Info := hook.storage_info hooks.StorageAttached "data/0".
Definition detaching_hook : hook.Info := hook.storage_info hooks.StorageDetaching "data/0".

Definition stor_attached : stor_world :=
  (Attachments_CommitHook stw_at stor_rw stor_api attached_hook stor_unit).2.
Definition stor_detached : stor_world :=
  (Attachments_CommitHook stw_at stor_rw stor_api detaching_hook stor_attached).2.


(** The snapshot of the storage, alive and provisioned. *)
Definition stor_snapshot : Snapshot :=
  set_Storage {["data/0" := MkStorageSnapshot StorageKindFilesystem Alive true "/srv/data"]}
    zero_Snapshot.
Definition stor_local : LocalState :=
  MkLocalState (MkOpState false true false true false false Continue Pending None None None
    "" "" "" "") 0 "" false false 0 0 false.

Lemma quiet_NewRunHook_keeps hi :
  keeps (storage_of stw_at) (NewRunHook (NewFactory (quiet_factory (W:=stor_world))) hi).
Proof.
  intros w r w' H. simpl in H. unfold factory_NewRunHook in H. munfold.
  destruct (hook.Info_Validate hi); by simplify_eq.
Qed.

Lemma storage_resolver_proposes_due_hooks_witness :
  ∃ op s', storageResolver_NextOp stw_at stw_dy stor_api IAAS stor_local
      (NewFactory quiet_factory) (stor_snapshot, stor_unit) = (Ok op, s') ∧
    ∃ tag snap k w1 w2, sn_Storage s'.1 !! tag = Some snap
      ∧ due snap (is_attached tag (storage_of stw_at s'.2)) k
      ∧ NewRunHook (NewFactory quiet_factory) (hook.storage_info k tag) w1 = (Ok op, w2)
      ∧ (sn_Life stor_snapshot = Dying → k = hooks.StorageDetaching)
      ∧ Attachments_ValidateHook stw_at (hook.storage_info k tag) s'.2 = (Ok (), s'.2).
Proof.
  destruct (storageResolver_NextOp stw_at stw_dy stor_api IAAS stor_local
    (NewFactory quiet_factory) (stor_snapshot, stor_unit)) as [r [sn' w']] eqn:E.
  assert (is_ok r = true) as Hr.
  { change (is_ok (r, (sn', w')).1 = true). rewrite <- E. vm_compute. reflexivity. }
  destruct r as [op|]; [|discriminate Hr]. exists op, (sn', w'). split; [reflexivity|].
  apply (storage_resolver_proposes_due_hooks stw_at stw_dy stor_rw stor_api IAAS
    (NewFactory quiet_factory) stor_local stor_snapshot stor_unit op sn' w').
  - apply in_order_laws.
  - apply quiet_NewRunHook_keeps.
  - exact E.
Defined.

(** The agent restarted with the storage attached. *)
Definition stor_restarted : stor_world :=
  MkStorWorld (MkAttachments ∅ ∅) false (stw_saved stor_attached) (stw_listed stor_attached).

Lemma storage_survives_restart_witness :
  ∃ ids w', st_UnitStorageAttachments stor_api stor_restarted = (Ok ids, w')
    ∧ (∀ id, is_attached id (storage_of stw_at
          (Attachments_init stw_at stor_rw stor_api stor_restarted).2) = true ↔
         id ∈ ids ∧ is_attached id (storage_of stw_at stor_attached) = true)
    ∧ (∀ id, id ∈ at_pending (view stw_at
          (Attachments_init stw_at stor_rw stor_api stor_restarted).2) ↔
         id ∈ ids ∧ storage_of stw_at stor_attached !! id = None).
Proof.
  apply (storage_survives_restart stw_at stw_dy stor_rw stor_api stw_saved attached_hook
    stor_unit stor_attached stor_restarted).
  - apply in_order_laws.
  - apply stor_store.
  - vm_compute. reflexivity.
  - reflexivity.
  - reflexivity.
  - vm_compute. reflexivity.
Defined.

(** ** Secrets *)

#[global] Instance SecretsState_eq_dec : EqDecision SecretsState.
Proof. solve_decision. Defined.
#[global] Instance SecretsState_countable : Countable SecretsState.
Proof.
  refine (inj_countable' (λ '(MkSecretsState a b), (a, b)) (λ '(a, b), MkSecretsState a b) _).
  by intros [].
Defined.
#[global] Instance sample_secrets_yaml : SecretsYamlLib := {|
  secrets_Marshal := yaml_Marshal (Yaml:=countable_yaml);
  secrets_Unmarshal s :=
    st ← yaml_Unmarshal (Yaml:=countable_yaml) s;
    Ok (MkSecretsYaml (Some (ss_ConsumedSecretInfo st)) (Some (ss_SecretObsoleteRevisions st)));
|}.

(** The unit's secret state and the text on the controller. *)
Definition secret_world : Type := SecretsState * string.
Definition secret_lens : lens secret_world SecretsState := MkLens fst (λ s w, (s, w.2)).
#[global] Instance secret_lens_laws : LensLaws secret_lens.
Proof. by split. Qed.
Definition secret_rw : UnitSecretRW secret_world := {|
  secrw_State w := (Ok w.2, w);
  secrw_SetState data w := (Ok (), (w.1, data));
|}.

(** A unit that has seen revision 1 of the secret db and was told that revision 2 of
    the secret key is obsolete; the controller says that db is at revision 3. *)
Definition secrets_seen : SecretsState :=
  MkSecretsState {["s:db" := 1%Z]} {["s:key" := [2%Z]]}.
Definition secrets_snapshot : Snapshot :=
  set_unit Alive "" ResolvedNone (set_secrets {["s:db" := MkSecretRevisionInfo 3 "db-password"]}
    {["s:key" := [2%Z]]} ∅ zero_Snapshot).


Lemma removed_secrets_are_forgotten_witness :
  let w' := (Secrets_SecretsRemoved secret_lens secret_rw {["s:db" := []]}
    (CollectRemoved ∅ secrets_seen) (secrets_seen, "")).2 in
  ss_ConsumedSecretInfo w'.1 !! "s:db" = None ∧ CollectRemoved ∅ w'.1 = ∅.
Proof.
  intros w'.
  destruct (removed_secrets_are_forgotten secret_lens secret_rw
    (λ data w r w1 H, f_equal fst (eq_sym (f_equal snd H)))
    {["s:db" := []]} ∅ (secrets_seen, "") w') as (_ & Hc & He).
  - vm_compute. reflexivity.
  - split; [|exact He]. exact (Hc "s:db").
Defined.
