(* ===== verification/WatcherSamples.v ===== *)
(** * Samples for text, fortress and watcher

    Port ranges, a version and an assumes block; a run of a fortress with one
    guest; a watcher over a controller with one relation, and a heap of slices;
    the theorems applied to them. *)

From S2P Require Import Prelude GoText PortRange PortRangeFacts Version VersionFacts.
From S2P Require Import Assumes AssumesFacts Fortress FortressFacts.
From S2P Require Import Hooks OpState Operations Resolver Storage Secrets UniterResolver.
From S2P Require Import RemoteState RemoteFacts RemoteInvariant RemoteSlices.
Import life operation.

(** ** Text *)

Lemma CombinePortRanges_exact_witness :
  covers (CombinePortRanges [MkPortRange 80 90 "tcp"; MkPortRange 91 100 "tcp"]) "tcp" 95.
Proof.
  apply (CombinePortRanges_exact [MkPortRange 80 90 "tcp"; MkPortRange 91 100 "tcp"]).
  - repeat constructor; vm_compute; discriminate.
  - exists (MkPortRange 91 100 "tcp"). split; [right; left|]. vm_compute.
    split; [reflexivity|split; discriminate].
Defined.

Lemma Version_Parse_String_witness :
  Version_Parse "4.1-beta3.7" = Ok (MkNumber 4 1 "beta" 3 7) ∧
  Version_ParseNonStrict "4.1-beta3.7" = Ok (MkNumber 4 1 "beta" 3 7).
Proof.
  apply (Version_Parse_String (MkNumber 4 1 "beta" 3 7)).
  vm_compute. repeat split; discriminate.
Defined.

(** An assumes block: juju of at least 3.1 and below 5, or unitless. *)
Definition assumes_block : list any :=
  [AMap [(Some "any-of", AList [AString "unitless";
     AStringMap [("all-of", AList [AString "juju >=  3.1"; AString " juju < 5.0.0 "])]])]].

Lemma assumes_tree_roundtrip_witness :
  ∃ tree l', parseAssumesExpressionTree assumes_block = Ok tree ∧
    marshalAssumesExpressionTree tree = Ok l' ∧ parseAssumesExpressionTree l' = Ok tree.
Proof.
  destruct (parseAssumesExpressionTree assumes_block) as [tree|e] eqn:E.
  - exists tree. destruct (assumes_tree_roundtrip assumes_block tree E) as (l' & H).
    exists l'. split; [reflexivity|exact H].
  - vm_compute in E. discriminate E.
Defined.

(** ** Fortress *)

(** Unlocked, visited once and asked for a lockdown. *)
Definition fortress_before : list event :=
  [OnGuard 0 (GuardCall true); OnGuard 0 GuardAccept; OnGuard 0 GuardWait;
   OnGuard 0 GuardDone; OnVisit 0 VisitCall; OnVisit 0 VisitAccept; OnVisit 0 VisitEnter;
   OnGuard 1 (GuardCall false)].
Definition fortress_after : list event :=
  [OnGuard 1 GuardWait; OnVisit 0 (VisitReturn (Ok ())); OnVisit 0 VisitFinished;
   OnGuard 1 GuardWait; OnGuard 1 GuardDone].

Definition run_or_new (es : list event) (s : fortress) : fortress :=
  default newFortress (fortress_run es s).
Definition fortress_asked : fortress := run_or_new fortress_before newFortress.
Definition fortress_closed : fortress := run_or_new [OnGuard 1 GuardAccept] fortress_asked.
Definition fortress_locked : fortress := run_or_new fortress_after fortress_closed.

Lemma run_reachable es s s' :
  fortress_reachable s → fortress_run es s = Some s' → fortress_reachable s'.
Proof.
  revert s. induction es as [|e es IH]; simpl; intros s Hs H; [by simplify_eq|].
  apply bind_Some in H as (s1 & H1 & H). eapply IH; [|exact H]. by econstructor.
Qed.

Lemma fortress_asked_reachable : fortress_reachable fortress_asked.
Proof.
  eapply (run_reachable fortress_before newFortress); [constructor|by vm_compute].
Qed.
Lemma fortress_closed_reachable : fortress_reachable fortress_closed.
Proof.
  eapply (run_reachable [OnGuard 1 GuardAccept] fortress_asked);
    [apply fortress_asked_reachable|by vm_compute].
Qed.

Lemma lockdown_exclusive_witness : deserted fortress_locked.
Proof.
  eapply (lockdown_exclusive fortress_asked 1 (MkGuardTicket false false false WCall None)
    fortress_closed fortress_after fortress_locked
    (MkGuardTicket false false true WReturned (Some (Ok ()))));
    [apply fortress_asked_reachable|vm_compute; reflexivity|reflexivity|
     vm_compute; reflexivity|vm_compute; reflexivity| |vm_compute; reflexivity|reflexivity].
  repeat (split; [intros []|intros ? _]). exact I.
Defined.

Lemma guard_call_can_complete_witness :
  ∃ es s' t', fortress_run es fortress_closed = Some s' ∧ forallb internal es = true ∧
    fo_panic s' = false ∧ fo_guards s' !! 1 = Some t' ∧ gd_result t' = Some (Ok ()).
Proof.
  apply (guard_call_can_complete fortress_closed 1
    (MkGuardTicket false false true WCall None));
    [apply fortress_closed_reachable|vm_compute; reflexivity|vm_compute; reflexivity
    |reflexivity|reflexivity].
Defined.

(** [patient] as a test, and runs of a patient guard. *)
Definition patient_test (e : event) (s : fortress) : bool :=
  match e with
  | OnGuard _ (GuardCall _) =>
      forallb (λ p, match gd_result p.2 with Some _ => true | None => false end)
        (map_to_list (fo_guards s))
  | OnGuard _ GuardCancel => false
  | _ => true
  end.
Fixpoint patient_run (es : list event) (s : fortress) : bool :=
  match es with
  | [] => true
  | e :: es' =>
      patient_test e s
      && match fortress_step e s with Some s' => patient_run es' s' | None => false end
  end.

Lemma patient_test_ok e s : patient_test e s = true → patient e s.
Proof.
  destruct e as [| |k [b| | | | | |]| |]; simpl; try done. intros H k' t Hk Hr.
  rewrite forallb_forall in H. specialize (H (k', t)). simpl in H. rewrite Hr in H.
  discriminate H. apply list_elem_of_In. by apply elem_of_map_to_list.
Qed.

Lemma patient_run_reachable es s s' :
  patiently_reachable s → patient_run es s = true → fortress_run es s = Some s' →
  patiently_reachable s'.
Proof.
  revert s. induction es as [|e es IH]; simpl; intros s Hs Hp H; [by simplify_eq|].
  apply andb_true_iff in Hp as [Ht Hp]. apply bind_Some in H as (s1 & H1 & H).
  rewrite H1 in Hp. eapply IH; [|exact Hp|exact H].
  by econstructor; [| by apply patient_test_ok|].
Qed.

Lemma patient_guard_never_panics_witness : fo_panic fortress_locked = false.
Proof.
  apply (patient_guard_never_panics fortress_locked).
  apply (patient_run_reachable (fortress_before ++ [OnGuard 1 GuardAccept] ++ fortress_after)
    newFortress); [constructor|vm_compute; reflexivity|vm_compute; reflexivity].
Defined.

(** ** The watcher *)

(** A controller with one relation, over the watcher's fields and locals. *)
Definition watch_world : Type := RemoteStateWatcher * watcher_loop.
Definition watch_LR : lens watch_world RemoteStateWatcher := MkLens fst (λ r w, (r, w.2)).
Definition watch_LL : lens watch_world watcher_loop := MkLens snd (λ l w, (w.1, l)).

Definition db_key : string := "mysql:db wordpress:db".

Definition watch_api : RemoteAPI watch_world := {|
  ra_Unit := mret ();
  ra_Application := mret ();
  ra_Watch _ := mret ();
  ra_RefreshUnit := mret (Alive, "", ResolvedNone);
  ra_RefreshApplication := mret ();
  ra_CharmURL := mret ("ch:mysql-1", false);
  ra_CharmModifiedVersion := mret 1%Z;
  ra_GetConsumerSecretsRevisionInfo _ := mret ∅;
  ra_Relation tag :=
    if decide (tag = db_key) then mret (MkWatchedRelation 7 Alive false)
    else throw (ErrCode CodeNotFound);
  ra_WatchRelationUnits _ := mret ();
  ra_FirstRelationUnits _ :=
    mret (Some (MkRelationUnitsChange {["wordpress/0" := 1%Z]} ∅ []));
  ra_WrapRelationUnits _ := mret ();
  ra_StorageAttachmentLife keys := mret ((λ _, Ok Alive) <$> keys);
  ra_WatchStorageAttachment _ := mret ();
  ra_FirstStorageEvent _ := mret true;
  ra_StorageAttachment _ :=
    mret (MkStorageAttachment StorageKindFilesystem Alive "/srv/data");
  ra_NewStorageAttachmentWatcher _ := mret ();
  ra_UpdateStatusHookInterval := mret 300%Z;
  ra_ClaimLeader := mret true;
  ra_SecretRotateWatcher _ := mret ();
  ra_SecretExpiryWatcher _ := mret ();
  ra_WatchObsolete _ := mret ();
  ra_WatchDeleted _ := mret ();
  ra_Add _ := mret ();
  ra_Stop _ := mret ();
  ra_Kill _ := mret ();
|}.

Lemma watch_api_cases {A} (op : M watch_world A) :
  from_api watch_api op → ∀ w, op w = (Err (ErrCode CodeNotFound), w) ∨ ∃ a, op w = (Ok a, w).
Proof. intros H. destruct H; intros w; simpl; try case_decide; eauto. Qed.

#[global] Instance watch_world_ok : RemoteWorld watch_api watch_LR watch_LL.
Proof.
  split; try (by split). intros A op H w r w' E.
  destruct (watch_api_cases op H w) as [E'|[a E']]; rewrite E' in E; by simplify_eq.
Qed.

Lemma watch_api_behaves : api_behaves (λ _, db_key) watch_api.
Proof.
  split.
  - intros A op w e w' H E. destruct (watch_api_cases op H w) as [E'|[a E']];
      rewrite E' in E; by simplify_eq.
  - intros tag w rel w' E. simpl in E. by case_decide.
  - intros keys w results w' E. simpl in E. apply mret_inv in E as [[= ->] _].
    rewrite length_fmap. split; [done|]. apply Forall_fmap, Forall_true. done.
Qed.

Definition watch_config : WatcherConfig := MkWatcherConfig IAAS false 0 true [].
Definition new_watcher : RemoteStateWatcher :=
  MkWatcher IAAS false 0 ∅ ∅ ∅ false false false false false (set_WorkloadEvents [] zero_Snapshot).
Definition before_start : watch_world := (new_watcher, MkWatcherLoop 0 [] 0 None false false).
Definition started_watcher : watch_world := (loop_start watch_api watch_LR watch_LL before_start).2.

(** The first events, with an action and a storage. *)
Definition first_events : list watcher_event :=
  [EvUnit true; EvApplication true; EvSecrets (Some []); EvConfig (Some ["config"]);
   EvAddresses (Some ["addresses"]); EvActions (Some ["42"]); EvRelations (Some [db_key]);
   EvStorage (Some ["data/0"]); EvUpdateStatusInterval true; EvCommand (Some "run-1")].


Lemma started_watching : watching watch_api watch_LR watch_LL started_watcher.
Proof.
  eapply (watching_start _ _ _ watch_config new_watcher before_start);
    [reflexivity|constructor|reflexivity|vm_compute; reflexivity].
Qed.


Lemma pending_until_reported_witness :
  pending (WorkAction "42")
    (rw_current (watcher_step watch_api watch_LR watch_LL (EvActions (Some ["42"]))
      started_watcher).2.1).
Proof.
  apply (proj1 (pending_until_reported watch_api watch_LR watch_LL (λ _, db_key)
    started_watcher (EvActions (Some ["42"])) (Ok false)
    (watcher_step watch_api watch_LR watch_LL (EvActions (Some ["42"])) started_watcher).2
    (WorkAction "42") watch_api_behaves started_watching ltac:(vm_compute; reflexivity)));
    [reflexivity|].
  exists ["42"]. split; [reflexivity|left].
Defined.

(** ** Slices *)

Definition two_commands : slices :=
  MkSlices {[0 := ["run-1"; "run-2"]]}
    (λ f, if decide (f = FCommands) then Some (MkViewOf 0 2) else None).

Lemma two_commands_apart : apart_slices two_commands.
Proof.
  split.
  - intros f v. simpl. case_decide; [|done]. intros [= <-].
    exists ["run-1"; "run-2"]. split; [reflexivity|simpl; lia].
  - intros f f' v v'. simpl. repeat case_decide; naive_solver.
Qed.

Lemma snapshot_stays_witness :
  elements_of (sc_heap (slice_step (λ _ _, []) (take_snapshot two_commands).1
    (SRemove FCommands "run-1"))) ((take_snapshot two_commands).2 FCommands)
  = ["run-1"; "run-2"].
Proof.
  apply (snapshot_stays (λ _ _, []) two_commands (take_snapshot two_commands).1
    (take_snapshot two_commands).2 [SRemove FCommands "run-1"] FCommands);
    [apply two_commands_apart|apply surjective_pairing|discriminate].
Defined.
