(* ===== verification/LeadershipSamples.v ===== *)
(** * A tracker at work

    The theorems of LeadershipFacts.v at a tracker whose application has another
    leader at first: it waits for the lease, gets it, and renews it when a client
    asks after the renewal is due. *)

From S2P Require Import Prelude Leadership LeadershipFacts.

(** A world with a clock, the lease of the unit and the lease of another one, until
    when each is good. *)
Record desk : Type := MkDesk {
  dk_tracker : Leadership;
  dk_now : Z;
  dk_lease : Z;
  dk_other : Z;
}.
Definition dk_lens : lens desk Leadership :=
  MkLens dk_tracker (λ t w, MkDesk t (dk_now w) (dk_lease w) (dk_other w)).

Definition desk_claim (d : Z) : M desk () := λ w,
  if decide (dk_now w < dk_other w)%Z then (Err ErrClaimDenied, w)
  else (Ok (), MkDesk (dk_tracker w) (dk_now w) (dk_lease w `max` (dk_now w + d)) (dk_other w)).

Definition desk_api : LeadershipAPI desk := {|
  la_Now w := (dk_now w, w);
  la_After d w := ((dk_now w + d)%Z, w);
  la_ClaimLeadership := desk_claim;
  la_Dying w := (false, w);
  la_Renew due w := (match due with
                     | Some dl => if decide (dl ≤ dk_now w)%Z then RenewFired else RenewDefault
                     | None => RenewDefault
                     end, w);
|}.

#[export] Instance desk_world : LeadershipWorld dk_lens desk_api 30 dk_now dk_lease 0 (λ _, True).
Proof.
  split.
  - by split.
  - done.
  - done.
  - intros w n w' [= <- <-]. by split_and!.
  - intros d w due w' [= <- <-]. split; [simpl; lia|]. by split_and!.
  - intros w r w' _. simpl. unfold desk_claim. case_decide; intros [= <- <-]; simpl.
    + by split_and!.
    + split_and!; [done..|]. intros _. lia.
  - intros w b w' [= <- <-]. by split_and!.
  - intros due w c w' [= <- <-]. split; [by split_and!|].
    intros Hc dl ->. case_decide; [done|lia].
Qed.

(** Time passes; a turn of the loop. *)
Definition wait_until (n : Z) (w : desk) : desk :=
  MkDesk (dk_tracker w) n (dk_lease w) (dk_other w).
Definition desk_turn (e : leadership_event) (w : desk) : desk :=
  (tracker_handle dk_lens desk_api 30 e w).2.

Definition desk_opened : desk :=
  (refresh dk_lens desk_api 30 (MkDesk NewTracker 0 0 50)).2.
Definition desk_asked : desk := desk_turn (LvWaitLeader 1) (wait_until 10 desk_opened).
Definition desk_leading : desk := desk_turn (LvClaimLease (Some None)) (wait_until 60 desk_asked).
Definition desk_watched : desk := wait_until 95 (desk_turn (LvWaitMinion 2) desk_leading).

Abbreviation desk_tracking := (tracking dk_lens desk_api 30 dk_now dk_lease (λ _, True)).

Lemma wait_tracking n b D w :
  desk_tracking b D w → (dk_now w <=? n)%Z = true → desk_tracking b D (wait_until n w).
Proof.
  intros H Hn. eapply tracking_pass; [exact H|]. apply Z.leb_le in Hn. by split_and!.
Qed.

Lemma turn_tracking e b D D' w :
  desk_tracking b D w → can_come D e → cancels e = false → D' = submitted e ∪ D →
  (tracker_handle dk_lens desk_api 30 e w).1 = Ok () → desk_tracking b D' (desk_turn e w).
Proof.
  intros H He Hc -> Hok. rewrite <- (andb_true_r b). change true with (negb false).
  rewrite <- Hc. eapply tracking_step; [exact H|exact He|]. unfold desk_turn.
  destruct (tracker_handle dk_lens desk_api 30 e w) as [x w']. simpl in *. by rewrite Hok.
Qed.

Lemma desk_watched_tracking : desk_tracking true {[2; 1]} desk_watched.
Proof.
  apply wait_tracking; [|vm_compute; reflexivity].
  eapply (turn_tracking (LvWaitMinion 2) true {[1]});
    [|split; [set_solver|exact I]|reflexivity|reflexivity|vm_compute; reflexivity].
  eapply (turn_tracking (LvClaimLease (Some None)) true {[1]});
    [|split; [set_solver|exact I]|reflexivity|symmetry; apply (left_id_L ∅ (∪))|vm_compute; reflexivity].
  apply wait_tracking; [|vm_compute; reflexivity].
  eapply (turn_tracking (LvWaitLeader 1) true ∅);
    [|split; [set_solver|exact I]|reflexivity|symmetry; apply (right_id_L ∅ (∪))|vm_compute; reflexivity].
  apply wait_tracking; [|vm_compute; reflexivity].
  eapply (tracking_start _ _ _ _ _ _ (MkDesk NewTracker 0 0 50)); [reflexivity|done|].
  vm_compute. reflexivity.
Qed.

(** A claim after the renewal is due. *)
Lemma leadership_claims_are_guaranteed_witness :
  dk_lease desk_watched = 120%Z ∧
  ∃ leader, answered dk_lens 3 leader (desk_turn (LvClaim 3) desk_watched) ∧
    (leader = true → (dk_now desk_watched + 30 - 0
       < dk_lease (desk_turn (LvClaim 3) desk_watched))%Z) ∧
    (Ok () = Ok () → leader = negb (lt_isMinion (view dk_lens (desk_turn (LvClaim 3) desk_watched)))).
Proof.
  split; [vm_compute; reflexivity|].
  apply (leadership_claims_are_guaranteed dk_lens desk_api 30 dk_now dk_lease 0 (λ _, True)
    ltac:(lia) ltac:(lia) true {[2; 1]} 3 desk_watched (Ok ())
    (desk_turn (LvClaim 3) desk_watched)).
  - exact desk_watched_tracking.
  - set_solver.
  - vm_compute. reflexivity.
Defined.

(** Stopping the tracker while a client waits. *)
Lemma leadership_tickets_answered_once_witness :
  (∀ s, Err tomb_ErrDying ≠ @Err () (GoPanic s)) ∧
  (is_ok (@Err () tomb_ErrDying) = false →
   ∃ w'', tracker_exit dk_lens desk_watched = (Ok (), w'') ∧
     ∀ id, id ∈ submitted LvDying ∪ {[2; 1]} → ∃ tk, lt_tickets (view dk_lens w'') !! id = Some tk ∧
       tk_closed tk = true ∧ tk_sent tk ≤ 1).
Proof.
  apply (leadership_tickets_answered_once dk_lens desk_api 30 dk_now dk_lease 0 (λ _, True)
    ltac:(lia) ltac:(lia) true {[2; 1]} LvDying desk_watched (Err tomb_ErrDying)
    desk_watched).
  - exact desk_watched_tracking.
  - split; [set_solver|done].
  - vm_compute. reflexivity.
Defined.

(** The leader with its renewal. *)
Lemma leadership_tracker_never_idle_witness :
  lt_isMinion (view dk_lens desk_watched) = false ∧
  lt_waitingMinion (view dk_lens desk_watched) = [2] ∧
  ((if lt_isMinion (view dk_lens desk_watched) then
     lt_waitingMinion (view dk_lens desk_watched) = [] ∧
     (true = true → lt_claimLease (view dk_lens desk_watched) = true)
   else lt_waitingLeader (view dk_lens desk_watched) = [] ∧
     ∃ due, lt_renewLease (view dk_lens desk_watched) = Some due ∧
       (due + 30 - 0 ≤ dk_lease desk_watched)%Z) ∧
  ∀ id, id ∈ ({[2; 1]} : gset nat) → ∃ tk, lt_tickets (view dk_lens desk_watched) !! id = Some tk ∧
    (tk_closed tk = true ∨
     id ∈ lt_waitingLeader (view dk_lens desk_watched) ++ lt_waitingMinion (view dk_lens desk_watched))).
Proof.
  split; [vm_compute; reflexivity|]. split; [vm_compute; reflexivity|].
  apply (leadership_tracker_never_idle dk_lens desk_api 30 dk_now dk_lease 0 (λ _, True)
    ltac:(lia) ltac:(lia) true {[2; 1]} desk_watched desk_watched_tracking).
Defined.
