(* ===== verification/LeaseStore.v ===== *)
(** * The lease tables

    domain/lease: the controller database's record of who holds which lease and
    until when, and of the entities that pinned one; with core/lease, which names
    the errors and the interface, and internal/worker/leaseexpiry/store.go, which
    removes leases that have run out.  The lease manager and, through it, the
    leadership tracker of every unit depend on these tables for exclusion.

    The tables of domain/schema/controller/sql/0002-lease.sql are lists of rows; a
    method of [State] is the transaction it runs, a computation over the tables
    that is given the time of the database in seconds.  Its statements are
    [select_lease], [insert_lease], [update_lease] and the like, which check the
    constraints that the schema declares.  [txn] runs a transaction; the
    [Service] in front of the state is the lease store of the manager. *)

From Stdlib Require Import Ascii.
From S2P Require Import Prelude GoText.

(** ** core/lease *)

Record LeaseKey : Type := MkLeaseKey {
  lk_Namespace : string;
  lk_ModelUUID : string;
  lk_Lease : string;
}.

#[global] Instance LeaseKey_eq_dec : EqDecision LeaseKey.
Proof. solve_decision. Defined.
#[global] Instance LeaseKey_countable : Countable LeaseKey.
Proof.
  by apply (inj_countable' (λ k, (lk_Namespace k, lk_ModelUUID k, lk_Lease k))
    (λ '(n, m, l), MkLeaseKey n m l)); intros [].
Defined.

(** The expiry is a time, in nanoseconds. *)
Record LeaseInfo : Type := MkLeaseInfo {
  li_Holder : string;
  li_Expiry : Z;
}.

#[global] Instance LeaseInfo_eq_dec : EqDecision LeaseInfo.
Proof. solve_decision. Defined.

Record LeaseRequest : Type := MkLeaseRequest {
  rq_Holder : string;
  rq_Duration : Z;
}.

#[global] Instance LeaseRequest_eq_dec : EqDecision LeaseRequest.
Proof. solve_decision. Defined.

Abbreviation ApplicationLeadershipNamespace := "application-leadership".
Abbreviation SingularControllerNamespace := "singular-controller".
Abbreviation ObjectStoreNamespace := "object-store".
Abbreviation BackupCreationNamespace := "backup-creation".

Abbreviation lease_ErrClaimDenied := (ErrConst "lease claim denied").
Abbreviation lease_ErrNotHeld := (ErrConst "lease not held").
Abbreviation lease_ErrWaitCancelled := (ErrConst "waiting for lease cancelled by client").
Abbreviation lease_ErrInvalid := (ErrConst "invalid lease operation").
Abbreviation lease_ErrHeld := (ErrConst "lease already held").
Abbreviation lease_ErrTimeout := (ErrConst "lease operation timed out").
Abbreviation lease_ErrAborted := (ErrConst "lease operation aborted").

Definition lease_IsInvalid (e : error) : bool := bool_decide (e = lease_ErrInvalid).
Definition lease_IsHeld (e : error) : bool := bool_decide (e = lease_ErrHeld).
Definition lease_IsTimeout (e : error) : bool := bool_decide (e = lease_ErrTimeout).
Definition lease_IsAborted (e : error) : bool := bool_decide (e = lease_ErrAborted).
Definition lease_IsNotHeld (e : error) : bool := bool_decide (e = lease_ErrNotHeld).

(** The characters of [".$# \t\r\n"]. *)
Definition forbidden_chars : list ascii :=
  ["."; "$"; "#"; " "; ascii_of_nat 9; ascii_of_nat 13; ascii_of_nat 10]%char.

Definition ValidateString (s : string) : result () :=
  if decide (s = "") then Err (ErrNew "string is empty")
  else if forallb (λ c, lacks c s) forbidden_chars then Ok ()
  else Err (ErrNew "string contains forbidden characters").

Definition Request_Validate (request : LeaseRequest) : result () :=
  _ ← ValidateString (rq_Holder request);
  if decide (rq_Duration request ≤ 0)%Z then Err (ErrNew "invalid duration") else Ok ().

(** ** The tables *)

(** Times are in seconds: [datetime('now')] has no fractions of a second. *)
Record lease_row : Type := MkLeaseRow {
  l_uuid : string;
  l_lease_type_id : Z;
  l_model_uuid : string;
  l_name : string;
  l_holder : string;
  l_start : Z;
  l_expiry : Z;
}.

Record lease_pin_row : Type := MkLeasePinRow {
  p_uuid : string;
  p_lease_uuid : string;
  p_entity_id : string;
}.

Record lease_db : Type := MkLeaseDB {
  db_lease : list lease_row;
  db_lease_pin : list lease_pin_row;
}.

(** The rows of the table lease_type, which no statement changes. *)
Definition lease_type : list (Z * string) :=
  [(0%Z, "singular-controller"); (1%Z, "application-leadership"); (2%Z, "backup-creation")].

(** The extended error codes of SQLite that a constraint gives. *)
Abbreviation ErrConstraintPrimaryKey := (ErrType "sqlite3.Error" "ErrConstraintPrimaryKey").
Abbreviation ErrConstraintUnique := (ErrType "sqlite3.Error" "ErrConstraintUnique").
Abbreviation ErrConstraintForeignKey := (ErrType "sqlite3.Error" "ErrConstraintForeignKey").

Definition IsErrConstraintUnique (e : error) : bool := bool_decide (e = ErrConstraintUnique).

(** [strings.Contains] *)
Fixpoint Contains (s sub : string) : bool :=
  String.prefix sub s ||
  match s with EmptyString => false | String _ s' => Contains s' sub end.

(** internal/database/drivererrors: the errors after which an operation may be
    tried again. *)
Abbreviation ErrBusy := (ErrType "driver.Error" "database is locked").
Definition IsErrLocked (e : error) : bool := bool_decide (e = ErrBusy).
Definition IsErrRetryable (e : error) : bool :=
  IsErrLocked e || Contains (error_text e) "database is locked" ||
  Contains (error_text e) "cannot start a transaction within a transaction" ||
  Contains (error_text e) "bad connection" ||
  Contains (error_text e) "checkpoint in progress".

(** ** Statements

    A statement that fails changes nothing. *)
Definition statement {W A} (m : M W A) : M W A := λ w,
  match m w with (Err e, _) => (Err e, w) | x => x end.

(** [lease l JOIN lease_type t ON l.lease_type_id = t.id], where the rest holds. *)
Definition join_type (rows : list lease_row) : list (lease_row * string) :=
  r ← rows; t ← lease_type;
  if decide (l_lease_type_id r = t.1) then [(r, t.2)] else [].

Definition select_lease (p : lease_row → string → bool) : M lease_db (list (lease_row * string)) :=
  gets (λ d, filter (λ x, p x.1 x.2 = true) (join_type (db_lease d))).

(** [t.type = $Lease.type AND l.model_uuid = $Lease.model_uuid AND l.name = $Lease.name] *)
Definition is_lease (key : LeaseKey) (r : lease_row) (type : string) : bool :=
  bool_decide (type = lk_Namespace key) && bool_decide (l_model_uuid r = lk_ModelUUID key) &&
  bool_decide (l_name r = lk_Lease key).

(** idx_lease_model_type_name and the primary key; SQLite looks at the index that
    was made last first. *)
Definition insert_lease (r : lease_row) : M lease_db () := λ d,
  if existsb (λ r', bool_decide (l_model_uuid r' = l_model_uuid r) &&
      bool_decide (l_lease_type_id r' = l_lease_type_id r) &&
      bool_decide (l_name r' = l_name r)) (db_lease d)
  then (Err ErrConstraintUnique, d)
  else if existsb (λ r', bool_decide (l_uuid r' = l_uuid r)) (db_lease d)
  then (Err ErrConstraintPrimaryKey, d)
  else (Ok (), MkLeaseDB (db_lease d ++ [r]) (db_lease_pin d)).

(** The number of rows that a statement affects is its result. *)
Definition update_lease (p : lease_row → bool) (f : lease_row → lease_row) : M lease_db nat := λ d,
  (Ok (length (filter (λ r, p r = true) (db_lease d))),
   MkLeaseDB ((λ r, if p r then f r else r) <$> db_lease d) (db_lease_pin d)).

(** lease_pin.lease_uuid references the row. *)
Definition pinned_row (d : lease_db) (r : lease_row) : bool :=
  existsb (λ q, bool_decide (p_lease_uuid q = l_uuid r)) (db_lease_pin d).

Definition delete_lease (p : lease_row → bool) : M lease_db nat := λ d,
  if existsb (λ r, p r && pinned_row d r) (db_lease d) then (Err ErrConstraintForeignKey, d)
  else (Ok (length (filter (λ r, p r = true) (db_lease d))),
        MkLeaseDB (filter (λ r, p r = false) (db_lease d)) (db_lease_pin d)).

Definition insert_lease_pin (q : lease_pin_row) : M lease_db () := λ d,
  if existsb (λ q', bool_decide (p_lease_uuid q' = p_lease_uuid q) &&
      bool_decide (p_entity_id q' = p_entity_id q)) (db_lease_pin d)
  then (Err ErrConstraintUnique, d)
  else if existsb (λ q', bool_decide (p_uuid q' = p_uuid q)) (db_lease_pin d)
  then (Err ErrConstraintPrimaryKey, d)
  else if existsb (λ r, bool_decide (l_uuid r = p_lease_uuid q)) (db_lease d)
  then (Ok (), MkLeaseDB (db_lease d) (db_lease_pin d ++ [q]))
  else (Err ErrConstraintForeignKey, d).

Definition delete_lease_pin (p : lease_pin_row → bool) : M lease_db () := λ d,
  (Ok (), MkLeaseDB (db_lease d) (filter (λ q, p q = false) (db_lease_pin d))).

(** [uuid = (SELECT ...)]: the first row of the subquery, NULL when it has none. *)
Definition uuid_is (sub : list string) (u : string) : bool :=
  match sub with [] => false | s :: _ => bool_decide (u = s) end.

(** ** domain/lease/state *)

Definition second : Z := 1000000000.

(** [LeaseDuration.Value]: the duration in whole seconds, rounded up.  The source
    computes it in floating point, which is exact up to a duration of 2^22
    seconds. *)
Definition LeaseDuration_Value (d : Z) : Z := ((d + (second - 1)) / second)%Z.

Definition row_key (x : lease_row * string) : LeaseKey :=
  MkLeaseKey x.2 (l_model_uuid x.1) (l_name x.1).
Definition row_info (x : lease_row * string) : LeaseInfo :=
  MkLeaseInfo (l_holder x.1) (l_expiry x.1 * second).

(** The loop that fills the map of leases. *)
Definition lease_map (l : list (lease_row * string)) : gmap LeaseKey LeaseInfo :=
  foldl (λ m x, <[row_key x := row_info x]> m) ∅ l.

Abbreviation coreerrors_NotSupported := (ErrConst "not supported").

Definition State_Leases (keys : list LeaseKey) (now : Z) : M lease_db (gmap LeaseKey LeaseInfo) :=
  match keys with
  | [] => l ← select_lease (λ _ _, true); mret (lease_map l)
  | [key] => l ← select_lease (is_lease key); mret (lease_map l)
  | _ => throw coreerrors_NotSupported
  end.

Definition State_ClaimLease (uuid : string) (key : LeaseKey) (req : LeaseRequest) (now : Z) :
    M lease_db () :=
  r ← try (statement (for_each (filter (λ t, t.2 = lk_Namespace key) lease_type) (λ t,
    insert_lease (MkLeaseRow uuid t.1 (lk_ModelUUID key) (lk_Lease key) (rq_Holder req)
      now (now + LeaseDuration_Value (rq_Duration req))))));
  match r with
  | Ok _ => mret ()
  | Err e => if IsErrConstraintUnique e then throw lease_ErrHeld else throw e
  end.

Definition held_by (key : LeaseKey) (holder : string) : M lease_db (list string) :=
  l ← select_lease (λ r t, is_lease key r t && bool_decide (l_holder r = holder));
  mret (l_uuid ∘ fst <$> l).

Definition State_ExtendLease (key : LeaseKey) (req : LeaseRequest) (now : Z) : M lease_db () :=
  sub ← held_by key (rq_Holder req);
  affected ← update_lease (λ r, uuid_is sub (l_uuid r)) (λ r,
    MkLeaseRow (l_uuid r) (l_lease_type_id r) (l_model_uuid r) (l_name r) (l_holder r)
      (l_start r) (now + LeaseDuration_Value (rq_Duration req)));
  if decide (affected = 0) then throw lease_ErrInvalid else mret ().

Definition State_RevokeLease (key : LeaseKey) (holder : string) (now : Z) : M lease_db () :=
  sub ← held_by key holder;
  affected ← delete_lease (λ r, uuid_is sub (l_uuid r));
  if decide (affected = 0) then throw lease_ErrInvalid else mret ().

Definition State_LeaseGroup (namespace modelUUID : string) (now : Z) :
    M lease_db (gmap LeaseKey LeaseInfo) :=
  l ← select_lease (λ r t, bool_decide (t = namespace) && bool_decide (l_model_uuid r = modelUUID));
  mret (lease_map l).

Definition State_PinLease (uuid : string) (key : LeaseKey) (entity : string) (now : Z) :
    M lease_db () :=
  l ← select_lease (is_lease key);
  r ← try (statement (for_each l (λ x, insert_lease_pin (MkLeasePinRow uuid (l_uuid x.1) entity))));
  match r with
  | Ok _ => mret ()
  | Err e => if IsErrConstraintUnique e then mret () else throw e
  end.

(** [lease_pin p JOIN lease l ON l.uuid = p.lease_uuid JOIN lease_type t ...] *)
Definition select_pin (p : lease_pin_row → lease_row → string → bool) :
    M lease_db (list (lease_pin_row * (lease_row * string))) :=
  gets (λ d, q ← db_lease_pin d; x ← join_type (db_lease d);
    if bool_decide (l_uuid x.1 = p_lease_uuid q) && p q x.1 x.2 then [(q, x)] else []).

Definition State_UnpinLease (key : LeaseKey) (entity : string) (now : Z) : M lease_db () :=
  l ← select_pin (λ q r t, is_lease key r t && bool_decide (p_entity_id q = entity));
  delete_lease_pin (λ q, uuid_is (p_uuid ∘ fst <$> l) (p_uuid q)).

(** The loop that fills the map of pins; [seen] has the leases met before. *)
Fixpoint pin_map (l : list (lease_pin_row * (lease_row * string))) (seen : gset string)
    (m : gmap LeaseKey (list string)) : gmap LeaseKey (list string) :=
  match l with
  | [] => m
  | (q, x) :: l' =>
      if decide (l_uuid x.1 ∈ seen) then
        pin_map l' seen (<[row_key x := default [] (m !! row_key x) ++ [p_entity_id q]]> m)
      else pin_map l' ({[l_uuid x.1]} ∪ seen) (<[row_key x := [p_entity_id q]]> m)
  end.

Definition by_uuid (a b : lease_pin_row * (lease_row * string)) : Prop :=
  str_le (l_uuid a.2.1) (l_uuid b.2.1).
#[global] Instance by_uuid_dec a b : Decision (by_uuid a b).
Proof. unfold by_uuid. apply _. Defined.

Definition State_Pinned (now : Z) : M lease_db (gmap LeaseKey (list string)) :=
  l ← select_pin (λ _ _ _, true);
  mret (pin_map (merge_sort by_uuid l) ∅ ∅).

Definition State_DeleteLeadershipForModel (modelUUID : string) (now : Z) : M lease_db () :=
  l ← select_lease (λ r t, bool_decide (t = ApplicationLeadershipNamespace) &&
    bool_decide (l_model_uuid r = modelUUID));
  _ ← delete_lease (λ r, bool_decide (l_uuid r ∈ l_uuid ∘ fst <$> l));
  mret ().

(** [LEFT JOIN lease_pin AS p ON l.uuid = p.lease_uuid WHERE p.uuid IS NULL AND
    l.expiry < datetime('now')] *)
Definition lapsed (now : Z) (d : lease_db) (r : lease_row) : bool :=
  negb (pinned_row d r) && bool_decide (l_expiry r < now)%Z.

(** The transaction of [expiryStore.ExpireLeases]. *)
Definition ExpireLeases (now : Z) : M lease_db () :=
  l ← gets (λ d, filter (λ r, lapsed now d r = true) (db_lease d));
  if decide (length l = 0) then mret ()
  else _ ← delete_lease (λ r, bool_decide (l_uuid r ∈ l_uuid <$> l)); mret ().

Definition day : Z := 86400.

(** [expiry >= date('now')]: the text of a time against that of a day, which comes
    before every time of the day. *)
Definition GetApplicationLeadershipForModel (modelUUID : string) (now : Z) :
    M lease_db (gmap string string) :=
  l ← gets (λ d, filter (λ r, l_lease_type_id r = 1%Z ∧ l_model_uuid r = modelUUID ∧
    (now / day * day ≤ l_expiry r)%Z) (db_lease d));
  mret (foldl (λ m r, <[l_name r := l_holder r]> m) ∅ l).

(** ** domain/lease/service *)

(** A database: how a transaction is run, given what time it is there in
    seconds, with and without trying again, and how identifiers are made. *)
Record LeaseDatabase (W : Type) : Type := MkLeaseDatabase {
  txn {A : Type} : (Z → M lease_db A) → M W A;
  StdTxnNoRetry {A : Type} : (Z → M lease_db A) → M W A;
  NewUUID : M W string;
}.
Arguments txn {W} _ {A} _ _.
Arguments StdTxnNoRetry {W} _ {A} _ _.
Arguments NewUUID {W} _ _.

(** [lease.Store] *)
Record LeaseStore (W : Type) : Type := MkLeaseStore {
  ClaimLease : LeaseKey → LeaseRequest → M W ();
  ExtendLease : LeaseKey → LeaseRequest → M W ();
  RevokeLease : LeaseKey → string → M W ();
  Leases : list LeaseKey → M W (gmap LeaseKey LeaseInfo);
  LeaseGroup : string → string → M W (gmap LeaseKey LeaseInfo);
  PinLease : LeaseKey → string → M W ();
  UnpinLease : LeaseKey → string → M W ();
  Pinned : M W (gmap LeaseKey (list string));
}.
Arguments ClaimLease {W} _ _ _ _.
Arguments ExtendLease {W} _ _ _ _.
Arguments RevokeLease {W} _ _ _ _.
Arguments Leases {W} _ _ _.
Arguments LeaseGroup {W} _ _ _ _.
Arguments PinLease {W} _ _ _ _.
Arguments UnpinLease {W} _ _ _ _.
Arguments Pinned {W} _ _.

Section service.
Context {W : Type} (db : LeaseDatabase W).

Definition Service_Leases (keys : list LeaseKey) : M W (gmap LeaseKey LeaseInfo) :=
  if decide (1 < length keys) then throw coreerrors_NotSupported
  else txn db (State_Leases keys).

Definition Service_ClaimLease (key : LeaseKey) (req : LeaseRequest) : M W () :=
  _ ← lift_result (Request_Validate req);
  uuid ← NewUUID db;
  txn db (State_ClaimLease uuid key req).

Definition Service_ExtendLease (key : LeaseKey) (req : LeaseRequest) : M W () :=
  _ ← lift_result (Request_Validate req);
  txn db (State_ExtendLease key req).

(** [State.PinLease] makes the identifier of the pin itself. *)
Definition Service_PinLease (key : LeaseKey) (entity : string) : M W () :=
  uuid ← NewUUID db;
  txn db (State_PinLease uuid key entity).

Definition NewService : LeaseStore W := {|
  ClaimLease := Service_ClaimLease;
  ExtendLease := Service_ExtendLease;
  RevokeLease key holder := txn db (State_RevokeLease key holder);
  Leases := Service_Leases;
  LeaseGroup namespace modelUUID := txn db (State_LeaseGroup namespace modelUUID);
  PinLease := Service_PinLease;
  UnpinLease key entity := txn db (State_UnpinLease key entity);
  Pinned := txn db State_Pinned;
|}.

(** internal/worker/leaseexpiry/store.go: what may be tried again is left to the
    next time. *)
Definition expiryStore_ExpireLeases : M W () :=
  r ← try (StdTxnNoRetry db ExpireLeases);
  match r with
  | Ok _ => mret ()
  | Err e => if IsErrRetryable e then mret () else throw e
  end.

Definition LeadershipGuarantee : Z := 60 * second.

(** domain/lease/service/import.go; a leader is an application and its unit. *)
Definition ImportApplicationLeadership (modelUUID : string) (leaders : list (string * string)) :
    M W () :=
  for_each leaders (λ l,
    Service_ClaimLease (MkLeaseKey ApplicationLeadershipNamespace modelUUID l.1)
      (MkLeaseRequest l.2 LeadershipGuarantee)).

(** domain/lease/modelmigration/import.go; an application that has no leader has
    the empty text. *)
Definition importOperation_Execute (modelUUID : string) (applications : list (string * string)) :
    M W () :=
  for_each applications (λ app,
    if decide (app.2 = "") then mret ()
    else Service_ClaimLease (MkLeaseKey ApplicationLeadershipNamespace modelUUID app.1)
      (MkLeaseRequest app.2 LeadershipGuarantee)).

(** domain/lease/service/import.go, with the check of the identifier that
    core/model makes. *)
Definition Service_DeleteLeadershipForModel (Validate : string → result ()) (modelUUID : string) :
    M W () :=
  _ ← lift_result (Validate modelUUID);
  txn db (State_DeleteLeadershipForModel modelUUID).

(** domain/lease/service/migration.go *)
Definition Service_GetApplicationLeadershipForModel (Validate : string → result ())
    (modelUUID : string) : M W (gmap string string) :=
  _ ← lift_result (Validate modelUUID);
  txn db (GetApplicationLeadershipForModel modelUUID).
End service.
