(* ===== verification/Txn.v ===== *)
(** * Transactions

    How a function runs in a transaction on a database: the runner of
    internal/database/txn, which begins, commits and rolls back, the worker of
    internal/worker/dbaccessor, which tries again what may be tried again, and the
    base of the state types in domain, which finds the database and hides the
    errors of the driver from those above.  The driver is a parameter. *)

From S2P Require Import Prelude LeaseStore.

Abbreviation ErrTxDone := (ErrConst "sql: transaction has already been committed or rolled back").
Abbreviation ErrConnDone := (ErrConst "sql: connection is already closed").
Abbreviation ErrNoRows := (ErrConst "sql: no rows in result set").
Abbreviation txnInTxn := "cannot start a transaction within a transaction".
Abbreviation ErrTxnInTxn := (ErrConst txnInTxn).
Abbreviation ErrDBNotFound := (ErrConst "database not found").

(** The driver of a database whose tables are [T]: the calls of database/sql and
    sqlair, where [sd_Query] runs the statements of a function given the time of
    the database in seconds; [sd_caller] and [sd_ctx], the errors of the context of
    the caller and of the one that has the timeout of the runner as well; whether
    the worker has no database; of the retry library, whether another attempt is
    made and the error for giving up; [sd_getDB] and whether the database that was
    found is dying. *)
Record SqlDriver (W T : Type) : Type := MkSqlDriver {
  sd_Begin : M W ();
  sd_Query {A : Type} : (Z → M T A) → M W A;
  sd_Commit : M W ();
  sd_Rollback : M W ();
  sd_ExecRollback : M W ();
  sd_caller : W → option error * W;
  sd_ctx : W → option error * W;
  sd_nil : W → bool * W;
  sd_More : W → bool * W;
  sd_GaveUp : error → error;
  sd_getDB : M W ();
  sd_Dying : W → bool * W;
}.
Arguments sd_Begin {W T} _ _.
Arguments sd_Query {W T} _ {A} _ _.
Arguments sd_Commit {W T} _ _.
Arguments sd_Rollback {W T} _ _.
Arguments sd_ExecRollback {W T} _ _.
Arguments sd_caller {W T} _ _.
Arguments sd_ctx {W T} _ _.
Arguments sd_nil {W T} _ _.
Arguments sd_More {W T} _ _.
Arguments sd_GaveUp {W T} _ _.
Arguments sd_getDB {W T} _ _.
Arguments sd_Dying {W T} _ _.

(** ** domain/errors.go *)

(** drivererrors.IsError *)
Definition IsError (e : error) : bool :=
  match e with
  | ErrType t _ => bool_decide (t = "sqlite3.Error") || bool_decide (t = "driver.Error")
  | _ => false
  end.

Definition isDatabaseError (e : error) : bool :=
  bool_decide (e = ErrNoRows) || IsError e || bool_decide (e = ErrTxDone) ||
  bool_decide (e = ErrConnDone).

Definition CoerceError (e : error) : error :=
  if isDatabaseError e then ErrType "maskError" (error_text e) else e.

Section txn.
Context {W T : Type} (D : SqlDriver W T) (ST : lens W bool).

(** ** internal/database/txn *)

Definition runner_commit : M W () :=
  r ← try (sd_Commit D);
  match r with
  | Ok _ => mret ()
  | Err e =>
      if decide (e = ErrTxDone) then
        c ← always (sd_ctx D);
        match c with Some _ => mret () | None => throw e end
      else throw e
  end.

(** The error of a rollback is logged at most. *)
Definition runner_rollback : M W () := _ ← try (sd_Rollback D); mret ().

Definition runner_run {A} (fn : M W A) : M W A :=
  c ← always (sd_caller D);
  match c with Some e => throw e | None => fn end.

(** [StdTxn] differs in the type of the transaction only. *)
Definition runner_Txn {A} (fn : Z → M T A) : M W A :=
  runner_run (
    r ← try (sd_Begin D);
    match r with
    | Err e =>
        if Contains (error_text e) txnInTxn then
          _ ← try (sd_ExecRollback D); throw ErrTxnInTxn
        else throw e
    | Ok _ =>
        r ← try (sd_Query D fn);
        match r with
        | Err e => _ ← runner_rollback; throw e
        | Ok a => _ ← runner_commit; mret a
        end
    end).

Definition IsFatalError (e : error) : bool :=
  if decide (e = ErrNoRows) then true else negb (IsErrRetryable e).

(** [retry.Call] with [n] attempts left after the first. *)
Fixpoint DefaultRetryStrategy {A} (n : nat) (fn : M W A) : M W A :=
  r ← try fn;
  match r with
  | Ok a => mret a
  | Err e =>
      if IsFatalError e then throw e
      else match n with
           | O => throw (sd_GaveUp D e)
           | S n' =>
               more ← always (sd_More D);
               if more : bool then DefaultRetryStrategy n' fn else throw (sd_GaveUp D e)
           end
  end.

(** ** internal/worker/dbaccessor/tracker.go *)

Definition runAttempt {A} (fn : M W A) : M W A :=
  nil ← always (sd_nil D);
  if nil : bool then throw (NotFound "database")
  else
    c ← always (sd_caller D);
    match c with Some e => throw e | None => fn end.

Definition tracked_Txn {A} (fn : Z → M T A) : M W A :=
  DefaultRetryStrategy 249 (runAttempt (runner_Txn fn)).

Definition tracked_StdTxnNoRetry {A} (fn : Z → M T A) : M W A := runAttempt (runner_Txn fn).

(** ** domain/state.go *)

(** [ST] tells whether the database was found before. *)
Definition StateBase_DB : M W () :=
  cached ← gets (view ST);
  if cached : bool then
    dying ← always (sd_Dying D);
    if dying : bool then _ ← over ST (λ _, false); throw ErrDBNotFound else mret ()
  else
    _ ← sd_getDB D;
    over ST (λ _, true).

Definition txnRunner_Txn {A} (fn : Z → M T A) : M W A :=
  r ← try (tracked_Txn fn);
  match r with
  | Ok a => mret a
  | Err e => throw (CoerceError e)
  end.

Definition state_Txn {A} (fn : Z → M T A) : M W A := _ ← StateBase_DB; txnRunner_Txn fn.
End txn.

(** The database of the lease state. *)
Definition lease_database {W} (D : SqlDriver W lease_db) (ST : lens W bool) (uuid : M W string) :
    LeaseDatabase W := {|
  txn A f := state_Txn D ST f;
  StdTxnNoRetry A f := tracked_StdTxnNoRetry D f;
  NewUUID := uuid;
|}.
