(* ===== verification/LeaseStoreFacts.v ===== *)
(** * What the lease tables promise

    The tables are well formed after every operation; they implement a map from
    leases to holders and a set of pins; and a lease that was claimed or extended
    stays with its holder for the duration that was asked for, whatever else
    happens to the tables. *)

From S2P Require Import Prelude GoText LeaseStore.

(** ** Operations

    The methods of the state that change the tables. *)
Inductive store_op : Type :=
| OpClaim (uuid : string) (key : LeaseKey) (req : LeaseRequest)
| OpExtend (key : LeaseKey) (req : LeaseRequest)
| OpRevoke (key : LeaseKey) (holder : string)
| OpPin (uuid : string) (key : LeaseKey) (entity : string)
| OpUnpin (key : LeaseKey) (entity : string)
| OpDeleteLeadership (modelUUID : string)
| OpExpire.

Definition op_body (o : store_op) (now : Z) : M lease_db () :=
  match o with
  | OpClaim uuid key req => State_ClaimLease uuid key req now
  | OpExtend key req => State_ExtendLease key req now
  | OpRevoke key holder => State_RevokeLease key holder now
  | OpPin uuid key entity => State_PinLease uuid key entity now
  | OpUnpin key entity => State_UnpinLease key entity now
  | OpDeleteLeadership modelUUID => State_DeleteLeadershipForModel modelUUID now
  | OpExpire => ExpireLeases now
  end.

(** A transaction that fails is rolled back. *)
Definition run_op (o : store_op) (now : Z) : M lease_db () := statement (op_body o now).

(** ** The tables *)

Definition row_id (r : lease_row) : string * Z * string :=
  (l_model_uuid r, l_lease_type_id r, l_name r).
Definition pin_id (q : lease_pin_row) : string * string := (p_lease_uuid q, p_entity_id q).

(** The constraints of the schema. *)
Record lease_wf (d : lease_db) : Prop := {
  wf_uuid : NoDup (l_uuid <$> db_lease d);
  wf_id : NoDup (row_id <$> db_lease d);
  wf_type : ∀ r, r ∈ db_lease d → l_lease_type_id r ∈ lease_type.*1;
  wf_pin_uuid : NoDup (p_uuid <$> db_lease_pin d);
  wf_pin_id : NoDup (pin_id <$> db_lease_pin d);
  wf_pin_lease : ∀ q, q ∈ db_lease_pin d → p_lease_uuid q ∈ l_uuid <$> db_lease d;
}.

(** The row of a lease. *)
Definition row_at (d : lease_db) (k : LeaseKey) (r : lease_row) : Prop :=
  r ∈ db_lease d ∧ (l_lease_type_id r, lk_Namespace k) ∈ lease_type ∧
  l_model_uuid r = lk_ModelUUID k ∧ l_name r = lk_Lease k.

Lemma lease_type_fun i t t' : (i, t) ∈ lease_type → (i, t') ∈ lease_type → t = t'.
Proof. unfold lease_type. set_solver. Qed.
Lemma lease_type_inj i i' t : (i, t) ∈ lease_type → (i', t) ∈ lease_type → i = i'.
Proof. unfold lease_type. set_solver. Qed.

Lemma NoDup_fmap_elem {A B} (f : A → B) (l : list A) x y :
  NoDup (f <$> l) → x ∈ l → y ∈ l → f x = f y → x = y.
Proof.
  intros Hnd (i & Hi)%list_elem_of_lookup (j & Hj)%list_elem_of_lookup E.
  assert (i = j) as ->; [|by simplify_eq].
  eapply NoDup_lookup; [done| |]; rewrite list_lookup_fmap, ?Hi, ?Hj; [done|].
  simpl. by rewrite E.
Qed.

Lemma row_at_unique d k r r' : lease_wf d → row_at d k r → row_at d k r' → r = r'.
Proof.
  intros Hwf (Hr & Ht & Hm & Hn) (Hr' & Ht' & Hm' & Hn').
  eapply (NoDup_fmap_elem row_id); [apply Hwf|done..|]. unfold row_id.
  rewrite (lease_type_inj _ _ _ Ht Ht'). congruence.
Qed.

Lemma row_at_key d k k' r : row_at d k r → row_at d k' r → k = k'.
Proof.
  intros (_ & Ht & Hm & Hn) (_ & Ht' & Hm' & Hn'). destruct k, k'; simpl in *.
  rewrite (lease_type_fun _ _ _ Ht Ht'). congruence.
Qed.

Lemma row_at_uuid d k k' r r' :
  lease_wf d → row_at d k r → row_at d k' r' → l_uuid r = l_uuid r' → r = r' ∧ k = k'.
Proof.
  intros Hwf Hr Hr' E.
  assert (r = r') as -> by (eapply (NoDup_fmap_elem l_uuid); [apply Hwf|apply Hr|apply Hr'|done]).
  split; [done|]. by eapply row_at_key.
Qed.

(** Every row is the row of a lease. *)
Lemma row_at_exists d r : lease_wf d → r ∈ db_lease d → ∃ k, row_at d k r.
Proof.
  intros Hwf Hr. pose proof (wf_type d Hwf r Hr) as Ht.
  apply list_elem_of_fmap_1 in Ht as ([i t] & Ei & Ht).
  simpl in Ei. subst i. by exists (MkLeaseKey t (l_model_uuid r) (l_name r)).
Qed.

Lemma elem_of_join_type rows r t :
  (r, t) ∈ join_type rows ↔ r ∈ rows ∧ (l_lease_type_id r, t) ∈ lease_type.
Proof.
  unfold join_type. rewrite list_elem_of_bind. split.
  - intros (r' & H & Hr'). apply list_elem_of_bind in H as ([i t'] & H & Ht).
    case_decide; [|by apply not_elem_of_nil in H].
    apply list_elem_of_singleton in H. simplify_eq/=. by subst.
  - intros [Hr Ht]. exists r. split; [|done]. apply list_elem_of_bind.
    exists (l_lease_type_id r, t). rewrite decide_True by done. split; [|done].
    by apply list_elem_of_singleton.
Qed.

(** ** The map of leases and the set of pins *)

Definition leases_of (d : lease_db) : gmap LeaseKey LeaseInfo := lease_map (join_type (db_lease d)).
Definition pins_of (d : lease_db) : gset (LeaseKey * string) :=
  list_to_set (q ← db_lease_pin d; x ← join_type (db_lease d);
    if decide (l_uuid x.1 = p_lease_uuid q) then [(row_key x, p_entity_id q)] else []).

Lemma lease_map_lookup l k i :
  (∀ x y, x ∈ l → y ∈ l → row_key x = row_key y → x = y) →
  lease_map l !! k = Some i ↔ ∃ x, x ∈ l ∧ row_key x = k ∧ row_info x = i.
Proof.
  unfold lease_map. induction l as [|x l IH] using rev_ind; intros Hu.
  { simpl. rewrite lookup_empty. split; [done|]. intros (x & Hx & _). by apply not_elem_of_nil in Hx. }
  rewrite foldl_app. simpl. destruct (decide (row_key x = k)) as [<-|Hk].
  - rewrite lookup_insert_eq. split.
    + intros [= <-]. exists x. split; [|done]. set_solver.
    + intros (y & Hy & Ek & <-). rewrite (Hu y x); [done| |set_solver|done]. set_solver.
  - rewrite lookup_insert_ne, IH by (done || intros; apply Hu; set_solver). split.
    + intros (y & Hy & ? & ?). exists y. set_solver.
    + intros (y & Hy & Ek & ?). exists y. split; [|done].
      apply elem_of_app in Hy as [?|Hy]; [done|]. apply list_elem_of_singleton in Hy. by subst.
Qed.

Lemma row_at_join d k r :
  row_at d k r ↔ (r, lk_Namespace k) ∈ join_type (db_lease d) ∧ row_key (r, lk_Namespace k) = k.
Proof.
  rewrite elem_of_join_type. unfold row_at, row_key. destruct k; simpl. naive_solver.
Qed.

Lemma join_row_at d x : x ∈ join_type (db_lease d) → row_at d (row_key x) x.1.
Proof. destruct x as [r t]. intros H. by apply row_at_join. Qed.

Lemma join_unique d x y :
  lease_wf d → x ∈ join_type (db_lease d) → y ∈ join_type (db_lease d) →
  row_key x = row_key y → x = y.
Proof.
  intros Hwf Hx%join_row_at Hy%join_row_at E. rewrite E in Hx.
  pose proof (row_at_unique _ _ _ _ Hwf Hx Hy) as Er. destruct x, y. simpl in Er. subst.
  unfold row_key in E. simpl in E. by simplify_eq.
Qed.

Definition info_of (r : lease_row) : LeaseInfo := MkLeaseInfo (l_holder r) (l_expiry r * second).

Lemma leases_of_lookup d k i :
  lease_wf d → leases_of d !! k = Some i ↔ ∃ r, row_at d k r ∧ info_of r = i.
Proof.
  intros Hwf. unfold leases_of. rewrite lease_map_lookup by (intros; by apply (join_unique d)).
  split.
  - intros ([r t] & Hx & <- & <-). exists r. split; [by apply join_row_at in Hx|done].
  - intros (r & Hr & <-). apply row_at_join in Hr as [Hx Ek]. by eexists.
Qed.

Lemma leases_of_None d k : lease_wf d → leases_of d !! k = None ↔ ∀ r, ¬ row_at d k r.
Proof.
  intros Hwf. split.
  - intros Hn r Hr. assert (leases_of d !! k = Some (info_of r)) by (apply leases_of_lookup; eauto).
    congruence.
  - intros H. destruct (leases_of d !! k) eqn:E; [|done].
    apply leases_of_lookup in E as (r & Hr & _); [|done]. by destruct (H r).
Qed.

Lemma elem_of_pins_of d k e :
  (k, e) ∈ pins_of d ↔
  ∃ r q, row_at d k r ∧ q ∈ db_lease_pin d ∧ p_lease_uuid q = l_uuid r ∧ p_entity_id q = e.
Proof.
  unfold pins_of. rewrite elem_of_list_to_set, list_elem_of_bind. split.
  - intros (q & H & Hq). apply list_elem_of_bind in H as ([r t] & H & Hx).
    case_decide; [|by apply not_elem_of_nil in H]. apply list_elem_of_singleton in H. simplify_eq.
    exists r, q. by apply join_row_at in Hx.
  - intros (r & q & Hr & Hq & Hu & <-). apply row_at_join in Hr as [Hx Ek].
    exists q. split; [|done]. apply list_elem_of_bind. eexists. split; [|exact Hx].
    rewrite decide_True by done. rewrite Ek. by apply list_elem_of_singleton.
Qed.

(** ** What the operations are to do *)

Record lease_spec : Type := MkLeaseSpec {
  sp_leases : gmap LeaseKey LeaseInfo;
  sp_pins : gset (LeaseKey * string);
}.

Definition abs (d : lease_db) : lease_spec := MkLeaseSpec (leases_of d) (pins_of d).

Definition spec_pinned (s : lease_spec) (k : LeaseKey) : Prop :=
  k ∈ (set_map fst (sp_pins s) : gset LeaseKey).
#[global] Instance spec_pinned_dec s k : Decision (spec_pinned s k).
Proof. unfold spec_pinned. apply _. Defined.

(** The namespaces that the tables know. *)
Definition known (k : LeaseKey) : Prop := lk_Namespace k ∈ lease_type.*2.

(** What a request gives at a time in seconds. *)
Definition granted (req : LeaseRequest) (now : Z) : LeaseInfo :=
  MkLeaseInfo (rq_Holder req) ((now + LeaseDuration_Value (rq_Duration req)) * second).

Definition of_model (m : string) (k : LeaseKey) : Prop :=
  lk_Namespace k = ApplicationLeadershipNamespace ∧ lk_ModelUUID k = m.

Definition spec_op (o : store_op) (now : Z) (s : lease_spec) : result () * lease_spec :=
  match o with
  | OpClaim _ k req =>
      if decide (known k) then
        match sp_leases s !! k with
        | Some _ => (Err lease_ErrHeld, s)
        | None => (Ok (), MkLeaseSpec (<[k := granted req now]> (sp_leases s)) (sp_pins s))
        end
      else (Ok (), s)
  | OpExtend k req =>
      match sp_leases s !! k with
      | Some i =>
          if decide (li_Holder i = rq_Holder req) then
            (Ok (), MkLeaseSpec (<[k := granted req now]> (sp_leases s)) (sp_pins s))
          else (Err lease_ErrInvalid, s)
      | None => (Err lease_ErrInvalid, s)
      end
  | OpRevoke k h =>
      match sp_leases s !! k with
      | Some i =>
          if decide (li_Holder i = h) then
            if decide (spec_pinned s k) then (Err ErrConstraintForeignKey, s)
            else (Ok (), MkLeaseSpec (delete k (sp_leases s)) (sp_pins s))
          else (Err lease_ErrInvalid, s)
      | None => (Err lease_ErrInvalid, s)
      end
  | OpPin _ k e =>
      (Ok (), MkLeaseSpec (sp_leases s)
        (if decide (is_Some (sp_leases s !! k)) then {[(k, e)]} ∪ sp_pins s else sp_pins s))
  | OpUnpin k e => (Ok (), MkLeaseSpec (sp_leases s) (sp_pins s ∖ {[(k, e)]}))
  | OpDeleteLeadership m =>
      if decide (map_Forall (λ k _, of_model m k → ¬ spec_pinned s k) (sp_leases s)) then
        (Ok (), MkLeaseSpec (filter (λ x, ¬ of_model m x.1) (sp_leases s)) (sp_pins s))
      else (Err ErrConstraintForeignKey, s)
  | OpExpire =>
      (Ok (), MkLeaseSpec
        (filter (λ x, spec_pinned s x.1 ∨ (now * second ≤ li_Expiry x.2)%Z) (sp_leases s))
        (sp_pins s))
  end.

(** An identifier that the operation makes is a new one. *)
Definition fresh_op (o : store_op) (d : lease_db) : Prop :=
  match o with
  | OpClaim uuid _ _ => uuid ∉ l_uuid <$> db_lease d
  | OpPin uuid _ _ => uuid ∉ p_uuid <$> db_lease_pin d
  | _ => True
  end.

(** ** Changing the rows *)

Lemma leases_of_ext d (m : gmap LeaseKey LeaseInfo) :
  lease_wf d →
  (∀ k i, m !! k = Some i ↔ ∃ r, row_at d k r ∧ info_of r = i) → leases_of d = m.
Proof.
  intros Hwf H. apply map_eq. intros k. apply option_eq. intros i.
  by rewrite leases_of_lookup, H.
Qed.

(** Rows that are changed, but not in what identifies them. *)
Section change.
Context (d : lease_db) (f : lease_row → lease_row).
Context (Hu : ∀ r, l_uuid (f r) = l_uuid r) (Hi : ∀ r, row_id (f r) = row_id r).
Definition changed : lease_db := MkLeaseDB (f <$> db_lease d) (db_lease_pin d).

Lemma fmap_changed {B} (g : lease_row → B) :
  (∀ r, g (f r) = g r) → g <$> (f <$> db_lease d) = g <$> db_lease d.
Proof. intros H. rewrite <- list_fmap_compose. apply list_fmap_ext. intros; apply H. Qed.

Lemma changed_wf : lease_wf d → lease_wf changed.
Proof.
  intros []. split; unfold changed; cbn [db_lease db_lease_pin];
    rewrite ?fmap_changed; try done.
  intros r (r0 & -> & Hr)%list_elem_of_fmap_1. specialize (Hi r0). unfold row_id in Hi. simplify_eq.
  replace (l_lease_type_id (f r0)) with (l_lease_type_id r0) by congruence. auto.
Qed.

Lemma row_at_changed k r : row_at changed k r ↔ ∃ r0, row_at d k r0 ∧ r = f r0.
Proof.
  unfold row_at, changed. simpl. split.
  - intros ((r0 & -> & Hr)%list_elem_of_fmap_1 & Ht & Hm & Hn). exists r0. split; [|done].
    specialize (Hi r0). unfold row_id in Hi. injection Hi as E1 E2 E3.
    rewrite E2 in Ht. split_and!; [done..| |]; congruence.
  - intros (r0 & (Hr & Ht & Hm & Hn) & ->).
    specialize (Hi r0). unfold row_id in Hi. injection Hi as E1 E2 E3.
    rewrite E2. split_and!; [by apply list_elem_of_fmap_2|done| |]; congruence.
Qed.

(** Only the row of one lease is changed. *)
Lemma leases_of_changed k r0 :
  lease_wf d → row_at d k r0 → (∀ r, r ∈ db_lease d → r ≠ r0 → f r = r) →
  leases_of changed = <[k := info_of (f r0)]> (leases_of d).
Proof.
  intros Hwf Hr0 Hf. apply leases_of_ext; [by apply changed_wf|]. intros k' i.
  setoid_rewrite row_at_changed. destruct (decide (k' = k)) as [->|Hk].
  - rewrite lookup_insert_eq. split.
    + intros [= <-]. eexists. split; [by exists r0|done].
    + intros (r & (r1 & Hr1 & ->) & <-). by rewrite (row_at_unique _ _ _ _ Hwf Hr1 Hr0).
  - assert (∀ r, row_at d k' r → f r = r) as Hs.
    { intros r Hr. apply Hf; [apply Hr|]. intros ->. destruct Hk. by eapply row_at_key. }
    rewrite lookup_insert_ne, leases_of_lookup by done. split.
    + intros (r & Hr & <-). exists r. split; [|done]. exists r. by rewrite Hs.
    + intros (r & (r1 & Hr1 & ->) & <-). exists r1. by rewrite Hs.
Qed.

Lemma pins_of_changed : pins_of changed = pins_of d.
Proof.
  apply set_eq. intros [k e]. rewrite !elem_of_pins_of. unfold changed at 2. simpl. split.
  - intros (r & q & Hr & ? & ? & ?). apply row_at_changed in Hr as (r0 & Hr & ->).
    exists r0, q. by rewrite <- (Hu r0).
  - intros (r & q & Hr & ? & ? & ?). exists (f r), q. rewrite row_at_changed, Hu.
    split_and!; [by exists r|done..].
Qed.
End change.

(** Rows that are left out, none of which is pinned. *)
Section remove.
Context (d : lease_db) (p : lease_row → bool).
Definition removed : lease_db := MkLeaseDB (filter (λ r, p r = false) (db_lease d)) (db_lease_pin d).

Lemma row_at_removed k r : row_at removed k r ↔ row_at d k r ∧ p r = false.
Proof. unfold row_at, removed. simpl. rewrite list_elem_of_filter. naive_solver. Qed.

Lemma NoDup_fmap_filter {B} (g : lease_row → B) :
  NoDup (g <$> db_lease d) → NoDup (g <$> filter (λ r, p r = false) (db_lease d)).
Proof.
  intros H. eapply sublist_NoDup; [done|]. apply fmap_sublist. apply sublist_filter.
Qed.

Context (Hp : ∀ r, r ∈ db_lease d → p r = true → pinned_row d r = false).

Lemma pin_stays q r : q ∈ db_lease_pin d → r ∈ db_lease d → p_lease_uuid q = l_uuid r → p r = false.
Proof.
  intros Hq Hr E. apply not_true_iff_false. intros Hpr. specialize (Hp r Hr Hpr).
  unfold pinned_row in Hp. apply not_true_iff_false in Hp. apply Hp. apply existsb_exists.
  exists q. split; [by apply list_elem_of_In|]. by apply bool_decide_eq_true.
Qed.

Lemma removed_wf : lease_wf d → lease_wf removed.
Proof.
  intros []. split; unfold removed; cbn [db_lease db_lease_pin]; auto using NoDup_fmap_filter.
  - intros r [_ Hr]%list_elem_of_filter. auto.
  - intros q Hq. apply wf_pin_lease0 in Hq as Hl. apply list_elem_of_fmap_1 in Hl as (r & E & Hr).
    rewrite E. apply list_elem_of_fmap_2, list_elem_of_filter. split; [|done]. by eapply pin_stays.
Qed.

Lemma pins_of_removed : pins_of removed = pins_of d.
Proof.
  apply set_eq. intros [k e]. rewrite !elem_of_pins_of. split.
  - intros (r & q & Hr & ? & ? & ?). apply row_at_removed in Hr as [Hr _]. by exists r, q.
  - intros (r & q & Hr & ? & ? & ?). exists r, q. rewrite row_at_removed. split_and!; [done| |done..].
    by eapply pin_stays; [|apply Hr|].
Qed.
End remove.

(** A row that is added. *)
Section add.
Context (d : lease_db) (r : lease_row) (k : LeaseKey).
Context (Hwf : lease_wf d) (Hu : l_uuid r ∉ l_uuid <$> db_lease d).
Context (Ht : (l_lease_type_id r, lk_Namespace k) ∈ lease_type).
Context (Hm : l_model_uuid r = lk_ModelUUID k) (Hn : l_name r = lk_Lease k).
Definition added : lease_db := MkLeaseDB (db_lease d ++ [r]) (db_lease_pin d).

Lemma row_at_added k' r' : row_at added k' r' ↔ row_at d k' r' ∨ (r' = r ∧ k' = k).
Proof.
  unfold row_at, added. simpl. rewrite elem_of_app, list_elem_of_singleton. split.
  - intros ([Hr'| ->] & Ht' & Hm' & Hn'); [by left|right]. split; [done|].
    destruct k, k'; simpl in *. rewrite (lease_type_fun _ _ _ Ht' Ht). congruence.
  - intros [(? & ? & ? & ?)|[-> ->]]; split_and!; auto.
Qed.

Lemma added_wf : (∀ r', ¬ row_at d k r') → lease_wf added.
Proof.
  intros Hfree. destruct Hwf. split; unfold added; cbn [db_lease db_lease_pin]; auto.
  - rewrite fmap_app. apply NoDup_app. split_and!; [done| |apply NoDup_singleton].
    intros u Hu1 Hu2%list_elem_of_singleton. by subst.
  - rewrite fmap_app. apply NoDup_app. split_and!; [done| |apply NoDup_singleton].
    intros i Hi1 Hi2%list_elem_of_singleton. subst i.
    apply list_elem_of_fmap_1 in Hi1 as (r0 & E & Hr0). unfold row_id in E. injection E as E1 E2 E3.
    destruct (Hfree r0). rewrite E2 in Ht. split_and!; [done..| |]; congruence.
  - intros r' [Hr'| ->%list_elem_of_singleton]%elem_of_app; [auto|].
    apply (list_elem_of_fmap_2 fst _ _ Ht).
  - intros q Hq. rewrite fmap_app. apply elem_of_app. left. auto.
Qed.

Lemma pins_of_added : pins_of added = pins_of d.
Proof.
  apply set_eq. intros [k' e]. rewrite !elem_of_pins_of. split.
  - intros (r' & q & Hr & Hq & Eu & ?). apply row_at_added in Hr as [Hr|[-> ->]]; [by exists r', q|].
    destruct Hu. rewrite <- Eu. apply (wf_pin_lease d Hwf q Hq).
  - intros (r' & q & Hr & ? & ? & ?). exists r', q. rewrite row_at_added. naive_solver.
Qed.

Lemma leases_of_added :
  (∀ r', ¬ row_at d k r') → leases_of added = <[k := info_of r]> (leases_of d).
Proof.
  intros Hfree. apply leases_of_ext; [by apply added_wf|]. intros k' i.
  destruct (decide (k' = k)) as [->|Hk].
  - rewrite lookup_insert_eq. split.
    + intros [= <-]. exists r. rewrite row_at_added. auto.
    + intros (r' & Hr & <-). apply row_at_added in Hr as [Hr|[-> _]]; [|done]. by destruct (Hfree r').
  - rewrite lookup_insert_ne, leases_of_lookup by done. split; intros (r' & Hr & <-); exists r'.
    + by rewrite row_at_added; auto.
    + apply row_at_added in Hr as [Hr|[_ ->]]; done.
Qed.
End add.

(** ** The operations *)

Lemma type_rows ns :
  (∃ i, filter (λ t, t.2 = ns) lease_type = [(i, ns)] ∧ (i, ns) ∈ lease_type ∧ ns ∈ lease_type.*2) ∨
  (filter (λ t, t.2 = ns) lease_type = [] ∧ ns ∉ lease_type.*2).
Proof.
  unfold lease_type. rewrite !filter_cons, filter_nil. simpl.
  repeat case_decide; simplify_eq; try (left; eexists; split; [done|set_solver]).
  right. split; [done|]. set_solver.
Qed.

Lemma existsb_false {A} (f : A → bool) l : existsb f l = false ↔ ∀ x, x ∈ l → f x = false.
Proof.
  rewrite <- not_true_iff_false, existsb_exists. setoid_rewrite <- list_elem_of_In. split.
  - intros H x Hx. apply not_true_iff_false. intros E. apply H. eauto.
  - intros H (x & Hx & E). rewrite (H x Hx) in E. done.
Qed.

Lemma existsb_true {A} (f : A → bool) l : existsb f l = true ↔ ∃ x, x ∈ l ∧ f x = true.
Proof. rewrite existsb_exists. by setoid_rewrite <- list_elem_of_In. Qed.

(** The search of a column for a value. *)
Lemma existsb_column {A B} `{EqDecision B} (f : A → B) b l :
  existsb (λ x, bool_decide (f x = b)) l = true ↔ b ∈ f <$> l.
Proof.
  rewrite existsb_true, list_elem_of_fmap. setoid_rewrite bool_decide_eq_true. naive_solver.
Qed.

(** An insertion of a row for a lease. *)
Lemma insert_lease_run d r k :
  (l_lease_type_id r, lk_Namespace k) ∈ lease_type →
  l_model_uuid r = lk_ModelUUID k → l_name r = lk_Lease k →
  (insert_lease r d = (Err ErrConstraintUnique, d) ∧ ∃ r', row_at d k r') ∨
  (∀ r', ¬ row_at d k r') ∧
    (insert_lease r d = (Ok (), added d r) ∧ l_uuid r ∉ l_uuid <$> db_lease d ∨
     insert_lease r d = (Err ErrConstraintPrimaryKey, d) ∧ l_uuid r ∈ l_uuid <$> db_lease d).
Proof.
  intros Ht Hm Hn. unfold insert_lease.
  destruct (existsb _ (db_lease d)) eqn:E; [left|right].
  - split; [done|]. apply existsb_true in E as (r' & Hr' & E).
    rewrite !andb_true_iff, !bool_decide_eq_true in E.
    destruct E as [[E1 E2] E3]. exists r'. rewrite <- E2 in Ht. split_and!; [done..| |]; congruence.
  - split.
    { intros r' (Hr' & Ht' & Hm' & Hn'). pose proof (proj1 (existsb_false _ _) E r' Hr') as E'.
      cbv beta in E'. rewrite !bool_decide_true in E'; [done|congruence|by eapply lease_type_inj|congruence]. }
    destruct (existsb (λ r', bool_decide (l_uuid r' = l_uuid r)) (db_lease d)) eqn:Eu.
    + right. split; [done|]. by apply existsb_column.
    + left. split; [done|]. rewrite <- existsb_column. by rewrite Eu.
Qed.

(** An operation does what it is to do. *)
Definition op_ok (o : store_op) (now : Z) (d : lease_db) : Prop :=
  ∀ r d', run_op o now d = (r, d') → lease_wf d' ∧ spec_op o now (abs d) = (r, abs d').

(** An operation does what it is to do, or fails because its identifier is taken. *)
Definition op_or_taken (taken : Prop) (o : store_op) (now : Z) (d : lease_db) : Prop :=
  ∀ r d', run_op o now d = (r, d') → lease_wf d' ∧
    (spec_op o now (abs d) = (r, abs d') ∨ taken ∧ r = Err ErrConstraintPrimaryKey ∧ d' = d).
Lemma op_or_taken_ok taken o now d : op_or_taken taken o now d → ¬ taken → op_ok o now d.
Proof. intros H Hn r d' [? [?|[? _]]]%H; done. Qed.

Lemma OpClaim_cases uuid k req now d :
  lease_wf d → op_or_taken (uuid ∈ l_uuid <$> db_lease d) (OpClaim uuid k req) now d.
Proof.
  intros Hwf r d' H. unfold run_op, op_body, State_ClaimLease in H. simpl.
  unfold statement at 1 in H. unfold known.
  destruct (type_rows (lk_Namespace k)) as [(i & Ef & Hi & Hk)|[Ef Hk]]; rewrite Ef in H;
    [rewrite decide_True by done|rewrite decide_False by done].
  - simpl in H. set (row := MkLeaseRow uuid i _ _ _ _ _) in *.
    destruct (insert_lease_run d row k Hi) as [[E [r' Hr']]|[Hfree [[E Hu]|[E Hu]]]]; [done..| | |];
      unfold mbind, M_bind, try, statement in H; rewrite E in H; simpl in H; injection H as <- <-.
    + split; [done|left]. rewrite (proj2 (leases_of_lookup d k (info_of r') Hwf)); [done|by exists r'].
    + split; [by apply (added_wf d row k)|left]. rewrite (proj2 (leases_of_None d k Hwf) Hfree).
      unfold abs. by rewrite (leases_of_added d row k), (pins_of_added d row k).
    + by split; [|right].
  - simpl in H. unfold mbind, M_bind, try, statement, mret, M_ret in H. simplify_eq. auto.
Qed.

Lemma is_lease_true k r t :
  is_lease k r t = true ↔ t = lk_Namespace k ∧ l_model_uuid r = lk_ModelUUID k ∧ l_name r = lk_Lease k.
Proof. unfold is_lease. rewrite !andb_true_iff, !bool_decide_eq_true. tauto. Qed.

Lemma uuid_is_elem sub u :
  (∀ a b, a ∈ sub → b ∈ sub → a = b) → uuid_is sub u = true ↔ u ∈ sub.
Proof.
  intros H. destruct sub as [|s sub]; simpl.
  - split; [done|]. by intros ?%not_elem_of_nil.
  - rewrite bool_decide_eq_true. split; [intros ->; left|]. intros Hu. apply H; [done|left].
Qed.

Lemma held_by_run d k h :
  lease_wf d →
  ∃ sub, held_by k h d = (Ok sub, d) ∧
    ∀ u, uuid_is sub u = true ↔ ∃ r, row_at d k r ∧ l_holder r = h ∧ l_uuid r = u.
Proof.
  intros Hwf. eexists. split; [done|]. intros u.
  assert (∀ a, a ∈ l_uuid ∘ fst <$> filter (λ x, is_lease k x.1 x.2 && bool_decide (l_holder x.1 = h) = true)
    (join_type (db_lease d)) ↔ ∃ r, row_at d k r ∧ l_holder r = h ∧ l_uuid r = a) as Hin.
  { intros a. rewrite list_elem_of_fmap. setoid_rewrite list_elem_of_filter. split.
    - intros ([r t] & -> & Hp & Hx). simpl in *.
      rewrite andb_true_iff, is_lease_true, bool_decide_eq_true in Hp.
      destruct Hp as [(-> & Hm & Hn) Hh]. exists r. apply elem_of_join_type in Hx as [Hr Ht].
      by split_and!.
    - intros (r & (Hr & Ht & Hm & Hn) & Hh & <-). exists (r, lk_Namespace k). split; [done|].
      rewrite elem_of_join_type. simpl. split; [|done].
      by rewrite andb_true_iff, is_lease_true, bool_decide_eq_true. }
  rewrite uuid_is_elem; [apply Hin|]. intros a b (r & Hr & _ & <-)%Hin (r' & Hr' & _ & <-)%Hin.
  by rewrite (row_at_unique _ _ _ _ Hwf Hr Hr').
Qed.

(** The row that a holder holds is the one that is selected. *)
Lemma held_cases d k h :
  lease_wf d →
  ∃ sub, held_by k h d = (Ok sub, d) ∧
    ((∃ r, row_at d k r ∧ l_holder r = h ∧
       ∀ r', r' ∈ db_lease d → uuid_is sub (l_uuid r') = true ↔ r' = r) ∨
     ((∀ r', r' ∈ db_lease d → uuid_is sub (l_uuid r') = false) ∧
      ∀ r, row_at d k r → l_holder r ≠ h)).
Proof.
  intros Hwf. destruct (held_by_run d k h Hwf) as (sub & E & Hsub). exists sub. split; [done|].
  destruct sub as [|u sub].
  - right. split; [done|]. intros r Hr Hh.
    assert (uuid_is [] (l_uuid r) = true) by (apply Hsub; by exists r). done.
  - left. destruct (proj1 (Hsub u)) as (r & Hr & Hh & Hu); [by apply bool_decide_eq_true|].
    exists r. split_and!; [done..|]. intros r' Hr'. rewrite Hsub. split; [|by intros ->; exists r].
    intros (r0 & Hr0 & _ & E0). rewrite (row_at_unique _ _ _ _ Hwf Hr0 Hr) in E0.
    eapply (NoDup_fmap_elem l_uuid); [apply Hwf|done|apply Hr|done].
Qed.

Lemma filter_none {A} (p : A → bool) l :
  (∀ x, x ∈ l → p x = false) → length (filter (λ x, p x = true) l) = 0.
Proof.
  intros H. induction l as [|x l IH]; [done|]. rewrite filter_cons.
  rewrite (H x) by left. apply IH. intros y Hy. apply H. by right.
Qed.

Lemma filter_some {A} (p : A → bool) l x :
  x ∈ l → p x = true → length (filter (λ x, p x = true) l) ≠ 0.
Proof.
  intros Hx Hp E. apply length_zero_iff_nil in E.
  assert (x ∈ filter (λ x, p x = true) l) as H by (by apply list_elem_of_filter).
  rewrite E in H. by apply not_elem_of_nil in H.
Qed.

Lemma OpExtend_ok k req now d : lease_wf d → op_ok (OpExtend k req) now d.
Proof.
  intros Hwf r d' H. unfold run_op, op_body, State_ExtendLease, statement in H. simpl.
  destruct (held_cases d k (rq_Holder req) Hwf) as (sub & E & Hc).
  rewrite (bind_ok _ _ _ _ _ E) in H.
  match type of H with context [update_lease ?p ?f] => set (sel := p) in *; set (f0 := f) in * end.
  rewrite (bind_ok (update_lease sel f0) _ d _ _ eq_refl) in H.
  destruct Hc as [(r0 & Hr0 & Hh & Hsel)|[Hsel Hno]].
  - rewrite decide_False in H by (apply (filter_some sel _ r0); [apply Hr0|by apply (Hsel r0 (proj1 Hr0))]).
    injection H as <- <-. fold (changed d (λ r, if sel r then f0 r else r)).
    assert (∀ r, l_uuid (if sel r then f0 r else r) = l_uuid r) as Hu by (intros; by case_match).
    assert (∀ r, row_id (if sel r then f0 r else r) = row_id r) as Hi by (intros; by case_match).
    split; [by apply changed_wf|]. unfold abs. simpl.
    rewrite (proj2 (leases_of_lookup d k (info_of r0) Hwf)) by eauto.
    rewrite decide_True, pins_of_changed by done. do 2 f_equal.
    rewrite (leases_of_changed d _ Hu Hi k r0 Hwf Hr0).
    + assert (sel r0 = true) as -> by (by apply (Hsel r0 (proj1 Hr0))).
      unfold info_of, granted. simpl. by rewrite Hh.
    + intros r Hr Hne. destruct (sel r) eqn:Es; [|done]. by apply Hsel in Es.
  - rewrite decide_True in H by (by apply filter_none). injection H as <- <-. split; [done|]. simpl.
    destruct (leases_of d !! k) as [i|] eqn:Ek; [|done].
    apply leases_of_lookup in Ek as (r1 & Hr1 & <-); [|done]. by rewrite decide_False by (by apply Hno).
Qed.

(** A deletion, which the reference of a pin prevents. *)
Lemma delete_lease_run d p :
  (delete_lease p d = (Err ErrConstraintForeignKey, d) ∧
   ∃ r, r ∈ db_lease d ∧ p r = true ∧ pinned_row d r = true) ∨
  (delete_lease p d = (Ok (length (filter (λ r, p r = true) (db_lease d))), removed d p) ∧
   ∀ r, r ∈ db_lease d → p r = true → pinned_row d r = false).
Proof.
  unfold delete_lease. destruct (existsb _ _) eqn:E; [left|right]; (split; [done|]).
  - apply existsb_true in E as (r & Hr & [? ?]%andb_true_iff). by exists r.
  - intros r Hr Hp. pose proof (proj1 (existsb_false _ _) E r Hr) as Hn. cbv beta in Hn.
    by rewrite Hp in Hn.
Qed.

Lemma pinned_iff d k r :
  lease_wf d → row_at d k r → pinned_row d r = true ↔ spec_pinned (abs d) k.
Proof.
  intros Hwf Hr. unfold spec_pinned, pinned_row. rewrite existsb_true, elem_of_map. simpl. split.
  - intros (q & Hq & E%bool_decide_eq_true). exists (k, p_entity_id q). split; [done|].
    apply elem_of_pins_of. by exists r, q.
  - intros ([k' e] & -> & Hp). apply elem_of_pins_of in Hp as (r' & q & Hr' & Hq & E & _).
    simpl in Hr. rewrite (row_at_unique _ _ _ _ Hwf Hr Hr'). exists q.
    by rewrite bool_decide_eq_true.
Qed.

(** What is left of the leases. *)
Lemma leases_of_removed d p (P : LeaseKey * LeaseInfo → Prop) `{!∀ x, Decision (P x)} :
  lease_wf d → (∀ r, r ∈ db_lease d → p r = true → pinned_row d r = false) →
  (∀ k r, row_at d k r → p r = false ↔ P (k, info_of r)) →
  leases_of (removed d p) = filter P (leases_of d).
Proof.
  intros Hwf Hp HP. apply leases_of_ext; [by apply removed_wf|]. intros k i.
  rewrite map_lookup_filter_Some, leases_of_lookup by done. setoid_rewrite row_at_removed. split.
  - intros [(r & Hr & <-) HP']. exists r. split; [|done]. by rewrite HP.
  - intros (r & [Hr Hf] & <-). split; [by exists r|]. by apply HP.
Qed.

Lemma OpRevoke_ok k h now d : lease_wf d → op_ok (OpRevoke k h) now d.
Proof.
  intros Hwf r d' H. unfold run_op, op_body, State_RevokeLease, statement in H. simpl.
  destruct (held_cases d k h Hwf) as (sub & E & Hc).
  rewrite (bind_ok _ _ _ _ _ E) in H.
  set (sel := λ r, uuid_is sub (l_uuid r)) in *.
  destruct Hc as [(r0 & Hr0 & Hh & Hsel)|[Hsel Hno]].
  - rewrite (proj2 (leases_of_lookup d k (info_of r0) Hwf)) by eauto. simpl.
    rewrite decide_True by done. assert (sel r0 = true) as Hs0 by (by apply (Hsel r0 (proj1 Hr0))).
    destruct (delete_lease_run d sel) as [[Ed (r1 & Hr1 & Hs1 & Hpin)]|[Ed Hp]].
    + rewrite (bind_err _ _ _ _ _ Ed) in H. injection H as <- <-. split; [done|].
      apply (Hsel r1 Hr1) in Hs1. subst r1. apply (pinned_iff d k r0 Hwf Hr0) in Hpin.
      by rewrite decide_True.
    + rewrite (bind_ok _ _ _ _ _ Ed), decide_False in H
        by (apply (filter_some sel _ r0); [apply Hr0|done]). injection H as <- <-.
      split; [by apply removed_wf|]. rewrite decide_False; last first.
      { rewrite <- (pinned_iff d k r0) by done. by rewrite (Hp r0 (proj1 Hr0) Hs0). }
      unfold abs. rewrite pins_of_removed by done. do 2 f_equal.
      rewrite (leases_of_removed d sel (λ x, x.1 ≠ k)); [|done..|].
      * apply map_eq. intros k'. apply option_eq. intros i.
        rewrite map_lookup_filter_Some, lookup_delete_Some. simpl. naive_solver.
      * intros k' r1 Hr1. simpl. rewrite <- not_true_iff_false. apply not_iff_compat.
        unfold sel. rewrite (Hsel r1 (proj1 Hr1)). split; [|intros ->; by eapply row_at_unique].
        intros ->. by eapply row_at_key.
  - destruct (delete_lease_run d sel) as [[Ed (r1 & Hr1 & Hs1 & _)]|[Ed _]].
    + unfold sel in Hs1. by rewrite (Hsel r1 Hr1) in Hs1.
    + rewrite (bind_ok _ _ _ _ _ Ed), decide_True in H by (by apply filter_none).
      injection H as <- <-. split; [done|]. destruct (leases_of d !! k) as [i|] eqn:Ek; [|done].
      apply leases_of_lookup in Ek as (r1 & Hr1 & <-); [|done]. by rewrite decide_False by (by apply Hno).
Qed.

Lemma OpDeleteLeadership_ok m now d : lease_wf d → op_ok (OpDeleteLeadership m) now d.
Proof.
  intros Hwf r d' H. unfold run_op, op_body, State_DeleteLeadershipForModel, statement in H. simpl.
  match type of H with (match (_ ≫= λ l, (@?k l)) _ with _ => _ end) = _ =>
    rewrite (bind_ok (select_lease _) k d _ d eq_refl) in H end.
  set (l := filter _ (join_type (db_lease d))) in H.
  set (sel := λ r, bool_decide (l_uuid r ∈ l_uuid ∘ fst <$> l)) in *.
  assert (∀ k r, row_at d k r → sel r = true ↔ of_model m k) as Hsel.
  { intros k r0 Hr0. unfold sel. rewrite bool_decide_eq_true, list_elem_of_fmap. unfold l.
    setoid_rewrite list_elem_of_filter. unfold of_model. split.
    - intros ([r1 t] & Eu & Hp & Hx). simpl in *. rewrite andb_true_iff, !bool_decide_eq_true in Hp.
      destruct Hp as [-> <-]. apply join_row_at in Hx.
      destruct (row_at_uuid d _ _ _ _ Hwf Hr0 Hx Eu) as [-> ->]. done.
    - intros [Hns Hm]. exists (r0, lk_Namespace k). split; [done|]. apply row_at_join in Hr0 as Hx.
      simpl. rewrite andb_true_iff, !bool_decide_eq_true. destruct Hr0 as (_ & _ & -> & _).
      split; [done|]. apply Hx. }
  destruct (delete_lease_run d sel) as [[Ed (r1 & Hr1 & Hs1 & Hpin)]|[Ed Hp]].
  - rewrite (bind_err _ _ _ _ _ Ed) in H. injection H as <- <-. split; [done|].
    rewrite decide_False; [done|]. intros Hall. destruct (row_at_exists d r1 Hwf Hr1) as [k Hk].
    apply (Hall k (info_of r1)); [apply leases_of_lookup; eauto|by apply (Hsel k r1)|].
    by apply (pinned_iff d k r1).
  - rewrite (bind_ok _ _ _ _ _ Ed) in H. injection H as <- <-. split; [by apply removed_wf|].
    rewrite decide_True.
    + unfold abs. rewrite pins_of_removed by done. do 2 f_equal. symmetry.
      apply leases_of_removed; [done..|]. intros k r1 Hr1. simpl.
      by rewrite <- not_true_iff_false, (Hsel k r1 Hr1).
    + intros k i Hk Hm Hpin. apply leases_of_lookup in Hk as (r1 & Hr1 & _); [|done].
      apply (pinned_iff d k r1 Hwf Hr1) in Hpin.
      rewrite (Hp r1 (proj1 Hr1)) in Hpin; [done|]. by apply (Hsel k r1).
Qed.

Lemma lapsed_iff d now k r :
  lease_wf d → row_at d k r →
  lapsed now d r = false ↔ spec_pinned (abs d) k ∨ (now * second ≤ li_Expiry (info_of r))%Z.
Proof.
  intros Hwf Hr. unfold lapsed. rewrite andb_false_iff, negb_false_iff, (pinned_iff d k r Hwf Hr).
  rewrite bool_decide_eq_false. simpl. unfold second. split; (intros [|]; [by left|right; lia]).
Qed.

Lemma OpExpire_ok now d : lease_wf d → op_ok OpExpire now d.
Proof.
  intros Hwf r d' H. unfold run_op, op_body, ExpireLeases, statement in H. simpl.
  match type of H with (match (gets ?f ≫= ?k) _ with _ => _ end) = _ =>
    rewrite (bind_ok (gets f) k d _ d eq_refl) in H end.
  case_decide as Hl.
  - injection H as <- <-. split; [done|]. f_equal.
    transitivity (MkLeaseSpec (leases_of d) (pins_of d)); [|done]. f_equal. apply map_filter_id. intros k i Hk. simpl.
    apply leases_of_lookup in Hk as (r1 & Hr1 & <-); [|done]. apply (lapsed_iff d now k r1 Hwf Hr1).
    apply not_true_iff_false. intros Hla. by apply (filter_some (lapsed now d) _ r1 (proj1 Hr1) Hla) in Hl.
  - set (sel := λ r, bool_decide (l_uuid r ∈ _)) in *.
    assert (∀ r, r ∈ db_lease d → sel r = lapsed now d r) as Hsel.
    { intros r1 Hr1. apply eq_true_iff_eq. unfold sel. rewrite bool_decide_eq_true, list_elem_of_fmap.
      setoid_rewrite list_elem_of_filter. split; [|by exists r1].
      intros (r2 & Eu & Hla & Hr2). by rewrite (NoDup_fmap_elem l_uuid _ r1 r2 (wf_uuid d Hwf)). }
    destruct (delete_lease_run d sel) as [[Ed (r1 & Hr1 & Hs1 & Hpin)]|[Ed Hp]].
    + rewrite (Hsel r1 Hr1) in Hs1. unfold lapsed in Hs1. by rewrite Hpin in Hs1.
    + rewrite (bind_ok _ _ _ _ _ Ed) in H. injection H as <- <-. split; [by apply removed_wf|].
      unfold abs. rewrite pins_of_removed by done. do 2 f_equal. symmetry.
      apply leases_of_removed; [done..|]. intros k r1 Hr1. rewrite (Hsel r1 (proj1 Hr1)).
      by apply lapsed_iff.
Qed.

(** ** Pins *)

Lemma NoDup_join_type rows : NoDup rows → NoDup (join_type rows).
Proof.
  intros H. apply NoDup_bind; [| |done].
  - intros r1 r2 [r t] _ _ H1 H2.
    apply list_elem_of_bind in H1 as (? & H1 & _). apply list_elem_of_bind in H2 as (? & H2 & _).
    repeat case_decide; set_solver.
  - intros r _. unfold lease_type. simpl. repeat case_decide; simplify_eq; try congruence;
      rewrite ?app_nil_r; repeat constructor; set_solver.
Qed.

Lemma all_equal_list {A} (l : list A) :
  NoDup l → (∀ x y, x ∈ l → y ∈ l → x = y) → l = [] ∨ ∃ x, l = [x].
Proof.
  intros Hnd H. destruct l as [|x [|y l]]; [by left|right; by exists x|].
  apply NoDup_cons in Hnd as [Hx _]. destruct Hx. rewrite (H x y) by set_solver. left.
Qed.

(** What the subquery for a lease selects. *)
Lemma select_is_lease d k :
  lease_wf d →
  (∃ r, row_at d k r ∧ select_lease (is_lease k) d = (Ok [(r, lk_Namespace k)], d)) ∨
  ((∀ r, ¬ row_at d k r) ∧ select_lease (is_lease k) d = (Ok [], d)).
Proof.
  intros Hwf. unfold select_lease, gets. set (l := filter _ _).
  assert (∀ x, x ∈ l ↔ row_at d k x.1 ∧ x.2 = lk_Namespace k) as Hin.
  { intros [r t]. unfold l. rewrite list_elem_of_filter, elem_of_join_type, is_lease_true. simpl.
    unfold row_at. naive_solver. }
  destruct (all_equal_list l) as [El|[[r t] El]].
  - apply NoDup_filter, NoDup_join_type. by apply (NoDup_fmap_1 l_uuid), Hwf.
  - intros [r t] [r' t'] [Hr E]%Hin [Hr' E']%Hin. simpl in *. subst.
    by rewrite (row_at_unique _ _ _ _ Hwf Hr Hr').
  - right. rewrite El. split; [|done]. intros r Hr.
    assert ((r, lk_Namespace k) ∈ l) as Hx by (by apply Hin). rewrite El in Hx.
    by apply not_elem_of_nil in Hx.
  - left. rewrite El. destruct (proj1 (Hin (r, t))) as [Hr Et]; [rewrite El; left|].
    simpl in *. subst t. by exists r.
Qed.

(** The pins are changed, the leases are not. *)
Definition with_pins (d : lease_db) (ps : list lease_pin_row) : lease_db := MkLeaseDB (db_lease d) ps.

Lemma insert_lease_pin_run d k r uuid e :
  lease_wf d → row_at d k r →
  (insert_lease_pin (MkLeasePinRow uuid (l_uuid r) e) d = (Err ErrConstraintUnique, d) ∧
   (k, e) ∈ pins_of d) ∨
  (insert_lease_pin (MkLeasePinRow uuid (l_uuid r) e) d =
     (Ok (), with_pins d (db_lease_pin d ++ [MkLeasePinRow uuid (l_uuid r) e])) ∧
   ((l_uuid r, e) ∉ (pin_id <$> db_lease_pin d)) ∧ (uuid ∉ (p_uuid <$> db_lease_pin d))) ∨
  (insert_lease_pin (MkLeasePinRow uuid (l_uuid r) e) d = (Err ErrConstraintPrimaryKey, d) ∧
   uuid ∈ p_uuid <$> db_lease_pin d).
Proof.
  intros Hwf Hr. unfold insert_lease_pin. cbn [p_uuid p_lease_uuid p_entity_id].
  destruct (existsb (λ q, _ && _) (db_lease_pin d)) eqn:E; [left|right].
  - split; [done|]. apply existsb_true in E as (q & Hq & [E1 E2]%andb_true_iff).
    apply bool_decide_eq_true in E1, E2. apply elem_of_pins_of. by exists r, q.
  - destruct (existsb (λ q', bool_decide (p_uuid q' = uuid)) (db_lease_pin d)) eqn:Eu; [right|left].
    { split; [done|]. by apply existsb_column. }
    rewrite (proj2 (existsb_column l_uuid (l_uuid r) (db_lease d))) by apply list_elem_of_fmap_2, Hr.
    split; [done|]. split; [|rewrite <- existsb_column; by rewrite Eu].
    intros (q & Eq & Hq)%list_elem_of_fmap_1. unfold pin_id in Eq. simplify_eq.
    pose proof (proj1 (existsb_false _ _) E q Hq) as Hn. cbv beta in Hn.
    by rewrite !bool_decide_true in Hn.
Qed.

Lemma leases_of_with_pins d ps : leases_of (with_pins d ps) = leases_of d.
Proof. done. Qed.
Lemma row_at_with_pins d ps k r : row_at (with_pins d ps) k r ↔ row_at d k r.
Proof. done. Qed.

Lemma NoDup_app_one {A} (l : list A) x : NoDup l → x ∉ l → NoDup (l ++ [x]).
Proof.
  intros Hl Hx. apply NoDup_app. split_and!; [done| |apply NoDup_singleton].
  by intros y ? ->%list_elem_of_singleton.
Qed.

Lemma pin_added_wf d k r q :
  lease_wf d → row_at d k r → p_lease_uuid q = l_uuid r → p_uuid q ∉ p_uuid <$> db_lease_pin d →
  pin_id q ∉ pin_id <$> db_lease_pin d → lease_wf (with_pins d (db_lease_pin d ++ [q])).
Proof.
  intros [] Hr Eq Hu Hi. split; unfold with_pins; cbn [db_lease db_lease_pin];
    rewrite ?fmap_app; [done..|by apply NoDup_app_one|by apply NoDup_app_one|].
  intros q' [Hq| ->%list_elem_of_singleton]%elem_of_app; [auto|].
  rewrite Eq. apply list_elem_of_fmap_2, Hr.
Qed.

Lemma pins_of_pin_added d k r q :
  lease_wf d → row_at d k r → p_lease_uuid q = l_uuid r →
  pins_of (with_pins d (db_lease_pin d ++ [q])) = {[(k, p_entity_id q)]} ∪ pins_of d.
Proof.
  intros Hwf Hr Eq. apply set_eq. intros [k' e'].
  rewrite elem_of_union, !elem_of_pins_of, elem_of_singleton. setoid_rewrite row_at_with_pins.
  setoid_rewrite elem_of_app. setoid_rewrite list_elem_of_singleton. split.
  - intros (r1 & q' & Hr1 & [Hq| ->] & Eu & <-); [right; eauto 10|left].
    rewrite Eq in Eu. by destruct (row_at_uuid d _ _ _ _ Hwf Hr Hr1 Eu) as [_ ->].
  - intros [?|(r1 & q' & ? & ? & ? & ?)]; [simplify_eq; exists r, q|exists r1, q']; auto.
Qed.

Lemma OpPin_cases uuid k e now d :
  lease_wf d → op_or_taken (uuid ∈ p_uuid <$> db_lease_pin d) (OpPin uuid k e) now d.
Proof.
  intros Hwf r d' H. unfold run_op, op_body, State_PinLease, statement at 1 in H. simpl.
  destruct (select_is_lease d k Hwf) as [(r0 & Hr0 & Es)|[Hno Es]];
    rewrite (bind_ok _ _ _ _ _ Es) in H; simpl in H.
  - rewrite (proj2 (leases_of_lookup d k (info_of r0) Hwf)), decide_True by eauto.
    destruct (insert_lease_pin_run d k r0 uuid e Hwf Hr0) as [[E Hin]|[(E & Hin & Hu)|[E Hu]]];
      unfold mbind, M_bind, try, statement in H; rewrite E in H; simpl in H; injection H as <- <-.
    + split; [done|left]. unfold abs. do 2 f_equal. by apply subseteq_union_1_L, singleton_subseteq_l.
    + split; [by apply (pin_added_wf d k r0)|left]. unfold abs.
      by rewrite leases_of_with_pins, (pins_of_pin_added d k r0).
    + by split; [|right].
  - rewrite (proj2 (leases_of_None d k Hwf) Hno), decide_False by (by intros [? ?]).
    unfold mbind, M_bind, try, statement, mret, M_ret in H. simplify_eq. auto.
Qed.

(** The pin that is selected is the one of the entity. *)
Lemma select_pin_run d k e :
  lease_wf d →
  ∃ l, select_pin (λ q r t, is_lease k r t && bool_decide (p_entity_id q = e)) d = (Ok l, d) ∧
    ∀ q, q ∈ db_lease_pin d →
      uuid_is (p_uuid ∘ fst <$> l) (p_uuid q) = true ↔
      ∃ r, row_at d k r ∧ p_lease_uuid q = l_uuid r ∧ p_entity_id q = e.
Proof.
  intros Hwf. eexists. split; [done|]. set (l := _ ≫= _).
  assert (∀ q x, (q, x) ∈ l ↔ q ∈ db_lease_pin d ∧ x.2 = lk_Namespace k ∧ row_at d k x.1 ∧
    p_lease_uuid q = l_uuid x.1 ∧ p_entity_id q = e) as Hin.
  { intros q [r t]. unfold l. rewrite list_elem_of_bind. setoid_rewrite list_elem_of_bind. split.
    - intros (q' & ([r' t'] & H & Hx) & Hq). case_match eqn:E; [|by apply not_elem_of_nil in H].
      apply list_elem_of_singleton in H. simplify_eq. simpl in *.
      rewrite !andb_true_iff, !bool_decide_eq_true, is_lease_true in E.
      destruct E as [Eu [(-> & ? & ?) He]]. apply elem_of_join_type in Hx as [? ?]. by split_and!.
    - simpl. intros (Hq & -> & Hr & Eu & He). exists q. split; [|done]. apply row_at_join in Hr as Hx.
      eexists. split; [|apply Hx]. destruct Hr as (_ & _ & ? & ?). simpl.
      rewrite !bool_decide_true by done. rewrite (proj2 (is_lease_true k r _)) by done.
      simpl. by apply list_elem_of_singleton. }
  intros q Hq. rewrite uuid_is_elem.
  - rewrite list_elem_of_fmap. split.
    + intros ([q' x] & Eq & (Hq' & _ & Hr & Eu & He)%Hin). simpl in Eq.
      rewrite (NoDup_fmap_elem p_uuid _ q q' (wf_pin_uuid d Hwf)) by done. by exists x.1.
    + intros (r & Hr & Eu & He). exists (q, (r, lk_Namespace k)). split; [done|]. by apply Hin.
  - intros a b ([q1 x1] & -> & H1)%list_elem_of_fmap_1 ([q2 x2] & -> & H2)%list_elem_of_fmap_1. simpl.
    apply Hin in H1 as (H1 & _ & Hr1 & Eu1 & He1), H2 as (H2 & _ & Hr2 & Eu2 & He2). f_equal.
    apply (NoDup_fmap_elem pin_id _ q1 q2 (wf_pin_id d Hwf)); [done..|]. unfold pin_id.
    rewrite Eu1, Eu2, (row_at_unique _ _ _ _ Hwf Hr1 Hr2). congruence.
Qed.

Lemma OpUnpin_ok k e now d : lease_wf d → op_ok (OpUnpin k e) now d.
Proof.
  intros Hwf r d' H. unfold run_op, op_body, State_UnpinLease, statement in H. simpl.
  destruct (select_pin_run d k e Hwf) as (l & El & Hsel). rewrite (bind_ok _ _ _ _ _ El) in H.
  unfold delete_lease_pin in H. injection H as <- <-. split.
  - destruct Hwf. split; cbn [db_lease db_lease_pin]; try done.
    + eapply sublist_NoDup; [done|]. apply fmap_sublist, sublist_filter.
    + eapply sublist_NoDup; [done|]. apply fmap_sublist, sublist_filter.
    + intros q [_ Hq]%list_elem_of_filter. auto.
  - unfold abs. simpl. do 2 f_equal. apply set_eq. intros [k' e'].
    rewrite elem_of_difference, !elem_of_pins_of, elem_of_singleton.
    setoid_rewrite list_elem_of_filter. split.
    + intros [(r & q & Hr & Hq & Eu & <-) Hne]. exists r, q. split_and!; try done.
      apply not_true_iff_false. rewrite (Hsel q Hq). intros (r1 & Hr1 & Eu1 & He).
      rewrite Eu in Eu1. destruct (row_at_uuid d _ _ _ _ Hwf Hr Hr1 Eu1) as [_ ->]. by rewrite He in Hne.
    + intros (r & q & Hr & [Hf Hq] & Eu & <-). split; [by exists r, q|]. intros [= -> He].
      apply not_true_iff_false in Hf. apply Hf. rewrite (Hsel q Hq). by exists r.
Qed.

(** ** Every operation *)

Lemma op_ok_or_taken taken o now d : op_ok o now d → op_or_taken taken o now d.
Proof. intros H r d' [? ?]%H. auto. Qed.

Lemma run_op_cases o now d r d' :
  lease_wf d → run_op o now d = (r, d') →
  lease_wf d' ∧ (spec_op o now (abs d) = (r, abs d') ∨ r = Err ErrConstraintPrimaryKey ∧ d' = d).
Proof.
  intros Hwf H. assert (∃ taken, op_or_taken taken o now d) as [taken Ht].
  { destruct o; [by eexists; apply OpClaim_cases|exists True|exists True|by eexists; apply OpPin_cases|exists True..];
      apply op_ok_or_taken; auto using OpExtend_ok, OpRevoke_ok, OpUnpin_ok, OpDeleteLeadership_ok, OpExpire_ok. }
  destruct (Ht r d' H) as [? [?|(_ & ? & ?)]]; auto.
Qed.
