(* ===== verification/LeaseSafety.v ===== *)
(** * Leases exclude each other

    Runs of the lease tables: any operations, by any number of controllers, in any
    order, as time passes.  The tables stay well formed; what is read is what the
    abstract leases and pins say; and whoever was granted a lease has it, alone,
    until the time that was asked for. *)

From S2P Require Import Prelude GoText LeaseStore LeaseStoreFacts.

(** ** Reading *)

Lemma leases_all now d : State_Leases [] now d = (Ok (leases_of d), d).
Proof.
  unfold State_Leases. rewrite (bind_ok _ _ d (join_type (db_lease d)) d); [done|].
  unfold select_lease, gets. f_equal. f_equal. induction (join_type (db_lease d)) as [|x l IH]; [done|].
  by rewrite filter_cons_True, IH.
Qed.

(** A selection of rows as a selection of leases. *)
Lemma lease_map_select d (p : lease_row → string → bool) (P : LeaseKey → Prop) `{!∀ k, Decision (P k)} :
  lease_wf d → (∀ r t, p r t = true ↔ P (row_key (r, t))) →
  (l ← select_lease p; mret (lease_map l)) d = (Ok (filter (λ x, P x.1) (leases_of d)), d).
Proof.
  intros Hwf Hp. unfold mbind, M_bind, mret, M_ret, select_lease, gets. f_equal. f_equal. apply map_eq. intros k. apply option_eq. intros i.
  rewrite map_lookup_filter_Some. unfold leases_of.
  rewrite !lease_map_lookup by (intros x y; rewrite ?list_elem_of_filter; intros; apply (join_unique d); naive_solver).
  setoid_rewrite list_elem_of_filter. simpl. split.
  - intros ([r t] & [Hpr Hx] & <- & <-). split; [by exists (r, t)|]. by apply Hp.
  - intros [([r t] & Hx & <- & <-) HP]. exists (r, t). split_and!; try done. by apply Hp.
Qed.

Lemma leases_one k now d :
  lease_wf d → State_Leases [k] now d = (Ok (filter (λ x, x.1 = k) (leases_of d)), d).
Proof.
  intros Hwf. unfold State_Leases. rewrite (lease_map_select d (is_lease k) (λ k', k' = k)); [done..|].
  intros r t. rewrite is_lease_true. unfold row_key. destruct k. simpl. naive_solver.
Qed.

Lemma leases_one_lookup k now d :
  lease_wf d → ∃ m, State_Leases [k] now d = (Ok m, d) ∧ m !! k = leases_of d !! k.
Proof.
  intros Hwf. rewrite leases_one by done. eexists. split; [done|]. apply option_eq. intros i.
  rewrite map_lookup_filter_Some. naive_solver.
Qed.

Definition of_group (ns m : string) (k : LeaseKey) : Prop := lk_Namespace k = ns ∧ lk_ModelUUID k = m.

Lemma leases_group ns m now d :
  lease_wf d →
  State_LeaseGroup ns m now d = (Ok (filter (λ x, of_group ns m x.1) (leases_of d)), d).
Proof.
  intros Hwf. unfold State_LeaseGroup. rewrite (lease_map_select d _ (of_group ns m)); [done..|].
  intros r t. by rewrite andb_true_iff, !bool_decide_eq_true.
Qed.

(** The loop over the pins collects the entities of each lease. *)
Definition entities (l : list (lease_pin_row * (lease_row * string))) (k : LeaseKey) : list string :=
  (λ x, p_entity_id x.1) <$> filter (λ x, row_key x.2 = k) l.

Lemma pin_map_lookup l seen m k :
  (∀ x y, x ∈ l → y ∈ l → l_uuid x.2.1 = l_uuid y.2.1 ↔ row_key x.2 = row_key y.2) →
  (∀ x, x ∈ l → l_uuid x.2.1 ∈ seen ↔ is_Some (m !! row_key x.2)) →
  pin_map l seen m !! k =
    match m !! k, entities l k with
    | None, [] => None
    | m0, es => Some (default [] m0 ++ es)
    end.
Proof.
  revert seen m. induction l as [|[q x] l IH]; intros seen m Hk Hs; simpl.
  { change (entities [] k) with (@nil string). destruct (m !! k); simpl; [by rewrite app_nil_r|done]. }
  assert (∀ es, pin_map l ({[l_uuid x.1]} ∪ seen) (<[row_key x := es]> m) !! k =
    match <[row_key x := es]> m !! k, entities l k with
    | None, [] => None | m0, es => Some (default [] m0 ++ es) end) as IH'.
  { intros es. apply IH; [intros; apply Hk; by right|]. intros y Hy.
    pose proof (Hk y (q, x) ltac:(by right) ltac:(left)) as Hkx. simpl in Hkx.
    rewrite elem_of_union, elem_of_singleton, Hkx.
    rewrite (Hs y) by (by right). destruct (decide (row_key y.2 = row_key x)) as [->|Hne].
    - rewrite lookup_insert_eq. naive_solver.
    - rewrite lookup_insert_ne by done. naive_solver. }
  assert (entities ((q, x) :: l) k =
    (if decide (row_key x = k) then [p_entity_id q] else []) ++ entities l k) as Ee.
  { unfold entities. rewrite filter_cons. simpl. by case_decide. }
  rewrite Ee. pose proof (Hs (q, x) ltac:(left)) as Hx. simpl in Hx.
  destruct (decide (l_uuid x.1 ∈ seen)) as [Hseen|Hseen].
  - assert ({[l_uuid x.1]} ∪ seen = seen) as Es by (apply subseteq_union_1_L; by apply singleton_subseteq_l).
    rewrite Es in IH'. rewrite IH'. destruct (proj1 Hx Hseen) as [es Ees]. rewrite Ees. simpl.
    destruct (decide (row_key x = k)) as [<-|Hne].
    + rewrite lookup_insert_eq, Ees. simpl. by rewrite <- app_assoc.
    + by rewrite lookup_insert_ne.
  - rewrite IH'. destruct (decide (row_key x = k)) as [<-|Hne].
    + rewrite lookup_insert_eq. destruct (m !! row_key x) eqn:E; [|done]. destruct Hseen. apply Hx. eauto.
    + by rewrite lookup_insert_ne.
Qed.

Lemma pinned_entities now d :
  lease_wf d →
  ∃ m, State_Pinned now d = (Ok m, d) ∧
    ∀ k, match m !! k with
         | Some es => es ≠ [] ∧ ∀ e, e ∈ es ↔ (k, e) ∈ pins_of d
         | None => ¬ spec_pinned (abs d) k
         end.
Proof.
  intros Hwf. eexists. split; [done|]. 
  match goal with |- context [merge_sort by_uuid ?l0] => set (l := l0) end. intros k.
  assert (∀ q x, (q, x) ∈ l ↔ q ∈ db_lease_pin d ∧ x ∈ join_type (db_lease d) ∧
    p_lease_uuid q = l_uuid x.1) as Hin.
  { intros q x. unfold l. rewrite list_elem_of_bind. split.
    - intros (q' & (x' & H & Hx)%list_elem_of_bind & Hq). rewrite andb_true_r in H.
      case_bool_decide; [|by apply not_elem_of_nil in H]. apply list_elem_of_singleton in H.
      injection H as -> ->. by split_and!.
    - intros (Hq & Hx & Eu). exists q. split; [|done]. apply list_elem_of_bind. exists x. split; [|done].
      rewrite bool_decide_true by done. simpl. by apply list_elem_of_singleton. }
  assert (∀ x, x ∈ merge_sort by_uuid l ↔ x ∈ l) as Hm by (intros; by rewrite merge_sort_Permutation).
  assert (∀ e, e ∈ entities (merge_sort by_uuid l) k ↔ (k, e) ∈ pins_of d) as He.
  { intros e. unfold entities. rewrite list_elem_of_fmap, elem_of_pins_of. split.
    - intros ([q x] & -> & [<- Hx]%list_elem_of_filter). apply Hm, Hin in Hx as (Hq & Hx & Eu).
      exists x.1, q. by apply join_row_at in Hx.
    - intros (r & q & Hr & Hq & Eu & <-). apply row_at_join in Hr as [Hx Ek].
      exists (q, (r, lk_Namespace k)). split; [done|]. apply list_elem_of_filter. split; [done|].
      by apply Hm, Hin. }
  rewrite pin_map_lookup.
  - rewrite lookup_empty. destruct (entities _ _) as [|e es] eqn:E.
    + unfold spec_pinned. rewrite elem_of_map. intros ([k' e] & -> & Hp). simpl in *.
      apply He in Hp. by apply not_elem_of_nil in Hp.
    + simpl. split; [done|]. exact He.
  - intros [q x] [q' x'] (_ & Hx & _)%Hm%Hin (_ & Hx' & _)%Hm%Hin. simpl. split.
    + intros Eu. apply join_row_at in Hx, Hx'. by destruct (row_at_uuid d _ _ _ _ Hwf Hx Hx' Eu).
    + intros Ek. by rewrite (join_unique d x x').
  - intros x _. rewrite lookup_empty. split; [by intros ?%elem_of_empty|by intros [? ?]].
Qed.

(** ** Keeping a lease *)

(** The lease is with the holder, and cannot run out by the time [u]. *)
Definition has_lease (k : LeaseKey) (h : string) (u : Z) (d : lease_db) : Prop :=
  ∃ e, leases_of d !! k = Some (MkLeaseInfo h (e * second)) ∧ (u < (e + 1) * second)%Z.

(** Operations that do not take the lease from its holder: it is not revoked, and
    not extended to less than it has. *)
Definition harmless (k : LeaseKey) (h : string) (o : store_op) (now : Z) (d : lease_db) : Prop :=
  match o with
  | OpRevoke k' h' => (k', h') ≠ (k, h)
  | OpDeleteLeadership m => ¬ of_model m k
  | OpExtend k' req => (k', rq_Holder req) = (k, h) →
      ∀ i, leases_of d !! k = Some i →
      (li_Expiry i ≤ (now + LeaseDuration_Value (rq_Duration req)) * second)%Z
  | _ => True
  end.

Lemma second_pos : (0 < second)%Z.
Proof. done. Qed.
Lemma floor_second n : (n / second * second ≤ n < (n / second + 1) * second)%Z.
Proof. pose proof (Z.div_mod n second) as E. pose proof (Z.mod_pos_bound n second second_pos). lia. Qed.
Lemma ceil_second d : (d ≤ LeaseDuration_Value d * second)%Z.
Proof.
  unfold LeaseDuration_Value. pose proof (floor_second (d + (second - 1))).
  pose proof second_pos. lia.
Qed.

(** What is granted lasts for the duration. *)
Lemma granted_lasts n req :
  (n + rq_Duration req < (n / second + LeaseDuration_Value (rq_Duration req) + 1) * second)%Z.
Proof. pose proof (floor_second n). pose proof (ceil_second (rq_Duration req)). lia. Qed.

Lemma not_lapsed n u e :
  (n ≤ u)%Z → (u < (e + 1) * second)%Z → (n / second * second ≤ e * second)%Z.
Proof. pose proof (floor_second n). unfold second in *. lia. Qed.

Lemma spec_keeps k h u o n d d' r :
  (n ≤ u)%Z → has_lease k h u d → harmless k h o (n / second) d →
  spec_op o (n / second) (abs d) = (r, abs d') → has_lease k h u d'.
Proof.
  intros Hn (e & Hk & Hu) Hh H. unfold has_lease.
  destruct o as [uuid k' req|k' req|k' h'|uuid k' en|k' en|m|]; simpl in H, Hh.
  - case_decide; [|injection H as <- <- _; eauto].
    destruct (leases_of d !! k') eqn:E; injection H as <- <- _; [eauto|].
    rewrite lookup_insert_ne by congruence. eauto.
  - destruct (leases_of d !! k') as [i|] eqn:E; [|injection H as <- <- _; eauto].
    case_decide as Hi; injection H as <- <- _; [|eauto].
    destruct (decide (k' = k)) as [->|Hne]; [|rewrite lookup_insert_ne by done; eauto].
    simplify_eq. simpl in *. rewrite lookup_insert_eq. unfold granted. eexists. split; [by rewrite <- Hi|].
    assert ((e * second ≤ (n / second + LeaseDuration_Value (rq_Duration req)) * second)%Z) as Hle.
    { apply (Hh ltac:(by rewrite <- Hi) _ Hk). }
    unfold second in *. lia.
  - destruct (leases_of d !! k') as [i|] eqn:E; [|injection H as <- <- _; eauto].
    case_decide as Hi; [|injection H as <- <- _; eauto].
    case_decide; injection H as <- <- _; [eauto|].
    rewrite lookup_delete_ne; [eauto|]. intros ->. simplify_eq.
  - injection H as <- <- _. eauto.
  - injection H as <- <- _. eauto.
  - case_decide; injection H as <- <- _; [|eauto]. exists e. split; [|done].
    apply map_lookup_filter_Some. by split.
  - injection H as <- <- _. exists e. split; [|done]. apply map_lookup_filter_Some.
    split; [done|]. right. simpl. by eapply not_lapsed.
Qed.

Lemma op_keeps k h u o n d d' r :
  lease_wf d → (n ≤ u)%Z → has_lease k h u d → harmless k h o (n / second) d →
  run_op o (n / second) d = (r, d') → has_lease k h u d'.
Proof.
  intros Hwf Hn Hk Hh [_ [H|[_ ->]]]%run_op_cases; [|done..]. by eapply spec_keeps.
Qed.

(** What a claim or an extension that succeeds gives. *)
Lemma grant_has_lease o k req n d d' :
  lease_wf d → known k → (∃ uuid, o = OpClaim uuid k req) ∨ o = OpExtend k req →
  run_op o (n / second) d = (Ok (), d') → has_lease k (rq_Holder req) (n + rq_Duration req) d'.
Proof.
  intros Hwf Hk Ho [_ [H|[? _]]]%run_op_cases; [|done..]. unfold has_lease.
  pose proof (granted_lasts n req). destruct Ho as [[uuid ->]| ->]; simpl in H.
  - rewrite decide_True in H by done. case_match; [done|]. injection H as <- _.
    rewrite lookup_insert_eq. eauto.
  - case_match; [|done]. case_decide; [|done]. injection H as <- _. rewrite lookup_insert_eq. eauto.
Qed.

(** ** Histories *)

(** What someone was told: this lease is with this holder until that time. *)
Record grant : Type := MkGrant {
  g_key : LeaseKey;
  g_holder : string;
  g_until : Z;
}.

(** The grants that an operation takes back: those of a lease that its holder
    gives up, and those that an extension replaces. *)
Definition takes_back (o : store_op) (g : grant) : Prop :=
  match o with
  | OpExtend k req => g_key g = k ∧ g_holder g = rq_Holder req
  | OpRevoke k h => g_key g = k ∧ g_holder g = h
  | OpDeleteLeadership m => of_model m (g_key g)
  | _ => False
  end.
#[global] Instance takes_back_dec o g : Decision (takes_back o g).
Proof. destruct o; apply _. Defined.

(** The grant it makes when it succeeds. *)
Definition gives (o : store_op) (n : Z) : list grant :=
  match o with
  | OpClaim _ k req | OpExtend k req => [MkGrant k (rq_Holder req) (n + rq_Duration req)]
  | _ => []
  end.

(** Operations as time passes, with the grants that stand.  The outcome of a
    transaction that was committed may be lost on the way back. *)
Inductive lease_history : list grant → Z → lease_db → Prop :=
| lh_start n : lease_history [] n (MkLeaseDB [] [])
| lh_time G n n' d : lease_history G n d → (n ≤ n')%Z → lease_history G n' d
| lh_done G o n d d' :
    lease_history G n d → run_op o (n / second) d = (Ok (), d') →
    lease_history (gives o n ++ filter (λ g, ¬ takes_back o g) G) n d'
| lh_lost G o n d d' :
    lease_history G n d → run_op o (n / second) d = (Ok (), d') →
    lease_history (filter (λ g, ¬ takes_back o g) G) n d'
| lh_failed G o n d e d' :
    lease_history G n d → run_op o (n / second) d = (Err e, d') → lease_history G n d'.

Lemma empty_wf : lease_wf (MkLeaseDB [] []).
Proof.
  split; simpl; try apply NoDup_nil_2; by intros ? ?%not_elem_of_nil.
Qed.

Lemma history_wf G n d : lease_history G n d → lease_wf d.
Proof.
  induction 1 as [| |? ? ? ? ? ? ? H|? ? ? ? ? ? ? H|? ? ? ? ? ? ? ? H];
    [apply empty_wf|done|by apply run_op_cases in H as [? _]..].
Qed.

(** A grant that is not taken back is not harmed, unless someone else has the lease. *)
Lemma grant_harmless g o now d u :
  ¬ takes_back o g → has_lease (g_key g) (g_holder g) u d → harmless (g_key g) (g_holder g) o now d.
Proof.
  destruct o; simpl; intros Ht _; try done; [|naive_solver].
  intros [= E1 E2]. destruct Ht. by split.
Qed.

Lemma history_has_lease G n d :
  lease_history G n d →
  ∀ g, g ∈ G → known (g_key g) → (n ≤ g_until g)%Z → has_lease (g_key g) (g_holder g) (g_until g) d.
Proof.
  induction 1 as [n|G n n' d _ IH Hn|G o n d d' Hh IH H|G o n d d' Hh IH H|G o n d e d' Hh IH H];
    intros g Hg Hk Hu.
  - by apply not_elem_of_nil in Hg.
  - apply IH; [done..|lia].
  - apply history_wf in Hh as Hwf. apply elem_of_app in Hg as [Hg|[Hnt Hg]%list_elem_of_filter].
    + destruct o; simpl in Hg; try (by apply not_elem_of_nil in Hg);
        apply list_elem_of_singleton in Hg; subst g; simpl in *;
        (eapply grant_has_lease; [done..| |done]); [left; by eexists|by right].
    + eapply op_keeps; [done|done|by apply IH| |done]. eapply grant_harmless; [done|by apply IH].
  - apply history_wf in Hh as Hwf. apply list_elem_of_filter in Hg as [Hnt Hg].
    eapply op_keeps; [done|done|by apply IH| |done]. eapply grant_harmless; [done|by apply IH].
  - specialize (IH g Hg Hk Hu). unfold run_op, statement in H.
    destruct (op_body o (n / second) d) as [[]]; by simplify_eq.
Qed.

(** ** The theorems *)

(** C40: the tables keep their type.  After any operations of any controllers, in any
    order, at any times, whether their outcome was lost or not, identifiers are
    unique, a lease has one row, of a type that there is, an entity pins a lease
    once, and every pin is of a lease that there is. *)
Theorem lease_tables_well_formed G n d : lease_history G n d → lease_wf d.
Proof. apply history_wf. Qed.

(** C22: the tables implement leases.  Every operation on well-formed tables does to
    the leases and pins they stand for exactly what the specification says, result
    and error included: a claim of a free lease, and of no other, gives it; an
    extension or a revocation is for the holder alone; a pinned lease is neither
    revoked nor expired; a lease expires only after its time. *)
Theorem lease_store_refines o now d r d' :
  lease_wf d → fresh_op o d → run_op o now d = (r, d') →
  lease_wf d' ∧ spec_op o now (abs d) = (r, abs d').
Proof.
  intros Hwf Hf. destruct o.
  - by eapply op_or_taken_ok; [apply OpClaim_cases|].
  - by apply OpExtend_ok.
  - by apply OpRevoke_ok.
  - by eapply op_or_taken_ok; [apply OpPin_cases|].
  - by apply OpUnpin_ok.
  - by apply OpDeleteLeadership_ok.
  - by apply OpExpire_ok.
Qed.

(** What is read is what is there.  [Leases] gives all leases or the one that is
    asked for, [LeaseGroup] those of a namespace and model, [Pinned] for each pinned
    lease the entities that pin it; nothing is changed by reading. *)
Theorem lease_reads now d :
  lease_wf d →
  State_Leases [] now d = (Ok (sp_leases (abs d)), d) ∧
  (∀ k, State_Leases [k] now d = (Ok (filter (λ x, x.1 = k) (sp_leases (abs d))), d)) ∧
  (∀ ns m, State_LeaseGroup ns m now d =
     (Ok (filter (λ x, lk_Namespace x.1 = ns ∧ lk_ModelUUID x.1 = m) (sp_leases (abs d))), d)) ∧
  ∃ pinned, State_Pinned now d = (Ok pinned, d) ∧
    ∀ k, match pinned !! k with
         | Some es => es ≠ [] ∧ ∀ e, e ∈ es ↔ (k, e) ∈ sp_pins (abs d)
         | None => ∀ e, (k, e) ∉ sp_pins (abs d)
         end.
Proof.
  intros Hwf. split_and!.
  - apply leases_all.
  - intros k. by apply leases_one.
  - intros ns m. by apply leases_group.
  - destruct (pinned_entities now d Hwf) as (m & E & Hm). exists m. split; [done|]. intros k.
    specialize (Hm k). destruct (m !! k); [done|]. intros e He. apply Hm.
    unfold spec_pinned. apply elem_of_map. by exists (k, e).
Qed.


(** ** Where the tables fall short *)

(** A claim in a namespace that the schema does not list succeeds and records
    nothing, so that anyone else may claim the same. *)
Lemma unknown_namespace_claim uuid k req now d :
  ¬ known k → run_op (OpClaim uuid k req) now d = (Ok (), d).
Proof.
  intros Hk. destruct (type_rows (lk_Namespace k)) as [(i & _ & _ & ?)|[Ef _]]; [done|].
  unfold run_op, op_body, State_ClaimLease. by rewrite Ef.
Qed.

Lemma objectstore_namespace_unknown m l : ¬ known (MkLeaseKey ObjectStoreNamespace m l).
Proof. unfold known. simpl. rewrite !elem_of_cons, elem_of_nil. by intros [|[|[|[]]]]. Qed.

(** The holder cannot revoke a lease that is pinned: the foreign key fails. *)
Lemma pinned_lease_not_revoked k i e now d :
  lease_wf d → leases_of d !! k = Some i → (k, e) ∈ pins_of d →
  run_op (OpRevoke k (li_Holder i)) now d = (Err ErrConstraintForeignKey, d).
Proof.
  intros Hwf Hi Hp. destruct (run_op (OpRevoke k (li_Holder i)) now d) as [r d'] eqn:E.
  assert (r = Err ErrConstraintForeignKey) as ->.
  { apply OpRevoke_ok in E as [_ E]; [|done]. simpl in E. rewrite Hi, decide_True in E by done.
    rewrite decide_True in E; [congruence|]. apply elem_of_map. by exists (k, e). }
  unfold run_op, statement in E. destruct (op_body _ _ _) as [[] ?]; by simplify_eq.
Qed.
