(* ===== verification/LeaseManager.v ===== *)
(** * The lease manager

    internal/worker/lease: the worker of a controller through which units and
    controllers claim leases, have them checked, revoked and pinned, and wait for
    one to be free.  Its loop receives requests on channels; a claim or a
    revocation is handled by a goroutine of its own, which tries again when the
    database is busy; those who wait for a lease are told when it is gone, for
    which the manager keeps a timer.  internal/lease has the secretaries, who
    judge the names in a request.

    A channel is a number.  What was sent on the channels of requests is
    [lm_responses], the channels that were closed [lm_unblocked] and
    [lm_started]; a goroutine that is under way is an element of
    [lm_goroutines].  One turn of the loop is [choose], for each case of its
    [select]. *)

From S2P Require Import Prelude Hooks LeaseStore.

(** ** internal/lease *)

(** The names library, for tags and applications. *)
Class LeaseNames : Type := {
  IsValidApplication : string → bool;
  ParseTag : string → result string;
  ControllerAgentTagKind : string;
  MachineTagKind : string;
}.

(** The kind of a tag is all that is used of it. *)
Definition IsAllowedControllerTag `{LeaseNames} (kind : string) : bool :=
  bool_decide (kind = ControllerAgentTagKind) || bool_decide (kind = MachineTagKind).

Record Secretary : Type := MkSecretary {
  CheckLease : LeaseKey → result ();
  CheckHolder : string → result ();
  CheckDuration : Z → result ();
}.

Definition baseSecretary_CheckDuration (duration : Z) : result () :=
  if decide (duration ≤ 0)%Z then Err (NotValid "non-positive") else Ok ().

Abbreviation ObjectStoreLeaseHolderName := "objectstore".

Section secretaries.
Context `{LeaseNames, Names}.

Definition SingularSecretary (controllerUUID : string) : Secretary := {|
  CheckLease key :=
    if bool_decide (lk_Lease key ≠ controllerUUID) && bool_decide (lk_Lease key ≠ lk_ModelUUID key)
    then Err (ErrNew "expected controller or model UUID") else Ok ();
  CheckHolder name :=
    kind ← ParseTag name;
    if IsAllowedControllerTag kind then Ok ()
    else Err (ErrNew "expected machine or controller tag");
  CheckDuration := baseSecretary_CheckDuration;
|}.

Definition LeadershipSecretary : Secretary := {|
  CheckLease key :=
    if IsValidApplication (lk_Lease key) then Ok () else Err (NotValid "not an application name");
  CheckHolder name := if IsValidUnit name then Ok () else Err (NotValid "not a unit name");
  CheckDuration := baseSecretary_CheckDuration;
|}.

(** core/objectstore/lease.go *)
Definition objectstore_ParseLeaseHolderName (name : string) : result () :=
  if decide (name = ObjectStoreLeaseHolderName) then Ok ()
  else Err (NotValid "lease holder name %q %w").

Definition ObjectStoreSecretary : Secretary := {|
  CheckLease key :=
    if decide (lk_Lease key = "") then Err (NotValid "empty lease name") else Ok ();
  CheckHolder := objectstore_ParseLeaseHolderName;
  CheckDuration := baseSecretary_CheckDuration;
|}.

(** core/backups/lease.go *)
Definition backups_ParseLeaseHolderName (name : string) : result () :=
  if decide (name = "") then Err (NotValid "lease holder name %q %w") else Ok ().

Definition BackupCreationSecretary : Secretary := {|
  CheckLease key :=
    if decide (lk_Lease key = "") then Err (NotValid "empty lease name") else Ok ();
  CheckHolder := backups_ParseLeaseHolderName;
  CheckDuration := baseSecretary_CheckDuration;
|}.

Definition NewSecretaryFinder (controllerUUID : string) : gmap string Secretary :=
  list_to_map [
    (SingularControllerNamespace, SingularSecretary controllerUUID);
    (ApplicationLeadershipNamespace, LeadershipSecretary);
    (ObjectStoreNamespace, ObjectStoreSecretary);
    (BackupCreationNamespace, BackupCreationSecretary)].

Definition SecretaryFor (finder : gmap string Secretary) (namespace : string) : result Secretary :=
  match finder !! namespace with
  | Some s => Ok s
  | None => Err (NotValid "namespace %q")
  end.
End secretaries.

(** ** Requests *)

Record claim : Type := MkClaim {
  c_leaseKey : LeaseKey;
  c_holderName : string;
  c_duration : Z;
  c_response : nat;
}.

Record revoke : Type := MkRevoke {
  rv_leaseKey : LeaseKey;
  rv_holderName : string;
  rv_response : nat;
}.

Record check : Type := MkCheck {
  ck_leaseKey : LeaseKey;
  ck_holderName : string;
  ck_response : nat;
}.

Record pin : Type := MkPin {
  pn_leaseKey : LeaseKey;
  pn_entity : string;
  pn_response : nat;
}.

(** [b_started] is the channel that the function of that name closes, once. *)
Record block : Type := MkBlock {
  b_leaseKey : LeaseKey;
  b_unblock : nat;
  b_started : option nat;
}.

(** What goroutines of the manager are at: a claim or a revocation that was
    received, or sending on [expireDone] after a revocation. *)
Inductive goroutine : Type :=
| GoClaim (c : claim)
| GoRevoke (r : revoke)
| GoExpireDone.

(** ** The manager

    [lm_nextTimeout] is None for the zero time.  [lm_timer] is the time at which
    the timer goes off, None when it has none or was received.  [lm_tomb] is why
    the manager is dying, if it is. *)
Record LeaseManager : Type := MkLeaseManager {
  lm_nextTimeout : option Z;
  lm_timer : option Z;
  lm_blocks : gmap LeaseKey (list nat);
  lm_unblocked : gset nat;
  lm_started : gset nat;
  lm_responses : gmap nat (option error);
  lm_goroutines : list goroutine;
  lm_outstandingClaims : Z;
  lm_outstandingRevokes : Z;
  lm_tomb : option (option error);
}.

Definition lm_set_timer (next due : option Z) (m : LeaseManager) : LeaseManager :=
  MkLeaseManager next due (lm_blocks m) (lm_unblocked m) (lm_started m) (lm_responses m)
    (lm_goroutines m) (lm_outstandingClaims m) (lm_outstandingRevokes m) (lm_tomb m).
Definition lm_set_blocks (b : gmap LeaseKey (list nat)) (m : LeaseManager) : LeaseManager :=
  MkLeaseManager (lm_nextTimeout m) (lm_timer m) b (lm_unblocked m) (lm_started m) (lm_responses m)
    (lm_goroutines m) (lm_outstandingClaims m) (lm_outstandingRevokes m) (lm_tomb m).
Definition lm_set_unblocked (u : gset nat) (m : LeaseManager) : LeaseManager :=
  MkLeaseManager (lm_nextTimeout m) (lm_timer m) (lm_blocks m) u (lm_started m) (lm_responses m)
    (lm_goroutines m) (lm_outstandingClaims m) (lm_outstandingRevokes m) (lm_tomb m).
Definition lm_set_started (s : gset nat) (m : LeaseManager) : LeaseManager :=
  MkLeaseManager (lm_nextTimeout m) (lm_timer m) (lm_blocks m) (lm_unblocked m) s (lm_responses m)
    (lm_goroutines m) (lm_outstandingClaims m) (lm_outstandingRevokes m) (lm_tomb m).
Definition lm_set_responses (r : gmap nat (option error)) (m : LeaseManager) : LeaseManager :=
  MkLeaseManager (lm_nextTimeout m) (lm_timer m) (lm_blocks m) (lm_unblocked m) (lm_started m) r
    (lm_goroutines m) (lm_outstandingClaims m) (lm_outstandingRevokes m) (lm_tomb m).
Definition lm_set_goroutines (g : list goroutine) (m : LeaseManager) : LeaseManager :=
  MkLeaseManager (lm_nextTimeout m) (lm_timer m) (lm_blocks m) (lm_unblocked m) (lm_started m)
    (lm_responses m) g (lm_outstandingClaims m) (lm_outstandingRevokes m) (lm_tomb m).
Definition lm_add_outstanding (c r : Z) (m : LeaseManager) : LeaseManager :=
  MkLeaseManager (lm_nextTimeout m) (lm_timer m) (lm_blocks m) (lm_unblocked m) (lm_started m)
    (lm_responses m) (lm_goroutines m) (lm_outstandingClaims m + c) (lm_outstandingRevokes m + r)
    (lm_tomb m).
Definition lm_set_tomb (t : option (option error)) (m : LeaseManager) : LeaseManager :=
  MkLeaseManager (lm_nextTimeout m) (lm_timer m) (lm_blocks m) (lm_unblocked m) (lm_started m)
    (lm_responses m) (lm_goroutines m) (lm_outstandingClaims m) (lm_outstandingRevokes m) t.

(** [NewManager], before its loop starts. *)
Definition NewManager : LeaseManager := MkLeaseManager None None ∅ ∅ ∅ ∅ [] 0 0 None.

Abbreviation errStopped := (ErrNew "lease manager stopped").
Definition maxRetries : nat := 10.

(** tomb.ErrDying *)
Abbreviation lease_ErrDying := (ErrConst "tomb: dying").

(** The clock's [Now]; starting the timer, which gives the time at which it goes
    off; whether a [select] finds the tomb dying; and [Next] of a retry attempt,
    which may be false when the tomb is dying. *)
Record ManagerAPI (W : Type) : Type := MkManagerAPI {
  ma_Now : W → Z * W;
  ma_Reset : Z → W → Z * W;
  ma_Dying : W → bool * W;
  ma_Next : W → bool * W;
}.
Arguments ma_Now {W} _ _.
Arguments ma_Reset {W} _ _ _.
Arguments ma_Dying {W} _ _.
Arguments ma_Next {W} _ _.

Definition isFatalRetryError (e : error) : bool :=
  if IsErrRetryable e then false
  else if lease_IsTimeout e then false
  else if lease_IsInvalid e then false
  else true.

(** The action and the count play no part in it. *)
Definition isFatalClaimRetryError (e : error) : bool :=
  if IsErrRetryable e then false
  else if lease_IsTimeout e then false
  else if lease_IsInvalid e then false
  else true.

Section manager.
Context {W : Type} `{MapOrder W}.
Context (LM : lens W LeaseManager) (store : LeaseStore W) (api : ManagerAPI W) (MaxSleep : Z).

(** [tomb.Kill] with a reason: the first one stays. *)
Definition tomb_Kill (e : error) : M W () :=
  over LM (λ m, lm_set_tomb (Some (match lm_tomb m with Some (Some e') => Some e' | _ => Some e end)) m).

(** [respond] of a request. *)
Definition respond (id : nat) (r : option error) : M W () :=
  stop ← always (ma_Dying api);
  if stop : bool then mret ()
  else over LM (λ m, lm_set_responses (<[id := r]> (lm_responses m)) m).

Definition lookupLease (leaseKey : LeaseKey) : M W (option LeaseInfo) :=
  leases ← Leases store [leaseKey];
  mret (leases !! leaseKey).

(** ** Claims and revocations *)

(** The last steps of [handleClaim] and [handleRevoke], after the store. *)
Definition store_outcome {A} (a : A) (r : result ()) : M W A :=
  match r with
  | Ok _ => mret a
  | Err e => if lease_IsAborted e then throw lease_ErrDying else throw e
  end.

Definition handleClaim (c : claim) : M W bool :=
  dying ← always (ma_Dying api);
  if dying : bool then throw lease_ErrDying
  else
    info ← lookupLease (c_leaseKey c);
    let request := MkLeaseRequest (c_holderName c) (c_duration c) in
    match info with
    | None => r ← try (ClaimLease store (c_leaseKey c) request); store_outcome true r
    | Some i =>
        if decide (li_Holder i = c_holderName c) then
          r ← try (ExtendLease store (c_leaseKey c) request); store_outcome true r
        else mret false
    end.

(** The loop over the attempts; [last] is what the variables err and success say
    before it. *)
Fixpoint attempts {A} (n : nat) (fatal : error → bool) (body : M W A) (last : result A) :
    M W (result A) :=
  match n with
  | O => mret last
  | S n' =>
      next ← always (ma_Next api);
      if next : bool then
        r ← try body;
        match r with
        | Ok _ => mret r
        | Err e => if fatal e then mret r else attempts n' fatal body r
        end
      else mret last
  end.

Definition startingClaim : M W () := over LM (lm_add_outstanding 1 0).
Definition finishedClaim : M W () := over LM (lm_add_outstanding (-1) 0).
Definition startingRevoke : M W () := over LM (lm_add_outstanding 0 1).
Definition finishedRevoke : M W () := over LM (lm_add_outstanding 0 (-1)).

Definition retryingClaim (c : claim) : M W () :=
  finally (
    r ← attempts maxRetries isFatalClaimRetryError (handleClaim c) (Ok false);
    match r with
    | Ok true => respond (c_response c) None
    | Ok false => respond (c_response c) (Some lease_ErrClaimDenied)
    | Err e =>
        if lease_IsTimeout e || IsErrRetryable e then respond (c_response c) (Some lease_ErrTimeout)
        else if lease_IsInvalid e then respond (c_response c) (Some lease_ErrClaimDenied)
        else if lease_IsHeld e then respond (c_response c) (Some lease_ErrClaimDenied)
        else tomb_Kill e
    end) finishedClaim.

Definition handleRevoke (r : revoke) : M W () :=
  dying ← always (ma_Dying api);
  if dying : bool then throw lease_ErrDying
  else
    info ← lookupLease (rv_leaseKey r);
    match info with
    | None => mret ()
    | Some i =>
        if decide (li_Holder i = rv_holderName r) then
          x ← try (RevokeLease store (rv_leaseKey r) (rv_holderName r)); store_outcome () x
        else throw lease_ErrNotHeld
    end.

(** After a success the goroutine goes on to send on [expireDone]. *)
Definition retryingRevoke (rv : revoke) : M W () :=
  r ← attempts maxRetries isFatalRetryError (handleRevoke rv) (Ok ());
  match r with
  | Ok _ =>
      _ ← respond (rv_response rv) None;
      dying ← always (ma_Dying api);
      if dying : bool then finishedRevoke
      else over LM (λ m, lm_set_goroutines (lm_goroutines m ++ [GoExpireDone]) m)
  | Err e =>
      finally (
        if lease_IsTimeout e || IsErrRetryable e then respond (rv_response rv) (Some lease_ErrTimeout)
        else if lease_IsInvalid e then respond (rv_response rv) (Some e)
        else if lease_IsNotHeld e then respond (rv_response rv) (Some e)
        else tomb_Kill e) finishedRevoke
  end.

(** ** The timer *)

Definition setNextTimeout (t : Z) : M W () :=
  now ← always (ma_Now api);
  m ← gets (view LM);
  if match lm_nextTimeout m with
     | Some next => bool_decide (now ≤ next)%Z && bool_decide (next ≤ t)%Z
     | None => false
     end
  then mret ()
  else
    _ ← over LM (λ m, lm_set_timer (Some t) (lm_timer m) m);
    due ← always (ma_Reset api (t - now)%Z);
    over LM (λ m, lm_set_timer (lm_nextTimeout m) (Some due) m).

(** The loop over the leases, in any order. *)
Definition earliest (nextTick : Z) (infos : list LeaseInfo) : Z :=
  foldl (λ t i, if decide (t < li_Expiry i)%Z then t else li_Expiry i) nextTick infos.

Definition computeNextTimeout (leases : gmap LeaseKey LeaseInfo) : M W () :=
  now ← always (ma_Now api);
  w ← get;
  let nextTick := earliest (now + MaxSleep)%Z (range w (map_to_list leases)).*2 in
  let nextTick := if decide (now < nextTick)%Z then nextTick else now in
  setNextTimeout (nextTick + second)%Z.

(** ** Blocks *)

Definition close_unblock (id : nat) : M W () :=
  m ← gets (view LM);
  if decide (id ∈ lm_unblocked m) then throw (GoPanic "close of closed channel")
  else over LM (λ m, lm_set_unblocked ({[id]} ∪ lm_unblocked m) m).

(** [blocks.add] *)
Definition blocks_add (b : block) : M W () :=
  over LM (λ m,
    let m := match b_started b with
             | Some s => lm_set_started ({[s]} ∪ lm_started m) m
             | None => m
             end in
    lm_set_blocks (<[b_leaseKey b := default [] (lm_blocks m !! b_leaseKey b) ++ [b_unblock b]]>
      (lm_blocks m)) m).

(** [blocks.unblock] *)
Definition blocks_unblock (key : LeaseKey) : M W () :=
  unblocks ← look LM (λ m, default [] (lm_blocks m !! key));
  _ ← over LM (λ m, lm_set_blocks (delete key (lm_blocks m)) m);
  for_each unblocks close_unblock.

Definition checkBlocks : M W () :=
  leases ← Leases store [];
  m ← gets (view LM);
  w ← get;
  _ ← for_each (range w (map_to_list (lm_blocks m))).*1 (λ key,
    match leases !! key with
    | Some _ => mret ()
    | None => blocks_unblock key
    end);
  computeNextTimeout leases.

Definition tick : M W () := checkBlocks.

(** ** Checks and pins *)

Definition handleCheck (c : check) : M W () :=
  info ← lookupLease (ck_leaseKey c);
  match info with
  | Some i =>
      respond (ck_response c)
        (if decide (li_Holder i = ck_holderName c) then None else Some lease_ErrNotHeld)
  | None =>
      now ← always (ma_Now api);
      _ ← setNextTimeout (now + second)%Z;
      respond (ck_response c) (Some lease_ErrNotHeld)
  end.

Definition error_of {A} (r : result A) : option error :=
  match r with Ok _ => None | Err e => Some e end.

Definition handlePin (p : pin) : M W () :=
  r ← try (PinLease store (pn_leaseKey p) (pn_entity p));
  respond (pn_response p) (error_of r).

Definition handleUnpin (p : pin) : M W () :=
  r ← try (UnpinLease store (pn_leaseKey p) (pn_entity p));
  respond (pn_response p) (error_of r).

(** [Manager.pinned] and [Manager.leases] *)
Definition manager_pinned (namespace modelUUID : string) : M W (gmap string (list string)) :=
  pinned ← Pinned store;
  w ← get;
  mret (foldl (λ m x,
    if bool_decide (lk_Namespace x.1 = namespace) && bool_decide (lk_ModelUUID x.1 = modelUUID)
    then <[lk_Lease x.1 := x.2]> m else m) ∅ (range w (map_to_list pinned))).

Definition manager_leases (namespace modelUUID : string) : M W (gmap string string) :=
  group ← LeaseGroup store namespace modelUUID;
  w ← get;
  mret (foldl (λ m x, <[lk_Lease x.1 := li_Holder x.2]> m) ∅ (range w (map_to_list group))).

(** ** The loop *)

(** The cases of the [select] in [choose], and a goroutine that runs to its end;
    [MvExpireDone] is received from one that is there to send it. *)
Inductive lease_event : Type :=
| MvDying
| MvCheck (c : check)
| MvTimer
| MvExpireDone
| MvClaim (c : claim)
| MvRevoke (r : revoke)
| MvPin (p : pin)
| MvUnpin (p : pin)
| MvBlock (b : block).

Definition spawn (g : goroutine) : M W () :=
  over LM (λ m, lm_set_goroutines (lm_goroutines m ++ [g]) m).

Definition choose (e : lease_event) : M W () :=
  match e with
  | MvDying => throw lease_ErrDying
  | MvCheck c => handleCheck c
  | MvTimer => _ ← over LM (λ m, lm_set_timer (lm_nextTimeout m) None m); tick
  | MvExpireDone => checkBlocks
  | MvClaim c => _ ← startingClaim; spawn (GoClaim c)
  | MvRevoke r => _ ← startingRevoke; spawn (GoRevoke r)
  | MvPin p => handlePin p
  | MvUnpin p => handleUnpin p
  | MvBlock b => blocks_add b
  end.

(** What [loop] does before its first turn. *)
Definition manager_start : M W () :=
  leases ← Leases store [];
  computeNextTimeout leases.

(** What a goroutine does. *)
Definition run_goroutine (g : goroutine) : M W () :=
  match g with
  | GoClaim c => retryingClaim c
  | GoRevoke r => retryingRevoke r
  | GoExpireDone => finishedRevoke
  end.

(** ** Clients *)

Record boundManager : Type := MkBoundManager {
  bm_secretary : Secretary;
  bm_namespace : string;
  bm_modelUUID : string;
}.

Definition bind (finder : gmap string Secretary) (namespace modelUUID : string) : result boundManager :=
  secretary ← SecretaryFor finder namespace;
  Ok (MkBoundManager secretary namespace modelUUID).

Definition leaseKey (b : boundManager) (leaseName : string) : LeaseKey :=
  MkLeaseKey (bm_namespace b) (bm_modelUUID b) leaseName.

(** What comes on the channel of a request, once it was handled; nothing comes
    when the manager stops. *)
Definition response (id : nat) : M W () :=
  m ← gets (view LM);
  match lm_responses m !! id with
  | Some None => mret ()
  | Some (Some e) => throw e
  | None => throw errStopped
  end.

(** [invoke] of a request: the manager stops before it receives it, or handles
    it; when its handling fails, the manager stops. *)
Definition invoke (handle : M W ()) (id : nat) : M W () :=
  stop ← always (ma_Dying api);
  if stop : bool then throw errStopped
  else
    r ← try handle;
    match r with
    | Ok _ => response id
    | Err e => _ ← tomb_Kill e; throw errStopped
    end.

Definition claim_invoke (c : claim) : M W () :=
  invoke (_ ← startingClaim; retryingClaim c) (c_response c).
Definition revoke_invoke (r : revoke) : M W () :=
  invoke (_ ← startingRevoke; retryingRevoke r) (rv_response r).
Definition check_invoke (c : check) : M W () := invoke (handleCheck c) (ck_response c).

(** [id] is the response channel that the call makes. *)
Definition Claim (b : boundManager) (leaseName holderName : string) (duration : Z) (id : nat) : M W () :=
  let key := leaseKey b leaseName in
  _ ← lift_result (CheckLease (bm_secretary b) key);
  _ ← lift_result (CheckHolder (bm_secretary b) holderName);
  _ ← lift_result (CheckDuration (bm_secretary b) duration);
  claim_invoke (MkClaim key holderName duration id).

Definition Revoke (b : boundManager) (leaseName holderName : string) (id : nat) : M W () :=
  let key := leaseKey b leaseName in
  _ ← lift_result (CheckLease (bm_secretary b) key);
  _ ← lift_result (CheckHolder (bm_secretary b) holderName);
  revoke_invoke (MkRevoke key holderName id).

(** [token.Check] of the token that [Token] makes. *)
Definition token_Check (b : boundManager) (leaseName holderName : string) (id : nat) : M W () :=
  let key := leaseKey b leaseName in
  _ ← lift_result (CheckLease (bm_secretary b) key);
  _ ← lift_result (CheckHolder (bm_secretary b) holderName);
  check_invoke (MkCheck key holderName id).

Definition Pin (b : boundManager) (leaseName entity : string) (id : nat) : M W () :=
  let p := MkPin (leaseKey b leaseName) entity id in invoke (handlePin p) id.
Definition Unpin (b : boundManager) (leaseName entity : string) (id : nat) : M W () :=
  let p := MkPin (leaseKey b leaseName) entity id in invoke (handleUnpin p) id.

(** What [invoke] of a block may return, given whether its context was cancelled:
    a [select] takes any case that is ready. *)
Definition block_results (b : block) (cancelled : bool) (m : LeaseManager) : list (result ()) :=
  (match lm_tomb m with Some _ => [Err errStopped] | None => [] end) ++
  (if cancelled then [Err lease_ErrWaitCancelled] else []) ++
  (if decide (b_unblock b ∈ lm_unblocked m) then [Ok ()] else []).

(** What [WaitUntilExpired] may return; [unblock] is the channel that it makes. *)
Definition WaitUntilExpired (b : boundManager) (leaseName : string) (unblock : nat)
    (started : option nat) (cancelled : bool) (m : LeaseManager) : list (result ()) :=
  let key := leaseKey b leaseName in
  match CheckLease (bm_secretary b) key with
  | Err e => [Err e]
  | Ok _ => block_results (MkBlock key unblock started) cancelled m
  end.

Definition bound_Leases (b : boundManager) : M W (gmap string string) :=
  manager_leases (bm_namespace b) (bm_modelUUID b).
Definition bound_Pinned (b : boundManager) : M W (gmap string (list string)) :=
  manager_pinned (bm_namespace b) (bm_modelUUID b).
End manager.
