(* ===== verification/LeaseManagerFacts.v ===== *)
(** * What the lease manager guarantees

    A claim that succeeds gives the lease to the holder for the duration from the
    start of the call; a claim that is denied was denied for a reason.  What the
    world around the manager may do is [LeaseWorld]. *)

From S2P Require Import Prelude GoText Hooks LeaseStore Txn LeaseStoreFacts LeaseSafety LeaseManager.

(** ** What goes on besides

    While a request is handled, time passes and others use the tables, by
    operations that [allowed] admits. *)
Section env.
Context (allowed : store_op → Z → lease_db → Prop).

Inductive env_step : Z * lease_db → Z * lease_db → Prop :=
| es_time n n' d : (n ≤ n')%Z → env_step (n, d) (n', d)
| es_op o n d r d' :
    allowed o (n / second)%Z d → run_op o (n / second) d = (r, d') → env_step (n, d) (n, d').

Lemma env_time s s' : rtc env_step s s' → (s.1 ≤ s'.1)%Z.
Proof.
  induction 1 as [|s s1 s' H _ IH]; [done|]. inversion H; subst; simpl in *; lia.
Qed.

Lemma env_wf s s' : rtc env_step s s' → lease_wf s.2 → lease_wf s'.2.
Proof.
  induction 1 as [|s s1 s' H _ IH]; intros Hwf; [done|]. apply IH.
  inversion H as [|? ? ? ? ? _ Ho]; subst; simpl in *; [done|]. by apply run_op_cases in Ho as [? _].
Qed.

(** The lease is kept, until time is up. *)
Definition kept (k : LeaseKey) (h : string) (u : Z) (s : Z * lease_db) : Prop :=
  (s.1 ≤ u)%Z → has_lease k h u s.2.

Lemma env_kept k h u s s' :
  (∀ o n d, allowed o n d → harmless k h o n d) →
  rtc env_step s s' → lease_wf s.2 → kept k h u s → kept k h u s'.
Proof.
  intros Ha. induction 1 as [|s s1 s' H _ IH]; intros Hwf Hk; [done|]. apply IH.
  - by eapply (env_wf s); [apply rtc_once|].
  - inversion H as [n n' d Hn|o n d r d' Hal Ho]; subst; intros Hu; simpl in *.
    + apply Hk. simpl. lia.
    + by eapply op_keeps; eauto.
Qed.

(** A transaction in the tables [d] at the time [n], which are [d'] afterwards.
    When the driver fails it may have been committed or not. *)
Definition driver_error (e : error) : Prop :=
  e ≠ lease_ErrInvalid ∧ e ≠ lease_ErrHeld ∧ ∀ s, e ≠ GoPanic s.

Inductive ran {A} (f : Z → M lease_db A) (n : Z) (d : lease_db) : result A → lease_db → Prop :=
| ran_ok a d' : f (n / second)%Z d = (Ok a, d') → ran f n d (Ok a) d'
| ran_err e d' : f (n / second)%Z d = (Err e, d') → ran f n d (Err e) d
| ran_lost a d' e : f (n / second)%Z d = (Ok a, d') → driver_error e → ran f n d (Err e) d'
| ran_failed e : driver_error e → ran f n d (Err e) d.

(** The attempts at a transaction, each among what others do: all but the last
    reported an error. *)
Inductive attempted {A} (f : Z → M lease_db A) : Z * lease_db → result A → Z * lease_db → Prop :=
| at_last s n d r d' s' :
    rtc env_step s (n, d) → ran f n d r d' → rtc env_step (n, d') s' → attempted f s r s'
| at_again s n d e d' r s' :
    rtc env_step s (n, d) → ran f n d (Err e) d' → attempted f (n, d') r s' → attempted f s r s'.

(** What the caller gets to see. *)
Definition coerced {A} (r : result A) : result A :=
  match r with Ok a => Ok a | Err e => Err (CoerceError e) end.
End env.

Section manager_facts.
Context {W : Type} {MO : MapOrder W}.
Context (LM : lens W LeaseManager) (db : LeaseDatabase W) (api : ManagerAPI W) (MaxSleep : Z).
Context (tables : W → lease_db) (time : W → Z).
Context (allowed : store_op → Z → lease_db → Prop).

(** ** A request among others *)
Section request.
Context (id : nat).

(** What was sent on the channel of the request. *)
Definition sent (w : W) : option (option error) := lm_responses (view LM w) !! id.

(** Whatever happens, nobody else sends on the channel. *)
Definition others (w w' : W) : Prop :=
  sent w' = sent w ∧ rtc (env_step allowed) (time w, tables w) (time w', tables w').

Class LeaseWorld : Prop := {
  lsw_laws :: LensLaws LM;
  lsw_apart m w : tables (update LM m w) = tables w ∧ time (update LM m w) = time w;
  lsw_txn {A} (f : Z → M lease_db A) w r w' : txn db f w = (r, w') →
    sent w' = sent w ∧ ∃ r0, (r = r0 ∨ r = coerced r0) ∧
      attempted allowed f (time w, tables w) r0 (time w', tables w');
  lsw_NewUUID w r w' : NewUUID db w = (r, w') → others w w' ∧ ∀ e, r = Err e → driver_error e;
  lsw_Dying w b w' : ma_Dying api w = (b, w') → others w w';
  lsw_Next w b w' : ma_Next api w = (b, w') → others w w';
}.
Context {LSW : LeaseWorld}.

Lemma others_refl w : others w w.
Proof. by split. Qed.
Lemma others_trans w w1 w' : others w w1 → others w1 w' → others w w'.
Proof. intros [E1 H1] [E2 H2]. split; [congruence|]. by etrans. Qed.

(** *** A claim *)
Section claiming.
Context (k : LeaseKey) (h : string) (D : Z).
Context (Hk : known k) (Hharm : ∀ o n d, allowed o n d → harmless k h o n d).
Abbreviation req := (MkLeaseRequest h D).

(** The operations there may be during the claim, its own among them. *)
Definition also (o : store_op) (n : Z) (d : lease_db) : Prop :=
  allowed o n d ∨ (∃ uuid, o = OpClaim uuid k req) ∨ o = OpExtend k req.

Definition not_holder (d : lease_db) : Prop := ∀ i, leases_of d !! k = Some i → li_Holder i ≠ h.

(** What the calls of the interface keep. *)
Definition stable (P : W → Prop) : Prop := ∀ w w', others w w' → P w → P w'.

Lemma env_also s s' : rtc (env_step allowed) s s' → rtc (env_step also) s s'.
Proof.
  induction 1 as [|s s1 s' H _ IH]; [done|]. eapply rtc_l; [|done]. inversion H; subst.
  - by constructor.
  - eapply es_op; [by left|done].
Qed.

(** From a time and the tables of that time. *)
Section base.
Context (s0 : Z * lease_db) (Hwf0 : lease_wf s0.2).

Definition since (s : Z * lease_db) : Prop := rtc (env_step also) s0 s.

(** At some moment of the call. *)
Definition moment (P : lease_db → Prop) (w : W) : Prop :=
  ∃ n d, since (n, d) ∧ P d ∧ rtc (env_step also) (n, d) (time w, tables w).

(** During the call, with [x] sent so far. *)
Definition calling (x : option (option error)) (w : W) : Prop :=
  since (time w, tables w) ∧ sent w = x.

Definition guaranteed (w : W) : Prop := kept k h (s0.1 + D) (time w, tables w).

Lemma since_wf s : since s → lease_wf s.2.
Proof. intros H. by apply (env_wf _ _ _ H). Qed.
Lemma since_time s : since s → (s0.1 ≤ s.1)%Z.
Proof. intros H. by apply env_time in H. Qed.

Lemma calling_others x w w' : others w w' → calling x w → calling x w'.
Proof.
  intros [Es H%env_also] [Hs <-]. split; [|done]. unfold since in *. by etrans.
Qed.
Lemma moment_others P w w' : others w w' → moment P w → moment P w'.
Proof. intros [_ H%env_also] (n & d & ? & ? & ?). exists n, d. split_and!; [done..|]. by etrans. Qed.
Lemma guaranteed_others x w w' : others w w' → calling x w → guaranteed w → guaranteed w'.
Proof. intros [_ H] [Hs _]. eapply env_kept; [done..|]. apply (since_wf _ Hs). Qed.

Lemma stable_calling x : stable (calling x).
Proof. intros w w'. apply calling_others. Qed.
Lemma stable_guaranteed x : stable (λ w, calling x w ∧ guaranteed w).
Proof. intros w w' H [Hc Hg]. split; [by eapply calling_others|by eapply guaranteed_others]. Qed.
Lemma stable_moment x P : stable (λ w, calling x w ∧ moment P w).
Proof. intros w w' H [Hc Hg]. split; [by eapply calling_others|by eapply moment_others]. Qed.

Lemma Dying_triple P E : stable P → triple P (always (ma_Dying api)) (λ _, P) E.
Proof.
  intros HP w r w' Hw H. unfold always in H. destruct (ma_Dying api w) as [b w1] eqn:Ed.
  simplify_eq. eapply HP; [by eapply lsw_Dying|done].
Qed.
Lemma NewUUID_triple P :
  stable P → triple P (NewUUID db) (λ _, P) (λ e w, P w ∧ driver_error e).
Proof.
  intros HP w r w' Hw H. apply lsw_NewUUID in H as [Ho He].
  destruct r; [|split; [|by apply He]]; by eapply HP.
Qed.

Lemma coerced_error e : CoerceError e = e ∨ driver_error (CoerceError e).
Proof. unfold CoerceError. destruct (isDatabaseError e); [right; by split_and!|by left]. Qed.

(** The last attempt happens at one moment; what attempts before it left behind is
    own work. *)
Lemma attempted_spec {A} (f : Z → M lease_db A) s r s' :
  (∀ n d a d', since (n, d) → f (n / second)%Z d = (Ok a, d') → rtc (env_step also) (n, d) (n, d')) →
  attempted allowed f s r s' → since s → since s' ∧
    match r with
    | Ok a => ∃ n d d', since (n, d) ∧ f (n / second)%Z d = (Ok a, d') ∧ rtc (env_step allowed) (n, d') s'
    | Err e => driver_error e ∨ ∃ n d d', since (n, d) ∧ f (n / second)%Z d = (Err e, d') ∧
        rtc (env_step also) (n, d) s'
    end.
Proof.
  intros Hf. induction 1 as [s n d r d' s' H1 Hr H2|s n d e d' r s' H1 Hr _ IH]; intros Hs.
  - apply env_also in H1, H2 as H2'. assert (since (n, d)) as Hnd by (unfold since in *; by etrans).
    inversion Hr as [a ? E|e ? E|a ? e E He|e He]; subst.
    + split; [unfold since in *; etrans; [done|]; etrans; [by eapply Hf|done]|]. by exists n, d, d'.
    + split; [unfold since in *; by etrans|]. right. by eexists n, d', _.
    + split; [unfold since in *; etrans; [done|]; etrans; [by eapply Hf|done]|by left].
    + split; [unfold since in *; by etrans|by left].
  - apply env_also in H1. assert (since (n, d)) as Hnd by (unfold since in *; by etrans).
    apply IH. inversion Hr as [| |a ? e' E He|]; subst; try done.
    unfold since in *. etrans; [done|]. by eapply Hf.
Qed.

(** A transaction happens at one moment. *)
Lemma txn_triple {A} (f : Z → M lease_db A) x :
  (∀ n d a d', since (n, d) → f (n / second)%Z d = (Ok a, d') → rtc (env_step also) (n, d) (n, d')) →
  triple (calling x) (txn db f)
    (λ a w, calling x w ∧ ∃ n d d', since (n, d) ∧ f (n / second)%Z d = (Ok a, d') ∧
       rtc (env_step allowed) (n, d') (time w, tables w))
    (λ e w, calling x w ∧ (driver_error e ∨
       ∃ n d d', since (n, d) ∧ f (n / second)%Z d = (Err e, d') ∧
         rtc (env_step also) (n, d) (time w, tables w))).
Proof.
  intros Hf w r w' [Hs Hx] H. apply lsw_txn in H as (Es & r0 & Hr & Ha).
  apply (attempted_spec f _ _ _ Hf) in Ha as [Hs' Ha]; [|done].
  assert (calling x w') as Hc by (split; [done|congruence]).
  destruct r0 as [a|e].
  - assert (r = Ok a) as -> by (by destruct Hr). by split.
  - destruct Hr as [-> | ->]; [by split|]. split; [done|].
    destruct (coerced_error e) as [->|?]; [done|by left].
Qed.

Lemma op_body_run o n d d' : op_body o n d = (Ok (), d') → run_op o n d = (Ok (), d').
Proof. intros E. unfold run_op, statement. by rewrite E. Qed.

Lemma own_op o n d a d' :
  (∃ uuid, o = OpClaim uuid k req) ∨ o = OpExtend k req →
  op_body o (n / second) d = (Ok a, d') → rtc (env_step also) (n, d) (n, d').
Proof.
  intros Ho E. destruct a. apply rtc_once. eapply es_op; [by right|]. by apply op_body_run.
Qed.

(** An own operation that succeeds gives the lease. *)
Lemma own_guarantee o x w n d d' :
  (∃ uuid, o = OpClaim uuid k req) ∨ o = OpExtend k req → since (n, d) →
  op_body o (n / second) d = (Ok (), d') → rtc (env_step allowed) (n, d') (time w, tables w) →
  calling x w → guaranteed w.
Proof.
  intros Ho Hs E Hr Hc. apply op_body_run in E. apply since_wf in Hs as Hwf. apply since_time in Hs as Ht.
  simpl in *. assert (lease_wf d') by (by apply run_op_cases in E as [? _]).
  eapply (env_kept allowed k h _ (n, d')); [done..|].
  intros Hu. destruct (grant_has_lease o k req n d d' Hwf Hk Ho E) as (e & Ee & He).
  exists e. split; [done|]. simpl in *. lia.
Qed.

Lemma Request_Validate_error r e : Request_Validate r = Err e → ∃ s, e = ErrNew s.
Proof.
  unfold Request_Validate, ValidateString. intros H. unfold mbind, result_bind in H.
  repeat case_match; simplify_eq; eauto.
Qed.

Lemma new_error_is_driver s : driver_error (ErrNew s).
Proof. by split_and!. Qed.

Lemma Validate_triple x :
  triple (calling x) (lift_result (Request_Validate req)) (λ _, calling x)
    (λ e w, calling x w ∧ driver_error e).
Proof.
  apply triple_lift. intros w Hw. destruct (Request_Validate req) eqn:E; [done|].
  apply Request_Validate_error in E as [s ->]. split; [done|apply new_error_is_driver].
Qed.

(** The errors after which a claim is denied. *)
Definition denying (e : error) : Prop := e = lease_ErrInvalid ∨ e = lease_ErrHeld.
Lemma driver_not_denying e : driver_error e → ¬ denying e.
Proof. intros (? & ? & _) [?|?]; done. Qed.

Definition failing (P : W → Prop) (x : option (option error)) (e : error) (w : W) : Prop :=
  calling x w ∧ (∀ s, e ≠ GoPanic s) ∧ (denying e → P w).

Lemma driver_failing P x e w : calling x w → driver_error e → failing P x e w.
Proof.
  intros Hc He. split_and!; [done|apply He|]. intros Hd. by apply driver_not_denying in Hd.
Qed.

(** *** The store *)

Lemma State_Leases_pure keys n d r d' : State_Leases keys n d = (r, d') → d' = d.
Proof. destruct keys as [|? [|? ?]]; intros H; by inversion H. Qed.

Lemma lookupLease_triple x :
  triple (calling x) (lookupLease (NewService db) k)
    (λ i w, calling x w ∧ moment (λ d, leases_of d !! k = i) w)
    (λ e w, failing (moment not_holder) x e w).
Proof.
  unfold lookupLease. cbn [Leases NewService]. unfold Service_Leases.
  rewrite decide_False by (simpl; lia).
  apply (triple_bind _ _ (λ m w, calling x w ∧ moment (λ d, leases_of d !! k = m !! k) w)).
  - eapply triple_conseq; [apply (txn_triple _ x)|done| |].
    + intros n d a d' _ E%State_Leases_pure. subst. done.
    + intros m w (Hc & n & d & d' & Hs & E & Hr). split; [done|].
      apply State_Leases_pure in E as E'. subst d'. apply since_wf in Hs as Hwf.
      destruct (leases_one_lookup k (n / second) d Hwf) as (m' & E' & Hm). rewrite E in E'. injection E' as <-.
      exists n, d. split_and!; [done..|]. by apply env_also.
    + intros e w [Hc [He|(n & d & d' & _ & E & _)]]; [by apply driver_failing|]. done.
  - intros m. apply triple_ret. done.
Qed.

Lemma own_txn_triple o x :
  (∃ uuid, o = OpClaim uuid k req) ∨ o = OpExtend k req →
  triple (calling x) (txn db (op_body o)) (λ _ w, calling x w ∧ guaranteed w)
    (λ e w, calling x w ∧ (driver_error e ∨
       ∃ n d d', since (n, d) ∧ op_body o (n / second)%Z d = (Err e, d') ∧
         rtc (env_step also) (n, d) (time w, tables w))).
Proof.
  intros Ho. eapply triple_conseq; [apply (txn_triple (op_body o) x)|done| |done].
  - intros n d a d' _ E. by eapply own_op.
  - intros [] w (Hc & n & d & d' & Hs & E & Hr). split; [done|]. by eapply own_guarantee.
Qed.

Lemma claim_fails uuid n d e d' :
  lease_wf d → State_ClaimLease uuid k req n d = (Err e, d') →
  e = lease_ErrHeld ∨ e = ErrConstraintPrimaryKey.
Proof.
  intros Hwf E. assert (run_op (OpClaim uuid k req) n d = (Err e, d)) as Er.
  { unfold run_op, op_body, statement. by rewrite E. }
  apply run_op_cases in Er as [_ [Hs|[[= ->] _]]]; [|by right|done].
  simpl in Hs. left. repeat case_match; by simplify_eq.
Qed.

Lemma ClaimLease_triple x :
  triple (calling x) (ClaimLease (NewService db) k req)
    (λ _ w, calling x w ∧ guaranteed w) (λ e w, calling x w ∧ ∀ s, e ≠ GoPanic s).
Proof.
  cbn [ClaimLease NewService]. unfold Service_ClaimLease.
  apply (triple_bind _ _ (λ _, calling x)).
  { eapply triple_conseq; [apply Validate_triple|done|done|].
    intros e w [? He]. split; [done|apply He]. }
  intros _. apply (triple_bind _ _ (λ _, calling x)).
  { eapply triple_conseq; [apply NewUUID_triple, stable_calling|done..|].
    intros e w [? He]. split; [done|apply He]. }
  intros uuid. eapply triple_conseq; [apply (own_txn_triple (OpClaim uuid k req) x)|done|done|].
  - left. by exists uuid.
  - intros e w [Hc [He|(n & d & d' & Hs & E & _)]]; (split; [done|]); [apply He|].
    apply claim_fails in E as [-> | ->]; [done..|apply (since_wf _ Hs)].
Qed.

Lemma extend_fails n d e d' :
  lease_wf d → State_ExtendLease k req n d = (Err e, d') → e = lease_ErrInvalid ∧ not_holder d.
Proof.
  intros Hwf E. assert (run_op (OpExtend k req) n d = (Err e, d)) as Er.
  { unfold run_op, op_body, statement. by rewrite E. }
  apply run_op_cases in Er as [_ [Hs|[[= ->] _]]]; [| |done].
  - simpl in Hs. unfold not_holder. repeat case_match; simplify_eq; (split; [done|]);
      intros i Hi; simplify_eq. done.
  - exfalso. unfold State_ExtendLease in E. destruct (held_cases d k h Hwf) as (sub & Es & _).
    rewrite (bind_ok _ _ _ _ _ Es) in E. unfold update_lease, mbind, M_bind in E.
    case_decide; by simplify_eq.
Qed.

Lemma ExtendLease_triple x :
  triple (calling x) (ExtendLease (NewService db) k req)
    (λ _ w, calling x w ∧ guaranteed w) (failing (moment not_holder) x).
Proof.
  cbn [ExtendLease NewService]. unfold Service_ExtendLease.
  apply (triple_bind _ _ (λ _, calling x)).
  { eapply triple_conseq; [apply Validate_triple|done|done|].
    intros e w [? He]. by apply driver_failing. }
  intros _. eapply triple_conseq; [apply (own_txn_triple (OpExtend k req) x)|done|done|]; [by right|].
  intros e w [Hc [He|(n & d & d' & Hs & E & Hr)]]; [by apply driver_failing|].
  destruct (extend_fails (n / second) d e d' (since_wf _ Hs) E) as [-> Hno]. split_and!; [done..|].
  intros _. by exists n, d.
Qed.
End base.

(** *** The goroutine *)

Abbreviation store := (NewService db).
Abbreviation the_claim := (MkClaim k h D id).

(** The call started at [s0], and there was a moment at which the holder did not
    have the lease. *)
Definition denied (s0 : Z * lease_db) (w : W) : Prop := moment s0 not_holder w.

Lemma calling_wf s0 x w : lease_wf s0.2 → calling s0 x w → lease_wf (tables w).
Proof. intros Hwf [Hs _]. by apply (since_wf _ Hwf _ Hs). Qed.

(** No error value is a panic, so that [try] catches them all. *)
Lemma try_triple {A} P (m : M W A) (Q : A → W → Prop) (E : error → W → Prop) E' :
  triple P m Q E → (∀ e w, E e w → ∀ s, e ≠ GoPanic s) →
  triple P (try m) (λ r w, match r with Ok a => Q a w | Err e => E e w end) E'.
Proof.
  intros Hm HE. apply triple_try; [done|]. intros s w Hs. by destruct (HE _ _ Hs s).
Qed.

(** The lease was free at the moment [s1]. *)
Lemma handleClaim_free s0 s1 x :
  lease_wf s0.2 → since s0 s1 → leases_of s1.2 !! k = None →
  triple (λ w, calling s0 x w ∧ calling s1 x w)
    (r ← try (ClaimLease store k req); store_outcome true r)
    (λ b w, calling s0 x w ∧ if b : bool then guaranteed s0 w else denied s0 w)
    (failing s0 (denied s0) x).
Proof.
  intros Hwf Hs Ei. eapply triple_bind.
  - apply (try_triple _ _ (λ _ w, calling s0 x w ∧ guaranteed s0 w)
      (λ e w, calling s0 x w ∧ denied s0 w ∧ ∀ s, e ≠ GoPanic s)).
    + intros w r w' [H0 H1] H. apply since_wf in Hs as Hwf1; [|done].
      pose proof (ClaimLease_triple s0 Hwf x w r w' H0 H) as T0.
      pose proof (ClaimLease_triple s1 Hwf1 x w r w' H1 H) as T1.
      destruct r as [[]|e]; [done|]. destruct T0 as [? He], T1 as [[Hr1 _] _].
      split_and!; [done| |done]. exists s1.1, s1.2. destruct s1 as [n d]. simpl in *.
      split_and!; [done| |done]. unfold not_holder. by rewrite Ei.
    + by intros e w (_ & _ & ?).
  - intros [[]|e]; [by apply triple_ret|]. unfold store_outcome. case_match eqn:Ea.
    + apply triple_throw. intros w (Hc1 & _). split_and!; [done..|]. by intros [?|?].
    + apply triple_throw. by intros w (? & ? & ?).
Qed.

Lemma handleClaim_triple s0 x :
  lease_wf s0.2 →
  triple (calling s0 x) (handleClaim store api the_claim)
    (λ b w, calling s0 x w ∧ if b : bool then guaranteed s0 w else denied s0 w)
    (failing s0 (denied s0) x).
Proof.
  intros Hwf. unfold handleClaim.
  apply (triple_bind _ _ (λ _, calling s0 x)); [by apply Dying_triple, stable_calling|].
  intros [].
  { apply triple_throw. intros w Hw. split_and!; [done..|]. by intros [?|?]. }
  apply (triple_bind _ _ (λ i w, calling s0 x w ∧ moment s0 (λ d, leases_of d !! k = i) w));
    [by apply lookupLease_triple|].
  intros [i|]; cbn [c_leaseKey c_holderName c_duration].
  - case_decide as Hi.
    + eapply triple_bind; [eapply try_triple; [eapply triple_conseq; [by apply (ExtendLease_triple s0)|
        by intros w []|done|done]|by intros e w (_ & ? & _)]|].
      intros [[]|e]; [by apply triple_ret|]. unfold store_outcome. case_match eqn:Ea.
      * apply triple_throw. intros w (Hc & _). split_and!; [done..|]. by intros [?|?].
      * by apply triple_throw.
    + apply triple_ret. intros w [Hc (n & d & Hs & Ei & Hr)]. split; [done|].
      exists n, d. split_and!; [done| |done]. intros i'. rewrite Ei. by intros [= <-].
  - intros w r w' [Hc (n & d & Hs & Ei & Hr)]. apply (handleClaim_free s0 (n, d)); [done..|].
    split; [done|]. split; [done|apply Hc].
Qed.

(** The retry was told to stop. *)
Definition stopped : Prop := ∃ w1 w2, ma_Next api w1 = (false, w2).

Lemma attempts_triple {A} n fatal (body : M W A) P (Q : A → W → Prop) (E : error → W → Prop)
    last (L : W → Prop) E' :
  stable P → stable L → triple P body Q E → (∀ e w, E e w → P w ∧ ∀ s, e ≠ GoPanic s) →
  (∀ e, stable (E e)) →
  triple (λ w, P w ∧ L w) (attempts api n fatal body last)
    (λ r w, match r with Ok a => Q a w | Err e => E e w end ∨ (r = last ∧ L w ∧ (n = 0 ∨ stopped))) E'.
Proof.
  intros HP HL Hb HE HEs. revert last L HL. induction n as [|n IH]; intros last L HL; simpl.
  { apply triple_ret. intros w [_ ?]. auto. }
  apply (triple_bind _ _ (λ b w, (P w ∧ L w) ∧ (b = false → stopped))).
  { intros w r w' [Hw HLw] H. unfold always in H. destruct (ma_Next api w) as [b w1] eqn:En.
    simplify_eq. apply lsw_Next in En as Ho. split; [split; [by eapply HP|by eapply HL]|].
    intros ->. by exists w, w'. }
  intros []; [|apply triple_ret; intros w [[_ ?] Hs]; right; auto].
  apply (triple_bind _ _ (λ r w, match r with Ok a => Q a w | Err e => E e w end)).
  - eapply triple_conseq; [apply (try_triple P body Q E E' Hb)|by intros w [[] _]|done|done].
    by intros e w2 []%HE.
  - intros [a|e]; [apply triple_ret; by left|]. destruct (fatal e); [apply triple_ret; by left|].
    eapply triple_conseq; [apply (IH (Err e) (E e) (HEs e))| | |done].
    + intros w2 H2. split; [by apply HE in H2 as []|done].
    + intros r2 w2 [?|(-> & ? & _)]; by left.
Qed.

Lemma over_others f w :
  (∀ m, lm_responses (f m) !! id = lm_responses m !! id) →
  others w (update LM (f (view LM w)) w).
Proof.
  intros Hf. destruct (lsw_apart (f (view LM w)) w) as [Et En]. split; [|by rewrite Et, En].
  unfold sent. by rewrite view_update.
Qed.

Lemma over_stable f P E :
  (∀ m, lm_responses (f m) !! id = lm_responses m !! id) → stable P →
  triple P (over LM f) (λ _, P) E.
Proof. intros Hf HP. apply triple_modify. intros w Hw. eapply HP; [by apply over_others|done]. Qed.

(** What the answer to the claim says. *)
Definition verdict (s0 : Z * lease_db) (v : option error) (w : W) : Prop :=
  match v with
  | None => guaranteed s0 w
  | Some e => (∀ s, e ≠ GoPanic s) ∧ (e = lease_ErrClaimDenied → denied s0 w ∨ stopped)
  end.

Definition outcome (s0 : Z * lease_db) (w : W) : Prop :=
  since s0 (time w, tables w) ∧ ∀ v, sent w = Some v → verdict s0 v w.

Lemma stable_verdict s0 v x : lease_wf s0.2 → stable (λ w, calling s0 x w ∧ verdict s0 v w).
Proof.
  intros Hwf w w' H [Hc Hv]. split; [by eapply calling_others|]. destruct v as [e|]; simpl in *.
  - destruct Hv as [Hp Hv]. split; [done|]. intros He. destruct (Hv He) as [?|?]; [left|by right].
    by eapply moment_others.
  - by eapply guaranteed_others.
Qed.

Lemma stable_outcome s0 : lease_wf s0.2 → stable (outcome s0).
Proof.
  intros Hwf w w' H [Hs Hv]. destruct (calling_others s0 (sent w) w w' H) as [Hs' Ex]; [done|].
  split; [done|]. intros v Ev. rewrite Ex in Ev. specialize (Hv v Ev).
  by apply (stable_verdict s0 v (sent w) Hwf w w' H).
Qed.

Lemma respond_triple s0 v E :
  lease_wf s0.2 →
  triple (λ w, calling s0 None w ∧ verdict s0 v w) (respond LM api id v) (λ _, outcome s0) E.
Proof.
  intros Hwf. unfold respond.
  apply (triple_bind _ _ (λ _ w, calling s0 None w ∧ verdict s0 v w));
    [by apply Dying_triple, stable_verdict|].
  intros [].
  - apply triple_ret. intros w [[Hs Ex] _]. split; [done|]. by rewrite Ex.
  - apply triple_modify. intros w [[Hs _] Hv].
    set (m' := lm_set_responses _ _). destruct (lsw_apart m' w) as [Et En].
    unfold outcome, verdict, guaranteed, denied, moment in *. rewrite Et, En. split; [done|].
    intros v'. unfold sent. rewrite view_update. simpl. rewrite lookup_insert_eq. by intros [= <-].
Qed.

Lemma claim_attempts s0 E :
  lease_wf s0.2 →
  triple (calling s0 None)
    (attempts api maxRetries isFatalClaimRetryError (handleClaim store api the_claim) (Ok false))
    (λ r w, calling s0 None w ∧
       match r with
       | Ok true => guaranteed s0 w
       | Ok false => denied s0 w ∨ stopped
       | Err e => denying e → denied s0 w
       end) E.
Proof.
  intros Hwf. eapply (triple_conseq _ E (λ w, calling s0 None w ∧ calling s0 None w));
    [apply (attempts_triple maxRetries isFatalClaimRetryError _ (calling s0 None)
      (λ b w, calling s0 None w ∧ if b : bool then guaranteed s0 w else denied s0 w)
      (failing s0 (denied s0) None) (Ok false) (calling s0 None) E)|done| |done].
  - apply stable_calling.
  - apply stable_calling.
  - by apply handleClaim_triple.
  - by intros e w (? & ? & _).
  - intros e w w' Ho (Hc & ? & Hd). split_and!; [by eapply calling_others|done|].
    intros He. eapply moment_others; [done|by apply Hd].
  - intros [[]|e] w [H|(? & ? & [?|?])]; simplify_eq; try done.
    + destruct H as [? ?]. auto.
    + auto.
    + destruct H as (? & _ & ?). auto.
Qed.

Lemma claim_response s0 v P E :
  lease_wf s0.2 → (∀ w, P w → verdict s0 v w) →
  triple (λ w, calling s0 None w ∧ P w) (respond LM api id v) (λ _, outcome s0) E.
Proof.
  intros Hwf HP. eapply triple_conseq; [by apply (respond_triple s0 v E)| |done|done].
  intros w [? ?]. auto.
Qed.

Lemma retryingClaim_triple s0 E :
  lease_wf s0.2 →
  triple (calling s0 None) (retryingClaim LM store api the_claim) (λ _, outcome s0) E.
Proof.
  intros Hwf. unfold retryingClaim, finally.
  assert (stable (outcome s0)) as Hout by (by apply stable_outcome).
  apply (triple_bind _ _ (λ r w, outcome s0 w ∧ r = Ok ())); last first.
  { intros r. apply (triple_bind _ _ (λ _ w, outcome s0 w ∧ r = Ok ())).
    - apply over_stable; [done|]. intros w w' H [Ho ->]. split; [by eapply Hout|done].
    - intros _. apply triple_lift. by intros w [? ->]. }
  eapply (triple_conseq _ E); [apply (try_triple (calling s0 None) _ (λ _, outcome s0)
    (λ _ _, False) E)|done|by intros [[]|e] w|done]; [|done].
  eapply triple_bind; [by apply claim_attempts|].
  intros [[]|e]; cbn [c_response].
  - by apply claim_response.
  - by apply claim_response.
  - case_match; [by apply claim_response|].
    case_match eqn:Ei; [apply claim_response; [done|]|].
    { intros w Hd. split; [done|]. intros _. left. apply Hd. left. by apply bool_decide_eq_true in Ei. }
    case_match eqn:Eh; [apply claim_response; [done|]|].
    { intros w Hd. split; [done|]. intros _. left. apply Hd. right. by apply bool_decide_eq_true in Eh. }
    eapply (triple_conseq _ (λ _ _, False)); [apply (over_stable _ (calling s0 None) (λ _ _, False))
      |by intros w []| |done]; [done|apply stable_calling|].
    intros _ w [Hs Ex]. split; [done|]. by rewrite Ex.
Qed.

(** The secretary does not take the request. *)
Definition refused (b : boundManager) (e : error) : Prop :=
  CheckLease (bm_secretary b) k = Err e ∨ CheckHolder (bm_secretary b) h = Err e ∨
  CheckDuration (bm_secretary b) D = Err e.

Lemma Claim_triple s0 b leaseName :
  lease_wf s0.2 → k = leaseKey b leaseName →
  triple (calling s0 None) (Claim LM store api b leaseName h D id)
    (λ _ w, calling s0 (sent w) w ∧ guaranteed s0 w)
    (λ e w, since s0 (time w, tables w) ∧
       (refused b e ∨ (∀ s, e ≠ GoPanic s) ∧ (e = lease_ErrClaimDenied → denied s0 w ∨ stopped))).
Proof.
  intros Hwf Ek. unfold Claim, refused. rewrite <- Ek.
  apply (triple_bind _ _ (λ _, calling s0 None)).
  { apply triple_lift. intros w Hw. destruct (CheckLease _ _) eqn:E; [done|]. by split; [apply Hw|auto]. }
  intros _. apply (triple_bind _ _ (λ _, calling s0 None)).
  { apply triple_lift. intros w Hw. destruct (CheckHolder _ _) eqn:E; [done|]. by split; [apply Hw|auto]. }
  intros _. apply (triple_bind _ _ (λ _, calling s0 None)).
  { apply triple_lift. intros w Hw. destruct (CheckDuration _ _) eqn:E; [done|]. by split; [apply Hw|auto]. }
  intros _. unfold claim_invoke, invoke.
  apply (triple_bind _ _ (λ _, calling s0 None)); [by apply Dying_triple, stable_calling|].
  intros []; [apply triple_throw; intros w Hw; split; [apply Hw|by right]|].
  apply (triple_bind _ _ (λ r w, r = Ok () ∧ outcome s0 w)).
  { apply triple_try; [|by intros s w []].
    apply (triple_bind _ _ (λ _, calling s0 None)); [apply over_stable; [done|apply stable_calling]|].
    intros _. eapply triple_conseq; [by apply (retryingClaim_triple s0 (λ _ _, False))|done|by intros [] w|done]. }
  intros x. apply triple_pure. intros ->. unfold response. cbn [c_response]. intros w r w' [Hs Hv] H.
  rewrite (bind_ok (gets (view LM)) _ w (view LM w) w eq_refl) in H. fold (sent w) in H.
  destruct (sent w) as [[e|]|] eqn:Ex.
  - apply throw_inv in H as [-> ->]. split; [done|]. right. by apply (Hv (Some e)).
  - apply mret_inv in H as [-> ->]. split; [by split|]. by apply (Hv None).
  - apply throw_inv in H as [-> ->]. split; [done|by right].
Qed.

Lemma calling_start w : sent w = None → calling (time w, tables w) None w.
Proof. intros E. split; [apply rtc_refl|done]. Qed.


(** The secretary does not answer for the store. *)
Definition discreet (s : Secretary) : Prop :=
  CheckLease s k ≠ Err lease_ErrClaimDenied ∧ CheckHolder s h ≠ Err lease_ErrClaimDenied ∧
  CheckDuration s D ≠ Err lease_ErrClaimDenied.

End claiming.
End request.
End manager_facts.
