(* ===== verification/TxnFacts.v ===== *)
(** * What a transaction comes to

    The layers of Txn.v over a driver that keeps its documented promises: the
    function runs on the tables of one moment, and its work is there afterwards if
    the transaction is reported to have succeeded; attempts that were reported to
    have failed may have been made before it.  This is what the lease manager's
    theorems ask of a database. *)

From S2P Require Import Prelude LeaseStore Txn LeaseStoreFacts LeaseManager LeaseManagerFacts.

Section txn_facts.
Context {W : Type} (LM : lens W LeaseManager) (D : SqlDriver W lease_db) (ST : lens W bool).
Context (tables : W → lease_db) (time : W → Z) (allowed : store_op → Z → lease_db → Prop).
Context (id : nat).

(** The work of a transaction that is not committed. *)
Context (work : W → option lease_db).

Abbreviation others := (LeaseManagerFacts.others LM tables time allowed id).
Abbreviation sent := (LeaseManagerFacts.sent LM id).

(** While a transaction is under way no one else changes the tables. *)
Definition held (w w' : W) : Prop :=
  tables w' = tables w ∧ (time w ≤ time w')%Z ∧ sent w' = sent w.

Definition clean {A} (r : result A) : Prop := ∀ e, r = Err e → driver_error e.

(** A commit that is reported to have failed may have been made, unless the
    transaction was over already; in which case, [sw_uncut], the timeout of the
    runner has not passed. *)
Class SqlWorld : Prop := {
  sw_laws :: LensLaws ST;
  sw_apart b w : others w (update ST b w);
  sw_Begin w r w' : sd_Begin D w = (r, w') → others w w' ∧ clean r;
  sw_Query {A} (f : Z → M lease_db A) w r w' : sd_Query D f w = (r, w') →
    ∃ w1, others w w1 ∧ held w1 w' ∧
      ((∃ d', f (time w1 / second)%Z (tables w1) = (r, d') ∧ (is_ok r = true → work w' = Some d')) ∨
       (is_ok r = false ∧ clean r));
  sw_Commit d' w r w' : work w = Some d' → sd_Commit D w = (r, w') →
    ∃ w1, (time w ≤ time w1)%Z ∧ sent w1 = sent w ∧ others w1 w' ∧
      match r with
      | Ok _ => tables w1 = d'
      | Err e => driver_error e ∧ (tables w1 = tables w ∨ e ≠ ErrTxDone ∧ tables w1 = d')
      end;
  sw_uncut w w' : sd_Commit D w = (Err ErrTxDone, w') → (sd_ctx D w').1 = None;
  sw_Rollback w r w' : sd_Rollback D w = (r, w') → others w w' ∧ clean r;
  sw_ExecRollback w r w' : sd_ExecRollback D w = (r, w') → others w w' ∧ clean r;
  sw_caller w c w' : sd_caller D w = (c, w') → others w w' ∧ ∀ e, c = Some e → driver_error e;
  sw_ctx w c w' : sd_ctx D w = (c, w') → others w w';
  sw_nil w b w' : sd_nil D w = (b, w') → others w w';
  sw_More w b w' : sd_More D w = (b, w') → others w w';
  sw_GaveUp e : driver_error (sd_GaveUp D e);
  sw_getDB w r w' : sd_getDB D w = (r, w') → others w w' ∧ clean r;
  sw_Dying w b w' : sd_Dying D w = (b, w') → others w w';
}.
Context {SW : SqlWorld}.

(** ** Attempts *)

Section fn.
Context {A : Type} (f : Z → M lease_db A).

Definition tried (w : W) (r : result A) (w' : W) : Prop :=
  sent w' = sent w ∧ attempted allowed f (time w, tables w) r (time w', tables w').

Lemma attempted_before s s1 r s' :
  rtc (env_step allowed) s s1 → attempted allowed f s1 r s' → attempted allowed f s r s'.
Proof.
  intros H. destruct 1 as [s1 n d r d' s' H1 Hr H2|s1 n d e d' r s' H1 Hr H2].
  - eapply at_last; [by etrans|done..].
  - eapply at_again; [by etrans|done..].
Qed.
Lemma attempted_after s r s1 s' :
  attempted allowed f s r s1 → rtc (env_step allowed) s1 s' → attempted allowed f s r s'.
Proof.
  induction 1 as [s n d r d' s1 H1 Hr H2|s n d e d' r s1 H1 Hr _ IH]; intros H.
  - eapply at_last; [done..|by etrans].
  - eapply at_again; [done..|by apply IH].
Qed.
Lemma attempted_again s e s1 r s' :
  attempted allowed f s (Err e) s1 → attempted allowed f s1 r s' → attempted allowed f s r s'.
Proof.
  intros H Hr. remember (Err e) as x eqn:Ex. revert e Ex Hr.
  induction H as [s n d x d' s1 H1 Hx H2|s n d e1 d' x s1 H1 Hx _ IH]; intros e -> Hr.
  - eapply at_again; [done..|]. by eapply attempted_before.
  - eapply at_again; [done..|]. by eapply IH.
Qed.

Lemma tried_before w w1 r w' : others w w1 → tried w1 r w' → tried w r w'.
Proof. intros [E H] [E' H']. split; [congruence|]. by eapply attempted_before. Qed.
Lemma tried_after w r w1 w' : tried w r w1 → others w1 w' → tried w r w'.
Proof. intros [E H] [E' H']. split; [congruence|]. by eapply attempted_after. Qed.
Lemma tried_failed w e w' : others w w' → driver_error e → tried w (Err e) w'.
Proof. intros [E H] He. split; [done|]. eapply at_last; [apply rtc_refl|by apply ran_failed|done]. Qed.
Lemma others_step w w1 w' : others w w1 → others w1 w' → others w w'.
Proof. intros [E H] [E' H']. split; [congruence|by etrans]. Qed.

(** From the moment of the query to the end of the attempt. *)
Lemma tried_moment w1 r d2 w2 w' :
  ran f (time w1) (tables w1) r d2 → tables w2 = d2 → (time w1 ≤ time w2)%Z → sent w2 = sent w1 →
  others w2 w' → tried w1 r w'.
Proof.
  intros Hr <- Ht Es [E H]. split; [congruence|]. eapply at_last; [apply rtc_refl|done|].
  eapply rtc_l; [|done]. by constructor.
Qed.

(** A try whose error is no panic. *)
Lemma try_clean {B C} (m : M W B) (k : result B → M W C) w r w' x w1 :
  m w = (x, w1) → (∀ s, x ≠ Err (GoPanic s)) → (y ← try m; k y) w = (r, w') → k x w1 = (r, w').
Proof.
  intros E Hx H. unfold mbind, M_bind, try in H. rewrite E in H. destruct x as [a|e]; [done|].
  destruct e; try done. by destruct (Hx what).
Qed.
Lemma try_panic {B C} (m : M W B) (k : result B → M W C) w r w' s w1 :
  m w = (Err (GoPanic s), w1) → (y ← try m; k y) w = (r, w') → r = Err (GoPanic s) ∧ w' = w1.
Proof. intros E H. unfold mbind, M_bind, try in H. rewrite E in H. by simplify_eq. Qed.
Lemma clean_no_panic {B} (r : result B) : clean r → ∀ s, r ≠ Err (GoPanic s).
Proof. intros H s ->. destruct (H _ eq_refl) as (_ & _ & Hs). by destruct (Hs s). Qed.
Lemma panic_dec {B} (r : result B) : (∃ s, r = Err (GoPanic s)) ∨ ∀ s, r ≠ Err (GoPanic s).
Proof. destruct r as [|[]]; try (right; by intros ? ?). left. by eexists. Qed.

Lemma commit_tried d' w1 a w r w' :
  held w1 w → f (time w1 / second)%Z (tables w1) = (Ok a, d') → work w = Some d' →
  (_ ← runner_commit D; mret a) w = (r, w') → tried w1 r w'.
Proof.
  intros (Et & Hn & Es) Ef Hw H. destruct (sd_Commit D w) as [x w2] eqn:Ec.
  pose proof (sw_Commit d' w x w2 Hw Ec) as (w3 & Hn3 & Es3 & Ho & Hx).
  assert (∀ s, x ≠ Err (GoPanic s)) as Hnp.
  { intros s ->. destruct Hx as [(_ & _ & Hp) _]. by destruct (Hp s). }
  assert (∀ e, x = Err e → tried w1 (Err e) w2) as Hfail.
  { intros e ->. destruct Hx as [He [E|[_ E]]].
    - eapply (tried_moment w1 _ (tables w1) w3); [by apply ran_failed|congruence|lia|congruence|done].
    - eapply (tried_moment w1 _ d' w3); [by eapply ran_lost|done|lia|congruence|done]. }
  unfold mbind at 1, M_bind at 1 in H.
  destruct (runner_commit D w) as [y w4] eqn:Er. unfold runner_commit in Er.
  apply (try_clean _ _ _ _ _ _ _ Ec Hnp) in Er. destruct x as [[]|e].
  - apply mret_inv in Er as [-> ->]. apply mret_inv in H as [-> ->].
    eapply (tried_moment w1 _ d' w3); [by eapply ran_ok|done|lia|congruence|done].
  - destruct (decide (e = ErrTxDone)) as [->|Hne]; [|apply throw_inv in Er as [-> ->]; simplify_eq; by apply Hfail].
    unfold mbind, M_bind, always in Er. pose proof (sw_uncut w w2 Ec) as Hu.
    destruct (sd_ctx D w2) as [c w5] eqn:Ex. simpl in Hu. subst c. apply sw_ctx in Ex.
    apply throw_inv in Er as [-> ->]. injection H as <- <-.
    eapply tried_after; [by apply Hfail|done].
Qed.

Lemma query_tried w r w' :
  (r ← try (sd_Query D f);
   match r with
   | Err e => _ ← runner_rollback D; throw e
   | Ok a => _ ← runner_commit D; mret a
   end) w = (r, w') → tried w r w'.
Proof.
  intros H. destruct (sd_Query D f w) as [x w2] eqn:Eq.
  apply sw_Query in Eq as Hq. destruct Hq as (w1 & Ho & Hh & Hq).
  apply (tried_before _ w1); [done|].
  assert (∀ e, x = Err e → ran f (time w1) (tables w1) (Err e) (tables w1)) as Hran.
  { intros e ->. destruct Hq as [(d' & E & _)|[_ He]]; [by eapply ran_err|by apply ran_failed, He]. }
  assert (∀ e w3, x = Err e → others w2 w3 → tried w1 (Err e) w3) as Hend.
  { intros e w3 Ee Ho3. destruct Hh as (? & ? & ?).
    by eapply (tried_moment w1 _ (tables w1) w2); [by apply Hran|..]. }
  destruct (panic_dec x) as [[s ->]|Hnp].
  { destruct (try_panic _ _ _ _ _ _ _ Eq H) as [E1 E2]. rewrite E1, E2.
    apply Hend; [done|apply others_refl]. }
  apply (try_clean _ _ _ _ _ _ _ Eq Hnp) in H. destruct x as [a|e].
  - destruct Hq as [(d' & E & Hw)|[? _]]; [|done]. eapply commit_tried; [done..|by apply Hw|done].
  - unfold mbind, M_bind, runner_rollback in H. destruct (sd_Rollback D w2) as [y w3] eqn:Er.
    apply sw_Rollback in Er as Hr. destruct Hr as [Ho3 Hcl].
    pose proof (clean_no_panic _ Hcl) as Hy.
    unfold mbind, M_bind, try in H. rewrite Er in H.
    assert (r = Err e ∧ w' = w3) as [-> ->].
    { destruct y as [[]|e']; [by apply throw_inv in H|].
      destruct e'; try (by destruct (Hy what)); by apply throw_inv in H. }
    by apply Hend.
Qed.

Lemma runner_run_tried (m : M W A) w r w' :
  (∀ w r w', m w = (r, w') → tried w r w') → runner_run D m w = (r, w') → tried w r w'.
Proof.
  intros Hm H. unfold runner_run, mbind, M_bind, always in H.
  destruct (sd_caller D w) as [c w1] eqn:Ec. apply sw_caller in Ec as [Ho Hc].
  destruct c as [e|]; [apply throw_inv in H as [-> ->]; apply tried_failed; auto|].
  eapply tried_before; [done|by apply Hm].
Qed.

Lemma runner_Txn_tried w r w' : runner_Txn D f w = (r, w') → tried w r w'.
Proof.
  apply runner_run_tried. clear w r w'. intros w r w' H.
  destruct (sd_Begin D w) as [x w1] eqn:Eb. apply sw_Begin in Eb as Hb. destruct Hb as [Ho Hx].
  apply (try_clean _ _ _ _ _ _ _ Eb (clean_no_panic _ Hx)) in H.
  destruct x as [[]|e]; [eapply tried_before; [done|by apply query_tried]|].
  destruct (Contains _ _); [|apply throw_inv in H as [-> ->]; apply tried_failed; auto].
  destruct (sd_ExecRollback D w1) as [y w2] eqn:Er. apply sw_ExecRollback in Er as Hr.
  destruct Hr as [Ho2 Hy]. apply (try_clean _ _ _ _ _ _ _ Er (clean_no_panic _ Hy)) in H.
  apply throw_inv in H as [-> ->]. apply tried_failed; [by eapply others_step|by split_and!].
Qed.

Lemma runAttempt_tried w r w' : runAttempt D (runner_Txn D f) w = (r, w') → tried w r w'.
Proof.
  intros H. unfold runAttempt in H. unfold mbind at 1, M_bind at 1, always at 1 in H.
  destruct (sd_nil D w) as [b w1] eqn:En. apply sw_nil in En. destruct b.
  - apply throw_inv in H as [-> ->]. apply tried_failed; [done|by split_and!].
  - eapply tried_before; [done|]. unfold mbind, M_bind, always in H.
    destruct (sd_caller D w1) as [c w2] eqn:Ec. apply sw_caller in Ec as [Ho Hc].
    destruct c as [e|]; [apply throw_inv in H as [-> ->]; apply tried_failed; auto|].
    eapply tried_before; [done|by apply runner_Txn_tried].
Qed.

Lemma retry_tried n (m : M W A) w r w' :
  (∀ w r w', m w = (r, w') → tried w r w') → DefaultRetryStrategy D n m w = (r, w') → tried w r w'.
Proof.
  intros Hm. revert w r w'. induction n as [|n IH]; intros w r w' H; simpl in H.
  all: destruct (m w) as [x w1] eqn:Em; apply Hm in Em as Ht.
  all: destruct (panic_dec x) as [[s ->]|Hnp];
    [destruct (try_panic _ _ _ _ _ _ _ Em H) as [E1 E2]; by rewrite E1, E2|].
  all: apply (try_clean _ _ _ _ _ _ _ Em Hnp) in H.
  all: destruct x as [a|e]; [by apply mret_inv in H as [-> ->]|].
  all: destruct (IsFatalError e); [by apply throw_inv in H as [-> ->]|].
  - apply throw_inv in H as [-> ->]. destruct Ht as [E Ht]. split; [done|].
    eapply attempted_again; [done|]. eapply at_last; [apply rtc_refl|apply ran_failed, sw_GaveUp|apply rtc_refl].
  - unfold mbind, M_bind, always in H. destruct (sd_More D w1) as [b w2] eqn:Eo. apply sw_More in Eo.
    apply (tried_after _ _ _ _ Ht) in Eo as [E2 Ht2]. destruct b.
    + apply IH in H as [E3 H3]. split; [congruence|]. by eapply attempted_again.
    + apply throw_inv in H as [-> ->]. split; [done|]. eapply attempted_again; [done|].
      eapply at_last; [apply rtc_refl|apply ran_failed, sw_GaveUp|apply rtc_refl].
Qed.

Lemma StateBase_DB_others w r w' : StateBase_DB D ST w = (r, w') → others w w' ∧ clean r.
Proof.
  intros H. unfold StateBase_DB in H. rewrite (bind_ok (gets (view ST)) _ w (view ST w) w eq_refl) in H.
  destruct (view ST w).
  - unfold mbind at 1, M_bind at 1, always in H. destruct (sd_Dying D w) as [b w1] eqn:Ed.
    apply sw_Dying in Ed. destruct b.
    + unfold over, modify, mbind, M_bind in H. apply throw_inv in H as [-> ->].
      split; [eapply others_step; [done|apply sw_apart]|]. intros e [= <-]. by split_and!.
    + apply mret_inv in H as [-> ->]. by split.
  - unfold mbind, M_bind in H. destruct (sd_getDB D w) as [[[]|e] w1] eqn:Eg; apply sw_getDB in Eg as [Ho Hg].
    + unfold over, modify in H. simplify_eq. split; [eapply others_step; [done|apply sw_apart]|done].
    + simplify_eq. split; [done|]. intros e' [= <-]. by apply Hg.
Qed.

Lemma state_Txn_tried w r w' :
  state_Txn D ST f w = (r, w') → ∃ r0, (r = r0 ∨ r = coerced r0) ∧ tried w r0 w'.
Proof.
  intros H. unfold state_Txn in H. unfold mbind at 1, M_bind at 1 in H.
  destruct (StateBase_DB D ST w) as [[[]|e] w1] eqn:E; apply StateBase_DB_others in E as [Ho Hc].
  - destruct (tracked_Txn D f w1) as [x w2] eqn:Et. unfold txnRunner_Txn in H.
    assert (tried w x w2) as Ht.
    { eapply tried_before; [done|]. by eapply retry_tried; [|exact Et]; apply runAttempt_tried. }
    exists x. destruct (panic_dec x) as [[s ->]|Hnp].
    { destruct (try_panic _ _ _ _ _ _ _ Et H) as [E1 E2]. rewrite E1, E2. by split; [left|]. }
    apply (try_clean _ _ _ _ _ _ _ Et Hnp) in H. destruct x as [a|e].
    + apply mret_inv in H as [-> ->]. by split; [left|].
    + apply throw_inv in H as [-> ->]. by split; [right|].
  - injection H as <- <-. exists (Err e). split; [by left|]. apply tried_failed; auto.
Qed.
End fn.


(** What the lease manager asks of its world, with this database. *)
Lemma lease_database_world uuid (mapi : ManagerAPI W) `{!LensLaws LM} :
  (∀ m w, tables (update LM m w) = tables w ∧ time (update LM m w) = time w) →
  (∀ w r w', uuid w = (r, w') → others w w' ∧ clean r) →
  (∀ w b w', ma_Dying mapi w = (b, w') → others w w') →
  (∀ w b w', ma_Next mapi w = (b, w') → others w w') →
  LeaseWorld LM (lease_database D ST uuid) mapi tables time allowed id.
Proof.
  intros Ha Hu Hd Hn. split; [done..| |done|done|done].
  intros A f w r w' H. destruct (state_Txn_tried f w r w' H) as (r0 & Hr & Es & Ht).
  split; [done|]. by exists r0.
Qed.
End txn_facts.
