(* ===== verification/LeaseLoop.v ===== *)
(** * The loop of the lease manager

    Those who wait for a lease to be free.  Each is on the manager's books until
    it is told, once, and is told only when the store no longer has the lease; and
    as long as the manager runs a timer is pending, not further away than the
    manager is to sleep, at which the books are gone through.  Every request is
    answered, unless the manager is dying. *)

From S2P Require Import Prelude Hooks LeaseStore LeaseManager.

(** The part of the manager that only its loop changes. *)
Definition loop_part (m : LeaseManager) :
    option Z * option Z * gmap LeaseKey (list nat) * gset nat * gset nat :=
  (lm_nextTimeout m, lm_timer m, lm_blocks m, lm_unblocked m, lm_started m).

(** ** Code that the loop need not fear

    What leaves the world as [R] says, and does not panic. *)

(** Changes of the manager that are no business of the loop's: nothing that was
    sent is taken back, and a manager that is dying stays so. *)
Definition benign (f : LeaseManager → LeaseManager) : Prop :=
  ∀ m, loop_part (f m) = loop_part m ∧ dom (lm_responses m) ⊆ dom (lm_responses (f m)) ∧
    (is_Some (lm_tomb m) → is_Some (lm_tomb (f m))).

Section gentle.
Context {W : Type} (R : W → W → Prop) {HR : PreOrder R}.

Definition gentle {A} (m : M W A) : Prop :=
  ∀ w r w', m w = (r, w') → R w w' ∧ ∀ s, r ≠ Err (GoPanic s).

Lemma gentle_ret {A} (a : A) : gentle (mret a).
Proof. by intros w r w' [-> ->]%mret_inv. Qed.
Lemma gentle_throw {A} e : (∀ s, e ≠ GoPanic s) → gentle (throw e : M W A).
Proof. intros He w r w' [-> ->]%throw_inv. split; [done|naive_solver]. Qed.
Lemma gentle_bind {A B} (m : M W A) (f : A → M W B) :
  gentle m → (∀ a, gentle (f a)) → gentle (m ≫= f).
Proof.
  intros Hm Hf w r w' H. unfold mbind, M_bind in H. destruct (m w) as [[a|e] w1] eqn:E.
  - apply Hm in E as [H1 _]. apply Hf in H as [H2 ?]. split; [by etrans|done].
  - apply Hm in E as [H1 He]. simplify_eq. split; [done|]. intros s [= ->]. by apply (He s).
Qed.
Lemma gentle_try {A} (m : M W A) : gentle m → gentle (try m).
Proof.
  intros Hm w r w' H. unfold try in H. destruct (m w) as [[a|e] w1] eqn:E; apply Hm in E as [H1 He];
    [by simplify_eq|]. destruct e; simplify_eq; try done. by destruct (He what).
Qed.
Lemma gentle_lift {A} (x : result A) : (∀ s, x ≠ Err (GoPanic s)) → gentle (lift_result x).
Proof. intros Hx w r w' H. unfold lift_result in H. by simplify_eq. Qed.
(** What a call returned, as a value, is no panic. *)
Lemma gentle_try_bind {A B} (m : M W A) (f : result A → M W B) :
  gentle m → (∀ r, (∀ s, r ≠ Err (GoPanic s)) → gentle (f r)) → gentle (r ← try m; f r).
Proof.
  intros Hm Hf w r w' H. unfold mbind, M_bind, try in H. destruct (m w) as [[a|e] w1] eqn:E;
    apply Hm in E as [H1 He].
  - apply Hf in H as [H2 ?]; [|done]. split; [by etrans|done].
  - destruct e; try (by destruct (He what));
      (apply Hf in H as [H2 ?]; [|done]; split; [by etrans|done]).
Qed.

Lemma gentle_finally {A} (m : M W A) f : gentle m → gentle f → gentle (finally m f).
Proof.
  intros Hm Hf. apply gentle_try_bind; [done|]. intros r Hr. apply gentle_bind; [done|].
  intros _. by apply gentle_lift.
Qed.

Lemma gentle_gets {A} (f : W → A) : gentle (gets f).
Proof. intros w r w' H. unfold gets in H. by simplify_eq. Qed.
Lemma gentle_for_each {A} (l : list A) (f : A → M W ()) : (∀ a, gentle (f a)) → gentle (for_each l f).
Proof. intros Hf. induction l; simpl; [apply gentle_ret|by apply gentle_bind]. Qed.
End gentle.

Section goroutines.
Context {W : Type} {MO : MapOrder W}.
Context (LM : lens W LeaseManager) (store : LeaseStore W) (api : ManagerAPI W).
Context (R : W → W → Prop) {HR : PreOrder R}.

Class GentleWorld : Prop := {
  gw_over f w : benign f → R w (update LM (f (view LM w)) w);
  gw_Dying w b w' : ma_Dying api w = (b, w') → R w w';
  gw_Next w b w' : ma_Next api w = (b, w') → R w w';
  gw_Leases keys : gentle R (Leases store keys);
  gw_ClaimLease k req : gentle R (ClaimLease store k req);
  gw_ExtendLease k req : gentle R (ExtendLease store k req);
  gw_RevokeLease k h : gentle R (RevokeLease store k h);
  gw_PinLease k e : gentle R (PinLease store k e);
  gw_UnpinLease k e : gentle R (UnpinLease store k e);
}.
Context {GW : GentleWorld}.

Lemma gentle_over f : benign f → gentle R (over LM f).
Proof. intros Hf w r w' H. unfold over, modify in H. simplify_eq. split; [by apply gw_over|done]. Qed.
Lemma gentle_Dying : gentle R (always (ma_Dying api)).
Proof.
  intros w r w' H. unfold always in H. destruct (ma_Dying api w) eqn:E. simplify_eq.
  split; [by eapply gw_Dying|done].
Qed.
Lemma gentle_Next : gentle R (always (ma_Next api)).
Proof.
  intros w r w' H. unfold always in H. destruct (ma_Next api w) eqn:E. simplify_eq.
  split; [by eapply gw_Next|done].
Qed.

Create HintDb gentle.
Hint Resolve gentle_ret gentle_bind gentle_try gentle_Dying gentle_Next gw_Leases gw_ClaimLease
  gw_ExtendLease gw_RevokeLease gw_PinLease gw_UnpinLease : gentle.

Lemma gentle_respond id v : gentle R (respond LM api id v).
Proof.
  apply (gentle_bind R); [apply gentle_Dying|]. intros []; [apply (gentle_ret R)|apply gentle_over].
  intros m. split_and!; [done| |done]. simpl. set_solver.
Qed.
Lemma gentle_outstanding a b : gentle R (over LM (lm_add_outstanding a b)).
Proof. by apply gentle_over. Qed.
Lemma gentle_spawn g : gentle R (spawn LM g).
Proof. by apply gentle_over. Qed.
Lemma gentle_Kill e : gentle R (tomb_Kill LM e).
Proof. apply gentle_over. intros m. split_and!; [done..|]. simpl. eauto. Qed.
Lemma gentle_lookup k : gentle R (lookupLease store k).
Proof. unfold lookupLease. auto with gentle. Qed.
Lemma gentle_outcome {A} (a : A) r :
  (∀ s, r ≠ Err (GoPanic s)) → gentle R (store_outcome a r : M W A).
Proof.
  intros Hr. destruct r as [[]|e]; simpl; [apply (gentle_ret R)|].
  case_match; apply (gentle_throw R); [done|]. intros s ->. by apply (Hr s).
Qed.

Lemma gentle_handleClaim c : gentle R (handleClaim store api c).
Proof.
  apply (gentle_bind R); [apply gentle_Dying|]. intros []; [by apply (gentle_throw R)|].
  apply (gentle_bind R); [apply gentle_lookup|]. intros [i|]; [case_decide; [|apply (gentle_ret R)]|];
    (apply (gentle_try_bind R); [auto with gentle|by intros; apply gentle_outcome]).
Qed.
Lemma gentle_handleRevoke r : gentle R (handleRevoke store api r).
Proof.
  apply (gentle_bind R); [apply gentle_Dying|]. intros []; [by apply (gentle_throw R)|].
  apply (gentle_bind R); [apply gentle_lookup|]. intros [i|]; [|apply (gentle_ret R)].
  case_decide; [|by apply (gentle_throw R)].
  apply (gentle_try_bind R); [auto with gentle|by intros; apply gentle_outcome].
Qed.
Lemma gentle_attempts {A} n fatal (body : M W A) last :
  gentle R body → gentle R (attempts api n fatal body last).
Proof.
  intros Hb. revert last. induction n as [|n IH]; intros last; simpl; [apply (gentle_ret R)|].
  apply (gentle_bind R); [apply gentle_Next|]. intros []; [|apply (gentle_ret R)].
  apply (gentle_bind R); [by apply (gentle_try R)|]. intros [a|e]; [apply (gentle_ret R)|].
  case_match; auto with gentle.
Qed.
Lemma gentle_goroutine g : gentle R (run_goroutine LM store api g).
Proof.
  destruct g as [c|r|]; simpl; [| |apply gentle_outstanding].
  - apply (gentle_finally R); [|apply gentle_outstanding].
    apply (gentle_bind R); [apply gentle_attempts, gentle_handleClaim|].
    intros [[]|e]; [apply gentle_respond..|].
    repeat case_match; auto using gentle_respond, gentle_Kill.
  - apply (gentle_bind R); [apply gentle_attempts, gentle_handleRevoke|]. intros [[]|e].
    + apply (gentle_bind R); [apply gentle_respond|]. intros _. apply (gentle_bind R); [apply gentle_Dying|].
      intros []; [apply gentle_outstanding|apply (gentle_spawn GoExpireDone)].
    + apply (gentle_finally R); [|apply gentle_outstanding].
      repeat case_match; auto using gentle_respond, gentle_Kill.
Qed.
End goroutines.

(** ** The lease service

    No transaction of the lease state panics, whatever is in the tables. *)

Definition any_tables (d d' : lease_db) : Prop := True.
#[export] Instance any_tables_preorder : PreOrder any_tables.
Proof. done. Qed.
Abbreviation sober := (gentle any_tables).

Lemma sober_statement {A} (m : M lease_db A) : sober m → sober (statement m).
Proof.
  intros Hm d r d' H. unfold statement in H. destruct (m d) as [[a|e] d1] eqn:E; apply Hm in E; by simplify_eq.
Qed.
Lemma sober_select p : sober (select_lease p).
Proof. apply (gentle_gets any_tables). Qed.
Lemma sober_held k h : sober (held_by k h).
Proof. apply (gentle_bind any_tables); [apply sober_select|]. intros l. apply (gentle_ret any_tables). Qed.
Lemma sober_if {A} (φ : Prop) `{!Decision φ} (m m' : M lease_db A) :
  sober m → sober m' → sober (if decide φ then m else m').
Proof. by case_decide. Qed.
Lemma sober_insert r : sober (insert_lease r).
Proof. intros d x d' H. unfold insert_lease in H. by repeat case_match; simplify_eq. Qed.
Lemma sober_insert_pin q : sober (insert_lease_pin q).
Proof. intros d x d' H. unfold insert_lease_pin in H. by repeat case_match; simplify_eq. Qed.
Lemma sober_delete p : sober (delete_lease p).
Proof. intros d x d' H. unfold delete_lease in H. by case_match; simplify_eq. Qed.

Lemma sober_Leases keys n : sober (State_Leases keys n).
Proof.
  unfold State_Leases. destruct keys as [|k [|]]; [| |by apply (gentle_throw any_tables)];
    (apply (gentle_bind any_tables); [apply sober_select|]; intros l; apply (gentle_ret any_tables)).
Qed.
Lemma sober_Claim uuid k req n : sober (State_ClaimLease uuid k req n).
Proof.
  apply (gentle_try_bind any_tables).
  - apply sober_statement, (gentle_for_each any_tables). intros t. apply sober_insert.
  - intros [[]|e] He; [apply (gentle_ret any_tables)|].
    case_match; apply (gentle_throw any_tables); [done|]. intros s ->. by destruct (He s).
Qed.
Lemma sober_Extend k req n : sober (State_ExtendLease k req n).
Proof.
  apply (gentle_bind any_tables); [apply sober_held|]. intros sub. apply (gentle_bind any_tables).
  - intros d r d' H. unfold update_lease in H. by simplify_eq.
  - intros x. apply sober_if; [by apply (gentle_throw any_tables)|apply (gentle_ret any_tables)].
Qed.
Lemma sober_Revoke k h n : sober (State_RevokeLease k h n).
Proof.
  apply (gentle_bind any_tables); [apply sober_held|]. intros sub.
  apply (gentle_bind any_tables); [apply sober_delete|].
  intros x. apply sober_if; [by apply (gentle_throw any_tables)|apply (gentle_ret any_tables)].
Qed.
Lemma sober_Pin uuid k e n : sober (State_PinLease uuid k e n).
Proof.
  apply (gentle_bind any_tables); [apply sober_select|]. intros l. apply (gentle_try_bind any_tables).
  - apply sober_statement, (gentle_for_each any_tables). intros x. apply sober_insert_pin.
  - intros [[]|err] He; [apply (gentle_ret any_tables)|].
    case_match; [apply (gentle_ret any_tables)|apply (gentle_throw any_tables)].
    intros s ->. by destruct (He s).
Qed.
Lemma sober_Unpin k e n : sober (State_UnpinLease k e n).
Proof.
  apply (gentle_bind any_tables); [apply (gentle_gets any_tables)|]. intros l d r d' H.
  unfold delete_lease_pin in H. by simplify_eq.
Qed.

(** A database whose calls are gentle makes the calls of the service gentle. *)
Section service.
Context {W : Type} (R : W → W → Prop) {HR : PreOrder R} (db : LeaseDatabase W).

Class GentleDatabase : Prop := {
  gd_txn {A} (f : Z → M lease_db A) : (∀ n, sober (f n)) → gentle R (txn db f);
  gd_NewUUID : gentle R (NewUUID db);
}.
Context {GD : GentleDatabase}.

Lemma gentle_Validate req : gentle R (lift_result (Request_Validate req)).
Proof.
  apply (gentle_lift R). intros s. unfold Request_Validate, ValidateString.
  by repeat case_match; simplify_eq/=.
Qed.

Lemma service_gentle :
  (∀ keys, gentle R (Leases (NewService db) keys)) ∧
  (∀ k req, gentle R (ClaimLease (NewService db) k req)) ∧
  (∀ k req, gentle R (ExtendLease (NewService db) k req)) ∧
  (∀ k h, gentle R (RevokeLease (NewService db) k h)) ∧
  (∀ k e, gentle R (PinLease (NewService db) k e)) ∧
  (∀ k e, gentle R (UnpinLease (NewService db) k e)).
Proof.
  split_and!; intros; simpl.
  - unfold Service_Leases. case_decide; [by apply (gentle_throw R)|]. apply gd_txn, sober_Leases.
  - apply (gentle_bind R); [apply gentle_Validate|]. intros _.
    apply (gentle_bind R); [apply gd_NewUUID|]. intros uuid. apply gd_txn, sober_Claim.
  - apply (gentle_bind R); [apply gentle_Validate|]. intros _. apply gd_txn, sober_Extend.
  - apply gd_txn, sober_Revoke.
  - apply (gentle_bind R); [apply gd_NewUUID|]. intros uuid. apply gd_txn, sober_Pin.
  - apply gd_txn, sober_Unpin.
Qed.
End service.

Section loop.
Context {W : Type} {MO : MapOrder W} {MOL : MapOrderLaws W}.
Context (LM : lens W LeaseManager) (store : LeaseStore W) (api : ManagerAPI W) (MaxSleep : Z).

(** The time on the manager's clock, and how late its timer may be. *)
Context (clock : W → Z) (slack : Z).

Definition passes (w w' : W) : Prop :=
  loop_part (view LM w') = loop_part (view LM w) ∧ (clock w ≤ clock w')%Z.

#[export] Instance passes_preorder : PreOrder passes.
Proof.
  split; [by split|]. intros w w1 w' [E1 ?] [E2 ?]. split; [congruence|lia].
Qed.

(** The clock does not go back; a timer goes off after its duration, and not more
    than the slack later. *)
Class ManagerWorld : Prop := {
  mw_laws :: LensLaws LM;
  mw_apart m w : clock (update LM m w) = clock w;
  mw_gentle :: GentleWorld LM store api passes;
  mw_Now w n w' : ma_Now api w = (n, w') → n = clock w' ∧ passes w w';
  mw_Reset d w due w' : ma_Reset api d w = (due, w') →
    (clock w + d < due ≤ clock w' + d + slack)%Z ∧ passes w w';
}.
Context {MW : ManagerWorld}.

(** ** The timer *)

(** The timer is pending, for a time after the one that was asked for. *)
Definition armed (w : W) : Prop :=
  ∃ t due, lm_nextTimeout (view LM w) = Some t ∧ lm_timer (view LM w) = Some due ∧
    (t < due ≤ clock w + MaxSleep + second + slack)%Z.

(** The time that was asked for has passed, or none was. *)
Definition overdue (w : W) : Prop :=
  ∀ t, lm_nextTimeout (view LM w) = Some t → (t < clock w)%Z.

(** The books. *)
Definition books (bs : gmap LeaseKey (list nat)) (us : gset nat) (w : W) : Prop :=
  lm_blocks (view LM w) = bs ∧ lm_unblocked (view LM w) = us.

Definition panics_not (e : error) (w : W) : Prop := ∀ s, e ≠ GoPanic s.

Lemma armed_passes w w' : passes w w' → armed w → armed w'.
Proof.
  intros [E ?] (t & due & Et & Ed & ?). injection E as E1 E2 E3 E4 E5. exists t, due.
  split_and!; [congruence..|lia|lia].
Qed.
Lemma overdue_passes w w' : passes w w' → overdue w → overdue w'.
Proof.
  intros [E ?] Ho t Et. injection E as E1 E2 E3 E4 E5.
  assert (t < clock w)%Z by (apply Ho; congruence). lia.
Qed.
Lemma books_passes bs us w w' : passes w w' → books bs us w → books bs us w'.
Proof. intros [E ?] [? ?]. injection E as E1 E2 E3 E4 E5. split; congruence. Qed.

Lemma gentle_triple {A} (m : M W A) (P : W → Prop) :
  gentle passes m → (∀ w w', passes w w' → P w → P w') → triple P m (λ _, P) panics_not.
Proof.
  intros Hm HP w r w' Hw H. apply Hm in H as [H Hr]. destruct r as [a|e]; [by eapply HP|].
  intros s ->. by destruct (Hr s).
Qed.

Lemma Now_triple (P : W → Prop) E :
  (∀ w w', passes w w' → P w → P w') →
  triple P (always (ma_Now api)) (λ n w, P w ∧ n = clock w) E.
Proof.
  intros HP w r w' Hw H. unfold always in H. destruct (ma_Now api w) as [n w1] eqn:En. simplify_eq.
  apply mw_Now in En as [-> ?]. split; [by eapply HP|done].
Qed.

Lemma setNextTimeout_triple t bs us :
  triple (λ w, (armed w ∨ overdue w) ∧ books bs us w ∧ (t ≤ clock w + MaxSleep + second)%Z)
    (setNextTimeout LM api t) (λ _ w, armed w ∧ books bs us w) panics_not.
Proof.
  apply (triple_bind _ _ (λ n w, ((armed w ∨ overdue w) ∧ books bs us w ∧
    (t ≤ clock w + MaxSleep + second)%Z) ∧ n = clock w)).
  { apply Now_triple. intros w w' Hp (Ha & Hb & ?). split_and!; [|by eapply books_passes|].
    - destruct Ha; [left; by eapply armed_passes|right; by eapply overdue_passes].
    - destruct Hp. lia. }
  intros n w r w' [(Ha & Hb & Ht) ->] H.
  rewrite (bind_ok (gets (view LM)) _ w _ w eq_refl) in H. case_match eqn:Ec.
  - apply mret_inv in H as [-> ->]. split; [|done]. destruct Ha as [?|Ho]; [done|].
    destruct (lm_nextTimeout (view LM w)) as [next|] eqn:En; [|done].
    apply andb_true_iff in Ec as [Hn%bool_decide_eq_true _]. specialize (Ho next En). lia.
  - set (n := clock w) in *. unfold mbind, M_bind, over, modify, always in H.
    destruct (ma_Reset api _ _) as [due w1] eqn:Er. simplify_eq.
    apply mw_Reset in Er as [Hdue [El Hc]]. rewrite mw_apart in Hdue, Hc.
    rewrite view_update in El. unfold loop_part in El. simpl in El. injection El as E1 E2 E3 E4 E5.
    split.
    + exists t, due. rewrite view_update, mw_apart. simpl. split_and!; [done..| |]; subst n; lia.
    + destruct Hb as [<- <-]. split; rewrite view_update; simpl; congruence.
Qed.

Lemma earliest_le t l : (earliest t l ≤ t)%Z.
Proof.
  revert t. induction l as [|i l IH]; intros t; simpl; [lia|].
  etrans; [apply IH|]. case_decide; lia.
Qed.

Context (Hsleep : (0 ≤ MaxSleep)%Z).

Lemma computeNextTimeout_triple leases bs us :
  triple (λ w, (armed w ∨ overdue w) ∧ books bs us w)
    (computeNextTimeout LM api MaxSleep leases) (λ _ w, armed w ∧ books bs us w) panics_not.
Proof.
  apply (triple_bind _ _ (λ n w, ((armed w ∨ overdue w) ∧ books bs us w) ∧ n = clock w)).
  { apply Now_triple. intros w w' Hp (Ha & Hb). split; [|by eapply books_passes].
    destruct Ha; [left; by eapply armed_passes|right; by eapply overdue_passes]. }
  intros n w r w' [[Ha Hb] ->] H. rewrite (bind_ok get _ w w w eq_refl) in H.
  eapply (setNextTimeout_triple _ bs us); [|exact H]. split_and!; [done..|].
  pose proof (earliest_le (clock w + MaxSleep) (range w (map_to_list leases)).*2).
  case_decide; lia.
Qed.

(** ** The books *)

(** Everyone in [B] waits for one lease, once, or was told. *)
Record books_ok (B : gset nat) (bs : gmap LeaseKey (list nat)) (us : gset nat) : Prop := {
  bo_nodup k l : bs !! k = Some l → NoDup l;
  bo_apart k k' l l' id : bs !! k = Some l → bs !! k' = Some l' → id ∈ l → id ∈ l' → k = k';
  bo_waiting k l id : bs !! k = Some l → id ∈ l → id ∉ us;
  bo_all id : id ∈ B ↔ id ∈ us ∨ ∃ k l, bs !! k = Some l ∧ id ∈ l;
}.

Definition timing (w : W) : Prop := armed w ∨ overdue w.

Lemma timing_passes w w' : passes w w' → timing w → timing w'.
Proof. intros Hp [?|?]; [left; by eapply armed_passes|right; by eapply overdue_passes]. Qed.

(** A change of the books. *)
Lemma over_books f bs us bs' us' (T : W → Prop) E :
  (T = timing ∨ T = armed) →
  (∀ m, lm_nextTimeout (f m) = lm_nextTimeout m ∧ lm_timer (f m) = lm_timer m) →
  (∀ m, lm_blocks m = bs → lm_unblocked m = us → lm_blocks (f m) = bs' ∧ lm_unblocked (f m) = us') →
  triple (λ w, T w ∧ books bs us w) (over LM f) (λ _ w, T w ∧ books bs' us' w) E.
Proof.
  intros HT Hf Hb. apply triple_modify. intros w [Hw [Eb Eu]]. destruct (Hf (view LM w)) as [E1 E2]. split.
  - destruct HT as [-> | ->]; unfold timing, armed, overdue in *; by rewrite view_update, mw_apart, E1, ?E2.
  - unfold books. rewrite view_update. by apply Hb.
Qed.

Lemma close_all_triple ids bs us :
  NoDup ids → (∀ id, id ∈ ids → id ∉ us) →
  triple (λ w, timing w ∧ books bs us w) (for_each ids (close_unblock LM))
    (λ _ w, timing w ∧ books bs (list_to_set ids ∪ us) w) panics_not.
Proof.
  revert us. induction ids as [|id ids IH]; intros us Hnd Hus; simpl.
  { apply triple_ret. intros w. by rewrite union_empty_l_L. }
  apply NoDup_cons in Hnd as [Hid Hnd].
  apply (triple_bind _ _ (λ _ w, timing w ∧ books bs ({[id]} ∪ us) w)).
  - intros w r w' [Ht Hb] H. unfold close_unblock in H.
    rewrite (bind_ok (gets (view LM)) _ w _ w eq_refl) in H.
    rewrite decide_False in H by (destruct Hb as [_ ->]; apply Hus; left).
    revert H. apply (over_books _ bs us); [by left|done|by intros m <- <-|done].
  - intros _. replace ({[id]} ∪ list_to_set ids ∪ us) with (list_to_set ids ∪ ({[id]} ∪ us)) by set_solver.
    apply IH; [done|]. set_solver.
Qed.

Lemma unblock_triple key bs us B :
  books_ok B bs us →
  triple (λ w, timing w ∧ books bs us w) (blocks_unblock LM key)
    (λ _ w, timing w ∧ books (delete key bs) (list_to_set (default [] (bs !! key)) ∪ us) w) panics_not.
Proof.
  intros Hok. unfold blocks_unblock.
  apply (triple_read _ _ _ (default [] (bs !! key))).
  { intros w [_ [-> _]]. done. }
  apply (triple_bind _ _ (λ _ w, timing w ∧ books (delete key bs) us w)).
  - apply over_books; [by left|done|]. by intros m <- <-.
  - intros _. apply close_all_triple; destruct (bs !! key) as [l|] eqn:E; simpl.
    + by apply (bo_nodup _ _ _ Hok key).
    + apply NoDup_nil_2.
    + intros id. by apply (bo_waiting _ _ _ Hok key).
    + by intros id ?%not_elem_of_nil.
Qed.

Lemma books_ok_release B bs us key :
  books_ok B bs us →
  books_ok B (delete key bs) (list_to_set (default [] (bs !! key)) ∪ us).
Proof.
  intros [H1 H2 H3 H4]. split.
  - intros k l [_ E]%lookup_delete_Some. eauto.
  - intros k k' l l' id [_ E]%lookup_delete_Some [_ E']%lookup_delete_Some. eauto.
  - intros k l id [Hne E]%lookup_delete_Some Hid. rewrite elem_of_union, elem_of_list_to_set.
    intros [Hin|Hin]; [|by eapply H3]. destruct (bs !! key) as [l'|] eqn:E'; [|by apply not_elem_of_nil in Hin].
    by destruct Hne; eapply H2.
  - intros id. rewrite H4, elem_of_union, elem_of_list_to_set. setoid_rewrite lookup_delete_Some. split.
    + intros [?|(k & l & E & Hid)]; [auto|]. destruct (decide (k = key)) as [->|Hne].
      * rewrite E. auto.
      * right. exists k, l. auto.
    + intros [[Hid|?]|(k & l & [_ ?] & ?)]; [|auto|eauto 6].
      destruct (bs !! key) as [l|] eqn:E; [eauto 6|by apply not_elem_of_nil in Hid].
Qed.

(** The leases that are gone, among those looked at. *)
Definition released (leases : gmap LeaseKey LeaseInfo) (bs0 : gmap LeaseKey (list nat))
    (B : gset nat) (keys : gset LeaseKey) (w : W) : Prop :=
  timing w ∧ ∃ bs us, books bs us w ∧ books_ok B bs us ∧
    ∀ k, bs !! k = if decide (k ∈ keys ∧ leases !! k = None) then None else bs0 !! k.

Lemma release_triple leases bs0 B ks keys :
  triple (released leases bs0 B keys)
    (for_each ks (λ key, match leases !! key with Some _ => mret () | None => blocks_unblock LM key end))
    (λ _, released leases bs0 B (list_to_set ks ∪ keys)) panics_not.
Proof.
  revert keys. induction ks as [|key ks IH]; intros keys; simpl.
  { apply triple_ret. intros w. by rewrite union_empty_l_L. }
  apply (triple_bind _ _ (λ _, released leases bs0 B ({[key]} ∪ keys))).
  - intros w r w' (Ht & bs & us & Hb & Hok & Hk) H. destruct (leases !! key) eqn:El.
    + apply mret_inv in H as [-> ->]. split; [done|]. exists bs, us. split_and!; [done..|].
      intros k. rewrite Hk. apply decide_ext. set_solver.
    + pose proof (unblock_triple key bs us B Hok w r w' (conj Ht Hb) H) as Hp.
      destruct r as [[]|e]; [|done]. destruct Hp as [Ht' Hb']. split; [done|].
      eexists _, _. split; [exact Hb'|]. split; [by apply books_ok_release|].
      intros k. destruct (decide (k = key)) as [->|Hne].
      * rewrite lookup_delete_eq, decide_True by set_solver. done.
      * rewrite lookup_delete_ne, Hk by done. apply decide_ext. set_solver.
  - intros _. replace ({[key]} ∪ list_to_set ks ∪ keys) with (list_to_set ks ∪ ({[key]} ∪ keys)) by set_solver.
    apply IH.
Qed.

(** What one look at the books does; [leases] is what the store had, not before
    the time [c]. *)
Definition looked (c : Z) (bs0 : gmap LeaseKey (list nat)) (B : gset nat) (w : W) : Prop :=
  armed w ∧ ∃ leases bs us,
    (∃ w1 w2, (c ≤ clock w1)%Z ∧ Leases store [] w1 = (Ok leases, w2)) ∧
    books bs us w ∧ books_ok B bs us ∧
    ∀ k, bs !! k = match leases !! k with Some _ => bs0 !! k | None => None end.

Lemma checkBlocks_triple c B bs0 us0 :
  books_ok B bs0 us0 →
  triple (λ w, (timing w ∧ books bs0 us0 w) ∧ (c ≤ clock w)%Z) (checkBlocks LM store api MaxSleep)
    (λ _, looked c bs0 B) panics_not.
Proof.
  intros Hok. unfold checkBlocks.
  apply (triple_bind _ _ (λ leases w, (timing w ∧ books bs0 us0 w) ∧
    ∃ w1 w2, (c ≤ clock w1)%Z ∧ Leases store [] w1 = (Ok leases, w2))).
  { intros w r w' [Hw Hc] H. apply (gw_Leases LM store api passes) in H as Hp. destruct Hp as [Hp Hr].
    destruct r as [leases|e]; [|intros s ->; by apply (Hr s)].
    destruct Hw as [Ht Hb]. split; [split|by exists w, w'].
    - by eapply timing_passes.
    - by eapply books_passes. }
  intros leases w r w' [[Ht Hb] Hl] H.
  rewrite (bind_ok (gets (view LM)) _ w _ w eq_refl), (bind_ok get _ w w w eq_refl) in H.
  destruct Hb as [Eb Eu]. rewrite Eb in H.
  set (ks := (range w (map_to_list bs0)).*1) in H.
  refine (triple_bind (released leases bs0 B ∅) panics_not
    (λ _, released leases bs0 B (list_to_set ks ∪ ∅)) _ _ (λ _, looked c bs0 B) _ _ w r w' _ H).
  - apply release_triple.
  - intros _ w1 r1 w2 (Ht1 & bs & us & Hb1 & Hok1 & Hk) H1.
    pose proof (computeNextTimeout_triple leases bs us w1 r1 w2 (conj Ht1 Hb1) H1) as Hp.
    destruct r1 as [[]|e]; [|done]. destruct Hp as [Ha Hb2]. split; [done|].
    exists leases, bs, us. split_and!; [done..|]. intros k. rewrite Hk.
    destruct (leases !! k) eqn:El; [by rewrite decide_False by naive_solver|].
    case_decide as Hd; [done|]. apply not_elem_of_dom. intros Hin. destruct Hd. split; [|done].
    rewrite union_empty_r_L, elem_of_list_to_set. unfold ks. apply elem_of_dom in Hin as [l Hin].
    apply (list_elem_of_fmap_2' fst _ (k, l)); [|done]. rewrite range_perm. by apply elem_of_map_to_list.
  - split; [done|]. exists bs0, us0. split_and!; [by split|done|]. intros k. by rewrite decide_False by set_solver.
Qed.

(** ** Runs of the manager *)

(** The channels that were made for those who wait are new ones; the timer is
    received when it has gone off. *)
Definition may_come (B : gset nat) (e : lease_event) (w : W) : Prop :=
  match e with
  | MvBlock b => b_unblock b ∉ B
  | MvTimer => ∃ due, lm_timer (view LM w) = Some due ∧ (due ≤ clock w)%Z
  | _ => True
  end.
Definition submits (e : lease_event) : gset nat :=
  match e with MvBlock b => {[b_unblock b]} | _ => ∅ end.

(** [B] are those who asked to be told. *)
Inductive managing : gset nat → W → Prop :=
| managing_start w w' :
    view LM w = NewManager → manager_start LM store api MaxSleep w = (Ok (), w') → managing ∅ w'
| managing_pass B w w' : managing B w → passes w w' → managing B w'
| managing_goroutine B g w x w' :
    managing B w → run_goroutine LM store api g w = (x, w') → managing B w'
| managing_turn B e w w' :
    managing B w → may_come B e w → choose LM store api MaxSleep e w = (Ok (), w') →
    managing (submits e ∪ B) w'.

Definition sorted_out (B : gset nat) (w : W) : Prop :=
  armed w ∧ ∃ bs us, books bs us w ∧ books_ok B bs us.

Lemma in_order_passes B w w' : passes w w' → sorted_out B w → sorted_out B w'.
Proof.
  intros Hp (Ha & bs & us & Hb & Hok). split; [by eapply armed_passes|].
  exists bs, us. split; [by eapply books_passes|done].
Qed.

(** The timer is pending and the books are these. *)
Definition set_up (bs : gmap LeaseKey (list nat)) (us : gset nat) (w : W) : Prop :=
  armed w ∧ books bs us w.

Lemma set_up_passes bs us w w' : passes w w' → set_up bs us w → set_up bs us w'.
Proof. intros Hp [Ha Hb]. split; [by eapply armed_passes|by eapply books_passes]. Qed.
Lemma gentle_set_up {A} (m : M W A) bs us :
  gentle passes m → triple (set_up bs us) m (λ _, set_up bs us) panics_not.
Proof. intros Hm. apply gentle_triple; [done|]. intros w w'. apply set_up_passes. Qed.

Lemma books_ok_add B bs us k id :
  books_ok B bs us → id ∉ B →
  books_ok ({[id]} ∪ B) (<[k := default [] (bs !! k) ++ [id]]> bs) us.
Proof.
  intros Hok Hid. pose proof Hok as [H1 H2 H3 H4].
  assert (∀ k' l, bs !! k' = Some l → id ∉ l) as Hnew.
  { intros k' l E Hin. apply Hid, H4. eauto. }
  assert (∀ k' l', <[k := default [] (bs !! k) ++ [id]]> bs !! k' = Some l' →
    ∀ i, i ∈ l' ↔ (i = id ∧ k' = k) ∨ ∃ l, bs !! k' = Some l ∧ i ∈ l) as Hin.
  { intros k' l' E i. apply lookup_insert_Some in E as [[-> <-]|[Hne E]].
    - rewrite elem_of_app, list_elem_of_singleton. destruct (bs !! k') as [l|]; simpl; split.
      + intros [?| ->]; [right; by exists l|by left].
      + intros [[-> _]|(l' & [= <-] & ?)]; auto.
      + intros [[]%not_elem_of_nil| ->]. by left.
      + intros [[-> _]|(l' & ? & _)]; auto. done.
    - rewrite E. split; [intros ?; right; by exists l'|]. intros [[_ ->]|(l & [= <-] & ?)]; done. }
  split.
  - intros k' l' [[-> <-]|[_ E]]%lookup_insert_Some; [|eauto]. apply NoDup_app. split_and!.
    + destruct (bs !! k') eqn:E; simpl; [eauto|apply NoDup_nil_2].
    + intros i Hi ->%list_elem_of_singleton. destruct (bs !! k') eqn:E; simpl in Hi;
        [by eapply Hnew|by apply not_elem_of_nil in Hi].
    + apply NoDup_singleton.
  - intros k1 k2 l1 l2 i E1 E2 [[-> ->]|(l & ? & ?)]%(Hin _ _ E1) [[? ->]|(l' & ? & ?)]%(Hin _ _ E2); subst;
      [done|by destruct (Hnew k2 l')|by destruct (Hnew k1 l)|eauto].
  - intros k' l' i E [[-> ->]|(l & ? & ?)]%(Hin _ _ E); [|eauto]. intros ?. apply Hid, H4. auto.
  - intros i. rewrite elem_of_union, elem_of_singleton, H4. split.
    + intros [->|[?|(k' & l & E & ?)]]; [right|auto|right].
      * exists k, (default [] (bs !! k) ++ [id]). rewrite lookup_insert_eq. split; [done|].
        apply elem_of_app. right. by apply list_elem_of_singleton.
      * destruct (decide (k' = k)) as [->|Hne].
        -- exists k, (default [] (bs !! k) ++ [id]). rewrite lookup_insert_eq, E. split; [done|].
           apply elem_of_app. by left.
        -- exists k', l. by rewrite lookup_insert_ne.
    + intros [?|(k' & l' & E & [[-> _]|?]%(Hin _ _ E))]; eauto.
Qed.

Lemma blocks_add_triple B b :
  b_unblock b ∉ B →
  triple (sorted_out B) (blocks_add LM b) (λ _, sorted_out ({[b_unblock b]} ∪ B)) panics_not.
Proof.
  intros Hb w r w' (Ha & bs & us & Hbk & Hok) H.
  unfold blocks_add in H. eapply (over_books _ bs us
    (<[b_leaseKey b := default [] (bs !! b_leaseKey b) ++ [b_unblock b]]> bs) us armed panics_not
    (or_intror eq_refl)) in H; [| | |by split].
  - destruct r as [[]|e]; [|done]. destruct H as [Ha' Hb']. split; [done|].
    eexists _, _. split; [exact Hb'|]. by apply books_ok_add.
  - intros m. by destruct (b_started b).
  - intros m <- <-. by destruct (b_started b).
Qed.

Lemma handleCheck_triple bs us c :
  triple (set_up bs us) (handleCheck LM store api c) (λ _, set_up bs us) panics_not.
Proof.
  apply (triple_bind _ _ (λ _, set_up bs us)); [apply gentle_set_up, (gentle_lookup LM store api passes)|].
  intros [i|]; [apply gentle_set_up, (gentle_respond LM store api passes)|].
  apply (triple_bind _ _ (λ n w, set_up bs us w ∧ n = clock w)); [apply Now_triple, set_up_passes|].
  intros n. apply (triple_bind _ _ (λ _, set_up bs us)).
  - intros w r w' [[Ha Hb] ->] H.
    assert (clock w + second ≤ clock w + MaxSleep + second)%Z as Hle by lia.
    pose proof (setNextTimeout_triple _ bs us w r w' (conj (or_introl Ha) (conj Hb Hle)) H) as Hp.
    by destruct r.
  - intros _. apply gentle_set_up, (gentle_respond LM store api passes).
Qed.

(** Turns that leave the books alone. *)
Definition keeps_books (e : lease_event) : bool :=
  match e with MvTimer | MvExpireDone | MvBlock _ => false | _ => true end.

Lemma keeps_books_triple e bs us :
  keeps_books e = true →
  triple (set_up bs us) (choose LM store api MaxSleep e) (λ _, set_up bs us) panics_not.
Proof.
  destruct e as [|c| | |c|r|p|p|b]; try done; intros _; simpl.
  - by apply triple_throw.
  - apply handleCheck_triple.
  - apply gentle_set_up, (gentle_bind passes); [by apply (gentle_over LM store api passes)|].
    intros _. by apply (gentle_over LM store api passes).
  - apply gentle_set_up, (gentle_bind passes); [by apply (gentle_over LM store api passes)|].
    intros _. by apply (gentle_over LM store api passes).
  - apply gentle_set_up, (gentle_bind passes); [apply (gentle_try passes), (gw_PinLease LM store api passes)|].
    intros r. apply (gentle_respond LM store api passes).
  - apply gentle_set_up, (gentle_bind passes); [apply (gentle_try passes), (gw_UnpinLease LM store api passes)|].
    intros r. apply (gentle_respond LM store api passes).
Qed.

Lemma looked_in_order c bs0 B w : looked c bs0 B w → sorted_out B w.
Proof. intros (Ha & _ & bs & us & _ & Hb & Hok & _). split; [done|]. by exists bs, us. Qed.

(** The look at the books after the timer or a revocation. *)
Definition looks (e : lease_event) : bool :=
  match e with MvTimer | MvExpireDone => true | _ => false end.

Lemma look_triple B e w0 :
  looks e = true →
  triple (λ w, w = w0 ∧ sorted_out B w ∧ may_come B e w) (choose LM store api MaxSleep e)
    (λ _, looked (clock w0) (lm_blocks (view LM w0)) B) panics_not.
Proof.
  intros He w r w' (-> & (Ha & bs & us & Hb & Hok) & Hc) H.
  rewrite (proj1 Hb). destruct e; try done; simpl in H.
  - refine (triple_bind (λ w, w = w0) panics_not (λ _ w, (timing w ∧ books bs us w) ∧ (clock w0 ≤ clock w)%Z) _ _
      (λ _, looked (clock w0) bs B) _ _ w0 r w' eq_refl H).
    + apply triple_modify. intros w ->. destruct Hc as (due & Ed & Hdue), Ha as (t & due' & Et & Ed' & ?).
      split; [split; [right|]|by rewrite mw_apart].
      * unfold overdue. rewrite view_update, mw_apart. simpl. rewrite Et. intros t' [= <-]. simplify_eq. lia.
      * unfold books. by rewrite view_update.
    + intros _. by apply (checkBlocks_triple (clock w0) B bs us).
  - eapply (checkBlocks_triple (clock w0) B bs us); [done| |done]. split; [split; [by left|done]|done].
Qed.

Lemma choose_triple B e w0 :
  triple (λ w, w = w0 ∧ sorted_out B w ∧ may_come B e w) (choose LM store api MaxSleep e)
    (λ _, sorted_out (submits e ∪ B)) panics_not.
Proof.
  intros w x w' (-> & Ho & Hc) H. destruct (looks e) eqn:El; [|destruct (keeps_books e) eqn:Eq].
  - pose proof (look_triple B e w0 El w0 x w' (conj eq_refl (conj Ho Hc)) H) as Hp.
    destruct x as [[]|err]; [|done]. apply looked_in_order in Hp.
    destruct e; try done; simpl; by rewrite union_empty_l_L.
  - destruct Ho as (Ha & bs & us & Hb & Hok).
    pose proof (keeps_books_triple e bs us Eq w0 x w' (conj Ha Hb) H) as Hp. destruct x as [[]|err]; [|done].
    destruct Hp as [Ha' Hb']. replace (submits e ∪ B) with B by (destruct e; set_solver).
    split; [done|]. by exists bs, us.
  - destruct e as [| | | | | | | |b]; try done. by apply (blocks_add_triple B b Hc) in H.
Qed.

Lemma managing_in_order B w : managing B w → sorted_out B w.
Proof.
  induction 1 as [w w' Hn H|B w w' _ IH Hp|B g w x w' _ IH H|B e w w' _ IH Hc H].
  - unfold manager_start in H. apply bind_inv_ok in H as (leases & w1 & El & H).
    apply (gw_Leases LM store api passes) in El as [[El _] _]. rewrite Hn in El. injection El as E1 E2 E3 E4 E5.
    eapply (computeNextTimeout_triple leases ∅ ∅) in H; [|split; [right|by split]].
    + destruct H as [Ha Hb]. split; [done|]. exists ∅, ∅. split; [done|].
      split; try (intros *; by rewrite lookup_empty). intros id. set_solver.
    + intros t. by rewrite E1.
  - by eapply in_order_passes.
  - apply (gentle_goroutine LM store api passes) in H as [Hp _]. by eapply in_order_passes.
  - by apply (choose_triple B e w) in H.
Qed.

(** C27: no one who waits for a lease is lost.  In every state the manager can get
    into, everyone who asked to be told waits for exactly one lease and was not
    told yet, or was told and waits no more; and no turn of the loop, and no
    goroutine, panics by telling someone twice. *)
Theorem lease_waiters_accounted B w e x w' :
  managing B w → may_come B e w → choose LM store api MaxSleep e w = (x, w') →
  (∀ s, x ≠ Err (GoPanic s)) ∧
  ∀ id, id ∈ B →
    let waits k := ∃ l, lm_blocks (view LM w) !! k = Some l ∧ id ∈ l in
    if decide (id ∈ lm_unblocked (view LM w)) then ∀ k, ¬ waits k
    else ∃ k, waits k ∧ ∀ k', waits k' → k' = k.
Proof.
  intros Hm%managing_in_order Hc H. split.
  - pose proof (choose_triple B e w w x w' (conj eq_refl (conj Hm Hc)) H) as Hp.
    destruct x as [|err]; [done|]. intros s [= ->]. by apply (Hp s).
  - intros id Hid. destruct Hm as (_ & bs & us & [-> ->] & [_ H2 H3 H4]). case_decide as Hu; intros waits.
    + intros k (l & E & Hin). by eapply H3.
    + apply H4 in Hid as [?|(k & l & E & Hin)]; [done|]. exists k. split; [by exists l|].
      intros k' (l' & E' & Hin'). by eapply H2.
Qed.

(** What a look at the books tells whom. *)
Lemma look_releases B w e w' :
  sorted_out B w → may_come B e w → looks e = true →
  choose LM store api MaxSleep e w = (Ok (), w') →
  lm_unblocked (view LM w) ⊆ lm_unblocked (view LM w') ∧
  ∃ leases, (∃ w1 w2, (clock w ≤ clock w1)%Z ∧ Leases store [] w1 = (Ok leases, w2)) ∧
    ∀ k l id, lm_blocks (view LM w) !! k = Some l → id ∈ l →
      match leases !! k with
      | None => id ∈ lm_unblocked (view LM w')
      | Some _ => (id ∉ lm_unblocked (view LM w')) ∧ lm_blocks (view LM w') !! k = Some l
      end.
Proof.
  intros Hm Hc Hl H. pose proof Hm as (_ & bs & us & [Eb Eu] & [_ H2 H3 H4]).
  pose proof (look_triple B e w Hl w (Ok ()) w' (conj eq_refl (conj Hm Hc)) H) as Hp.
  destruct Hp as (_ & leases & bs' & us' & Hq & [Eb' ->] & [_ _ H3' H4'] & Hk).
  rewrite Eb', Eb, Eu. rewrite Eb in Hk. split.
  { intros id Hid. destruct (proj1 (H4' id)) as [?|(k & l & E & Hin)]; [apply H4; auto|done|].
    rewrite Hk in E. destruct (leases !! k); [|done]. by destruct (H3 k l id E Hin). }
  exists leases.
  split; [done|]. intros k l id E Hin. specialize (Hk k) as Hkk.
  destruct (leases !! k) eqn:El.
  - rewrite E in Hkk. split; [by eapply H3'|done].
  - destruct (proj1 (H4' id)) as [?|(k' & l' & E' & Hin')]; [apply H4; eauto|done|].
    specialize (Hk k'). rewrite E' in Hk. destruct (leases !! k') eqn:El'; [|done].
    assert (k' = k) as -> by (by eapply H2). congruence.
Qed.

(** Whoever waits for a lease goes on waiting for it or is told. *)
Definition waits_for (k : LeaseKey) (id : nat) (w : W) : Prop :=
  ∃ l, lm_blocks (view LM w) !! k = Some l ∧ id ∈ l.
Definition told (id : nat) (w : W) : Prop := id ∈ lm_unblocked (view LM w).

Lemma waiting_passes k id w w' : passes w w' → waits_for k id w ∨ told id w → waits_for k id w' ∨ told id w'.
Proof. intros [E _]. unfold waits_for, told. by injection E as _ _ -> -> _. Qed.

Lemma waiting_turn B e k id w w' :
  managing B w → may_come B e w → choose LM store api MaxSleep e w = (Ok (), w') →
  waits_for k id w ∨ told id w → waits_for k id w' ∨ told id w'.
Proof.
  intros Hm%managing_in_order Hc H Hw. destruct (looks e) eqn:El; [|destruct (keeps_books e) eqn:Eq].
  - destruct (look_releases B w e w' Hm Hc El H) as (Hu & leases & _ & Hr). destruct Hw as [(l & E & Hin)|Ht].
    + specialize (Hr k l id E Hin). destruct (leases !! k); [left; exists l; by destruct Hr|by right].
    + right. by apply Hu.
  - destruct Hm as (Ha & bs & us & Hb & Hok).
    pose proof (keeps_books_triple e bs us Eq w (Ok ()) w' (conj Ha Hb) H) as [_ Hb']. revert Hw.
    unfold waits_for, told. destruct Hb as [-> ->], Hb' as [-> ->]. done.
  - destruct e as [| | | | | | | |b]; try done. simpl in H. unfold blocks_add, over, modify in H.
    simplify_eq. unfold waits_for, told. rewrite view_update.
    destruct (b_started b); simpl; (destruct Hw as [(l & E & Hin)|?]; [left|by right]);
      (destruct (decide (k = b_leaseKey b)) as [->|Hne];
       [rewrite lookup_insert_eq, E; eexists; split; [done|simpl; set_solver]
       |rewrite lookup_insert_ne by done; by exists l]).
Qed.

(** Those who wait are told when the lease is gone, and only then.  A turn in
    which the timer has gone off or a revocation was reported tells exactly those
    who wait for a lease that the store, asked in that turn, does not have; the
    others keep waiting. *)
Theorem lease_waiters_released B w e w' :
  managing B w → may_come B e w → looks e = true →
  choose LM store api MaxSleep e w = (Ok (), w') →
  ∃ leases, (∃ w1 w2, (clock w ≤ clock w1)%Z ∧ Leases store [] w1 = (Ok leases, w2)) ∧
    ∀ k l id, lm_blocks (view LM w) !! k = Some l → id ∈ l →
      match leases !! k with
      | None => id ∈ lm_unblocked (view LM w')
      | Some _ => (id ∉ lm_unblocked (view LM w')) ∧ lm_blocks (view LM w') !! k = Some l
      end.
Proof. intros Hm%managing_in_order Hc Hl H. apply (look_releases B w e w' Hm Hc Hl H). Qed.

End loop.

(** ** Answers *)

Section answers.
Context {W : Type} {MO : MapOrder W}.
Context (LM : lens W LeaseManager) (store : LeaseStore W) (api : ManagerAPI W) (MaxSleep : Z).

(** Nothing that was sent is taken back, and a manager that is dying stays so. *)
Definition lasts (w w' : W) : Prop :=
  dom (lm_responses (view LM w)) ⊆ dom (lm_responses (view LM w')) ∧
  (is_Some (lm_tomb (view LM w)) → is_Some (lm_tomb (view LM w'))).

#[export] Instance lasts_preorder : PreOrder lasts.
Proof.
  split; [by split|]. intros w w1 w' [E1 ?] [E2 ?]. split; [by etrans|auto].
Qed.

Class AnswerWorld : Prop := {
  aw_laws :: LensLaws LM;
  aw_gentle :: GentleWorld LM store api lasts;
  aw_Dying w w' : ma_Dying api w = (true, w') → is_Some (lm_tomb (view LM w'));
  aw_Now w n w' : ma_Now api w = (n, w') → lasts w w';
  aw_Reset d w due w' : ma_Reset api d w = (due, w') → lasts w w';
}.
Context {AW : AnswerWorld}.

(** There is an answer, or the manager is dying. *)
Definition settled_request (id : nat) (w : W) : Prop :=
  id ∈ dom (lm_responses (view LM w)) ∨ is_Some (lm_tomb (view LM w)).

Lemma settled_lasts id w w' : lasts w w' → settled_request id w → settled_request id w'.
Proof. intros [Hr Ht] [?|?]; [left; by apply Hr|right; auto]. Qed.

Lemma respond_settles id v E :
  triple (λ _, True) (respond LM api id v) (λ _, settled_request id) E.
Proof.
  unfold respond. apply (triple_bind _ _ (λ b w, b = true → is_Some (lm_tomb (view LM w)))).
  - intros w r w' _ H. unfold always in H. destruct (ma_Dying api w) as [b w1] eqn:Ed. simplify_eq.
    intros ->. by eapply aw_Dying.
  - intros []; [apply triple_ret; intros w Hw; right; auto|].
    apply triple_modify. intros w _. left. rewrite view_update. simpl. set_solver.
Qed.
Lemma Kill_settles id e E : triple (λ _, True) (tomb_Kill LM e) (λ _, settled_request id) E.
Proof. apply triple_modify. intros w _. right. rewrite view_update. simpl. eauto. Qed.

(** A goroutine's last steps, whatever was decided before. *)
Lemma finally_settles id (m f : M W ()) :
  triple (λ _, True) m (λ _, settled_request id) (λ _ _, False) → gentle lasts f →
  (∀ w, (f w).1 = Ok ()) → triple (λ _, True) (finally m f) (λ _, settled_request id) (λ _ _, False).
Proof.
  intros Hm Hf Hok. apply (triple_bind _ _ (λ r w, r = Ok () ∧ settled_request id w)).
  - intros w r w' _ H. unfold try in H. destruct (m w) as [[[]|e] w1] eqn:E; apply Hm in E; [|done..].
    by simplify_eq.
  - intros r. apply triple_pure. intros ->.
    apply (triple_bind _ _ (λ _, settled_request id)); [|by intros []; apply triple_ret].
    intros w r w' Hw H. specialize (Hok w). rewrite H in Hok. simpl in Hok. subst r.
    apply Hf in H as [Hl _]. by eapply settled_lasts.
Qed.

Definition request_of (g : goroutine) : option nat :=
  match g with
  | GoClaim c => Some (c_response c)
  | GoRevoke r => Some (rv_response r)
  | GoExpireDone => None
  end.

Lemma attempts_run {A} fatal n (body : M W A) last :
  gentle lasts body →
  triple (λ _, True) (attempts api n fatal body last) (λ _ _, True) (λ _ _, False).
Proof.
  intros Hb. revert last. induction n as [|n IH]; intros last; simpl; [by apply triple_ret|].
  apply (triple_bind _ _ (λ _ _, True)).
  - intros w r w' _ H. unfold always in H. destruct (ma_Next api w). by simplify_eq.
  - intros []; [|by apply triple_ret]. apply (triple_bind _ _ (λ _ _, True)).
    + intros w r w' _ H. unfold try in H.
      destruct (body w) as [[a|e] w1] eqn:Eb; apply Hb in Eb as [_ He]; [by simplify_eq|].
      destruct e; simplify_eq; try done. by destruct (He what).
    + intros [a|e]; [by apply triple_ret|]. case_match; [by apply triple_ret|apply IH].
Qed.

Lemma goroutine_settles g id :
  request_of g = Some id →
  triple (λ _, True) (run_goroutine LM store api g) (λ _, settled_request id) (λ _ _, False).
Proof.
  destruct g as [c|r|]; intros [= <-]; simpl.
  - apply finally_settles; [|apply (gentle_outstanding LM store api lasts)|done].
    eapply triple_bind; [apply attempts_run, (gentle_handleClaim LM store api lasts)|].
    intros [[]|e]; [apply respond_settles..|].
    repeat case_match; auto using respond_settles, Kill_settles.
  - eapply triple_bind; [apply attempts_run, (gentle_handleRevoke LM store api lasts)|]. intros [[]|e].
    + apply (triple_bind _ _ (λ _, settled_request (rv_response r))); [apply respond_settles|].
      intros _. apply (triple_bind _ _ (λ _, settled_request (rv_response r))).
      { intros w x w' Hw H. unfold always in H. destruct (ma_Dying api w) eqn:E. simplify_eq.
        eapply settled_lasts; [by eapply (gw_Dying _ _ _ lasts)|done]. }
      intros []; apply triple_modify; intros w Hw; eapply settled_lasts; [by apply (gw_over _ _ _ lasts)|done
        |by apply (gw_over _ _ _ lasts)|done].
    + apply finally_settles; [|apply (gentle_outstanding LM store api lasts)|done].
      repeat case_match; auto using respond_settles, Kill_settles.
Qed.

(** Requests that the loop answers itself. *)
Definition loop_request (e : lease_event) : option nat :=
  match e with
  | MvCheck c => Some (ck_response c)
  | MvPin p | MvUnpin p => Some (pn_response p)
  | _ => None
  end.

Lemma choose_settles e id :
  loop_request e = Some id →
  triple (λ _, True) (choose LM store api MaxSleep e) (λ _, settled_request id) (λ _ _, True).
Proof.
  assert (∀ A (m : M W A), triple (λ _, True) m (λ _ _, True) (λ _ _, True)) as Hany.
  { by intros A m w [] w' _ _. }
  destruct e as [|c| | |c|r|p|p|b]; intros [= <-]; simpl.
  - apply (triple_bind _ _ (λ _ _, True)); [apply Hany|]. intros [i|]; [apply respond_settles|].
    apply (triple_bind _ _ (λ _ _, True)); [apply Hany|]. intros n.
    apply (triple_bind _ _ (λ _ _, True)); [apply Hany|]. intros _. apply respond_settles.
  - apply (triple_bind _ _ (λ _ _, True)); [apply Hany|]. intros r. apply respond_settles.
  - apply (triple_bind _ _ (λ _ _, True)); [apply Hany|]. intros r. apply respond_settles.
Qed.

(** C28: no request goes without an answer.  The goroutine of a claim or of a
    revocation runs to its end without a panic, within its attempts, whatever the
    database answers, and leaves an answer on the channel of the request unless the
    manager is dying, by its own hand or another's; a check, a pin or an unpin is
    answered within its turn of the loop unless the turn ends the loop or the
    manager is dying. *)
Theorem requests_are_answered w :
  (∀ g id, request_of g = Some id → ∃ w', run_goroutine LM store api g w = (Ok (), w') ∧
     (id ∈ dom (lm_responses (view LM w')) ∨ is_Some (lm_tomb (view LM w')))) ∧
  (∀ e id, loop_request e = Some id → ∀ w',
     choose LM store api MaxSleep e w = (Ok (), w') →
     id ∈ dom (lm_responses (view LM w')) ∨ is_Some (lm_tomb (view LM w'))).
Proof.
  split.
  - intros g id Hg. destruct (run_goroutine LM store api g w) as [[[]|e] w'] eqn:E;
      apply (goroutine_settles g id Hg) in E; [|done..]. by exists w'.
  - intros e id He w' H. by apply (choose_settles e id He) in H.
Qed.
End answers.
