(* ===== verification/LeaseClients.v ===== *)
(** * Who uses leases

    The way of a claim for leadership from the agent of a unit to the lease
    manager: the client of the API (api/agent/leadership/client.go), the facade
    (apiserver/facades/agent/leadership), the leadership service over the lease
    manager (apiserver/leadership.go).  Further, the lease service of the domain
    (domain/leaseservice.go), the flag that tells a controller whether it is to
    run the workers of a model (internal/worker/singular/flag.go), and the claims
    of the object store (internal/worker/objectstore/manifold.go). *)

From S2P Require Import Prelude Hooks LeaseStore LeaseManager Leadership.

(** ** Errors over the API *)

(** apiserver/errors/errors.go *)
Abbreviation ErrPerm := (ErrConst "permission denied").

Definition singletonErrorCodes : list (error * string) := [
  (ErrClaimDenied, "leadership claim denied");
  (lease_ErrClaimDenied, "lease claim denied");
  (ErrConst "id not found", CodeNotFound);
  (ErrConst "invalid entity name or password", CodeUnauthorized);
  (ErrConst "no credentials provided", "no credentials provided");
  (ErrConst "login expired", "login expired");
  (ErrPerm, CodeUnauthorized);
  (ErrConst "not logged in", CodeUnauthorized);
  (ErrConst "unknown watcher id", CodeNotFound);
  (ErrConst "watcher has been stopped", "stopped");
  (ErrConst "try again", "try again");
  (ErrConst "action no longer available", CodeActionNotAvailable)].

Definition singletonCode (e : error) : option string :=
  first_some (λ x, if decide (e = x.1) then Some x.2 else None) singletonErrorCodes.

(** The error that goes over the API, by its code, for the kinds of error that are
    told apart here; the default is the code that the error has already. *)
Definition ServerError (e : error) : error :=
  ErrCode (match singletonCode e with
           | Some c => c
           | None =>
               match e with
               | NotFound _ => CodeNotFound
               | NotProvisioned _ => "not provisioned"
               | BadRequest _ => "bad request"
               | NotValid _ => "not valid"
               | ErrCode c => c
               | _ => ""
               end
           end).

Definition IsCodeLeadershipClaimDenied (e : error) : bool :=
  bool_decide (e = ErrCode "leadership claim denied").

(** core/leadership/interface.go *)
Abbreviation ErrClaimNotHeld := (ErrConst "leadership lease not held").
Definition NewNotLeaderError (unit application : string) : error :=
  ErrType "notLeaderError" "%q is not leader of %q".

(** ** apiserver/leadership.go *)

Section leadership.
Context {W : Type} `{MapOrder W}.
Context (LM : lens W LeaseManager) (store : LeaseStore W) (api : ManagerAPI W) (b : boundManager).

Definition leadershipToken_Check (applicationName unitName : string) (id : nat) : M W () :=
  r ← try (token_Check LM store api b applicationName unitName id);
  match r with
  | Ok _ => mret ()
  | Err e => if decide (e = lease_ErrNotHeld) then throw (NewNotLeaderError unitName applicationName)
             else throw e
  end.

Definition leadershipClaimer_ClaimLeadership (appName unitName : string) (duration : Z) (id : nat) :
    M W () :=
  r ← try (Claim LM store api b appName unitName duration id);
  match r with
  | Ok _ => mret ()
  | Err e => if decide (e = lease_ErrClaimDenied) then throw ErrClaimDenied else throw e
  end.

(** From what [WaitUntilExpired] returned. *)
Definition leadershipClaimer_BlockUntilLeadershipReleased (r : result ()) : result () :=
  match r with
  | Ok _ => Ok ()
  | Err e => if decide (e = lease_ErrWaitCancelled) then Err ErrBlockCancelled else Err e
  end.

Definition leadershipRevoker_RevokeLeadership (applicationName unitName : string) (id : nat) : M W () :=
  r ← try (Revoke LM store api b applicationName unitName id);
  match r with
  | Ok _ => mret ()
  | Err e => if decide (e = lease_ErrNotHeld) then throw ErrClaimNotHeld else throw e
  end.

Definition PinLeadership (applicationName entity : string) (id : nat) : M W () :=
  Pin LM store api b applicationName entity id.
Definition UnpinLeadership (applicationName entity : string) (id : nat) : M W () :=
  Unpin LM store api b applicationName entity id.
Definition PinnedLeadership : M W (gmap string (list string)) := bound_Pinned store b.
Definition Leaders : M W (gmap string string) := bound_Leases store b.

(** ** domain/leaseservice.go

    [GetLeaseManager] finds the manager of the model, or fails. *)
Context (GetLeaseManager : M W ()).

Definition ApplicationLeader (appName : string) : M W string :=
  _ ← GetLeaseManager;
  leases ← bound_Leases store b;
  match leases !! appName with
  | None => throw (NotFound "application %q not found in leases")
  | Some leader => mret leader
  end.

(** The token that [LeadershipCheck] makes, and its [Check]. *)
Definition LeadershipCheck_Check (appName unitName : string) (id : nat) : M W () :=
  _ ← GetLeaseManager;
  token_Check LM store api b appName unitName id.

(** Of the kinds of error that the result has, the one that is added. *)
Definition LeaseService_RevokeLeadership (appName unitName : string) (id : nat) : M W () :=
  _ ← GetLeaseManager;
  r ← try (Revoke LM store api b appName unitName id);
  match r with
  | Ok _ => mret ()
  | Err e => if decide (e = lease_ErrNotHeld) then throw ErrClaimNotHeld else throw e
  end.

(** [WithLeader] runs a function as long as a unit is leader.  It is the goroutine
    of the caller and another one that waits for the lease to end; [leader_point]
    and [wait_point] are where they are.  A context is the error that it has once
    it is done. *)
Definition ctx_cancel (e : error) (ctx : option error) : option error := Some (default e ctx).

Inductive leader_point : Type :=
| LpSelect
| LpCheck
| LpRun
| LpDone (r : result ()).
(** In [WaitUntilExpired], where the request is sent or not; after it; at the
    [select] with which the goroutine reports; and at its end. *)
Inductive wait_point : Type :=
| WpInvoke (sent : bool)
| WpCancel (r : result ())
| WpReport (r : result ())
| WpGone.
#[global] Instance wait_point_eq_dec : EqDecision wait_point.
Proof. solve_decision. Defined.
Record leader_call : Type := MkLeaderCall {
  lc_main : leader_point;
  lc_wait : wait_point;
  lc_ctx : option error;
  lc_leaseCtx : option error;
  lc_waitCtx : option error;
}.
Definition set_main_point (p : leader_point) (c : leader_call) : leader_call :=
  MkLeaderCall p (lc_wait c) (lc_ctx c) (lc_leaseCtx c) (lc_waitCtx c).
Definition set_wait_point (p : wait_point) (c : leader_call) : leader_call :=
  MkLeaderCall (lc_main c) p (lc_ctx c) (lc_leaseCtx c) (lc_waitCtx c).

(** With the deferred calls. *)
Definition leader_return (r : result ()) (c : leader_call) : leader_call :=
  MkLeaderCall (LpDone r) (lc_wait c) (lc_ctx c) (ctx_cancel context_Canceled (lc_leaseCtx c))
    (ctx_cancel context_Canceled (lc_waitCtx c)).

(** Up to the first [select], given the context of the caller. *)
Definition WithLeader (ctx : option error) : M W leader_call :=
  match ctx with
  | Some e => mret (leader_return (Err e) (MkLeaderCall LpSelect WpGone ctx None None))
  | None =>
      r ← try GetLeaseManager;
      match r with
      | Err e => mret (leader_return (Err e) (MkLeaderCall LpSelect WpGone None None None))
      | Ok _ => mret (MkLeaderCall LpSelect (WpInvoke false) None None None)
      end
  end.

(** What may happen next: the caller's context ends; in the goroutine that waits,
    the lease manager takes the request, the wait ends, the context of the function
    is cancelled, and the goroutine ends; the three cases of the caller's [select],
    of which the second takes the report of the other goroutine; the check; and the
    function returns. *)
Inductive leader_event : Type :=
| LvCaller (e : error)
| LvSend
| LvWaitEnds (r : result ())
| LvLeaseCancel
| LvCollapse
| LvCancelled
| LvReport
| LvStart
| LvCheck
| LvReturn (r : result ()).

(** [errors.Errorf] of the error that the wait ended with, which is not nil even if
    that one is. *)
Definition wait_error (r : result ()) : error :=
  match r with Err e => e | Ok _ => ErrNew "waiting for leadership to expire: %w" end.

(** [unblock], [start] and [check] are the channels that the call makes. *)
Definition leader_step (appName unitName : string) (unblock start check : nat) (ev : leader_event)
    (c : leader_call) (w : W) : option (leader_call * W) :=
  let key := leaseKey b appName in
  match ev with
  | LvCaller e =>
      Some (MkLeaderCall (lc_main c) (lc_wait c) (ctx_cancel e (lc_ctx c))
        (ctx_cancel e (lc_leaseCtx c)) (ctx_cancel e (lc_waitCtx c)), w)
  | LvSend =>
      match lc_wait c, CheckLease (bm_secretary b) key with
      | WpInvoke false, Ok _ =>
          Some (set_wait_point (WpInvoke true) c, (blocks_add LM (MkBlock key unblock (Some start)) w).2)
      | _, _ => None
      end
  | LvWaitEnds r =>
      match lc_wait c with
      | WpInvoke _ =>
          if decide (r ∈ WaitUntilExpired b appName unblock (Some start)
            (bool_decide (is_Some (lc_waitCtx c))) (view LM w))
          then Some (set_wait_point (WpCancel r) c, w) else None
      | _ => None
      end
  | LvLeaseCancel =>
      match lc_wait c with
      | WpCancel r =>
          Some (MkLeaderCall (lc_main c) (WpReport r) (lc_ctx c)
            (ctx_cancel context_Canceled (lc_leaseCtx c)) (lc_waitCtx c), w)
      | _ => None
      end
  | LvCollapse =>
      match lc_wait c, lc_waitCtx c with
      | WpReport _, Some _ => Some (set_wait_point WpGone c, w)
      | _, _ => None
      end
  | LvCancelled =>
      match lc_main c, lc_leaseCtx c with
      | LpSelect, Some e => Some (leader_return (Err e) c, w)
      | _, _ => None
      end
  | LvReport =>
      match lc_main c, lc_wait c with
      | LpSelect, WpReport r =>
          Some (set_wait_point WpGone (leader_return (Err (default (wait_error r) (lc_leaseCtx c))) c), w)
      | _, _ => None
      end
  | LvStart =>
      match lc_main c with
      | LpSelect => if decide (start ∈ lm_started (view LM w)) then Some (set_main_point LpCheck c, w) else None
      | _ => None
      end
  | LvCheck =>
      match lc_main c with
      | LpCheck =>
          let (r, w') := token_Check LM store api b appName unitName check w in
          Some (match r with Ok _ => set_main_point LpRun c | Err e => leader_return (Err e) c end, w')
      | _ => None
      end
  | LvReturn r =>
      match lc_main c with
      | LpRun => Some (leader_return r c, w)
      | _ => None
      end
  end.
End leadership.

(** ** apiserver/facades/agent/leadership *)

(** Tags of applications and units, and the duration that goes over the API as a
    number of seconds in floating point. *)
Class LeadershipWire (F : Type) : Type := {
  ParseApplicationTag : string → result string;
  ParseUnitTag : string → result string;
  ApplicationTag_String : string → string;
  UnitTag_String : string → string;
  Duration_Seconds : Z → F;
  Seconds_Duration : F → Z;
}.

(** Who is connected. *)
Inductive auth_tag : Type :=
| AuthUnitTag (id : string)
| AuthApplicationTag (id : string)
| AuthOtherTag (id : string).

Record ClaimLeadershipParams (F : Type) : Type := MkClaimLeadershipParams {
  clp_ApplicationTag : string;
  clp_UnitTag : string;
  clp_DurationSeconds : F;
}.
Arguments clp_ApplicationTag {F} _.
Arguments clp_UnitTag {F} _.
Arguments clp_DurationSeconds {F} _.

Definition minLeaseRequest : Z := 5 * second.
Definition maxLeaseRequest : Z := 5 * 60 * second.

Section facade.
Context {F : Type} `{LeadershipWire F, Names} {W : Type}.

(** [authorizer.GetAuthTag()], and the claimer behind the facade. *)
Context (authTag : auth_tag) (ClaimLeadership : string → string → Z → M W ()).

Definition authMember (applicationTag : string) : bool :=
  match authTag with
  | AuthUnitTag unitId =>
      match UnitApplication unitId with
      | Ok requireAppName => bool_decide (applicationTag = requireAppName)
      | Err _ => false
      end
  | _ => false
  end.

Definition parseApplicationAndUnitTags (applicationTagString unitTagString : string) :
    result (string * string) :=
  match ParseApplicationTag applicationTagString with
  | Err _ => Err ErrPerm
  | Ok applicationTag =>
      match ParseUnitTag unitTagString with
      | Err _ => Err ErrPerm
      | Ok unitTag => Ok (applicationTag, unitTag)
      end
  end.

(** [AuthOwner]: the tag is that of who is connected. *)
Definition canClaim (applicationTag unitTag : string) : bool :=
  match authTag with
  | AuthUnitTag id => bool_decide (unitTag = id) && authMember applicationTag
  | AuthApplicationTag id => bool_decide (applicationTag = id)
  | AuthOtherTag _ => false
  end.

(** One round of the loop over the parameters. *)
Definition claim_one (p : ClaimLeadershipParams F) : M W (option error) :=
  match parseApplicationAndUnitTags (clp_ApplicationTag p) (clp_UnitTag p) with
  | Err e => mret (Some (ServerError e))
  | Ok (applicationTag, unitTag) =>
      let duration := Seconds_Duration (clp_DurationSeconds p) in
      if bool_decide (maxLeaseRequest < duration)%Z || bool_decide (duration < minLeaseRequest)%Z
      then mret (Some (ServerError (ErrNew "invalid duration")))
      else if negb (canClaim applicationTag unitTag) then mret (Some (ServerError ErrPerm))
      else
        r ← try (ClaimLeadership applicationTag unitTag duration);
        mret (match r with Ok _ => None | Err e => Some (ServerError e) end)
  end.

Fixpoint leadershipService_ClaimLeadership (args : list (ClaimLeadershipParams F)) :
    M W (list (option error)) :=
  match args with
  | [] => mret []
  | p :: args' =>
      r ← claim_one p;
      rs ← leadershipService_ClaimLeadership args';
      mret (r :: rs)
  end.

(** From what the claimer returned, should it be asked. *)
Definition leadershipService_BlockUntilLeadershipReleased (applicationTag : string) (r : result ()) :
    option error :=
  let hasPerm := match authTag with
                 | AuthUnitTag _ => authMember applicationTag
                 | AuthApplicationTag id => bool_decide (applicationTag = id)
                 | AuthOtherTag _ => false
                 end in
  if negb hasPerm then Some (ServerError ErrPerm)
  else match r with Ok _ => None | Err e => Some (ServerError e) end.

(** ** api/agent/leadership/client.go

    The call over the network may fail, or the connection be lost after it was
    made; [FacadeCall] makes it. *)
Context (FacadeCall : M W (list (option error)) → M W (list (option error))).

Definition prepareClaimLeadership (appId unitId : string) (duration : Z) : ClaimLeadershipParams F :=
  MkClaimLeadershipParams F (ApplicationTag_String appId) (UnitTag_String unitId)
    (Duration_Seconds duration).

Definition bulkClaimLeadership (args : list (ClaimLeadershipParams F)) : M W (list (option error)) :=
  match args with
  | [] => mret []
  | _ => FacadeCall (leadershipService_ClaimLeadership args)
  end.

Definition client_ClaimLeadership (appId unitId : string) (duration : Z) : M W () :=
  results ← bulkClaimLeadership [prepareClaimLeadership appId unitId duration];
  match results with
  | [] => throw (GoPanic "index out of range")
  | None :: _ => mret ()
  | Some e :: _ => if IsCodeLeadershipClaimDenied e then throw ErrClaimDenied else throw e
  end.

(** From what the call returned. *)
Definition client_BlockUntilLeadershipReleased (r : result (option error)) : result () :=
  match r with
  | Err e => Err e
  | Ok (Some e) => Err e
  | Ok None => Ok ()
  end.
End facade.

(** ** internal/worker/singular/flag.go *)

Abbreviation ErrRefresh := (ErrConst "model responsibility unclear, please retry").

Section flag.
Context {W : Type} `{MapOrder W}.
Context (LM : lens W LeaseManager) (store : LeaseStore W) (api : ManagerAPI W) (b : boundManager).
Context (entity claimant : string) (Duration : Z).

Definition FlagWorker_claim (id : nat) : M W bool :=
  r ← try (Claim LM store api b entity claimant Duration id);
  match r with
  | Ok _ => mret true
  | Err e => if decide (e = lease_ErrClaimDenied) then mret false else throw e
  end.

(** A round of the loop, after half of the duration. *)
Definition keepOccupied (id : nat) : M W () :=
  success ← FlagWorker_claim id;
  if success : bool then mret () else throw ErrRefresh.

(** From what the wait returned. *)
Definition waitVacant (r : result ()) : result () :=
  match r with Ok _ => Err ErrRefresh | Err e => Err e end.
End flag.

(** ** internal/worker/objectstore/manifold.go *)

Definition defaultClaimDuration : Z := 30 * second.

Section objectstore.
Context {W : Type} `{MapOrder W}.
Context (LM : lens W LeaseManager) (store : LeaseStore W) (api : ManagerAPI W) (b : boundManager).

Definition claimer_Claim (hash : string) (id : nat) : M W () :=
  Claim LM store api b hash ObjectStoreLeaseHolderName (defaultClaimDuration * 2) id.
Definition claimer_Release (hash : string) (id : nat) : M W () :=
  Revoke LM store api b hash ObjectStoreLeaseHolderName id.
Definition claimExtender_Extend (hash : string) (id : nat) : M W () :=
  Claim LM store api b hash ObjectStoreLeaseHolderName defaultClaimDuration id.
End objectstore.
