(* ===== verification/LeadershipLease.v ===== *)
(** * Leadership rests on leases

    The tracker of a unit, the API client, the facade, the lease manager and the
    lease tables put together: the tracker's claimer is the client, whose calls
    reach the manager over the network.  The claimer keeps what the tracker
    relies on, and so a ticket of the tracker that says leader is worth what the
    lease tables say. *)

From S2P Require Import Prelude Hooks LeaseStore LeaseStoreFacts LeaseSafety LeaseManager LeaseManagerFacts Leadership LeadershipFacts LeaseClients.

(** ** The facade *)

Section facade.
Context {F : Type} `{LW : LeadershipWire F, NM : Names} {W : Type}.
Context (authTag : auth_tag).

(** What an agent may claim: a unit for itself, and its application; an
    application agent for its application. *)
Definition permitted (app unit : string) (duration : Z) : Prop :=
  (minLeaseRequest ≤ duration ≤ maxLeaseRequest)%Z ∧
  match authTag with
  | AuthUnitTag id => unit = id ∧ UnitApplication id = Ok app
  | AuthApplicationTag id => app = id
  | AuthOtherTag _ => False
  end.

Lemma canClaim_permitted app unit :
  canClaim authTag app unit = true →
  match authTag with
  | AuthUnitTag id => unit = id ∧ UnitApplication id = Ok app
  | AuthApplicationTag id => app = id
  | AuthOtherTag _ => False
  end.
Proof.
  unfold canClaim, authMember. destruct authTag; [|by intros ?%bool_decide_eq_true|done].
  intros [?%bool_decide_eq_true H]%andb_true_iff. split; [done|].
  destruct (UnitApplication id); [|done]. by apply bool_decide_eq_true in H as ->.
Qed.

Lemma claim_one_permitted (C C' : string → string → Z → M W ()) (p : ClaimLeadershipParams F) w :
  (∀ a u d, permitted a u d → C a u d = C' a u d) → claim_one authTag C p w = claim_one authTag C' p w.
Proof.
  intros HC. unfold claim_one. destruct (parseApplicationAndUnitTags _ _) as [[a u]|e]; [|done].
  destruct (_ || _) eqn:Ed; [done|]. destruct (canClaim authTag a u) eqn:Ec; [|done]. simpl.
  rewrite HC; [done|]. split; [|by apply canClaim_permitted].
  apply orb_false_iff in Ed as [?%bool_decide_eq_false ?%bool_decide_eq_false]. lia.
Qed.

(** Agents claim for themselves only.  Whatever a connected agent asks of the
    facade, the claimer behind it is called for nothing but what the agent is
    permitted, with durations between five seconds and five minutes: two claimers
    that agree on that make no difference.  Each request has its own result, in the
    order of the requests, unless the claimer panics. *)
Theorem facade_claims_permitted (C C' : string → string → Z → M W ()) args w :
  (∀ a u d, permitted a u d → C a u d = C' a u d) →
  leadershipService_ClaimLeadership authTag C args w =
    leadershipService_ClaimLeadership (F := F) authTag C' args w ∧
  ∀ rs w', leadershipService_ClaimLeadership authTag C args w = (Ok rs, w') →
    length rs = length args.
Proof.
  intros HC. split.
  - revert w. induction args as [|p args IH]; intros w; [done|]. simpl.
    unfold mbind, M_bind. rewrite (claim_one_permitted C C' p w HC).
    destruct (claim_one authTag C' p w) as [[r|e] w1]; [|done]. by rewrite IH.
  - revert w. induction args as [|p args IH]; simpl; intros w rs w' H.
    + apply mret_inv in H as [[= ->] _]. done.
    + apply bind_inv_ok in H as (r & w1 & _ & H). apply bind_inv_ok in H as (rs' & w2 & H2 & H).
      apply mret_inv in H as [[= ->] _]. simpl. f_equal. by eapply IH.
Qed.
End facade.

(** ** The way of a claim *)

Section leading.
Context {F : Type} `{LW : LeadershipWire F, NM : Names, LN : LeaseNames}.
Context {W : Type} {MO : MapOrder W}.

(** The lease manager of the controller, its database, and what others do. *)
Context (LM : lens W LeaseManager) (db : LeaseDatabase W) (mapi : ManagerAPI W).
Context (tables : W → lease_db) (time : W → Z) (allowed : store_op → Z → lease_db → Prop).

(** The agent: its clock, tomb and timer, its connection to the API, and who it is
    there; [make_response] is the channel that a request makes. *)
Context (Now : W → Z * W) (After : Z → W → Z * W) (Dying : W → bool * W)
  (Renew : option Z → W → renew_case * W).
Context (FacadeCall : M W (list (option error)) → M W (list (option error))).
Context (make_response : W → nat) (mine : nat → Prop).
Context (authTag : auth_tag) (modelUUID app unit : string) (duration slack : Z).

Abbreviation lease_service := (NewService db).
Definition leadership_manager : boundManager :=
  MkBoundManager LeadershipSecretary ApplicationLeadershipNamespace modelUUID.
Abbreviation k := (leaseKey leadership_manager app).

(** The claimer behind the facade, and the claimer of the tracker. *)
Definition server_claim (a u : string) (d : Z) : M W () :=
  id ← gets make_response;
  leadershipClaimer_ClaimLeadership LM lease_service mapi leadership_manager a u d id.
Definition agent_claim (d : Z) : M W () :=
  client_ClaimLeadership authTag server_claim FacadeCall app unit d.

Definition passing (w w' : W) : Prop :=
  rtc (env_step allowed) (time w, tables w) (time w', tables w').

(** A call is made, or is lost on its way; its result may be lost on the way
    back. *)
Class AgentWorld : Prop := {
  ag_lease id : mine id → LeaseWorld LM db mapi tables time allowed id;
  ag_make w : mine (make_response w) ∧ lm_responses (view LM w) !! make_response w = None;
  ag_Now w n w' : Now w = (n, w') → n = time w' ∧ passing w w';
  ag_After d w due w' : After d w = (due, w') → (due ≤ time w + d + slack)%Z ∧ passing w w';
  ag_Dying w b w' : Dying w = (b, w') → passing w w';
  ag_Renew due w c w' : Renew due w = (c, w') →
    passing w w' ∧ (c = RenewDefault → ∀ dl, due = Some dl → (time w' < dl)%Z);
  ag_call m w r w' : FacadeCall m w = (r, w') →
    (∃ w1 w2 x, passing w w1 ∧ m w1 = (x, w2) ∧ passing w2 w' ∧
       (r = x ∨ ∃ e, r = Err e ∧ not_panic e)) ∨
    (passing w w' ∧ ∃ e, r = Err e ∧ not_panic e);
  ag_application : ParseApplicationTag (ApplicationTag_String app) = Ok app;
  ag_unit : ParseUnitTag (UnitTag_String unit) = Ok unit;
  ag_duration : Seconds_Duration (Duration_Seconds (2 * duration)) = (2 * duration)%Z;
}.
Context {AW : AgentWorld}.
Context (Hharm : ∀ o n d, allowed o n d → harmless k unit o n d).

Lemma leadership_known : known k.
Proof. unfold known. simpl. rewrite !elem_of_cons. auto. Qed.

Lemma passing_time w w' : passing w w' → (time w ≤ time w')%Z.
Proof. apply env_time. Qed.
Lemma passing_wf w w' : passing w w' → lease_wf (tables w) → lease_wf (tables w').
Proof. apply env_wf. Qed.
Lemma passing_kept u w w' :
  passing w w' → lease_wf (tables w) → kept k unit u (time w, tables w) →
  kept k unit u (time w', tables w').
Proof. intros H Hwf. by apply (env_kept allowed k unit u (time w, tables w) (time w', tables w')). Qed.
Lemma kept_less u u' s : (u ≤ u')%Z → kept k unit u' s → kept k unit u s.
Proof. intros Hu Hk Hs. destruct Hk as (e & He & ?); [lia|]. exists e. split; [done|lia]. Qed.

(** What is made of a claim in between: it goes on from [w] to [w'], and gives the
    lease if it says so. *)
Definition claimed (w w' : W) (ok : bool) : Prop :=
  (time w ≤ time w')%Z ∧ lease_wf (tables w') ∧
  (ok = true → kept k unit (time w + 2 * duration) (time w', tables w')).

Lemma claimed_passing w0 w w1 w' ok :
  passing w0 w → claimed w w1 ok → passing w1 w' → claimed w0 w' ok.
Proof.
  intros H0 (Ht & Hwf & Hk) H1. pose proof (passing_time _ _ H0). pose proof (passing_time _ _ H1).
  split_and!; [lia|by eapply passing_wf|]. intros E. eapply passing_kept; [done..|].
  eapply kept_less; [|by apply Hk]. lia.
Qed.

Lemma server_claim_claimed w r w' :
  lease_wf (tables w) → server_claim app unit (2 * duration) w = (r, w') →
  (∀ s, r ≠ Err (GoPanic s)) ∧ claimed w w' (is_ok r).
Proof.
  intros Hwf H. unfold server_claim in H. destruct (ag_make w) as [Hm Hs].
  rewrite (bind_ok (gets make_response) _ w (make_response w) w eq_refl) in H.
  set (id := make_response w) in *. pose proof (ag_lease id Hm) as HL.
  unfold leadershipClaimer_ClaimLeadership in H. unfold mbind at 1, M_bind at 1, try in H.
  destruct (Claim LM lease_service mapi leadership_manager app unit (2 * duration) id w) as [x w1] eqn:E.
  eapply (Claim_triple LM db mapi tables time allowed id k unit (2 * duration) leadership_known Hharm
    (time w, tables w)) in E; [|exact Hwf|reflexivity|by apply calling_start].
  destruct x as [[]|e].
  - destruct E as [[Hsince _] Hg]. apply mret_inv in H as [-> ->]. split; [done|]. split_and!.
    + by apply since_time in Hsince.
    + by apply since_wf in Hsince.
    + intros _. exact Hg.
  - destruct E as [Hsince He].
    assert (∀ s, e ≠ GoPanic s) as Hnp.
    { destruct He as [[He|[He|He]]|[He _]]; [| | |done]; simpl in He.
      - by destruct (IsValidApplication _); simplify_eq.
      - by destruct (IsValidUnit _); simplify_eq.
      - unfold baseSecretary_CheckDuration in He. by case_decide; simplify_eq. }
    assert (∃ e', r = Err e' ∧ w' = w1 ∧ ∀ s, e' ≠ GoPanic s) as (e' & -> & -> & Hnp').
    { destruct e; try (by destruct (Hnp what));
        (case_decide; apply throw_inv in H as [-> ->]; eexists; split_and!; [done..|]; by intros ? ?). }
    split; [by intros s [= ->]; destruct (Hnp' s)|]. split_and!; [|by apply since_wf in Hsince|done].
    by apply since_time in Hsince.
Qed.

(** What the facade answers. *)
Definition no_error (x : option error) : bool := match x with None => true | Some _ => false end.

Lemma claim_one_claimed w r w' :
  lease_wf (tables w) →
  claim_one authTag server_claim (prepareClaimLeadership app unit (2 * duration)) w = (r, w') →
  ∃ x, r = Ok x ∧ (∀ e, x = Some e → not_panic e) ∧ claimed w w' (no_error x).
Proof.
  intros Hwf E. unfold claim_one, parseApplicationAndUnitTags in E. simpl in E.
  rewrite ag_application, ag_unit, ag_duration in E.
  assert (∀ e, ∃ x, (Ok (Some (ServerError e)) : result (option error)) = Ok x ∧
    (∀ e, x = Some e → not_panic e) ∧ claimed w w (no_error x)) as Hno.
  { intros e. eexists. split_and!; [done|by intros ? [= <-]|]. by split_and!. }
  destruct (_ || _); [apply mret_inv in E as [-> ->]; apply Hno|].
  destruct (negb _); [apply mret_inv in E as [-> ->]; apply Hno|].
  unfold mbind, M_bind, try in E.
  destruct (server_claim app unit (2 * duration) w) as [y w2] eqn:Es.
  apply server_claim_claimed in Es as [Hnp Hc]; [|done].
  destruct y as [[]|e]; [apply mret_inv in E as [-> ->]; by eexists|].
  destruct e; try (by destruct (Hnp what)); apply mret_inv in E as [-> ->];
    (eexists; split_and!; [done|by intros ? [= <-]|done]).
Qed.

Lemma facade_claimed w r w' :
  lease_wf (tables w) →
  leadershipService_ClaimLeadership authTag server_claim
    [prepareClaimLeadership app unit (2 * duration)] w = (r, w') →
  ∃ x, r = Ok [x] ∧ (∀ e, x = Some e → not_panic e) ∧ claimed w w' (no_error x).
Proof.
  intros Hwf H. simpl in H. unfold mbind at 1, M_bind at 1 in H.
  destruct (claim_one _ _ _ w) as [y w1] eqn:E. apply claim_one_claimed in E as (x & -> & Hx & Hc); [|done].
  unfold mbind, M_bind in H. simpl in H. injection H as <- <-. by exists x.
Qed.

(** A claim of the agent that succeeds was granted by the manager. *)
Lemma agent_claim_claimed w r w' :
  lease_wf (tables w) → agent_claim (2 * duration) w = (r, w') →
  (∀ s, r ≠ Err (GoPanic s)) ∧ claimed w w' (is_ok r).
Proof.
  intros Hwf H. unfold agent_claim, client_ClaimLeadership, bulkClaimLeadership in H.
  unfold mbind, M_bind in H.
  destruct (FacadeCall _ w) as [x w3] eqn:Ec.
  assert (∀ e, not_panic e → passing w w3 → (Err e : result (), w3) = (r, w') →
    (∀ s, r ≠ Err (GoPanic s)) ∧ claimed w w' (is_ok r)) as Hlost.
  { intros e He Hp [= <- <-]. split; [by intros s [= ->]; destruct (He s)|].
    split_and!; [by apply passing_time|by eapply passing_wf|done]. }
  apply ag_call in Ec as [(w1 & w2 & y & Hp1 & Em & Hp2 & Hx)|(Hp & e & -> & He)];
    [|by apply (Hlost e)].
  apply facade_claimed in Em as (z & -> & Hz & Hc); [|by eapply passing_wf].
  apply (claimed_passing w w1 w2 w3 _ Hp1) in Hc; [|done].
  destruct Hx as [->|(e & -> & He)].
  - destruct z as [e|]; [|by apply mret_inv in H as [-> ->]].
    destruct Hc as (? & ? & _). specialize (Hz e eq_refl).
    case_match; injection H as <- <-; (split; [|by split_and!]); [done|].
    intros s [= ->]. by destruct (Hz s).
  - injection H as <- <-. split; [by intros s [= ->]; destruct (He s)|].
    destruct Hc as (? & ? & _). by split_and!.
Qed.

(** ** The tracker over it

    The tracker, the rest of the world, and until when the last claim of the unit
    guaranteed the lease, which is recorded for the theorem only. *)
Record led_unit : Type := MkLedUnit {
  lu_tracker : Leadership;
  lu_until : Z;
  lu_world : W;
}.
Definition lu_lens : lens led_unit Leadership :=
  MkLens lu_tracker (λ t c, MkLedUnit t (lu_until c) (lu_world c)).
Definition lu_time (c : led_unit) : Z := time (lu_world c).

Definition on_world {A} (f : W → A * W) (c : led_unit) : A * led_unit :=
  let (a, w') := f (lu_world c) in (a, MkLedUnit (lu_tracker c) (lu_until c) w').

Definition lu_claim (d : Z) : M led_unit () := λ c,
  let (r, w') := agent_claim d (lu_world c) in
  (r, MkLedUnit (lu_tracker c) (if is_ok r then lu_time c + d else lu_time c - 1) w').

Definition lu_api : LeadershipAPI led_unit := {|
  la_Now := on_world Now;
  la_After d := on_world (After d);
  la_ClaimLeadership := lu_claim;
  la_Dying := on_world Dying;
  la_Renew due := on_world (Renew due);
|}.

(** The tables are well formed, and keep the lease that was guaranteed. *)
Definition lu_sound (c : led_unit) : Prop :=
  lease_wf (tables (lu_world c)) ∧
  kept k unit (lu_until c) (time (lu_world c), tables (lu_world c)).

Abbreviation lu_flows := (flows lu_lens lu_time lu_until lu_sound).

Lemma on_world_flows {A} (f : W → A * W) c a c' :
  (∀ w a w', f w = (a, w') → passing w w') → on_world f c = (a, c') →
  lu_flows c c' ∧ f (lu_world c) = (a, lu_world c').
Proof.
  intros Hf H. unfold on_world in H. destruct (f (lu_world c)) as [a' w'] eqn:E. simplify_eq.
  apply Hf in E as Hp. split; [|done]. split_and!; [done|by apply passing_time|simpl; lia|].
  intros [Hwf Hk]. split; [by eapply passing_wf|by eapply passing_kept].
Qed.

#[local] Instance led_world : LeadershipWorld lu_lens lu_api duration lu_time lu_until slack lu_sound.
Proof.
  split.
  - by split; try done; intros [].
  - done.
  - done.
  - intros c n c' H. apply on_world_flows in H as [Hf H]; [|by intros ? ? ? [_ ?]%ag_Now].
    by apply ag_Now in H as [-> _].
  - intros d c due c' H. apply on_world_flows in H as [Hf H]; [|by intros ? ? ? [_ ?]%ag_After].
    by apply ag_After in H as [? _].
  - intros c r c' [Hwf Hk] H. simpl in H. unfold lu_claim in H.
    destruct (agent_claim (2 * duration) (lu_world c)) as [x w'] eqn:E. simplify_eq.
    apply agent_claim_claimed in E as (Hnp & Ht & Hwf' & Hk'); [|done]. simpl.
    split_and!; [done|done| |done|by intros ->]. split; [done|]. simpl.
    destruct (is_ok r); [by apply Hk'|]. intros ?. simpl in *. unfold lu_time in *. lia.
  - intros c b c' H. by apply on_world_flows in H as [Hf _]; [|apply ag_Dying].
  - intros due c x c' H. apply on_world_flows in H as [Hf H]; [|by intros ? ? ? [? _]%ag_Renew].
    by apply ag_Renew in H as [_ ?].
Qed.

End leading.
