(* ===== verification/LeaderGuard.v ===== *)
(** * A function that runs while a unit is leader

    [WithLeader] of domain/leaseservice.go beside the lease manager, its two
    goroutines and the manager interleaved in any order.  The function starts only
    after the unit was found to have the lease, by a check that came after someone
    was put on the manager's books to be told of the end of the lease; and from then
    on, whenever the manager finds that the lease is gone, or stops, the context of
    the function is cancelled by steps that no one else can hinder. *)

From S2P Require Import Prelude Hooks LeaseStore LeaseManager LeaseLoop LeaseClients.

Section guard.
Context {W : Type} {MO : MapOrder W} {MOL : MapOrderLaws W}.
Context (LM : lens W LeaseManager) (store : LeaseStore W) (api : ManagerAPI W) (MaxSleep : Z).
Context (clock : W → Z) (slack : Z).
Context {MW : ManagerWorld LM store api clock slack} {AW : AnswerWorld LM store api}.
Context (Hsleep : (0 ≤ MaxSleep)%Z).
Context (GetLeaseManager : M W ()) (Hget : gentle (passes LM clock) GetLeaseManager).

Abbreviation passes := (LeaseLoop.passes LM clock).
Abbreviation managing := (LeaseLoop.managing LM store api MaxSleep clock).
Abbreviation may_come := (LeaseLoop.may_come LM clock).
Abbreviation turn := (LeaseManager.choose LM store api MaxSleep).
Abbreviation waits_for := (LeaseLoop.waits_for LM).
Abbreviation told := (LeaseLoop.told LM).

(** ** Who has been told that the wait has begun *)

Definition started (w : W) : gset nat := lm_started (view LM w).

Lemma passes_started w w' : passes w w' → started w' = started w.
Proof. intros [E _]. by injection E. Qed.
Lemma keeps_gentle {A} (m : M W A) : gentle passes m → keeps started m.
Proof. intros Hm w r w' [Hp _]%Hm. by apply passes_started. Qed.
Lemma keeps_timer {A} (f : W → A * W) : (∀ w, passes w (f w).2) → keeps started (always f).
Proof.
  intros Hf w r w' H. specialize (Hf w). unfold always in H. destruct (f w). simplify_eq/=.
  by apply passes_started.
Qed.
Lemma keeps_loop f : (∀ m, lm_started (f m) = lm_started m) → keeps started (over LM f).
Proof. intros Hf w r w' H. unfold over, modify in H. simplify_eq. unfold started. by rewrite view_update. Qed.
Lemma keeps_each {A} (l : list A) (f : A → M W ()) :
  (∀ a, keeps started (f a)) → keeps started (for_each l f).
Proof. intros Hf. induction l; simpl; [apply keeps_ret|by apply keeps_bind]. Qed.

Lemma keeps_Now : keeps started (always (ma_Now api)).
Proof.
  apply keeps_timer. intros w. destruct (ma_Now api w) eqn:E. by eapply (mw_Now LM store api clock slack).
Qed.
Lemma keeps_setNextTimeout t : keeps started (setNextTimeout LM api t).
Proof.
  apply keeps_bind; [apply keeps_Now|]. intros n. apply keeps_bind; [apply keeps_gets|]. intros m.
  case_match; [apply keeps_ret|]. apply keeps_bind; [by apply keeps_loop|]. intros _.
  apply keeps_bind; [|intros due; by apply keeps_loop].
  apply keeps_timer. intros w. destruct (ma_Reset api _ w) eqn:E.
  by eapply (mw_Reset LM store api clock slack).
Qed.
Lemma keeps_checkBlocks : keeps started (checkBlocks LM store api MaxSleep).
Proof.
  apply keeps_bind; [apply keeps_gentle, (gw_Leases LM store api passes)|]. intros leases.
  apply keeps_bind; [apply keeps_gets|]. intros m. apply keeps_bind; [apply keeps_gets|]. intros w.
  apply keeps_bind; [|intros _; apply keeps_bind; [apply keeps_Now|]; intros n;
    apply keeps_bind; [apply keeps_gets|]; intros w'; apply keeps_setNextTimeout].
  apply keeps_each. intros k. case_match; [apply keeps_ret|].
  apply keeps_bind; [apply keeps_gets|]. intros ids. apply keeps_bind; [by apply keeps_loop|]. intros _.
  apply keeps_each. intros id. apply keeps_bind; [apply keeps_gets|]. intros m'.
  case_decide; [apply keeps_throw|by apply keeps_loop].
Qed.

Definition announces (e : lease_event) : gset nat :=
  match e with MvBlock b => from_option singleton ∅ (b_started b) | _ => ∅ end.

Lemma keeps_choose e : (∀ b, e ≠ MvBlock b) → keeps started (turn e).
Proof.
  intros He. destruct e as [|c| | |c|x|p|p|b]; [| | | | | | | |by destruct (He b)]; simpl.
  - apply keeps_throw.
  - apply keeps_bind; [apply keeps_gentle, (gentle_lookup LM store api passes)|].
    intros [i|]; [apply keeps_gentle, (gentle_respond LM store api passes)|].
    apply keeps_bind; [apply keeps_Now|]. intros n. apply keeps_bind; [apply keeps_setNextTimeout|].
    intros _. apply keeps_gentle, (gentle_respond LM store api passes).
  - apply keeps_bind; [by apply keeps_loop|]. intros _. apply keeps_checkBlocks.
  - apply keeps_checkBlocks.
  - apply keeps_bind; [by apply keeps_loop|]. intros _. by apply keeps_loop.
  - apply keeps_bind; [by apply keeps_loop|]. intros _. by apply keeps_loop.
  - apply keeps_bind; [apply keeps_try, keeps_gentle, (gw_PinLease LM store api passes)|].
    intros r. apply keeps_gentle, (gentle_respond LM store api passes).
  - apply keeps_bind; [apply keeps_try, keeps_gentle, (gw_UnpinLease LM store api passes)|].
    intros r. apply keeps_gentle, (gentle_respond LM store api passes).
Qed.

Lemma choose_started e w r w' :
  turn e w = (r, w') → started w' = announces e ∪ started w.
Proof.
  intros H. assert ((∃ b, e = MvBlock b) ∨ ∀ b, e ≠ MvBlock b) as [[b ->]|He].
  { destruct e; try (right; by intros ? ?). left. by eexists. }
  - simpl in H. unfold blocks_add, over, modify in H. simplify_eq. unfold started.
    rewrite view_update. simpl. destruct (b_started b); simpl; [done|by rewrite union_empty_l_L].
  - apply (keeps_choose e He) in H. rewrite H. destruct e; simpl; try by rewrite union_empty_l_L.
    by destruct (He b).
Qed.

(** ** The call and the manager *)

Context (b : boundManager) (appName unitName : string) (unblock start check : nat).
Abbreviation key := (leaseKey b appName).
Abbreviation step := (leader_step LM store api b appName unitName unblock start check).

(** Requests of others have channels of their own. *)
Definition foreign (e : lease_event) : Prop :=
  (unblock ∉ submits e) ∧ (start ∉ announces e).
Definition asks (ev : leader_event) : gset nat :=
  match ev with LvSend => {[unblock]} | _ => ∅ end.

(** What came on the channel of the check; the calls of the manager's surroundings
    send nothing there. *)
Definition reply (w : W) : option (option error) := lm_responses (view LM w) !! check.
Class ReplyWorld : Prop := {
  pw_Dying : keeps reply (always (ma_Dying api));
  pw_Leases keys : keeps reply (Leases store keys);
  pw_Now : keeps reply (always (ma_Now api));
  pw_Reset d : keeps reply (always (ma_Reset api d));
}.
Context {PW : ReplyWorld}.

(** [B] are those who asked the manager to be told; [alive] is whether its loop
    runs.  When a turn fails the loop ends and the manager is dying. *)
Inductive leading : gset nat → bool → leader_call → W → Prop :=
| leading_start B ctx w c w' :
    managing B w → unblock ∉ B → start ∉ started w →
    WithLeader GetLeaseManager ctx w = (Ok c, w') → leading B true c w'
| leading_step B alive ev c w c' w' :
    leading B alive c w → (ev = LvSend ∨ ev = LvCheck → alive = true) →
    (ev = LvCheck → reply w = None) → step ev c w = Some (c', w') →
    leading (asks ev ∪ B) alive c' w'
| leading_pass B alive c w w' :
    leading B alive c w → passes w w' → lasts LM w w' → leading B alive c w'
| leading_goroutine B alive c g w x w' :
    leading B alive c w → run_goroutine LM store api g w = (x, w') → leading B alive c w'
| leading_turn B c e w w' :
    leading B true c w → may_come B e w → foreign e → turn e w = (Ok (), w') →
    leading (submits e ∪ B) true c w'
| leading_stop B c e w err w1 w' :
    leading B true c w → may_come B e w → foreign e → turn e w = (Err err, w1) →
    tomb_Kill LM err w1 = (Ok (), w') → leading B false c w'.

(** ** The check *)

(** The unit had the lease when the wait had begun. *)
Definition vetted : Prop :=
  ∃ w0 infos w1 i, start ∈ started w0 ∧ Leases store [key] w0 = (Ok infos, w1) ∧
    infos !! key = Some i ∧ li_Holder i = unitName.

Lemma respond_reply v w w' :
  respond LM api check v w = (Ok (), w') → reply w' = reply w ∨ reply w' = Some v.
Proof.
  intros H. unfold respond in H. apply bind_inv_ok in H as (stop & w1 & Ed & H).
  apply pw_Dying in Ed. rewrite <- Ed. destruct stop; [left; by apply mret_inv in H as [_ ->]|right].
  unfold over, modify in H. simplify_eq. unfold reply. rewrite view_update. simpl. by rewrite lookup_insert_eq.
Qed.

Lemma keeps_reply_timer t : keeps reply (setNextTimeout LM api t).
Proof.
  apply keeps_bind; [apply pw_Now|]. intros n. apply keeps_bind; [apply keeps_gets|]. intros m.
  case_match; [apply keeps_ret|]. apply keeps_bind; [|intros _; apply keeps_bind; [apply pw_Reset|intros due]].
  all: intros w r w' E; unfold over, modify in E; simplify_eq; unfold reply; by rewrite view_update.
Qed.

Lemma handleCheck_passed w w' :
  start ∈ started w → reply w = None → reply w' = Some None →
  handleCheck LM store api (MkCheck key unitName check) w = (Ok (), w') → vetted.
Proof.
  intros Hs Hr Hr' H. unfold handleCheck, lookupLease in H. cbn [ck_leaseKey ck_holderName ck_response] in H.
  apply bind_inv_ok in H as (info & w1 & El & H). apply bind_inv_ok in El as (infos & w2 & El & E).
  apply mret_inv in E as [[= ->] ->]. apply pw_Leases in El as Hl. rewrite Hr in Hl.
  destruct (infos !! key) as [i|] eqn:Ei.
  - destruct (respond_reply _ _ _ H) as [E|E]; rewrite Hr' in E; [congruence|]. case_decide; [|done].
    by exists w, infos, w2, i.
  - apply bind_inv_ok in H as (n & w3 & En & H). apply pw_Now in En.
    apply bind_inv_ok in H as ([] & w4 & Et & H). apply keeps_reply_timer in Et.
    destruct (respond_reply _ _ _ H) as [E|E]; rewrite Hr' in E; congruence.
Qed.

Lemma token_Check_passed w w' :
  start ∈ started w → reply w = None →
  token_Check LM store api b appName unitName check w = (Ok (), w') →
  vetted ∧ ∃ w1, passes w w1 ∧ turn (MvCheck (MkCheck key unitName check)) w1 = (Ok (), w').
Proof.
  intros Hs Hr H. unfold token_Check in H. apply bind_inv_ok in H as (? & w1 & E1 & H).
  unfold lift_result in E1. injection E1 as _ <-. apply bind_inv_ok in H as (? & w1 & E2 & H).
  unfold lift_result in E2. injection E2 as _ <-. unfold check_invoke, invoke in H.
  apply bind_inv_ok in H as (stop & w1 & Ed & H). destruct stop; [done|].
  assert (passes w w1) as Hp by by apply (gentle_Dying LM store api passes) in Ed as [? _].
  apply pw_Dying in Ed. rewrite Hr in Ed. apply passes_started in Hp as Es.
  apply bind_inv_ok in H as (y & w2 & E & H). destruct y as [[]|e]; [|by apply bind_inv_ok in H as (? & ? & _ & ?)].
  assert (handleCheck LM store api (MkCheck key unitName check) w1 = (Ok (), w2)) as Eh.
  { unfold try in E. destruct (handleCheck _ _ _ _ w1) as [[[]|[]] w3]; by simplify_eq. }
  unfold response in H. apply bind_inv_ok in H as (m & w3 & Em & H). unfold gets in Em. simplify_eq.
  assert (reply w3 = Some None ∧ w' = w3) as [Hr' ->].
  { unfold reply. cbn [ck_response] in H. destruct (_ !! check) as [[e|]|]; [done| |done].
    by apply mret_inv in H as [_ ->]. }
  split; [|by exists w1]. eapply handleCheck_passed; [|done..]. by rewrite Es.
Qed.

(** ** The invariant *)

Definition on_books (B : gset nat) (alive : bool) (c : leader_call) (w : W) : Prop :=
  if alive then
    managing B w ∧ (lc_wait c = WpInvoke false → unblock ∉ B) ∧
    (lc_wait c = WpInvoke true → waits_for key unblock w ∨ told unblock w)
  else is_Some (lm_tomb (view LM w)).

Record call_ok (B : gset nat) (alive : bool) (c : leader_call) (w : W) : Prop := {
  go_books : on_books B alive c w;
  go_started : start ∈ started w → lc_wait c ≠ WpInvoke false;
  go_wait : match lc_wait c with
            | WpInvoke true => CheckLease (bm_secretary b) key = Ok ()
            | WpReport _ | WpGone => is_Some (lc_leaseCtx c)
            | _ => True
            end;
  go_main : lc_main c = LpCheck ∨ lc_main c = LpRun → start ∈ started w;
  go_vetted : lc_main c = LpRun → vetted;
}.
Definition guarded (B : gset nat) (alive : bool) (c : leader_call) (w : W) : Prop :=
  match lc_main c with LpDone _ => is_Some (lc_waitCtx c) | _ => call_ok B alive c w end.

(** What the manager does meanwhile. *)
Lemma guarded_meanwhile B alive c w B' alive' w' :
  (on_books B alive c w → on_books B' alive' c w') →
  (start ∈ started w' ↔ start ∈ started w) →
  guarded B alive c w → guarded B' alive' c w'.
Proof.
  intros Hb Hs. unfold guarded. destruct (lc_main c) eqn:E; [..|done];
    (intros []; split; [by apply Hb|by rewrite Hs|done|by rewrite Hs|done]).
Qed.

Lemma guarded_passes B alive c w w' :
  passes w w' → lasts LM w w' → guarded B alive c w → guarded B alive c w'.
Proof.
  intros Hp Hl. apply guarded_meanwhile; [|by rewrite (passes_started w w' Hp)]. intros H.
  destruct alive; simpl in *; [|by apply Hl]. destruct H as (Hm & Hu & Hw).
  split_and!; [by eapply managing_pass|done|]. intros E. eapply waiting_passes; [done|auto].
Qed.

Lemma guarded_turn B c e w w' :
  may_come B e w → foreign e → turn e w = (Ok (), w') →
  guarded B true c w → guarded (submits e ∪ B) true c w'.
Proof.
  intros Hc [Hf1 Hf2] H. apply guarded_meanwhile.
  - intros (Hm & Hu & Hw). split_and!; [by eapply managing_turn|set_solver|].
    intros E. eapply (waiting_turn LM store api MaxSleep clock slack Hsleep B e); [done..|by apply Hw].
  - rewrite (choose_started e w (Ok ()) w' H). set_solver.
Qed.

Lemma guarded_stop B c e w err w1 w' :
  foreign e → turn e w = (Err err, w1) → tomb_Kill LM err w1 = (Ok (), w') →
  guarded B true c w → guarded B false c w'.
Proof.
  intros [_ Hf] H Hk. unfold tomb_Kill, over, modify in Hk. simplify_eq. apply guarded_meanwhile.
  - intros _. simpl. rewrite view_update. simpl. by eexists.
  - apply choose_started in H. unfold started in *. rewrite view_update. simpl. rewrite H. set_solver.
Qed.

(** What the call does itself. *)
Lemma guarded_return B alive r c w : guarded B alive (leader_return r c) w.
Proof. simpl. unfold ctx_cancel. by eexists. Qed.

Lemma not_done_ok B alive c w : (∀ r, lc_main c ≠ LpDone r) → guarded B alive c w → call_ok B alive c w.
Proof. unfold guarded. destruct (lc_main c) eqn:E; try done. intros H. by destruct (H r). Qed.

(** Steps of the goroutine that waits, which leave the caller's place alone. *)
Lemma guarded_wait B alive c w c' B' w' :
  lc_main c' = lc_main c → (is_Some (lc_waitCtx c) → is_Some (lc_waitCtx c')) →
  (call_ok B alive c w → call_ok B' alive c' w') → guarded B alive c w → guarded B' alive c' w'.
Proof. intros E Hw Hok. unfold guarded. rewrite E. destruct (lc_main c); auto. Qed.

Lemma guarded_send B c w c' w' :
  step LvSend c w = Some (c', w') → guarded B true c w → guarded ({[unblock]} ∪ B) true c' w'.
Proof.
  intros H. cbv [leader_step] in H. destruct (lc_wait c) as [[]| | |] eqn:Ew; try done.
  destruct (CheckLease _ _) as [[]|] eqn:Ec; [|done]. injection H as <- Hw'.
  apply guarded_wait; [done|done|]. intros [(Hm & Hu & _) _ _ Hmain Hv].
  assert (turn (MvBlock (MkBlock key unblock (Some start))) w =
    (Ok (), w')) as Eb by by rewrite <- Hw'.
  pose proof (choose_started _ _ _ _ Eb) as Es.
  split; [|done|done| |done].
  - split_and!; [|done|].
    + eapply managing_turn in Eb; [done|done|]. by apply Hu.
    + intros _. left. rewrite <- Hw'. unfold LeaseLoop.waits_for. simpl. rewrite view_update. simpl.
      rewrite lookup_insert_eq. eexists. split; [done|set_solver].
  - intros Hc. rewrite Es. simpl. set_solver.
Qed.

Lemma guarded_check B c w c' w' :
  reply w = None → step LvCheck c w = Some (c', w') → guarded B true c w → guarded B true c' w'.
Proof.
  intros Hr H Hg. simpl in H. destruct (lc_main c) eqn:Em; try done.
  destruct (token_Check _ _ _ _ _ _ _ _) as [[[]|e] w1] eqn:Et; injection H as <- <-;
    [|apply guarded_return].
  apply not_done_ok in Hg as [(Hm & Hu & Hw) Hs Hwait Hmain _]; [|by rewrite Em].
  assert (start ∈ started w) as Hst by auto.
  apply token_Check_passed in Et as [Hv (w2 & Hp & Ec)]; [|done..].
  pose proof (choose_started _ _ _ _ Ec) as Es. rewrite (passes_started _ _ Hp) in Es. simpl in Es.
  rewrite union_empty_l_L in Es. unfold guarded. simpl. split; simpl; [|by rewrite Es|done|by rewrite Es|done].
  assert (managing B w2) as Hm2 by (by eapply managing_pass). split_and!; [|done|].
  - eapply managing_turn in Ec; [|done|done]. simpl in Ec. by rewrite union_empty_l_L in Ec.
  - intros E. eapply (waiting_turn LM store api MaxSleep clock slack Hsleep B); [done| |done|];
      [done|]. eapply waiting_passes; [done|auto].
Qed.

Lemma on_books_moved B alive c c' w :
  (∀ s, lc_wait c' = WpInvoke s → lc_wait c = WpInvoke s) → on_books B alive c w → on_books B alive c' w.
Proof. intros Hc. destruct alive; [|done]. intros (? & ? & ?). split_and!; auto. Qed.

(** Other steps of the goroutine that waits, and the end of the caller's context. *)
Lemma guarded_moved B alive c c' w :
  lc_main c' = lc_main c → (is_Some (lc_waitCtx c) → is_Some (lc_waitCtx c')) →
  (∀ s, lc_wait c' = WpInvoke s → lc_wait c = WpInvoke s) →
  (call_ok B alive c w → match lc_wait c' with WpReport _ | WpGone => is_Some (lc_leaseCtx c') | _ => True end) →
  guarded B alive c w → guarded B alive c' w.
Proof.
  intros Em Hc Hw Hl. apply guarded_wait; [done|done|]. intros Hok. specialize (Hl Hok).
  destruct Hok as [Hb Hs Hwait Hmain Hv]. rewrite <- Em in *. split; [| | |done|done].
  - by eapply on_books_moved.
  - intros Hst Ec. by apply (Hs Hst), Hw.
  - destruct (lc_wait c') as [[]| | |] eqn:Ec; try done. by rewrite (Hw true eq_refl) in Hwait.
Qed.

Lemma guarded_step B alive ev c w c' w' :
  (ev = LvSend ∨ ev = LvCheck → alive = true) → (ev = LvCheck → reply w = None) →
  step ev c w = Some (c', w') → guarded B alive c w → guarded (asks ev ∪ B) alive c' w'.
Proof.
  intros Ha Hr H Hg. destruct ev; cbn [asks]; rewrite ?union_empty_l_L;
    [|rewrite (Ha (or_introl eq_refl)) in *; by eapply guarded_send| | | | | | |
     rewrite (Ha (or_intror eq_refl)) in *; eapply guarded_check; eauto|]; cbv [leader_step] in H.
  - injection H as <- <-. revert Hg. apply guarded_moved; [done|simpl; unfold ctx_cancel; eauto|done|].
    intros _. simpl. unfold ctx_cancel. destruct (lc_wait c); eauto.
  - destruct (lc_wait c) eqn:Ew; try done. case_decide; [|done]. injection H as <- <-. revert Hg. by apply guarded_moved.
  - destruct (lc_wait c) eqn:Ew; try done. injection H as <- <-. revert Hg.
    apply guarded_moved; [done..|]. intros _. simpl. unfold ctx_cancel. eauto.
  - destruct (lc_wait c) eqn:Ew; try done. destruct (lc_waitCtx c) eqn:Ec; [|done]. injection H as <- <-. revert Hg.
    apply guarded_moved; [done..|]. intros [_ _ Hwait _ _]. simpl. by rewrite Ew in Hwait.
  - destruct (lc_main c); try done. destruct (lc_leaseCtx c); [|done]. injection H as <- <-. apply guarded_return.
  - destruct (lc_main c); try done. destruct (lc_wait c); try done. injection H as <- <-. by eexists.
  - destruct (lc_main c) eqn:Em; try done. case_decide; [|done]. injection H as <- <-.
    apply not_done_ok in Hg as []; [|by rewrite Em]. unfold guarded. simpl. by split.
  - destruct (lc_main c); try done. injection H as <- <-. apply guarded_return.
Qed.

Lemma leading_guarded B alive c w : leading B alive c w → guarded B alive c w.
Proof.
  induction 1 as [B ctx w c w' Hm Hu Hs H|B alive ev c w c' w' _ IH Ha Hr H|B alive c w w' _ IH Hp Hl
    |B alive c g w x w' _ IH H|B c e w w' _ IH Hc Hf H|B c e w err w1 w' _ IH Hc Hf H Hk].
  - destruct ctx as [e|]; simpl in H; [apply mret_inv in H as [[= ->] ->]; apply guarded_return|].
    apply bind_inv_ok in H as (r & w1 & Eg & H). apply (gentle_try passes _ Hget) in Eg as [Hp _].
    destruct r as [[]|e]; apply mret_inv in H as [[= ->] ->]; [|apply guarded_return].
    apply (passes_started _ _) in Hp as Es.
    unfold guarded. simpl. split; simpl; [|by rewrite Es|done|by intros []|done].
    split_and!; [by eapply managing_pass|done|done].
  - by eapply guarded_step.
  - by eapply guarded_passes.
  - pose proof (gentle_goroutine LM store api passes g w x w' H) as [Hp _].
    pose proof (gentle_goroutine LM store api (lasts LM) g w x w' H) as [Hl _]. by eapply guarded_passes.
  - by eapply guarded_turn.
  - by eapply guarded_stop.
Qed.

(** ** The goroutine that waits *)

(** Its own steps, one after the other; none of them waits for anyone. *)
Definition waiter_event (ev : leader_event) : bool :=
  match ev with LvWaitEnds _ | LvLeaseCancel | LvCollapse => true | _ => false end.
Fixpoint leader_steps (evs : list leader_event) (c : leader_call) (w : W) : option (leader_call * W) :=
  match evs with
  | [] => Some (c, w)
  | ev :: evs' => x ← step ev c w; leader_steps evs' x.1 x.2
  end.
Definition waiter_gets (n : nat) (P : leader_call → Prop) (c : leader_call) (w : W) : Prop :=
  ∃ evs c', length evs ≤ n ∧ forallb waiter_event evs = true ∧ leader_steps evs c w = Some (c', w) ∧ P c'.

(** The context of the function is cancelled, or will be. *)
Definition gets_cancelled : leader_call → W → Prop := waiter_gets 2 (λ c, is_Some (lc_leaseCtx c)).

Lemma waiter_here n (P : leader_call → Prop) c w : P c → waiter_gets n P c w.
Proof. intros H. exists [], c. split_and!; [simpl; lia|done..]. Qed.
Lemma waiter_first n P ev c c' w :
  waiter_event ev = true → step ev c w = Some (c', w) → waiter_gets n P c' w → waiter_gets (S n) P c w.
Proof.
  intros Hev E (evs & c2 & Hn & Hf & Hs & HP). exists (ev :: evs), c2.
  split_and!; [simpl; lia|simpl; by rewrite Hev| |done]. cbn [leader_steps]. by rewrite E.
Qed.

Lemma wait_ends r s c w :
  lc_wait c = WpInvoke s →
  r ∈ WaitUntilExpired b appName unblock (Some start) (bool_decide (is_Some (lc_waitCtx c))) (view LM w) →
  step (LvWaitEnds r) c w = Some (set_wait_point (WpCancel r) c, w).
Proof. intros E Hr. cbv [leader_step]. by rewrite E, decide_True. Qed.
Lemma wait_cancels r c w n P :
  lc_wait c = WpCancel r →
  waiter_gets n P (MkLeaderCall (lc_main c) (WpReport r) (lc_ctx c)
    (ctx_cancel context_Canceled (lc_leaseCtx c)) (lc_waitCtx c)) w → waiter_gets (S n) P c w.
Proof. intros E. apply (waiter_first n P LvLeaseCancel); [done|]. cbv [leader_step]. by rewrite E. Qed.

Lemma cancelled_soon B alive c w w' :
  call_ok B alive c w → lc_main c = LpRun →
  (lc_wait c = WpInvoke true → told unblock w' ∨ is_Some (lm_tomb (view LM w'))) → gets_cancelled c w'.
Proof.
  intros [_ Hs Hwait Hmain _] Em Ht. specialize (Hs (Hmain (or_intror Em))).
  destruct (lc_wait c) as [[]|r|r|] eqn:Ew; [|done| |by apply waiter_here..].
  - assert (∃ r, r ∈ WaitUntilExpired b appName unblock (Some start)
      (bool_decide (is_Some (lc_waitCtx c))) (view LM w')) as [r Hr].
    { unfold WaitUntilExpired, block_results. rewrite Hwait. destruct (Ht eq_refl) as [Hu|[x E]].
      - exists (Ok ()). rewrite decide_True by done. set_solver.
      - exists (Err errStopped). rewrite E. set_solver. }
    eapply waiter_first; [|by apply (wait_ends r true)|]; [done|].
    eapply wait_cancels; [done|]. apply waiter_here. by eexists.
  - eapply wait_cancels; [done|]. apply waiter_here. by eexists.
Qed.


(** C29: no goroutine is left behind.  Once [WithLeader] has returned, at whatever
    point, the goroutine that waits has ended or ends by at most three steps of its
    own. *)
Theorem leader_wait_ends B alive c w r :
  leading B alive c w → lc_main c = LpDone r → waiter_gets 3 (λ c', lc_wait c' = WpGone) c w.
Proof.
  intros Hl Em. apply leading_guarded in Hl. unfold guarded in Hl. rewrite Em in Hl.
  assert (∀ c r n, is_Some (lc_waitCtx c) → lc_wait c = WpReport r →
    waiter_gets (S n) (λ c', lc_wait c' = WpGone) c w) as Hreport.
  { intros c1 r1 n [e Ec] Ew. apply (waiter_first _ _ LvCollapse _ (set_wait_point WpGone c1)); [done| |by apply waiter_here].
    cbv [leader_step]. by rewrite Ew, Ec. }
  assert (∀ c r n, is_Some (lc_waitCtx c) → lc_wait c = WpCancel r →
    waiter_gets (S (S n)) (λ c', lc_wait c' = WpGone) c w) as Hcancel.
  { intros c1 r1 n Hc Ew. eapply wait_cancels; [done|]. by eapply Hreport. }
  destruct (lc_wait c) as [sent|r1|r1|] eqn:Ew; [|by eapply Hcancel|by eapply Hreport|by apply waiter_here].
  assert (∃ x, x ∈ WaitUntilExpired b appName unblock (Some start)
    (bool_decide (is_Some (lc_waitCtx c))) (view LM w)) as [x Hx].
  { unfold WaitUntilExpired, block_results. rewrite bool_decide_true by done.
    destruct (CheckLease _ _) as [?|e]; [exists (Err lease_ErrWaitCancelled)|exists (Err e)]; set_solver. }
  eapply waiter_first; [|by apply (wait_ends x sent)|by eapply Hcancel]. done.
Qed.
End guard.
