(* ===== verification/LeaseSamples.v ===== *)
(** * Leases at work

    A controller with its lease manager and tables, in a world where at every
    transaction time passes, others use the tables, and the outcome may be lost, as
    a script says.  The theorems on leases at such runs; and runs that show where
    the manager falls short. *)

From S2P Require Import Prelude GoText Hooks LeaseStore LeaseStoreFacts LeaseSafety LeaseManager LeaseManagerFacts LeaseLoop LeaseClients Leadership LeadershipFacts LeadershipLease.

(** ** The world *)

(** A step of the script: how long it takes, what others do, and whether the
    outcome of the transaction is lost. *)
Record script_step : Type := MkStep {
  ss_time : N;
  ss_others : list store_op;
  ss_lost : bool;
}.

Record house : Type := MkHouse {
  hs_manager : LeaseManager;
  hs_tables : lease_db;
  hs_time : Z;
  hs_uuids : nat;
  hs_script : list script_step;
}.
Definition hs_lens : lens house LeaseManager :=
  MkLens hs_manager (λ m w, MkHouse m (hs_tables w) (hs_time w) (hs_uuids w) (hs_script w)).

Definition mysql : LeaseKey := MkLeaseKey ApplicationLeadershipNamespace "model" "mysql".
Definition mysql0 : string := "mysql/0".
Definition mysql1 : string := "mysql/1".

(** Others do not act for mysql/0. *)
Definition stranger (o : store_op) (n : Z) (d : lease_db) : Prop :=
  match o with
  | OpRevoke k h => (k, h) ≠ (mysql, mysql0)
  | OpExtend k req => (k, rq_Holder req) ≠ (mysql, mysql0)
  | OpDeleteLeadership _ => False
  | _ => True
  end.
#[export] Instance stranger_dec o n d : Decision (stranger o n d).
Proof. destruct o; apply _. Defined.

Lemma stranger_harmless o n d : stranger o n d → harmless mysql mysql0 o n d.
Proof. by destruct o; simpl; intros ?; [|intros ?| | | | |]. Qed.

Definition others_do (now : Z) (d : lease_db) (o : store_op) : lease_db :=
  if decide (stranger o now d) then (run_op o now d).2 else d.

Definition next_step (w : house) : house :=
  match hs_script w with
  | [] => w
  | s :: script =>
      let now := (hs_time w + Z.of_N (ss_time s))%Z in
      MkHouse (hs_manager w) (foldl (others_do (now / second)) (hs_tables w) (ss_others s)) now
        (hs_uuids w) script
  end.
Definition loses (w : house) : bool := match hs_script w with [] => false | s :: _ => ss_lost s end.

Definition hs_txn {A} (f : Z → M lease_db A) : M house A := λ w,
  let w1 := next_step w in
  match f (hs_time w1 / second)%Z (hs_tables w1) with
  | (Ok a, d') =>
      (if loses w then Err ErrBusy else Ok a,
       MkHouse (hs_manager w1) d' (hs_time w1) (hs_uuids w1) (hs_script w1))
  | (Err e, _) => (Err e, w1)
  end.

Fixpoint uuid_text (n : nat) : string :=
  match n with O => "u" | S n' => String.append "u" (uuid_text n') end.

Definition hs_db : LeaseDatabase house := {|
  txn A f := hs_txn f;
  StdTxnNoRetry A f := hs_txn f;
  NewUUID w := (Ok (uuid_text (hs_uuids w)),
    MkHouse (hs_manager w) (hs_tables w) (hs_time w) (S (hs_uuids w)) (hs_script w));
|}.

Definition hs_dying (w : house) : bool := bool_decide (is_Some (lm_tomb (hs_manager w))).
Definition hs_api : ManagerAPI house := {|
  ma_Now w := (hs_time w, w);
  ma_Reset d w := ((hs_time w + d + 1)%Z, w);
  ma_Dying w := (hs_dying w, w);
  ma_Next w := (negb (hs_dying w), w);
|}.
#[export] Instance hs_order : MapOrder house := {| range _ _ l := l |}.

Lemma others_do_env n l d :
  rtc (env_step stranger) (n, d) (n, foldl (others_do (n / second)) d l).
Proof.
  revert d. induction l as [|o l IH]; intros d; simpl; [done|].
  etrans; [|apply IH]. unfold others_do. case_decide; [|done].
  destruct (run_op o (n / second) d) as [r d'] eqn:E. apply rtc_once. by eapply es_op.
Qed.
Lemma next_step_env w :
  rtc (env_step stranger) (hs_time w, hs_tables w) (hs_time (next_step w), hs_tables (next_step w)).
Proof.
  unfold next_step. destruct (hs_script w) as [|s l]; [done|]. simpl.
  eapply rtc_l; [|apply others_do_env]. constructor. lia.
Qed.
Lemma next_step_manager w : hs_manager (next_step w) = hs_manager w.
Proof. unfold next_step. by destruct (hs_script w). Qed.

#[export] Instance hs_lease_world id :
  LeaseWorld hs_lens hs_db hs_api hs_tables hs_time stranger id.
Proof.
  split.
  - by split.
  - done.
  - intros A f w r w' H. simpl in H. unfold hs_txn in H.
    assert (hs_manager w' = hs_manager w ∧ hs_time w' = hs_time (next_step w) ∧
      ran f (hs_time (next_step w)) (hs_tables (next_step w)) r (hs_tables w')) as (Em & Et & Hr).
    { destruct (f _ _) as [[a|e] d'] eqn:E; [destruct (loses w)|]; injection H as <- <-;
        (split_and!; [apply next_step_manager|done|]);
        [by eapply ran_lost|by eapply ran_ok|by eapply ran_err]. }
    split; [unfold sent; simpl; by rewrite Em|]. exists r. split; [by left|].
    eapply at_last; [apply next_step_env|exact Hr|]. by rewrite Et.
  - intros w r w' [= <- <-]. split; [|done]. by split.
  - intros w b w' [= <- <-]. by split.
  - intros w b w' [= <- <-]. by split.
Qed.

(** Names: an application is any name, a unit has a slash in it. *)
#[export] Instance hs_names : Names := {|
  IsValidStorage _ := true;
  IsValidAction _ := true;
  IsValidUnit s := Contains s "/";
  UnitApplication s := if decide (s = mysql0) then Ok "mysql" else Err (NotValid "unit name %q");
  StorageName s := Ok s;
|}.
#[export] Instance hs_lease_names : LeaseNames := {|
  IsValidApplication s := negb (Contains s "/");
  ParseTag s := Ok s;
  ControllerAgentTagKind := "controller";
  MachineTagKind := "machine";
|}.

Definition hs_leadership : boundManager :=
  MkBoundManager LeadershipSecretary ApplicationLeadershipNamespace "model".

(** ** The tables *)

Definition minute : Z := 60 * second.
Definition wiki : LeaseKey := MkLeaseKey ApplicationLeadershipNamespace "model" "wiki".
Definition one_lease : lease_db :=
  (run_op (OpClaim "a" mysql (MkLeaseRequest mysql0 minute)) 0 (MkLeaseDB [] [])).2.
Definition two_leases : lease_db :=
  (run_op (OpClaim "b" wiki (MkLeaseRequest "wiki/3" minute)) 3 one_lease).2.
Definition claimed_tables : lease_db := (run_op (OpPin "p" mysql "machine-0") 5 two_leases).2.
Definition claimed_grants : list grant :=
  [MkGrant wiki "wiki/3" (3 * second + minute);
   MkGrant mysql mysql0 minute].

Lemma history_done G G' o n n' d d' :
  lease_history G n d → (n <=? n')%Z = true → run_op o (n' / second) d = (Ok (), d') →
  G' = gives o n' ++ filter (λ g, ¬ takes_back o g) G → lease_history G' n' d'.
Proof. intros H ?%Z.leb_le Ho ->. eapply lh_done; [|done]. by eapply lh_time. Qed.

Lemma claimed_history : lease_history claimed_grants (5 * second) claimed_tables.
Proof.
  apply (history_done claimed_grants _ (OpPin "p" mysql "machine-0") (3 * second) _ two_leases);
    [|reflexivity|vm_compute; reflexivity|vm_compute; reflexivity].
  apply (history_done [MkGrant mysql mysql0 minute] _
    (OpClaim "b" wiki (MkLeaseRequest "wiki/3" minute)) 0 _ one_lease);
    [|reflexivity|vm_compute; reflexivity|vm_compute; reflexivity].
  apply (history_done [] _ (OpClaim "a" mysql (MkLeaseRequest mysql0 minute)) 0 _ (MkLeaseDB [] []));
    [apply lh_start|reflexivity|vm_compute; reflexivity|vm_compute; reflexivity].
Qed.

Lemma lease_tables_well_formed_witness :
  length (db_lease claimed_tables) = 2 ∧ lease_wf claimed_tables.
Proof.
  split; [vm_compute; reflexivity|].
  apply (lease_tables_well_formed claimed_grants (5 * second) claimed_tables claimed_history).
Defined.

(** A claim of a lease that another unit holds. *)
Lemma lease_store_refines_witness :
  (run_op (OpClaim "c" mysql (MkLeaseRequest mysql1 minute)) 20 claimed_tables).1 = Err lease_ErrHeld ∧
  (lease_wf claimed_tables ∧
   spec_op (OpClaim "c" mysql (MkLeaseRequest mysql1 minute)) 20 (abs claimed_tables) =
     (Err lease_ErrHeld, abs claimed_tables)).
Proof.
  split; [vm_compute; reflexivity|].
  apply (lease_store_refines (OpClaim "c" mysql (MkLeaseRequest mysql1 minute)) 20 claimed_tables
    (Err lease_ErrHeld) claimed_tables).
  - exact (history_wf _ _ _ claimed_history).
  - apply (bool_decide_unpack _). vm_compute. exact I.
  - vm_compute. reflexivity.
Defined.

Lemma lease_reads_witness :
  length (db_lease_pin claimed_tables) = 1 ∧
  (State_Leases [] 30 claimed_tables = (Ok (sp_leases (abs claimed_tables)), claimed_tables) ∧
   (∀ k, State_Leases [k] 30 claimed_tables =
      (Ok (filter (λ x, x.1 = k) (sp_leases (abs claimed_tables))), claimed_tables)) ∧
   (∀ ns m, State_LeaseGroup ns m 30 claimed_tables =
      (Ok (filter (λ x, lk_Namespace x.1 = ns ∧ lk_ModelUUID x.1 = m) (sp_leases (abs claimed_tables))),
       claimed_tables)) ∧
   ∃ pinned, State_Pinned 30 claimed_tables = (Ok pinned, claimed_tables) ∧
     ∀ k, match pinned !! k with
          | Some es => es ≠ [] ∧ ∀ e, e ∈ es ↔ (k, e) ∈ sp_pins (abs claimed_tables)
          | None => ∀ e, (k, e) ∉ sp_pins (abs claimed_tables)
          end).
Proof.
  split; [vm_compute; reflexivity|].
  apply (lease_reads 30 claimed_tables (history_wf _ _ _ claimed_history)).
Defined.


(** ** Claims *)

(** The outcome of the first attempt's transaction is lost, so that the second
    finds the lease taken by its own unit; another unit tries all the time. *)
Definition house_opened : house :=
  MkHouse NewManager (MkLeaseDB [] []) 0 0
    [MkStep 500000000 [] false;
     MkStep 1000000000 [OpExpire] true;
     MkStep 0 [OpClaim "z" mysql (MkLeaseRequest mysql1 minute)] false;
     MkStep 2000000000 [] false;
     MkStep 40000000000 [OpExpire; OpClaim "y" mysql (MkLeaseRequest mysql1 minute)] false].
Definition hs_claim (holder : string) : M house () :=
  Claim hs_lens (NewService hs_db) hs_api hs_leadership "mysql" holder minute 7.
Definition house_claimed : house := (hs_claim mysql0 house_opened).2.
Definition house_later : house := next_step house_claimed.

Lemma mysql_known : known mysql.
Proof. apply (bool_decide_unpack _). vm_compute. exact I. Qed.


(** Another unit is first. *)
Definition house_contested : house :=
  MkHouse NewManager (MkLeaseDB [] []) 0 0
    [MkStep 0 [OpClaim "z" mysql (MkLeaseRequest mysql1 minute)] false].
Definition house_denied : house := (hs_claim mysql0 house_contested).2.


(** ** The loop *)

Abbreviation hs_passes := (passes hs_lens hs_time).
Abbreviation hs_store := (NewService hs_db).

(** Calls that take the house a step further. *)
Lemma hs_gentle_db (R : house → house → Prop) `{!PreOrder R} :
  (∀ w w', hs_manager w' = hs_manager w → (hs_time w ≤ hs_time w')%Z → R w w') →
  GentleDatabase R hs_db.
Proof.
  intros HR. split.
  - intros A f Hf w r w' H. simpl in H. unfold hs_txn in H.
    pose proof (env_time _ _ _ (next_step_env w)) as Ht. simpl in Ht.
    destruct (f _ _) as [[a|e] d'] eqn:E; apply Hf in E as [_ He]; injection H as <- <-.
    + split; [|by destruct (loses w)]. apply HR; [apply next_step_manager|done].
    + split; [|intros s [= ->]; by destruct (He s)]. apply HR; [apply next_step_manager|done].
  - intros w r w' [= <- <-]. split; [|done]. by apply HR.
Qed.

Lemma hs_gentle_world (R : house → house → Prop) `{!PreOrder R} :
  (∀ w w', hs_manager w' = hs_manager w → (hs_time w ≤ hs_time w')%Z → R w w') →
  (∀ f w, benign f → R w (update hs_lens (f (view hs_lens w)) w)) →
  GentleWorld hs_lens hs_store hs_api R.
Proof.
  intros HR Ho. pose proof (hs_gentle_db R HR) as HD.
  destruct (service_gentle R hs_db) as (? & ? & ? & ? & ? & ?).
  by split; [|intros ? ? ? [= <- <-]; apply HR..| | | | | |].
Qed.

#[export] Instance hs_order_laws : MapOrderLaws house.
Proof. by split. Qed.

#[export] Instance hs_manager_world : ManagerWorld hs_lens hs_store hs_api hs_time 1.
Proof.
  split.
  - by split.
  - done.
  - apply (hs_gentle_world hs_passes); [|by intros f w Hf; split; [apply Hf|]].
    intros w w' E Ht. split; [simpl; by rewrite E|done].
  - by intros w n w' [= <- <-].
  - intros d w due w' [= <- <-]. split; [simpl; lia|done].
Qed.

Definition house_turn (e : lease_event) (w : house) : house :=
  (choose hs_lens hs_store hs_api minute e w).2.

(** mysql/0 has the lease; someone waits for it, it runs out, and the timer goes
    off. *)
Definition house_started : house :=
  (manager_start hs_lens hs_store hs_api minute
    (MkHouse NewManager one_lease 0 1 [])).2.
Definition house_blocked : house :=
  house_turn (MvBlock (MkBlock mysql 4 (Some 5))) house_started.
Definition house_expired : house :=
  MkHouse (hs_manager house_blocked) (run_op OpExpire 70 one_lease).2 (70 * second) 1 [].
Definition house_released : house := house_turn MvTimer house_expired.

Abbreviation hs_managing := (managing hs_lens hs_store hs_api minute hs_time).

Lemma turn_managing e B B' w :
  hs_managing B w → may_come hs_lens hs_time B e w → B' = submits e ∪ B →
  (choose hs_lens hs_store hs_api minute e w).1 = Ok () → hs_managing B' (house_turn e w).
Proof.
  intros H He -> Hok. eapply managing_turn; [exact H|exact He|]. unfold house_turn.
  destruct (choose hs_lens hs_store hs_api minute e w) as [x w']. simpl in *. by rewrite Hok.
Qed.
Lemma start_managing w :
  view hs_lens w = NewManager → (manager_start hs_lens hs_store hs_api minute w).1 = Ok () →
  hs_managing ∅ (manager_start hs_lens hs_store hs_api minute w).2.
Proof.
  intros Hv Hok. eapply managing_start; [exact Hv|].
  destruct (manager_start hs_lens hs_store hs_api minute w) as [x w']. simpl in *. by rewrite Hok.
Qed.

Lemma house_blocked_managing : hs_managing {[4]} house_blocked.
Proof.
  apply (turn_managing (MvBlock (MkBlock mysql 4 (Some 5))) ∅).
  - apply start_managing; [reflexivity|vm_compute; reflexivity].
  - apply not_elem_of_empty.
  - vm_compute. reflexivity.
  - vm_compute. reflexivity.
Qed.

Lemma house_expired_managing : hs_managing {[4]} house_expired.
Proof.
  apply (managing_pass _ _ _ _ _ _ house_blocked); [exact house_blocked_managing|].
  split; [reflexivity|]. vm_compute. discriminate.
Qed.

Lemma timer_due : may_come hs_lens hs_time {[4]} MvTimer house_expired.
Proof. exists (61 * second + 1)%Z. split; [vm_compute; reflexivity|vm_compute; discriminate]. Qed.

Lemma lease_waiters_accounted_witness :
  lm_unblocked (view hs_lens house_released) = {[4]} ∧
  ((∀ s, Ok () ≠ @Err () (GoPanic s)) ∧
   ∀ id, id ∈ ({[4]} : gset nat) →
     let waits k := ∃ l, lm_blocks (view hs_lens house_expired) !! k = Some l ∧ id ∈ l in
     if decide (id ∈ lm_unblocked (view hs_lens house_expired)) then ∀ k, ¬ waits k
     else ∃ k, waits k ∧ ∀ k', waits k' → k' = k).
Proof.
  split; [vm_compute; reflexivity|].
  apply (lease_waiters_accounted hs_lens hs_store hs_api minute hs_time 1 ltac:(done)
    {[4]} house_expired MvTimer (Ok ()) house_released).
  - exact house_expired_managing.
  - exact timer_due.
  - vm_compute. reflexivity.
Defined.

Lemma lease_waiters_released_witness :
  lm_unblocked (view hs_lens house_released) = {[4]} ∧
  ∃ leases, (∃ w1 w2, (hs_time house_expired ≤ hs_time w1)%Z ∧ Leases hs_store [] w1 = (Ok leases, w2)) ∧
    ∀ k l id, lm_blocks (view hs_lens house_expired) !! k = Some l → id ∈ l →
      match leases !! k with
      | None => id ∈ lm_unblocked (view hs_lens house_released)
      | Some _ => (id ∉ lm_unblocked (view hs_lens house_released)) ∧
          lm_blocks (view hs_lens house_released) !! k = Some l
      end.
Proof.
  split; [vm_compute; reflexivity|].
  apply (lease_waiters_released hs_lens hs_store hs_api minute hs_time 1 ltac:(done)
    {[4]} house_expired MvTimer house_released).
  - exact house_expired_managing.
  - exact timer_due.
  - reflexivity.
  - vm_compute. reflexivity.
Defined.


#[export] Instance hs_answer_world : AnswerWorld hs_lens hs_store hs_api.
Proof.
  split.
  - by split.
  - apply (hs_gentle_world (lasts hs_lens)); [|by intros f w Hf; split; apply Hf].
    intros w w' E _. split; simpl; by rewrite E.
  - intros w w' [= Hd <-]. by apply bool_decide_eq_true in Hd.
  - by intros w n w' [= <- <-].
  - by intros d w due w' [= <- <-].
Qed.

Lemma requests_are_answered_witness :
  (∃ w', run_goroutine hs_lens hs_store hs_api (GoRevoke (MkRevoke mysql mysql1 3)) house_blocked =
     (Ok (), w') ∧
     (3 ∈ dom (lm_responses (view hs_lens w')) ∨ is_Some (lm_tomb (view hs_lens w')))) ∧
  (∀ w', choose hs_lens hs_store hs_api minute (MvCheck (MkCheck mysql mysql0 2)) house_blocked =
     (Ok (), w') →
     2 ∈ dom (lm_responses (view hs_lens w')) ∨ is_Some (lm_tomb (view hs_lens w'))).
Proof.
  destruct (requests_are_answered hs_lens hs_store hs_api minute house_blocked) as [Hg He]. split.
  - apply (Hg (GoRevoke (MkRevoke mysql mysql1 3)) 3). reflexivity.
  - apply (He (MvCheck (MkCheck mysql mysql0 2)) 2). reflexivity.
Defined.

(** ** Leadership *)

(** Tags are names with a prefix; a duration goes over the API as it is. *)
Definition strip (prefix s : string) : result string :=
  if String.prefix prefix s
  then Ok (String.substring (String.length prefix) (String.length s - String.length prefix) s)
  else Err (NotValid "tag %q").
#[export] Instance hs_wire : LeadershipWire Z := {|
  ParseApplicationTag := strip "application-";
  ParseUnitTag := strip "unit-";
  ApplicationTag_String := String.append "application-";
  UnitTag_String := String.append "unit-";
  Duration_Seconds d := d;
  Seconds_Duration d := d;
|}.

Definition hs_call (m : M house (list (option error))) : M house (list (option error)) := λ w,
  let (x, w2) := m (next_step w) in
  (if loses w then Err (ErrNew "connection is shut down") else x, w2).
Definition hs_fresh (w : house) : nat := fresh (dom (lm_responses (hs_manager w)) : gset nat).

Definition hs_now (w : house) : Z * house := (hs_time w, w).
Definition hs_after (d : Z) (w : house) : Z * house := ((hs_time w + d)%Z, w).
Definition hs_stopping (w : house) : bool * house := (false, w).
Definition hs_renew (due : option Z) (w : house) : renew_case * house :=
  (match due with
   | Some dl => if decide (dl ≤ hs_time w)%Z then RenewFired else RenewDefault
   | None => RenewDefault
   end, w).

#[export] Instance hs_agent_world :
  AgentWorld hs_lens hs_db hs_api hs_tables hs_time stranger hs_now hs_after hs_stopping hs_renew
    hs_call hs_fresh (λ _, True) "mysql" mysql0 minute 0.
Proof.
  split.
  - intros id _. apply _.
  - intros w. split; [done|]. apply (not_elem_of_dom (D := gset nat)).
    exact (is_fresh (dom (lm_responses (hs_manager w)) : gset nat)).
  - intros w n w' [= <- <-]. split; [done|apply rtc_refl].
  - intros d w due w' [= <- <-]. split; [lia|apply rtc_refl].
  - intros w b w' [= <- <-]. apply rtc_refl.
  - intros due w c w' [= <- <-]. split; [apply rtc_refl|]. intros Hc dl ->. case_decide; [done|lia].
  - intros m w r w' H. left. unfold hs_call in H. destruct (m (next_step w)) as [x w2] eqn:E.
    injection H as <- <-. exists (next_step w), w2, x. split_and!; [apply next_step_env|done|apply rtc_refl|].
    destruct (loses w); [right|by left]. by eexists.
  - reflexivity.
  - reflexivity.
  - reflexivity.
Qed.

Abbreviation hs_lu_api := (lu_api hs_lens hs_db hs_api hs_time hs_now hs_after hs_stopping hs_renew
  hs_call hs_fresh (AuthUnitTag mysql0) "model" "mysql" mysql0).
Abbreviation hs_lu_sound := (lu_sound hs_tables hs_time "model" "mysql" mysql0).

(** The unit gets the lease, and asks for it again after the renewal is due, with
    another unit in the way all the time. *)
Definition unit_new : led_unit (W := house) :=
  MkLedUnit NewTracker (-1) (MkHouse NewManager (MkLeaseDB [] []) 0 0
    [MkStep 1000000000 [] false;
     MkStep 1000000000 [] false;
     MkStep 1000000000 [] false;
     MkStep 1000000000 [OpClaim "z" mysql (MkLeaseRequest mysql1 minute)] false;
     MkStep 1000000000 [OpExpire] false;
     MkStep 1000000000 [OpClaim "y" mysql (MkLeaseRequest mysql1 minute)] false;
     MkStep 50000000000 [OpExpire; OpClaim "x" mysql (MkLeaseRequest mysql1 minute)] false]).
Definition unit_opened : led_unit (W := house) := (refresh lu_lens hs_lu_api minute unit_new).2.
Definition pass_house (n : Z) (w : house) : house :=
  MkHouse (hs_manager w) (hs_tables w) (hs_time w + n) (hs_uuids w) (hs_script w).
Definition pass_unit (n : Z) (c : led_unit (W := house)) : led_unit (W := house) :=
  MkLedUnit (lu_tracker c) (lu_until c) (pass_house n (lu_world c)).
Definition unit_waited : led_unit (W := house) := pass_unit minute unit_opened.
Definition unit_asked : led_unit (W := house) :=
  (tracker_handle lu_lens hs_lu_api minute (LvClaim 1) unit_waited).2.

Abbreviation hs_tracking :=
  (tracking lu_lens hs_lu_api minute (lu_time hs_time) lu_until hs_lu_sound).

Lemma pass_tracking n b D c : hs_tracking b D c → (0 ≤ n)%Z → hs_tracking b D (pass_unit n c).
Proof.
  intros H Hn. eapply tracking_pass; [exact H|].
  assert (passing hs_tables hs_time stranger (lu_world c) (pass_house n (lu_world c))) as Hp.
  { apply rtc_once. constructor. simpl. lia. }
  split_and!; [done|unfold lu_time; simpl; lia|done|]. intros [Hwf Hk]. split; [done|].
  by apply (passing_kept hs_tables hs_time stranger "model" "mysql" mysql0 stranger_harmless _ _ _ Hp).
Qed.
Lemma refresh_tracking c :
  view lu_lens c = NewTracker → hs_lu_sound c → (refresh lu_lens hs_lu_api minute c).1 = Ok () →
  hs_tracking true ∅ (refresh lu_lens hs_lu_api minute c).2.
Proof.
  intros Hv Hs Hok. eapply tracking_start; [exact Hv|exact Hs|].
  destruct (refresh lu_lens hs_lu_api minute c) as [x c']. simpl in *. by rewrite Hok.
Qed.

Lemma unit_waited_tracking : hs_tracking true ∅ unit_waited.
Proof.
  apply pass_tracking; [|done]. apply refresh_tracking.
  - reflexivity.
  - split; [exact empty_wf|]. by intros Hle%Z.leb_le.
  - vm_compute. reflexivity.
Qed.


(** Claims for itself and for another unit; the second claimer fails for whom the
    agent may not speak. *)
Definition claimer_for_all (a u : string) (d : Z) : M house () := mret ().
Definition claimer_for_one (a u : string) (d : Z) : M house () :=
  if decide ((a, u) = ("mysql", mysql0)) then mret () else throw (GoPanic "not for this unit").
Definition two_claims : list (ClaimLeadershipParams Z) :=
  [prepareClaimLeadership "mysql" mysql0 minute; prepareClaimLeadership "mysql" mysql1 minute].

Lemma facade_claims_permitted_witness :
  (leadershipService_ClaimLeadership (AuthUnitTag mysql0) claimer_for_all two_claims house_opened).1 =
    Ok [None; Some (ErrCode CodeUnauthorized)] ∧
  (leadershipService_ClaimLeadership (AuthUnitTag mysql0) claimer_for_all two_claims house_opened =
     leadershipService_ClaimLeadership (AuthUnitTag mysql0) claimer_for_one two_claims house_opened ∧
   ∀ rs w', leadershipService_ClaimLeadership (AuthUnitTag mysql0) claimer_for_all two_claims house_opened =
     (Ok rs, w') → length rs = length two_claims).
Proof.
  split; [vm_compute; reflexivity|].
  apply (facade_claims_permitted (AuthUnitTag mysql0) claimer_for_all claimer_for_one two_claims house_opened).
  intros a u d (_ & -> & Ha). vm_compute in Ha. injection Ha as <-. reflexivity.
Defined.

(** ** Where the manager falls short *)

(** Two claims of one object both succeed, and nothing is recorded of either. *)
Definition objectstore_manager : boundManager :=
  MkBoundManager ObjectStoreSecretary ObjectStoreNamespace "model".
Definition object_claimed_once : house :=
  (claimer_Claim hs_lens hs_store hs_api objectstore_manager "sha" 1
    (MkHouse NewManager (MkLeaseDB [] []) 0 0 [])).2.
Lemma objects_are_claimed_twice :
  db_lease (hs_tables object_claimed_once) = [] ∧
  (claimer_Claim hs_lens hs_store hs_api objectstore_manager "sha" 2 object_claimed_once).1 = Ok ().
Proof. split; vm_compute; reflexivity. Qed.

(** Revoking a lease that is pinned stops the manager, for everyone. *)
Definition house_pinned : house := MkHouse NewManager claimed_tables (5 * second) 2 [].
Lemma revoking_pinned_lease_stops_manager :
  let (r, w) := Revoke hs_lens hs_store hs_api hs_leadership "mysql" mysql0 1 house_pinned in
  r = Err errStopped ∧ lm_tomb (hs_manager w) = Some (Some ErrConstraintForeignKey).
Proof. vm_compute. split; reflexivity. Qed.

(** A retry that is stopped before its first attempt says that the lease was
    revoked, or that the claim was denied. *)
Definition stopping_api : ManagerAPI house :=
  MkManagerAPI house (ma_Now hs_api) (ma_Reset hs_api) (ma_Dying hs_api) (λ w, (false, w)).
Lemma stopped_revoke_reports_success :
  let (r, w) := Revoke hs_lens hs_store stopping_api hs_leadership "mysql" mysql0 1 house_pinned in
  r = Ok () ∧ hs_tables w = claimed_tables.
Proof. vm_compute. split; reflexivity. Qed.
Lemma stopped_claim_is_denied :
  let (r, w) := Claim hs_lens hs_store stopping_api hs_leadership "mysql" mysql0 minute 1 house_pinned in
  r = Err lease_ErrClaimDenied ∧ hs_tables w = claimed_tables.
Proof. vm_compute. split; reflexivity. Qed.

(** A timer that is received at the very time that was asked for is not started
    again, when the next one is due later. *)
Definition exact_api : ManagerAPI house :=
  MkManagerAPI house (ma_Now hs_api) (λ d w, ((hs_time w + d)%Z, w)) (ma_Dying hs_api) (ma_Next hs_api).
Definition exact_started : house :=
  (manager_start hs_lens hs_store exact_api minute (MkHouse NewManager (MkLeaseDB [] []) 0 0 [])).2.
Lemma exact_timer_is_lost :
  lm_timer (hs_manager exact_started) = Some (minute + second)%Z ∧
  lm_timer (hs_manager (choose hs_lens hs_store exact_api minute MvTimer
    (pass_house (minute + second) exact_started)).2) = None.
Proof. split; vm_compute; reflexivity. Qed.

(** The migration takes a lease along that ran out hours ago, on the same day. *)
Lemma migration_counts_lapsed_lease :
  GetApplicationLeadershipForModel "model" 80000 one_lease = (Ok {["mysql" := mysql0]}, one_lease) ∧
  db_lease (run_op OpExpire 80000 one_lease).2 = [].
Proof. split; vm_compute; reflexivity. Qed.
