(* ===== verification/TxnSamples.v ===== *)
(** * Transactions at work

    A driver whose commits go as a script says: they are made, made but reported
    to have failed, or refused.  The theorem of TxnFacts.v at such a run, and a run
    in which a transaction that was not made is reported as a success. *)

From S2P Require Import Prelude LeaseStore Txn LeaseStoreFacts LeaseSafety LeaseManager LeaseManagerFacts TxnFacts LeaseSamples.

Inductive commit_step : Type := CommitLost | CommitRefused.

(** The house of LeaseSamples.v, the work of the open transaction, what becomes of
    the next commits, and whether the database was found. *)
Record shop : Type := MkShop {
  sh_house : house;
  sh_work : option lease_db;
  sh_commits : list commit_step;
  sh_cached : bool;
}.
Definition sh_manager : lens shop LeaseManager :=
  MkLens (λ w, hs_manager (sh_house w))
    (λ m w, MkShop (update hs_lens m (sh_house w)) (sh_work w) (sh_commits w) (sh_cached w)).
Definition sh_base : lens shop bool :=
  MkLens sh_cached (λ b w, MkShop (sh_house w) (sh_work w) (sh_commits w) b).
Definition sh_tables (w : shop) : lease_db := hs_tables (sh_house w).
Definition sh_time (w : shop) : Z := hs_time (sh_house w).

Definition put_tables (d : lease_db) (h : house) : house :=
  MkHouse (hs_manager h) d (hs_time h) (hs_uuids h) (hs_script h).

Definition sh_query {A} (f : Z → M lease_db A) : M shop A := λ w,
  let h := next_step (sh_house w) in
  match f (hs_time h / second)%Z (hs_tables h) with
  | (Ok a, d') => (Ok a, MkShop h (Some d') (sh_commits w) (sh_cached w))
  | (Err e, _) => (Err e, MkShop h None (sh_commits w) (sh_cached w))
  end.
Definition sh_commit : M shop () := λ w,
  match sh_work w with
  | None => (Err ErrTxDone, w)
  | Some d =>
      let done := put_tables d (sh_house w) in
      match sh_commits w with
      | [] => (Ok (), MkShop done None [] (sh_cached w))
      | CommitLost :: l => (Err ErrBusy, MkShop done None l (sh_cached w))
      | CommitRefused :: l => (Err ErrBusy, MkShop (sh_house w) None l (sh_cached w))
      end
  end.

Definition sh_driver : SqlDriver shop lease_db := {|
  sd_Begin := mret ();
  sd_Query A f := sh_query f;
  sd_Commit := sh_commit;
  sd_Rollback := mret ();
  sd_ExecRollback := mret ();
  sd_caller w := (None, w);
  sd_ctx w := (None, w);
  sd_nil w := (false, w);
  sd_More w := (true, w);
  sd_GaveUp e := ErrNew "attempt count exceeded";
  sd_getDB := mret ();
  sd_Dying w := (false, w);
|}.

#[export] Instance sh_world id :
  SqlWorld sh_manager sh_driver sh_base sh_tables sh_time stranger id sh_work.
Proof.
  assert (∀ w, others sh_manager sh_tables sh_time stranger id w w) as Hrefl.
  { intros w. split; [done|apply rtc_refl]. }
  split; try (by intros w r w' [= <- <-]).
  - by split.
  - intros b w. split; [done|apply rtc_refl].
  - intros A f w r w' H. simpl in H. unfold sh_query in H.
    exists (MkShop (next_step (sh_house w)) None (sh_commits w) (sh_cached w)).
    split; [split; [unfold sent; simpl; by rewrite next_step_manager|apply next_step_env]|].
    destruct (f _ _) as [[a|e] d'] eqn:E; injection H as <- <-; (split; [by split_and!|left; by eexists]).
  - intros d' w r w' Hw H. simpl in H. unfold sh_commit in H. rewrite Hw in H.
    destruct (sh_commits w) as [|[] l]; injection H as <- <-.
    + exists (MkShop (put_tables d' (sh_house w)) None [] (sh_cached w)). by split_and!.
    + exists (MkShop (put_tables d' (sh_house w)) None l (sh_cached w)).
      split_and!; [done|done|apply Hrefl|by split_and!|by right].
    + exists (MkShop (sh_house w) None l (sh_cached w)).
      split_and!; [done|done|apply Hrefl|by split_and!|by left].
  - done.
  - done.
Qed.

(** The first commit is refused; the second is made, but the outcome is lost, so
    that the third attempt finds the lease taken, by its own work. *)
Definition shop_open : shop :=
  MkShop (MkHouse NewManager (MkLeaseDB [] []) 0 0 []) None [CommitRefused; CommitLost] false.
Definition shop_claim (now : Z) : M lease_db () :=
  State_ClaimLease "a" mysql (MkLeaseRequest mysql0 minute) now.
Definition sh_uuid : M shop string := mret "u".
Definition shop_done : shop := (txn (lease_database sh_driver sh_base sh_uuid) shop_claim shop_open).2.


(** ** Where the runner falls short *)

(** The timeout of the runner passes while the function runs, so that the driver
    has rolled back; the context of the caller is alive, and the caller is told that
    the lease was claimed. *)
Definition slow_driver : SqlDriver shop lease_db :=
  MkSqlDriver shop lease_db (sd_Begin sh_driver) (@sd_Query shop lease_db sh_driver)
    (λ w, (Err ErrTxDone, w)) (sd_Rollback sh_driver) (sd_ExecRollback sh_driver)
    (sd_caller sh_driver) (λ w, (Some (ErrConst "context deadline exceeded"), w)) (sd_nil sh_driver)
    (sd_More sh_driver) (sd_GaveUp sh_driver) (sd_getDB sh_driver) (sd_Dying sh_driver).
Lemma timed_out_commit_reports_success :
  let (r, w) := txn (lease_database slow_driver sh_base sh_uuid) shop_claim shop_open in
  r = Ok () ∧ db_lease (sh_tables w) = [].
Proof. vm_compute. split; reflexivity. Qed.
