(* ===== verification/GuardSamples.v ===== *)
(** * Functions that run while something holds, at work

    The theorems of LeaderGuard.v, StableLeadership.v and Occupy.v at runs; a run in
    which leadership passes to another unit unnoticed, and what is returned when a
    function ends with another context's error, or after leadership changed. *)

From S2P Require Import Prelude Hooks Leadership LeadershipFacts StableLeadership LeadershipSamples Fortress FortressFacts Occupy WatcherSamples LeaseStore LeaseStoreFacts LeaseSafety LeaseManager LeaseLoop LeaseClients LeaderGuard LeaseSamples.

(** ** WithLeader *)

(** mysql/0 is leader and calls [WithLeader]. *)
Abbreviation hs_leader_step := (leader_step hs_lens hs_store hs_api hs_leadership "mysql" mysql0 4 5 6).
Abbreviation hs_leading :=
  (leading hs_lens hs_store hs_api minute hs_time (mret ()) hs_leadership "mysql" mysql0 4 5 6).

Definition hs_step (ev : leader_event) (x : leader_call * house) : leader_call * house :=
  default x (hs_leader_step ev x.1 x.2).

#[export] Instance hs_reply_world id : ReplyWorld hs_lens hs_store hs_api id.
Proof.
  split.
  - by intros w r w' [= <- <-].
  - intros keys w r w' H. unfold reply. cut (hs_manager w' = hs_manager w); [simpl; by intros ->|].
    simpl in H. unfold Service_Leases in H. case_decide; [by apply throw_inv in H as [_ ->]|].
    simpl in H. unfold hs_txn in H. destruct (State_Leases _ _ _) as [[]]; injection H as _ <-;
      apply next_step_manager.
  - by intros w r w' [= <- <-].
  - by intros d w r w' [= <- <-].
Qed.

Lemma step_leading ev B B' x :
  hs_leading B true x.1 x.2 → B' = asks 4 ev ∪ B → (ev = LvCheck → reply hs_lens 6 x.2 = None) →
  match hs_leader_step ev x.1 x.2 with Some _ => true | None => false end = true → hs_leading B' true (hs_step ev x).1 (hs_step ev x).2.
Proof.
  intros H -> Hr E. eapply leading_step; [exact H|done|exact Hr|]. unfold hs_step.
  by destruct (hs_leader_step ev x.1 x.2) as [[c' w']|].
Qed.

(** Others do something else. *)
Lemma pass_leading B c w d n u s :
  hs_leading B true c w → (hs_time w ≤ n)%Z → hs_leading B true c (MkHouse (hs_manager w) d n u s).
Proof. intros H Hn. eapply leading_pass; [exact H|by split|by split]. Qed.

Definition house_quiet : house :=
  (manager_start hs_lens hs_store hs_api minute (MkHouse NewManager one_lease 0 1 [])).2.
Definition call_made : leader_call * house :=
  (MkLeaderCall LpSelect (WpInvoke false) None None None, house_quiet).
Definition call_sent : leader_call * house := hs_step LvSend call_made.
Definition call_begun : leader_call * house := hs_step LvStart call_sent.
Definition call_running : leader_call * house := hs_step LvCheck call_begun.

Lemma call_running_leading : hs_leading {[4]} true call_running.1 call_running.2.
Proof.
  apply (step_leading LvCheck {[4]}); [|vm_compute; reflexivity|intros _; vm_compute; reflexivity|vm_compute; reflexivity].
  apply (step_leading LvStart {[4]}); [|vm_compute; reflexivity|done|vm_compute; reflexivity].
  apply (step_leading LvSend ∅); [|vm_compute; reflexivity|done|vm_compute; reflexivity].
  apply (leading_start _ _ _ _ _ _ _ _ _ _ _ _ ∅ None house_quiet);
    [|apply not_elem_of_empty|vm_compute; discriminate|reflexivity].
  apply start_managing; [reflexivity|vm_compute; reflexivity].
Qed.

Abbreviation hs_cancelled := (gets_cancelled hs_lens hs_store hs_api hs_leadership "mysql" mysql0 4 5 6).
Abbreviation hs_turn := (choose hs_lens hs_store hs_api minute).

Lemma hs_get_gentle : gentle (passes hs_lens hs_time) (mret () : M house ()).
Proof. apply (gentle_ret (passes hs_lens hs_time)). Qed.


Definition call_done : leader_call * house := hs_step (LvReturn (Ok ())) call_running.

Lemma leader_wait_ends_witness :
  lc_wait call_done.1 = WpInvoke true ∧
  waiter_gets hs_lens hs_store hs_api hs_leadership "mysql" mysql0 4 5 6 3 (λ c, lc_wait c = WpGone)
    call_done.1 call_done.2.
Proof.
  split; [vm_compute; reflexivity|].
  apply (leader_wait_ends hs_lens hs_store hs_api minute hs_time 1
    ltac:(done) (mret ()) hs_get_gentle hs_leadership "mysql" mysql0 4 5 6
    {[4]} true call_done.1 call_done.2 (Ok ())); [|vm_compute; reflexivity].
  apply (step_leading (LvReturn (Ok ())) {[4]});
    [exact call_running_leading|vm_compute; reflexivity|done|vm_compute; reflexivity].
Defined.

(** The lease of mysql/0 runs out, is deleted and claimed by mysql/1, on another
    controller, before the manager looks for it again.  It then finds a lease, and
    tells no one: the function of mysql/0 goes on, its context not cancelled, for as
    long as mysql/1 is leader. *)
Definition lease_passed_on : lease_db :=
  (run_op (OpClaim "c" mysql (MkLeaseRequest mysql1 minute)) 62 (run_op OpExpire 61 one_lease).2).2.
Definition house_passed_on : house := MkHouse (hs_manager call_running.2) lease_passed_on (62 * second) 1 [].
Definition house_looked : house := house_turn MvTimer house_passed_on.

Lemma leadership_passes_unnoticed :
  hs_leading {[4]} true call_running.1 house_looked ∧
  lc_main call_running.1 = LpRun ∧ lc_leaseCtx call_running.1 = None ∧
  lc_wait call_running.1 = WpInvoke true ∧ lm_unblocked (hs_manager house_looked) = ∅ ∧
  l_holder <$> db_lease (hs_tables house_looked) = [mysql1].
Proof.
  split; [|vm_compute; repeat split; reflexivity].
  replace ({[4]} : gset nat) with (submits MvTimer ∪ {[4]} : gset nat) by (vm_compute; reflexivity).
  apply (leading_turn _ _ _ _ _ _ _ _ _ _ _ _ {[4]} _ MvTimer house_passed_on).
  - apply pass_leading; [exact call_running_leading|vm_compute; discriminate].
  - exists (61 * second + 1)%Z. split; [vm_compute; reflexivity|vm_compute; discriminate].
  - by split; apply not_elem_of_empty.
  - vm_compute. reflexivity.
Qed.

(** ** WithStableLeadership *)

Abbreviation desk_stable :=
  (stable dk_lens desk_api 30 dk_now dk_lease (λ _, True) 3 4).
Abbreviation desk_step := (stable_step 3 4).

Definition stable_next (t : Leadership) (ev : stable_event) (c : stable_call) : stable_call :=
  default c (desk_step t ev c).

(** The unit is leader, the caller asks, learns so and asks to be told of a change. *)
Definition stable_asked : stable_call :=
  stable_next (dk_tracker desk_watched) (SvSubmit false) (WithStableLeadership None).
Definition desk_told : desk := desk_turn (LvClaim 3) desk_watched.
Definition stable_told : stable_call := stable_next (dk_tracker desk_told) SvClaimed stable_asked.
Definition stable_running : stable_call := stable_next (dk_tracker desk_told) (SvSubmit false) stable_told.
Definition desk_guarding : desk := desk_turn (LvWaitMinion 4) desk_told.

(** Another unit has the lease when the next renewal is due, and the call is denied. *)
Definition desk_denied : desk :=
  desk_turn LvRenew (MkDesk (dk_tracker desk_guarding) 130 (dk_lease desk_guarding) 200).

Lemma turn_stable e c c' D D' w :
  desk_stable true D c w → can_come D e → takes 3 4 e (dk_tracker w) c c' → D' = submitted e ∪ D →
  (tracker_handle dk_lens desk_api 30 e w).1 = Ok () → desk_stable true D' c' (desk_turn e w).
Proof.
  intros H He Ht -> Hok. eapply stable_turn; [exact H|exact He|exact Ht|]. unfold desk_turn.
  destruct (tracker_handle dk_lens desk_api 30 e w) as [x w']. simpl in *. by rewrite Hok.
Qed.

Lemma pass_stable alive D c w n other :
  desk_stable alive D c w → (dk_now w <=? n)%Z = true →
  desk_stable alive D c (MkDesk (dk_tracker w) n (dk_lease w) other).
Proof.
  intros H Hn. eapply stable_pass; [exact H|]. apply Z.leb_le in Hn. by split_and!.
Qed.

Lemma stable_running_stable : desk_stable true {[4; 3; 2; 1]} stable_running desk_guarding.
Proof.
  eapply (turn_stable (LvWaitMinion 4) stable_told _ {[3; 2; 1]}).
  - eapply (stable_own _ _ _ _ _ _ _ _ _ _ SvClaimed stable_asked).
    + eapply (turn_stable (LvClaim 3) (WithStableLeadership None) stable_asked {[2; 1]}).
      * eapply stable_start; [exact desk_watched_tracking|done|set_solver..].
      * split; [set_solver|exact I].
      * left. split; vm_compute; reflexivity.
      * vm_compute. reflexivity.
      * vm_compute. reflexivity.
    + discriminate.
    + vm_compute. reflexivity.
  - split; [set_solver|exact I].
  - left. split; vm_compute; reflexivity.
  - vm_compute. reflexivity.
  - vm_compute. reflexivity.
Qed.

Lemma stable_leadership_guarded_witness :
  lt_isMinion (view dk_lens desk_denied) = true ∧
  (is_Some (sc_leadershipCtx stable_running) ∨
   (∃ c', desk_step (view dk_lens desk_denied) SvChanged stable_running = Some c' ∧
      sc_leadershipCtx c' = Some (context_Canceled, ErrLeadershipChanged)) ∨
   (true = true ∧ lt_isMinion (view dk_lens desk_denied) = negb true ∧
    (true = true → ∃ due, lt_renewLease (view dk_lens desk_denied) = Some due ∧
       (due + 30 - 0 ≤ dk_lease desk_denied)%Z))).
Proof.
  split; [vm_compute; reflexivity|].
  apply (stable_leadership_guarded dk_lens desk_api 30 dk_now dk_lease 0 (λ _, True) 3 4
    ltac:(lia) ltac:(lia) true {[4; 3; 2; 1]} stable_running desk_denied true); [|vm_compute; reflexivity].
  eapply (turn_stable LvRenew stable_running _ {[4; 3; 2; 1]}).
  - apply pass_stable; [exact stable_running_stable|vm_compute; reflexivity].
  - split; [set_solver|exact I].
  - right. split; [set_solver|reflexivity].
  - vm_compute. reflexivity.
  - vm_compute. reflexivity.
Defined.

(** A function that returns the cancellation of some context of its own is taken to
    have succeeded; one that does not mind that leadership changed is told that its
    context was cancelled, not that leadership changed. *)
Lemma foreign_cancellation_is_success : stable_result (Err context_Canceled) None = Ok ().
Proof. reflexivity. Qed.
Lemma change_is_reported_as_cancellation :
  stable_result (Ok ()) (Some (context_Canceled, ErrLeadershipChanged)) = Err context_Canceled.
Proof. reflexivity. Qed.

(** ** Occupy *)

(** An open fortress is occupied; the worker starts, and the caller gives up before
    it is handed the worker. *)
Definition fortress_open : fortress := run_or_new (take 4 fortress_before) newFortress.

Fixpoint occupy_run (es : list occupy_event) (o : occupation) : option occupation :=
  match es with
  | [] => Some o
  | e :: es' => o' ← occupy_step 5 e o; occupy_run es' o'
  end.
Definition occupied : occupation :=
  default (Occupy newFortress) (occupy_run
    [OvFortress (OnVisit 5 VisitAccept); OvFortress (OnVisit 5 VisitEnter); OvStart (Ok ());
     OvFortress (OnVisit 5 VisitCancel); OvAborted]
    (Occupy (run_or_new [OnVisit 5 VisitCall] fortress_open))).

Lemma run_occupying es o o' : occupying 5 o → occupy_run es o = Some o' → occupying 5 o'.
Proof.
  revert o. induction es as [|e es IH]; simpl; intros o Ho H; [by simplify_eq|].
  apply bind_Some in H as (o1 & H1 & H). eapply IH; [|exact H]. by eapply occupying_step.
Qed.

Lemma occupant_is_guest_witness :
  oc_main occupied = OcReturned (Err ErrAborted) ∧ oc_worker occupied = WkRunning false ∧
  (runs (oc_worker occupied) = true → ¬ deserted (oc_fortress occupied)) ∧
  (∀ e, oc_main occupied = OcReturned (Err e) → oc_worker occupied = WkRunning false →
     ∃ o', occupy_step 5 OvDropStarted occupied = Some o' ∧ oc_worker o' = WkRunning true) ∧
  (∀ taken t, oc_main occupied = OcSelect taken → fo_guests (oc_fortress occupied) !! 5 = Some t →
     is_Some (gt_result t) →
     ∃ ev, ev ∈ [OvFinished; OvTakeFinished; OvAborted] ∧ is_Some (occupy_step 5 ev occupied)).
Proof.
  split; [vm_compute; reflexivity|]. split; [vm_compute; reflexivity|].
  apply (occupant_is_guest 5 occupied).
  eapply (run_occupying [OvFortress (OnVisit 5 VisitAccept); OvFortress (OnVisit 5 VisitEnter);
    OvStart (Ok ()); OvFortress (OnVisit 5 VisitCancel); OvAborted]
    (Occupy (run_or_new [OnVisit 5 VisitCall] fortress_open))); [|vm_compute; reflexivity].
  apply (occupying_start 5 fortress_open); [|vm_compute; reflexivity].
  apply (run_reachable (take 4 fortress_before) newFortress); [constructor|vm_compute; reflexivity].
Defined.
