(* ===== verification/ChangeLog.v ===== *)
(** * The change log

    The tables that tell the controllers what changed in a database, of
    domain/schema/controller/sql/0003-changelog.sql and, alike, of the model schema:
    [change_log], to which triggers add a row whenever a watched row is written, and
    [change_log_witness], where every controller records how far it has read.  Here are
    their rows and statements, the query of the stream that coalesces changes, and the
    pruner of domain/changestream and internal/worker/changestreampruner.

    A function that runs in a transaction may be run again when an attempt fails; the
    tables are then as they were, or the commit was made although it was reported to
    have failed, and variables that the function captures are as the attempt left them.
    Others may change the tables between two attempts, so that an attempt is a step of
    its own: [txn_try] is an attempt, with what becomes of it. *)

From stdpp Require Import sorting.
From S2P Require Import Prelude LeaseStore Txn.

(** ** core/changestream/change.go *)

Abbreviation change_create := 1%Z.
Abbreviation change_update := 2%Z.
Abbreviation change_delete := 4%Z.

Definition Changed : Z := Z.lor change_create change_update.
Definition Deleted : Z := change_delete.
Definition All : Z := Z.lor (Z.lor change_create change_update) change_delete.

(** ** Tables *)

Abbreviation MaxInt64 := 9223372036854775807%Z.
Abbreviation MinInt64 := (-9223372036854775808)%Z.

Record change_row : Type := MkChangeRow {
  cl_id : Z;
  cl_edit_type_id : Z;
  cl_namespace_id : Z;
  cl_changed : string;
  cl_created_at : Z;
}.

#[global] Instance change_row_eq_dec : EqDecision change_row.
Proof. solve_decision. Defined.

Record witness_row : Type := MkWitnessRow {
  cw_controller_id : string;
  cw_lower_bound : Z;
  cw_upper_bound : Z;
  cw_updated_at : Z;
}.

(** [cd_seq] is the largest id that was ever given out, which AUTOINCREMENT goes by. *)
Record change_db : Type := MkChangeDb {
  cd_change_log : list change_row;
  cd_namespace : gmap Z string;
  cd_witness : list witness_row;
  cd_seq : Z;
}.

Definition set_change_log (l : list change_row) (d : change_db) : change_db :=
  MkChangeDb l (cd_namespace d) (cd_witness d) (cd_seq d).
Definition set_witness (l : list witness_row) (d : change_db) : change_db :=
  MkChangeDb (cd_change_log d) (cd_namespace d) l (cd_seq d).

(** The rows of [change_log_edit_type]. *)
Definition edit_types : list Z := [change_create; change_update; change_delete].

Abbreviation ErrForeignKey := (ErrType "sqlite3.Error" "FOREIGN KEY constraint failed").
Abbreviation ErrFull := (ErrType "sqlite3.Error" "database or disk is full").

(** What a trigger inserts. *)
Definition insert_change_log (edit ns : Z) (changed : string) (now : Z) (d : change_db) :
    result change_db :=
  if decide (edit ∈ edit_types) then
    match cd_namespace d !! ns with
    | Some _ =>
        if decide (cd_seq d < MaxInt64)%Z then
          let id := (cd_seq d + 1)%Z in
          Ok (MkChangeDb (cd_change_log d ++ [MkChangeRow id edit ns changed now])
                (cd_namespace d) (cd_witness d) id)
        else Err ErrFull
    | None => Err ErrForeignKey
    end
  else Err ErrForeignKey.

(** ** Transactions *)

(** The end of an attempt whose function returned nil: the commit may be reported to
    have failed, whether it was made or not, and one that finds the transaction rolled
    back because its context is done is taken to have succeeded. *)
Inductive commit_outcome : Type :=
| Committed
| CommitFails (e : error) (made : bool)
| CommitLost.

(** What goes wrong with the statements of a function: one of them fails, counted
    from 0, or the rows of a query end early. *)
Inductive trouble : Type :=
| NoTrouble
| Fails (n : nat) (e : error)
| EndsEarly (n : nat).

(** An attempt does not come to run the function, or runs it. *)
Inductive attempt : Type :=
| AtFails (e : error)
| AtRuns (t : trouble) (c : commit_outcome).

(** [ty_more] is whether the retry library would make another attempt after it. *)
Record txn_try : Type := MkTry { ty_attempt : attempt; ty_more : bool }.

Section attempts.

(** What the retry library makes of the last error when it gives up. *)
Context (GaveUp : error → error).

(** The function works on what it captures and on the tables. *)
Context {S A : Type} (fn : trouble → S → change_db → result A * S * change_db).

Definition run_attempt (a : attempt) (s : S) (d : change_db) : result A * S * change_db :=
  match a with
  | AtFails e => (Err e, s, d)
  | AtRuns t c =>
      match fn t s d with
      | (Err e, s', _) => (Err e, s', d)
      | (Ok a, s', d') =>
          match c with
          | Committed => (Ok a, s', d')
          | CommitFails e made => (Err e, s', if made : bool then d' else d)
          | CommitLost => (Ok a, s', d)
          end
      end
  end.

(** An attempt of [StdTxn], after which the function is run again if there is no
    result. *)
Definition StdTxn (y : txn_try) (s : S) (d : change_db) : option (result A) * S * change_db :=
  match run_attempt (ty_attempt y) s d with
  | (Ok a, s', d') => (Some (Ok a), s', d')
  | (Err e, s', d') =>
      (if IsFatalError e then Some (Err e)
       else if ty_more y then None else Some (Err (GaveUp e)), s', d')
  end.
End attempts.

(** ** Reading changes *)

(** [changeEvent] of internal/changestream/stream/stream.go *)
Record changeEvent : Type := MkChangeEvent {
  ce_id : Z;
  ce_changeType : Z;
  ce_namespace : string;
  ce_changed : string;
  ce_createdAt : Z;
}.

#[global] Instance changeEvent_eq_dec : EqDecision changeEvent.
Proof. solve_decision. Defined.

(** The rows after an id, each with its namespace. *)
Definition join_row (ns : gmap Z string) (r : change_row) : option (change_row * string) :=
  if decide (cl_edit_type_id r ∈ edit_types) then
    name ← ns !! cl_namespace_id r; Some (r, name)
  else None.
Definition rows_after (bound : Z) (d : change_db) : list (change_row * string) :=
  omap (join_row (cd_namespace d)) (filter (λ r, bound < cl_id r)%Z (cd_change_log d)).

Definition group_key (x : change_row * string) : Z * string := (cl_namespace_id x.1, cl_changed x.1).

(** The row with the greatest id, which the columns beside MAX(id) are taken from. *)
Fixpoint max_row (l : list (change_row * string)) : option (change_row * string) :=
  match l with
  | [] => None
  | x :: l' =>
      match max_row l' with
      | Some y => if decide (cl_id y.1 < cl_id x.1)%Z then Some x else Some y
      | None => Some x
      end
  end.

Definition by_id : relation (change_row * string) := λ x y, (cl_id x.1 ≤ cl_id y.1)%Z.
#[global] Instance by_id_dec : RelDecision by_id.
Proof. intros x y. unfold by_id. apply _. Defined.

Definition to_event (x : change_row * string) : changeEvent :=
  MkChangeEvent (cl_id x.1) (cl_edit_type_id x.1) x.2 (cl_changed x.1) (cl_created_at x.1).

(** [selectQuery]: GROUP BY namespace and changed, ORDER BY id. *)
Definition group_rows (l : list (change_row * string)) : list (change_row * string) :=
  omap (λ k, max_row (filter (λ x, group_key x = k) l)) (remove_dups (group_key <$> l)).
Definition selectQuery (bound : Z) (d : change_db) : list changeEvent :=
  to_event <$> merge_sort by_id (group_rows (rows_after bound d)).

(** ** Pruning *)

(** domain/changestream/types.go; times in nanoseconds. *)
Record Window : Type := MkWindow { wi_Start : Z; wi_End : Z }.

Definition Window_Equals (w o : Window) : bool :=
  bool_decide (wi_Start w = wi_Start o) && bool_decide (wi_End w = wi_End o).
Definition Window_Contains (w o : Window) : bool :=
  Window_Equals w o ||
  (bool_decide (wi_Start w < wi_Start o)%Z && bool_decide (wi_End o < wi_End w)%Z).

(** The zero time. *)
Definition no_window : Window := MkWindow (-62135596800000000000) (-62135596800000000000).

(** The order of [sortWatermarks]. *)
Definition watermark_le : relation witness_row := λ x y,
  (cw_lower_bound x < cw_lower_bound y)%Z ∨
  (cw_lower_bound x = cw_lower_bound y ∧ (cw_updated_at x ≤ cw_updated_at y)%Z).
#[global] Instance watermark_le_dec : RelDecision watermark_le.
Proof. intros x y. unfold watermark_le. apply _. Defined.

Definition sortWatermarks (l : list witness_row) : list witness_row :=
  if decide (length l = 1) then l else merge_sort watermark_le l.

Definition defaultWindowDuration : Z := 600 * second.

(** The lower bound of the lowest watermark, the new window and whether a warning is
    logged. *)
Definition locateLowestWatermark (now : Z) (current : Window) (d : change_db) : Z * Window * bool :=
  match sortWatermarks (cd_witness d) with
  | [] => (0%Z, no_window, false)
  | x :: _ as sorted =>
      let watermarkView := MkWindow (cw_updated_at x) (cw_updated_at (default x (last sorted))) in
      let timeView := MkWindow (now - defaultWindowDuration) now in
      (cw_lower_bound x, watermarkView,
       negb (Window_Contains timeView watermarkView) && negb (Window_Equals watermarkView current))
  end.

Definition deleteChangeLog (lowest : Z) (d : change_db) : Z * change_db :=
  let kept := filter (λ r, lowest < cl_id r)%Z (cd_change_log d) in
  (Z.of_nat (length (cd_change_log d) - length kept), set_change_log kept d).

(** The transaction of [Prune], on its variables [newWindow] and [pruned]. *)
Definition prune_txn (now : Z) (current : Window) (t : trouble) (s : Window * Z)
    (d : change_db) : result () * (Window * Z) * change_db :=
  match t with
  | Fails 0 e => (Err e, s, d)
  | _ =>
      let '(lowest, window, _) := locateLowestWatermark now current d in
      match t with
      | Fails _ e => (Err e, (window, (-1)%Z), d)
      | _ =>
          let (pruned, d') := deleteChangeLog lowest d in
          (Ok (), (window, pruned), d')
      end
  end.

Section prune.
Context (GaveUp : error → error).

(** [Prune] with its first attempt; the window and the number of rows that are returned
    come with the error. *)
Definition prune_attempt (y : txn_try) (now : Z) (current : Window) (s : Window * Z) (d : change_db) :
    option (result ()) * (Window * Z) * change_db :=
  StdTxn GaveUp (prune_txn now current) y s d.
Definition State_Prune (db : result txn_try) (now : Z) (current : Window) (d : change_db) :
    option (result ()) * (Window * Z) * change_db :=
  match db with
  | Err e => (Some (Err e), (no_window, (-1)%Z), d)
  | Ok y => prune_attempt y now current (no_window, 0%Z) d
  end.

(** The pruner: the window it knows, the variables of the transaction it is in, and what
    its loop returned. *)
Record Pruner : Type := MkPruner {
  pr_window : Window;
  pr_txn : option (Window * Z);
  pr_result : option error;
}.

(** The tomb, the timer, or another attempt. *)
Inductive pruner_event : Type :=
| PvDying
| PvTimer (db : result txn_try) (now : Z)
| PvAgain (y : txn_try) (now : Z).

(** After an attempt. *)
Definition Pruner_after (p : Pruner) (r : option (result ())) (s : Window * Z) : Pruner :=
  match r with
  | None => MkPruner (pr_window p) (Some s) None
  | Some (Ok _) => MkPruner s.1 None None
  | Some (Err e) =>
      MkPruner (pr_window p) None
        (Some (if decide (e = context_Canceled) then ErrConst "tomb: dying" else e))
  end.

Definition Pruner_turn (ev : pruner_event) (p : Pruner) (d : change_db) : option (Pruner * change_db) :=
  match pr_result p, pr_txn p, ev with
  | None, None, PvDying => Some (MkPruner (pr_window p) None (Some (ErrConst "tomb: dying")), d)
  | None, None, PvTimer db now =>
      let '(r, s, d') := State_Prune db now (pr_window p) d in Some (Pruner_after p r s, d')
  | None, Some s, PvAgain y now =>
      let '(r, s', d') := prune_attempt y now (pr_window p) s d in Some (Pruner_after p r s', d')
  | _, _, _ => None
  end.
End prune.
