(* ===== verification/ChangeLogFacts.v ===== *)
(** * What the queries of the change log return

    The query of the stream returns, of the rows after an id, the newest for each thing
    that changed, oldest first; the pruner deletes what every witness has passed. *)

From stdpp Require Import sorting.
From S2P Require Import Prelude LeaseStore Txn ChangeLog.

(** ** Tables that are well-formed *)

Definition id_lt (x y : change_row) : Prop := (cl_id x < cl_id y)%Z.

(** Ids grow, and the constraints of the schema hold. *)
Record log_ok (d : change_db) : Prop := {
  lo_sorted : StronglySorted id_lt (cd_change_log d);
  lo_ids r : r ∈ cd_change_log d → (0 < cl_id r ≤ cd_seq d)%Z;
  lo_types r : r ∈ cd_change_log d → cl_edit_type_id r ∈ edit_types;
  lo_spaces r : r ∈ cd_change_log d → is_Some (cd_namespace d !! cl_namespace_id r);
  lo_names i j name : cd_namespace d !! i = Some name → cd_namespace d !! j = Some name → i = j;
  lo_seq : (0 ≤ cd_seq d ≤ MaxInt64)%Z;
}.

Lemma sorted_ids l x y : StronglySorted id_lt l → x ∈ l → y ∈ l → cl_id x = cl_id y → x = y.
Proof.
  induction 1 as [|z l _ IH Hz]; [by intros ?%elem_of_nil|]. rewrite Forall_forall in Hz.
  rewrite !elem_of_cons. unfold id_lt in Hz. intros [->|Hx] [->|Hy] E; auto.
  - specialize (Hz y Hy). lia.
  - specialize (Hz x Hx). lia.
Qed.

Lemma sorted_filter {A} (R : relation A) (P : A → Prop) `{!∀ x, Decision (P x)} l :
  StronglySorted R l → StronglySorted R (filter P l).
Proof.
  induction 1 as [|x l _ IH Hx]; [constructor|]. rewrite filter_cons. case_decide; [|done].
  constructor; [done|]. rewrite Forall_forall in *. intros y [_ Hy]%list_elem_of_filter. auto.
Qed.

Lemma elem_of_snoc {A} (l : list A) x y : y ∈ l ++ [x] ↔ y ∈ l ∨ y = x.
Proof. by rewrite elem_of_app, list_elem_of_singleton. Qed.

Lemma sorted_snoc {A} (R : relation A) l x :
  StronglySorted R l → (∀ y, y ∈ l → R y x) → StronglySorted R (l ++ [x]).
Proof.
  induction 1 as [|y l _ IH Hy]; intros H; simpl; [by repeat constructor|].
  constructor; [apply IH; set_solver|]. rewrite Forall_forall in *. intros z [?|?%list_elem_of_singleton]%elem_of_app; [auto|].
  subst. apply H. by left.
Qed.

(** ** The rows after an id *)

Definition named (d : change_db) (r : change_row) (name : string) : Prop :=
  cd_namespace d !! cl_namespace_id r = Some name.

Lemma elem_of_rows_after bound d x :
  log_ok d →
  x ∈ rows_after bound d ↔ x.1 ∈ cd_change_log d ∧ (bound < cl_id x.1)%Z ∧ named d x.1 x.2.
Proof.
  intros Hd. unfold rows_after, named. rewrite list_elem_of_omap. split.
  - intros (r & [Hb Hr]%list_elem_of_filter & H). unfold join_row in H. simplify_option_eq. done.
  - destruct x as [r name]. simpl. intros (Hr & Hb & Hn). exists r. split; [by apply list_elem_of_filter|].
    unfold join_row. rewrite decide_True by by apply (lo_types d Hd). by rewrite Hn.
Qed.

Lemma max_row_spec l :
  match max_row l with
  | Some x => x ∈ l ∧ ∀ y, y ∈ l → (cl_id y.1 ≤ cl_id x.1)%Z
  | None => l = []
  end.
Proof.
  induction l as [|x l IH]; simpl; [done|]. destruct (max_row l) as [y|].
  - destruct IH as [Hy Hmax]. case_decide as Hlt.
    + split; [by left|]. intros z [->|Hz]%elem_of_cons; [lia|]. specialize (Hmax z Hz). lia.
    + split; [by right|]. intros z [->|Hz]%elem_of_cons; [lia|auto].
  - subst l. split; [by left|]. intros z [->|?%elem_of_nil]%elem_of_cons; [lia|done].
Qed.

(** A row that no other one of its group is newer than. *)
Definition newest (l : list (change_row * string)) (x : change_row * string) : Prop :=
  x ∈ l ∧ ∀ y, y ∈ l → group_key y = group_key x → (cl_id y.1 ≤ cl_id x.1)%Z.

(** Ids identify rows. *)
Definition ids_distinct (l : list (change_row * string)) : Prop :=
  ∀ x y, x ∈ l → y ∈ l → cl_id x.1 = cl_id y.1 → x = y.

Lemma rows_after_distinct bound d : log_ok d → ids_distinct (rows_after bound d).
Proof.
  intros Hd [r n] [r' n'] (Hr & _ & Hn)%elem_of_rows_after (Hr' & _ & Hn')%elem_of_rows_after E; try done.
  simpl in *. assert (r = r') as -> by (eapply sorted_ids; eauto using lo_sorted).
  unfold named in *. congruence.
Qed.

Lemma elem_of_group_rows l x : ids_distinct l → x ∈ group_rows l ↔ newest l x.
Proof.
  intros Hd. unfold group_rows, newest. rewrite list_elem_of_omap. split.
  - intros (k & Hk & H). pose proof (max_row_spec (filter (λ y, group_key y = k) l)) as Hm.
    rewrite H in Hm. destruct Hm as [[<- Hx]%list_elem_of_filter Hmax]. split; [done|].
    intros y Hy E. apply Hmax. by apply list_elem_of_filter.
  - intros [Hx Hmax]. exists (group_key x). split; [by apply elem_of_remove_dups, list_elem_of_fmap_2|].
    pose proof (max_row_spec (filter (λ y, group_key y = group_key x) l)) as Hm.
    destruct (max_row _) as [y|].
    + destruct Hm as [[E Hy]%list_elem_of_filter Hmax']. f_equal. apply Hd; [done..|].
      apply Z.le_antisymm; [by apply Hmax|]. apply Hmax'. by apply list_elem_of_filter.
    + assert (x ∈ filter (λ y, group_key y = group_key x) l) as Hin by by apply list_elem_of_filter.
      rewrite Hm in Hin. by apply elem_of_nil in Hin.
Qed.

Lemma NoDup_group_rows l : NoDup (group_rows l).
Proof.
  unfold group_rows. pose proof (NoDup_remove_dups (group_key <$> l)) as Hnd. revert Hnd.
  generalize (remove_dups (group_key <$> l)) as ks. intros ks.
  induction 1 as [|k ks Hk _ IH]; simpl; [constructor|].
  assert (∀ k' x, max_row (filter (λ y, group_key y = k') l) = Some x → group_key x = k') as Hkey.
  { intros k' x E. pose proof (max_row_spec (filter (λ y, group_key y = k') l)) as Hm. rewrite E in Hm.
    by destruct Hm as [[? _]%list_elem_of_filter _]. }
  destruct (max_row _) as [x|] eqn:E; [|done]. constructor; [|done].
  intros (k' & Hk' & E')%list_elem_of_omap. apply Hkey in E, E'. congruence.
Qed.

#[global] Instance by_id_total : Total by_id.
Proof. intros x y. unfold by_id. lia. Qed.
#[global] Instance by_id_trans : Transitive by_id.
Proof. intros x y z. unfold by_id. lia. Qed.

Definition event_lt (x y : changeEvent) : Prop := (ce_id x < ce_id y)%Z.

Lemma merged_strictly l :
  ids_distinct l → NoDup l → StronglySorted (λ x y, (cl_id x.1 < cl_id y.1)%Z) (merge_sort by_id l).
Proof.
  intros Hd Hnd. assert (StronglySorted by_id (merge_sort by_id l)) as Hs by apply (StronglySorted_merge_sort by_id).
  assert (merge_sort by_id l ≡ₚ l) as Hp by apply merge_sort_Permutation.
  rewrite <- Hp in Hnd. assert (∀ x, x ∈ merge_sort by_id l → x ∈ l) as Hin by (intros x; by rewrite Hp).
  revert Hs Hnd Hin. generalize (merge_sort by_id l) as m. clear Hp. intros m.
  induction 1 as [|x m _ IH Hx]; intros Hnd Hin; [constructor|]. apply NoDup_cons in Hnd as [Hnx Hnd].
  constructor; [apply IH; [done|]; intros y ?; apply Hin; by right|]. rewrite Forall_forall in *.
  intros y Hy. specialize (Hx y Hy). unfold by_id in Hx.
  destruct (decide (cl_id x.1 = cl_id y.1)) as [E|]; [|lia].
  apply Hd in E; [|apply Hin; by left|apply Hin; by right]. by subst.
Qed.

Lemma elem_of_selectQuery bound d e :
  log_ok d → e ∈ selectQuery bound d ↔ ∃ x, e = to_event x ∧ newest (rows_after bound d) x.
Proof.
  intros Hd. unfold selectQuery. rewrite list_elem_of_fmap.
  assert (∀ x, x ∈ merge_sort by_id (group_rows (rows_after bound d)) ↔ newest (rows_after bound d) x) as Hx.
  { intros x. rewrite merge_sort_Permutation. by apply elem_of_group_rows, rows_after_distinct. }
  split; intros (x & E & H); exists x; (split; [done|]); by apply Hx.
Qed.

Lemma selectQuery_sorted bound d : log_ok d → StronglySorted event_lt (selectQuery bound d).
Proof.
  intros Hd. unfold selectQuery.
  assert (StronglySorted (λ x y, (cl_id x.1 < cl_id y.1)%Z) (merge_sort by_id (group_rows (rows_after bound d))))
    as Hs.
  { apply merged_strictly; [|apply NoDup_group_rows]. pose proof (rows_after_distinct bound d Hd) as Hdis.
    intros x y [Hx _]%elem_of_group_rows [Hy _]%elem_of_group_rows; auto. }
  revert Hs. generalize (merge_sort by_id (group_rows (rows_after bound d))) as m. intros m.
  induction 1 as [|x m _ IH Hx]; simpl; constructor; [done|]. rewrite Forall_forall in Hx.
  apply Forall_forall. intros e (y & -> & Hy)%list_elem_of_fmap. by apply (Hx y).
Qed.

(** ** Who changed *)

(** An event tells of a row, or of a newer one for the same thing. *)
Definition tells (e : changeEvent) (name : string) (r : change_row) : Prop :=
  ce_namespace e = name ∧ ce_changed e = cl_changed r ∧ (cl_id r ≤ ce_id e)%Z.

Lemma newest_exists (l : list (change_row * string)) x :
  x ∈ l → ∃ y, newest l y ∧ group_key y = group_key x ∧ (cl_id x.1 ≤ cl_id y.1)%Z.
Proof.
  intros Hx. pose proof (max_row_spec (filter (λ y, group_key y = group_key x) l)) as Hm.
  assert (x ∈ filter (λ y, group_key y = group_key x) l) as Hin by by apply list_elem_of_filter.
  destruct (max_row _) as [y|]; [|rewrite Hm in Hin; by apply elem_of_nil in Hin].
  destruct Hm as [[E Hy]%list_elem_of_filter Hmax]. exists y. split_and!; [|done|by apply Hmax].
  split; [done|]. intros z Hz Ez. apply Hmax. apply list_elem_of_filter. split; [congruence|done].
Qed.

(** The query tells of every row after the id. *)
Lemma selectQuery_tells bound d r name :
  log_ok d → r ∈ cd_change_log d → (bound < cl_id r)%Z → named d r name →
  ∃ e, e ∈ selectQuery bound d ∧ tells e name r.
Proof.
  intros Hd Hr Hb Hn. destruct (newest_exists (rows_after bound d) (r, name)) as (y & Hy & Ey & Hid).
  { by apply elem_of_rows_after. }
  exists (to_event y). split; [apply elem_of_selectQuery; eauto|].
  pose proof Hy as [Hin _]. apply elem_of_rows_after in Hin as (_ & _ & Hny); [|done].
  injection Ey as E1 E2. unfold named in *. rewrite E1 in Hny. simpl in *.
  split_and!; simpl; [congruence|done|done].
Qed.

(** ... and of nothing else. *)
Lemma selectQuery_sound bound d e :
  log_ok d → e ∈ selectQuery bound d →
  ∃ r, r ∈ cd_change_log d ∧ (bound < cl_id r)%Z ∧ named d r (ce_namespace e) ∧
    e = to_event (r, ce_namespace e).
Proof.
  intros Hd (x & -> & [Hx _])%elem_of_selectQuery; [|done].
  apply elem_of_rows_after in Hx as (? & ? & ?); [|done]. exists x.1. by split_and!; [..|destruct x].
Qed.

(** C25: what the stream reads.  Of the rows of the change log after a given id, the
    query returns, for each thing that changed, an event for the newest row, with that
    row's type, and nothing else; no thing has two events, and the events are in the
    order of their ids, which are all after the given one. *)
Theorem changes_coalesced bound d :
  log_ok d →
  StronglySorted event_lt (selectQuery bound d) ∧
  (∀ e, e ∈ selectQuery bound d ↔
     ∃ r, r ∈ cd_change_log d ∧ (bound < cl_id r)%Z ∧ named d r (ce_namespace e) ∧
       e = to_event (r, ce_namespace e) ∧
       ∀ r', r' ∈ cd_change_log d → cl_namespace_id r' = cl_namespace_id r →
         cl_changed r' = cl_changed r → (cl_id r' ≤ cl_id r)%Z) ∧
  (∀ e e', e ∈ selectQuery bound d → e' ∈ selectQuery bound d →
     ce_namespace e = ce_namespace e' → ce_changed e = ce_changed e' → e = e').
Proof.
  intros Hd. split; [by apply selectQuery_sorted|].
  assert (∀ e, e ∈ selectQuery bound d ↔
    ∃ r, r ∈ cd_change_log d ∧ (bound < cl_id r)%Z ∧ named d r (ce_namespace e) ∧
      e = to_event (r, ce_namespace e) ∧
      ∀ r', r' ∈ cd_change_log d → cl_namespace_id r' = cl_namespace_id r →
        cl_changed r' = cl_changed r → (cl_id r' ≤ cl_id r)%Z) as Hiff.
  { intros e. rewrite elem_of_selectQuery by done. split.
    - intros ([r name] & -> & [(Hr & Hb & Hn)%elem_of_rows_after Hmax]); [|done]. simpl in *. exists r.
      split_and!; [done..|]. intros r' Hr' En Ec. destruct (decide (bound < cl_id r')%Z) as [Hb'|]; [|lia].
      apply (Hmax (r', name)); [|unfold group_key; simpl; congruence].
      apply elem_of_rows_after; [done|]. unfold named in *. simpl. rewrite En. done.
    - intros (r & Hr & Hb & Hn & E & Hmax). exists (r, ce_namespace e). split; [done|]. split.
      + by apply elem_of_rows_after.
      + intros y (Hy & _ & _)%elem_of_rows_after; [|done]. unfold group_key. simpl. intros [= E1 E2]. by apply Hmax. }
  split; [done|]. intros e e' (r & Hr & Hb & Hn & E & Hmax)%Hiff (r' & Hr' & Hb' & Hn' & E' & Hmax')%Hiff En Ec.
  assert (cl_namespace_id r = cl_namespace_id r') as Eid.
  { unfold named in *. rewrite En in Hn. by eapply (lo_names d Hd). }
  assert (cl_changed r = cl_changed r') as Ech by (rewrite E, E' in Ec; done).
  assert (r = r') as ->; [|by rewrite E, E', En].
  apply (sorted_ids (cd_change_log d)); [apply Hd|done..|].
  apply Z.le_antisymm; [by apply Hmax'|by apply Hmax].
Qed.

(** ** The lowest watermark *)

#[global] Instance watermark_le_total : Total watermark_le.
Proof. intros x y. unfold watermark_le. lia. Qed.
#[global] Instance watermark_le_trans : Transitive watermark_le.
Proof. intros x y z. unfold watermark_le. lia. Qed.

Lemma sortWatermarks_Permutation l : sortWatermarks l ≡ₚ l.
Proof. unfold sortWatermarks. case_decide; [done|]. apply merge_sort_Permutation. Qed.

Lemma lowest_watermark now current d x :
  x ∈ cd_witness d →
  ((locateLowestWatermark now current d).1.1 ≤ cw_lower_bound x)%Z ∧
  ∃ y, y ∈ cd_witness d ∧ cw_lower_bound y = (locateLowestWatermark now current d).1.1.
Proof.
  intros Hx. assert (StronglySorted watermark_le (sortWatermarks (cd_witness d))) as Hs.
  { unfold sortWatermarks. case_decide as Hl; [|apply (StronglySorted_merge_sort watermark_le)].
    destruct (cd_witness d) as [|y [|]]; try done. by repeat constructor. }
  pose proof (sortWatermarks_Permutation (cd_witness d)) as Hp.
  unfold locateLowestWatermark. destruct (sortWatermarks (cd_witness d)) as [|y l].
  { symmetry in Hp. apply Permutation_nil_r in Hp. rewrite Hp in Hx. by apply elem_of_nil in Hx. }
  simpl. split; [|exists y; split; [rewrite <- Hp; by left|done]].
  rewrite <- Hp in Hx. apply elem_of_cons in Hx as [->|Hx]; [lia|].
  apply StronglySorted_inv in Hs as [_ Hs]. rewrite Forall_forall in Hs. specialize (Hs x Hx).
  unfold watermark_le in Hs. lia.
Qed.

(** What a transaction of the pruner does to the tables: nothing, or the rows up to a
    lower bound go that no witness is below. *)
Definition pruned_up_to (p : Z) (d : change_db) : change_db :=
  set_change_log (filter (λ r, p < cl_id r)%Z (cd_change_log d)) d.

Lemma prune_txn_cases now current t s d r s' d' :
  prune_txn now current t s d = (r, s', d') →
  d' = d ∨ (∃ p, d' = pruned_up_to p d ∧ (∀ x, x ∈ cd_witness d → (p ≤ cw_lower_bound x)%Z) ∧
    (cd_witness d = [] → p = 0%Z)).
Proof.
  unfold prune_txn, deleteChangeLog. destruct (locateLowestWatermark now current d) as [[p win] b] eqn:E.
  intros H. assert (d' = d ∨ d' = pruned_up_to p d) as [->| ->].
  { destruct t as [|[|n] e|n]; simplify_eq; eauto. }
  - by left.
  - right. exists p. split; [done|]. split.
    + intros x Hx. destruct (lowest_watermark now current d x Hx) as [Hp _]. by rewrite E in Hp.
    + intros Hn. unfold locateLowestWatermark in E. rewrite Hn in E.
      change (sortWatermarks []) with (@nil witness_row) in E. by injection E as <- _ _.
Qed.

(** What an attempt comes to: its function was not run, or it was, and what it did to
    the tables is there or not. *)
Lemma StdTxn_cases {S A} GaveUp (fn : trouble → S → change_db → result A * S * change_db) y s d r s' d' :
  StdTxn GaveUp fn y s d = (r, s', d') →
  (s' = s ∧ d' = d ∧ ∀ a, r ≠ Some (Ok a)) ∨
  ∃ t x d1, fn t s d = (x, s', d1) ∧ (d' = d ∨ is_ok x = true ∧ d' = d1) ∧ ∀ a, r = Some (Ok a) → x = Ok a.
Proof.
  unfold StdTxn. destruct y as [[e|t c] more]; simpl.
  { intros H. left. destruct (IsFatalError e), more; by simplify_eq. }
  destruct (fn t s d) as [[x s1] d1] eqn:E. intros H. right. exists t, x, d1.
  destruct x as [a|e]; [destruct c as [|e made|]|]; simpl in H.
  - injection H as <- <- <-. naive_solver.
  - destruct made; destruct (IsFatalError e), more; injection H as <- <- <-; naive_solver.
  - injection H as <- <- <-. naive_solver.
  - destruct (IsFatalError e), more; injection H as <- <- <-; naive_solver.
Qed.

(** What an attempt of the pruner does to the tables. *)
Lemma prune_attempt_cases GaveUp y now current s d r s' d' :
  prune_attempt GaveUp y now current s d = (r, s', d') →
  d' = d ∨ (∃ p, d' = pruned_up_to p d ∧ (∀ x, x ∈ cd_witness d → (p ≤ cw_lower_bound x)%Z) ∧
    (cd_witness d = [] → p = 0%Z)).
Proof.
  intros [(_ & -> & _)|(t & x & d1 & E & [->|[_ ->]] & _)]%StdTxn_cases; [by left..|].
  by eapply prune_txn_cases.
Qed.

(** A turn of the pruner is an attempt, or leaves the tables alone. *)
Lemma Pruner_turn_cases GaveUp ev p d p' d' :
  Pruner_turn GaveUp ev p d = Some (p', d') →
  d' = d ∨ ∃ y now s, d' = (prune_attempt GaveUp y now (pr_window p) s d).2.
Proof.
  unfold Pruner_turn. intros H.
  destruct (pr_result p) as [err|], (pr_txn p) as [s|], ev as [|[y|e] now|y now]; try done.
  - destruct (prune_attempt GaveUp y now (pr_window p) s d) as [[r s'] d1] eqn:E. simplify_eq.
    right. exists y, now, s. by rewrite E.
  - simplify_eq. by left.
  - simpl in H. destruct (prune_attempt GaveUp y now (pr_window p) (no_window, 0%Z) d) as [[r s'] d1] eqn:E.
    simplify_eq. right. exists y, now, (no_window, 0%Z). by rewrite E.
  - simpl in H. simplify_eq. by left.
Qed.
