(* ===== verification/Stream.v ===== *)
(** * The change stream

    internal/changestream/stream/stream.go: the worker of a controller that polls the
    change log of a database, hands what it reads to the event multiplexer as terms,
    one after the other, and records in the witness table how far it has come, so
    that the log can be pruned.

    [loop_step] is the loop of the stream, one select or one attempt of a transaction at
    a time; the events tell which case was taken and what became of the attempt.  The tomb,
    the clock and the file notifier decide which events come.  [internalStates] is nil
    outside of tests. *)

From S2P Require Import Prelude LeaseStore Txn ChangeLog.

Abbreviation ErrDBDead := (ErrConst "database is dead").
Abbreviation stream_ErrDying := (ErrConst "tomb: dying").

(** ** Data *)

Record termView : Type := MkTermView { tv_lower : Z; tv_upper : Z }.

#[global] Instance termView_eq_dec : EqDecision termView.
Proof. solve_decision. Defined.

(** core/changestream/terms.go *)
Definition DefaultNumTermWatermarks : nat := 10.

Record Stream : Type := MkStream {
  st_id : string;
  st_watermarks : list (option termView);
  st_lastRecordedWatermark : option termView;
}.

Definition NewStream (id : string) : Stream :=
  MkStream id (replicate DefaultNumTermWatermarks None) None.

(** ** Watermarks *)

Definition upperBound (s : Stream) : Z :=
  match last (st_watermarks s) with
  | None => match st_lastRecordedWatermark s with None => (-1)%Z | Some v => tv_upper v end
  | Some None => (-1)%Z
  | Some (Some v) => tv_upper v
  end.

Definition recordTermView (v : termView) (s : Stream) : Stream :=
  let l := st_watermarks s ++ [Some v] in
  MkStream (st_id s)
    (if decide (DefaultNumTermWatermarks < length l) then drop (length l - DefaultNumTermWatermarks) l else l)
    (st_lastRecordedWatermark s).

(** [fn] works on the tables. *)
Definition processWatermark (fn : termView → change_db → result () * change_db) (s : Stream)
    (d : change_db) : result () * Stream * change_db :=
  if decide (length (st_watermarks s) < DefaultNumTermWatermarks) then (Ok (), s, d)
  else
    match st_watermarks s with
    | Some head :: rest =>
        match fn head d with
        | (Err e, d') => (Err e, s, d')
        | (Ok _, d') => (Ok (), MkStream (st_id s) rest (Some head), d')
        end
    | _ => (Ok (), s, d)
    end.

(** [watermarkCreateQuery] and [watermarkUpdateQuery], with the rows they affect. *)
Definition create_witness (id : string) (now : Z) (d : change_db) : change_db :=
  if decide (id ∈ cw_controller_id <$> cd_witness d) then d
  else set_witness (cd_witness d ++ [MkWitnessRow id (-1) (-1) now]) d.

Definition update_row (id : string) (v : termView) (now : Z) (r : witness_row) : witness_row :=
  if decide (cw_controller_id r = id) then MkWitnessRow id (tv_lower v) (tv_upper v) now else r.
Definition update_witness (id : string) (v : termView) (now : Z) (d : change_db) : nat * change_db :=
  (length (filter (λ r, cw_controller_id r = id) (cd_witness d)),
   set_witness (update_row id v now <$> cd_witness d) d).

Definition record_watermark (id : string) (now : Z) (t : trouble) (v : termView) (d : change_db) :
    result () * change_db :=
  match t with
  | Fails 0 e => (Err e, d)
  | _ =>
      let (affected, d') := update_witness id v now d in
      match t with
      | Fails _ e => (Err e, d')
      | _ =>
          if decide (affected = 1) then (Ok (), d')
          else (Err (ErrConst "expected 1 row to be affected"), d')
      end
  end.

Section transactions.
Context (GaveUp : error → error).

(** [IsErrConstraintPrimaryKey] is not met, for the statement does nothing on a
    conflict. *)
Definition createWatermark (y : txn_try) (now : Z) (s : Stream) (d : change_db) :
    option (result ()) * () * change_db :=
  StdTxn GaveUp (λ t u d, match t with
      | Fails _ e => (Err e, u, d)
      | _ => (Ok (), u, create_witness (st_id s) now d)
      end) y () d.

Definition updateWatermark (y : txn_try) (now : Z) (s : Stream) (d : change_db) :
    option (result ()) * Stream * change_db :=
  StdTxn GaveUp (λ t s d, processWatermark (record_watermark (st_id s) now t) s d) y s d.

(** The variable [changes] is set anew by each attempt; the loop over the rows takes
    their end for the end of the result. *)
Definition read_txn (s : Stream) (t : trouble) (changes : list changeEvent) (d : change_db) :
    result () * list changeEvent * change_db :=
  match t with
  | Fails 0 e => (Err e, [], d)
  | Fails n e => (Err e, take n (selectQuery (upperBound s) d), d)
  | EndsEarly n => (Ok (), take n (selectQuery (upperBound s) d), d)
  | NoTrouble => (Ok (), selectQuery (upperBound s) d, d)
  end.
Definition readChanges (y : txn_try) (s : Stream) (d : change_db) :
    option (result ()) * list changeEvent * change_db :=
  StdTxn GaveUp (read_txn s) y [] d.

(** ** The loop *)

(** Where the loop is: at its beginning; between two attempts of creating the watermark;
    at the outer select; between two attempts of recording a watermark, and of reading;
    blocked by the file; backing off; sending a term; waiting for it; over. *)
Inductive stream_point : Type :=
| PtStart
| PtCreate
| PtSelect (attempt : nat)
| PtWatermark (attempt : nat)
| PtRead (attempt : nat)
| PtBlocked (attempt : nat)
| PtBackOff (attempt : nat)
| PtSend (attempt : nat) (changes : list changeEvent) (v : termView)
| PtTerm (attempt : nat) (changes : list changeEvent) (v : termView)
| PtOver (r : result ()).

(** [EvFile] is what the file notifier sends, or that its channel was closed and what
    asking for another returned; [EvDone] what the term was done with, or that it was
    aborted. *)
Inductive stream_event : Type :=
| EvStart (file : result ()) (y : txn_try) (now : Z)
| EvCreate (y : txn_try) (now : Z)
| EvDying
| EvFile (created : bool)
| EvFileClosed (again : result ())
| EvWatermark (y : txn_try) (now : Z)
| EvRead (y : txn_try)
| EvBackedOff
| EvTaken
| EvTimeout
| EvDone (empty : option bool).

(** The bounds of a term. *)
Definition term_bounds (changes : list changeEvent) : termView :=
  foldl (λ v c, MkTermView
      (if decide (ce_id c < tv_lower v)%Z then ce_id c else tv_lower v)
      (if decide (tv_upper v < ce_id c)%Z then ce_id c else tv_upper v))
    (MkTermView MaxInt64 MinInt64) changes.

(** Where the loop goes on after an attempt. *)
Definition loop_create (r : option (result ())) : stream_point :=
  match r with
  | None => PtCreate
  | Some (Err e) => PtOver (Err e)
  | Some (Ok _) => PtSelect 0
  end.

Definition loop_watermark (attempt : nat) (r : option (result ())) : stream_point :=
  match r with
  | None => PtWatermark attempt
  | Some (Err e) => if decide (e = ErrDBDead) then PtOver (Err e) else PtSelect attempt
  | Some (Ok _) => PtSelect attempt
  end.

Definition loop_read (attempt : nat) (r : option (result ())) (changes : list changeEvent) : stream_point :=
  match r with
  | None => PtRead attempt
  | Some (Err e) => if decide (e = context_Canceled) then PtSelect attempt else PtOver (Err e)
  | Some (Ok _) =>
      match changes with
      | [] => PtBackOff (S attempt)
      | _ =>
          let v := term_bounds changes in
          if decide (tv_lower v = MaxInt64 ∨ tv_upper v = MinInt64) then PtSelect attempt
          else PtSend attempt changes v
      end
  end.

(** Waiting for a term. *)
Definition loop_term (ev : stream_event) (attempt : nat) (v : termView) (s : Stream) :
    option (stream_point * Stream) :=
  match ev with
  | EvTimeout => Some (PtOver (Err (ErrConst "term has not been completed in time")), s)
  | EvDone None => Some (PtSelect attempt, s)
  | EvDone (Some empty) =>
      Some (if empty : bool then PtBackOff (S attempt) else PtSelect 0, recordTermView v s)
  | _ => None
  end.

Definition loop_step (ev : stream_event) (p : stream_point) (s : Stream) (d : change_db) :
    option (stream_point * Stream * change_db) :=
  match p, ev with
  | PtOver _, _ => None
  | PtStart, EvStart (Err e) _ _ => Some (PtOver (Err e), s, d)
  | PtStart, EvStart (Ok _) y now | PtCreate, EvCreate y now =>
      let '(r, _, d') := createWatermark y now s d in Some (loop_create r, s, d')
  | PtSelect n, EvWatermark y now | PtWatermark n, EvWatermark y now =>
      let '(r, s', d') := updateWatermark y now s d in Some (loop_watermark n r, s', d')
  | PtSelect n, EvRead y | PtRead n, EvRead y =>
      let '(r, changes, d') := readChanges y s d in Some (loop_read n r changes, s, d')
  | PtStart, _ | PtCreate, _ | PtWatermark _, _ | PtRead _, _ => None
  | _, EvDying => Some (PtOver (Err stream_ErrDying), s, d)
  | PtSelect n, EvFile created => Some (if created : bool then PtBlocked n else PtSelect n, s, d)
  | PtSelect n, EvFileClosed again =>
      Some (match again with Err e => PtOver (Err e) | Ok _ => PtSelect n end, s, d)
  | PtBlocked n, EvFile created => Some (if created : bool then PtBlocked n else PtSelect n, s, d)
  | PtBlocked n, EvFileClosed _ => Some (PtSelect n, s, d)
  | PtBackOff n, EvBackedOff => Some (PtSelect n, s, d)
  | PtSend n changes v, EvTaken => Some (PtTerm n changes v, s, d)
  | PtTerm n _ v, _ => '(p', s') ← loop_term ev n v s; Some (p', s', d)
  | _, _ => None
  end.
End transactions.
