(* ===== verification/StreamFacts.v ===== *)
(** * What the change stream guarantees

    The streams of any number of controllers at one database, started and restarted at
    any time, beside the triggers that log changes and the pruner that deletes them.
    No change is lost: the stream of a controller has told of every change up to its
    upper bound, or a newer one of the same thing is still to come; and the pruner
    deletes only what every controller with a watermark has been told of. *)

From S2P Require Import Prelude LeaseStore Txn ChangeLog ChangeLogFacts Stream.

(** ** The cluster *)

(** A controller: its stream, with the terms that were completed by it and by those
    that were there before it; [ct_since] is the last id that was pruned when its
    watermark was created, [ct_boot] the last one given out when the stream started. *)
Record controller : Type := MkController {
  ct_stream : Stream;
  ct_point : stream_point;
  ct_terms : list (list changeEvent);
  ct_past : list (list changeEvent);
  ct_since : option Z;
  ct_boot : Z;
}.

(** The database with everything that was ever logged, and the last id that was
    pruned. *)
Record cluster : Type := MkCluster {
  cu_db : change_db;
  cu_controllers : gmap string controller;
  cu_logged : list change_row;
  cu_pruned : Z;
}.

Definition new_db : change_db := MkChangeDb [] ∅ [] 0.
Definition new_cluster : cluster := MkCluster new_db ∅ [] 0.

Inductive cluster_event : Type :=
| CvNamespace (ns : Z) (name : string)
| CvLog (edit ns : Z) (changed : string) (now : Z)
| CvBoot (id : string)
| CvStream (id : string) (ev : stream_event)
| CvPrune (y : txn_try) (now : Z) (current : Window) (vars : Window * Z).

(** The terms after a step of the stream. *)
Definition terms_after (p : stream_point) (ev : stream_event) (ts : list (list changeEvent)) :
    list (list changeEvent) :=
  match p, ev with
  | PtTerm _ changes _, EvDone (Some _) => ts ++ [changes]
  | _, _ => ts
  end.

Definition witnessed (id : string) (d : change_db) : Prop := id ∈ cw_controller_id <$> cd_witness d.

Definition last_gone (old new : list change_row) (p : Z) : Z :=
  foldr (λ r m, if decide (r ∈ new) then m else Z.max (cl_id r) m) p old.

Section cluster.
Context (GaveUp : error → error).

Definition controller_step (id : string) (ev : stream_event) (pruned : Z) (c : controller)
    (d : change_db) : option (controller * change_db) :=
  '(p, s, d') ← loop_step GaveUp ev (ct_point c) (ct_stream c) d;
  Some (MkController s p (terms_after (ct_point c) ev (ct_terms c)) (ct_past c)
          (match ct_since c with
           | Some n => Some n
           | None => if decide (id ∈ cw_controller_id <$> cd_witness d') then Some pruned else None
           end) (ct_boot c), d').

Definition cluster_step (e : cluster_event) (k : cluster) : option cluster :=
  let (d, cs, logged, pruned) := k in
  match e with
  | CvNamespace ns name =>
      guard (cd_namespace d !! ns = None ∧ map_Forall (λ _ n, n ≠ name) (cd_namespace d));;
      Some (MkCluster (MkChangeDb (cd_change_log d) (<[ns := name]> (cd_namespace d)) (cd_witness d) (cd_seq d))
              cs logged pruned)
  | CvLog edit ns changed now =>
      match insert_change_log edit ns changed now d with
      | Err _ => Some k
      | Ok d' => Some (MkCluster d' cs (logged ++ [MkChangeRow (cd_seq d') edit ns changed now]) pruned)
      end
  | CvBoot id =>
      let fresh past since := MkController (NewStream id) PtStart [] past since (cd_seq d) in
      Some (MkCluster d (<[id := match cs !! id with
                                 | Some c => fresh (ct_past c ++ ct_terms c) (ct_since c)
                                 | None => fresh [] None
                                 end]> cs) logged pruned)
  | CvStream id ev =>
      c ← cs !! id;
      '(c', d') ← controller_step id ev pruned c d;
      Some (MkCluster d' (<[id := c']> cs) logged pruned)
  | CvPrune y now current vars =>
      let '(_, _, d') := prune_attempt GaveUp y now current vars d in
      Some (MkCluster d' cs logged (last_gone (cd_change_log d) (cd_change_log d') pruned))
  end.

Inductive clustered : cluster → Prop :=
| clustered_new : clustered new_cluster
| clustered_step e k k' : clustered k → cluster_step e k = Some k' → clustered k'.

(** ** What was told *)

Definition told (ts : list (list changeEvent)) (name : string) (r : change_row) : Prop :=
  ∃ t e, t ∈ ts ∧ e ∈ t ∧ tells e name r.

Definition same_thing (r r' : change_row) : Prop :=
  cl_namespace_id r' = cl_namespace_id r ∧ cl_changed r' = cl_changed r.

(** The last change of a thing. *)
Definition latest (l : list change_row) (r : change_row) : Prop :=
  r ∈ l ∧ ∀ r', r' ∈ l → same_thing r r' → (cl_id r' ≤ cl_id r)%Z.

(** Up to [b], every last change was told of, unless it was pruned before [s]. *)
Definition told_to (l : list change_row) (d : change_db) (ts : list (list changeEvent))
    (s : option Z) (b : Z) : Prop :=
  ∀ s' r name, s = Some s' → latest l r → (s' < cl_id r ≤ b)%Z → named d r name → told ts name r.

Lemma told_to_le l d ts s b b' : (b' ≤ b)%Z → told_to l d ts s b → told_to l d ts s b'.
Proof. intros Hb H s' r name Hs Hr Hid. apply (H s' r name Hs Hr). lia. Qed.

(** The terms of all streams, and those of the one that runs, of what was logged since
    it started. *)
Definition told_by (l : list change_row) (d : change_db) (past ts : list (list changeEvent))
    (s : option Z) (boot b : Z) : Prop :=
  told_to l d (past ++ ts) s b ∧ told_to l d ts (Z.max boot <$> s) b.

Lemma told_by_le l d past ts s boot b b' :
  (b' ≤ b)%Z → told_by l d past ts s boot b → told_by l d past ts s boot b'.
Proof. intros ? []. split; by eapply told_to_le. Qed.

Lemma told_by_none l d past ts s boot b :
  (∀ s' r, s = Some s' → r ∈ l → ¬ (s' < cl_id r ≤ b)%Z) → told_by l d past ts s boot b.
Proof.
  intros H. split.
  - intros s' r name Hs [Hr _] Hid. by destruct (H s' r Hs Hr).
  - intros s' r name Hs [Hr _] Hid. destruct s as [s0|]; [|done]. injection Hs as <-.
    destruct (H s0 r eq_refl Hr). lia.
Qed.

Lemma told_more ts ts' name r : (∀ t, t ∈ ts → t ∈ ts') → told ts name r → told ts' name r.
Proof. intros Hin (t & e & ? & ? & ?). exists t, e. auto. Qed.

Lemma told_older ts name r r' :
  told ts name r' → same_thing r r' → (cl_id r ≤ cl_id r')%Z → told ts name r.
Proof.
  intros (t & e & ? & ? & (? & ? & ?)) [_ E] Hid. exists t, e. split_and!; try done. split_and!; [done|congruence|lia].
Qed.

Lemma same_thing_refl r : same_thing r r.
Proof. done. Qed.

Lemma latest_exists l r : r ∈ l → ∃ r', latest l r' ∧ same_thing r r' ∧ (cl_id r ≤ cl_id r')%Z.
Proof.
  intros Hr. pose (f := λ x : change_row, (x, EmptyString)).
  destruct (newest_exists (f <$> l) (f r)) as ([y n] & [Hy Hmax] & Ey & Hid).
  { by apply list_elem_of_fmap_2. }
  apply list_elem_of_fmap in Hy as (y' & [= <- ->] & Hy). simpl in *.
  injection Ey as E1 E2. exists y. split_and!; [|done..]. split; [done|].
  intros r' Hr' [E3 E4]. apply (Hmax (f r')); [by apply list_elem_of_fmap_2|].
  unfold group_key. simpl. by rewrite E3, E4.
Qed.

(** ** The invariant *)

(** An event that stands for a change that was logged. *)
Definition real (l : list change_row) (d : change_db) (e : changeEvent) : Prop :=
  ∃ r, r ∈ l ∧ named d r (ce_namespace e) ∧ e = to_event (r, ce_namespace e).

(** A term on its way. *)
Record term_ok (l : list change_row) (d : change_db) (c : controller) (changes : list changeEvent)
    (v : termView) : Prop := {
  tm_sorted : StronglySorted event_lt changes;
  tm_above e : e ∈ changes → (upperBound (ct_stream c) < ce_id e ≤ tv_upper v)%Z;
  tm_order : (upperBound (ct_stream c) < tv_upper v ∧ tv_lower v ≤ tv_upper v ≤ cd_seq d)%Z;
  tm_real e : e ∈ changes → real l d e;
  tm_told : told_by l d (ct_past c) (ct_terms c ++ [changes]) (ct_since c) (ct_boot c) (tv_upper v);
}.

Definition told_c (l : list change_row) (d : change_db) (c : controller) (b : Z) : Prop :=
  told_by l d (ct_past c) (ct_terms c) (ct_since c) (ct_boot c) b.

Definition point_ok (l : list change_row) (d : change_db) (c : controller) : Prop :=
  match ct_point c with
  | PtStart | PtCreate => upperBound (ct_stream c) = (-1)%Z ∧ ct_terms c = []
  | PtSend _ changes v | PtTerm _ changes v =>
      term_ok l d c changes v
  | _ => True
  end.

Record stream_ok (seq : Z) (s : Stream) : Prop := {
  so_length : length (st_watermarks s) = 9 ∨ length (st_watermarks s) = 10;
  so_views v : Some v ∈ st_watermarks s → (tv_lower v ≤ tv_upper v ≤ upperBound s)%Z;
  so_bound : (-1 ≤ upperBound s ≤ seq)%Z;
}.

Record controller_ok (l : list change_row) (p : Z) (d : change_db) (id : string) (c : controller) : Prop := {
  co_id : st_id (ct_stream c) = id;
  co_stream : stream_ok (cd_seq d) (ct_stream c);
  co_sorted : StronglySorted event_lt (concat (ct_terms c));
  co_below e : e ∈ concat (ct_terms c) → (ce_id e ≤ upperBound (ct_stream c))%Z;
  co_real e : e ∈ concat (ct_past c ++ ct_terms c) → real l d e;
  co_told : told_c l d c (upperBound (ct_stream c));
  co_pruned : told_c l d c p;
  co_point : point_ok l d c;
  co_witness s : ct_since c = Some s → witnessed id d ∧ (s ≤ p)%Z;
}.

(** A watermark is of a controller that was told of everything up to it. *)
Definition witness_ok (k : cluster) (w : witness_row) : Prop :=
  ∃ c, cu_controllers k !! cw_controller_id w = Some c ∧ is_Some (ct_since c) ∧
    (cw_lower_bound w ≤ cd_seq (cu_db k))%Z ∧
    told_c (cu_logged k) (cu_db k) c (cw_lower_bound w).

Record logged_ok (l : list change_row) (p : Z) (d : change_db) : Prop := {
  lg_log : log_ok d;
  lg_sorted : StronglySorted id_lt l;
  lg_ids r : r ∈ l → (0 < cl_id r ≤ cd_seq d)%Z;
  lg_kept : cd_change_log d = filter (λ r, p < cl_id r)%Z l;
  lg_spaces r : r ∈ l → is_Some (cd_namespace d !! cl_namespace_id r);
  lg_pruned : (0 ≤ p ≤ cd_seq d)%Z;
}.

Record cluster_ok (k : cluster) : Prop := {
  ck_logged : logged_ok (cu_logged k) (cu_pruned k) (cu_db k);
  ck_nodup : NoDup (cw_controller_id <$> cd_witness (cu_db k));
  ck_witness w : w ∈ cd_witness (cu_db k) → witness_ok k w;
  ck_controllers id c : cu_controllers k !! id = Some c →
    controller_ok (cu_logged k) (cu_pruned k) (cu_db k) id c;
}.

(** ** What others do *)

(** More is logged, and more namespaces are known. *)
Record extends (l l' : list change_row) (d d' : change_db) : Prop := {
  ex_seq : (cd_seq d ≤ cd_seq d')%Z;
  ex_in r : r ∈ l → r ∈ l';
  ex_latest r : latest l' r → (cl_id r ≤ cd_seq d)%Z → latest l r;
  ex_named r name : r ∈ l → named d' r name ↔ named d r name;
}.

Lemma extends_refl l d d' :
  cd_seq d' = cd_seq d → cd_namespace d' = cd_namespace d → extends l l d d'.
Proof. intros Es En. split; [lia|done..|]. intros r name _. unfold named. by rewrite En. Qed.

Lemma told_to_extends l l' d d' ts s b :
  extends l l' d d' → (b ≤ cd_seq d)%Z → told_to l d ts s b → told_to l' d' ts s b.
Proof.
  intros He Hb Ht s' r name Hs Hr Hid Hn. assert (latest l r) as Hl by (eapply ex_latest; [done..|lia]).
  apply (Ht s' r name); [done..|]. apply (ex_named _ _ _ _ He); [apply Hl|done].
Qed.

Lemma told_by_extends l l' d d' past ts s boot b :
  extends l l' d d' → (b ≤ cd_seq d)%Z → told_by l d past ts s boot b → told_by l' d' past ts s boot b.
Proof. intros ? ? []. split; by eapply told_to_extends. Qed.

Lemma real_extends l l' d d' e : extends l l' d d' → real l d e → real l' d' e.
Proof.
  intros He (r & Hr & Hn & E). exists r. split_and!; [by eapply ex_in| |done]. by apply (ex_named _ _ _ _ He).
Qed.

Lemma point_ok_extends l l' d d' c : extends l l' d d' → point_ok l d c → point_ok l' d' c.
Proof.
  intros He. unfold point_ok. destruct (ct_point c); try done.
  all: intros [? ? (? & ? & ?) Hreal Ht]; pose proof (ex_seq _ _ _ _ He);
    split; [done|done|lia|by intros e ?; eapply real_extends, Hreal|by eapply told_by_extends].
Qed.

Lemma stream_ok_seq n n' s : (n ≤ n')%Z → stream_ok n s → stream_ok n' s.
Proof. intros ? []. split; [done..|lia]. Qed.

Lemma controller_ok_extends l l' p d d' id c :
  extends l l' d d' → (p ≤ cd_seq d)%Z → (witnessed id d → witnessed id d') →
  controller_ok l p d id c → controller_ok l' p d' id c.
Proof.
  intros He Hp Hw [H1 H2 H3 H4 H5 H6 H7 H8 H9]. pose proof (ex_seq _ _ _ _ He).
  pose proof (so_bound _ _ H2). split; try done.
  - by eapply stream_ok_seq.
  - intros e ?. eapply real_extends; [done|]. auto.
  - eapply told_by_extends; [done|lia|done].
  - by eapply told_by_extends.
  - by eapply point_ok_extends.
  - intros s Hs. destruct (H9 s Hs). auto.
Qed.

(** Nothing but the log, the namespaces and the pruned id changes. *)
Lemma cluster_ok_extends d l p d' l' cs :
  cluster_ok (MkCluster d cs l p) → extends l l' d d' → logged_ok l' p d' →
  cd_witness d' = cd_witness d → cluster_ok (MkCluster d' cs l' p).
Proof.
  intros [Hl Hnd Hw Hc] He Hl' Ew. simpl in *. split; simpl; [done|by rewrite Ew|..].
  - rewrite Ew. intros w Hin. destruct (Hw w Hin) as (c & Hlk & Hs & Hle & Ht). simpl in *.
    exists c. simpl. pose proof (ex_seq _ _ _ _ He). split_and!; [done..|lia|by eapply told_by_extends].
  - intros id c Hlk. apply (controller_ok_extends l l' p d d'); [done|apply Hl| |auto].
    unfold witnessed. by rewrite Ew.
Qed.

Lemma namespace_ok d cs l p ns name :
  cluster_ok (MkCluster d cs l p) → cd_namespace d !! ns = None →
  map_Forall (λ _ n, n ≠ name) (cd_namespace d) →
  cluster_ok (MkCluster (MkChangeDb (cd_change_log d) (<[ns := name]> (cd_namespace d)) (cd_witness d) (cd_seq d))
    cs l p).
Proof.
  intros Hk Hns Hname. pose proof (ck_logged _ Hk) as [[G1 G2 G3 G4 G5 G6] L1 L2 L3 L4 L5]. simpl in *.
  assert (∀ i, is_Some (cd_namespace d !! i) → <[ns:=name]> (cd_namespace d) !! i = cd_namespace d !! i) as Hold.
  { intros i [x Hx]. rewrite lookup_insert_ne; [done|]. intros ->. congruence. }
  eapply cluster_ok_extends; [exact Hk| |split; [split|..]|done]; simpl; auto.
  - split; simpl; [lia|done..|]. intros r nm Hr. unfold named. simpl. rewrite Hold; [done|auto].
  - intros r Hr. rewrite Hold; auto.
  - intros i j nm [[<- <-]|[? Hi]]%lookup_insert_Some [[<- Ej]|[? Hj]]%lookup_insert_Some; eauto.
    + by apply (map_Forall_lookup_1 _ _ _ _ Hname) in Hj.
    + subst. by apply (map_Forall_lookup_1 _ _ _ _ Hname) in Hi.
  - intros r Hr. rewrite Hold; auto.
Qed.

Lemma log_change_ok d cs l p edit ns changed now d' :
  cluster_ok (MkCluster d cs l p) → insert_change_log edit ns changed now d = Ok d' →
  cluster_ok (MkCluster d' cs (l ++ [MkChangeRow (cd_seq d') edit ns changed now]) p).
Proof.
  intros Hk H. pose proof (ck_logged _ Hk) as [[G1 G2 G3 G4 G5 G6] L1 L2 L3 L4 L5]. simpl in *.
  unfold insert_change_log in H. case_decide as He; [|done].
  destruct (cd_namespace d !! ns) as [name|] eqn:Hns; [|done]. case_decide as Hs; [|done].
  injection H as <-. simpl. set (x := MkChangeRow (cd_seq d + 1) edit ns changed now).
  eapply cluster_ok_extends; [exact Hk| |split; [split|..]|done]; simpl.
  - split; simpl; [lia|intros r ?; apply elem_of_app; by left| |done].
    intros r [Hr Hmax] Hid. apply elem_of_snoc in Hr as [Hr| ->]; [|simpl in Hid; lia].
    split; [done|]. intros r' Hr'. apply Hmax, elem_of_app. by left.
  - apply sorted_snoc; [done|]. intros y Hy. specialize (G2 y Hy). unfold id_lt. simpl. lia.
  - intros r [Hr| ->]%elem_of_snoc; [specialize (G2 r Hr); lia|simpl; lia].
  - intros r [Hr| ->]%elem_of_snoc; auto.
  - intros r [Hr| ->]%elem_of_snoc; [auto|by eexists].
  - done.
  - lia.
  - apply sorted_snoc; [done|]. intros y Hy. specialize (L2 y Hy). unfold id_lt. simpl. lia.
  - intros r [Hr| ->]%elem_of_snoc; [specialize (L2 r Hr); lia|simpl; lia].
  - rewrite filter_app, L3. f_equal. rewrite filter_cons, decide_True by (simpl; lia). done.
  - intros r [Hr| ->]%elem_of_snoc; [auto|by eexists].
  - lia.
Qed.

(** ** Pruning *)

Lemma last_gone_spec old new p :
  (p ≤ last_gone old new p)%Z ∧ (∀ r, r ∈ old → r ∉ new → (cl_id r ≤ last_gone old new p)%Z) ∧
  (last_gone old new p = p ∨ ∃ r, r ∈ old ∧ (r ∉ new) ∧ cl_id r = last_gone old new p).
Proof.
  induction old as [|x old (IH1 & IH2 & IH3)]; simpl.
  { split_and!; [lia|by intros r ?%elem_of_nil|by left]. }
  case_decide as Hx; split_and!.
  - done.
  - intros r [->|Hr]%elem_of_cons Hn; [done|auto].
  - destruct IH3 as [?|(r & ? & ? & ?)]; [by left|right]. exists r. split_and!; [by right|done..].
  - lia.
  - intros r [->|Hr]%elem_of_cons Hn; [lia|]. specialize (IH2 r Hr Hn). lia.
  - destruct (Z.max_spec (cl_id x) (last_gone old new p)) as [[? ->]|[? ->]].
    + destruct IH3 as [?|(r & ? & ? & ?)]; [by left|right]. exists r. split_and!; [by right|done..].
    + right. exists x. split_and!; [by left|done..].
Qed.

Lemma filter_in {A} (P Q : A → Prop) `{!∀ x, Decision (P x), !∀ x, Decision (Q x)} (l : list A) :
  (∀ x, x ∈ l → P x ↔ Q x) → filter P l = filter Q l.
Proof.
  induction l as [|x l IH]; intros Hpq; [done|]. rewrite !filter_cons, IH by (intros y ?; apply Hpq; by right).
  destruct (Hpq x) as [H1 H2]; [by left|]. repeat case_decide; tauto || done.
Qed.

Lemma prune_ok d cs l p q :
  cluster_ok (MkCluster d cs l p) → (∀ x, x ∈ cd_witness d → (q ≤ cw_lower_bound x)%Z) →
  (cd_witness d = [] → q = 0%Z) →
  cluster_ok (MkCluster (pruned_up_to q d) cs l
    (last_gone (cd_change_log d) (cd_change_log (pruned_up_to q d)) p)).
Proof.
  intros Hk Hq Hq0. pose proof (ck_logged _ Hk) as [[G1 G2 G3 G4 G5 G6] L1 L2 L3 L4 L5].
  pose proof Hk as [_ Hnd Hw Hc]. simpl in *.
  destruct (last_gone_spec (cd_change_log d) (filter (λ r, q < cl_id r)%Z (cd_change_log d)) p) as (P1 & P2 & P3).
  set (p' := last_gone _ _ p) in *.
  assert (p' = p ∨ p < p' ≤ q)%Z as Hp'.
  { destruct P3 as [?|(r & Hr & Hn & E)]; [by left|]. right. rewrite list_elem_of_filter in Hn.
    rewrite L3 in Hr. apply list_elem_of_filter in Hr as [? Hr]. split; [lia|].
    rewrite L3 in Hn. rewrite list_elem_of_filter in Hn. destruct (decide (q < cl_id r)%Z); [tauto|lia]. }
  assert (p' ≤ cd_seq d)%Z as Hseq.
  { destruct P3 as [->|(r & Hr & _ & <-)]; [lia|]. by apply G2. }
  assert (∀ r, r ∈ filter (λ r, q < cl_id r)%Z (cd_change_log d) → r ∈ cd_change_log d) as Hsub.
  { by intros r [_ ?]%list_elem_of_filter. }
  assert (∀ id c, cs !! id = Some c → told_c l d c p') as Htold.
  { intros id c Hlk. destruct (Hc id c Hlk) as [_ _ _ _ _ _ Hp _ Hwit].
    destruct Hp' as [->|Hp']; [done|]. unfold told_c.
    destruct (ct_since c) as [s'|] eqn:Hs; [|by apply told_by_none].
    destruct (Hwit s' eq_refl) as [(w & -> & Hin)%list_elem_of_fmap _].
    destruct (Hw w Hin) as (c' & Hlk' & _ & _ & Ht). simpl in *. simplify_eq.
    unfold told_c in Ht. rewrite Hs in Ht. eapply told_by_le; [|exact Ht]. specialize (Hq w Hin). lia. }
  split; simpl; [split; [split|..]|done|..]; simpl; auto; try lia.
  - by apply sorted_filter.
  - rewrite L3, list_filter_filter. apply filter_in. intros r Hr. split; [lia|]. intros Hid.
    split; [|lia]. destruct (decide (q < cl_id r)%Z) as [|Hn]; [done|]. exfalso.
    assert (r ∈ cd_change_log d) as Hin by (rewrite L3; apply list_elem_of_filter; split; [lia|done]).
    specialize (P2 r Hin). rewrite list_elem_of_filter in P2. specialize (P2 ltac:(tauto)). lia.
  - intros id c Hlk. assert (extends l l d (pruned_up_to q d)) as He by by apply extends_refl.
    assert (controller_ok l p (pruned_up_to q d) id c) as [H1 H2 H3 H4 H5 H6 _ H8 H9].
    { eapply controller_ok_extends; [exact He|lia|done|by apply Hc]. }
    split; [done..| |done|].
    + eapply told_by_extends; [exact He|done|by eapply Htold].
    + intros s Hs. destruct (H9 s Hs). split; [done|lia].
Qed.

(** ** The transactions of a stream *)

Lemma createWatermark_cases y now s d r u d' :
  createWatermark GaveUp y now s d = (r, u, d') → d' = d ∨ d' = create_witness (st_id s) now d.
Proof.
  intros [(_ & -> & _)|(t & x & d1 & E & Hd & _)]%StdTxn_cases; [by left|].
  destruct t; simplify_eq; naive_solver.
Qed.

Lemma readChanges_cases y s d r changes d' :
  readChanges GaveUp y s d = (r, changes, d') →
  d' = d ∧ (∀ a, r = Some (Ok a) → ∃ n, changes = take n (selectQuery (upperBound s) d)).
Proof.
  intros [(_ & -> & Hr)|(t & x & d1 & E & Hd & Hr)]%StdTxn_cases; [by split; [|intros a ?; destruct (Hr a)]|].
  assert (∃ n, take n (selectQuery (upperBound s) d) = selectQuery (upperBound s) d) as [n Hn].
  { eexists. by apply take_ge. }
  destruct t as [|[|m] e|m]; simpl in E; simplify_eq; naive_solver.
Qed.

(** The stream after its first watermark was taken off. *)
Definition popped (s s' : Stream) : Prop :=
  length (st_watermarks s) = 10 ∧ ∃ v rest, st_watermarks s = Some v :: rest ∧
    s' = MkStream (st_id s) rest (Some v).

Lemma record_watermark_cases id now t v d r d' :
  record_watermark id now t v d = (r, d') → is_ok r = true → d' = (update_witness id v now d).2.
Proof.
  unfold record_watermark. destruct (update_witness id v now d) as [n d1]. intros H Hr.
  destruct t as [|[|m] e|m]; repeat case_decide; by simplify_eq.
Qed.

Lemma processWatermark_cases now t s d r s' d' :
  length (st_watermarks s) ≤ 10 →
  processWatermark (record_watermark (st_id s) now t) s d = (r, s', d') →
  (s' = s ∧ (is_ok r = true → d' = d)) ∨
  (popped s s' ∧ ∀ v, head (st_watermarks s) = Some (Some v) → d' = (update_witness (st_id s) v now d).2).
Proof.
  intros Hlen H. unfold processWatermark, DefaultNumTermWatermarks in H.
  case_decide as Hl; [left; by simplify_eq|].
  destruct (st_watermarks s) as [|[v|] rest] eqn:Ew; [left; by simplify_eq| |left; by simplify_eq].
  destruct (record_watermark _ _ _ _ _) as [[[]|e] d1] eqn:E; simplify_eq; [right|by left].
  split; [split; [rewrite Ew; simpl in *; lia|eauto]|]. intros v' [= <-]. by apply record_watermark_cases in E.
Qed.

Lemma updateWatermark_cases y now s d r s' d' :
  length (st_watermarks s) ≤ 10 → updateWatermark GaveUp y now s d = (r, s', d') →
  (s' = s ∨ popped s s') ∧
  (d' = d ∨ ∃ v, Some v ∈ st_watermarks s ∧ d' = (update_witness (st_id s) v now d).2).
Proof.
  intros Hlen [(-> & -> & _)|(t & x & d1 & E & Hd & _)]%StdTxn_cases; [by split; left|].
  apply processWatermark_cases in E as [[-> Hx]|[Hp Hx]]; [|split; [by right|]|done].
  { split; [by left|]. left. destruct Hd as [?|[Ho ?]]; [done|]. rewrite (Hx Ho) in *. done. }
  destruct Hd as [?|[_ ->]]; [by left|right]. pose proof Hp as (_ & v & rest & Ew & _). rewrite Ew in *.
  exists v. split; [by left|by apply Hx].
Qed.

(** ** Terms *)

Definition widen (v : termView) (c : changeEvent) : termView :=
  MkTermView (if decide (ce_id c < tv_lower v)%Z then ce_id c else tv_lower v)
    (if decide (tv_upper v < ce_id c)%Z then ce_id c else tv_upper v).

Lemma widen_bounds cs v :
  let v' := foldl widen v cs in
  (tv_lower v' ≤ tv_lower v ∧ tv_upper v ≤ tv_upper v')%Z ∧
  (∀ e, e ∈ cs → (tv_lower v' ≤ ce_id e ≤ tv_upper v')%Z) ∧
  (tv_upper v' = tv_upper v ∨ ∃ e, e ∈ cs ∧ ce_id e = tv_upper v') ∧
  (tv_lower v' = tv_lower v ∨ ∃ e, e ∈ cs ∧ ce_id e = tv_lower v').
Proof.
  revert v. induction cs as [|c cs IH]; intros v; simpl.
  { split_and!; [lia|lia|by intros e ?%elem_of_nil|by left..]. }
  assert ((tv_lower (widen v c) = tv_lower v ∨ tv_lower (widen v c) = ce_id c) ∧
    (tv_upper (widen v c) = tv_upper v ∨ tv_upper (widen v c) = ce_id c) ∧
    (tv_lower (widen v c) ≤ tv_lower v)%Z ∧ (tv_lower (widen v c) ≤ ce_id c)%Z ∧
    (tv_upper v ≤ tv_upper (widen v c))%Z ∧ (ce_id c ≤ tv_upper (widen v c))%Z) as (W1 & W2 & W3 & W4 & W5 & W6).
  { unfold widen. simpl. repeat case_decide; split_and!; auto; lia. }
  destruct (IH (widen v c)) as ([H1 H2] & H3 & H4 & H5). split_and!; [lia|lia|..].
  - intros e [->|He]%elem_of_cons; [lia|auto].
  - destruct H4 as [H4|(e & ? & ?)]; [|right; exists e; split; [by right|done]]. rewrite H4.
    destruct W2 as [->| ->]; [by left|right; exists c; split; [by left|done]].
  - destruct H5 as [H5|(e & ? & ?)]; [|right; exists e; split; [by right|done]]. rewrite H5.
    destruct W1 as [->| ->]; [by left|right; exists c; split; [by left|done]].
Qed.

Lemma term_bounds_spec cs :
  (∀ e, e ∈ cs → (tv_lower (term_bounds cs) ≤ ce_id e ≤ tv_upper (term_bounds cs))%Z) ∧
  (tv_upper (term_bounds cs) = MinInt64 ∨ ∃ e, e ∈ cs ∧ ce_id e = tv_upper (term_bounds cs)) ∧
  (tv_lower (term_bounds cs) = MaxInt64 ∨ ∃ e, e ∈ cs ∧ ce_id e = tv_lower (term_bounds cs)).
Proof. by destruct (widen_bounds cs (MkTermView MaxInt64 MinInt64)) as (_ & ? & ? & ?). Qed.

(** The rows of a query that ends early are the first ones. *)
Lemma sorted_take n l e e' :
  StronglySorted event_lt l → e' ∈ take n l → e ∈ l → (ce_id e ≤ ce_id e')%Z → e ∈ take n l.
Proof.
  intros Hs. revert n. induction Hs as [|x l _ IH Hx]; intros n He' He Hle; [by apply elem_of_nil in He|].
  destruct n as [|n]; [by apply elem_of_nil in He'|]. simpl in *. rewrite Forall_forall in Hx.
  apply elem_of_cons in He as [->|He]; [by left|]. right. apply elem_of_cons in He' as [->|He'].
  - specialize (Hx e He). unfold event_lt in Hx. lia.
  - by apply IH.
Qed.

(** A change that is the last of its thing is an event of the query. *)
Lemma latest_selected l p d bound r name :
  logged_ok l p d → latest l r → (p < cl_id r)%Z → (bound < cl_id r)%Z → named d r name →
  to_event (r, name) ∈ selectQuery bound d.
Proof.
  intros [Hd _ _ Hk _ _] [Hr Hmax] Hp Hb Hn.
  assert (r ∈ cd_change_log d) as Hin by (rewrite Hk; by apply list_elem_of_filter).
  apply elem_of_selectQuery; [done|]. exists (r, name). split; [done|]. split; [by apply elem_of_rows_after|].
  intros y (Hy & _ & _)%elem_of_rows_after; [|done]. intros [= E1 E2]. apply Hmax; [|done].
  rewrite Hk in Hy. by apply list_elem_of_filter in Hy as [_ ?].
Qed.

(** A term that was read tells of everything up to its upper bound. *)
Lemma read_term_ok l p d id c n :
  logged_ok l p d → controller_ok l p d id c →
  let changes := take n (selectQuery (upperBound (ct_stream c)) d) in
  changes ≠ [] →
  term_ok l d c changes (term_bounds changes).
Proof.
  intros Hl Hc changes Hne. pose proof Hl as [Hd _ _ Hk _ _]. set (u := upperBound (ct_stream c)) in *.
  pose proof (selectQuery_sorted u d Hd) as Hsort.
  assert (∀ e, e ∈ changes → e ∈ selectQuery u d) as Hsub by (intros e; apply subseteq_take).
  destruct (term_bounds_spec changes) as (Hb & Hup & _). set (v := term_bounds changes) in *.
  destruct changes as [|e0 changes'] eqn:Ech; [done|]. rewrite <- Ech in *.
  assert (e0 ∈ changes) as He0 by (rewrite Ech; by left).
  assert (∀ e, e ∈ changes → (u < ce_id e ≤ cd_seq d)%Z ∧ real l d e) as Hreal.
  { intros e He. destruct (selectQuery_sound u d e Hd (Hsub e He)) as (r & Hr & Hur & Hn & E).
    assert (ce_id e = cl_id r) as -> by by rewrite E. pose proof (lo_ids d Hd r Hr). split; [lia|].
    exists r. split_and!; [|done..]. rewrite Hk in Hr. by apply list_elem_of_filter in Hr as [_ ?]. }
  pose proof (Hb e0 He0). pose proof (proj1 (Hreal e0 He0)). pose proof (so_bound _ _ (co_stream _ _ _ _ _ Hc)).
  assert (∃ e, e ∈ changes ∧ ce_id e = tv_upper v) as (e1 & He1 & Ee1).
  { destruct Hup as [Hup|?]; [lia|done]. }
  pose proof (proj1 (Hreal e1 He1)). split.
  - subst changes. clear -Hsort. revert n. induction Hsort as [|x m _ IH Hx]; intros n; [rewrite take_nil; constructor|].
    destruct n; simpl; constructor; [done|]. by apply Forall_take.
  - intros e He. destruct (Hreal e He). specialize (Hb e He). lia.
  - lia.
  - intros e He. by apply Hreal.
  - assert (∀ ts since, told_to l d ts since p → told_to l d ts since u →
      told_to l d (ts ++ [changes]) since (tv_upper v)) as Hread.
    { intros ts since Htp Htu s' r name Hs Hr Hid Hn. destruct (decide (cl_id r ≤ p)%Z) as [Hp|Hp].
      { eapply told_more; [|apply (Htp s' r name); [done|done|lia|done]]. intros t ?. apply elem_of_app. by left. }
      destruct (decide (cl_id r ≤ u)%Z) as [Hu|Hu].
      { eapply told_more; [|apply (Htu s' r name); [done|done|lia|done]]. intros t ?. apply elem_of_app. by left. }
      exists changes, (to_event (r, name)). split_and!; [apply elem_of_snoc; by right| |by split_and!].
      apply (sorted_take n _ _ e1); [done|done| |simpl; lia]. eapply latest_selected; [done|done|lia|lia|done]. }
    pose proof (co_pruned _ _ _ _ _ Hc) as [P1 P2]. pose proof (co_told _ _ _ _ _ Hc) as [U1 U2].
    split; [rewrite (assoc_L (++))|]; by apply Hread.
Qed.

(** ** Recording watermarks *)

Lemma recordTermView_spec v s seq :
  stream_ok seq s → (upperBound s < tv_upper v)%Z → (tv_lower v ≤ tv_upper v ≤ seq)%Z →
  upperBound (recordTermView v s) = tv_upper v ∧ stream_ok seq (recordTermView v s) ∧
  st_id (recordTermView v s) = st_id s.
Proof.
  intros [Hlen Hv Hb] Hu Hlv. set (l := st_watermarks s ++ [Some v]).
  assert (∃ l', st_watermarks (recordTermView v s) = l' ++ [Some v] ∧ (∀ x, x ∈ l' → x ∈ st_watermarks s) ∧
    length l' = 9) as (l' & El & Hin & Hl').
  { unfold recordTermView, DefaultNumTermWatermarks. simpl. rewrite length_app. simpl.
    destruct Hlen as [E|E]; rewrite E; simpl.
    - by exists (st_watermarks s).
    - rewrite drop_app_le by lia. exists (drop 1 (st_watermarks s)). split_and!; [done| |rewrite length_drop; lia].
      intros x Hx. rewrite <- (take_drop 1 (st_watermarks s)). apply elem_of_app. by right. }
  assert (upperBound (recordTermView v s) = tv_upper v) as E by (unfold upperBound; by rewrite El, last_snoc).
  split_and!; [done| |done]. split; rewrite ?El, ?E.
  - right. rewrite length_app, Hl'. done.
  - intros v' [Hv'|[= ->]]%elem_of_snoc; [|lia]. apply Hin, Hv in Hv'. lia.
  - lia.
Qed.

Lemma popped_spec s s' seq :
  stream_ok seq s → popped s s' → upperBound s' = upperBound s ∧ stream_ok seq s' ∧ st_id s' = st_id s.
Proof.
  intros [_ Hv Hb] (Hlen & v & rest & Ew & ->). rewrite Ew in Hlen. simpl in Hlen.
  assert (upperBound (MkStream (st_id s) rest (Some v)) = upperBound s) as E.
  { unfold upperBound. rewrite Ew. cbn [st_watermarks st_lastRecordedWatermark]. destruct rest as [|x rest]; [done|].
    by rewrite (last_cons (Some v)); destruct (last (x :: rest)) eqn:El; [|apply last_None in El]. }
  split_and!; [done| |done]. split; rewrite ?E; simpl; [lia| |done].
  intros v' Hv'. apply Hv. rewrite Ew. by right.
Qed.

(** ** Steps of a controller *)

Record same_log (d d' : change_db) : Prop := {
  sl_log : cd_change_log d' = cd_change_log d;
  sl_spaces : cd_namespace d' = cd_namespace d;
  sl_seq : cd_seq d' = cd_seq d;
}.

Lemma same_log_refl d : same_log d d.
Proof. done. Qed.

Lemma logged_ok_same l p d d' : same_log d d' → logged_ok l p d → logged_ok l p d'.
Proof.
  intros [E1 E2 E3] [[G1 G2 G3 G4 G5 G6] L1 L2 L3 L4 L5].
  split; [split|..]; rewrite ?E1, ?E2, ?E3; done.
Qed.

Lemma told_to_more l d ts ts' s b : (∀ t, t ∈ ts → t ∈ ts') → told_to l d ts s b → told_to l d ts' s b.
Proof. intros Hin H s' r name ????. eapply told_more; [done|]. by eapply H. Qed.

Definition all_terms (c : controller) : list (list changeEvent) := ct_past c ++ ct_terms c.

(** What is told of a controller's watermark before goes for it afterwards. *)
Definition follows (l : list change_row) (d : change_db) (c c' : controller) : Prop :=
  is_Some (ct_since c) → is_Some (ct_since c') ∧
    ∀ b, (b ≤ cd_seq d)%Z → told_c l d c b → told_c l d c' b.

Definition row_ok (l : list change_row) (d : change_db) (c : controller) (w : witness_row) : Prop :=
  is_Some (ct_since c) ∧ (cw_lower_bound w ≤ cd_seq d)%Z ∧
  told_c l d c (cw_lower_bound w).

Lemma replace_controller_ok d cs l p id c' d' :
  cluster_ok (MkCluster d cs l p) → same_log d d' →
  (∀ c, cs !! id = Some c → follows l d c c') →
  NoDup (cw_controller_id <$> cd_witness d') → (∀ x, witnessed x d → witnessed x d') →
  (∀ w, w ∈ cd_witness d' → w ∈ cd_witness d ∨ (cw_controller_id w = id ∧ row_ok l d' c' w)) →
  controller_ok l p d' id c' → cluster_ok (MkCluster d' (<[id := c']> cs) l p).
Proof.
  intros [Hl Hnd Hw Hc] Hsame Hfollow Hnd' Hmono Hrows Hc'. simpl in *.
  assert (extends l l d d') as He by (apply extends_refl; apply Hsame).
  split; simpl; [by eapply logged_ok_same|done|..].
  - intros w [Hin|[<- (H1 & H2 & H3)]]%Hrows.
    2: { exists c'. simpl. by rewrite lookup_insert_eq. }
    destruct (Hw w Hin) as (c & Hlk & Hs & Hle & Ht). simpl in *. unfold witness_ok. simpl.
    pose proof (sl_seq _ _ Hsame) as Eseq.
    destruct (decide (cw_controller_id w = id)) as [E|Hne].
    + subst id. destruct (Hfollow c Hlk Hs) as [Hf1 Hf2]. exists c'. rewrite lookup_insert_eq, Eseq.
      split_and!; [done..|]. eapply told_by_extends; [exact He|done|]. by apply Hf2.
    + exists c. rewrite lookup_insert_ne, Eseq by done. split_and!; [done..|]. by eapply told_by_extends.
  - intros id' x [[<- <-]|[Hne Hlk]]%lookup_insert_Some; [done|].
    apply (controller_ok_extends l l p d d'); [done|apply Hl|apply Hmono|auto].
Qed.

(** Statements on the witness table. *)
Lemma create_witness_same id now d : same_log d (create_witness id now d).
Proof. unfold create_witness. by case_decide. Qed.
Lemma update_witness_same id v now d : same_log d (update_witness id v now d).2.
Proof. done. Qed.

Lemma update_witness_ids id v now d :
  cw_controller_id <$> cd_witness (update_witness id v now d).2 = cw_controller_id <$> cd_witness d.
Proof.
  simpl. rewrite <- list_fmap_compose. apply list_fmap_ext. intros i r _. simpl. unfold update_row.
  by case_decide.
Qed.

Lemma boot_ok d cs l p id :
  cluster_ok (MkCluster d cs l p) →
  cluster_ok (MkCluster d (<[id := match cs !! id with
      | Some c => MkController (NewStream id) PtStart [] (ct_past c ++ ct_terms c) (ct_since c) (cd_seq d)
      | None => MkController (NewStream id) PtStart [] [] None (cd_seq d)
      end]> cs) l p).
Proof.
  intros Hk. pose proof Hk as [Hl Hnd Hw Hc]. simpl in *.
  eapply replace_controller_ok; [exact Hk|done| |done|done|by left|].
  - intros c Hlk. rewrite Hlk. intros Hs. split; [done|]. intros b Hb [Ht _]. split; simpl; [by rewrite app_nil_r|].
    intros s' r name Hs' _ Hid. simpl in Hs'. destruct (ct_since c); [|done]. injection Hs' as <-. lia.
  - assert (∀ past since, (∀ e, e ∈ concat past → real l d e) → told_to l d past since p →
      (∀ s, since = Some s → witnessed id d ∧ (s ≤ p)%Z) →
      controller_ok l p d id (MkController (NewStream id) PtStart [] past since (cd_seq d))) as Hnew.
    { intros past since Hreal Htold Hwit. destruct Hl as [_ _ Hids _ _ ?].
      split; simpl; rewrite ?app_nil_r; try done; [|constructor|by intros e ?%elem_of_nil|..].
      - split; simpl; [by right| |change (upperBound (NewStream id)) with (-1)%Z; lia].
        intros v Hv. exfalso. repeat (apply elem_of_cons in Hv as [?|Hv]; [done|]). by apply elem_of_nil in Hv.
      - apply told_by_none. intros s' r _ Hr. change (upperBound (NewStream id)) with (-1)%Z.
        specialize (Hids r Hr). lia.
      - split; simpl; [by rewrite app_nil_r|]. intros s' r name Hs' _ Hid. destruct since; [|done].
        injection Hs' as <-. lia. }
    destruct (cs !! id) as [c|] eqn:Hlk; [|apply Hnew; [by intros e ?%elem_of_nil|by intros s'|done]].
    destruct (Hc id c Hlk) as [_ _ _ _ ? _ [? _] _ ?]. by apply Hnew.
Qed.

(** What a step of the loop changes. *)
Definition idle (p : stream_point) : Prop :=
  match p with PtStart | PtCreate | PtSend _ _ _ | PtTerm _ _ _ => False | _ => True end.
Definition starting (p : stream_point) : Prop := p = PtStart ∨ p = PtCreate.

Inductive stream_change (s : Stream) (d : change_db) :
    stream_point → stream_event → stream_point → Stream → change_db → Prop :=
| change_start p ev p' d' :
    starting p → idle p' ∨ p' = PtCreate → (d' = d ∨ ∃ now, d' = create_witness (st_id s) now d) →
    stream_change s d p ev p' s d'
| change_idle p ev p' :
    idle p' → terms_after p ev [] = [] → stream_change s d p ev p' s d
| change_taken n changes v ev :
    ev = EvTaken → stream_change s d (PtSend n changes v) ev (PtTerm n changes v) s d
| change_watermark p ev p' s' d' :
    idle p → idle p' → (s' = s ∨ popped s s') →
    (d' = d ∨ ∃ v now, Some v ∈ st_watermarks s ∧ d' = (update_witness (st_id s) v now d).2) →
    stream_change s d p ev p' s' d'
| change_read p ev n m changes :
    idle p → changes = take m (selectQuery (upperBound s) d) → changes ≠ [] →
    stream_change s d p ev (PtSend n changes (term_bounds changes)) s d
| change_done n changes v e p' :
    idle p' → stream_change s d (PtTerm n changes v) (EvDone (Some e)) p' (recordTermView v s) d.

Lemma loop_read_cases s d n r changes :
  (∀ a, r = Some (Ok a) → ∃ m, changes = take m (selectQuery (upperBound s) d)) →
  idle (loop_read n r changes) ∨
  (loop_read n r changes = PtSend n changes (term_bounds changes) ∧ changes ≠ [] ∧
   ∃ m, changes = take m (selectQuery (upperBound s) d)).
Proof.
  unfold loop_read. intros H. destruct r as [[u|e]|]; [|left; by case_decide|by left].
  destruct changes as [|c cs] eqn:E; [by left|]. rewrite <- E in *.
  case_decide; [by left|]. right. split_and!; [done|by rewrite E|by apply (H u)].
Qed.

Lemma create_change p ev y now s d r u d' :
  starting p → createWatermark GaveUp y now s d = (r, u, d') → stream_change s d p ev (loop_create r) s d'.
Proof.
  intros Hp E%createWatermark_cases. apply change_start; [done| |naive_solver].
  destruct r as [[]|]; [by left..|by right].
Qed.

Lemma watermark_change p ev y now n s d r s' d' :
  length (st_watermarks s) ≤ 10 → idle p → updateWatermark GaveUp y now s d = (r, s', d') →
  stream_change s d p ev (loop_watermark n r) s' d'.
Proof.
  intros Hlen Hp [Hs Hd]%updateWatermark_cases; [|done]. apply change_watermark; [done| |done|naive_solver].
  destruct r as [[]|]; simpl; by try case_decide.
Qed.

Lemma read_change p y n s d r changes d' :
  idle p → readChanges GaveUp y s d = (r, changes, d') →
  stream_change s d p (EvRead y) (loop_read n r changes) s d'.
Proof.
  intros Hp [-> Hr]%readChanges_cases.
  destruct (loop_read_cases s d n r changes Hr) as [Hi|(-> & ? & m & ?)].
  - apply change_idle; [done|]. by destruct p.
  - by apply (change_read s d _ _ n m).
Qed.

Lemma loop_step_change ev p s d p' s' d' :
  length (st_watermarks s) ≤ 10 → loop_step GaveUp ev p s d = Some (p', s', d') →
  stream_change s d p ev p' s' d'.
Proof.
  intros Hlen H. destruct p as [| |n|n|n|n|n|n ch v|n ch v|r],
    ev as [[u|e] y now|y now| |created|again|y now|y| | | |[empty|]];
    simpl in H; try done; try (by simplify_eq; apply change_idle).
  - destruct (createWatermark GaveUp y now s d) as [[r ?] d1] eqn:E. injection H as <- <- <-.
    eapply create_change; [by left|done].
  - destruct (createWatermark GaveUp y now s d) as [[r ?] d1] eqn:E. injection H as <- <- <-.
    eapply create_change; [by right|done].
  - destruct created; simplify_eq; by apply change_idle.
  - destruct again; simplify_eq; by apply change_idle.
  - destruct (updateWatermark GaveUp y now s d) as [[r s1] d1] eqn:E. injection H as <- <- <-.
    by eapply watermark_change.
  - destruct (readChanges GaveUp y s d) as [[r changes] d1] eqn:E. injection H as <- <- <-.
    by eapply read_change.
  - destruct (updateWatermark GaveUp y now s d) as [[r s1] d1] eqn:E. injection H as <- <- <-.
    by eapply watermark_change.
  - destruct (readChanges GaveUp y s d) as [[r changes] d1] eqn:E. injection H as <- <- <-.
    by eapply read_change.
  - destruct created; simplify_eq; by apply change_idle.
  - simplify_eq. by apply change_taken.
  - simplify_eq. apply change_done. by destruct empty.
Qed.

Definition since_after (id : string) (d' : change_db) (p : Z) (since : option Z) : option Z :=
  match since with
  | Some n => Some n
  | None => if decide (id ∈ cw_controller_id <$> cd_witness d') then Some p else None
  end.

Lemma since_unchanged d cs l p id c d' :
  cluster_ok (MkCluster d cs l p) → cs !! id = Some c →
  cw_controller_id <$> cd_witness d' = cw_controller_id <$> cd_witness d →
  since_after id d' p (ct_since c) = ct_since c.
Proof.
  intros [_ _ Hw _] Hlk E. unfold since_after. destruct (ct_since c) eqn:Es; [done|]. rewrite E.
  case_decide as Hin; [|done]. exfalso. apply list_elem_of_fmap in Hin as (w & -> & Hin).
  destruct (Hw w Hin) as (c' & Hlk' & [? Hs] & _). simpl in *. congruence.
Qed.

(** A step that leaves the tables alone. *)
Lemma keep_tables_ok d cs l p id c c' :
  cluster_ok (MkCluster d cs l p) → cs !! id = Some c → follows l d c c' → controller_ok l p d id c' →
  cluster_ok (MkCluster d (<[id := c']> cs) l p).
Proof.
  intros Hk Hlk Hf Hc'. eapply replace_controller_ok; [exact Hk|done| |apply Hk|done|by left|done].
  intros c0 Hlk'. by simplify_eq.
Qed.

Lemma start_ok d cs l p id c p' now :
  cluster_ok (MkCluster d cs l p) → cs !! id = Some c → starting (ct_point c) → idle p' ∨ p' = PtCreate →
  let d' := create_witness (st_id (ct_stream c)) now d in
  cluster_ok (MkCluster d' (<[id := MkController (ct_stream c) p' (ct_terms c) (ct_past c)
    (since_after id d' p (ct_since c)) (ct_boot c)]> cs) l p).
Proof.
  intros Hk Hlk Hp Hi. pose proof Hk as [Hl Hnd Hw Hc]. simpl in *.
  pose proof (Hc id c Hlk) as [H1 H2 H3 H4 H5 H6 H7 H8 H9].
  assert (upperBound (ct_stream c) = (-1)%Z ∧ ct_terms c = []) as [Hu Ht].
  { unfold point_ok in H8. destruct Hp as [E|E]; by rewrite E in H8. }
  rewrite H1. set (d' := create_witness id now d).
  pose proof (create_witness_same id now d : same_log d d') as Hsame.
  assert (extends l l d d') as He by (apply extends_refl; apply Hsame).
  assert (∀ since, (∀ b, b = p ∨ b = (-1)%Z → told_by l d (ct_past c) (ct_terms c) since (ct_boot c) b) →
    (∀ s, since = Some s → witnessed id d' ∧ (s ≤ p)%Z) →
    controller_ok l p d' id (MkController (ct_stream c) p' (ct_terms c) (ct_past c) since (ct_boot c))) as Hnew.
  { intros since Hsince Hin. pose proof (lg_pruned _ _ _ Hl). split; simpl; try done.
    - by rewrite (sl_seq _ _ Hsame).
    - intros e ?. eapply real_extends; [done|auto].
    - rewrite Hu. eapply told_by_extends; [done|pose proof (lg_pruned _ _ _ Hl); lia|auto].
    - eapply told_by_extends; [done|lia|auto].
    - unfold point_ok. simpl. destruct Hi as [Hi| ->]; [by destruct p'|done]. }
  unfold d', create_witness in *. case_decide as Hin.
  - rewrite (since_unchanged d cs l p id c d) by done. eapply keep_tables_ok; [exact Hk|exact Hlk|by intros ?|].
    apply Hnew; [|done]. intros b [->| ->]; [done|by rewrite <- Hu].
  - assert (ct_since c = None) as Es by (destruct (ct_since c); [destruct Hin; by eapply H9|done]).
    assert (witnessed id (set_witness (cd_witness d ++ [MkWitnessRow id (-1) (-1) now]) d)) as Hwit.
    { unfold witnessed. simpl. rewrite fmap_app. apply elem_of_snoc. by right. }
    unfold since_after. rewrite Es, decide_True by done.
    assert (∀ b, b = p ∨ b = (-1)%Z → told_by l d (ct_past c) (ct_terms c) (Some p) (ct_boot c) b) as Htold.
    { intros b Hb. apply told_by_none. intros s' r [= <-] Hr. pose proof (lg_ids _ _ _ Hl r Hr). lia. }
    eapply replace_controller_ok; [exact Hk|done|..].
    + intros c0 Hlk'. simplify_eq. unfold follows. rewrite Es. by intros [? ?].
    + simpl. rewrite fmap_app. apply NoDup_app. split_and!; [done| |apply NoDup_singleton].
      intros x Hx E%list_elem_of_singleton. by subst.
    + intros x. unfold witnessed. simpl. rewrite fmap_app, elem_of_app. by left.
    + intros w [Hw'| ->]%elem_of_snoc; [by left|right]. split; [done|]. split_and!; [done|simpl|].
      * pose proof (lg_pruned _ _ _ Hl). simpl. lia.
      * simpl. eapply told_by_extends; [exact He|pose proof (lg_pruned _ _ _ Hl); lia|]. apply Htold. by right.
    + apply Hnew; [done|]. intros s [= <-]. split; [done|lia].
Qed.

(** Another point with the same stream. *)
Lemma move_ok l p d id c pt :
  controller_ok l p d id c →
  point_ok l d (MkController (ct_stream c) pt (ct_terms c) (ct_past c) (ct_since c) (ct_boot c)) →
  controller_ok l p d id (MkController (ct_stream c) pt (ct_terms c) (ct_past c) (ct_since c) (ct_boot c)).
Proof. by intros [] Hp. Qed.

Lemma watermark_ok d cs l p id c p' s' d' :
  cluster_ok (MkCluster d cs l p) → cs !! id = Some c → idle p' →
  (s' = ct_stream c ∨ popped (ct_stream c) s') →
  (d' = d ∨ ∃ v now, Some v ∈ st_watermarks (ct_stream c) ∧
     d' = (update_witness (st_id (ct_stream c)) v now d).2) →
  cluster_ok (MkCluster d' (<[id := MkController s' p' (ct_terms c) (ct_past c)
    (since_after id d' p (ct_since c)) (ct_boot c)]> cs) l p).
Proof.
  intros Hk Hlk Hi Hs Hd. pose proof Hk as [Hl Hnd Hw Hc]. simpl in *.
  pose proof (Hc id c Hlk) as [H1 H2 H3 H4 H5 H6 H7 H8 H9].
  assert (upperBound s' = upperBound (ct_stream c) ∧ stream_ok (cd_seq d) s' ∧ st_id s' = id) as (Eu & Hso & Eid).
  { destruct Hs as [->|Hpop]; [done|]. destruct (popped_spec _ _ _ H2 Hpop) as (? & ? & E). by rewrite E. }
  assert (cw_controller_id <$> cd_witness d' = cw_controller_id <$> cd_witness d) as Eids.
  { destruct Hd as [->|(v & now & _ & ->)]; [done|]. apply update_witness_ids. }
  assert (same_log d d') as Hsame by (destruct Hd as [->|(v & now & _ & ->)]; done).
  rewrite (since_unchanged d cs l p id c d') by done.
  assert (extends l l d d') as He by (apply extends_refl; apply Hsame).
  eapply replace_controller_ok; [exact Hk|done|..].
  - intros c0 Hlk'. simplify_eq. by intros ?.
  - by rewrite Eids.
  - intros x. unfold witnessed. by rewrite Eids.
  - destruct Hd as [->|(v & now & Hv & ->)]; [by left|]. intros w Hin. simpl in Hin.
    apply list_elem_of_fmap in Hin as (w0 & -> & Hin). unfold update_row. case_decide as Hid; [right|by left].
    split; [simpl; congruence|]. pose proof (so_views _ _ H2 v Hv). pose proof (so_bound _ _ H2).
    assert (is_Some (ct_since c)) as Hsome.
    { destruct (Hw w0 Hin) as (c' & Hlk' & ? & _). simpl in *. rewrite Hid, H1 in Hlk'. by simplify_eq. }
    split_and!; [done|simpl; lia|]. simpl. eapply told_by_extends; [done|simpl; lia|].
    eapply told_by_le; [|exact H6]. lia.
  - assert (controller_ok l p d' id (MkController (ct_stream c) p' (ct_terms c) (ct_past c) (ct_since c) (ct_boot c)))
      as [G1 G2 G3 G4 G5 G6 G7 G8 G9].
    { eapply controller_ok_extends; [exact He|apply Hl| |].
      - unfold witnessed. by rewrite Eids.
      - apply move_ok; [by apply Hc|]. unfold point_ok. simpl. by destruct p'. }
    simpl in *. split; simpl; rewrite ?Eu; try done.
    + by rewrite (sl_seq _ _ Hsame).
    + unfold point_ok. simpl. by destruct p'.
Qed.

Lemma term_done_ok l p d id c n changes v p' :
  controller_ok l p d id c → ct_point c = PtTerm n changes v → idle p' →
  controller_ok l p d id (MkController (recordTermView v (ct_stream c)) p' (ct_terms c ++ [changes])
    (ct_past c) (ct_since c) (ct_boot c)).
Proof.
  intros [H1 H2 H3 H4 H5 H6 H7 H8 H9] Hp Hi. unfold point_ok in H8. rewrite Hp in H8.
  destruct H8 as [T1 T2 (T3 & T4 & T5) T6 T7].
  destruct (recordTermView_spec v (ct_stream c) (cd_seq d) H2) as (Eu & Hso & Eid); [done|done|].
  assert (∀ e, e ∈ concat (ct_past c ++ ct_terms c ++ [changes]) ↔
    e ∈ concat (ct_past c ++ ct_terms c) ∨ e ∈ changes) as Hin.
  { intros e. rewrite (assoc_L (++)), concat_app. simpl. rewrite app_nil_r. apply elem_of_app. }
  split; simpl; rewrite ?Eu, ?Eid; try done.
  - rewrite concat_app. simpl. rewrite app_nil_r. clear -H3 H4 T1 T2.
    induction H3 as [|x m _ IH Hx]; [done|]. simpl. constructor.
    + apply IH. intros e ?. apply H4. by right.
    + apply Forall_app. split; [done|]. apply Forall_forall. intros e He. specialize (H4 x ltac:(by left)).
      specialize (T2 e He). unfold event_lt. lia.
  - intros e. rewrite concat_app. simpl. rewrite app_nil_r. intros [He|He]%elem_of_app; [|by apply T2].
    specialize (H4 e He). lia.
  - intros e [He|He]%Hin; auto.
  - destruct H7. split; (eapply told_to_more; [|done]); intros t Ht; simpl; rewrite ?(assoc_L (++)); apply elem_of_app; by left.
  - unfold point_ok. simpl. by destruct p'.
Qed.

Lemma controller_step_ok d cs l p id ev c c' d' :
  cluster_ok (MkCluster d cs l p) → cs !! id = Some c →
  controller_step id ev p c d = Some (c', d') → cluster_ok (MkCluster d' (<[id := c']> cs) l p).
Proof.
  intros Hk Hlk H. pose proof (ck_controllers _ Hk id c Hlk) as Hc. simpl in Hc.
  unfold controller_step in H. apply bind_Some in H as ([[pt s'] d1] & Hstep & H). injection H as <- <-.
  fold (since_after id d1 p (ct_since c)).
  assert (length (st_watermarks (ct_stream c)) ≤ 10) as Hlen.
  { destruct (so_length _ _ (co_stream _ _ _ _ _ Hc)); lia. }
  apply loop_step_change in Hstep; [|done].
  pose proof (since_unchanged d cs l p id c d Hk Hlk eq_refl) as Es.
  inversion Hstep as [p0 ev' p' d2 Hp Hi Hd E1 E2|p0 ev' p' Hi Ht E1 E2|n ch v ev' Hev E1 E2
    |p0 ev' p' s2 d2 Hi Hi' Hs Hd E1 E2|p0 ev' n m ch Hi Ech Hne E1 E2|n ch v e p' Hi E1 E2]; subst.
  - assert (terms_after (ct_point c) ev (ct_terms c) = ct_terms c) as -> by by destruct Hp as [-> | ->].
    destruct Hd as [->|[now ->]]; [|by apply start_ok].
    rewrite Es. eapply keep_tables_ok; [exact Hk|exact Hlk|by intros ?|]. apply move_ok; [done|].
    pose proof (co_point _ _ _ _ _ Hc) as Hpt. unfold point_ok in *. simpl.
    destruct Hi as [Hi| ->]; [by destruct pt|]. destruct Hp as [E|E]; by rewrite E in Hpt.
  - assert (terms_after (ct_point c) ev (ct_terms c) = ct_terms c) as ->.
    { unfold terms_after in *. by repeat case_match. }
    rewrite Es. eapply keep_tables_ok; [exact Hk|exact Hlk|by intros ?|]. apply move_ok; [done|].
    unfold point_ok. simpl. by destruct pt.
  - rewrite Es. simpl. eapply keep_tables_ok; [exact Hk|exact Hlk|by intros ?|]. apply move_ok; [done|].
    pose proof (co_point _ _ _ _ _ Hc) as Hp. unfold point_ok in *. simpl. rewrite <- E1 in Hp. by destruct Hp.
  - assert (terms_after (ct_point c) ev (ct_terms c) = ct_terms c) as -> by by destruct (ct_point c).
    by eapply watermark_ok.
  - assert (terms_after (ct_point c) ev (ct_terms c) = ct_terms c) as -> by by destruct (ct_point c).
    rewrite Es. eapply keep_tables_ok; [exact Hk|exact Hlk|by intros ?|]. apply move_ok; [done|].
    unfold point_ok. simpl. by destruct (read_term_ok l p d1 id c m (ck_logged _ Hk) Hc Hne).
  - rewrite Es. simpl. eapply keep_tables_ok; [exact Hk|exact Hlk| |by eapply term_done_ok].
    intros ?. split; [done|]. intros b _ [? ?]. split; (eapply told_to_more; [|done]); intros t Ht; simpl;
      rewrite ?(assoc_L (++)); apply elem_of_app; by left.
Qed.

Lemma clustered_ok k : clustered k → cluster_ok k.
Proof.
  induction 1 as [|e [d cs l p] k' _ IH H].
  { split; simpl; try (by intros ? ?%elem_of_nil); [|apply NoDup_nil_2|by intros id c ?].
    split; [split|..]; simpl; try (by intros ? ?%elem_of_nil); try constructor; try done. }
  destruct e as [ns name|edit ns changed now|id|id ev|y now current vars]; simpl in H.
  - case_guard as Hg; [|done]. injection H as <-. destruct Hg. by apply namespace_ok.
  - destruct (insert_change_log edit ns changed now d) as [d'|] eqn:E; injection H as <-; [|done].
    by eapply log_change_ok.
  - injection H as <-. by apply boot_ok.
  - apply bind_Some in H as (c & Hlk & H). apply bind_Some in H as ([c' d'] & Hst & H). injection H as <-.
    by eapply controller_step_ok.
  - destruct (prune_attempt GaveUp y now current vars d) as [[r x] d'] eqn:E. injection H as <-.
    apply prune_attempt_cases in E as [->|(q & -> & Hq & Hq0)]; [|by apply prune_ok].
    destruct (last_gone_spec (cd_change_log d) (cd_change_log d) p) as (_ & _ & [->|(r' & ? & ? & _)]); done.
Qed.

(** ** The promises of the stream and the pruner *)

(** Up to where everything was told, a change was told of, or the last change of the
    same thing is in the log. *)
Lemma told_or_in_log l p d ts s b r name :
  logged_ok l p d → told_to l d ts (Some s) p → told_to l d ts (Some s) b →
  r ∈ l → named d r name → (s < cl_id r)%Z →
  told ts name r ∨ ∃ r', r' ∈ cd_change_log d ∧ same_thing r r' ∧ (b < cl_id r')%Z.
Proof.
  intros Hl Hp Hb Hr Hn Hid. destruct (latest_exists _ r Hr) as (r' & Hr' & Hsame & Hle).
  assert (named d r' name) as Hn' by (unfold named in *; by rewrite (proj1 Hsame)).
  destruct (decide (cl_id r' ≤ b)%Z).
  { left. eapply told_older; [|done..]. apply (Hb s r' name); [done|done|lia|done]. }
  destruct (decide (cl_id r' ≤ p)%Z).
  { left. eapply told_older; [|done..]. apply (Hp s r' name); [done|done|lia|done]. }
  right. exists r'. split_and!; [|done|lia]. rewrite (lg_kept _ _ _ Hl).
  apply list_elem_of_filter. split; [lia|apply Hr'].
Qed.

(** What the stream that runs was told of what was logged since it started. *)
Lemma running_told k id c s r name :
  cluster_ok k → cu_controllers k !! id = Some c → ct_since c = Some s → r ∈ cu_logged k →
  named (cu_db k) r name → (s < cl_id r)%Z → (ct_boot c < cl_id r)%Z →
  told (ct_terms c) name r ∨
  ∃ r', r' ∈ cd_change_log (cu_db k) ∧ same_thing r r' ∧ (upperBound (ct_stream c) < cl_id r')%Z.
Proof.
  intros Hk Hlk Hs Hr Hn Hid Hboot. pose proof (ck_controllers _ Hk id c Hlk) as Hc.
  destruct (co_told _ _ _ _ _ Hc) as [_ H1], (co_pruned _ _ _ _ _ Hc) as [_ H2]. rewrite Hs in H1, H2.
  eapply told_or_in_log; [apply Hk|exact H2|exact H1|done|done|lia].
Qed.

(** C8: no change is lost.  However the streams of the controllers are started, stopped
    and restarted, whatever becomes of their transactions, and whenever the log is
    pruned: of a change that was logged since the watermark of a controller was created
    or was in the log then, an event of a term that was completed for the controller
    told, or an event for a newer change of the same thing did, or the last change of
    that thing is in the log after the stream's upper bound, to be read next.  For a
    change that was logged since the stream started, that was a term of this
    stream.  The terms of one stream tell of their changes in the order of the log,
    each at most once, and of nothing that was not logged. *)
Theorem no_change_lost k id c :
  clustered k → cu_controllers k !! id = Some c →
  (∀ s r name, ct_since c = Some s → r ∈ cu_logged k → named (cu_db k) r name →
     (s < cl_id r)%Z →
     told (if decide (ct_boot c < cl_id r)%Z then ct_terms c else all_terms c) name r ∨
     ∃ r', r' ∈ cd_change_log (cu_db k) ∧ same_thing r r' ∧ (upperBound (ct_stream c) < cl_id r')%Z) ∧
  StronglySorted event_lt (concat (ct_terms c)) ∧
  (∀ e, e ∈ concat (all_terms c) → real (cu_logged k) (cu_db k) e).
Proof.
  intros Hk%clustered_ok Hlk. pose proof (ck_controllers _ Hk id c Hlk) as Hc. split_and!; [|apply Hc|apply Hc].
  intros s r name Hs Hr Hn Hid. case_decide; [eapply running_told; [done..|lia|done]|].
  destruct (co_told _ _ _ _ _ Hc) as [H1 _], (co_pruned _ _ _ _ _ Hc) as [H2 _]. rewrite Hs in H1, H2.
  eapply told_or_in_log; [apply Hk|exact H2|exact H1|done|done|lia].
Qed.

(** C10: the pruner deletes only what was told.  Of a change that an attempt of the
    pruner deletes from the log, every controller that has a watermark was told by a term
    that was completed for it, or a newer change of the same thing is after its
    watermark and still in the log. *)
Theorem pruner_keeps_untold k y now current vars k' r name w :
  clustered k → cluster_step (CvPrune y now current vars) k = Some k' →
  r ∈ cd_change_log (cu_db k) → r ∉ cd_change_log (cu_db k') → named (cu_db k) r name →
  w ∈ cd_witness (cu_db k) →
  ∃ c, cu_controllers k !! cw_controller_id w = Some c ∧
    (told (all_terms c) name r ∨
     ∃ r', r' ∈ cd_change_log (cu_db k') ∧ same_thing r r' ∧ (cw_lower_bound w < cl_id r')%Z).
Proof.
  intros Hk%clustered_ok H Hr Hgone Hn Hw. destruct (ck_witness _ Hk w Hw) as (c & Hlk & [s Hs] & _ & [Ht _]).
  exists c. split; [done|].
  assert (∃ q, cd_change_log (cu_db k') = filter (λ r, q < cl_id r)%Z (cd_change_log (cu_db k)) ∧
    (q ≤ cw_lower_bound w)%Z) as (q & Ek & Hq).
  { destruct k as [d cs l p]. simpl in H. destruct (prune_attempt GaveUp y now current vars d) as [[x z] d'] eqn:E.
    injection H as <-. simpl in *. apply prune_attempt_cases in E as [->|(q & -> & Hq & _)]; [done|].
    exists q. auto. }
  pose proof (ck_logged _ Hk) as [_ _ _ Hkept _ _].
  assert (r ∈ cu_logged k ∧ (cu_pruned k < cl_id r)%Z) as [Hlg Hp].
  { rewrite Hkept in Hr. by apply list_elem_of_filter in Hr as [? ?]. }
  destruct (decide (s < cl_id r)%Z) as [Hid|Hid].
  - rewrite Hs in Ht. destruct (co_pruned _ _ _ _ _ (ck_controllers _ Hk _ c Hlk)) as [Hpr _]. rewrite Hs in Hpr.
    destruct (told_or_in_log _ _ _ _ s _ r name (ck_logged _ Hk) Hpr Ht Hlg Hn Hid) as [?|(r' & Hr' & ? & ?)]; [by left|right].
    exists r'. split_and!; [|done..]. rewrite Ek. apply list_elem_of_filter. split; [lia|done].
  - destruct (co_witness _ _ _ _ _ (ck_controllers _ Hk _ c Hlk) s Hs). lia.
Qed.

(** An attempt that goes well. *)
Definition smooth : txn_try := MkTry (AtRuns NoTrouble Committed) false.

Lemma smooth_read s d : readChanges GaveUp smooth s d = (Some (Ok ()), selectQuery (upperBound s) d, d).
Proof. done. Qed.

Lemma smooth_send n s d :
  log_ok d → (-1 ≤ upperBound s)%Z → (cd_seq d < MaxInt64)%Z → (∃ r, r ∈ cd_change_log d ∧ (upperBound s < cl_id r)%Z) →
  let changes := selectQuery (upperBound s) d in
  loop_read n (Some (Ok ())) changes = PtSend n changes (term_bounds changes) ∧
  (∀ r, r ∈ cd_change_log d → (cl_id r ≤ upperBound s)%Z ∨ (cl_id r ≤ tv_upper (term_bounds changes))%Z) ∧
  (upperBound s < tv_upper (term_bounds changes))%Z.
Proof.
  intros Hd Hu Hseq (r0 & Hr0 & Hid0) changes.
  assert (∀ r, r ∈ cd_change_log d → (upperBound s < cl_id r)%Z →
    ∃ e, e ∈ changes ∧ (cl_id r ≤ ce_id e ≤ cd_seq d)%Z) as Hev.
  { intros r Hr Hid. destruct (lo_spaces d Hd r Hr) as [name Hn].
    destruct (selectQuery_tells (upperBound s) d r name Hd Hr Hid Hn) as (e & He & _ & _ & Hle).
    exists e. split; [done|]. destruct (selectQuery_sound _ _ _ Hd He) as (r' & Hr' & _ & _ & E).
    assert (ce_id e = cl_id r') as Eid by by rewrite E. pose proof (lo_ids d Hd r' Hr'). lia. }
  destruct (term_bounds_spec changes) as (Hb & _ & _).
  destruct (Hev r0 Hr0 Hid0) as (e0 & He0 & Hle0). pose proof (Hb e0 He0). split_and!.
  - unfold loop_read. destruct changes as [|c cs] eqn:E; [by apply elem_of_nil in He0|]. rewrite <- E in *.
    rewrite decide_False; [done|]. lia.
  - intros r Hr. destruct (decide (cl_id r ≤ upperBound s)%Z) as [?|Hid]; [by left|right].
    destruct (Hev r Hr ltac:(lia)) as (e & He & Hle). specialize (Hb e He). lia.
  - lia.
Qed.

End cluster.
