(* ===== verification/Multiplexer.v ===== *)
(** * The event multiplexer

    internal/changestream/eventmultiplexer: the worker that takes the terms of a change
    stream and hands each subscription the changes it asked for, with the options of
    core/changestream/subscription.go by which they ask.

    [mux_turn] is a turn of the loop, from one select to the next.  A pointer to a
    subscription is its id, and nil is [None]; [sb_changes] is what was received from
    the channel of a subscription.  What consumers, the clock and the catacomb do
    comes with the events: [delivery] says how the dispatch to a subscription ended. *)

From S2P Require Import Prelude ChangeLog.

(** ** Options *)

Record SubscriptionOption : Type := MkSubscriptionOption {
  op_namespace : string;
  op_changeMask : Z;
  op_filter : changeEvent → bool;
}.

Definition Namespace (namespace : string) (changeMask : Z) : SubscriptionOption :=
  MkSubscriptionOption namespace changeMask (λ _, true).
Definition FilteredNamespace (namespace : string) (changeMask : Z) (f : changeEvent → bool) :
    SubscriptionOption :=
  MkSubscriptionOption namespace changeMask f.

(** ** State *)

Abbreviation ErrUnsubscribing := (ErrConst "unsubscribing during dispatching").
Abbreviation DeadlineExceeded := (ErrConst "context deadline exceeded").
Abbreviation mux_ErrDying := (ErrConst "tomb: dying").

Record eventFilter : Type := MkEventFilter {
  ef_subscriptionID : Z;
  ef_changeMask : Z;
  ef_filter : changeEvent → bool;
}.

Record subscription : Type := MkSubscription {
  sb_topics : gset string;
  sb_dying : bool;
  sb_changes : list (list changeEvent);
}.

Record EventMultiplexer : Type := MkEventMultiplexer {
  em_subscriptions : gmap Z subscription;
  em_subscriptionsByNS : gmap string (list eventFilter);
  em_subscriptionsAll : gset Z;
  em_subscriptionsCount : Z;
  em_dispatchErrorCount : Z;
}.

Definition NewEventMultiplexer : EventMultiplexer := MkEventMultiplexer ∅ ∅ ∅ 0 0.

Definition set_subscriptions (s : gmap Z subscription) (m : EventMultiplexer) : EventMultiplexer :=
  MkEventMultiplexer s (em_subscriptionsByNS m) (em_subscriptionsAll m) (em_subscriptionsCount m)
    (em_dispatchErrorCount m).
Definition set_subscriptionsByNS (f : gmap string (list eventFilter)) (m : EventMultiplexer) :
    EventMultiplexer :=
  MkEventMultiplexer (em_subscriptions m) f (em_subscriptionsAll m) (em_subscriptionsCount m)
    (em_dispatchErrorCount m).
Definition add_dispatchErrorCount (n : Z) (m : EventMultiplexer) : EventMultiplexer :=
  MkEventMultiplexer (em_subscriptions m) (em_subscriptionsByNS m) (em_subscriptionsAll m)
    (em_subscriptionsCount m) (Z.modulo (em_dispatchErrorCount m + n) (2 ^ 64)).

(** [newSubscription], with its topics. *)
Definition newSubscription (topics : gset string) : subscription := MkSubscription topics false [].
Definition kill_subscription (s : subscription) : subscription :=
  MkSubscription (sb_topics s) true (sb_changes s).

Section multiplexer.
Context {MO : MapOrder EventMultiplexer}.

(** ** Dispatching *)

(** A read of the map of subscriptions, where a missing one is nil. *)
Definition subscription_at (m : EventMultiplexer) (id : Z) : option Z :=
  match em_subscriptions m !! id with Some _ => Some id | None => None end.

Definition gather_filter (m : EventMultiplexer) (ch : changeEvent) (subs : gmap Z (option Z))
    (f : eventFilter) : gmap Z (option Z) :=
  let id := ef_subscriptionID f in
  match subs !! id with
  | Some _ => subs
  | None =>
      if decide (Z.land (ce_changeType ch) (ef_changeMask f) = 0%Z) then subs
      else if ef_filter f ch then <[id := subscription_at m id]> subs else subs
  end.
Definition gatherSubscriptions (m : EventMultiplexer) (ch : changeEvent) : list (option Z) :=
  let all := foldl (λ subs id, <[id := subscription_at m id]> subs) ∅
    (range m (elements (em_subscriptionsAll m))) in
  let subs := foldl (gather_filter m ch) all (default [] (em_subscriptionsByNS m !! ce_namespace ch)) in
  (range m (map_to_list subs)).*2.

(** [changeSet] of the loop. *)
Definition add_change (ch : changeEvent) (changeSet : gmap (option Z) (list changeEvent))
    (sub : option Z) : gmap (option Z) (list changeEvent) :=
  <[sub := default [] (changeSet !! sub) ++ [ch]]> changeSet.
Definition gather_changes (m : EventMultiplexer) (changes : list changeEvent) :
    gmap (option Z) (list changeEvent) :=
  foldl (λ changeSet ch, foldl (add_change ch) changeSet (gatherSubscriptions m ch)) ∅ changes.

(** The cases of the select in [dispatch]. *)
Inductive delivery : Type := DvReceived | DvUnsubscribed | DvTimeout.

Definition subscription_dispatch (o : delivery) (changes : list changeEvent) (s : subscription) :
    result () * subscription :=
  match o with
  | DvUnsubscribed => (Err ErrUnsubscribing, kill_subscription s)
  | DvTimeout => (Err DeadlineExceeded, kill_subscription s)
  | DvReceived => (Ok (), MkSubscription (sb_topics s) (sb_dying s) (sb_changes s ++ [changes]))
  end.

(** A goroutine of [dispatchSet]; the goroutines work on different subscriptions. *)
Definition dispatch_one (o : Z → delivery) (r : result EventMultiplexer)
    (x : option Z * list changeEvent) : result EventMultiplexer :=
  m ← r;
  match x.1 with
  | None => Err (GoPanic "nil subscription")
  | Some id =>
      match em_subscriptions m !! id with
      | None => Err (GoPanic "nil subscription")
      | Some s =>
          let (e, s') := subscription_dispatch (o id) x.2 s in
          let m' := set_subscriptions (<[id := s']> (em_subscriptions m)) m in
          Ok (match e with
              | Ok _ => m'
              | Err err => if decide (err = ErrUnsubscribing) then m' else add_dispatchErrorCount 1 m'
              end)
      end
  end.
Definition dispatchSet (o : Z → delivery) (changeSet : gmap (option Z) (list changeEvent))
    (m : EventMultiplexer) : result EventMultiplexer :=
  foldl (dispatch_one o) (Ok m) (range m (map_to_list changeSet)).

(** ** Subscriptions *)

Definition drop_filters (subID : Z) (byNS : gmap string (list eventFilter)) (topic : string) :
    gmap string (list eventFilter) :=
  match filter (λ f, ef_subscriptionID f ≠ subID) (default [] (byNS !! topic)) with
  | [] => delete topic byNS
  | updatedFilters => <[topic := updatedFilters]> byNS
  end.
Definition unsubscribe (subID : Z) (sub : subscription) (m : EventMultiplexer) : EventMultiplexer :=
  let byNS := foldl (drop_filters subID) (em_subscriptionsByNS m) (range m (elements (sb_topics sub))) in
  MkEventMultiplexer (delete subID (em_subscriptions m)) byNS (em_subscriptionsAll m ∖ {[subID]})
    (em_subscriptionsCount m) (em_dispatchErrorCount m).

Definition cleanup_one (m : EventMultiplexer) (x : Z * subscription) : EventMultiplexer :=
  if sb_dying x.2 then unsubscribe x.1 x.2 m else m.
Definition cleanupDeadSubscriptions (m : EventMultiplexer) : EventMultiplexer :=
  foldl cleanup_one m (range m (map_to_list (em_subscriptions m))).

Definition add_filter (id : Z) (byNS : gmap string (list eventFilter)) (opt : SubscriptionOption) :
    gmap string (list eventFilter) :=
  <[op_namespace opt := default [] (byNS !! op_namespace opt) ++
      [MkEventFilter id (op_changeMask opt) (op_filter opt)]]> byNS.
Definition register (id : Z) (opts : list SubscriptionOption) (m : EventMultiplexer) : EventMultiplexer :=
  MkEventMultiplexer
    (<[id := newSubscription (list_to_set (op_namespace <$> opts))]> (em_subscriptions m))
    (foldl (add_filter id) (em_subscriptionsByNS m) opts)
    (match opts with [] => {[id]} ∪ em_subscriptionsAll m | _ => em_subscriptionsAll m end)
    id (em_dispatchErrorCount m).

(** ** The loop *)

(** [MxKill] is a consumer killing a subscription; [MxTerm] comes with the deliveries
    and whether the stream takes the end of the term, rather than the multiplexer
    dying first; [MxSubscribe] with what adding the subscription to the catacomb
    returned, and whether the answer is taken. *)
Inductive mux_event : Type :=
| MxKill (id : Z)
| MxDying
| MxStreamDying
| MxTermsClosed
| MxTerm (changes : list changeEvent) (o : Z → delivery) (taken : bool)
| MxSubscribe (opts : list SubscriptionOption) (added : result ()) (answered : bool)
| MxReport.

(** What a turn tells others: the term is done, or aborted; the subscription that was
    made; the numbers of a report; the loop is over. *)
Inductive mux_reply : Type :=
| MrNone
| MrDone (empty : option bool)
| MrSubscription (r : result Z)
| MrReport (subs namespaces all errors : Z)
| MrOver (r : result ()).

Definition term_Done (empty taken : bool) : mux_reply := MrDone (if taken then Some empty else None).

Definition mux_handle (ev : mux_event) (m : EventMultiplexer) : result (mux_reply * EventMultiplexer) :=
  match ev with
  | MxKill id => Ok (MrNone, set_subscriptions (alter kill_subscription id (em_subscriptions m)) m)
  | MxDying | MxStreamDying => Ok (MrOver (Err mux_ErrDying), m)
  | MxTermsClosed => Ok (MrOver (Ok ()), m)
  | MxTerm changes o taken =>
      let changeSet := gather_changes m changes in
      if decide (changeSet = ∅) then Ok (term_Done true taken, m)
      else
        m' ← dispatchSet o changeSet m;
        Ok (term_Done false taken, m')
  | MxSubscribe opts added answered =>
      let subID := Z.modulo (em_subscriptionsCount m + 1) (2 ^ 64) in
      match added with
      | Err e =>
          let m' := MkEventMultiplexer (em_subscriptions m) (em_subscriptionsByNS m)
            (em_subscriptionsAll m) subID (em_dispatchErrorCount m) in
          if decide (e = mux_ErrDying) then Ok (MrOver (Err e), m')
          else if answered then Ok (MrSubscription (Err e), m') else Ok (MrOver (Err mux_ErrDying), m')
      | Ok _ =>
          let m' := register subID opts m in
          Ok (if answered then MrSubscription (Ok subID) else MrOver (Err mux_ErrDying), m')
      end
  | MxReport =>
      Ok (MrReport (Z.of_nat (size (em_subscriptions m))) (Z.of_nat (size (em_subscriptionsByNS m)))
            (Z.of_nat (size (em_subscriptionsAll m))) (em_dispatchErrorCount m), m)
  end.

(** What is deferred by the loop. *)
Definition mux_exit (m : EventMultiplexer) : EventMultiplexer :=
  MkEventMultiplexer ∅ ∅ ∅ (em_subscriptionsCount m) (em_dispatchErrorCount m).

(** A turn: killing a subscription is not one, and after the others the loop begins
    again by removing the subscriptions that are dying. *)
Definition mux_turn (ev : mux_event) (m : EventMultiplexer) : result (mux_reply * EventMultiplexer) :=
  '(r, m') ← mux_handle ev m;
  Ok (r, match ev, r with
         | MxKill _, _ => m'
         | _, MrOver _ => mux_exit m'
         | _, _ => cleanupDeadSubscriptions m'
         end).
End multiplexer.
