(* ===== verification/MultiplexerFacts.v ===== *)
(** * What the event multiplexer guarantees

    A subscription that is alive has received, in order and once each, exactly the
    changes it asked for of the terms since it was made; one that did not take its
    changes in time is dead.  No dispatch meets a subscription that is gone. *)

From S2P Require Import Prelude ChangeLog ChangeLogFacts Multiplexer.

(** ** What a subscription asks for *)

Definition asks_for (o : SubscriptionOption) (e : changeEvent) : bool :=
  bool_decide (op_namespace o = ce_namespace e) &&
  negb (bool_decide (Z.land (ce_changeType e) (op_changeMask o) = 0%Z)) && op_filter o e.

(** Without options it is everything. *)
Definition wanted (opts : list SubscriptionOption) (e : changeEvent) : bool :=
  match opts with [] => true | _ => existsb (λ o, asks_for o e) opts end.
Definition wanted_of (opts : list SubscriptionOption) (l : list changeEvent) : list changeEvent :=
  filter (λ e, wanted opts e = true) l.

Lemma wanted_of_app opts l l' : wanted_of opts (l ++ l') = wanted_of opts l ++ wanted_of opts l'.
Proof. apply filter_app. Qed.

Section facts.
Context {MO : MapOrder EventMultiplexer} {ML : MapOrderLaws EventMultiplexer}.

(** For every subscription that was made, its options and how many terms came before
    it; the terms that came. *)
Abbreviation made := (gmap Z (list SubscriptionOption * nat)).

Record subscription_ok (T : list (list changeEvent)) (opts : list SubscriptionOption) (n : nat)
    (s : subscription) : Prop := {
  sk_topics : sb_topics s = list_to_set (op_namespace <$> opts);
  sk_since : n ≤ length T;
  sk_changes : sb_dying s = false →
    concat (sb_changes s) = wanted_of opts (concat (drop n T)) ∧ [] ∉ sb_changes s;
}.

Definition filter_of (id : Z) (o : SubscriptionOption) : eventFilter :=
  MkEventFilter id (op_changeMask o) (op_filter o).

Record mux_ok (G : made) (T : list (list changeEvent)) (m : EventMultiplexer) : Prop := {
  mo_known id s : em_subscriptions m !! id = Some s →
    ∃ opts n, G !! id = Some (opts, n) ∧ subscription_ok T opts n s;
  mo_all id : id ∈ em_subscriptionsAll m ↔
    ∃ s n, em_subscriptions m !! id = Some s ∧ G !! id = Some ([], n);
  mo_filters ns f : f ∈ default [] (em_subscriptionsByNS m !! ns) ↔
    ∃ id s opts n o, em_subscriptions m !! id = Some s ∧ G !! id = Some (opts, n) ∧
      o ∈ opts ∧ op_namespace o = ns ∧ f = filter_of id o;
  mo_count id x : G !! id = Some x → (0 < id ≤ em_subscriptionsCount m)%Z;
  mo_width : (0 ≤ em_subscriptionsCount m < 2 ^ 64)%Z;
}.

(** ** Gathering *)

Lemma fold_all_lookup m ids (A : gmap Z (option Z)) id :
  foldl (λ subs id, <[id := subscription_at m id]> subs) A ids !! id =
  if decide (id ∈ ids) then Some (subscription_at m id) else A !! id.
Proof.
  revert A. induction ids as [|i ids IH]; intros A; simpl; [done|]. rewrite IH.
  destruct (decide (id ∈ ids)) as [Hin|Hin].
  - by rewrite decide_True by by right.
  - destruct (decide (id = i)) as [->|Hne].
    + rewrite lookup_insert_eq, decide_True by by left. done.
    + rewrite lookup_insert_ne, decide_False by (rewrite ?elem_of_cons; naive_solver). done.
Qed.

Definition passes_filter (ch : changeEvent) (f : eventFilter) : Prop :=
  Z.land (ce_changeType ch) (ef_changeMask f) ≠ 0%Z ∧ ef_filter f ch = true.

Lemma fold_filters_lookup m ch fs A :
  (∀ id p, A !! id = Some p → p = subscription_at m id) →
  let B := foldl (gather_filter m ch) A fs in
  (∀ id p, B !! id = Some p → p = subscription_at m id) ∧
  (∀ id, is_Some (B !! id) ↔ is_Some (A !! id) ∨ ∃ f, f ∈ fs ∧ ef_subscriptionID f = id ∧ passes_filter ch f).
Proof.
  revert A. induction fs as [|f fs IH]; intros A HA; simpl.
  { split; [done|]. intros id. split; [by left|]. intros [?|(f & ?%elem_of_nil & _)]; done. }
  set (A' := gather_filter m ch A f).
  assert ((∀ id p, A' !! id = Some p → p = subscription_at m id) ∧
    (∀ id, is_Some (A' !! id) ↔ is_Some (A !! id) ∨ (ef_subscriptionID f = id ∧ passes_filter ch f))) as [H1 H2].
  { unfold A', gather_filter, passes_filter. destruct (A !! ef_subscriptionID f) eqn:E.
    { split; [done|]. intros id. split; [by left|]. intros [?|[<- _]]; [done|by eexists]. }
    case_decide; [split; [done|naive_solver]|]. destruct (ef_filter f ch); [|split; [done|naive_solver]].
    split.
    - intros id p [[<- <-]|[_ Hp]]%lookup_insert_Some; [done|auto].
    - intros id. rewrite lookup_insert_is_Some'. naive_solver. }
  destruct (IH A' H1) as [H3 H4]. split; [done|]. intros id. rewrite H4, H2. setoid_rewrite elem_of_cons. naive_solver.
Qed.

Lemma wanted_spec opts e :
  wanted opts e = true ↔ opts = [] ∨ ∃ o, o ∈ opts ∧ op_namespace o = ce_namespace e ∧
    Z.land (ce_changeType e) (op_changeMask o) ≠ 0%Z ∧ op_filter o e = true.
Proof.
  assert (existsb (λ o, asks_for o e) opts = true ↔ ∃ o, o ∈ opts ∧ op_namespace o = ce_namespace e ∧
    Z.land (ce_changeType e) (op_changeMask o) ≠ 0%Z ∧ op_filter o e = true) as Hex.
  { rewrite existsb_exists. setoid_rewrite <- list_elem_of_In. unfold asks_for.
    setoid_rewrite andb_true_iff. setoid_rewrite andb_true_iff. setoid_rewrite negb_true_iff.
    setoid_rewrite bool_decide_eq_true. setoid_rewrite bool_decide_eq_false. naive_solver. }
  unfold wanted. destruct opts; [naive_solver|]. rewrite Hex. naive_solver.
Qed.

(** Those who want a change. *)
Definition wants (G : made) (m : EventMultiplexer) (e : changeEvent) (id : Z) : Prop :=
  ∃ s opts n, em_subscriptions m !! id = Some s ∧ G !! id = Some (opts, n) ∧ wanted opts e = true.

Lemma gather_spec G T m ch :
  mux_ok G T m →
  NoDup (gatherSubscriptions m ch) ∧
  ∀ p, p ∈ gatherSubscriptions m ch ↔ ∃ id, p = Some id ∧ wants G m ch id.
Proof.
  intros [Hk Ha Hf _ _]. unfold gatherSubscriptions.
  set (A := foldl _ ∅ (range m (elements _))). set (fs := default [] _).
  assert (∀ id, is_Some (A !! id) ↔ id ∈ em_subscriptionsAll m) as HA.
  { intros id. unfold A. rewrite fold_all_lookup. rewrite lookup_empty. case_decide as Hin.
    - split; [|by eexists]. intros _. rewrite range_perm in Hin. by apply elem_of_elements.
    - split; [by intros [? ?]|]. intros Hid. destruct Hin. rewrite range_perm. by apply elem_of_elements. }
  destruct (fold_filters_lookup m ch fs A) as [HB1 HB2].
  { intros id p. unfold A. rewrite fold_all_lookup, lookup_empty. case_decide; [by intros [= <-]|done]. }
  set (B := foldl (gather_filter m ch) A fs) in *.
  assert (∀ id, is_Some (B !! id) ↔ wants G m ch id) as Hwants.
  { intros id. rewrite HB2, HA, Ha. unfold fs, wants. setoid_rewrite Hf. setoid_rewrite wanted_spec. split.
    - intros [(s & n & Hs & HG)|(f & (id' & s & opts & n & o & Hs & HG & Ho & Hn & ->) & <- & Hm & Hp)].
      + exists s, [], n. eauto.
      + exists s, opts, n. split_and!; [done..|]. right. by exists o.
    - intros (s & opts & n & Hs & HG & [->|(o & Ho & Hn & Hm & Hp)]); [left; eauto|right].
      exists (filter_of id o). split; [by eexists id, s, opts, n, o|done]. }
  assert (∀ id p, B !! id = Some p → p = Some id) as Hval.
  { intros id p Hp. rewrite (HB1 id p Hp). unfold subscription_at.
    destruct (proj1 (Hwants id) ltac:(by eexists)) as (s & _ & _ & Hs & _). by rewrite Hs. }
  assert ((range m (map_to_list B)).*2 ≡ₚ Some <$> (map_to_list B).*1) as Hperm.
  { rewrite range_perm. rewrite <- list_fmap_compose. apply Permutation_refl'. apply list_fmap_ext.
    intros i [id p] Hin. simpl. apply Hval. apply elem_of_map_to_list. by eapply list_elem_of_lookup_2. }
  split.
  - rewrite Hperm. apply NoDup_fmap_2; [apply _|]. apply NoDup_fst_map_to_list.
  - intros p. rewrite Hperm, list_elem_of_fmap. split.
    + intros (id & -> & ([id' q] & -> & Hin%elem_of_map_to_list)%list_elem_of_fmap). exists id'. split; [done|].
      apply Hwants. by eexists.
    + intros (id & -> & [q Hq]%Hwants). exists id. split; [done|].
      apply list_elem_of_fmap. exists (id, q). split; [done|by apply elem_of_map_to_list].
Qed.

(** ** The set of changes *)

Lemma add_changes_lookup ch ps cs p :
  NoDup ps →
  foldl (add_change ch) cs ps !! p =
  if decide (p ∈ ps) then Some (default [] (cs !! p) ++ [ch]) else cs !! p.
Proof.
  intros Hnd. revert cs. induction Hnd as [|q ps Hq _ IH]; intros cs; simpl; [done|]. rewrite IH. unfold add_change.
  destruct (decide (p = q)) as [->|Hne].
  - rewrite decide_False, decide_True by first [done|by left]. by rewrite lookup_insert_eq.
  - rewrite lookup_insert_ne by done. assert (p ∈ q :: ps ↔ p ∈ ps) as Hiff by (rewrite elem_of_cons; naive_solver).
    destruct (decide (p ∈ ps)); [rewrite decide_True|rewrite decide_False]; by rewrite ?Hiff.
Qed.

(** What is gathered for a subscription: the changes it wants, if any. *)
Definition gathered (l : list changeEvent) : option (list changeEvent) :=
  match l with [] => None | _ => Some l end.

Lemma gathered_snoc l ch : gathered (l ++ [ch]) = Some (default [] (gathered l) ++ [ch]).
Proof. by destruct l. Qed.

Lemma gather_changes_lookup G T m changes p :
  mux_ok G T m →
  gather_changes m changes !! p =
  gathered (filter (λ ch, p ∈ gatherSubscriptions m ch) changes).
Proof.
  intros Hm. unfold gather_changes. induction changes as [|ch changes IH] using rev_ind; [done|].
  rewrite foldl_snoc, add_changes_lookup, IH by by eapply gather_spec. rewrite filter_app.
  rewrite filter_cons. case_decide; [by rewrite gathered_snoc|]. by rewrite app_nil_r.
Qed.

(** ... which is nothing for a subscription that is gone, and for nil. *)
Lemma gathered_for G T m changes id s opts n :
  mux_ok G T m → em_subscriptions m !! id = Some s → G !! id = Some (opts, n) →
  gather_changes m changes !! Some id = gathered (wanted_of opts changes).
Proof.
  intros Hm Hs HG. rewrite (gather_changes_lookup G T) by done. f_equal. unfold wanted_of.
  induction changes as [|ch changes IH]; [done|]. rewrite !filter_cons, IH.
  assert (Some id ∈ gatherSubscriptions m ch ↔ wanted opts ch = true) as Hiff.
  { rewrite (proj2 (gather_spec G T m ch Hm)). unfold wants. split.
    - intros (id' & [= <-] & (s' & opts' & n' & Hs' & HG' & Hw)). congruence.
    - intros Hw. exists id. split; [done|]. by eexists _, _, _. }
  destruct (decide (Some id ∈ gatherSubscriptions m ch)); [rewrite decide_True|rewrite decide_False]; by rewrite <- ?Hiff.
Qed.

Lemma gathered_known G T m changes p l :
  mux_ok G T m → gather_changes m changes !! p = Some l →
  ∃ id, p = Some id ∧ is_Some (em_subscriptions m !! id).
Proof.
  intros Hm H. rewrite (gather_changes_lookup G T) in H by done.
  destruct (filter _ changes) as [|ch l'] eqn:E; [done|].
  assert (ch ∈ filter (λ ch, p ∈ gatherSubscriptions m ch) changes) as Hin by (rewrite E; by left).
  apply list_elem_of_filter in Hin as [Hin _].
  apply (proj2 (gather_spec G T m ch Hm)) in Hin as (id & -> & (s & _ & _ & Hs & _)). eauto.
Qed.

(** ** Dispatching *)

Definition delivered (o : delivery) (changes : list changeEvent) (s : subscription) : subscription :=
  (subscription_dispatch o changes s).2.

(** The subscriptions after the dispatch of some sets. *)
Definition deliver_to (o : Z → delivery) (l : list (option Z * list changeEvent)) (id : Z)
    (s : subscription) : subscription :=
  match list_find (λ x, x.1 = Some id) l with
  | Some (_, x) => delivered (o id) x.2 s
  | None => s
  end.

Record same_tables (m m' : EventMultiplexer) : Prop := {
  ma_filters : em_subscriptionsByNS m' = em_subscriptionsByNS m;
  ma_all : em_subscriptionsAll m' = em_subscriptionsAll m;
  ma_count : em_subscriptionsCount m' = em_subscriptionsCount m;
}.

Lemma dispatch_one_ok o m id changes s :
  em_subscriptions m !! id = Some s →
  ∃ m', dispatch_one o (Ok m) (Some id, changes) = Ok m' ∧ same_tables m m' ∧
    em_subscriptions m' = <[id := delivered (o id) changes s]> (em_subscriptions m).
Proof.
  intros Hs. unfold dispatch_one, delivered. simpl. rewrite Hs.
  destruct (subscription_dispatch (o id) changes s) as [e s'].
  destruct e as [u|err]; [by eexists|]. case_decide; by eexists.
Qed.

Lemma dispatch_fold o l m :
  NoDup l.*1 → (∀ p x, (p, x) ∈ l → ∃ id, p = Some id ∧ is_Some (em_subscriptions m !! id)) →
  ∃ m', foldl (dispatch_one o) (Ok m) l = Ok m' ∧ same_tables m m' ∧
    ∀ id, em_subscriptions m' !! id = deliver_to o l id <$> em_subscriptions m !! id.
Proof.
  revert m. induction l as [|[p x] l IH]; intros m Hnd Hin; cbn [foldl].
  { exists m. split_and!; [done|done|]. intros id. by destruct (_ !! id). }
  rewrite fmap_cons in Hnd. apply NoDup_cons in Hnd as [Hp Hnd]. destruct (Hin p x) as (id & -> & [s Hs]); [by left|].
  destruct (dispatch_one_ok o m id x s Hs) as (m1 & -> & Ht & E1).
  destruct (IH m1) as (m2 & -> & Ht2 & E2); [done|..].
  { intros p' x' Hx. destruct (Hin p' x') as (id' & -> & Hs'); [by right|]. exists id'. split; [done|].
    rewrite E1. apply lookup_insert_is_Some'. by right. }
  exists m2. split_and!; [done| |].
  - destruct Ht, Ht2. split; congruence.
  - intros id'. rewrite E2, E1. unfold deliver_to. simpl. destruct (decide (id' = id)) as [->|Hne].
    + rewrite lookup_insert_eq, decide_True, Hs by done. simpl.
      assert (list_find (λ y, y.1 = Some id) l = None) as ->; [|done].
      apply list_find_None. apply Forall_forall. intros y Hy E. apply Hp, list_elem_of_fmap. by exists y.
    + rewrite lookup_insert_ne, decide_False by congruence. destruct (em_subscriptions m !! id'); [|done]. simpl.
      by destruct (list_find _ l) as [[]|].
Qed.

Lemma dispatchSet_ok o cs m :
  (∀ p x, cs !! p = Some x → ∃ id, p = Some id ∧ is_Some (em_subscriptions m !! id)) →
  ∃ m', dispatchSet o cs m = Ok m' ∧ same_tables m m' ∧
    ∀ id, em_subscriptions m' !! id =
      (match cs !! Some id with Some x => delivered (o id) x | None => λ s, s end) <$> em_subscriptions m !! id.
Proof.
  intros Hin. unfold dispatchSet.
  assert (range m (map_to_list cs) ≡ₚ map_to_list cs) as Hp by apply range_perm.
  destruct (dispatch_fold o (range m (map_to_list cs)) m) as (m' & E & Ht & Hs).
  - rewrite Hp. apply NoDup_fst_map_to_list.
  - intros p x. rewrite Hp. intros ?%elem_of_map_to_list. eauto.
  - exists m'. split_and!; [done|done|]. intros id. rewrite Hs. destruct (em_subscriptions m !! id) as [s|]; [|done].
    simpl. f_equal. unfold deliver_to. destruct (list_find _ _) as [[i [p x]]|] eqn:El.
    + apply list_find_Some in El as (Hl & Ep & _). simpl in Ep. subst p. apply list_elem_of_lookup_2 in Hl.
      rewrite Hp in Hl. apply elem_of_map_to_list in Hl. by rewrite Hl.
    + apply list_find_None in El. rewrite Forall_forall in El. destruct (cs !! Some id) as [x|] eqn:Ex; [|done].
      exfalso. apply (El (Some id, x)); [|done]. rewrite Hp. by apply elem_of_map_to_list.
Qed.

Lemma delivered_ok T opts n o changes s :
  subscription_ok T opts n s →
  subscription_ok (T ++ [changes]) opts n
    (match gathered (wanted_of opts changes) with Some x => delivered o x s | None => s end).
Proof.
  intros [Ht Hn Hc].
  assert (concat (drop n (T ++ [changes])) = concat (drop n T) ++ changes) as Ed.
  { rewrite drop_app_le, concat_app by done. simpl. by rewrite app_nil_r. }
  assert (n ≤ length (T ++ [changes])) as Hn' by (rewrite length_app; lia).
  destruct (wanted_of opts changes) as [|e l] eqn:Ew; simpl.
  - split; [done|done|]. intros Hd. destruct (Hc Hd) as [E ?]. split; [|done].
    by rewrite Ed, wanted_of_app, Ew, app_nil_r.
  - split; [by destruct o|done|]. destruct o; [|done..]. simpl. intros Hd. destruct (Hc Hd) as [E Hne]. split.
    + rewrite concat_app, E, Ed, wanted_of_app, Ew. simpl. by rewrite app_nil_r.
    + intros [?|?]%elem_of_snoc; done.
Qed.

(** The same subscriptions in other states. *)
Lemma mux_ok_same G T T' m m' :
  mux_ok G T m → same_tables m m' →
  (∀ id, is_Some (em_subscriptions m' !! id) ↔ is_Some (em_subscriptions m !! id)) →
  (∀ id s, em_subscriptions m' !! id = Some s → ∃ opts n, G !! id = Some (opts, n) ∧ subscription_ok T' opts n s) →
  mux_ok G T' m'.
Proof.
  intros [Hk Ha Hf Hc Hw] [E1 E2 E3] Hsame Hk'.
  split; rewrite ?E1, ?E2, ?E3; [done|intros id|intros ns f|done|done].
  - rewrite Ha. split; intros (s & n & Hid & HG).
    + destruct (proj2 (Hsame id)) as [s' ?]; [by eexists|]. eauto.
    + destruct (proj1 (Hsame id)) as [s' ?]; [by eexists|]. eauto.
  - rewrite Hf. split; intros (id & s & opts & n & op & Hid & HG & Hr).
    + destruct (proj2 (Hsame id)) as [s' ?]; [by eexists|]. by exists id, s', opts, n, op.
    + destruct (proj1 (Hsame id)) as [s' ?]; [by eexists|]. by exists id, s', opts, n, op.
Qed.

Lemma dispatched_ok G T m changes o m' :
  mux_ok G T m → same_tables m m' →
  (∀ id, em_subscriptions m' !! id =
     (match gather_changes m changes !! Some id with Some x => delivered (o id) x | None => λ s, s end) <$>
       em_subscriptions m !! id) →
  mux_ok G (T ++ [changes]) m'.
Proof.
  intros Hm Ht Hs. eapply mux_ok_same; [exact Hm|done|intros id; by rewrite Hs, fmap_is_Some|].
  intros id s' Hs'. rewrite Hs in Hs'. apply fmap_Some in Hs' as (s & Hs0 & ->).
  destruct (mo_known _ _ _ Hm id s Hs0) as (opts & n & HG & Hok). exists opts, n. split; [done|].
  rewrite (gathered_for G T m changes id s opts n Hm Hs0 HG).
  pose proof (delivered_ok T opts n (o id) changes s Hok). by destruct (gathered _).
Qed.

Lemma gathered_none G T m changes :
  mux_ok G T m → gather_changes m changes = ∅ ↔
  ∀ id s opts n, em_subscriptions m !! id = Some s → G !! id = Some (opts, n) → wanted_of opts changes = [].
Proof.
  intros Hm. split.
  - intros E id s opts n Hs HG. pose proof (gathered_for G T m changes id s opts n Hm Hs HG) as Hg.
    rewrite E, lookup_empty in Hg. by destruct (wanted_of opts changes).
  - intros H. apply map_empty. intros p. destruct (gather_changes m changes !! p) as [l|] eqn:El; [|done].
    destruct (gathered_known G T m changes p l Hm El) as (id & -> & [s Hs]).
    destruct (mo_known _ _ _ Hm id s Hs) as (opts & n & HG & _).
    by rewrite (gathered_for G T m changes id s opts n Hm Hs HG), (H id s opts n Hs HG) in El.
Qed.

(** A term, on every path. *)
Lemma term_handled G T m changes o taken :
  mux_ok G T m →
  ∃ m', mux_handle (MxTerm changes o taken) m =
      Ok (term_Done (bool_decide (gather_changes m changes = ∅)) taken, m') ∧
    mux_ok G (T ++ [changes]) m' ∧ same_tables m m' ∧
    ∀ id, em_subscriptions m' !! id =
      (match gather_changes m changes !! Some id with Some x => delivered (o id) x | None => λ s, s end) <$>
        em_subscriptions m !! id.
Proof.
  intros Hm. unfold mux_handle. case_decide as Hg.
  - exists m. rewrite bool_decide_true by done.
    assert (∀ id, em_subscriptions m !! id =
      (match gather_changes m changes !! Some id with Some x => delivered (o id) x | None => λ s, s end) <$>
        em_subscriptions m !! id) as Hs.
    { intros id. rewrite Hg, lookup_empty. by destruct (_ !! id). }
    split_and!; [done| |done|done]. by eapply dispatched_ok.
  - destruct (dispatchSet_ok o (gather_changes m changes) m) as (m' & E & Ht & Hs).
    { intros p x Hx. by eapply gathered_known. }
    exists m'. rewrite E, bool_decide_false by done. split_and!; [done| |done|done]. by eapply dispatched_ok.
Qed.

(** ** Subscribing and unsubscribing *)

Lemma drop_filters_spec subID byNS topic ns f :
  f ∈ default [] (drop_filters subID byNS topic !! ns) ↔
  f ∈ default [] (byNS !! ns) ∧ (ns = topic → ef_subscriptionID f ≠ subID).
Proof.
  unfold drop_filters. set (l := filter _ _).
  assert (∀ g, g ∈ l ↔ g ∈ default [] (byNS !! topic) ∧ ef_subscriptionID g ≠ subID) as Hl.
  { intros g. unfold l. rewrite list_elem_of_filter. naive_solver. }
  destruct (decide (ns = topic)) as [->|Hne].
  - transitivity (f ∈ l); [|rewrite Hl; naive_solver].
    destruct l; [by rewrite lookup_delete_eq|by rewrite lookup_insert_eq].
  - destruct l; [rewrite lookup_delete_ne by done|rewrite lookup_insert_ne by done]; naive_solver.
Qed.

Lemma drop_all_spec subID topics byNS ns f :
  f ∈ default [] (foldl (drop_filters subID) byNS topics !! ns) ↔
  f ∈ default [] (byNS !! ns) ∧ (ns ∈ topics → ef_subscriptionID f ≠ subID).
Proof.
  revert byNS. induction topics as [|t topics IH]; intros byNS; simpl.
  { split; [|by intros [? _]]. intros ?. split; [done|]. by intros ?%elem_of_nil. }
  rewrite IH, drop_filters_spec, elem_of_cons. naive_solver.
Qed.

Lemma unsubscribe_ok G T m id sub :
  mux_ok G T m → em_subscriptions m !! id = Some sub → mux_ok G T (unsubscribe id sub m).
Proof.
  intros [Hk Ha Hf Hc Hw] Hs. destruct (Hk id sub Hs) as (opts & n & HG & [Htop _ _]).
  split; simpl; [|intros id'|intros ns f|done|done].
  - intros id' s' [_ ?]%lookup_delete_Some. auto.
  - rewrite elem_of_difference, not_elem_of_singleton, Ha. setoid_rewrite lookup_delete_Some. naive_solver.
  - rewrite drop_all_spec, Hf. setoid_rewrite lookup_delete_Some.
    assert (∀ ns, ns ∈ range m (elements (sb_topics sub)) ↔ ns ∈ op_namespace <$> opts) as Hin.
    { intros ns'. by rewrite range_perm, elem_of_elements, Htop, elem_of_list_to_set. }
    rewrite Hin. split.
    + intros [(id' & s & opts' & n' & o & Hs' & HG' & Ho & En & ->) Hne]. exists id', s, opts', n', o.
      split_and!; try done. intros <-. simplify_eq. apply Hne; [by apply list_elem_of_fmap_2|done].
    + intros (id' & s & opts' & n' & o & [Hne Hs'] & HG' & Ho & En & ->). split; [by exists id', s, opts', n', o|].
      simpl. done.
Qed.

Lemma cleanup_fold G T l m :
  mux_ok G T m → NoDup l.*1 → (∀ id s, (id, s) ∈ l → em_subscriptions m !! id = Some s) →
  let m' := foldl cleanup_one m l in
  mux_ok G T m' ∧ em_subscriptionsCount m' = em_subscriptionsCount m ∧
  ∀ id s, em_subscriptions m' !! id = Some s ↔
    em_subscriptions m !! id = Some s ∧ ((id, s) ∈ l → sb_dying s = false).
Proof.
  revert m. induction l as [|[id s] l IH]; intros m Hm Hnd Hin; cbn [foldl].
  { split_and!; [done|done|]. intros id s. split; [|by intros [? _]]. intros ?. split; [done|].
    by intros ?%elem_of_nil. }
  rewrite fmap_cons in Hnd. apply NoDup_cons in Hnd as [Hid Hnd].
  assert (∀ id' s', (id', s') ∈ l → id' ≠ id) as Hne.
  { intros id' s' Hx ->. apply Hid, list_elem_of_fmap. by exists (id, s'). }
  assert (em_subscriptions m !! id = Some s) as Hs by (apply Hin; by left).
  set (m1 := cleanup_one m (id, s)).
  assert (mux_ok G T m1 ∧ em_subscriptionsCount m1 = em_subscriptionsCount m ∧
    ∀ id' s', em_subscriptions m1 !! id' = Some s' ↔
      em_subscriptions m !! id' = Some s' ∧ (id' = id → sb_dying s = false)) as (H1 & H2 & H3).
  { unfold m1, cleanup_one. simpl. destruct (sb_dying s); [|naive_solver].
    split_and!; [by apply unsubscribe_ok|done|]. intros id' s'. simpl. rewrite lookup_delete_Some. naive_solver. }
  destruct (IH m1 H1 Hnd) as (H4 & H5 & H6).
  { intros id' s' Hx. apply H3. split; [apply Hin; by right|]. intros ->. by destruct (Hne id s' Hx). }
  split_and!; [done|congruence|]. intros id' s'. rewrite H6, H3, elem_of_cons. split.
  - intros [[? Hd] Hl]. split; [done|]. intros [[= -> ->]|?]; auto.
  - intros [Hs' Hd]. split; [split; [done|]|auto]. intros ->. simplify_eq. auto.
Qed.

Lemma cleanup_ok G T m :
  mux_ok G T m →
  let m' := cleanupDeadSubscriptions m in
  mux_ok G T m' ∧ em_subscriptionsCount m' = em_subscriptionsCount m ∧
  ∀ id s, em_subscriptions m' !! id = Some s ↔ em_subscriptions m !! id = Some s ∧ sb_dying s = false.
Proof.
  intros Hm. unfold cleanupDeadSubscriptions. set (l := range m _).
  assert (∀ id s, (id, s) ∈ l ↔ em_subscriptions m !! id = Some s) as Hl.
  { intros id s. unfold l. by rewrite range_perm, elem_of_map_to_list. }
  destruct (cleanup_fold G T l m Hm) as (H1 & H2 & H3).
  - unfold l. rewrite range_perm. apply NoDup_fst_map_to_list.
  - intros id s. apply Hl.
  - split_and!; [done|done|]. intros id s. rewrite H3, Hl. naive_solver.
Qed.

Lemma add_filters_spec id opts byNS ns f :
  f ∈ default [] (foldl (add_filter id) byNS opts !! ns) ↔
  f ∈ default [] (byNS !! ns) ∨ ∃ o, o ∈ opts ∧ op_namespace o = ns ∧ f = filter_of id o.
Proof.
  revert byNS. induction opts as [|o opts IH]; intros byNS; simpl.
  { split; [by left|]. intros [?|(o & ?%elem_of_nil & _)]; done. }
  rewrite IH. setoid_rewrite elem_of_cons. unfold add_filter. destruct (decide (ns = op_namespace o)) as [->|Hne].
  - rewrite lookup_insert_eq. simpl. rewrite elem_of_snoc. unfold filter_of. naive_solver.
  - rewrite lookup_insert_ne by done. naive_solver.
Qed.

Lemma register_ok G T m opts :
  mux_ok G T m → (em_subscriptionsCount m + 1 < 2 ^ 64)%Z →
  let id := (em_subscriptionsCount m + 1)%Z in
  mux_ok (<[id := (opts, length T)]> G) T (register id opts m).
Proof.
  intros [Hk Ha Hf Hc Hw] Hcount id.
  assert (G !! id = None) as Hnew.
  { destruct (G !! id) as [x|] eqn:E; [|done]. apply Hc in E. unfold id in E. lia. }
  assert (∀ id' s, em_subscriptions m !! id' = Some s → id' ≠ id) as Hne.
  { intros id' s Hs ->. destruct (Hk id s Hs) as (? & ? & ? & _). congruence. }
  split; simpl.
  - intros id' s [[<- <-]|[? Hs]]%lookup_insert_Some.
    + exists opts, (length T). rewrite lookup_insert_eq. split; [done|]. split; simpl; [done|done|].
      intros _. rewrite drop_all. split; [done|]. by intros ?%elem_of_nil.
    + rewrite lookup_insert_ne by done. auto.
  - intros id'. destruct (decide (id' = id)) as [->|Hd].
    + rewrite !lookup_insert_eq. assert (id ∉ em_subscriptionsAll m) as Hna.
      { rewrite Ha. intros (s & n & Hs & _). by apply Hne in Hs. }
      destruct opts; [|split; [done|naive_solver]]. split; [by eauto|]. intros _. set_solver.
    + rewrite !lookup_insert_ne by done. rewrite <- Ha. destruct opts; [|done]. set_solver.
  - intros ns f. rewrite add_filters_spec, Hf. split.
    + intros [(id' & s & opts' & n & o & Hs & HG & Hr)|(o & Ho & En & ->)].
      * exists id', s, opts', n, o. pose proof (Hne id' s Hs). by rewrite !lookup_insert_ne by done.
      * eexists id, _, opts, (length T), o. by rewrite !lookup_insert_eq.
    + intros (id' & s & opts' & n & o & Hs & HG & Ho & En & ->). destruct (decide (id' = id)) as [->|Hd].
      * rewrite lookup_insert_eq in HG. simplify_eq. right. by exists o.
      * rewrite lookup_insert_ne in Hs by done. rewrite lookup_insert_ne in HG by done. left. by exists id', s, opts', n, o.
  - intros id' x [[<- _]|[? Hx]]%lookup_insert_Some; [unfold id; lia|]. apply Hc in Hx. unfold id. lia.
  - unfold id. lia.
Qed.

Lemma kill_ok G T m id :
  mux_ok G T m → mux_ok G T (set_subscriptions (alter kill_subscription id (em_subscriptions m)) m).
Proof.
  intros Hm. eapply mux_ok_same; [exact Hm|done|intros i; apply lookup_alter_is_Some|]. simpl.
  intros i s Hs. apply lookup_alter_Some in Hs as [(<- & s0 & Hs & ->)|[? Hs]]; [|by eapply mo_known].
  destruct (mo_known _ _ _ Hm id s0 Hs) as (opts & n & HG & [H1 H2 _]). exists opts, n. by split; [|split].
Qed.

(** ** Runs *)

Definition made_after (ev : mux_event) (m : EventMultiplexer) (T : list (list changeEvent)) (G : made) : made :=
  match ev with
  | MxSubscribe opts (Ok _) _ => <[Z.modulo (em_subscriptionsCount m + 1) (2 ^ 64) := (opts, length T)]> G
  | _ => G
  end.
Definition terms_handled (ev : mux_event) (T : list (list changeEvent)) : list (list changeEvent) :=
  match ev with MxTerm changes _ _ => T ++ [changes] | _ => T end.
Definition mux_over (r : mux_reply) : bool := match r with MrOver _ => true | _ => false end.

(** The multiplexers that run, fewer than 2^64 subscriptions having been made. *)
Inductive multiplexing : made → list (list changeEvent) → EventMultiplexer → Prop :=
| multiplexing_new : multiplexing ∅ [] NewEventMultiplexer
| multiplexing_turn ev G T m r m' :
    multiplexing G T m → (em_subscriptionsCount m + 1 < 2 ^ 64)%Z →
    mux_turn ev m = Ok (r, m') → mux_over r = false →
    multiplexing (made_after ev m T G) (terms_handled ev T) m'.

Lemma new_mux_ok : mux_ok ∅ [] NewEventMultiplexer.
Proof.
  split; simpl; [done| | |done|lia].
  - intros id. split; [by intros ?%elem_of_empty|by intros (s & n & ? & _)].
  - intros ns f. rewrite lookup_empty. split; [by intros ?%elem_of_nil|by intros (id & s & o & n & op & ? & _)].
Qed.

(** Only a rejected subscription makes another count. *)
Lemma count_ok G T m n :
  mux_ok G T m → (em_subscriptionsCount m ≤ n < 2 ^ 64)%Z →
  mux_ok G T (MkEventMultiplexer (em_subscriptions m) (em_subscriptionsByNS m) (em_subscriptionsAll m) n
    (em_dispatchErrorCount m)).
Proof.
  intros [Hk Ha Hf Hc Hw] Hn. split; simpl; [done..| |lia]. intros id x Hx. apply Hc in Hx. lia.
Qed.

Lemma mux_handle_ok G T m ev :
  mux_ok G T m → (em_subscriptionsCount m + 1 < 2 ^ 64)%Z →
  ∃ r m', mux_handle ev m = Ok (r, m') ∧ mux_ok (made_after ev m T G) (terms_handled ev T) m'.
Proof.
  intros Hm Hc. pose proof (mo_width _ _ _ Hm).
  destruct ev as [id| | | |changes o taken|opts [u|e] answered|]; try (by eexists _, _).
  - eexists _, _. split; [done|]. by apply kill_ok.
  - destruct (term_handled G T m changes o taken Hm) as (m' & E & Hm' & _). eauto.
  - eexists _, _. split; [done|]. simpl. rewrite Z.mod_small by lia. by apply register_ok.
  - unfold mux_handle. rewrite Z.mod_small by lia.
    assert (mux_ok G T (MkEventMultiplexer (em_subscriptions m) (em_subscriptionsByNS m) (em_subscriptionsAll m)
      (em_subscriptionsCount m + 1) (em_dispatchErrorCount m))) as Hm' by (apply count_ok; [done|lia]).
    case_decide; [by eexists _, _|]. destruct answered; by eexists _, _.
Qed.

Lemma multiplexing_ok G T m : multiplexing G T m → mux_ok G T m.
Proof.
  induction 1 as [|ev G T m r m' _ IH Hc H Hr]; [apply new_mux_ok|].
  destruct (mux_handle_ok G T m ev IH Hc) as (r1 & m1 & E & Hm1).
  unfold mux_turn in H. rewrite E in H. injection H as <- <-.
  destruct ev; try done; destruct r1; try done; by apply cleanup_ok.
Qed.

(** C14: a subscription sees all it asked for, or is closed.  In every run of the
    multiplexer, whatever the consumers do: what a subscription that is alive has
    received is, in order and once each, the changes of the terms since it was made
    that its options ask for, and no set that it received was empty; no turn panics
    because a subscription is gone; and after a turn that goes on no subscription that
    is dying is left. *)
Theorem subscription_complete G T m :
  multiplexing G T m →
  (∀ id s, em_subscriptions m !! id = Some s →
     ∃ opts n, G !! id = Some (opts, n) ∧ n ≤ length T ∧
       (sb_dying s = false →
        concat (sb_changes s) = wanted_of opts (concat (drop n T)) ∧ [] ∉ sb_changes s)) ∧
  (∀ ev, (em_subscriptionsCount m + 1 < 2 ^ 64)%Z →
     ∃ r m', mux_turn ev m = Ok (r, m') ∧
       match ev with
       | MxKill _ => True
       | _ => ∀ id s, em_subscriptions m' !! id = Some s → sb_dying s = false
       end).
Proof.
  intros Hm%multiplexing_ok. split.
  - intros id s Hs. destruct (mo_known _ _ _ Hm id s Hs) as (opts & n & HG & [_ Hn Hc]). eauto.
  - intros ev Hc. destruct (mux_handle_ok G T m ev Hm Hc) as (r & m' & E & Hm').
    unfold mux_turn. rewrite E. simpl. eexists _, _. split; [done|].
    destruct (cleanup_ok _ _ _ Hm') as (_ & _ & Hcl).
    destruct ev; try done; destruct r; try done; intros i s; try (by rewrite Hcl; intros [_ ?]); by intros ?.
Qed.

(** C26: a term is handed out.  A turn that takes a term hands every subscription that
    asks for some of its changes the ones it asks for, as one set, in their order: the
    consumer receives them, or the subscription is removed.  The others receive
    nothing.  The term is then done, as empty exactly if no one asked for any of its
    changes, unless the multiplexer is dying. *)
Theorem term_dispatched G T m changes o taken :
  multiplexing G T m →
  ∃ empty m', mux_turn (MxTerm changes o taken) m = Ok (MrDone (if taken then Some empty else None), m') ∧
    (empty = true ↔ ∀ id s opts n, em_subscriptions m !! id = Some s → G !! id = Some (opts, n) →
       wanted_of opts changes = []) ∧
    ∀ id s opts n, em_subscriptions m !! id = Some s → G !! id = Some (opts, n) → sb_dying s = false →
      em_subscriptions m' !! id =
        match wanted_of opts changes with
        | [] => Some s
        | mine => match o id with
                  | DvReceived => Some (MkSubscription (sb_topics s) false (sb_changes s ++ [mine]))
                  | _ => None
                  end
        end.
Proof.
  intros Hm%multiplexing_ok. destruct (term_handled G T m changes o taken Hm) as (m1 & E & Hm1 & _ & Hs1).
  exists (bool_decide (gather_changes m changes = ∅)), (cleanupDeadSubscriptions m1).
  split; [unfold mux_turn; by rewrite E|]. split; [rewrite bool_decide_eq_true; by apply (gathered_none G T)|].
  intros id s opts n Hs HG Hd. destruct (cleanup_ok _ _ _ Hm1) as (_ & _ & Hcl).
  specialize (Hs1 id). rewrite Hs, (gathered_for G T m changes id s opts n Hm Hs HG) in Hs1. simpl in Hs1.
  assert (∀ s', em_subscriptions m1 !! id = Some s' →
    em_subscriptions (cleanupDeadSubscriptions m1) !! id = if sb_dying s' then None else Some s') as Hgone.
  { intros s' Hs'. destruct (em_subscriptions (cleanupDeadSubscriptions m1) !! id) as [s''|] eqn:E'.
    - apply Hcl in E' as [? Hd']. simplify_eq. by rewrite Hd'.
    - destruct (sb_dying s') eqn:Hd'; [done|]. by rewrite (proj2 (Hcl id s') (conj Hs' Hd')) in E'. }
  destruct (wanted_of opts changes) as [|e l]; simpl in Hs1; rewrite (Hgone _ Hs1).
  - by rewrite Hd.
  - unfold delivered. destruct (o id); simpl; rewrite ?Hd; done.
Qed.
End facts.
