(* ===== verification/EventSource.v ===== *)
(** * Watchers of changes

    core/watcher/eventsource: the watchers that the domain services hand out.  A
    namespace watcher sends the state that a query found and then the keys of what
    changed; a notify watcher sends that something did.  Both subscribe to the event
    multiplexer with the options their filters stand for, and either read from their
    subscription or have something to send. *)

From stdpp Require Import pretty.
From S2P Require Import Prelude ChangeLog Multiplexer.

(** ** Filters and mappers *)

(** A nil predicate is [None]. *)
Record filter_option : Type := MkFilterOption {
  fo_namespace : string;
  fo_changeMask : Z;
  fo_changePredicate : option (string → bool);
}.

Definition AlwaysPredicate : string → bool := λ _, true.
Definition EqualsPredicate (value : string) : string → bool := λ s, bool_decide (s = value).
Definition ContainsPredicate (values : list string) : string → bool := λ s, bool_decide (s ∈ values).

Definition PredicateFilter (namespace : string) (changeMask : Z) (p : option (string → bool)) : filter_option :=
  MkFilterOption namespace changeMask p.
Definition NamespaceFilter (namespace : string) (changeMask : Z) : filter_option :=
  MkFilterOption namespace changeMask (Some AlwaysPredicate).

Definition Mapper : Type := list changeEvent → result (list string).

Definition defaultMapper : Mapper := λ events, Ok (ce_changed <$> events).
Definition FilterEvents (f : changeEvent → bool) : Mapper := λ events,
  Ok (ce_changed <$> filter (λ e, f e = true) events).

(** The loop of [NewNamespaceMapperWatcher] and [NewNotifyMapperWatcher] over the
    filters, of which there is at least one; nil is [None]. *)
Fixpoint filter_options (i : nat) (filters : list (option filter_option)) :
    result (list SubscriptionOption) :=
  match filters with
  | [] => Ok []
  | None :: _ => Err (ErrConst ("nil filter option provided at index " +:+ pretty i))
  | Some opt :: filters' =>
      match fo_changePredicate opt with
      | None => Err (ErrConst ("no change predicate provided for filter option " +:+ pretty i))
      | Some predicate =>
          opts ← filter_options (S i) filters';
          Ok (FilteredNamespace (fo_namespace opt) (fo_changeMask opt) (λ e, predicate (ce_changed e)) :: opts)
      end
  end.

(** ** The namespace watcher *)

Abbreviation watch_ErrDying := (ErrConst "tomb: dying").
Abbreviation ErrSubscriptionClosed := (ErrConst "watcher subscription closed").

(** The variables of its loop: whether [in] and [out] are channels, and [changes]. *)
Record namespace_watcher : Type := MkNamespaceWatcher {
  nw_in : bool;
  nw_out : bool;
  nw_changes : list string;
}.

(** [WvRead] is what was received from the subscription, if it is open; [WvSent] that
    a consumer took what was sent. *)
Inductive watch_event : Type :=
| WvDying
| WvClosed
| WvRead (changes : option (list changeEvent))
| WvSent.

(** What is left of the watcher after a step, with what it sent. *)
Inductive watch_state (A : Type) : Type :=
| Watching (w : A)
| Ended (r : result ()).
Arguments Watching {A} _.
Arguments Ended {A} _.

(** An error of the subscription or the query is not told by a watcher that is dying. *)
Definition watch_error {A} (dying : bool) (e : error) : watch_state A :=
  Ended (Err (if dying then watch_ErrDying else e)).

Definition NamespaceWatcher_start (subscribed : result ()) (initial : result (list string)) (dying : bool) :
    watch_state namespace_watcher :=
  match subscribed, initial with
  | Err e, _ => watch_error dying e
  | Ok _, Err e => watch_error dying e
  | Ok _, Ok changes => Watching (MkNamespaceWatcher false true changes)
  end.

Definition NamespaceWatcher_step (mapper : Mapper) (ev : watch_event) (w : namespace_watcher) :
    option (watch_state namespace_watcher * option (list string)) :=
  match ev with
  | WvDying => Some (Ended (Err watch_ErrDying), None)
  | WvClosed => Some (Ended (Err ErrSubscriptionClosed), None)
  | WvRead r =>
      guard (nw_in w = true);;
      match r with
      | None => Some (Ended (Ok ()), None)
      | Some subChanges =>
          match mapper subChanges with
          | Err e => Some (Ended (Err e), None)
          | Ok [] => Some (Watching w, None)
          | Ok changed => Some (Watching (MkNamespaceWatcher false true changed), None)
          end
      end
  | WvSent =>
      guard (nw_out w = true);;
      Some (Watching (MkNamespaceWatcher true false (nw_changes w)), Some (nw_changes w))
  end.

(** ** The notify watcher *)

(** [out] of its loop; it reads at any time. *)
Record notify_watcher : Type := MkNotifyWatcher { nt_out : bool }.

(** [drainInitialEvent] drops a set that is there; what it drops does not matter. *)
Definition NotifyWatcher_start (subscribed : result ()) (dying : bool) : watch_state notify_watcher :=
  match subscribed with
  | Err e => watch_error dying e
  | Ok _ => Watching (MkNotifyWatcher true)
  end.

Definition NotifyWatcher_step (mapper : Mapper) (ev : watch_event) (w : notify_watcher) :
    option (watch_state notify_watcher * bool) :=
  match ev with
  | WvDying => Some (Ended (Err watch_ErrDying), false)
  | WvClosed => Some (Ended (Err ErrSubscriptionClosed), false)
  | WvRead r =>
      match r with
      | None => Some (Ended (Ok ()), false)
      | Some changes =>
          match mapper changes with
          | Err e => Some (Ended (Err e), false)
          | Ok [] => Some (Watching w, false)
          | Ok _ => Some (Watching (MkNotifyWatcher true), false)
          end
      end
  | WvSent => guard (nt_out w = true);; Some (Watching (MkNotifyWatcher false), true)
  end.

(** ** What they guarantee *)

Definition mapped (mapper : Mapper) (received : list (list changeEvent)) : list (list string) :=
  omap (λ cs, match mapper cs with Ok (c :: l) => Some (c :: l) | _ => None end) received.

Section namespace.
Context (mapper : Mapper) (initial : list string).

(** A watcher with what it received and what it sent. *)
Inductive namespace_run : list (list changeEvent) → list (list string) → namespace_watcher → Prop :=
| namespace_run_start : namespace_run [] [] (MkNamespaceWatcher false true initial)
| namespace_run_step ev received sent w w' out :
    namespace_run received sent w → NamespaceWatcher_step mapper ev w = Some (Watching w', out) →
    namespace_run (received ++ match ev with WvRead (Some cs) => [cs] | _ => [] end)
      (sent ++ match out with Some l => [l] | None => [] end) w'.

(** A namespace watcher tells all, in order.  What the watcher has sent, with what
    it has to send next, is the state that the query found followed by the keys of
    each set it received, without those that map to none; it either has something to
    send or reads, never both or neither, so a set is read only when the one before it
    was taken. *)
Theorem namespace_watcher_tells_all received sent w :
  namespace_run received sent w →
  sent ++ (if nw_out w then [nw_changes w] else []) = initial :: mapped mapper received ∧
  nw_in w = negb (nw_out w).
Proof.
  unfold mapped. induction 1 as [|ev received sent w w' out _ [IH1 IH2] H]; [done|].
  destruct w as [i o ch], ev as [| |[cs|]|]; simpl in *; try done.
  - case_guard as Hi; [|done]. subst i. destruct o; [done|]. rewrite app_nil_r in IH1.
    rewrite omap_app. simpl. destruct (mapper cs) as [[|c l]|e]; simpl in H; simplify_eq; simpl.
    + by rewrite !app_nil_r.
    + by rewrite app_nil_r.
  - by case_guard.
  - case_guard; [|done]. subst o. injection H as <- <-. simpl. by rewrite !app_nil_r.
Qed.
End namespace.

Section notify.
Context (mapper : Mapper).

(** A watcher with whether there is something that its consumer was not yet told of:
    that it started, or a set that does not map to nothing. *)
Inductive notify_run : bool → notify_watcher → Prop :=
| notify_run_start : notify_run true (MkNotifyWatcher true)
| notify_run_step ev untold w w' out :
    notify_run untold w → NotifyWatcher_step mapper ev w = Some (Watching w', out) →
    notify_run (match ev with
                | WvRead (Some cs) => untold || match mapper cs with Ok (_ :: _) => true | _ => false end
                | WvSent => false
                | _ => untold
                end) w'.

(** A notify watcher misses nothing and tells nothing twice.  It is about to
    notify exactly when there is something its consumer was not told of, and the
    notification can then be taken whatever else is received; it starts with one. *)
Theorem notify_watcher_misses_nothing untold w :
  notify_run untold w →
  nt_out w = untold ∧ (untold = true → ∃ w', NotifyWatcher_step mapper WvSent w = Some (Watching w', true)).
Proof.
  intros H. assert (nt_out w = untold) as E.
  { induction H as [|ev untold w w' out _ IH H]; [done|]. destruct w as [o]. simpl in *. subst o.
    destruct ev as [| |[cs|]|]; simpl in *; try done.
    - destruct (mapper cs) as [[|c l]|]; simplify_eq; simpl; by destruct untold.
    - case_guard; [|done]. by injection H as <- <-. }
  split; [done|]. intros ->. simpl. rewrite E. by eexists.
Qed.
End notify.
