(* ===== verification/ChangeFlow.v ===== *)
(** * From the change log to the subscriptions

    A controller's worker for a database is a stream and a multiplexer, which are made
    and die together (internal/worker/changestream).  Here they run side by side with
    the other controllers, the triggers and the pruner: the multiplexer takes a term
    when the stream sends it, and the stream goes on when the multiplexer is done with
    it.  What the stream guarantees of its terms and what the multiplexer guarantees of
    the terms it takes give what a subscriber can rely on. *)

From S2P Require Import Prelude LeaseStore Txn ChangeLog ChangeLogFacts Stream StreamFacts.
From S2P Require Import Multiplexer MultiplexerFacts.

Section flow.
Context {MO : MapOrder EventMultiplexer} {ML : MapOrderLaws EventMultiplexer}.
Context (GaveUp : error → error) (me : string).

Abbreviation made := (gmap Z (list SubscriptionOption * nat)).

(** What the other parts do on their own: everything but a new start of this
    controller's stream, and the steps it takes together with the multiplexer. *)
Definition apart (e : cluster_event) : bool :=
  match e with
  | CvBoot id => negb (bool_decide (id = me))
  | CvStream id EvTaken | CvStream id (EvDone _) => negb (bool_decide (id = me))
  | _ => true
  end.
Definition not_term (ev : mux_event) : bool := match ev with MxTerm _ _ _ => false | _ => true end.

(** [pending] is what the multiplexer is done with the term as, while the stream has
    not learned of it; the multiplexer meanwhile does nothing, but subscriptions can be
    killed. *)
Inductive flowing : cluster → option bool → made → list (list changeEvent) → EventMultiplexer → Prop :=
| flowing_start k k' :
    clustered GaveUp k → cluster_step GaveUp (CvBoot me) k = Some k' →
    flowing k' None ∅ [] NewEventMultiplexer
| flowing_cluster e k k' pending G T m :
    flowing k pending G T m → apart e = true → cluster_step GaveUp e k = Some k' →
    flowing k' pending G T m
| flowing_mux ev k pending G T m r m' :
    flowing k pending G T m → not_term ev = true → (pending = None ∨ ∃ id, ev = MxKill id) →
    (em_subscriptionsCount m + 1 < 2 ^ 64)%Z →
    mux_turn ev m = Ok (r, m') → mux_over r = false →
    flowing k pending (made_after ev m T G) T m'
| flowing_term k k' G T m c n changes v o empty m' :
    flowing k None G T m → cu_controllers k !! me = Some c → ct_point c = PtSend n changes v →
    cluster_step GaveUp (CvStream me EvTaken) k = Some k' → (em_subscriptionsCount m + 1 < 2 ^ 64)%Z →
    mux_turn (MxTerm changes o true) m = Ok (MrDone (Some empty), m') →
    flowing k' (Some empty) G (T ++ [changes]) m'
| flowing_done k k' empty G T m :
    flowing k (Some empty) G T m → cluster_step GaveUp (CvStream me (EvDone (Some empty))) k = Some k' →
    flowing k' None G T m.

(** ** Both keep to their own *)

Lemma flowing_clustered k pending G T m : flowing k pending G T m → clustered GaveUp k.
Proof. induction 1; eauto using clustered. Qed.

Lemma flowing_multiplexing k pending G T m : flowing k pending G T m → multiplexing G T m.
Proof.
  induction 1 as [k k' Hk Hb|e k k' pending G T m Hf IH Ha Hs|ev k pending G T m r m' Hf IH Hn Hp Hc Ht Ho
    |k k' G T m c n changes v o empty m' Hf IH Hlk Hpt Hs Hc Ht|k k' empty G T m Hf IH Hs]; [constructor|done| | |done].
  - pose proof (multiplexing_turn ev G T m r m' IH Hc Ht Ho) as H. by destruct ev.
  - exact (multiplexing_turn (MxTerm changes o true) G T m _ m' IH Hc Ht eq_refl).
Qed.

(** ** The terms of the two *)

(** The multiplexer has taken the terms that the stream has completed, and the one that
    it is about to be done with. *)
Definition in_step (k : cluster) (pending : option bool) (T : list (list changeEvent)) : Prop :=
  ∃ c, cu_controllers k !! me = Some c ∧
    match pending with
    | None => T = ct_terms c ∧ ∀ n changes v, ct_point c ≠ PtTerm n changes v
    | Some _ => ∃ last, T = ct_terms c ++ [last] ∧
        match ct_point c with
        | PtTerm _ changes _ => changes = last
        | PtOver _ => True
        | _ => False
        end
    end.

(** A step of another part leaves this controller, or moves its stream on. *)
Lemma apart_controller e k k' c :
  apart e = true → cluster_step GaveUp e k = Some k' → cu_controllers k !! me = Some c →
  ∃ c', cu_controllers k' !! me = Some c' ∧
    (c' = c ∨ ∃ ev d p s d', e = CvStream me ev ∧ loop_step GaveUp ev (ct_point c) (ct_stream c) d = Some (p, s, d') ∧
       ct_point c' = p ∧ ct_terms c' = terms_after (ct_point c) ev (ct_terms c)).
Proof.
  intros Ha H Hlk. destruct k as [d cs l p]. simpl in *.
  destruct e as [ns name|edit ns changed now|id|id ev|y now current vars].
  - case_guard; [|done]. injection H as <-. eauto.
  - destruct (insert_change_log edit ns changed now d); injection H as <-; eauto.
  - injection H as <-. simpl in *. apply negb_true_iff, bool_decide_eq_false in Ha.
    rewrite lookup_insert_ne by done. eauto.
  - apply bind_Some in H as (c0 & Hlk0 & H). apply bind_Some in H as ([c' d'] & Hst & H). injection H as <-. simpl.
    destruct (decide (id = me)) as [->|Hne]; [|rewrite lookup_insert_ne by done; eauto].
    rewrite lookup_insert_eq. simplify_eq. eexists. split; [done|]. right.
    unfold controller_step in Hst. apply bind_Some in Hst as ([[pt s'] d1] & Hstep & Hst). injection Hst as <- <-.
    by eexists ev, d, pt, s', d1.
  - destruct (prune_attempt GaveUp y now current vars d) as [[? ?] d']. injection H as <-. eauto.
Qed.

Definition at_term (p : stream_point) : bool := match p with PtTerm _ _ _ => true | _ => false end.
Definition at_end (p : stream_point) : bool := match p with PtOver _ => true | _ => false end.

Lemma loop_read_point n r changes : at_term (loop_read n r changes) = false.
Proof. unfold loop_read. repeat case_match; done. Qed.

(** On its own the stream begins no term, and ends when it leaves one. *)
Lemma apart_step ev p s d p' s' d' ts :
  apart (CvStream me ev) = true → loop_step GaveUp ev p s d = Some (p', s', d') →
  terms_after p ev ts = ts ∧ at_term p' = false ∧ (at_term p || at_end p = true → at_end p' = true).
Proof.
  intros Ha H. destruct ev as [[u|e] y now|y now| |created|again|y now|y| | | |e];
    try (simpl in Ha; by rewrite bool_decide_true in Ha).
  all: destruct p as [| |n|n|n|n|n|n ch v|n ch v|r]; simpl in H; try done; try (by simplify_eq).
  all: try (destruct (createWatermark GaveUp y now s d) as [[r' ?] ?]; injection H as <- <- <-;
    by destruct r' as [[]|]).
  all: try (destruct (updateWatermark GaveUp y now s d) as [[r' ?] ?]; injection H as <- <- <-;
    split_and!; [done| |done]; destruct r' as [[]|]; simpl; by try case_decide).
  all: try (destruct (readChanges GaveUp y s d) as [[r' changes] d1]; injection H as <- <- <-;
    split_and!; [done|apply loop_read_point|done]).
  - destruct created; by simplify_eq.
  - destruct created; by simplify_eq.
  - destruct again; by simplify_eq.
Qed.

Lemma flowing_in_step k pending G T m : flowing k pending G T m → in_step k pending T.
Proof.
  induction 1 as [k k' Hk Hb|e k k' pending G T m Hf IH Ha Hs|ev k pending G T m r m' Hf IH Hn Hp Hc Ht Ho
    |k k' G T m c n changes v o empty m' Hf IH Hlk Hpt Hs Hc Ht|k k' empty G T m Hf IH Hs].
  - destruct k as [d cs l p]. simpl in Hb. injection Hb as <-. eexists. simpl. rewrite lookup_insert_eq.
    split; [done|]. by destruct (cs !! me).
  - destruct IH as (c & Hlk & IH). destruct (apart_controller e k k' c Ha Hs Hlk) as (c' & Hlk' & Hc').
    exists c'. split; [done|]. destruct Hc' as [->|(ev & d & p & s & d' & -> & Hstep & Ep & Et)]; [done|].
    destruct (apart_step ev _ _ _ _ _ _ (ct_terms c) Ha Hstep) as (Ets & Hnt & Hend).
    rewrite Et, Ets. destruct pending as [empty|].
    + destruct IH as (last & -> & Hpt). exists last. split; [done|]. rewrite Ep.
      assert (at_end p = true) as He by (apply Hend; by destruct (ct_point c)). by destruct p.
    + destruct IH as [-> _]. split; [done|]. intros n changes v E. rewrite Ep in E. by rewrite E in Hnt.
  - done.
  - destruct IH as (c0 & Hlk0 & -> & _). simplify_eq. destruct k as [d cs l p]. simpl in *. rewrite Hlk in Hs.
    simpl in Hs. unfold controller_step in Hs. rewrite Hpt in Hs. simpl in Hs. injection Hs as <-.
    eexists. simpl. rewrite lookup_insert_eq. split; [done|]. by exists changes.
  - destruct IH as (c & Hlk & last & -> & Hpt). destruct k as [d cs l p]. simpl in *. rewrite Hlk in Hs.
    simpl in Hs. unfold controller_step in Hs. destruct (ct_point c) as [| |n|n|n|n|n|n ch v|n ch v|r] eqn:Ept; try done.
    simpl in Hs. injection Hs as <-. subst ch.
    eexists. simpl. rewrite lookup_insert_eq. split; [done|]. split; [done|]. intros n' ch' v'. by destruct empty.
Qed.

(** ** What a subscriber can rely on *)

End flow.
