(* ===== verification/StreamSamples.v ===== *)
(** * Change streams at work

    The theorems of ChangeLogFacts.v, StreamFacts.v, MultiplexerFacts.v, EventSource.v
    and ChangeFlow.v at runs: two controllers that read the same log until it can be
    pruned, a multiplexer with two subscriptions, and a change on its way from the log
    to a subscriber.  With them, what modelling showed of watermarks that are lost, of
    a witness that is not put back, of windows that are the wrong way round and of a
    result whose rows end early. *)

From S2P Require Import Prelude LeaseStore Txn ChangeLog ChangeLogFacts Stream StreamFacts.
From S2P Require Import Multiplexer MultiplexerFacts EventSource ChangeFlow.

Abbreviation gives_up := (λ e : error, e).

(** ** Two controllers *)

Fixpoint cluster_run (es : list cluster_event) (k : cluster) : option cluster :=
  match es with
  | [] => Some k
  | e :: es' => k' ← cluster_step gives_up e k; cluster_run es' k'
  end.

Lemma run_clustered es k k' : clustered gives_up k → cluster_run es k = Some k' → clustered gives_up k'.
Proof.
  revert k. induction es as [|e es IH]; simpl; intros k Hk H; [by simplify_eq|].
  apply bind_Some in H as (k1 & H1 & H). eapply IH; [|exact H]. by econstructor.
Qed.

Definition run_on (es : list cluster_event) (k : cluster) : cluster := default k (cluster_run es k).

(** The streams start; then, ten times, something changes and both read it. *)
Definition opening : list cluster_event :=
  [CvNamespace 7 "unit"; CvBoot "0"; CvBoot "1"; CvStream "0" (EvStart (Ok ()) smooth 0);
   CvStream "1" (EvStart (Ok ()) smooth 0)].
Definition read_by (id : string) : list cluster_event :=
  [CvStream id (EvRead smooth); CvStream id EvTaken; CvStream id (EvDone (Some false))].
Definition round (key : string) : list cluster_event :=
  [CvLog change_create 7 key 1; CvLog change_update 7 key 2] ++ read_by "0" ++ read_by "1".
Definition rounds : list cluster_event :=
  mjoin (round <$> ["a"; "b"; "c"; "d"; "e"; "f"; "g"; "h"; "i"; "j"]).

Definition served : cluster :=
  run_on (opening ++ rounds ++ [CvStream "0" (EvWatermark smooth 5); CvStream "1" (EvWatermark smooth 6)])
    new_cluster.
Definition behind : cluster := run_on [CvLog change_delete 7 "a" 9] served.
Definition pruned_once : cluster := run_on [CvPrune smooth 8 no_window (no_window, 0%Z)] served.

Definition no_controller : controller := MkController (NewStream "") PtStart [] [] None 0.
Definition controller_at (id : string) (k : cluster) : controller :=
  default no_controller (cu_controllers k !! id).

Lemma served_clustered : clustered gives_up served.
Proof.
  apply (run_clustered (opening ++ rounds ++ [CvStream "0" (EvWatermark smooth 5); CvStream "1" (EvWatermark smooth 6)])
    new_cluster); [constructor|vm_compute; reflexivity].
Qed.
Lemma behind_clustered : clustered gives_up behind.
Proof.
  apply (run_clustered [CvLog change_delete 7 "a" 9] served); [exact served_clustered|vm_compute; reflexivity].
Qed.

(** Rows 21 to 23: a thing is created, updated and deleted; another is created. *)
Definition some_changes : change_db :=
  MkChangeDb [MkChangeRow 21 change_create 7 "x" 0; MkChangeRow 22 change_create 7 "y" 0;
    MkChangeRow 23 change_delete 7 "x" 0] {[7%Z := "unit"]} [] 23.

Lemma some_changes_ok : log_ok some_changes.
Proof.
  split; simpl.
  - repeat constructor; unfold id_lt; simpl; lia.
  - intros r Hr. repeat (apply elem_of_cons in Hr as [->|Hr]; [simpl; lia|]). by apply elem_of_nil in Hr.
  - intros r Hr. repeat (apply elem_of_cons in Hr as [->|Hr]; [vm_compute; set_solver|]). by apply elem_of_nil in Hr.
  - intros r Hr. repeat (apply elem_of_cons in Hr as [->|Hr]; [by eexists|]). by apply elem_of_nil in Hr.
  - intros i j name [<- _]%lookup_singleton_Some [<- _]%lookup_singleton_Some. done.
  - lia.
Qed.

(** The creation of x is not told. *)
Lemma changes_coalesced_witness :
  selectQuery 20 some_changes =
    [MkChangeEvent 22 change_create "unit" "y" 0; MkChangeEvent 23 change_delete "unit" "x" 0] ∧
  StronglySorted event_lt (selectQuery 20 some_changes) ∧
  (∀ e, e ∈ selectQuery 20 some_changes ↔
     ∃ r, r ∈ cd_change_log some_changes ∧ (20 < cl_id r)%Z ∧ named some_changes r (ce_namespace e) ∧
       e = to_event (r, ce_namespace e) ∧
       ∀ r', r' ∈ cd_change_log some_changes → cl_namespace_id r' = cl_namespace_id r →
         cl_changed r' = cl_changed r → (cl_id r' ≤ cl_id r)%Z) ∧
  (∀ e e', e ∈ selectQuery 20 some_changes → e' ∈ selectQuery 20 some_changes →
     ce_namespace e = ce_namespace e' → ce_changed e = ce_changed e' → e = e').
Proof.
  split; [vm_compute; reflexivity|]. apply (changes_coalesced 20 some_changes). exact some_changes_ok.
Defined.

Lemma no_change_lost_witness :
  upperBound (ct_stream (controller_at "0" served)) = 20%Z ∧
  ct_since (controller_at "0" served) = Some 0%Z ∧ length (cu_logged served) = 20 ∧
  (∀ s r name, ct_since (controller_at "0" served) = Some s → r ∈ cu_logged served →
     named (cu_db served) r name → (s < cl_id r)%Z →
     told (if decide (ct_boot (controller_at "0" served) < cl_id r)%Z then ct_terms (controller_at "0" served)
           else all_terms (controller_at "0" served)) name r ∨
     ∃ r', r' ∈ cd_change_log (cu_db served) ∧ same_thing r r' ∧
       (upperBound (ct_stream (controller_at "0" served)) < cl_id r')%Z) ∧
  StronglySorted event_lt (concat (ct_terms (controller_at "0" served))) ∧
  (∀ e, e ∈ concat (all_terms (controller_at "0" served)) → real (cu_logged served) (cu_db served) e).
Proof.
  split; [vm_compute; reflexivity|]. split; [vm_compute; reflexivity|]. split; [vm_compute; reflexivity|].
  apply (no_change_lost gives_up served "0" (controller_at "0" served)); [exact served_clustered|].
  vm_compute. reflexivity.
Defined.

(** Both were told of the first change, by the event for the second. *)
Lemma pruner_keeps_untold_witness :
  cw_lower_bound <$> cd_witness (cu_db served) = [2%Z; 2%Z] ∧
  length (cd_change_log (cu_db pruned_once)) = 18 ∧
  ∃ c, cu_controllers served !! "0" = Some c ∧
    (told (all_terms c) "unit" (MkChangeRow 1 change_create 7 "a" 1) ∨
     ∃ r', r' ∈ cd_change_log (cu_db pruned_once) ∧ same_thing (MkChangeRow 1 change_create 7 "a" 1) r' ∧
       (2 < cl_id r')%Z).
Proof.
  split; [vm_compute; reflexivity|]. split; [vm_compute; reflexivity|].
  apply (pruner_keeps_untold gives_up served smooth 8 no_window (no_window, 0%Z) pruned_once
    (MkChangeRow 1 change_create 7 "a" 1) "unit" (MkWitnessRow "0" 2 2 5)).
  - exact served_clustered.
  - vm_compute. reflexivity.
  - apply (bool_decide_unpack _). vm_compute. exact I.
  - apply (bool_decide_unpack _). vm_compute. exact I.
  - vm_compute. reflexivity.
  - vm_compute. apply list_elem_of_here.
Defined.


(** ** A multiplexer *)

#[export] Instance mux_order : MapOrder EventMultiplexer := { range A _ l := l }.
#[export] Instance mux_order_laws : MapOrderLaws EventMultiplexer.
Proof. by split. Qed.

Definition turned (ev : mux_event) (m : EventMultiplexer) : EventMultiplexer :=
  match mux_turn ev m with Ok (_, m') => m' | Err _ => m end.

(** One asks for the changes of units but y, one for deleted units and machines. *)
Definition all_but_y : list SubscriptionOption :=
  [FilteredNamespace "unit" Changed (λ e, negb (bool_decide (ce_changed e = "y")))].
Definition deleted_things : list SubscriptionOption := [Namespace "unit" Deleted; Namespace "machine" Deleted].

Definition a_term : list changeEvent :=
  [MkChangeEvent 1 change_create "unit" "x" 0; MkChangeEvent 2 change_update "unit" "y" 0;
   MkChangeEvent 3 change_update "unit" "z" 0].

Definition mux_made : EventMultiplexer :=
  turned (MxSubscribe deleted_things (Ok ()) true) (turned (MxSubscribe all_but_y (Ok ()) true) NewEventMultiplexer).
Definition mux_served : EventMultiplexer := turned (MxTerm a_term (λ _, DvReceived) true) mux_made.
Definition made_both : gmap Z (list SubscriptionOption * nat) :=
  <[2%Z := (deleted_things, 0)]> (<[1%Z := (all_but_y, 0)]> ∅).

Lemma mux_made_multiplexing : multiplexing made_both [] mux_made.
Proof.
  apply (multiplexing_turn (MxSubscribe deleted_things (Ok ()) true) (<[1%Z := (all_but_y, 0)]> ∅) []
    (turned (MxSubscribe all_but_y (Ok ()) true) NewEventMultiplexer) (MrSubscription (Ok 2%Z)));
    [|vm_compute; reflexivity..].
  apply (multiplexing_turn (MxSubscribe all_but_y (Ok ()) true) ∅ [] NewEventMultiplexer
    (MrSubscription (Ok 1%Z))); [constructor|vm_compute; reflexivity..].
Qed.

Lemma subscription_complete_witness :
  sb_changes <$> em_subscriptions mux_served !! 1%Z =
    Some [[MkChangeEvent 1 change_create "unit" "x" 0; MkChangeEvent 3 change_update "unit" "z" 0]] ∧
  sb_changes <$> em_subscriptions mux_served !! 2%Z = Some [] ∧
  (∀ id s, em_subscriptions mux_served !! id = Some s →
     ∃ opts n, made_both !! id = Some (opts, n) ∧ n ≤ length [a_term] ∧
       (sb_dying s = false →
        concat (sb_changes s) = wanted_of opts (concat (drop n [a_term])) ∧ [] ∉ sb_changes s)) ∧
  (∀ ev, (em_subscriptionsCount mux_served + 1 < 2 ^ 64)%Z →
     ∃ r m', mux_turn ev mux_served = Ok (r, m') ∧
       match ev with
       | MxKill _ => True
       | _ => ∀ id s, em_subscriptions m' !! id = Some s → sb_dying s = false
       end).
Proof.
  split; [vm_compute; reflexivity|]. split; [vm_compute; reflexivity|].
  apply (subscription_complete made_both [a_term] mux_served).
  apply (multiplexing_turn (MxTerm a_term (λ _, DvReceived) true) made_both [] mux_made (MrDone (Some false)));
    [exact mux_made_multiplexing|vm_compute; reflexivity..].
Defined.

(** The first one does not take its changes, and is removed. *)
Lemma term_dispatched_witness :
  ∃ empty m', mux_turn (MxTerm a_term (λ _, DvTimeout) true) mux_made = Ok (MrDone (Some empty), m') ∧
    (empty = true ↔ ∀ id s opts n, em_subscriptions mux_made !! id = Some s → made_both !! id = Some (opts, n) →
       wanted_of opts a_term = []) ∧
    ∀ id s opts n, em_subscriptions mux_made !! id = Some s → made_both !! id = Some (opts, n) →
      sb_dying s = false →
      em_subscriptions m' !! id =
        match wanted_of opts a_term with
        | [] => Some s
        | _ => None
        end.
Proof.
  apply (term_dispatched made_both [] mux_made a_term (λ _, DvTimeout) true). exact mux_made_multiplexing.
Defined.

(** ** From the log to a subscriber *)

(** A controller starts, a client subscribes to it, and something changes. *)
Definition flow_started : cluster := run_on [CvBoot "0"] (run_on [CvNamespace 7 "unit"] new_cluster).
Definition flow_opened : cluster := run_on [CvStream "0" (EvStart (Ok ()) smooth 0)] flow_started.
Definition flow_mux : EventMultiplexer := turned (MxSubscribe all_but_y (Ok ()) true) NewEventMultiplexer.
Definition flow_logged : cluster := run_on [CvLog change_update 7 "x" 3] flow_opened.
Definition flow_read : cluster := run_on [CvStream "0" (EvRead smooth)] flow_logged.
Definition flow_taken : cluster := run_on [CvStream "0" EvTaken] flow_read.
Definition flow_done : cluster := run_on [CvStream "0" (EvDone (Some false))] flow_taken.

Definition x_changed : changeEvent := MkChangeEvent 1 change_update "unit" "x" 3.
Definition flow_served : EventMultiplexer := turned (MxTerm [x_changed] (λ _, DvReceived) true) flow_mux.
Definition made_one : gmap Z (list SubscriptionOption * nat) := <[1%Z := (all_but_y, 0)]> ∅.

Lemma flow_done_flowing : flowing gives_up "0" flow_done None made_one [[x_changed]] flow_served.
Proof.
  apply (flowing_done _ _ flow_taken _ false); [|vm_compute; reflexivity].
  apply (flowing_term _ _ flow_read _ made_one [] flow_mux (controller_at "0" flow_read) 0 [x_changed]
    (MkTermView 1 1) (λ _, DvReceived)); [|vm_compute; reflexivity..].
  apply (flowing_cluster _ _ (CvStream "0" (EvRead smooth)) flow_logged); [|reflexivity|vm_compute; reflexivity].
  apply (flowing_cluster _ _ (CvLog change_update 7 "x" 3) flow_opened); [|reflexivity|vm_compute; reflexivity].
  apply (flowing_mux _ _ (MxSubscribe all_but_y (Ok ()) true) flow_opened None ∅ [] NewEventMultiplexer
    (MrSubscription (Ok 1%Z))); [|reflexivity|by left|vm_compute; reflexivity..].
  apply (flowing_cluster _ _ (CvStream "0" (EvStart (Ok ()) smooth 0)) flow_started); [|reflexivity|vm_compute; reflexivity].
  apply (flowing_start _ _ (run_on [CvNamespace 7 "unit"] new_cluster)); [|vm_compute; reflexivity].
  apply (run_clustered [CvNamespace 7 "unit"] new_cluster); [constructor|vm_compute; reflexivity].
Qed.

Definition client_served : subscription := MkSubscription {["unit"]} false [[x_changed]].


(** ** Watchers *)

(** A watcher of units, whose consumer took the state at first, and then not yet what
    changed. *)
Lemma namespace_watcher_tells_all_witness :
  [["a"]] ++ (if nw_out (MkNamespaceWatcher false true ["x"]) then [nw_changes (MkNamespaceWatcher false true ["x"])]
              else []) = ["a"] :: mapped defaultMapper [[x_changed]] ∧
  nw_in (MkNamespaceWatcher false true ["x"]) = negb (nw_out (MkNamespaceWatcher false true ["x"])).
Proof.
  apply (namespace_watcher_tells_all defaultMapper ["a"] [[x_changed]] [["a"]] (MkNamespaceWatcher false true ["x"])).
  apply (namespace_run_step defaultMapper ["a"] (WvRead (Some [x_changed])) [] [["a"]]
    (MkNamespaceWatcher true false ["a"]) _ None); [|reflexivity].
  apply (namespace_run_step defaultMapper ["a"] WvSent [] [] (MkNamespaceWatcher false true ["a"]) _ (Some ["a"]));
    [constructor|reflexivity].
Defined.

Lemma notify_watcher_misses_nothing_witness :
  nt_out (MkNotifyWatcher true) = true ∧
  (true = true →
   ∃ w', NotifyWatcher_step defaultMapper WvSent (MkNotifyWatcher true) = Some (Watching w', true)).
Proof.
  apply (notify_watcher_misses_nothing defaultMapper true (MkNotifyWatcher true)).
  apply (notify_run_step defaultMapper (WvRead (Some [x_changed])) false (MkNotifyWatcher false) _ false); [|reflexivity].
  apply (notify_run_step defaultMapper WvSent true (MkNotifyWatcher true) _ true); [constructor|reflexivity].
Defined.

(** ** What modelling showed *)

(** A commit that fails and is tried again: the watermark is taken off the list and
    said to be recorded, but the table does not have it. *)
Definition ready : cluster := run_on (opening ++ rounds) new_cluster.
Definition commit_failed : txn_try :=
  MkTry (AtRuns NoTrouble (CommitFails (ErrConst "database is locked") false)) true.

Lemma watermark_lost_on_failed_commit :
  let '(r, s, d) := updateWatermark gives_up commit_failed 5 (ct_stream (controller_at "0" ready)) (cu_db ready) in
  let '(r', s', d') := updateWatermark gives_up smooth 5 s d in
  r = None ∧ r' = Some (Ok ()) ∧ st_lastRecordedWatermark s' = Some (MkTermView 2 2) ∧
  length (st_watermarks s') = 9 ∧ cw_lower_bound <$> cd_witness d' = [(-1)%Z; (-1)%Z].
Proof. vm_compute. repeat split; reflexivity. Qed.

(** A witness that was deleted is not put back by recording watermarks. *)
Lemma no_rows_affected id d :
  id ∉ cw_controller_id <$> cd_witness d → filter (λ r, cw_controller_id r = id) (cd_witness d) = [].
Proof.
  intros Hid. destruct (filter _ _) as [|w l] eqn:El; [done|].
  assert (w ∈ filter (λ r, cw_controller_id r = id) (cd_witness d)) as Hw by (rewrite El; by left).
  apply list_elem_of_filter in Hw as [E Hw]. destruct Hid. apply list_elem_of_fmap. by exists w.
Qed.

Lemma witness_not_put_back GaveUp y now s d :
  st_id s ∉ cw_controller_id <$> cd_witness d → (updateWatermark GaveUp y now s d).2 = d.
Proof.
  intros Hid%no_rows_affected. destruct (updateWatermark GaveUp y now s d) as [[r s'] d'] eqn:E. simpl.
  apply StdTxn_cases in E as [(_ & ? & _)|(t & x & d1 & E & [?|[Hx ->]] & _)]; [done..|].
  unfold processWatermark in E. case_decide; [by simplify_eq|].
  destruct (st_watermarks s) as [|[v|] rest]; [by simplify_eq| |by simplify_eq].
  assert (∃ e d3, record_watermark (st_id s) now t v d = (Err e, d3)) as (e & d3 & Er).
  { unfold record_watermark, update_witness. rewrite Hid. destruct t as [|[|n] e|n]; simpl; eauto. }
  rewrite Er in E. by simplify_eq.
Qed.

(** A controller whose watermark is an hour old goes unnoticed if another one, with a
    lower watermark, is up to date: the window then ends before it starts. *)
Definition hour_ago : change_db :=
  MkChangeDb [] ∅ [MkWitnessRow "0" 10 12 (7199 * second); MkWitnessRow "1" 20 22 (3600 * second)] 30.

Lemma stale_watermark_unnoticed :
  locateLowestWatermark (7200 * second) no_window hour_ago =
    (10%Z, MkWindow (7199 * second) (3600 * second), false).
Proof. vm_compute. reflexivity. Qed.

(** Rows that end early, as they do on an error, are taken for the whole result. *)
Lemma early_end_taken_for_result :
  readChanges gives_up (MkTry (AtRuns (EndsEarly 1) Committed) false) (NewStream "0") some_changes =
    (Some (Ok ()), [MkChangeEvent 22 change_create "unit" "y" 0], some_changes).
Proof. vm_compute. reflexivity. Qed.
